(* ===== verification/_CoqProject ===== *)
-Q . S2P
Prelude.v
ConcQueue.v
Decimal.v
RouteTable.v
TranBuf.v
BufRead.v
BufWrite.v
Buffer.v
Flow.v
Framing.v
MessageStream.v
Session.v
ScopeRunner.v
HttpText.v
HttpMessage.v
HttpStream.v
HttpReader.v
HttpServer.v
Lz4.v
Blocks.v
Lz4Enc.v
Worker.v
Router.v
Md5.v
Network.v
Msgpack.v
MsgUnpack.v
MsgLua.v
Rpc.v
Handlers.v
Timer.v
DbPool.v
Nats.v
NatsNet.v
Shutdown.v
IoPool.v
Maintain.v
Server.v
Client.v
Kcp.v
KcpListener.v
ThreadPool.v
Await.v
PgValue.v
PgConn.v
RedisValue.v
RedisConn.v
