(* ===== verification/Prelude.v ===== *)
(** * gb_server: a verification development

    gb_server is a C++ game-server framework: I/O threads read length-framed messages from
    TCP, SSL or KCP connections, worker threads run the game logic, and a router decides
    which worker handles a message.  Around this core are an RPC layer with MessagePack
    arguments and Lua scripting, compression of messages, timers, NATS messaging between
    servers, PostgreSQL and Redis clients, a thread pool with coroutines and a graceful
    shutdown.  This library models that core in Rocq, as executable
    definitions close to the source, and proves what makes each part correct.  All paths
    below are under [src/] of the repository's source directory [src/].

    ** How the parts interact

    A received chunk goes from the transport into transfer buffers, through the framing of
    the message stream, to [NetworkManager::OnReceiveCall], which reads the meta of the message
    and dispatches it: a message or request to the executor the router gives for it, a
    response to the worker that made the call.  The worker runs it as a task.  Sending goes
    the other way: [Session::Send] builds a frame in a write buffer, the message stream
    queues it and the I/O thread sends it under the flow controller.

    ** Files and source

    - [Prelude.v] (this file): machine integers as [Z] with the wrap-around written out
      ([wrapu], [wraps]), little-endian bytes, tactics.
    - [ConcQueue.v]: what the code relies on of the lock-free queue the threads share;
      [Decimal.v]: numbers as decimal text, for the clients that send text.
    - [TranBuf.v]: [buffer/tran_buf_pool.h], [buffer_handle.h]: reference-counted blocks.
    - [BufRead.v], [BufWrite.v], [Buffer.v]: [buffer/buffer.h], [buffer.cpp]: the zero-copy
      read and write buffers over shared blocks, and their composition.
    - [Flow.v]: [message_stream/flow_controller.cpp]: quota counters with their
      compare-and-exchange loops.
    - [Framing.v]: the parser of [message_stream/message_stream.cpp]; [MessageStream.v]: the
      connection around it: receive path, send queue, close, callbacks.
    - [Session.v]: [network/io/session.cpp], [message_meta.h]: frames, meta, heartbeat.
    - [RouteTable.v]: [network/router/lock_free_route_table.h]: the entity route table, as
      steps of a writer and readers with the grace period of its snapshots.
    - [Worker.v]: [worker/worker.cpp]: the thread, its tasks, its frame, its shutdown, and the
      pending RPCs.
    - [Router.v]: [worker/worker_manager.cpp], [network/rpc/executor.h],
      [network/router/router.cpp], [route_table.h], [service_worker_type.h].
    - [Md5.v]: [base/md5.hpp], against RFC 1321.
    - [Network.v]: [network/manager/network_manager.cpp]: registration, dispatch, calls.
    - [Msgpack.v], [MsgUnpack.v], [MsgLua.v]: [msgpack/msgpack.hpp], [msgpack.cpp]: packing,
      unpacking to C++ types and to the Lua stack.
    - [Rpc.v]: [network/rpc/rpc_call.cpp], [rpc_timer_pool.cpp]: the life of a call.
    - [Handlers.v]: [network/rpc/function.hpp], [rpc_function.hpp], [rpc_function_help.cpp],
      [rpc_reply.cpp], [network_manager.h]: the wrappers that turn the bytes of a message into
      typed arguments, and the request and reply from end to end.
    - [Lz4.v], [Lz4Enc.v]: [buffer/lz4.cpp]: decompression with every access checked, the
      compressors; [Blocks.v]: [buffer/block_wrappers.cpp]: framed blocks over a codec.
    - [Timer.v]: [timer/timer.cpp], [timer_manager.cpp].
    - [DbPool.v]: [db/postgres/db_pool.cpp]; [PgValue.v], [PgConn.v]: the parameters, results
      and connections of [db/postgres/], over libpq.
    - [RedisValue.v], [RedisConn.v]: [db/redis/]: values and commands, the connection and its
      pool.
    - [Nats.v]: [network/nats/nats_manager.cpp]; [NatsNet.v]: the NATS side of the network
      manager and of the scripts.
    - [ThreadPool.v]: [async/thread_pool.h], [thread_pool_scheduler.h]: the pool for heavy tasks;
      [Await.v]: [network/rpc/rpc_coro.h], [network/http/http_coro.h]: coroutines that wait for
      another thread.
    - [Shutdown.v]: [async/shutdown.cpp].
    - [IoPool.v]: [network/io/io_service_pool.cpp]: the I/O threads and their round robin.
    - [Maintain.v], [Server.v], [Client.v]: [network/io/server.cpp], [client.cpp]: the sessions
      of a server and of a client, their limits, and the timer routine that closes the idle
      and serves those that wait for quota; [StopLock] in [Server.v] is the lock of [Stop]
      and of the timer, with the threads that [Stop] joins.
    - [Kcp.v], [KcpListener.v]: [message_stream/transport/kcp_transport.cpp],
      [network/io/kcp_listener.cpp]: a byte stream over the library ikcp, and the one UDP
      socket of a server.

    - [ScopeRunner.v], [HttpText.v], [HttpMessage.v]: [network/http/utility.hpp],
      [status_code.hpp]: the lock of the handlers, the texts of HTTP, its messages.
    - [HttpStream.v], [HttpReader.v], [HttpServer.v]: [network/http/server_http.hpp]: the reads of
      Asio, how a message is read from them, and a connection of the server.

    In each file the state of the component is a Record whose fields have the names of the
    members, and each operation is a Definition or Fixpoint with the name of the method, with
    its guards in the order of the code.  [None] stands for undefined behaviour or an
    exception where the doc comment of the file says so.  Third-party code (Asio, protobuf,
    the NATS library, libpq, hiredis, ikcp, the Lua API, the allocator) is a parameter of the
    operations or an answer carried by an event.  The interfaces the components are proved
    against are classes: [Double] and [Float] for the floating-point formats, [LibPQ] and
    [Ikcp] for these libraries, [Codec] for a compressor of blocks (its laws [CodecLaws] are
    discharged by the model of LZ4), [CodedStream] for the varints of protobuf and [Multimap] for
    the unordered maps of HTTP fields, whose order is not known.  Concurrent components (route table,
    flow controller, worker,
    RPC call, shutdown, the stop of a server) are step relations or sequences of events over the shared state, in
    which every access to an atomic is a step of its own where the interleaving matters.

    ** What the theorems show

    - Data path: frames survive any chunking of the stream and are delivered in order; the
      buffers refine a stream of bytes; sent data leaves in order; what [Send] builds is
      what [ReadMeta] reads.
    - Routing: the lock-free table refines a map, its readers never meet a deleted snapshot;
      stateful messages go to the worker of their entity, stateless ones round robin.
    - Compression: what LZ4 compresses it decompresses; decompression of arbitrary bytes stays
      inside its buffers and agrees with a reference decoder; the block streams give back what
      was written whatever the sizes of the writes.
    - Calls: an uncompressed typed call gets from the caller's arguments to the function and its
      reply back to the callback, when the first block of each message holds its meta; a reply
      reaches the call it answers; an RPC no timeout of which is lost ends with exactly one call
      of its callback; NATS requests are answered once; within stated limits (short strings and
      containers, no least integers, for scripts no -32) arguments survive packing, for C++
      types and Lua values; unpacking of any bytes gives values of the type that was asked for,
      where it returns.
    - Threads: tasks run in the order they were posted, a stopped worker drains, timers that
      are due are called in order and [Update] ends when callbacks leave the timers alone; the phases of a shutdown run in order.
    - Coroutines and pool: a heavy task runs once, a waiting coroutine resumes once on its
      worker with the result.
    - HTTP: a request reaches its handler whole in whatever pieces it arrives, the parser ends
      on any input, query strings survive, and no handler runs in a destroyed server.
    - Databases and NATS: operations on a PostgreSQL connection run in order and each gets its
      own result, rows reach the script; where a closed connection or a redis connect never
      calls back; an answer over NATS comes from the inbox of its request.
    - Connections: over KCP the bytes written and read stay in order whatever the library
      refuses, and conversations do not mix; sessions that wait for quota are served in the
      order they came; idle sessions are closed; [Server::Stop] and the restart of the
      listener can deadlock.
    - Accounting: quotas bound what is granted, the connection pool counts its connections,
      the timer queues hold exactly the owned timers.
    - Limits and faults: theorems of kind error, liveness and termination state where the code
      loses data or does not end: negative sizes in a frame header, long strings in
      MessagePack, unknown bytes from a script, a meta split over two blocks, a limit that is
      lifted under waiting sessions, limits of a client that are never applied.

    ** Bounds and fuel

    Loops that the code ends by itself are structural recursions or have fuel, and a theorem
    says how much is enough: the bytes left for the parser and the Lua loop ([lua_loop_ends]),
    one round more than a queue has timers ([update_calls_what_is_due]), the length of the
    queues for an RPC ([call_settles]), the bytes a KCP transport holds
    ([kcp_streams_in_order]), the messages ikcp has ([drain_input_ends]), the results libpq still
    holds ([results_left]), the length of the source for LZ4 decompression, twice that for
    compression, the characters of a message for the header fields ([request_parse_ends]).  LZ4 sources
    are at most 4 MiB, more than a block the streams make.  Integers wrap at their width wherever the code can
    reach the bound; sizes of containers are assumed below 2^62 or 2^63 where a theorem
    says so, clocks do not overflow.

    ** Not modelled

    The HTTP client, gzip (a stream around zlib), TLS and the sockets themselves, the signal
    handler, the bindings of Lua through sol2 and protobuf reflection, logging and
    start-up wiring: they are I/O, third-party code or forwarding.  Of the modelled files, the
    branches for 32-bit and big-endian machines and functions no code calls ([LZ4_uncompress],
    [PackBuffer]) are left out.  The manifest lists every part with the reason. *)

From Stdlib Require Export ZArith Lia ZifyBool.
From stdpp Require Export base gmap sets list strings numbers option sorting relations.
Export list_relations.list.

#[global] Open Scope Z_scope.

(** ** Machine integers

    A [w]-bit integer of the code is a [Z] in the range below; the wrap-around of
    unsigned arithmetic and of conversions is written with [wrapu] and [wraps]. *)

Definition wrapu (w z : Z) : Z := z mod 2 ^ w.
Definition wraps (w z : Z) : Z := (z + 2 ^ (w - 1)) mod 2 ^ w - 2 ^ (w - 1).

Definition in_u (w z : Z) : Prop := 0 <= z < 2 ^ w.
Definition in_s (w z : Z) : Prop := - 2 ^ (w - 1) <= z < 2 ^ (w - 1).

Declare Scope gb_scope.
Delimit Scope gb_scope with gb.
Notation "'u8' z" := (wrapu 8 z) (at level 9) : gb_scope.
Notation "'u16' z" := (wrapu 16 z) (at level 9) : gb_scope.
Notation "'u32' z" := (wrapu 32 z) (at level 9) : gb_scope.
Notation "'u64' z" := (wrapu 64 z) (at level 9) : gb_scope.
Notation "'i32' z" := (wraps 32 z) (at level 9) : gb_scope.
Notation "'i64' z" := (wraps 64 z) (at level 9) : gb_scope.
#[global] Open Scope gb_scope.

Create HintDb gb.
Create Rewrite HintDb gb.

Lemma wrapu_range w z : 0 <= w -> in_u w (wrapu w z).
Proof. intros H. unfold in_u, wrapu. apply Z.mod_pos_bound. lia. Qed.

Lemma wrapu_small w z : in_u w z -> wrapu w z = z.
Proof. intros H. unfold wrapu, in_u in *. apply Z.mod_small. lia. Qed.

Lemma wrapu_idemp w z : wrapu w (wrapu w z) = wrapu w z.
Proof. unfold wrapu. apply Zmod_mod. Qed.

Lemma wraps_small w z : 0 < w -> in_s w z -> wraps w z = z.
Proof.
  intros Hw H. unfold wraps, in_s in *.
  assert (2 ^ w = 2 * 2 ^ (w - 1)) as E.
  { rewrite <- Z.pow_succ_r by lia. f_equal. lia. }
  rewrite Z.mod_small by lia. lia.
Qed.

Lemma wraps_range w z : 0 < w -> in_s w (wraps w z).
Proof.
  intros Hw. unfold wraps, in_s.
  assert (2 ^ w = 2 * 2 ^ (w - 1)) as E.
  { rewrite <- Z.pow_succ_r by lia. f_equal. lia. }
  assert (0 < 2 ^ w) by lia.
  pose proof (Z.mod_pos_bound (z + 2 ^ (w - 1)) (2 ^ w)). lia.
Qed.

Lemma in_u_dec_prop w z : Decision (in_u w z).
Proof. unfold in_u. apply _. Defined.
#[export] Existing Instance in_u_dec_prop.

#[export] Hint Resolve wrapu_range wraps_range : gb.
#[export] Hint Rewrite wrapu_idemp : gb.

(** ** Little-endian bytes *)

Fixpoint le_value (bytes : list Z) : Z :=
  match bytes with [] => 0 | b :: r => b + 256 * le_value r end.

Fixpoint le_bytes (n : nat) (z : Z) : list Z :=
  match n with O => [] | S m => z mod 256 :: le_bytes m (z / 256) end.

Lemma length_le_bytes n z : length (le_bytes n z) = n.
Proof. revert z. induction n; intros z; simpl; auto. Qed.

Lemma le_bytes_value n z : le_value (le_bytes n z) = z mod 256 ^ Z.of_nat n.
Proof.
  revert z. induction n as [|n IH]; intros z; [simpl; by rewrite Z.mod_1_r|].
  cbn [le_bytes le_value]. rewrite IH, Nat2Z.inj_succ, Z.pow_succ_r by lia.
  rewrite Z.rem_mul_r by (try apply Z.pow_nonzero; lia). lia.
Qed.

Lemma wraps_mod w z : 0 < w -> in_s w z -> wraps w (z mod 2 ^ w) = z.
Proof.
  intros Hw Hz. rewrite <- (wraps_small w z) at 2 by done. unfold wraps.
  by rewrite Zplus_mod_idemp_l.
Qed.

(** ** Executions of a step function

    A component with interleaved steps is a function that gives the next state for a label,
    or [None] when the step is not possible. *)

Section Steps.
Context {S L : Type} (step : L -> S -> option S).

Fixpoint run_steps (ls : list L) (s : S) : option S :=
  match ls with
  | [] => Some s
  | l :: r => s' ← step l s; run_steps r s'
  end.

Lemma run_steps_app a b s s' : run_steps a s = Some s' -> run_steps (a ++ b) s = run_steps b s'.
Proof.
  revert s. induction a as [|l r IH]; intros s; simpl; [by intros [= ->]|].
  destruct (step l s); simpl; [apply IH|done].
Qed.

(** Rule induction: what every step preserves holds of what is reached. *)
Lemma run_steps_invariant (P : S -> Prop) :
  (forall l s s', P s -> step l s = Some s' -> P s') ->
  forall ls s s', P s -> run_steps ls s = Some s' -> P s'.
Proof.
  intros Hstep ls. induction ls as [|l r IH]; intros s s' Hs He; simpl in He; [by injection He as <-|].
  destruct (step l s) as [s1|] eqn:E; simpl in He; [|done]. eapply IH; [|exact He]. by eapply Hstep.
Qed.
End Steps.
Arguments run_steps_invariant {S L step} P _ _ _ _ _ _.

(** ** Tactics of the development *)

(** Case analysis on the boolean comparisons of [Z] in the goal and the context. *)
Ltac zify_bool :=
  repeat match goal with
  | H : (_ && _)%bool = true |- _ => apply andb_prop in H as [? ?]
  | H : (_ && _)%bool = false |- _ => apply andb_false_iff in H as [?|?]
  | H : (_ || _)%bool = true |- _ => apply orb_prop in H as [?|?]
  | H : (_ || _)%bool = false |- _ => apply orb_false_elim in H as [? ?]
  | H : negb _ = true |- _ => apply negb_true_iff in H
  | H : negb _ = false |- _ => apply negb_false_iff in H
  | H : (_ <? _) = true |- _ => apply Z.ltb_lt in H
  | H : (_ <? _) = false |- _ => apply Z.ltb_ge in H
  | H : (_ <=? _) = true |- _ => apply Z.leb_le in H
  | H : (_ <=? _) = false |- _ => apply Z.leb_gt in H
  | H : (_ =? _) = true |- _ => apply Z.eqb_eq in H
  | H : (_ =? _) = false |- _ => apply Z.eqb_neq in H
  end.

(** Split every [if] on a comparison, then solve what is linear. *)
Ltac split_ifs :=
  repeat match goal with
  | |- context [if ?b then _ else _] => let E := fresh "E" in destruct b eqn:E
  | H : context [if ?b then _ else _] |- _ => let E := fresh "E" in destruct b eqn:E
  end; zify_bool.

(** Split the conjunctions one can see, and no definition. *)
Ltac splits := repeat match goal with |- _ /\ _ => split end.

(** One case analysis on an [if]; [lia] reads the boolean equation. *)
Ltac case_if :=
  match goal with
  | |- context [if ?b then _ else _] => destruct b eqn:?
  | H : context [if ?b then _ else _] |- _ => destruct b eqn:?
  end.
