(* ===== verification/ConcQueue.v ===== *)
(** * ConcQueue: the third-party [moodycamel::ConcurrentQueue] as the code relies on it

    What one producer puts in comes out in this order; elements of different producers come
    out in any order; [try_dequeue] finds nothing only when the queue is empty.  Shared by the
    worker and the thread pool. *)

From S2P Require Import Prelude.

Section Queue.
Context {T : Type}.
Implicit Types (q : list (nat * T)).

(** What producer [p] has in the queue. *)
Definition queued (p : nat) q : list T :=
  omap (fun x => if Nat.eqb (fst x) p then Some (snd x) else None) q.

(** [try_dequeue] takes an element that is the oldest of its producer. *)
Definition try_dequeue (i : nat) q : option (nat * T * list (nat * T)) :=
  match q !! i with
  | None => None
  | Some (p, t) =>
      if existsb (fun x => Nat.eqb (fst x) p) (take i q) then None
      else Some (p, t, take i q ++ drop (S i) q)
  end.

Lemma queued_app p a b : queued p (a ++ b) = queued p a ++ queued p b.
Proof. apply omap_app. Qed.

Lemma try_dequeue_spec i q p t q' :
  try_dequeue i q = Some (p, t, q') ->
  exists l1 l2, q = l1 ++ (p, t) :: l2 /\ q' = l1 ++ l2 /\ queued p l1 = [].
Proof.
  unfold try_dequeue. destruct (q !! i) as [[p0 t0]|] eqn:E; [|done].
  destruct (existsb _ _) eqn:Ex; [done|]. intros [= -> -> <-].
  exists (take i q), (drop (S i) q). splits; [by rewrite take_drop_middle|done|].
  revert Ex. generalize (take i q). clear. intros l. induction l as [|[a b] l IH]; simpl; [done|].
  destruct (Nat.eqb a p); simpl; [done|apply IH].
Qed.

(** Taking an element is taking the first of its producer. *)
Lemma queued_take p0 p t l1 l2 :
  queued p l1 = [] -> queued p0 (l1 ++ (p, t) :: l2) = queued p0 [(p, t)] ++ queued p0 (l1 ++ l2).
Proof.
  intros H. rewrite !queued_app. cbn. destruct (Nat.eqb p p0) eqn:E; [|done].
  apply Nat.eqb_eq in E as ->. by rewrite H.
Qed.

Lemma try_dequeue_head x q : try_dequeue 0 (x :: q) = Some (fst x, snd x, q).
Proof. by destruct x. Qed.

Lemma queued_cons p t q : queued p ((p, t) :: q) = t :: queued p q.
Proof. cbn. by rewrite Nat.eqb_refl. Qed.

Lemma queued_other p p' t q : p <> p' -> queued p' ((p, t) :: q) = queued p' q.
Proof. cbn. intros H. apply Nat.eqb_neq in H. by rewrite H. Qed.
End Queue.

(** ** The values of a finite map, up to order *)

Section Values.
Context {A : Type}.
Implicit Types (m : gmap nat A).

Definition map_values m : list A := (map_to_list m).*2.

Lemma map_values_empty : map_values (∅ : gmap nat A) = [].
Proof. unfold map_values. by rewrite map_to_list_empty. Qed.

Lemma map_values_insert m i x : m !! i = None -> map_values (<[i := x]> m) ≡ₚ x :: map_values m.
Proof. intros H. unfold map_values. by rewrite map_to_list_insert. Qed.

Lemma map_values_delete m i x : m !! i = Some x -> map_values m ≡ₚ x :: map_values (delete i m).
Proof.
  intros H. rewrite <- (insert_delete_id m i x H) at 1. apply map_values_insert, lookup_delete_eq.
Qed.

Lemma map_values_update m i x : map_values (<[i := x]> m) ≡ₚ x :: map_values (delete i m).
Proof. rewrite <- insert_delete_eq. apply map_values_insert, lookup_delete_eq. Qed.

Lemma map_values_forall (P : A -> Prop) m :
  Forall P (map_values m) <-> forall i x, m !! i = Some x -> P x.
Proof.
  unfold map_values. rewrite Forall_fmap, Forall_forall. split.
  - intros H i x Hx. apply (H (i, x)). by apply elem_of_map_to_list.
  - intros H [i x] Hx%elem_of_map_to_list. by apply (H i).
Qed.
End Values.
