(* ===== verification/Decimal.v ===== *)
(** * Decimal: numbers as decimal text

    [std::to_string], [std::stoul] and [strtoll] of the standard library, on lists of bytes,
    string literals as bytes, and the functions the code uses on [double], which are a class. *)

From Stdlib Require Import Ascii String.
From S2P Require Import Prelude.
Export list_relations.list.

Definition bytes := list Z.

(** A string literal. *)
Definition text (s : string) : bytes := List.map (fun c => Z.of_nat (nat_of_ascii c)) (list_ascii_of_string s).
Arguments text s%_string.

(** [std::to_string] of a natural number; [fuel] is the number of digits at most. *)
Fixpoint to_digits (fuel : nat) (n : Z) (acc : list Z) : list Z :=
  match fuel with
  | O => acc
  | S fuel =>
      let acc := 48 + n mod 10 :: acc in
      if n <? 10 then acc else to_digits fuel (n / 10) acc
  end.

Definition to_string (n : Z) : list Z := to_digits 20 n [].

(** [std::stoul]: blanks, a sign, digits up to the first other character; [None] for the
    exceptions (no digit, or too large). *)
Definition is_space (c : Z) : bool := (c =? 32) || ((9 <=? c) && (c <=? 13)).

Fixpoint skip_spaces (l : list Z) : list Z :=
  match l with c :: r => if is_space c then skip_spaces r else l | [] => [] end.

Definition is_digit (c : Z) : bool := (48 <=? c) && (c <=? 57).

Fixpoint digits_value (l : list Z) (acc : Z) : Z :=
  match l with c :: r => if is_digit c then digits_value r (10 * acc + (c - 48)) else acc | [] => acc end.

Definition unsigned_digits (l : list Z) : option Z :=
  match l with
  | c :: _ => if is_digit c then let v := digits_value l 0 in if v <? 2 ^ 64 then Some v else None else None
  | [] => None
  end.

Definition stoul (l : list Z) : option Z :=
  match skip_spaces l with
  | c :: r =>
      if c =? 45 then v ← unsigned_digits r; Some (u64 (- v))
      else if c =? 43 then unsigned_digits r
      else unsigned_digits (c :: r)
  | [] => None
  end.

(** [std::to_string] of a signed number. *)
Definition signed_string (n : Z) : bytes := if n <? 0 then 45 :: to_string (- n) else to_string n.

(** [strtoll] in base 10: [None] when nothing was converted; the value saturates at 64 bits. *)
Definition clamp64 (v : Z) : Z := Z.max (- 2 ^ 63) (Z.min (2 ^ 63 - 1) v).

Definition digits_opt (l : bytes) : option Z :=
  match l with c :: _ => if is_digit c then Some (digits_value l 0) else None | [] => None end.

Definition strtoll (l : bytes) : option Z :=
  match skip_spaces l with
  | c :: r =>
      if c =? 45 then v ← digits_opt r; Some (clamp64 (- v))
      else if c =? 43 then v ← digits_opt r; Some (clamp64 v)
      else v ← digits_opt (c :: r); Some (clamp64 v)
  | [] => None
  end.

(** The type [double] and what the code does with it. *)
Class Double := {
  double : Type;
  d_zero : double;
  d_one : double;
  d_minus_one : double;
  d_of_int : Z -> double;
  d_to_int : double -> Z;
  strtod : bytes -> option double;     (* [None]: nothing was converted *)
  d_to_string : double -> bytes;
}.

Lemma to_digits_spec fuel n acc :
  (0 < fuel)%nat -> 0 <= n < 10 ^ Z.of_nat fuel ->
  exists ds, to_digits fuel n acc = ds ++ acc /\ ds <> [] /\ Forall (fun c => 48 <= c <= 57) ds /\
    forall a r, digits_value (ds ++ r) a = digits_value r (10 ^ Z.of_nat (length ds) * a + n).
Proof.
  revert n acc. induction fuel as [|fuel IH]; intros n acc Hf Hn; [lia|]. cbn [to_digits].
  pose proof (Z.mod_pos_bound n 10). destruct (Z.ltb_spec n 10) as [Hlt|Hge].
  - exists [48 + n mod 10]. splits; [done|done|repeat constructor; lia|]. intros a r.
    cbn [app digits_value]. unfold is_digit. rewrite (proj2 (Z.leb_le _ _)), (proj2 (Z.leb_le _ _)) by lia.
    cbn [andb length]. f_equal. rewrite Z.mod_small by lia. lia.
  - rewrite Nat2Z.inj_succ, Z.pow_succ_r in Hn by lia.
    assert (0 <= n / 10 < 10 ^ Z.of_nat fuel) as Hd.
    { split; [apply Z.div_pos; lia|apply Z.div_lt_upper_bound; lia]. }
    assert (0 < fuel)%nat as Hf' by (destruct fuel; [cbn in Hd; pose proof (Z.div_le_mono 10 n 10); lia|lia]).
    destruct (IH (n / 10) (48 + n mod 10 :: acc) Hf' Hd) as (ds & -> & Hne & Hds & Hv).
    exists (ds ++ [48 + n mod 10]). splits.
    + by rewrite <- app_assoc.
    + by destruct ds.
    + apply Forall_app. split; [done|repeat constructor; lia].
    + intros a r. rewrite <- app_assoc, Hv. cbn [app digits_value]. unfold is_digit.
      rewrite (proj2 (Z.leb_le _ _)), (proj2 (Z.leb_le _ _)) by lia. cbn [andb].
      rewrite length_app, Nat2Z.inj_add, Z.pow_add_r by lia. cbn [length]. f_equal.
      pose proof (Z.div_mod n 10). change (10 ^ Z.of_nat 1) with 10. lia.
Qed.

(** The decimal text of a number below 2^64. *)
Lemma to_string_spec n :
  in_u 64 n ->
  to_string n <> [] /\ Forall (fun c => 48 <= c <= 57) (to_string n) /\ stoul (to_string n) = Some n.
Proof.
  intros Hn. unfold in_u in Hn. unfold to_string.
  destruct (to_digits_spec 20 n []) as (ds & -> & Hne & Hds & Hv); [lia|cbn; lia|].
  rewrite app_nil_r. splits; [done|done|].
  specialize (Hv 0 []). rewrite app_nil_r in Hv. cbn [digits_value] in Hv.
  destruct ds as [|c ds]; [done|]. apply Forall_cons in Hds as [Hc _].
  unfold stoul. cbn [skip_spaces]. unfold is_space.
  rewrite (proj2 (Z.eqb_neq c 32)), (proj2 (Z.leb_gt c 13)), andb_false_r by lia. cbn [orb].
  rewrite (proj2 (Z.eqb_neq c 45)), (proj2 (Z.eqb_neq c 43)) by lia.
  unfold unsigned_digits. unfold is_digit. rewrite (proj2 (Z.leb_le 48 c)), (proj2 (Z.leb_le c 57)) by lia.
  cbn [andb]. rewrite Hv. replace (_ * 0 + n) with n by lia. by rewrite (proj2 (Z.ltb_lt _ _)) by lia.
Qed.

(** The digits of a number below 10^20 begin with a digit and have its value. *)
Lemma to_string_digits n :
  0 <= n < 10 ^ 20 -> exists c r, to_string n = c :: r /\ 48 <= c <= 57 /\ digits_opt (to_string n) = Some n.
Proof.
  intros Hn. unfold to_string.
  destruct (to_digits_spec 20 n []) as (ds & -> & Hne & Hds & Hv); [lia|cbn; lia|].
  rewrite app_nil_r. specialize (Hv 0 []). rewrite app_nil_r in Hv. cbn [digits_value] in Hv.
  destruct ds as [|c ds]; [done|]. apply Forall_cons in Hds as [Hc _]. exists c, ds. splits; [done|lia|lia|].
  unfold digits_opt, is_digit. rewrite (proj2 (Z.leb_le 48 c)), (proj2 (Z.leb_le c 57)) by lia. cbn [andb].
  rewrite Hv. f_equal. lia.
Qed.

Lemma clamp64_id v : in_s 64 v -> clamp64 v = v.
Proof. unfold in_s, clamp64. lia. Qed.

Lemma clamp64_range v : in_s 64 (clamp64 v).
Proof. unfold in_s, clamp64. lia. Qed.

(** What [to_string] writes, [strtoll] reads. *)
Lemma strtoll_signed_string n : in_s 64 n -> strtoll (signed_string n) = Some n.
Proof.
  intros Hn. pose proof Hn as Hn'. unfold in_s in Hn'. unfold signed_string.
  destruct (Z.ltb_spec n 0) as [Hneg|Hpos].
  - destruct (to_string_digits (- n)) as (c & r & E & Hc & Hv); [lia|].
    change (strtoll (45 :: to_string (- n))) with (v ← digits_opt (to_string (- n)); Some (clamp64 (- v))).
    rewrite Hv. cbn [mbind option_bind]. by rewrite Z.opp_involutive, clamp64_id.
  - destruct (to_string_digits n) as (c & r & E & Hc & Hv); [lia|]. rewrite E in *.
    unfold strtoll. cbn [skip_spaces]. unfold is_space.
    rewrite (proj2 (Z.eqb_neq c 32)), (proj2 (Z.leb_gt c 13)), andb_false_r by lia. cbn [orb].
    rewrite (proj2 (Z.eqb_neq c 45)), (proj2 (Z.eqb_neq c 43)) by lia. rewrite Hv. cbn. by rewrite clamp64_id.
Qed.

Lemma strtoll_range l v : strtoll l = Some v -> in_s 64 v.
Proof.
  unfold strtoll. destruct (skip_spaces l) as [|c r]; [done|].
  destruct (c =? 45); [|destruct (c =? 43)]; destruct (digits_opt _); intros [= <-]; apply clamp64_range.
Qed.
