(* ===== verification/RouteTable.v ===== *)
(** * The entity route table ([src/network/router/lock_free_route_table.h])

    [LockFreeRouteTable] maps 64-bit entity ids to worker indices.  The writer (main
    thread) edits [pending_]; [Freeze] sorts it and publishes a snapshot; readers run a
    binary search on the snapshot that [current_] points to.  Snapshots live in a small
    store, so that their reclamation (two [Freeze]s later) is part of the model. *)

From S2P Require Import Prelude.

Module LockFreeRouteTable.

Definition kInvalidWorker : Z := 2 ^ 32 - 1.

Record Entry := mkEntry { begin_ : Z; end_ : Z; worker_index : Z }.

(** ** Writer side *)

(** One pass of the [for] loop of [Bind].  The flag is [restart]: a fully enclosing
    entry was split, the iterators are invalid and the scan starts again. *)
Fixpoint bind_scan (b e : Z) (vec : list Entry) : list Entry * bool :=
  match vec with
  | [] => ([], false)
  | it :: rest =>
      if (end_ it <=? b) || (e <=? begin_ it) then
        let '(r, restart) := bind_scan b e rest in (it :: r, restart)
      else if (begin_ it <? b) && (e <? end_ it) then
        (mkEntry (begin_ it) b (worker_index it)
           :: mkEntry e (end_ it) (worker_index it) :: rest, true)
      else if begin_ it <? b then
        let '(r, restart) := bind_scan b e rest in
        (mkEntry (begin_ it) b (worker_index it) :: r, restart)
      else if e <? end_ it then
        let '(r, restart) := bind_scan b e rest in
        (mkEntry e (end_ it) (worker_index it) :: r, restart)
      else bind_scan b e rest
  end.

(** The [while (restart)] loop; [None] when the fuel runs out. *)
Fixpoint bind_loop (fuel : nat) (b e : Z) (vec : list Entry) : option (list Entry) :=
  match fuel with
  | O => None
  | S n =>
      let '(vec', restart) := bind_scan b e vec in
      if restart then bind_loop n b e vec' else Some vec'
  end.

Definition Bind (b e w : Z) (vec : list Entry) : option (list Entry) :=
  if e <=? b then Some vec
  else v ← bind_loop (S (length vec)) b e vec; Some (v ++ [mkEntry b e w]).

Definition BindSingle (entity_id w : Z) (vec : list Entry) : option (list Entry) :=
  Bind entity_id (u64 (entity_id + 1)) w vec.

Fixpoint Unbind (entity_id : Z) (vec : list Entry) : list Entry :=
  match vec with
  | [] => []
  | it :: rest =>
      if (begin_ it <=? entity_id) && (entity_id <? end_ it) then
        if (begin_ it =? entity_id) && (end_ it =? u64 (entity_id + 1)) then rest
        else if begin_ it =? entity_id then
          mkEntry (u64 (entity_id + 1)) (end_ it) (worker_index it) :: rest
        else if end_ it =? u64 (entity_id + 1) then
          mkEntry (begin_ it) entity_id (worker_index it) :: rest
        else
          mkEntry (begin_ it) entity_id (worker_index it)
            :: mkEntry (u64 (entity_id + 1)) (end_ it) (worker_index it) :: rest
      else it :: Unbind entity_id rest
  end.

(** [std::sort] by [begin].  The order of entries with equal [begin] is unspecified by
    the standard; [sort_entries_unique] below shows that the tables [Bind] builds have
    only one sorted permutation. *)
Fixpoint insert_entry (x : Entry) (l : list Entry) : list Entry :=
  match l with
  | [] => [x]
  | y :: r => if begin_ x <=? begin_ y then x :: l else y :: insert_entry x r
  end.

Definition sort_entries (l : list Entry) : list Entry := foldr insert_entry [] l.

(** The merge loop of [Freeze]; [acc] is the snapshot with its last element first. *)
Fixpoint merge_entries (acc : list Entry) (l : list Entry) : list Entry :=
  match l with
  | [] => rev acc
  | e :: r =>
      match acc with
      | last :: acc' =>
          if begin_ e <? end_ last then
            merge_entries
              (mkEntry (begin_ last)
                 (if end_ last <? end_ e then end_ e else end_ last)
                 (worker_index e) :: acc') r
          else merge_entries (e :: acc) r
      | [] => merge_entries [e] r
      end
  end.

(** ** Reader side *)

(** [std::upper_bound] on [begin]: first position whose [begin] is above [val]. *)
Fixpoint upper_bound (fuel : nat) (t : list Entry) (val : Z) (first len : nat) : nat :=
  match fuel with
  | O => first
  | S n =>
      if (len =? 0)%nat then first
      else
        let half := (len / 2)%nat in
        let mid := (first + half)%nat in
        match t !! mid with
        | Some x =>
            if val <? begin_ x then upper_bound n t val first half
            else upper_bound n t val (S mid) (len - half - 1)
        | None => first
        end
  end.

Definition search (t : list Entry) (entity_id : Z) : Z :=
  let it := upper_bound (S (length t)) t entity_id 0 (length t) in
  match it with
  | O => kInvalidWorker
  | S p =>
      match t !! p with
      | Some x =>
          if (begin_ x <=? entity_id) && (entity_id <? end_ x)
          then worker_index x else kInvalidWorker
      | None => kInvalidWorker
      end
  end.

(** ** The object: the pending table, and the store of published snapshots *)

Record state := mkState {
  pending_ : list Entry;
  snaps : gmap nat (list Entry);   (* live snapshots, by address *)
  next_snap : nat;                 (* next address [new Table()] returns *)
  current_ : option nat;
  retired_ : option nat;
}.

Definition init : state := mkState [] ∅ 0 None None.

Definition set_pending (s : state) (v : list Entry) : state :=
  mkState v (snaps s) (next_snap s) (current_ s) (retired_ s).

(** [delete p]: [None] is a second [delete] of the same address. *)
Definition delete_snap (p : option nat) (m : gmap nat (list Entry)) :
    option (gmap nat (list Entry)) :=
  match p with
  | Some i => _ ← m !! i; Some (delete i m)
  | None => Some m
  end.

Definition Freeze (s : state) : option state :=
  let sorted := sort_entries (pending_ s) in
  let id := next_snap s in
  let m := <[id := merge_entries [] sorted]> (snaps s) in
  m' ← delete_snap (retired_ s) m;
  Some (mkState sorted m' (S id) (Some id) (current_ s)).

(** The destructor: what is left of the snapshot store. *)
Definition destroy (s : state) : option (gmap nat (list Entry)) :=
  m ← delete_snap (current_ s) (snaps s); delete_snap (retired_ s) m.

(** A read through a pointer loaded earlier: [None] is an access to freed memory. *)
Definition read_snapshot (s : state) (p : option nat) (entity_id : Z) : option Z :=
  match p with
  | None => Some kInvalidWorker
  | Some i => t ← snaps s !! i; Some (search t entity_id)
  end.

Definition Lookup (s : state) (entity_id : Z) : option Z :=
  read_snapshot s (current_ s) entity_id.

Definition IsEmpty (s : state) : option bool :=
  match current_ s with
  | None => Some true
  | Some i => t ← snaps s !! i; Some (bool_decide (t = []))
  end.

(** The abstract content of a table: the worker of the first entry that contains [id]. *)
Definition covers (x : Entry) (id : Z) : bool := (begin_ x <=? id) && (id <? end_ x).

Fixpoint route (t : list Entry) (id : Z) : option Z :=
  match t with
  | [] => None
  | x :: r => if covers x id then Some (worker_index x) else route r id
  end.

(** ** Well-formed tables: non-empty 64-bit intervals, pairwise disjoint *)

Definition good_entry (x : Entry) : Prop :=
  0 <= begin_ x /\ begin_ x < end_ x /\ end_ x < 2 ^ 64.

Definition disj (x y : Entry) : Prop := end_ x <= begin_ y \/ end_ y <= begin_ x.

Fixpoint disjoint_table (t : list Entry) : Prop :=
  match t with
  | [] => True
  | x :: r => Forall (disj x) r /\ disjoint_table r
  end.

Definition wf (t : list Entry) : Prop := Forall good_entry t /\ disjoint_table t.

Definition within (y x : Entry) : Prop := begin_ x <= begin_ y /\ end_ y <= end_ x.

Ltac route_auto :=
  unfold covers, disj, good_entry, within in *; simpl in *;
  repeat match goal with
  | |- context [if ?b then _ else _] => destruct b eqn:?; zify_bool; simpl
  | H : _ \/ _ |- _ => destruct H
  end; try done; try lia.

(** *** One scan *)

(** Every entry of the scanned table lies within an entry of the original one. *)
Lemma bind_scan_within b e vec :
  Forall (fun y => exists x, x ∈ vec /\ within y x) (bind_scan b e vec).1.
Proof.
  induction vec as [|it rest IH]; simpl; [by constructor|].
  assert (Forall (fun y => exists x, x ∈ it :: rest /\ within y x) (bind_scan b e rest).1)
    as IH'.
  { eapply Forall_impl; [exact IH|]. intros y (x & Hx & Hw). exists x. split; [by right|done]. }
  assert (forall y, y ∈ rest -> exists x, x ∈ it :: rest /\ within y x) as Hrest.
  { intros y Hy. exists y. split; [by right|unfold within; lia]. }
  assert (forall y, within y it -> exists x, x ∈ it :: rest /\ within y x) as Hit.
  { intros y Hy. exists it. split; [by left|done]. }
  destruct (bind_scan b e rest) as [r f]. simpl in *.
  split_ifs; simpl; repeat apply Forall_cons_2; auto;
    try (rewrite Forall_forall; exact Hrest); apply Hit; unfold within; simpl; lia.
Qed.

Lemma disj_within x x' y y' : within x' x -> within y' y -> disj x y -> disj x' y'.
Proof. unfold within, disj. lia. Qed.

Lemma Forall_disj_within it it' l l' :
  within it' it -> Forall (disj it) l ->
  Forall (fun y => exists x, x ∈ l /\ within y x) l' -> Forall (disj it') l'.
Proof.
  intros Hw Hd Hs. rewrite Forall_forall in Hd. eapply Forall_impl; [exact Hs|].
  intros y (x & Hx & Hyx). eapply disj_within; [exact Hw|exact Hyx|auto].
Qed.

Lemma bind_scan_wf b e vec : b < e -> wf vec -> wf (bind_scan b e vec).1.
Proof.
  intros Hbe. induction vec as [|it rest IH]; simpl; [done|].
  intros [[Hg Hgr]%Forall_cons_1 [Hd Hdr]].
  pose proof (bind_scan_within b e rest) as Hw.
  destruct IH as [IHg IHd]; [by split|].
  assert (forall it', within it' it -> Forall (disj it') (bind_scan b e rest).1) as Hdisj.
  { intros it' Hit'. by eapply Forall_disj_within. }
  assert (forall it', within it' it -> Forall (disj it') rest) as Hdisj0.
  { intros it' Hit'. eapply Forall_disj_within; [done|done|].
    apply Forall_forall. intros y Hy. exists y. split; [done|unfold within; lia]. }
  destruct (bind_scan b e rest) as [r f]. simpl in *.
  unfold good_entry in Hg.
  split_ifs; simpl; (split; [repeat apply Forall_cons_2|repeat split]); simpl; auto;
    try (unfold good_entry; simpl; lia); try (apply Hdisj || apply Hdisj0);
    try apply Forall_cons_2; try (apply Hdisj || apply Hdisj0);
    unfold within, disj; simpl; lia.
Qed.

(** Outside the new interval no route changes; when the scan ends without a restart no
    entry meets the interval any more. *)
Lemma bind_scan_route b e vec id :
  ~ (b <= id < e) -> route (bind_scan b e vec).1 id = route vec id.
Proof.
  intros Hid. induction vec as [|it rest IH]; simpl; [done|].
  destruct (bind_scan b e rest) as [r f]. simpl in *.
  unfold covers. split_ifs; simpl; rewrite <- ?IH; unfold covers; simpl; split_ifs;
    done || lia.
Qed.

Lemma bind_scan_clear b e vec :
  (bind_scan b e vec).2 = false ->
  Forall (fun x => end_ x <= b \/ e <= begin_ x) (bind_scan b e vec).1.
Proof.
  induction vec as [|it rest IH]; simpl; [by constructor|].
  destruct (bind_scan b e rest) as [r f]. simpl in *.
  intros H. destruct ((end_ it <=? b) || (e <=? begin_ it)) eqn:E1; zify_bool; simpl in *.
  - apply Forall_cons_2; auto; lia.
  - apply Forall_cons_2; auto; lia.
  - split_ifs; simpl in *; try done; try (apply Forall_cons_2; simpl); auto; lia.
Qed.

(** *** Termination of the restart loop *)

Definition encloses (b e : Z) (x : Entry) : bool := (begin_ x <? b) && (e <? end_ x).

Definition enclosing (b e : Z) (vec : list Entry) : nat :=
  length (filter (fun x => encloses b e x = true) vec).

Lemma enclosing_cons b e x l :
  enclosing b e (x :: l) = ((if encloses b e x then 1 else 0) + enclosing b e l)%nat.
Proof.
  unfold enclosing. rewrite filter_cons. by destruct (encloses b e x).
Qed.

Lemma bind_scan_decreases b e vec :
  b < e ->
  if (bind_scan b e vec).2
  then (enclosing b e (bind_scan b e vec).1 < enclosing b e vec)%nat
  else (enclosing b e (bind_scan b e vec).1 <= enclosing b e vec)%nat.
Proof.
  intros Hbe. induction vec as [|it rest IH]; simpl; [done|].
  rewrite enclosing_cons. unfold encloses.
  destruct (bind_scan b e rest) as [r f]. simpl in *.
  destruct f; split_ifs; simpl in *; try done; rewrite ?enclosing_cons;
    unfold encloses; simpl; split_ifs; simpl; lia.
Qed.

Lemma enclosing_length b e vec : (enclosing b e vec <= length vec)%nat.
Proof. unfold enclosing. apply length_filter. Qed.

(** What the loop guarantees, whatever fuel above the number of splits it is given. *)
Lemma bind_loop_spec n b e vec :
  b < e -> (enclosing b e vec < n)%nat ->
  exists v, bind_loop n b e vec = Some v /\
    (wf vec -> wf v) /\
    (forall id, ~ (b <= id < e) -> route v id = route vec id) /\
    Forall (fun x => end_ x <= b \/ e <= begin_ x) v.
Proof.
  intros Hbe. revert vec. induction n as [|n IH]; intros vec Hn; [lia|].
  simpl. pose proof (bind_scan_decreases b e vec Hbe) as Hdec.
  pose proof (bind_scan_clear b e vec) as Hclear.
  pose proof (bind_scan_wf b e vec Hbe) as Hwf.
  pose proof (bind_scan_route b e vec) as Hroute.
  destruct (bind_scan b e vec) as [v' [|]]; simpl in *.
  - destruct (IH v') as (v & Hv & Hv1 & Hv2 & Hv3); [lia|].
    exists v. split_and!; auto. intros id Hid. rewrite Hv2, Hroute; auto.
  - exists v'. split_and!; auto.
Qed.

Lemma route_app t1 t2 id :
  route (t1 ++ t2) id = match route t1 id with Some w => Some w | None => route t2 id end.
Proof. induction t1 as [|x r IH]; simpl; [done|]. by destruct (covers x id). Qed.

Lemma route_clear b e v id :
  Forall (fun x => end_ x <= b \/ e <= begin_ x) v -> b <= id < e -> route v id = None.
Proof.
  intros H Hid. induction H as [|x r Hx Hr IH]; simpl; [done|].
  unfold covers. split_ifs; auto; lia.
Qed.

Lemma disjoint_app t x :
  disjoint_table t -> Forall (fun y => disj y x) t -> disjoint_table (t ++ [x]).
Proof.
  induction t as [|y r IH]; simpl; [by split; [constructor|]|].
  intros [Hd Hr] [Hy Hf]%Forall_cons_1. split; auto.
  apply Forall_app. split; auto.
Qed.

(** The two facts about [Bind] that its clients use: it always returns, keeps the table
    well formed, and overrides exactly the routes of the interval. *)
Lemma Bind_spec b e w vec :
  wf vec -> 0 <= b -> e < 2 ^ 64 ->
  exists v, Bind b e w vec = Some v /\ wf v /\
    forall id, route v id = if (b <=? id) && (id <? e) then Some w else route vec id.
Proof.
  intros Hwf Hb He. unfold Bind. destruct (e <=? b) eqn:E; zify_bool.
  - exists vec. split_and!; auto. intros id. split_ifs; done || lia.
  - destruct (bind_loop_spec (S (length vec)) b e vec) as (v & -> & Hv & Hr & Hc); [lia| |].
    { pose proof (enclosing_length b e vec). lia. }
    destruct (Hv Hwf) as [Hg Hd]. simpl. eexists. split_and!; [done| |].
    + split.
      * apply Forall_app. split; [done|]. repeat constructor; simpl; lia.
      * apply disjoint_app; [done|]. eapply Forall_impl; [exact Hc|].
        intros x Hx. exact Hx.
    + intros id. rewrite route_app. simpl. unfold covers. simpl.
      destruct ((b <=? id) && (id <? e)) eqn:Ec; zify_bool.
      * rewrite (route_clear b e); [done|done|lia].
      * rewrite Hr by lia. by destruct (route vec id).
      * rewrite Hr by lia. by destruct (route vec id).
Qed.

(** ** Unbind *)

Lemma route_disj x t id : Forall (disj x) t -> covers x id = true -> route t id = None.
Proof.
  intros H Hc. induction H as [|y r Hy Hr IH]; simpl; [done|].
  rewrite IH. unfold covers, disj in *. zify_bool. split_ifs; done || lia.
Qed.

Lemma Unbind_within id vec :
  Forall good_entry vec -> in_u 64 id ->
  Forall (fun y => exists x, x ∈ vec /\ within y x) (Unbind id vec).
Proof.
  unfold in_u. intros Hg Hid. induction Hg as [|it rest [Hi1 [Hi2 Hi3]] Hg IH]; simpl.
  { by constructor. }
  assert (forall y, y ∈ rest -> exists x, x ∈ it :: rest /\ within y x) as Hrest.
  { intros y Hy. exists y. split; [by right|unfold within; lia]. }
  assert (forall y, within y it -> exists x, x ∈ it :: rest /\ within y x) as Hit.
  { intros y Hy. exists it. split; [by left|done]. }
  destruct ((begin_ it <=? id) && (id <? end_ it)) eqn:E; zify_bool.
  1: rewrite (wrapu_small 64) by (unfold in_u; lia).
  all: split_ifs; repeat apply Forall_cons_2; try (rewrite Forall_forall; exact Hrest);
    try (apply Hit; unfold within; simpl; lia).
  all: eapply Forall_impl; [exact IH|]; intros y (x & Hx & Hw); exists x;
    (split; [by right|done]).
Qed.

Lemma Unbind_spec id vec :
  wf vec -> in_u 64 id ->
  wf (Unbind id vec) /\
  forall j, route (Unbind id vec) j = if j =? id then None else route vec j.
Proof.
  unfold in_u. intros Hwf Hid. induction vec as [|it rest IH]; simpl.
  { split; [done|]. intros j. by destruct (j =? id). }
  destruct Hwf as [[Hg Hgr]%Forall_cons_1 [Hd Hdr]]. destruct IH as [[IHg IHd] IHr]; [done|].
  pose proof (Unbind_within id rest Hgr Hid) as Hw.
  assert (forall it', within it' it -> Forall (disj it') rest) as Hdisj0.
  { intros it' Hit'. eapply Forall_disj_within; [done|done|].
    apply Forall_forall. intros y Hy. exists y. split; [done|unfold within; lia]. }
  pose proof (fun j => route_disj it rest j Hd) as Hone. unfold good_entry in Hg.
  destruct ((begin_ it <=? id) && (id <? end_ it)) eqn:E; zify_bool.
  1: rewrite (wrapu_small 64) by (unfold in_u; lia).
  all: (split; [split|intros j; specialize (Hone j); specialize (IHr j)]).
  all: unfold covers in *; split_ifs; simpl; unfold covers; simpl.
  all: repeat first [apply Forall_cons_2 | split]; simpl; auto.
  all: try (unfold good_entry; simpl; lia).
  all: try (apply Hdisj0; unfold within; simpl; lia).
  all: try (unfold disj; simpl; lia).
  all: try (eapply Forall_disj_within; [|exact Hd|exact Hw]; unfold within; lia).
  all: split_ifs; rewrite ?IHr; split_ifs; try done; try lia; apply Hone; lia.
Qed.

(** ** Freeze: the sorted table is unique, the merge loop has nothing to merge *)

Definition begin_le (x y : Entry) : Prop := begin_ x <= begin_ y.
Definition before (x y : Entry) : Prop := end_ x <= begin_ y.

Lemma insert_entry_perm x l : insert_entry x l ≡ₚ x :: l.
Proof.
  induction l as [|y r IH]; simpl; [done|]. destruct (begin_ x <=? begin_ y); [done|].
  by rewrite IH, Permutation_swap.
Qed.

Lemma sort_entries_perm l : sort_entries l ≡ₚ l.
Proof. induction l as [|x r IH]; simpl; [done|]. by rewrite insert_entry_perm, IH. Qed.

Lemma insert_entry_sorted x l :
  StronglySorted begin_le l -> StronglySorted begin_le (insert_entry x l).
Proof.
  induction 1 as [|y r Hr IH Hy]; simpl; [by repeat constructor|].
  destruct (begin_ x <=? begin_ y) eqn:E.
  - repeat constructor; auto; [unfold begin_le; lia|].
    eapply Forall_impl; [exact Hy|]. unfold begin_le. intros z Hz. simpl in *. lia.
  - constructor; [done|]. rewrite insert_entry_perm. constructor; auto.
    unfold begin_le. lia.
Qed.

Lemma sort_entries_sorted l : StronglySorted begin_le (sort_entries l).
Proof. induction l; simpl; [constructor|by apply insert_entry_sorted]. Qed.

#[global] Instance disj_sym : Symmetric disj.
Proof. intros x y. unfold disj. lia. Qed.

#[global] Instance disjoint_table_perm : Proper ((≡ₚ) ==> iff) disjoint_table.
Proof.
  assert (forall l1 l2, l1 ≡ₚ l2 -> disjoint_table l1 -> disjoint_table l2) as Himp.
  { induction 1 as [|x l1 l2 HP IH|x y l|]; simpl; try tauto.
    - intros [Hf Hd]. split; [by rewrite <- HP|auto].
    - intros [[Hyx Hf]%Forall_cons_1 [Hx Hd]].
      split_and!; auto. apply Forall_cons_2; [by symmetry|done]. }
  intros l1 l2 HP. split; apply Himp; by rewrite HP.
Qed.

#[global] Instance wf_perm : Proper ((≡ₚ) ==> iff) wf.
Proof. intros l1 l2 HP. unfold wf. by rewrite HP. Qed.

Lemma sorted_before t : wf t -> StronglySorted begin_le t -> StronglySorted before t.
Proof.
  intros [Hg Hd]. induction 1 as [|x r Hr IH Hx]; [constructor|].
  apply Forall_cons_1 in Hg as [Hgx Hgr]. destruct Hd as [Hdx Hdr].
  constructor; [auto|]. rewrite Forall_forall in *. intros y Hy.
  specialize (Hx y Hy). specialize (Hdx y Hy). specialize (Hgr y Hy).
  unfold begin_le, disj, before, good_entry in *. lia.
Qed.

Lemma merge_entries_before acc l :
  StronglySorted before (rev acc ++ l) -> merge_entries acc l = rev acc ++ l.
Proof.
  revert acc. induction l as [|e r IH]; intros acc Hs; simpl; [by rewrite app_nil_r|].
  assert (merge_entries (e :: acc) r = rev acc ++ e :: r) as Hstep.
  { rewrite IH; simpl; by rewrite <- app_assoc. }
  destruct acc as [|last acc']; [exact Hstep|].
  destruct (begin_ e <? end_ last) eqn:E; [|exact Hstep]. exfalso.
  simpl in Hs. rewrite <- app_assoc in Hs.
  apply (StronglySorted_app_1_r before (rev acc')) in Hs.
  apply StronglySorted_cons in Hs as [Hs _].
  apply Forall_cons_1 in Hs as [Hs _]. unfold before in Hs. lia.
Qed.

Lemma frozen_table t : wf t -> merge_entries [] (sort_entries t) = sort_entries t.
Proof.
  intros H. apply merge_entries_before. simpl. apply sorted_before.
  - by rewrite sort_entries_perm.
  - apply sort_entries_sorted.
Qed.

(** ** Lookup: the binary search finds the route *)

Lemma route_Some t id w :
  disjoint_table t ->
  route t id = Some w <-> exists x, x ∈ t /\ covers x id = true /\ worker_index x = w.
Proof.
  induction t as [|x r IH]; simpl.
  - intros _. split; [done|]. intros (x & Hx & _). by apply elem_of_nil in Hx.
  - intros [Hd Hr]. destruct (covers x id) eqn:E.
    + split; [intros [= <-]; exists x; split_and!; auto; by left|].
      intros (y & [->|Hy]%elem_of_cons & Hc & <-); [done|].
      rewrite Forall_forall in Hd. specialize (Hd y Hy).
      unfold disj, covers in *. lia.
    + rewrite IH by done. split; intros (y & Hy & Hc & Hw); exists y; split_and!; auto.
      * by right.
      * apply elem_of_cons in Hy as [->|Hy]; [congruence|done].
Qed.

Lemma route_perm t1 t2 id : disjoint_table t1 -> t1 ≡ₚ t2 -> route t1 id = route t2 id.
Proof.
  intros Hd HP. apply option_eq. intros w.
  rewrite !route_Some by (by rewrite <- ?HP). by setoid_rewrite HP.
Qed.

(** [p] is the partition point of the sorted table for [val]. *)
Definition splits_at (t : list Entry) (val : Z) (p : nat) : Prop :=
  (p <= length t)%nat /\
  forall i x, t !! i = Some x ->
    ((i < p)%nat -> begin_ x <= val) /\ ((p <= i)%nat -> val < begin_ x).

Lemma upper_bound_splits t val :
  StronglySorted begin_le t ->
  splits_at t val (upper_bound (S (length t)) t val 0 (length t)).
Proof.
  intros Hs.
  assert (forall fuel first len, (len < fuel)%nat -> (first + len <= length t)%nat ->
    (forall i x, t !! i = Some x -> (i < first)%nat -> begin_ x <= val) ->
    (forall i x, t !! i = Some x -> (first + len <= i)%nat -> val < begin_ x) ->
    splits_at t val (upper_bound fuel t val first len)) as H; [|apply H; simpl; try lia].
  2: intros i x Hi Hl; apply lookup_lt_Some in Hi; lia.
  assert (forall i j x y, t !! i = Some x -> t !! j = Some y -> (i <= j)%nat ->
    begin_ x <= begin_ y) as Hmono.
  { intros i j x y Hi Hj Hij. destruct (decide (i = j)) as [->|Hne]; [simplify_eq; lia|].
    revert i j Hi Hj Hij Hne. induction Hs as [|z r Hr IH Hz]; intros i j Hi Hj Hij Hne.
    { by rewrite lookup_nil in Hi. }
    destruct j as [|j]; [lia|]. destruct i as [|i]; simpl in *.
    - simplify_eq. rewrite Forall_forall in Hz. apply Hz. by eapply list_elem_of_lookup_2.
    - eapply IH; eauto; lia. }
  clear Hs. induction fuel as [|n IH]; intros first len Hf Hlen Hlow Hhigh; [lia|].
  cbn [upper_bound]. cbv zeta. destruct (len =? 0)%nat eqn:E.
  - split; [lia|]. intros i x Hi. split; intros Hl; [apply (Hlow i)|apply (Hhigh i)]; auto; lia.
  - pose proof (Nat.div_lt len 2 ltac:(lia) ltac:(lia)) as Hhalf.
    set (half := (len / 2)%nat) in *.
    destruct (lookup_lt_is_Some_2 t (first + half)) as [m Hm]; [lia|]. rewrite Hm.
    destruct (val <? begin_ m) eqn:Em; apply IH; try lia; auto.
    + intros i x Hi Hl. pose proof (Hmono _ _ _ _ Hm Hi). lia.
    + intros i x Hi Hl. pose proof (Hmono _ _ _ _ Hi Hm). lia.
    + intros i x Hi Hl. apply (Hhigh i); auto. lia.
Qed.

Lemma search_route t id :
  wf t -> StronglySorted begin_le t -> search t id = default kInvalidWorker (route t id).
Proof.
  intros Hwf Hs. pose proof (upper_bound_splits t id Hs) as [Hp Hsp].
  pose proof (sorted_before t Hwf Hs) as Hb. destruct Hwf as [Hg Hd].
  unfold search. set (p := upper_bound _ _ _ _ _) in *.
  assert (forall w, route t id = Some w <-> exists (q : nat) (x : Entry),
    p = S q /\ t !! q = Some x /\ covers x id = true /\ worker_index x = w) as Hr.
  { intros w. rewrite route_Some by done. split.
    - intros (x & [i Hi]%list_elem_of_lookup_1 & Hc & Hw).
      pose proof (Hsp i x Hi) as [Hix1 Hix2]. unfold covers in Hc.
      assert (i < p)%nat as Hip by lia.
      destruct p as [|q]; [lia|]. destruct (decide (i = q)) as [->|Hne]; [by exists q, x|].
      destruct (lookup_lt_is_Some_2 t q) as [y Hy]; [lia|].
      pose proof (Hsp q y Hy) as [Hqy _].
      assert (before x y); [|unfold before in *; lia].
      rewrite <- (take_drop q t) in Hb.
      apply StronglySorted_app_1_elem_of with (x1 := x) (x2 := y) in Hb; [done| |].
      + apply list_elem_of_lookup_2 with i. rewrite lookup_take_lt by lia. done.
      + apply list_elem_of_lookup_2 with 0%nat. rewrite lookup_drop. by rewrite Nat.add_0_r.
    - intros (q & x & -> & Hx & Hc & Hw). exists x. split_and!; auto.
      by eapply list_elem_of_lookup_2. }
  destruct (route t id) as [w|] eqn:Ert; simpl.
  - destruct (proj1 (Hr w) eq_refl) as (q & x & -> & -> & Hc & Hw).
    unfold covers in Hc. by rewrite Hc.
  - destruct p as [|q] eqn:Eqp; [done|]. destruct (t !! q) as [x|] eqn:Ex; [|done].
    destruct ((begin_ x <=? id) && (id <? end_ x)) eqn:Ec; [|done].
    assert (None = Some (worker_index x)) as [=]; []. apply Hr. by exists q, x.
Qed.

(** ** The object against its abstract machine

    The specification: two total functions from ids to workers, the one the writer edits
    and the one readers see; [Freeze] copies the first to the second. *)

Inductive op :=
  | OpBind (b e w : Z) | OpBindSingle (entity_id w : Z) | OpUnbind (entity_id : Z) | OpFreeze.

#[global] Instance op_eq_dec : EqDecision op.
Proof. solve_decision. Defined.

Definition op_ok (o : op) : Prop :=
  match o with
  | OpBind b e w => in_u 64 b /\ in_u 64 e
  | OpBindSingle id _ | OpUnbind id => in_u 64 id
  | OpFreeze => True
  end.

Definition step (s : state) (o : op) : option state :=
  match o with
  | OpBind b e w => v ← Bind b e w (pending_ s); Some (set_pending s v)
  | OpBindSingle id w => v ← BindSingle id w (pending_ s); Some (set_pending s v)
  | OpUnbind id => Some (set_pending s (Unbind id (pending_ s)))
  | OpFreeze => Freeze s
  end.

Definition run (s : state) (os : list op) : option state :=
  foldl (fun acc o => s ← acc; step s o) (Some s) os.

Record spec := mkSpec { a_pending : Z -> option Z; a_current : Z -> option Z }.

Definition a_init : spec := mkSpec (fun _ => None) (fun _ => None).

(** [BindSingle] of the largest id asks for the interval [[2^64-1, 0)]: it binds nothing. *)
Definition a_step (a : spec) (o : op) : spec :=
  match o with
  | OpBind b e w =>
      mkSpec (fun j => if (b <=? j) && (j <? e) then Some w else a_pending a j) (a_current a)
  | OpBindSingle id w =>
      if id =? 2 ^ 64 - 1 then a
      else mkSpec (fun j => if j =? id then Some w else a_pending a j) (a_current a)
  | OpUnbind id => mkSpec (fun j => if j =? id then None else a_pending a j) (a_current a)
  | OpFreeze => mkSpec (a_pending a) (a_pending a)
  end.

Definition a_run (a : spec) (os : list op) : spec := foldl a_step a os.

(** The store holds exactly the published and the retired snapshot, and the addresses
    that [new] has not returned yet are free. *)
Definition snaps_ok (s : state) : Prop :=
  (forall i, is_Some (snaps s !! i) <-> current_ s = Some i \/ retired_ s = Some i) /\
  (forall i, is_Some (snaps s !! i) -> (i < next_snap s)%nat) /\
  (forall i, current_ s = Some i -> retired_ s <> Some i).

Definition sim (a : spec) (s : state) : Prop :=
  wf (pending_ s) /\ snaps_ok s /\
  (forall j, route (pending_ s) j = a_pending a j) /\
  match current_ s with
  | None => forall j, a_current a j = None
  | Some i => exists t, snaps s !! i = Some t /\ wf t /\ StronglySorted begin_le t /\
                forall j, route t j = a_current a j
  end.

Lemma sim_init : sim a_init init.
Proof.
  split; [by split; [constructor|]|]. split; [|done].
  split; [|by split; [intros i [x [=]]|]].
  intros i. simpl. rewrite lookup_empty. split; [by intros [? [=]]|by intros [|]].
Qed.

Lemma sim_set_pending a s v f :
  sim a s -> wf v -> (forall j, route v j = f j) ->
  sim (mkSpec f (a_current a)) (set_pending s v).
Proof. intros (_ & Hs & _ & Hc) Hv Hf. done. Qed.

Lemma Freeze_snaps s :
  snaps_ok s ->
  exists s', Freeze s = Some s' /\ snaps_ok s' /\ current_ s' = Some (next_snap s) /\
    snaps s' !! next_snap s = Some (merge_entries [] (sort_entries (pending_ s))) /\
    pending_ s' = sort_entries (pending_ s) /\ retired_ s' = current_ s /\
    next_snap s' = S (next_snap s) /\
    (forall i t, current_ s = Some i -> snaps s !! i = Some t -> snaps s' !! i = Some t).
Proof.
  intros (Hlive & Hfresh & Hdist). unfold Freeze. set (t := merge_entries _ _).
  assert (forall i, current_ s = Some i \/ retired_ s = Some i -> (i < next_snap s)%nat)
    as Hlt. { intros i Hi. by apply Hfresh, Hlive. }
  destruct (retired_ s) as [r|] eqn:Er; simpl.
  - pose proof (Hlt r (or_intror eq_refl)) as Hr.
    destruct (proj2 (Hlive r) (or_intror eq_refl)) as [tr Htr].
    rewrite lookup_insert_ne, Htr by lia. simpl. eexists; split; [done|]. simpl.
    splits; simpl; try done.
    + unfold snaps_ok; splits; simpl.
      * intros i. specialize (Hlive i). destruct (decide (i = r)) as [->|Hir].
        { rewrite lookup_delete_eq. split; [by intros [? [=]]|].
          intros [[= Hx]|Hc]; [lia|by destruct (Hdist r Hc)]. }
        rewrite lookup_delete_ne by done. destruct (decide (i = next_snap s)) as [->|Hin].
        { rewrite lookup_insert_eq. split; eauto. }
        rewrite lookup_insert_ne by done. rewrite Hlive.
        intuition congruence.
      * intros i Hi. destruct (decide (i = next_snap s)); [lia|].
        assert (i < next_snap s)%nat; [|lia]. apply Hfresh.
        destruct Hi as [x [_ Hx]%lookup_delete_Some].
        rewrite lookup_insert_ne in Hx by done. by exists x.
      * intros i [= <-] Hc. pose proof (Hlt _ (or_introl Hc)). lia.
    + rewrite lookup_delete_ne by lia. apply lookup_insert_eq.
    + intros i x Hc Hx. pose proof (Hlt _ (or_introl Hc)).
      rewrite lookup_delete_ne by (intros ->; by apply (Hdist i Hc)).
      by rewrite lookup_insert_ne by lia.
  - eexists; split; [done|]. simpl. splits; simpl; try done.
    + unfold snaps_ok; splits; simpl.
      * intros i. specialize (Hlive i). destruct (decide (i = next_snap s)) as [->|Hin].
        { rewrite lookup_insert_eq. split; eauto. }
        rewrite lookup_insert_ne by done. rewrite Hlive.
        intuition congruence.
      * intros i Hi. destruct (decide (i = next_snap s)); [lia|].
        assert (i < next_snap s)%nat; [|lia]. apply Hfresh.
        by rewrite lookup_insert_ne in Hi by done.
      * intros i [= <-] Hc. pose proof (Hlt _ (or_introl Hc)). lia.
    + apply lookup_insert_eq.
    + intros i x Hc Hx. pose proof (Hlt _ (or_introl Hc)).
      by rewrite lookup_insert_ne by lia.
Qed.

Lemma sim_step a s o : sim a s -> op_ok o -> exists s', step s o = Some s' /\ sim (a_step a o) s'.
Proof.
  intros Hsim Hok. pose proof Hsim as (Hwf & Hsn & Hp & Hc).
  destruct o as [b e w|id w|id|]; simpl in *.
  - unfold in_u in Hok. destruct (Bind_spec b e w (pending_ s)) as (v & -> & Hv & Hr);
      [done|lia|lia|]. simpl. eexists; split; [done|]. apply sim_set_pending; auto.
    intros j. rewrite Hr. by rewrite Hp.
  - unfold in_u in Hok. unfold BindSingle. destruct (id =? 2 ^ 64 - 1) eqn:E; zify_bool.
    + replace (u64 (id + 1)) with 0 by (subst; reflexivity).
      unfold Bind. replace (0 <=? id) with true by lia. simpl.
      eexists; split; [done|]. by destruct a, s.
    + rewrite wrapu_small by (unfold in_u; lia).
      destruct (Bind_spec id (id + 1) w (pending_ s)) as (v & -> & Hv & Hr); [done|lia|lia|].
      simpl. eexists; split; [done|]. apply sim_set_pending; auto.
      intros j. rewrite Hr, Hp. split_ifs; done || lia.
  - destruct (Unbind_spec id (pending_ s)) as [Hv Hr]; [done|done|].
    eexists; split; [done|]. apply sim_set_pending; auto. intros j. by rewrite Hr, Hp.
  - destruct (Freeze_snaps s Hsn) as (s' & -> & Hok' & Hcur & Ht & Hpd & _).
    eexists; split; [done|].
    assert (wf (sort_entries (pending_ s))) as Hwf' by (by rewrite sort_entries_perm).
    assert (forall j, route (sort_entries (pending_ s)) j = a_pending a j) as Hr.
    { intros j. rewrite <- Hp. apply route_perm; [apply Hwf'|apply sort_entries_perm]. }
    unfold sim. rewrite Hpd, Hcur, Ht. simpl. splits; auto.
    eexists; split; [done|]. rewrite frozen_table by done.
    splits; auto. apply sort_entries_sorted.
Qed.

Lemma run_app s os1 os2 : run s (os1 ++ os2) = (s' ← run s os1; run s' os2).
Proof.
  unfold run. rewrite foldl_app. destruct (foldl _ (Some s) os1) as [s'|]; simpl; [done|].
  by induction os2.
Qed.

Lemma sim_run a s os :
  sim a s -> Forall op_ok os -> exists s', run s os = Some s' /\ sim (a_run a os) s'.
Proof.
  intros Hsim Hos. revert a s Hsim. induction Hos as [|o os Ho Hos IH]; intros a s Hsim.
  - by exists s.
  - destruct (sim_step a s o Hsim Ho) as (s1 & Hs1 & Hsim1).
    destruct (IH _ _ Hsim1) as (s2 & Hs2 & Hsim2). exists s2. split; [|done].
    unfold run in *. simpl. by rewrite Hs1.
Qed.

Lemma sim_Lookup a s id : sim a s -> Lookup s id = Some (default kInvalidWorker (a_current a id)).
Proof.
  intros (_ & _ & _ & Hc). unfold Lookup, read_snapshot. destruct (current_ s) as [i|].
  - destruct Hc as (t & -> & Hwf & Hs & Hr). simpl. by rewrite search_route, Hr.
  - by rewrite Hc.
Qed.

Lemma sim_destroy a s : sim a s -> destroy s = Some ∅.
Proof.
  intros (_ & (Hlive & _ & Hdist) & _). unfold destroy.
  assert (forall o m, (forall i, is_Some (m !! i) -> o = Some i) ->
    (forall i, o = Some i -> is_Some (m !! i)) -> delete_snap o m = Some ∅) as Hlast.
  { intros [r|] m H1 H2; simpl.
    - destruct (H2 r eq_refl) as [x ->]. simpl. f_equal. apply map_empty. intros i.
      destruct (decide (i = r)) as [->|Hir]; [apply lookup_delete_eq|].
      rewrite lookup_delete_ne by done. apply eq_None_not_Some. intros Hi.
      apply H1 in Hi. congruence.
    - f_equal. apply map_empty. intros i. apply eq_None_not_Some. intros Hi. by apply H1 in Hi. }
  destruct (current_ s) as [c|]; simpl.
  - destruct (proj2 (Hlive c) (or_introl eq_refl)) as [x ->]. simpl. apply Hlast; intros i Hi.
    + destruct (decide (i = c)) as [->|Hic].
      { rewrite lookup_delete_eq in Hi. by destruct Hi. }
      rewrite lookup_delete_ne in Hi by done. apply Hlive in Hi as [|]; congruence.
    + rewrite lookup_delete_ne by (intros <-; by apply (Hdist c)). apply Hlive. auto.
  - apply Hlast; intros i Hi; [|apply Hlive; auto]. by apply Hlive in Hi as [|].
Qed.

(** *** How long a reader's pointer stays valid *)

Definition freezes (os : list op) : nat :=
  length (filter (fun o => o = OpFreeze) os).

(** Where the snapshot at address [i] is, [k] freezes after it was current. *)
Definition stage (k i : nat) (t : list Entry) (s : state) : Prop :=
  snaps_ok s /\
  match k with
  | 0 => current_ s = Some i /\ snaps s !! i = Some t
  | 1 => retired_ s = Some i /\ snaps s !! i = Some t
  | _ => snaps s !! i = None /\ (i < next_snap s)%nat
  end%nat.

Lemma stage_step k i t s o s' :
  stage k i t s -> step s o = Some s' ->
  stage (if decide (o = OpFreeze) then S k else k) i t s'.
Proof.
  intros [Hok Hk] Hs. destruct (decide (o = OpFreeze)) as [->|Hne].
  - simpl in Hs. destruct (Freeze_snaps s Hok) as (s2 & Hs2 & Hok2 & Hc & Ht & _ & Hr & Hn & Hkeep).
    rewrite Hs2 in Hs. injection Hs as <-. split; [done|].
    destruct k as [|[|k]]; simpl.
    + destruct Hk as [Hcur Hi]. split; [by rewrite Hr|by apply Hkeep].
    + destruct Hk as [Hret Hi]. destruct Hok as (Hlive & Hfresh & Hdist).
      assert (i < next_snap s)%nat as Hlt by (apply Hfresh; by exists t).
      split; [|lia]. apply eq_None_not_Some. intros Hsome.
      apply Hok2 in Hsome as [H|H]; [rewrite Hc in H; simplify_eq; lia|].
      rewrite Hr in H. by apply (Hdist i H).
    + destruct Hk as [Hi Hlt]. split; [|lia].
      apply eq_None_not_Some. intros Hsome.
      apply Hok2 in Hsome as [H|H]; [rewrite Hc in H; simplify_eq; lia|].
      rewrite Hr in H. assert (is_Some (snaps s !! i)) as Hs by (apply Hok; auto).
      rewrite Hi in Hs. by destruct Hs.
  - assert (exists v, s' = set_pending s v) as [v ->]; [|by destruct s].
    destruct o; simpl in *; try done; unfold BindSingle in *.
    1-2: apply bind_Some in Hs as (v & _ & [= <-]); by exists v.
    injection Hs as <-. by eexists.
Qed.

Lemma stage_run os k i t s s' :
  stage k i t s -> run s os = Some s' -> stage (freezes os + k) i t s'.
Proof.
  revert k s. induction os as [|o os IH]; intros k s Hk Hr.
  - injection Hr as <-. done.
  - change (run s ([o] ++ os) = Some s') in Hr. rewrite run_app in Hr.
    apply bind_Some in Hr as (s1 & Hs1 & Hr). pose proof (stage_step _ _ _ _ _ _ Hk Hs1) as Hk1.
    pose proof (IH _ _ Hk1 Hr) as H. revert H. unfold freezes. rewrite filter_cons.
    destruct (decide (o = OpFreeze)); simpl; [|done].
    by rewrite Nat.add_succ_r.
Qed.

(** ** Properties *)

(** C29: the route table refines a pair of maps from ids to workers: after any sequence of
    [Bind], [BindSingle], [Unbind] and [Freeze] calls on 64-bit ids, none of which fails
    or diverges, [Lookup] of every id returns the worker that was last bound to it when the
    table was last frozen ([kInvalidWorker] when there is none), without touching freed
    memory; and destroying the table then frees every snapshot once. *)
Theorem table_refines_map (os : list op) :
  Forall op_ok os ->
  exists s, run init os = Some s /\
    (forall id, Lookup s id = Some (default kInvalidWorker (a_current (a_run a_init os) id))) /\
    destroy s = Some ∅.
Proof.
  intros Hos. destruct (sim_run a_init init os sim_init Hos) as (s & Hs & Hsim).
  exists s. splits; [done|intros id; by apply sim_Lookup|by eapply sim_destroy].
Qed.

Lemma table_refines_map_witness :
  exists s, run init [OpBind 10 20 1; OpBindSingle 15 2; OpUnbind 12; OpFreeze; OpUnbind 11]
            = Some s /\
    Lookup s 11 = Some 1 /\ Lookup s 12 = Some kInvalidWorker /\ Lookup s 15 = Some 2 /\
    Lookup s 16 = Some 1 /\ destroy s = Some ∅.
Proof.
  destruct (table_refines_map
    [OpBind 10 20 1; OpBindSingle 15 2; OpUnbind 12; OpFreeze; OpUnbind 11])
    as (s & Hs & Hl & Hd); [repeat constructor; simpl; lia|].
  exists s. splits; [exact Hs|rewrite Hl; reflexivity..|exact Hd].
Defined.

(** A reader that loaded the snapshot pointer keeps a valid table across every
    later [Bind], [BindSingle], [Unbind] and across one [Freeze]: what it reads through the
    pointer is what [Lookup] returned when it loaded it.  After two [Freeze]s the snapshot
    has been freed and such a read is a use after free ([None]). *)
Theorem reader_grace_period (os1 os2 : list op) (s s' : state) (i : nat) (id : Z) :
  Forall op_ok os1 -> run init os1 = Some s -> current_ s = Some i -> run s os2 = Some s' ->
  read_snapshot s' (Some i) id = if (freezes os2 <=? 1)%nat then Lookup s id else None.
Proof.
  intros Hok Hs Hi Hs'. destruct (sim_run a_init init os1 sim_init Hok) as (s2 & Hs2 & Hsim).
  rewrite Hs in Hs2. injection Hs2 as <-. destruct Hsim as (_ & Hsn & _ & Hc).
  rewrite Hi in Hc. destruct Hc as (t & Ht & _).
  assert (stage 0 i t s) as Hstage by done.
  pose proof (stage_run _ _ _ _ _ _ Hstage Hs') as [_ H]. rewrite Nat.add_0_r in H.
  unfold Lookup, read_snapshot. rewrite Hi, Ht.
  destruct (freezes os2) as [|[|n]]; simpl; destruct H as [H1 H2];
    by rewrite ?H1, ?H2.
Qed.

Lemma reader_grace_period_witness :
  let s := mkState [mkEntry 7 8 3] {[0%nat := [mkEntry 7 8 3]]} 1 (Some 0%nat) None in
  let s' := mkState [mkEntry 9 10 4] {[1%nat := []; 0%nat := [mkEntry 7 8 3]]} 2 (Some 1%nat) (Some 0%nat) in
  read_snapshot s' (Some 0%nat) 7 = Some 3.
Proof.
  cbv zeta.
  rewrite (reader_grace_period [OpBindSingle 7 3; OpFreeze] [OpUnbind 7; OpFreeze; OpBindSingle 9 4]
    (mkState [mkEntry 7 8 3] {[0%nat := [mkEntry 7 8 3]]} 1 (Some 0%nat) None) _ 0 7).
  - reflexivity.
  - repeat constructor; simpl; lia.
  - reflexivity.
  - reflexivity.
  - reflexivity.
Defined.

End LockFreeRouteTable.
