(* ===== verification/TranBuf.v ===== *)
(** * The transfer buffer pool ([src/buffer/tran_buf_pool.h], [src/buffer/buffer_handle.h])

    Reference-counted memory blocks.  The heap maps block addresses to blocks; an access to
    a block that is not live, or beyond its end, is undefined behaviour and is [None] here.
    Whether [::malloc] succeeds and what a fresh block contains is up to the allocator: the
    class [Allocator]. *)

From S2P Require Import Prelude.

Module TranBufPool.

Definition TRAN_BUF_BLOCK_BASE_SIZE : Z := 64.
Definition TRAN_BUF_BLOCK_MAX_FACTOR : Z := 9.

(** Size, reference count, and the bytes after these two [int]s. *)
Record block := mkBlock { b_size : Z; b_ref : Z; b_data : list Z }.

Record heap := mkHeap { blocks : gmap nat block; next_addr : nat }.

(** The allocator: does the [n]-th allocation succeed, and what is in its bytes. *)
Class Allocator := { alloc_ok : nat -> bool; junk : nat -> nat -> Z }.

Definition block_bytes (factor : Z) : Z := u32 (Z.shiftl TRAN_BUF_BLOCK_BASE_SIZE factor).

Definition malloc `{Allocator} (factor : Z) (h : heap) : heap * option nat :=
  let p := next_addr h in
  if alloc_ok p then
    let size := block_bytes factor in
    (mkHeap (<[p := mkBlock size 1 (junk p <$> seq 0 (Z.to_nat (size - 8)))]> (blocks h)) (S p),
     Some p)
  else (mkHeap (blocks h) (S p), None).

Definition block_size (p : nat) (h : heap) : option Z := b_size <$> blocks h !! p.

Definition capacity (p : nat) (h : heap) : option Z := s ← block_size p h; Some (s - 8).

Definition set_blocks (m : gmap nat block) (h : heap) : heap := mkHeap m (next_addr h).

Definition add_ref (p : nat) (h : heap) : option heap :=
  b ← blocks h !! p;
  Some (set_blocks (<[p := mkBlock (b_size b) (b_ref b + 1) (b_data b)]> (blocks h)) h).

Definition free (p : nat) (h : heap) : option heap :=
  b ← blocks h !! p;
  Some (set_blocks
    (if b_ref b =? 1 then delete p (blocks h)
     else <[p := mkBlock (b_size b) (b_ref b - 1) (b_data b)]> (blocks h)) h).

(** [memcpy] from and to a block. *)
Definition load (p : nat) (off len : Z) (h : heap) : option (list Z) :=
  b ← blocks h !! p;
  if (0 <=? off) && (0 <=? len) && (off + len <=? Z.of_nat (length (b_data b))) then
    Some (take (Z.to_nat len) (drop (Z.to_nat off) (b_data b)))
  else None.

Definition overwrite {A} (off : nat) (bytes l : list A) : list A :=
  take off l ++ bytes ++ drop (off + length bytes) l.

Definition store (p : nat) (off : Z) (bytes : list Z) (h : heap) : option heap :=
  b ← blocks h !! p;
  if (0 <=? off) && (off + Z.of_nat (length bytes) <=? Z.of_nat (length (b_data b))) then
    Some (set_blocks (<[p := mkBlock (b_size b) (b_ref b)
                               (overwrite (Z.to_nat off) bytes (b_data b))]> (blocks h)) h)
  else None.

(** [BufferHandle]; the union [capacity]/[offset] is the field [h_aux]. *)
Record BufferHandle := mkHandle { h_data : nat; h_size : Z; h_aux : Z }.

(** ** Laws of the pool *)

(** A block is well formed when its size field describes its bytes. *)
Definition good_block (b : block) : Prop :=
  Z.of_nat (length (b_data b)) = b_size b - 8 /\ 1 <= b_ref b.

Definition good_heap (h : heap) : Prop :=
  map_Forall (fun p b => (p < next_addr h)%nat /\ good_block b) (blocks h).

Lemma block_bytes_min factor : 0 <= factor <= 25 -> 64 <= block_bytes factor < 2 ^ 32.
Proof.
  intros H. unfold block_bytes, TRAN_BUF_BLOCK_BASE_SIZE.
  rewrite Z.shiftl_mul_pow2 by lia.
  assert (1 <= 2 ^ factor) by (apply (Z.pow_le_mono_r 2 0 factor); lia).
  assert (2 ^ factor <= 2 ^ 25) by (apply Z.pow_le_mono_r; lia).
  rewrite wrapu_small; unfold in_u; lia.
Qed.

Lemma good_heap_fresh h p : good_heap h -> (next_addr h <= p)%nat -> blocks h !! p = None.
Proof.
  intros Hg Hp. destruct (blocks h !! p) as [b|] eqn:E; [|done].
  apply Hg in E as [E _]. lia.
Qed.

Lemma length_overwrite {A} off (bytes l : list A) :
  (off + length bytes <= length l)%nat -> length (overwrite off bytes l) = length l.
Proof. intros H. unfold overwrite. rewrite !length_app, length_take, length_drop. lia. Qed.

Lemma add_ref_live p h b :
  blocks h !! p = Some b ->
  add_ref p h = Some (set_blocks (<[p := mkBlock (b_size b) (b_ref b + 1) (b_data b)]> (blocks h)) h).
Proof. intros H. unfold add_ref. by rewrite H. Qed.

(** Taking a reference and dropping it again changes nothing. *)
Lemma add_ref_free p h b :
  blocks h !! p = Some b -> 1 <= b_ref b ->
  (h' ← add_ref p h; free p h') = Some h.
Proof.
  intros H Hr. rewrite (add_ref_live p h b H). simpl. unfold free. simpl.
  rewrite lookup_insert_eq. simpl. replace (b_ref b + 1 =? 1) with false by lia.
  unfold set_blocks. simpl. rewrite insert_insert_eq.
  replace (b_ref b + 1 - 1) with (b_ref b) by lia. destruct b. simpl.
  rewrite insert_id by done. by destruct h.
Qed.

Lemma load_frame p off len h h' :
  blocks h !! p = blocks h' !! p -> load p off len h = load p off len h'.
Proof. intros H. unfold load. by rewrite H. Qed.

(** Overwriting within an append. *)
Lemma overwrite_app_l {A} off (d a b : list A) :
  (off + length d <= length a)%nat -> overwrite off d (a ++ b) = overwrite off d a ++ b.
Proof.
  intros H. unfold overwrite. rewrite take_app_le, drop_app_le by lia. by rewrite <- !app_assoc.
Qed.

Lemma overwrite_app_r {A} off (d a b : list A) : overwrite (length a + off) d (a ++ b) = a ++ overwrite off d b.
Proof.
  unfold overwrite. rewrite take_app_ge, drop_app_ge by lia. rewrite <- app_assoc.
  do 2 f_equal; [f_equal; lia|]. f_equal. f_equal. lia.
Qed.

(** Overwriting the end of [a] and going on in [b]. *)
Lemma overwrite_cross {A} off (d a b : list A) :
  (off <= length a)%nat -> (length a - off <= length d)%nat ->
  overwrite off d (a ++ b) =
  overwrite off (take (length a - off) d) a ++ overwrite 0 (drop (length a - off) d) b.
Proof.
  intros H1 H2. unfold overwrite. rewrite take_app_le by lia.
  rewrite (drop_app_ge a) by lia.
  rewrite (drop_ge a) by (rewrite length_take; lia). rewrite app_nil_r, <- app_assoc. f_equal.
  simpl. rewrite app_assoc, take_drop. f_equal. f_equal. rewrite length_drop. lia.
Qed.

Lemma overwrite_nil {A} off (l : list A) : overwrite off [] l = l.
Proof. unfold overwrite. simpl. rewrite Nat.add_0_r. apply take_drop. Qed.

(** A store is an update of the bytes of its block. *)
Lemma store_spec p off d h b :
  blocks h !! p = Some b -> 0 <= off -> off + Z.of_nat (length d) <= Z.of_nat (length (b_data b)) ->
  store p off d h =
  Some (set_blocks (<[p := mkBlock (b_size b) (b_ref b)
                            (overwrite (Z.to_nat off) d (b_data b))]> (blocks h)) h).
Proof. intros Hb H1 H2. unfold store. rewrite Hb. simpl. by replace (_ && _) with true by lia. Qed.

End TranBufPool.
