(* ===== verification/BufRead.v ===== *)
(** * Reading: [ReadBuffer] ([src/buffer/buffer.h], [src/buffer/buffer.cpp])

    A [ReadBuffer] keeps handles of reference-counted blocks and is read block by block;
    its iterator is an index into the list of handles.  [None] is undefined behaviour (an
    iterator moved before the beginning or read at the end, an access to a dead block). *)

From S2P Require Import Prelude TranBuf.
Import TranBufPool.

Module ReadBuffer.

Record state := mkState {
  buf_list : list BufferHandle;
  total_block_size : Z;
  total_bytes : Z;
  cur_it : nat;
  cur_pos : Z;
  last_bytes : Z;
  read_bytes : Z;
}.

Definition init : state := mkState [] 0 0 0 0 0 0.

(** The destructor. *)
Fixpoint free_all (l : list BufferHandle) (h : heap) : option heap :=
  match l with
  | [] => Some h
  | x :: r => h' ← free (h_data x) h; free_all r h'
  end.

Definition destroy (rb : state) (h : heap) : option heap := free_all (buf_list rb) h.

Definition Append (x : BufferHandle) (rb : state) (h : heap) : option (state * heap) :=
  h' ← add_ref (h_data x) h;
  bs ← block_size (h_data x) h';
  Some (mkState (buf_list rb ++ [x]) (total_block_size rb + bs) (total_bytes rb + h_size x)
          0 (cur_pos rb) (last_bytes rb) (read_bytes rb), h').

Fixpoint ref_all (l : list BufferHandle) (h : heap) : option heap :=
  match l with
  | [] => Some h
  | x :: r => h' ← add_ref (h_data x) h; ref_all r h'
  end.

(** [Append(const ReadBuffer* )]: shares the blocks of another buffer. *)
Definition AppendBuffer (src rb : state) (h : heap) : option (state * heap) :=
  h' ← ref_all (buf_list src) h;
  Some (mkState (buf_list rb ++ buf_list src) (total_block_size rb + total_block_size src)
          (total_bytes rb + total_bytes src) 0 (cur_pos rb) (last_bytes rb) (read_bytes rb), h').

Definition TotalCount (rb : state) : Z := total_bytes rb.
Definition BlockCount (rb : state) : nat := length (buf_list rb).
Definition TotalBlockSize (rb : state) : Z := total_block_size rb.

Fixpoint load_all (l : list BufferHandle) (h : heap) : option (list Z) :=
  match l with
  | [] => Some []
  | x :: r => a ← load (h_data x) (h_aux x) (h_size x) h; b ← load_all r h; Some (a ++ b)
  end.

Definition ToString (rb : state) (h : heap) : option (list Z) := load_all (buf_list rb) h.

(** A view is what [Next] returns: block, offset of the first byte, size. *)
Record view := mkView { v_data : nat; v_off : Z; v_size : Z }.

Definition load_view (v : view) (h : heap) : option (list Z) :=
  load (v_data v) (v_off v) (v_size v) h.

Definition Next (rb : state) : option view * state :=
  match buf_list rb !! cur_it rb with
  | Some x =>
      let size := h_size x - cur_pos rb in
      (Some (mkView (h_data x) (h_aux x + cur_pos rb) size),
       mkState (buf_list rb) (total_block_size rb) (total_bytes rb)
         (S (cur_it rb)) 0 size (read_bytes rb + size))
  | None =>
      (None, mkState (buf_list rb) (total_block_size rb) (total_bytes rb)
               (cur_it rb) (cur_pos rb) 0 (read_bytes rb))
  end.

Definition BackUp (count : Z) (rb : state) : option state :=
  if 0 <? count then
    match cur_it rb with
    | O => None
    | S i =>
        x ← buf_list rb !! i;
        Some (mkState (buf_list rb) (total_block_size rb) (total_bytes rb)
                i (h_size x - count) 0 (read_bytes rb - count))
    end
  else Some (mkState (buf_list rb) (total_block_size rb) (total_bytes rb)
               (cur_it rb) (cur_pos rb) 0 (read_bytes rb - count)).

Definition clear_last (rb : state) : state :=
  mkState (buf_list rb) (total_block_size rb) (total_bytes rb)
    (cur_it rb) (cur_pos rb) 0 (read_bytes rb).

(** The loop of [Skip]: what is left of [count]. *)
Fixpoint skip_loop (fuel : nat) (count : Z) (rb : state) : option (Z * state) :=
  match fuel with
  | O => None
  | S n =>
      if 0 <? count then
        match Next rb with
        | (Some v, rb') =>
            if count <? v_size v then
              rb'' ← BackUp (v_size v - count) rb'; skip_loop n 0 rb''
            else skip_loop n (count - v_size v) rb'
        | (None, rb') => Some (count, rb')
        end
      else Some (count, rb)
  end.

Definition Skip (count : Z) (rb : state) : option (bool * state) :=
  '(c, rb') ← skip_loop (S (S (length (buf_list rb)))) count rb;
  Some (c =? 0, clear_last rb').

Definition ByteCount (rb : state) : Z := read_bytes rb.

(** ** Well-formed buffers

    [chunks] are the bytes of the handles; the position is an index of a chunk and an
    offset in it. *)

Definition good (rb : state) (h : heap) (chunks : list (list Z)) : Prop :=
  Forall2 (fun x c => load (h_data x) (h_aux x) (h_size x) h = Some c /\ c <> [])
    (buf_list rb) chunks /\
  total_bytes rb = Z.of_nat (length (concat chunks)) /\
  (cur_it rb <= length chunks)%nat /\
  (cur_pos rb = 0 \/
   exists c, chunks !! cur_it rb = Some c /\ 0 <= cur_pos rb < Z.of_nat (length c)) /\
  (0 <= last_bytes rb) /\
  (last_bytes rb = 0 \/
   (cur_pos rb = 0 /\ exists i c, cur_it rb = S i /\ chunks !! i = Some c /\
      last_bytes rb <= Z.of_nat (length c))) /\
  read_bytes rb = Z.of_nat (length (concat (take (cur_it rb) chunks))) + cur_pos rb.

Lemma load_length p off len h c : load p off len h = Some c -> Z.of_nat (length c) = len.
Proof.
  unfold load. destruct (blocks h !! p) as [b|]; simpl; [|done].
  case_if; [|done]. intros [= <-]. rewrite length_take, length_drop. lia.
Qed.

Lemma load_length_pos p off len h c : load p off len h = Some c -> 0 < len -> c <> [].
Proof. intros H%load_length Hl ->. simpl in H. lia. Qed.

Lemma good_lookup rb h chunks i :
  good rb h chunks ->
  match buf_list rb !! i, chunks !! i with
  | Some x, Some c => load (h_data x) (h_aux x) (h_size x) h = Some c /\ c <> [] /\
                      h_size x = Z.of_nat (length c)
  | None, None => True
  | _, _ => False
  end.
Proof.
  intros [HF _]. destruct (buf_list rb !! i) as [x|] eqn:Ex.
  - eapply Forall2_lookup_l in HF as (c & -> & Hl & Hne); [|exact Ex].
    splits; auto. by apply load_length in Hl.
  - destruct (chunks !! i) eqn:Ec; [|done].
    eapply Forall2_lookup_r in HF as (y & Hy & _); [|exact Ec]. congruence.
Qed.

Lemma concat_take_S {A} (l : list (list A)) i x :
  l !! i = Some x -> concat (take (S i) l) = concat (take i l) ++ x.
Proof. intros H. rewrite (take_S_r l i x H), concat_app. simpl. by rewrite app_nil_r. Qed.

Lemma concat_split {A} (l : list (list A)) i x :
  l !! i = Some x -> concat l = concat (take i l) ++ x ++ concat (drop (S i) l).
Proof.
  intros H. rewrite <- (take_drop_middle l i x H) at 1. by rewrite concat_app.
Qed.

Lemma load_drop p off len h c k :
  load p off len h = Some c -> 0 <= k <= len ->
  load p (off + k) (len - k) h = Some (drop (Z.to_nat k) c).
Proof.
  unfold load. destruct (blocks h !! p) as [b|]; simpl; [|done].
  intros H Hk. destruct ((0 <=? off) && (0 <=? len) && _) eqn:E in H; [|done].
  injection H as <-.
  replace (_ && _) with true by lia. f_equal.
  rewrite skipn_firstn_comm, drop_drop. f_equal; [lia|f_equal; lia].
Qed.


(** ** The stream specification: a position in the bytes of the buffer *)

Lemma Next_spec rb h chunks :
  good rb h chunks ->
  let all := concat chunks in let pos := Z.to_nat (read_bytes rb) in
  match Next rb with
  | (Some v, rb') =>
      good rb' h chunks /\ 0 < v_size v /\ last_bytes rb' = v_size v /\
      read_bytes rb' = read_bytes rb + v_size v /\
      load_view v h = Some (take (Z.to_nat (v_size v)) (drop pos all))
  | (None, rb') =>
      good rb' h chunks /\ last_bytes rb' = 0 /\ read_bytes rb' = read_bytes rb /\
      read_bytes rb = total_bytes rb
  end.
Proof.
  intros Hg all pos. pose proof (good_lookup rb h chunks (cur_it rb) Hg) as Hl.
  destruct Hg as (HF & Htot & Hit & Hpos & Hlast & _ & Hread).
  unfold Next. destruct (buf_list rb !! cur_it rb) as [x|] eqn:Ex; simpl.
  - destruct (chunks !! cur_it rb) as [c|] eqn:Ec; [|done].
    destruct Hl as (Hload & Hne & Hsz).
    assert (0 <= cur_pos rb < Z.of_nat (length c)) as Hp.
    { destruct c; [done|]. simpl in *. destruct Hpos as [->|(c' & Hc' & ?)]; [lia|].
      injection Hc' as <-. simpl in *. lia. }
    pose proof (lookup_lt_Some _ _ _ Ec) as Hlt.
    splits; simpl; try lia.
    + unfold good; simpl. splits; auto; try lia.
      * right. split; [done|]. exists (cur_it rb), c. splits; auto. lia.
      * rewrite (concat_take_S chunks _ c Ec), length_app. lia.
    + unfold load_view; simpl. rewrite (load_drop _ _ _ _ c) by (done || lia). f_equal.
      unfold all, pos. rewrite (concat_split chunks _ c Ec), Hread.
      rewrite drop_app_ge by lia. rewrite drop_app_le by lia.
      rewrite take_app_le by (rewrite length_drop; lia).
      rewrite take_ge by (rewrite length_drop; lia). f_equal. lia.
  - destruct (chunks !! cur_it rb) as [c|] eqn:Ec; [done|].
    apply lookup_ge_None_1 in Ec.
    assert (cur_pos rb = 0) as Hp0.
    { by destruct Hpos as [|(c & [=] & _)]. }
    splits; auto.
    + unfold good; simpl. splits; auto; lia.
    + rewrite Hread, Htot, Hp0, take_ge by lia. lia.
Qed.

Lemma BackUp_spec rb h chunks count :
  good rb h chunks -> 0 <= count <= last_bytes rb ->
  exists rb', BackUp count rb = Some rb' /\ good rb' h chunks /\ last_bytes rb' = 0 /\
    read_bytes rb' = read_bytes rb - count.
Proof.
  intros Hg Hc. unfold BackUp. destruct (0 <? count) eqn:E.
  - destruct Hg as (HF & Htot & Hit & Hpos & Hlast & Hlv & Hread).
    destruct Hlv as [?|(Hp0 & i & c & Hi & Hci & Hle)]; [lia|]. rewrite Hi.
    pose proof (Forall2_lookup_r _ _ _ _ _ HF Hci) as (x & Hx & Hload & Hne).
    rewrite Hx. simpl. apply load_length in Hload as Hsz.
    eexists; split; [done|]. pose proof (lookup_lt_Some _ _ _ Hci) as Hlt.
    split; [|simpl; split; [done|lia]].
    unfold good; simpl. splits; auto; try lia.
    + right. exists c. split; [done|]. lia.
    + rewrite Hread, Hp0, Hi, (concat_take_S chunks _ c Hci), length_app. lia.
  - eexists; split; [done|]. destruct Hg as (HF & Htot & Hit & Hpos & Hlast & Hlv & Hread).
    split; [|simpl; split; [done|lia]]. unfold good; simpl. splits; auto; lia.
Qed.

Lemma clear_last_good rb h chunks : good rb h chunks -> good (clear_last rb) h chunks.
Proof.
  intros (HF & Htot & Hit & Hpos & Hlast & Hlv & Hread).
  unfold good; simpl. splits; auto; lia.
Qed.

Lemma good_range rb h chunks : good rb h chunks -> 0 <= read_bytes rb <= total_bytes rb.
Proof.
  intros (HF & Htot & Hit & Hpos & Hlast & Hlv & Hread).
  pose proof (take_drop (cur_it rb) chunks) as Htd.
  assert (length (concat chunks) =
    (length (concat (take (cur_it rb) chunks)) + length (concat (drop (cur_it rb) chunks)))%nat)
    as Hlen by (rewrite <- Htd at 1; by rewrite concat_app, length_app).
  destruct Hpos as [|(c & Hc & ?)]; [lia|].
  rewrite (drop_S _ _ _ Hc) in Hlen. simpl in Hlen. rewrite length_app in Hlen. lia.
Qed.

Lemma skip_loop_spec n count rb h chunks :
  good rb h chunks -> 0 <= count -> (length (buf_list rb) - cur_it rb + 2 <= n)%nat ->
  exists c rb', skip_loop n count rb = Some (c, rb') /\ good rb' h chunks /\
    c = Z.max 0 (read_bytes rb + count - total_bytes rb) /\
    read_bytes rb' = Z.min (read_bytes rb + count) (total_bytes rb).
Proof.
  revert count rb. induction n as [|n IH]; intros count rb Hg Hc Hn; [lia|].
  pose proof (good_range rb h chunks Hg) as Hr.
  simpl. destruct (0 <? count) eqn:E.
  - pose proof (Next_spec rb h chunks Hg) as HN. cbv zeta in HN.
    unfold Next in *. destruct (buf_list rb !! cur_it rb) as [x|] eqn:Ex.
    + set (rb1 := mkState _ _ _ _ _ _ _) in *. set (v := mkView _ _ _) in *.
      destruct HN as (Hg1 & Hpos & Hlast & Hread & _).
      pose proof (good_range rb1 h chunks Hg1) as Hr1.
      assert (total_bytes rb1 = total_bytes rb) as Ht by done. rewrite Ht in Hr1.
      apply lookup_lt_Some in Ex.
      destruct (count <? v_size v) eqn:Ec.
      * destruct (BackUp_spec rb1 h chunks (v_size v - count)) as (rb2 & -> & Hg2 & _ & Hr2);
          [done|lia|]. simpl.
        destruct n; [lia|]. simpl. exists 0, rb2. splits; auto; lia.
      * destruct (IH (count - v_size v) rb1) as (c & rb2 & -> & Hg2 & Hc2 & Hr2);
          [done|lia|simpl; lia|].
        exists c, rb2. splits; auto; lia.
    + destruct HN as (Hg1 & _ & Hr1 & Hend). eexists _, _. splits; [done|done|lia|lia].
  - exists count, rb. splits; auto; lia.
Qed.

Lemma Skip_spec rb h chunks count :
  good rb h chunks -> 0 <= count ->
  exists rb', Skip count rb = Some (read_bytes rb + count <=? total_bytes rb, rb') /\
    good rb' h chunks /\ last_bytes rb' = 0 /\
    read_bytes rb' = Z.min (read_bytes rb + count) (total_bytes rb).
Proof.
  intros Hg Hc. unfold Skip.
  destruct (skip_loop_spec (S (S (length (buf_list rb)))) count rb h chunks)
    as (c & rb' & -> & Hg' & Hcc & Hr); [done|done|lia|].
  pose proof (good_range rb h chunks Hg). simpl.
  exists (clear_last rb'). splits; auto.
  - f_equal. f_equal. destruct (c =? 0) eqn:E1; lia.
  - by apply clear_last_good.
Qed.

End ReadBuffer.
