(* ===== verification/BufWrite.v ===== *)
(** * Writing: [WriteBuffer] ([src/buffer/buffer.h], [src/buffer/buffer.cpp])

    A [WriteBuffer] grows a list of blocks that belong to it alone; [SwapOut] hands the
    blocks to a [ReadBuffer].  [None] is undefined behaviour; allocation failures are
    values. *)

From S2P Require Import Prelude TranBuf BufRead.
Import TranBufPool.

Module WriteBuffer.
Section WithAllocator.
Context `{Allocator}.

Record state := mkState {
  buf_list : list BufferHandle;
  total_block_size : Z;
  total_capacity : Z;
  last_bytes : Z;
  write_bytes : Z;
  base_block_factor : Z;
}.

Definition init : state := mkState [] 0 0 0 0 4.

Definition set_base_block_factor (f : Z) (wb : state) : state :=
  mkState (buf_list wb) (total_block_size wb) (total_capacity wb) (last_bytes wb)
    (write_bytes wb) f.

Definition destroy (wb : state) (h : heap) : option heap :=
  ReadBuffer.free_all (buf_list wb) h.

Definition ByteCount (wb : state) : Z := write_bytes wb.

(** [None] is undefined behaviour; the flag is the returned [bool]. *)
Definition Extend (wb : state) (h : heap) : option (bool * state * heap) :=
  let current_factor := u32 (Z.of_nat (length (buf_list wb)) + base_block_factor wb) in
  match malloc (Z.min TRAN_BUF_BLOCK_MAX_FACTOR current_factor) h with
  | (h', None) => Some (false, wb, h')
  | (h', Some block) =>
      cap ← capacity block h';
      bs ← block_size block h';
      Some (true,
        mkState (buf_list wb ++ [mkHandle block 0 cap]) (total_block_size wb + bs)
          (total_capacity wb + cap) (last_bytes wb) (write_bytes wb) (base_block_factor wb), h')
  end.

(** Replace the last handle. *)
Definition set_back (x : BufferHandle) (l : list BufferHandle) : list BufferHandle :=
  removelast l ++ [x].

(** The part of [Next] after the [Extend]. *)
Definition take_last (wb : state) : option (ReadBuffer.view * state) :=
  x ← last (buf_list wb);
  let size := h_aux x - h_size x in
  Some (ReadBuffer.mkView (h_data x) (h_size x) size,
        mkState (set_back (mkHandle (h_data x) (h_aux x) (h_aux x)) (buf_list wb))
          (total_block_size wb) (total_capacity wb) size (write_bytes wb + size)
          (base_block_factor wb)).

Definition needs_block (wb : state) : bool :=
  match last (buf_list wb) with
  | None => true
  | Some x => h_size x =? h_aux x
  end.

Definition clear_last (wb : state) : state :=
  mkState (buf_list wb) (total_block_size wb) (total_capacity wb) 0 (write_bytes wb)
    (base_block_factor wb).

Definition Next (wb : state) (h : heap) : option (option ReadBuffer.view * state * heap) :=
  if needs_block wb then
    '(ok, wb', h') ← Extend wb h;
    if (ok : bool) then '(v, wb'') ← take_last wb'; Some (Some v, wb'', h')
    else Some (None, clear_last wb', h')
  else '(v, wb') ← take_last wb; Some (Some v, wb', h).

Definition BackUp (count : Z) (wb : state) : option state :=
  x ← last (buf_list wb);
  Some (mkState (set_back (mkHandle (h_data x) (h_size x - count) (h_aux x)) (buf_list wb))
          (total_block_size wb) (total_capacity wb) 0 (write_bytes wb - count)
          (base_block_factor wb)).

(** The loop of [Reserve]: [true] when the space is reserved, [false] when [Next] fails. *)
Fixpoint reserve_loop (fuel : nat) (count : Z) (wb : state) (h : heap) :
    option (bool * state * heap) :=
  match fuel with
  | O => None
  | S n =>
      if 0 <? count then
        '(v, wb', h') ← Next wb h;
        match v with
        | None => Some (false, wb', h')
        | Some v =>
            if count <? ReadBuffer.v_size v then
              wb'' ← BackUp (ReadBuffer.v_size v - count) wb'; reserve_loop n 0 wb'' h'
            else reserve_loop n (count - ReadBuffer.v_size v) wb' h'
        end
      else Some (true, wb, h)
  end.

Definition Reserve (count : Z) (wb : state) (h : heap) : option (Z * state * heap) :=
  let head := ByteCount wb in
  '(ok, wb', h') ← reserve_loop (S (S (Z.to_nat count))) count wb h;
  Some (if (ok : bool) then head else -1, wb', h').

(** The first loop of [SetData]: the handle that contains byte [pos], and the offset. *)
Fixpoint seek (pos : Z) (l : list BufferHandle) : option (list BufferHandle * Z) :=
  if 0 <? pos then
    match l with
    | [] => None
    | x :: r => if pos <? h_size x then Some (x :: r, pos) else seek (pos - h_size x) r
    end
  else Some (l, 0).

(** The second loop: [memcpy] into successive handles. *)
Fixpoint copy (cur_offset : Z) (data : list Z) (l : list BufferHandle) (h : heap) : option heap :=
  match data with
  | [] => Some h
  | _ =>
      match l with
      | [] => None
      | x :: r =>
          let cur_size := h_size x - cur_offset in
          if Z.of_nat (length data) <? cur_size then store (h_data x) cur_offset data h
          else
            h' ← store (h_data x) cur_offset (take (Z.to_nat cur_size) data) h;
            copy 0 (drop (Z.to_nat cur_size) data) r h'
      end
  end.

Definition SetData (pos : Z) (data : list Z) (wb : state) (h : heap) : option heap :=
  '(l, off) ← seek pos (buf_list wb); copy off data l h.

Definition Append (data : list Z) (size : Z) (wb : state) (h : heap) :
    option (bool * state * heap) :=
  if size =? 0 then Some (true, wb, h)
  else
    '(head, wb', h') ← Reserve size wb h;
    if head <? 0 then Some (false, wb', h')
    else h'' ← SetData head (take (Z.to_nat size) data) wb' h'; Some (true, wb', h'').

(** [Append(const std::string&)]: the length is converted to [int]. *)
Definition AppendString (data : list Z) (wb : state) (h : heap) : option (bool * state * heap) :=
  Append data (i32 (Z.of_nat (length data))) wb h.

(** The loop of [SwapOut]. *)
Fixpoint swap_loop (l : list BufferHandle) (rb : ReadBuffer.state) (h : heap) :
    option (ReadBuffer.state * heap) :=
  match l with
  | [] => Some (rb, h)
  | x :: r =>
      '(rb', h') ←
        (if 0 <? h_size x then ReadBuffer.Append (mkHandle (h_data x) (h_size x) 0) rb h
         else Some (rb, h));
      h'' ← free (h_data x) h';
      swap_loop r rb' h''
  end.

Definition SwapOut (wb : state) (rb : ReadBuffer.state) (h : heap) :
    option (state * ReadBuffer.state * heap) :=
  '(rb', h') ← swap_loop (buf_list wb) rb h;
  Some (mkState [] 0 0 0 0 (base_block_factor wb), rb', h').

(** ** Ownership: the blocks of a [WriteBuffer] belong to it alone

    [h0] is the heap the buffer started from.  Every block outside the buffer is as it was
    in [h0]; every block of the buffer has one reference. *)

Definition owned (h : heap) (x : BufferHandle) (c : list Z) : Prop :=
  exists b, blocks h !! h_data x = Some b /\ good_block b /\ b_ref b = 1 /\
    h_aux x = b_size b - 8 /\ 0 < h_aux x /\ 0 <= h_size x <= h_aux x /\
    c = take (Z.to_nat (h_size x)) (b_data b).

Definition ids (l : list BufferHandle) : list nat := h_data <$> l.

Record inv (h0 h : heap) (wb : state) (chunks : list (list Z)) : Prop := {
  inv_owned : Forall2 (owned h) (buf_list wb) chunks;
  inv_nodup : NoDup (ids (buf_list wb));
  inv_fresh : forall p, p ∈ ids (buf_list wb) -> (next_addr h0 <= p < next_addr h)%nat;
  inv_frame : forall p, p ∉ ids (buf_list wb) -> blocks h !! p = blocks h0 !! p;
  inv_start : good_heap h0 /\ (next_addr h0 <= next_addr h)%nat;
  inv_bytes : write_bytes wb = Z.of_nat (length (concat chunks));
  inv_capacity : total_capacity wb = foldr Z.add 0 (h_aux <$> buf_list wb);
  inv_block_size : total_block_size wb = foldr Z.add 0 ((fun x => h_aux x + 8) <$> buf_list wb);
}.

(** What [BackUp] needs of the last [Next]. *)
Definition last_ok (wb : state) : Prop :=
  last_bytes wb = 0 \/
  exists x, last (buf_list wb) = Some x /\ 0 < last_bytes wb <= h_size x.

Lemma owned_length h x c : owned h x c -> Z.of_nat (length c) = h_size x.
Proof.
  intros (b & _ & [Hb _] & _ & Ha & _ & Hs & ->). rewrite length_take. lia.
Qed.

Lemma owned_frame h h' x c :
  owned h x c -> blocks h !! h_data x = blocks h' !! h_data x -> owned h' x c.
Proof. intros (b & Hb & H') E. exists b. rewrite <- E. by split. Qed.

Lemma ids_app l1 l2 : ids (l1 ++ l2) = ids l1 ++ ids l2.
Proof. apply fmap_app. Qed.

Lemma Forall2_owned_frame h h' l chunks :
  Forall2 (owned h) l chunks -> (forall p, p ∈ ids l -> blocks h !! p = blocks h' !! p) ->
  Forall2 (owned h') l chunks.
Proof.
  intros HF. induction HF as [|x c l cs Hx HF IH]; intros Hp; constructor.
  - eapply owned_frame; [exact Hx|]. apply Hp. simpl. by left.
  - apply IH. intros p H1. apply Hp. simpl. by right.
Qed.

Lemma set_back_snoc x l y : set_back x (l ++ [y]) = l ++ [x].
Proof. unfold set_back. by rewrite removelast_last. Qed.

Lemma foldr_add_snoc (f : BufferHandle -> Z) l x :
  foldr Z.add 0 (f <$> (l ++ [x])) = foldr Z.add 0 (f <$> l) + f x.
Proof. induction l as [|y r IH]; csimpl in *; lia. Qed.

Lemma inv_init h : good_heap h -> inv h h init [].
Proof.
  intros Hg. constructor; simpl; auto; try lia.
  - constructor.
  - by intros p Hp%elem_of_nil.
Qed.

(** *** SetData *)

Lemma copy_spec h off data l chunks :
  Forall2 (owned h) l chunks -> NoDup (ids l) ->
  0 <= off -> (forall c cs, chunks = c :: cs -> off <= Z.of_nat (length c)) ->
  off + Z.of_nat (length data) <= Z.of_nat (length (concat chunks)) ->
  exists h' chunks', copy off data l h = Some h' /\ Forall2 (owned h') l chunks' /\
    concat chunks' = overwrite (Z.to_nat off) data (concat chunks) /\
    next_addr h' = next_addr h /\
    (forall p, p ∉ ids l -> blocks h' !! p = blocks h !! p).
Proof.
  intros HF. revert h off data chunks HF.
  induction l as [|x r IH]; intros h off data chunks HF Hnd Hoff Hfirst Hlen.
  - apply Forall2_nil_inv_l in HF as ->. simpl in Hlen.
    destruct data; simpl in *; [|lia]. exists h, []. splits; auto.
    assert (off = 0) as -> by lia. done.
  - apply Forall2_cons_inv_l in HF as (c & cs & Hx & HF & ->).
    specialize (Hfirst c cs eq_refl). pose proof (owned_length _ _ _ Hx) as Hc.
    destruct data as [|d0 data0].
    { exists h, (c :: cs). splits; [done|by constructor|by rewrite overwrite_nil|done|done]. }
    set (data := d0 :: data0) in *. change (copy off data (x :: r) h) with
      (let cur_size := h_size x - off in
       if Z.of_nat (length data) <? cur_size then store (h_data x) off data h
       else h' ← store (h_data x) off (take (Z.to_nat cur_size) data) h;
            copy 0 (drop (Z.to_nat cur_size) data) r h').
    cbv zeta. clearbody data. simpl in Hnd. apply NoDup_cons in Hnd as [Hnin Hnd].
    assert (forall d, off + Z.of_nat (length d) <= Z.of_nat (length c) ->
      exists h', store (h_data x) off d h = Some h' /\ next_addr h' = next_addr h /\
        owned h' x (overwrite (Z.to_nat off) d c) /\
        (forall p, p <> h_data x -> blocks h' !! p = blocks h !! p)) as Hstore.
    { intros d Hd. destruct Hx as (b & Hb & [Hgb Hr] & Hr1 & Ha & Hpos & Hs & Hcb).
      rewrite (store_spec _ _ _ _ b); [|done|done|rewrite Hcb, length_take in Hd; lia].
      eexists; split; [done|]. split; [done|]. split.
      - eexists. simpl. rewrite lookup_insert_eq. split; [done|]. simpl.
        assert (length (b_data b) = Z.to_nat (b_size b - 8)) as Hlb by lia.
        rewrite Hcb in Hd. rewrite length_take in Hd.
        splits; auto; try lia.
        + split; simpl; [|done]. rewrite length_overwrite; lia.
        + rewrite Hcb. rewrite <- (take_drop (Z.to_nat (h_size x)) (b_data b)) at 2.
          rewrite overwrite_app_l by (rewrite length_take; lia).
          rewrite take_app_le by (rewrite length_overwrite; rewrite length_take; lia).
          rewrite (take_ge (overwrite _ _ _)); [done|].
          rewrite length_overwrite; rewrite length_take; lia.
      - intros p Hp. simpl. by rewrite lookup_insert_ne. }
    simpl in Hlen. rewrite length_app in Hlen.
    destruct (Z.of_nat (length data) <? h_size x - off) eqn:E.
    + destruct (Hstore data) as (h' & -> & Hn & Hx' & Hfr); [lia|].
      exists h', (overwrite (Z.to_nat off) data c :: cs). splits; auto.
      * constructor; [done|]. eapply Forall2_owned_frame; [exact HF|].
        intros p Hp. symmetry. apply Hfr. by intros ->.
      * simpl. rewrite overwrite_app_l by lia. done.
      * intros p Hp. apply Hfr. intros ->. apply Hp. by left.
    + destruct (Hstore (take (Z.to_nat (h_size x - off)) data)) as (h1 & -> & Hn & Hx1 & Hfr).
      { rewrite length_take. lia. }
      simpl.
      destruct (IH h1 0 (drop (Z.to_nat (h_size x - off)) data) cs)
        as (h2 & cs2 & -> & HF2 & Hcs2 & Hn2 & Hfr2).
      { eapply Forall2_owned_frame; [exact HF|].
        intros p Hp. symmetry. apply Hfr. by intros ->. }
      { done. } { lia. } { intros; lia. } { rewrite length_drop. lia. }
      exists h2, (overwrite (Z.to_nat off) (take (Z.to_nat (h_size x - off)) data) c :: cs2).
      splits; auto.
      * constructor; [|done]. eapply owned_frame; [exact Hx1|]. symmetry. by apply Hfr2.
      * simpl. rewrite overwrite_cross by lia.
        replace (Z.to_nat (h_size x - off)) with (length c - Z.to_nat off)%nat in * by lia.
        by rewrite Hcs2.
      * lia.
      * intros p Hp. rewrite Hfr2, Hfr; [done| |].
        -- intros ->. apply Hp. by left.
        -- intros Hp2. apply Hp. by right.
Qed.

Lemma seek_spec h pos l chunks :
  Forall2 (owned h) l chunks -> 0 <= pos <= Z.of_nat (length (concat chunks)) ->
  exists l1 l2 ch1 ch2 off, seek pos l = Some (l2, off) /\ l = l1 ++ l2 /\
    chunks = ch1 ++ ch2 /\ Forall2 (owned h) l1 ch1 /\ Forall2 (owned h) l2 ch2 /\
    0 <= off /\ pos = Z.of_nat (length (concat ch1)) + off /\
    (forall c cs, ch2 = c :: cs -> off <= Z.of_nat (length c)).
Proof.
  intros HF. revert pos. induction HF as [|x c l cs Hx HF IH]; intros pos Hpos.
  - simpl in Hpos. assert (pos = 0) as -> by lia.
    exists [], [], [], [], 0. splits; auto; try done; intros; lia.
  - cbn [seek]. destruct (0 <? pos) eqn:E.
    + pose proof (owned_length _ _ _ Hx) as Hc. simpl in Hpos. rewrite length_app in Hpos.
      destruct (pos <? h_size x) eqn:E2.
      * exists [], (x :: l), [], (c :: cs), pos. splits; try done; try (by constructor);
          [lia..|simpl; lia|intros c' cs' [= <- <-]; lia].
      * destruct (IH (pos - h_size x)) as (l1 & l2 & ch1 & ch2 & off & -> & -> & -> & H1 & H2 & Ho & Hp & Hf);
          [lia|].
        exists (x :: l1), l2, (c :: ch1), ch2, off. splits; auto.
        simpl. rewrite length_app. lia.
    + exists [], (x :: l), [], (c :: cs), 0. splits; try done; try (by constructor); simpl; intros; lia.
Qed.

Lemma SetData_spec h0 h wb chunks pos data :
  inv h0 h wb chunks -> 0 <= pos -> pos + Z.of_nat (length data) <= write_bytes wb ->
  exists h' chunks', SetData pos data wb h = Some h' /\ inv h0 h' wb chunks' /\
    concat chunks' = overwrite (Z.to_nat pos) data (concat chunks) /\ next_addr h' = next_addr h.
Proof.
  intros [] Hpos Hlen. unfold SetData.
  destruct (seek_spec h pos (buf_list wb) chunks)
    as (l1 & l2 & ch1 & ch2 & off & -> & Hl & Hch & H1 & H2 & Ho & Hp & Hf); [done|lia|].
  simpl. rewrite Hl, ids_app in inv_nodup0. apply NoDup_app in inv_nodup0 as (Hn1 & Hdisj & Hn2).
  destruct (copy_spec h off data l2 ch2) as (h' & ch2' & -> & H2' & Hc2 & Hn & Hfr); auto.
  { rewrite Hch, concat_app, length_app in inv_bytes0. lia. }
  exists h', (ch1 ++ ch2'). assert (concat (ch1 ++ ch2') =
    overwrite (Z.to_nat pos) data (concat chunks)) as Hcc.
  { rewrite Hch, !concat_app, Hc2, Hp, <- overwrite_app_r. f_equal. lia. }
  splits; [done| |done|done].
  constructor; auto; rewrite ?Hn; auto.
  - rewrite Hl. apply Forall2_app; [|done]. eapply Forall2_owned_frame; [done|].
    intros p Hp1. symmetry. apply Hfr. intros Hp2. by apply (Hdisj p).
  - rewrite Hl, ids_app. apply NoDup_app. by split_and!.
  - intros p Hp1. rewrite Hfr; [by apply inv_frame0|]. intros Hp2. apply Hp1.
    rewrite Hl, ids_app. apply elem_of_app. by right.
  - rewrite Hcc, length_overwrite; lia.
Qed.

(** *** Extend, Next, BackUp *)

Lemma Extend_spec h0 h wb chunks :
  inv h0 h wb chunks -> in_u 64 (base_block_factor wb) ->
  exists ok wb' h', Extend wb h = Some (ok, wb', h') /\ base_block_factor wb' = base_block_factor wb /\
    ((forall n, alloc_ok n = true) -> ok = true) /\
    if (ok : bool)
    then inv h0 h' wb' (chunks ++ [[]]) /\ write_bytes wb' = write_bytes wb /\
      exists x, buf_list wb' = buf_list wb ++ [x] /\ h_size x = 0 /\ 0 < h_aux x
    else wb' = wb /\ inv h0 h' wb chunks.
Proof.
  intros Hinv Hb. pose proof Hinv as []. destruct inv_start0 as [Hg0 Hle].
  unfold Extend, malloc. set (f := u32 _). set (g := Z.min _ _).
  assert (0 <= g <= 9) as Hgr.
  { pose proof (wrapu_range 32 (Z.of_nat (length (buf_list wb)) + base_block_factor wb) ltac:(lia))
      as Hr. unfold in_u in Hr. fold f in Hr. unfold g, TRAN_BUF_BLOCK_MAX_FACTOR. lia. }
  pose proof (block_bytes_min g ltac:(lia)) as Hbb.
  destruct (alloc_ok (next_addr h)) eqn:Eok; simpl.
  - unfold capacity, block_size. simpl. rewrite lookup_insert_eq. simpl.
    eexists true, _, _. split; [done|]. split; [done|]. split; [done|].
    split; [|split; [done|]].
    2: { eexists. split; [done|]. simpl. lia. }
    assert (next_addr h ∉ ids (buf_list wb)) as Hnew.
    { intros Hi. apply inv_fresh0 in Hi. lia. }
    constructor; simpl.
    + apply Forall2_app.
      * eapply Forall2_owned_frame; [done|]. intros p Hp. simpl.
        rewrite lookup_insert_ne; [done|]. by intros <-.
      * constructor; [|constructor]. eexists. simpl. rewrite lookup_insert_eq.
        split; [done|]. simpl. splits; try lia; [|done].
        split; simpl; [|lia]. rewrite length_fmap, length_seq. lia.
    + rewrite ids_app. apply NoDup_app. split_and!; [done| |apply NoDup_singleton].
      intros p Hp ->%list_elem_of_singleton. done.
    + intros p. rewrite ids_app. intros [Hp|Hp]%elem_of_app.
      * apply inv_fresh0 in Hp. lia.
      * apply list_elem_of_singleton in Hp as ->. simpl. lia.
    + intros p Hp. rewrite ids_app in Hp. rewrite lookup_insert_ne.
      * apply inv_frame0. intros Hp2. apply Hp. apply elem_of_app. by left.
      * intros <-. apply Hp. apply elem_of_app. right. simpl. by left.
    + split; [done|lia].
    + rewrite concat_app. simpl. by rewrite app_nil_r.
    + rewrite foldr_add_snoc. simpl. lia.
    + rewrite (foldr_add_snoc (fun x => h_aux x + 8)). simpl. lia.
  - eexists false, wb, _. split; [done|]. split; [done|].
    split; [intros Hok; by rewrite Hok in Eok|]. split; [done|].
    constructor; simpl; auto. intros p Hp. apply inv_fresh0 in Hp. lia.
Qed.

(** The bytes of a view can be written, and nothing else changes. *)
Definition writable (h0 h : heap) (wb : state) (v : ReadBuffer.view) (before bs : list Z) : Prop :=
  forall d, Z.of_nat (length d) <= ReadBuffer.v_size v ->
  exists h' chunks', store (ReadBuffer.v_data v) (ReadBuffer.v_off v) d h = Some h' /\
    inv h0 h' wb chunks' /\ concat chunks' = before ++ overwrite 0 d bs.

(** [take_last] on a last handle with room appends the room to the content. *)
Lemma take_last_spec h0 h wb chunks l x :
  inv h0 h wb chunks -> buf_list wb = l ++ [x] -> h_size x < h_aux x ->
  exists bs chunks', let size := h_aux x - h_size x in
    let v := ReadBuffer.mkView (h_data x) (h_size x) size in
    let wb' := mkState (l ++ [mkHandle (h_data x) (h_aux x) (h_aux x)]) (total_block_size wb)
                 (total_capacity wb) size (write_bytes wb + size) (base_block_factor wb) in
    take_last wb = Some (v, wb') /\ inv h0 h wb' chunks' /\
    concat chunks' = concat chunks ++ bs /\ Z.of_nat (length bs) = size /\
    ReadBuffer.load_view v h = Some bs /\ writable h0 h wb' v (concat chunks) bs.
Proof.
  intros [] Hl Hlt. rewrite Hl in *.
  apply Forall2_app_inv_l in inv_owned0 as (ch & ch1 & HF & HF1 & ->).
  apply Forall2_cons_inv_l in HF1 as (c & nil & Hx & HF1 & ->).
  apply Forall2_nil_inv_l in HF1 as ->.
  pose proof Hx as (b & Hb & [Hgb Hr] & Hr1 & Ha & Hpos & Hs & Hcb).
  exists (drop (Z.to_nat (h_size x)) (b_data b)), (ch ++ [b_data b]).
  cbv zeta. splits.
  - unfold take_last. rewrite Hl, last_snoc. simpl. by rewrite set_back_snoc.
  - constructor; cbn [buf_list total_block_size total_capacity last_bytes write_bytes]; auto;
      rewrite ?ids_app in *; auto.
    + apply Forall2_app; [done|]. constructor; [|constructor].
      exists b. simpl. splits; auto; try lia. { by split. } rewrite take_ge; [done|lia].
    + rewrite inv_bytes0, !concat_app, !length_app, Hcb. simpl.
      rewrite !app_nil_r, length_take. lia.
    + by rewrite inv_capacity0, !foldr_add_snoc.
    + by rewrite inv_block_size0, !(foldr_add_snoc (fun x => h_aux x + 8)).
  - rewrite !concat_app, Hcb. simpl. by rewrite !app_nil_r, <- app_assoc, take_drop.
  - rewrite length_drop. lia.
  - unfold ReadBuffer.load_view, load. simpl. rewrite Hb. simpl.
    replace (_ && _) with true by lia. f_equal. rewrite take_ge; [done|].
    rewrite length_drop. lia.
  - intros d Hd. cbn [ReadBuffer.v_size ReadBuffer.v_data ReadBuffer.v_off] in *.
    rewrite (store_spec _ _ _ _ b) by (done || lia).
    rewrite ids_app in *. apply NoDup_app in inv_nodup0 as (Hn1 & Hdisj & Hn2).
    eexists _, (ch ++ [overwrite (Z.to_nat (h_size x)) d (b_data b)]). split; [done|].
    assert (concat (ch ++ [overwrite (Z.to_nat (h_size x)) d (b_data b)]) =
      concat (ch ++ [c]) ++ overwrite 0 d (drop (Z.to_nat (h_size x)) (b_data b))) as Hcc.
    { rewrite !concat_app. simpl. rewrite !app_nil_r, <- app_assoc. f_equal.
      rewrite <- (take_drop (Z.to_nat (h_size x)) (b_data b)) at 1. rewrite <- Hcb.
      rewrite <- (overwrite_app_r 0 d c). f_equal.
      apply owned_length in Hx. lia. }
    split; [|done].
    constructor; cbn [buf_list total_block_size total_capacity last_bytes write_bytes blocks
      set_blocks next_addr]; auto.
    + apply Forall2_app.
      * eapply Forall2_owned_frame; [done|]. intros p Hp. simpl. rewrite lookup_insert_ne; [done|].
        intros <-. apply (Hdisj (h_data x)); [done|]. by left.
      * constructor; [|constructor]. eexists. simpl. rewrite lookup_insert_eq. split; [done|].
        simpl. splits; auto; try lia.
        -- split; simpl; [rewrite length_overwrite; lia|lia].
        -- rewrite take_ge; [done|]. rewrite length_overwrite; lia.
    + rewrite ids_app. apply NoDup_app. by split_and!.
    + intros p. rewrite ids_app. apply inv_fresh0.
    + intros p Hp. rewrite ids_app in Hp. rewrite lookup_insert_ne; [by apply inv_frame0|].
      intros <-. apply Hp, elem_of_app. right. by left.
    + rewrite Hcc, length_app, length_overwrite; rewrite length_drop; lia.
    + by rewrite inv_capacity0, !foldr_add_snoc.
    + by rewrite inv_block_size0, !(foldr_add_snoc (fun x => h_aux x + 8)).
Qed.

Lemma clear_last_inv h0 h wb chunks : inv h0 h wb chunks -> inv h0 h (clear_last wb) chunks.
Proof. intros []. by constructor. Qed.

(** [Next]: the content grows by the bytes of the view it returns, whatever they are. *)
Lemma write_Next_spec h0 h wb chunks :
  inv h0 h wb chunks -> in_u 64 (base_block_factor wb) ->
  exists v wb' h', Next wb h = Some (v, wb', h') /\ last_ok wb' /\
    ((forall n, alloc_ok n = true) -> is_Some v) /\
    base_block_factor wb' = base_block_factor wb /\
    match v with
    | Some v =>
        exists bs chunks', inv h0 h' wb' chunks' /\ concat chunks' = concat chunks ++ bs /\
          0 < ReadBuffer.v_size v /\ ReadBuffer.v_size v = Z.of_nat (length bs) /\
          last_bytes wb' = ReadBuffer.v_size v /\ ReadBuffer.load_view v h' = Some bs /\
          writable h0 h' wb' v (concat chunks) bs
    | None => inv h0 h' wb' chunks /\ write_bytes wb' = write_bytes wb
    end.
Proof.
  intros Hinv Hb. unfold Next.
  assert (forall l x h wb chunks, inv h0 h wb chunks -> buf_list wb = l ++ [x] ->
    h_size x < h_aux x -> 0 <= h_size x -> exists v wb', take_last wb = Some (v, wb') /\ last_ok wb' /\
    base_block_factor wb' = base_block_factor wb /\
    exists bs chunks', inv h0 h wb' chunks' /\ concat chunks' = concat chunks ++ bs /\
      0 < ReadBuffer.v_size v /\ ReadBuffer.v_size v = Z.of_nat (length bs) /\
      last_bytes wb' = ReadBuffer.v_size v /\ ReadBuffer.load_view v h = Some bs /\
      writable h0 h wb' v (concat chunks) bs) as Htake.
  { clear. intros l x h wb chunks Hinv Hl Hlt H0.
    destruct (take_last_spec h0 h wb chunks l x Hinv Hl Hlt)
      as (bs & ch & Ht & Hi & Hc & Hlen & Hload & Hw).
    eexists _, _. splits; [exact Ht| |done|].
    - right. eexists. simpl. rewrite last_snoc. split; [done|]. simpl. lia.
    - exists bs, ch. splits; auto; simpl; lia. }
  unfold needs_block. destruct (last (buf_list wb)) as [x|] eqn:El.
  - apply last_Some in El as [l Hl]. pose proof Hinv as [HF _ _ _ _ _ _ _]. rewrite Hl in HF.
    apply Forall2_app_inv_l in HF as (ch & ch1 & _ & HF1 & _).
    apply Forall2_cons_inv_l in HF1 as (c & ? & (b & _ & _ & _ & _ & _ & Hs & _) & _ & _).
    destruct (h_size x =? h_aux x) eqn:E.
    + destruct (Extend_spec h0 h wb chunks Hinv Hb) as (ok & wb' & h' & -> & Hf & Hyes & Hok).
      simpl.
      destruct ok.
      * destruct Hok as (Hinv' & Hw & y & Hy & Hy0 & Hyc).
        destruct (Htake _ _ _ _ _ Hinv' Hy) as (v & wb2 & -> & Hlast & Hf2 & bs & ch2 & H2); [lia..|].
        simpl. exists (Some v), wb2, h'. splits; [done|done|by eauto|congruence|].
        rewrite concat_app in H2. simpl in H2. rewrite app_nil_r in H2. by exists bs, ch2.
      * destruct Hok as [-> Hinv']. exists None, (clear_last wb), h'.
        splits; auto; [by left|intros Hn; by apply Hyes in Hn|by apply clear_last_inv].
    + destruct (Htake _ _ _ _ _ Hinv Hl) as (v & wb2 & -> & H2); [lia..|].
      simpl. destruct H2 as (? & ? & ?). exists (Some v), wb2, h. splits; eauto.
  - destruct (Extend_spec h0 h wb chunks Hinv Hb) as (ok & wb' & h' & -> & Hf & Hyes & Hok).
      simpl.
    destruct ok.
    + destruct Hok as (Hinv' & Hw & y & Hy & Hy0 & Hyc).
      destruct (Htake _ _ _ _ _ Hinv' Hy) as (v & wb2 & -> & Hlast & Hf2 & bs & ch2 & H2); [lia..|].
      simpl. exists (Some v), wb2, h'. splits; [done|done|by eauto|congruence|].
      rewrite concat_app in H2. simpl in H2. rewrite app_nil_r in H2. by exists bs, ch2.
    + destruct Hok as [-> Hinv']. exists None, (clear_last wb), h'.
      splits; auto; [by left|intros Hn; by apply Hyes in Hn|by apply clear_last_inv].
Qed.

Lemma write_BackUp_spec h0 h wb chunks count :
  inv h0 h wb chunks -> last_ok wb -> 0 <= count <= last_bytes wb -> 0 < last_bytes wb ->
  exists wb' chunks', BackUp count wb = Some wb' /\ inv h0 h wb' chunks' /\ last_ok wb' /\
    base_block_factor wb' = base_block_factor wb /\
    concat chunks' = take (length (concat chunks) - Z.to_nat count) (concat chunks).
Proof.
  intros [] [?|(x & Hx & Hlast)] Hc Hpos; [lia|]. unfold BackUp. rewrite Hx. simpl.
  apply last_Some in Hx as [l Hl]. rewrite Hl in *.
  apply Forall2_app_inv_l in inv_owned0 as (ch & ch1 & HF & HF1 & ->).
  apply Forall2_cons_inv_l in HF1 as (c & nil & Hx & HF1 & ->).
  apply Forall2_nil_inv_l in HF1 as ->.
  pose proof (owned_length _ _ _ Hx) as Hlen.
  destruct Hx as (b & Hb & Hgb & Hr1 & Ha & Hcap & Hs & Hcb).
  eexists _, (ch ++ [take (Z.to_nat (h_size x - count)) (b_data b)]).
  assert (concat (ch ++ [take (Z.to_nat (h_size x - count)) (b_data b)]) =
    take (length (concat (ch ++ [c])) - Z.to_nat count) (concat (ch ++ [c]))) as Hcc.
  { rewrite !concat_app. simpl. rewrite !app_nil_r, length_app, take_app_ge by lia.
    f_equal. rewrite Hcb at 2. rewrite take_take. f_equal. lia. }
  splits; [done| |by left|done|done].
  constructor; cbn [buf_list total_block_size total_capacity last_bytes write_bytes]; auto;
    rewrite ?set_back_snoc, ?ids_app in *; auto.
  - apply Forall2_app; [done|]. constructor; [|constructor].
    exists b. simpl. splits; auto; lia.
  - rewrite Hcc, length_take, inv_bytes0, concat_app, length_app. simpl.
    rewrite app_nil_r. lia.
  - by rewrite inv_capacity0, !foldr_add_snoc.
  - by rewrite inv_block_size0, !(foldr_add_snoc (fun x => h_aux x + 8)).
Qed.

(** *** Reserve, Append: the fuel of [Reserve] is enough *)

Lemma reserve_loop_spec n count h0 h wb chunks :
  inv h0 h wb chunks -> last_ok wb -> in_u 64 (base_block_factor wb) ->
  0 <= count < Z.of_nat n ->
  exists ok wb' h' chunks', reserve_loop n count wb h = Some (ok, wb', h') /\
    inv h0 h' wb' chunks' /\ last_ok wb' /\ base_block_factor wb' = base_block_factor wb /\
    ((forall k, alloc_ok k = true) -> ok = true) /\
    (ok = true -> exists bs, concat chunks' = concat chunks ++ bs /\ Z.of_nat (length bs) = count).
Proof.
  revert count h wb chunks. induction n as [|n IH]; intros count h wb chunks Hinv Hlast Hf Hc; [lia|].
  cbn [reserve_loop]. destruct (0 <? count) eqn:E.
  - destruct (write_Next_spec h0 h wb chunks Hinv Hf) as (v & wb1 & h1 & -> & Hl1 & Hyes & Hf1 & Hv).
    simpl. destruct v as [v|].
    + destruct Hv as (bs & ch1 & Hinv1 & Hcc & Hpos & Hsz & Hlb & _ & _).
      destruct (count <? ReadBuffer.v_size v) eqn:E2.
      * destruct (write_BackUp_spec h0 h1 wb1 ch1 (ReadBuffer.v_size v - count))
          as (wb2 & ch2 & -> & Hinv2 & Hl2 & Hf2 & Hcc2); auto; [lia..|].
        simpl. destruct n; [lia|]. cbn [reserve_loop].
        replace (0 <? 0) with false by lia.
        exists true, wb2, h1, ch2. splits; auto; [congruence|]. intros _.
        exists (take (Z.to_nat count) bs). split.
        -- rewrite Hcc2, Hcc, length_app, take_app_ge by lia. do 2 f_equal. lia.
        -- rewrite length_take. lia.
      * destruct (IH (count - ReadBuffer.v_size v) h1 wb1 ch1)
          as (ok & wb2 & h2 & ch2 & -> & Hinv2 & Hl2 & Hf2 & Hok & Hbs); auto; [congruence|lia|].
        exists ok, wb2, h2, ch2. splits; auto; [congruence|].
        intros Ht. destruct (Hbs Ht) as (bs2 & Hcc2 & Hlen2). exists (bs ++ bs2). split.
        -- by rewrite Hcc2, Hcc, app_assoc.
        -- rewrite length_app. lia.
    + destruct Hv as [Hinv1 _]. exists false, wb1, h1, chunks. splits; auto.
      * intros Hn. apply Hyes in Hn. by destruct Hn.
      * done.
  - exists true, wb, h, chunks. splits; auto. intros _. exists []. rewrite app_nil_r.
    split; [done|simpl; lia].
Qed.

Lemma Reserve_spec count h0 h wb chunks :
  inv h0 h wb chunks -> last_ok wb -> in_u 64 (base_block_factor wb) -> 0 <= count ->
  exists (ok : bool) wb' h' chunks',
    Reserve count wb h = Some (if ok then write_bytes wb else -1, wb', h') /\
    inv h0 h' wb' chunks' /\ last_ok wb' /\ base_block_factor wb' = base_block_factor wb /\
    ((forall k, alloc_ok k = true) -> ok = true) /\
    (ok = true -> exists bs, concat chunks' = concat chunks ++ bs /\ Z.of_nat (length bs) = count).
Proof.
  intros Hinv Hl Hf Hc. unfold Reserve.
  destruct (reserve_loop_spec (S (S (Z.to_nat count))) count h0 h wb chunks)
    as (ok & wb' & h' & ch' & -> & H1); auto; [lia|]. by exists ok, wb', h', ch'.
Qed.

Lemma overwrite_end {A} (d a b : list A) :
  length d = length b -> overwrite (length a) d (a ++ b) = a ++ d.
Proof.
  intros Hl. unfold overwrite. rewrite take_app_length, drop_ge; [by rewrite app_nil_r|].
  rewrite length_app. lia.
Qed.

Lemma write_Append_spec data h0 h wb chunks :
  inv h0 h wb chunks -> last_ok wb -> in_u 64 (base_block_factor wb) ->
  exists ok wb' h' chunks',
    Append data (Z.of_nat (length data)) wb h = Some (ok, wb', h') /\
    inv h0 h' wb' chunks' /\ last_ok wb' /\ base_block_factor wb' = base_block_factor wb /\
    ((forall k, alloc_ok k = true) -> ok = true) /\
    (ok = true -> concat chunks' = concat chunks ++ data).
Proof.
  intros Hinv Hl Hf. unfold Append. destruct (Z.of_nat (length data) =? 0) eqn:E.
  - exists true, wb, h, chunks. splits; auto. intros _. destruct data; [|simpl in E; lia].
    by rewrite app_nil_r.
  - destruct (Reserve_spec (Z.of_nat (length data)) h0 h wb chunks)
      as (ok & wb1 & h1 & ch1 & -> & Hinv1 & Hl1 & Hf1 & Hok & Hbs); auto; [lia|]. simpl.
    pose proof (inv_bytes _ _ _ _ Hinv) as Hw.
    destruct ok; simpl.
    + replace (write_bytes wb <? 0) with false by lia.
      destruct (Hbs eq_refl) as (bs & Hcc & Hlen).
      rewrite take_ge by lia.
      destruct (SetData_spec h0 h1 wb1 ch1 (write_bytes wb) data) as (h2 & ch2 & -> & Hinv2 & Hcc2 & _);
        auto; [lia| |].
      { rewrite (inv_bytes _ _ _ _ Hinv1), Hcc, length_app. lia. }
      simpl. exists true, wb1, h2, ch2. splits; auto. intros _.
      rewrite Hcc2, Hcc, Hw, Nat2Z.id. apply overwrite_end. lia.
    + exists false, wb1, h1, ch1. splits; auto. done.
Qed.

(** *** SwapOut hands over every block with a byte in it, and frees the others *)

Lemma free_one h x c :
  owned h x c -> exists h', free (h_data x) h = Some h' /\ next_addr h' = next_addr h /\
    blocks h' !! h_data x = None /\ forall p, p <> h_data x -> blocks h' !! p = blocks h !! p.
Proof.
  intros (b & Hb & Hgb & Hr & _). unfold free. rewrite Hb. simpl. rewrite Hr. simpl.
  eexists; split; [done|]. splits; simpl; auto.
  - apply lookup_delete_eq.
  - intros p Hp. by rewrite lookup_delete_ne.
Qed.

(** Freeing the blocks of a list of owned handles leaves everything else alone. *)
Lemma free_all_spec h l chunks :
  Forall2 (owned h) l chunks -> NoDup (ids l) ->
  exists h', ReadBuffer.free_all l h = Some h' /\ next_addr h' = next_addr h /\
    forall p, blocks h' !! p = if decide (p ∈ ids l) then None else blocks h !! p.
Proof.
  intros HF. revert h chunks HF. induction l as [|x l IH]; intros h chunks HF Hnd; simpl.
  - exists h. splits; auto.
  - apply Forall2_cons_inv_l in HF as (c & cs & Hx & HF & ->).
    apply NoDup_cons in Hnd as [Hnin Hnd].
    destruct (free_one h x c Hx) as (h1 & -> & Hn1 & Hd1 & Hf1). simpl.
    destruct (IH h1 cs) as (h2 & -> & Hn2 & Hf2); [|done|].
    { eapply Forall2_owned_frame; [exact HF|]. intros p Hp. symmetry. apply Hf1. by intros ->. }
    exists h2. splits; [done|congruence|]. intros p. rewrite Hf2. simpl.
    destruct (decide (p ∈ ids l)) as [Hin|Hout].
    + rewrite decide_True; [done|by right].
    + destruct (decide (p = h_data x)) as [->|Hne].
      * rewrite decide_True; [done|by left].
      * rewrite decide_False; [by apply Hf1|]. by intros [|]%elem_of_cons.
Qed.

(** The handles a [ReadBuffer] receives. *)
Definition handed (l : list BufferHandle) : list BufferHandle :=
  (fun x => mkHandle (h_data x) (h_size x) 0) <$> filter (fun x => 0 < h_size x) l.

Lemma swap_loop_spec h l chunks rb :
  Forall2 (owned h) l chunks -> NoDup (ids l) ->
  exists rb' h', swap_loop l rb h = Some (rb', h') /\ next_addr h' = next_addr h /\
    ReadBuffer.buf_list rb' = ReadBuffer.buf_list rb ++ handed l /\
    ReadBuffer.total_bytes rb' = ReadBuffer.total_bytes rb + Z.of_nat (length (concat chunks)) /\
    (ReadBuffer.cur_it rb = 0%nat -> ReadBuffer.cur_it rb' = 0%nat) /\
    ReadBuffer.cur_pos rb' = ReadBuffer.cur_pos rb /\
    ReadBuffer.last_bytes rb' = ReadBuffer.last_bytes rb /\
    ReadBuffer.read_bytes rb' = ReadBuffer.read_bytes rb /\
    ReadBuffer.total_block_size rb' = ReadBuffer.total_block_size rb +
      foldr Z.add 0 ((fun x => h_aux x + 8) <$> filter (fun x => 0 < h_size x) l) /\
    forall p, blocks h' !! p =
      if decide (p ∈ ids l /\ p ∉ ids (handed l)) then None else blocks h !! p.
Proof.
  intros HF. revert h chunks rb HF. induction l as [|x l IH]; intros h chunks rb HF Hnd; simpl.
  - apply Forall2_nil_inv_l in HF as ->. exists rb, h. unfold handed. simpl. rewrite app_nil_r.
    splits; auto; lia.
  - apply Forall2_cons_inv_l in HF as (c & cs & Hx & HF & ->).
    simpl in Hnd. apply NoDup_cons in Hnd as [Hnin Hnd].
    pose proof (owned_length _ _ _ Hx) as Hlen.
    pose proof Hx as (b & Hb & [Hgb Hrb] & Hr & Ha & _).
    assert (forall y, y ∈ ids (handed l) -> y ∈ ids l) as Hsub.
    { intros y. unfold handed, ids. rewrite <- list_fmap_compose. intros Hy.
      apply list_elem_of_fmap in Hy as (z & -> & Hz).
      apply list_elem_of_filter in Hz as [_ Hz]. apply list_elem_of_fmap. by exists z. }
    destruct (0 <? h_size x) eqn:E.
    + assert (handed (x :: l) = mkHandle (h_data x) (h_size x) 0 :: handed l) as Hh.
      { unfold handed. rewrite filter_cons. by rewrite decide_True by lia. }
      unfold ReadBuffer.Append. simpl.
      pose proof (add_ref_free _ _ _ Hb Hrb) as Haf.
      pose proof (add_ref_live _ _ _ Hb) as Har. rewrite Har in Haf |- *. simpl in Haf |- *.
      unfold block_size at 1. simpl. rewrite lookup_insert_eq. simpl. rewrite Haf. simpl.
      destruct (IH h cs (ReadBuffer.mkState (ReadBuffer.buf_list rb ++ [mkHandle (h_data x) (h_size x) 0])
         (ReadBuffer.total_block_size rb + b_size b)
         (ReadBuffer.total_bytes rb + h_size x) 0 (ReadBuffer.cur_pos rb)
         (ReadBuffer.last_bytes rb) (ReadBuffer.read_bytes rb))) as
         (rb2 & h2 & -> & Hn & Hl & Ht & Hi & Hp & Hlb & Hrd & Hbs & Hfr); [done|done|].
      exists rb2, h2. simpl in *. rewrite Hh. splits; auto.
      * rewrite Hl, <- app_assoc. done.
      * rewrite Ht, length_app. lia.
      * rewrite Hbs, filter_cons, decide_True by lia. csimpl. lia.
      * intros p. rewrite Hfr. destruct (decide (p ∈ ids l /\ p ∉ ids (handed l))) as [[H1 H2]|Hn1].
        -- rewrite decide_True; [done|]. simpl. split; [by right|].
           intros [->|]%elem_of_cons; done.
        -- rewrite decide_False; [done|]. simpl. intros [[->|H1]%elem_of_cons H2].
           ++ apply H2. by left.
           ++ apply Hn1. split; [done|]. intros H3. apply H2. by right.
    + assert (handed (x :: l) = handed l) as Hh.
      { unfold handed. rewrite filter_cons. by rewrite decide_False by lia. }
      simpl. destruct (free_one h x c Hx) as (h1 & -> & Hn1 & Hd1 & Hf1). simpl.
      destruct (IH h1 cs rb) as
         (rb2 & h2 & -> & Hn & Hl & Ht & Hi & Hp & Hlb & Hrd & Hbs & Hfr); [|done|].
      { eapply Forall2_owned_frame; [exact HF|]. intros p Hp. symmetry. apply Hf1. by intros ->. }
      exists rb2, h2. rewrite Hh. splits; auto; try congruence.
      * rewrite Ht, length_app. assert (length c = 0%nat) by lia. lia.
      * rewrite Hbs, filter_cons, decide_False by lia. done.
      * intros p. rewrite Hfr. simpl.
        destruct (decide (p ∈ ids l /\ p ∉ ids (handed l))) as [[H1 H2]|Hn3].
        -- rewrite decide_True; [done|]. split; [by right|done].
        -- destruct (decide (p = h_data x)) as [->|Hne].
           ++ rewrite decide_True; [done|]. split; [by left|]. intros H1. by apply Hnin, Hsub.
           ++ rewrite decide_False; [by apply Hf1|].
              intros [[|H1]%elem_of_cons H2]; [done|]. by apply Hn3.
Qed.

End WithAllocator.
End WriteBuffer.
