(* ===== verification/Buffer.v ===== *)
(** * From the writer to the reader ([src/buffer/buffer.cpp])

    The two contracts of the buffers: what is written is what is read, and every block goes
    back to the heap; a [ReadBuffer] is a stream over its bytes. *)

From S2P Require Import Prelude TranBuf BufRead BufWrite.
Import TranBufPool.

Module BufferRoundTrip.
Import WriteBuffer.
Section WithAllocator.
Context `{Allocator}.

(** What a caller does with a [WriteBuffer]: [Append], [Reserve], [SetData], and the way a
    serializer fills it: one [Next], the first bytes of the view written, the rest backed
    up. *)
Inductive wop :=
  | WAppend (data : list Z) | WReserve (n : nat) | WSetData (pos : nat) (data : list Z)
  | WFill (data : list Z).

(** The [bool] says whether the operation succeeded; a fill that is larger than the view
    writes what fits. *)
Definition exec (o : wop) (wb : state) (h : heap) : option (bool * state * heap) :=
  match o with
  | WAppend d => Append d (Z.of_nat (length d)) wb h
  | WReserve n => '(pos, wb', h') ← Reserve (Z.of_nat n) wb h; Some (0 <=? pos, wb', h')
  | WSetData pos d => h' ← SetData (Z.of_nat pos) d wb h; Some (true, wb, h')
  | WFill d =>
      '(v, wb', h') ← Next wb h;
      match v with
      | None => Some (false, wb', h')
      | Some v =>
          let d' := take (Z.to_nat (ReadBuffer.v_size v)) d in
          h'' ← store (ReadBuffer.v_data v) (ReadBuffer.v_off v) d' h';
          wb'' ← BackUp (ReadBuffer.v_size v - Z.of_nat (length d')) wb';
          Some (Nat.eqb (length d') (length d), wb'', h'')
      end
  end.

Fixpoint exec_all (os : list wop) (wb : state) (h : heap) : option (bool * state * heap) :=
  match os with
  | [] => Some (true, wb, h)
  | o :: r => '(ok, wb', h') ← exec o wb h;
              if (ok : bool) then exec_all r wb' h' else Some (false, wb', h')
  end.

(** The specification: a string whose reserved bytes have any value. *)
Definition a_exec (o : wop) (c : list (option Z)) : list (option Z) :=
  match o with
  | WAppend d | WFill d => c ++ (Some <$> d)
  | WReserve n => c ++ replicate n None
  | WSetData pos d => overwrite pos (Some <$> d) c
  end.

Definition a_exec_all (os : list wop) (c : list (option Z)) : list (option Z) :=
  foldl (fun c o => a_exec o c) c os.

(** [SetData] stays within what is written. *)
Fixpoint in_bounds (os : list wop) (c : list (option Z)) : bool :=
  match os with
  | [] => true
  | o :: r =>
      match o with WSetData pos d => (pos + length d <=? length c)%nat | _ => true end
      && in_bounds r (a_exec o c)
  end.

Definition agrees (c : list (option Z)) (l : list Z) : Prop :=
  Forall2 (fun o z => match o with Some x => x = z | None => True end) c l.

Lemma agrees_some l : agrees (Some <$> l) l.
Proof. induction l; by constructor. Qed.

Lemma agrees_none l n : length l = n -> agrees (replicate n None) l.
Proof. intros <-. induction l; by constructor. Qed.

Lemma agrees_length c l : agrees c l -> length c = length l.
Proof. apply Forall2_length. Qed.

Lemma agrees_overwrite c l d pos :
  agrees c l -> agrees (overwrite pos (Some <$> d) c) (overwrite pos d l).
Proof.
  intros Ha. unfold overwrite. rewrite length_fmap.
  apply Forall2_app; [by apply Forall2_take|]. apply Forall2_app; [apply agrees_some|].
  by apply Forall2_drop.
Qed.

(** A store into the view that [Next] returned overwrites the end of the content. *)
Lemma fill_spec h0 h wb chunks d :
  inv h0 h wb chunks -> in_u 64 (base_block_factor wb) ->
  exists ok wb' h' chunks', exec (WFill d) wb h = Some (ok, wb', h') /\
    inv h0 h' wb' chunks' /\ last_ok wb' /\ base_block_factor wb' = base_block_factor wb /\
    (ok = true -> concat chunks' = concat chunks ++ d).
Proof.
  intros Hinv Hf. simpl.
  destruct (write_Next_spec h0 h wb chunks Hinv Hf) as (v & wb1 & h1 & -> & Hl1 & _ & Hf1 & Hv). simpl.
  destruct v as [v|].
  2: { exists false, wb1, h1, chunks. by destruct Hv. }
  destruct Hv as (bs & ch1 & Hinv1 & Hcc & Hpos & Hsz & Hlb & Hload & Hw).
  set (d' := take _ d). assert (Z.of_nat (length d') <= ReadBuffer.v_size v) as Hd'.
  { unfold d'. rewrite length_take. lia. }
  destruct (Hw d' Hd') as (h2 & ch2 & -> & Hinv2 & Hcc2). simpl.
  destruct (write_BackUp_spec h0 h2 wb1 ch2 (ReadBuffer.v_size v - Z.of_nat (length d')))
    as (wb3 & ch3 & -> & Hinv3 & Hl3 & Hf3 & Hcc3); auto; [lia..|]. simpl.
  eexists _, wb3, h2, ch3. splits; [done..|congruence|].
  intros Heq. apply Nat.eqb_eq in Heq.
  assert (d' = d) as Hdd.
  { unfold d' in *. rewrite length_take in Heq. apply take_ge. lia. }
  assert (length (overwrite 0 d' bs) = length bs) as Hov by (apply length_overwrite; lia).
  rewrite Hdd in *. rewrite Hcc3, Hcc2, length_app, take_app_ge by lia.
  f_equal. unfold overwrite. simpl. rewrite length_app, length_drop.
  replace (_ - _)%nat with (length d) by lia. apply take_app_length.
Qed.

Lemma exec_spec h0 h wb chunks o c :
  inv h0 h wb chunks -> last_ok wb -> in_u 64 (base_block_factor wb) ->
  agrees c (concat chunks) -> in_bounds [o] c = true ->
  exists ok wb' h' chunks', exec o wb h = Some (ok, wb', h') /\
    inv h0 h' wb' chunks' /\ last_ok wb' /\ base_block_factor wb' = base_block_factor wb /\
    (ok = true -> agrees (a_exec o c) (concat chunks')).
Proof.
  intros Hinv Hl Hf Ha Hb. destruct o as [d|n|pos d|d].
  - destruct (write_Append_spec d h0 h wb chunks) as (ok & wb' & h' & ch' & He & Hi & Hl' & Hf' & _ & Hc);
      auto.
    exists ok, wb', h', ch'. splits; auto. intros Hok. rewrite (Hc Hok). simpl.
    apply Forall2_app; [done|apply agrees_some].
  - destruct (Reserve_spec (Z.of_nat n) h0 h wb chunks)
      as (ok & wb' & h' & ch' & He & Hi & Hl' & Hf' & _ & Hc); auto; [lia|].
    simpl. rewrite He. simpl. exists ok, wb', h', ch'.
    pose proof (inv_bytes _ _ _ _ Hinv) as Hw. splits; auto.
    + destruct ok; [|done]. by replace (0 <=? write_bytes wb) with true by lia.
    + intros Hok. destruct (Hc Hok) as (bs & -> & Hlen). apply Forall2_app; [done|].
      apply agrees_none. lia.
  - simpl in Hb. rewrite andb_true_r in Hb. pose proof (agrees_length _ _ Ha) as Hlen.
    destruct (SetData_spec h0 h wb chunks (Z.of_nat pos) d) as (h' & ch' & He & Hi & Hc & _);
      auto; [lia|rewrite (inv_bytes _ _ _ _ Hinv); lia|].
    simpl. rewrite He. simpl. exists true, wb, h', ch'. splits; auto.
    intros _. rewrite Hc, Nat2Z.id. by apply agrees_overwrite.
  - destruct (fill_spec h0 h wb chunks d) as (ok & wb' & h' & ch' & He & Hi & Hl' & Hf' & Hc); auto.
    exists ok, wb', h', ch'. splits; auto. intros Hok. rewrite (Hc Hok). simpl.
    apply Forall2_app; [done|apply agrees_some].
Qed.

Lemma exec_all_spec h0 os h wb chunks c :
  inv h0 h wb chunks -> last_ok wb -> in_u 64 (base_block_factor wb) ->
  agrees c (concat chunks) -> in_bounds os c = true ->
  exists ok wb' h' chunks', exec_all os wb h = Some (ok, wb', h') /\
    inv h0 h' wb' chunks' /\ (ok = true -> agrees (a_exec_all os c) (concat chunks')).
Proof.
  revert h wb chunks c. induction os as [|o r IH]; intros h wb chunks c Hinv Hl Hf Ha Hb.
  - by exists true, wb, h, chunks.
  - cbn [in_bounds] in Hb. apply andb_prop in Hb as [Hb1 Hb2].
    destruct (exec_spec h0 h wb chunks o c) as (ok & wb1 & h1 & ch1 & He & Hi1 & Hl1 & Hf1 & Hc1);
      auto. { cbn [in_bounds]. by rewrite Hb1. }
    cbn [exec_all]. rewrite He. simpl. destruct ok.
    + destruct (IH h1 wb1 ch1 (a_exec o c)) as (ok & wb2 & h2 & ch2 & H2); auto; [congruence|].
      by exists ok, wb2, h2, ch2.
    + by exists false, wb1, h1, ch1.
Qed.

Lemma handed_good h l chunks :
  Forall2 (owned h) l chunks ->
  exists cs, concat cs = concat chunks /\
    Forall2 (fun x c => load (h_data x) (h_aux x) (h_size x) h = Some c /\ c <> [])
      (handed l) cs.
Proof.
  induction 1 as [|x c l chunks Hx HF (cs & Hcc & IH)]; [by exists []|].
  pose proof (owned_length _ _ _ Hx) as Hlen. unfold handed in *. rewrite filter_cons.
  case_decide.
  - exists (c :: cs). simpl. split; [by rewrite Hcc|]. constructor; [|done]. simpl. split.
    + destruct Hx as (b & Hb & [Hgb _] & _ & Ha & _ & Hs & ->). unfold load. rewrite Hb. simpl.
      replace (_ <=? _) with true by lia. simpl. by replace (_ <=? _) with true by lia.
    + intros ->. simpl in Hlen. lia.
  - exists cs. destruct c; [done|]. simpl in Hlen. lia.
Qed.

Lemma handed_ids l p : p ∈ ids (handed l) -> p ∈ ids l.
Proof.
  unfold ids, handed. rewrite <- list_fmap_compose.
  intros (z & -> & [_ Hz]%list_elem_of_filter)%list_elem_of_fmap.
  apply list_elem_of_fmap. by exists z.
Qed.

Lemma handed_free_all l h :
  ReadBuffer.free_all (handed l) h = ReadBuffer.free_all (filter (fun x => 0 < h_size x) l) h.
Proof.
  unfold handed. revert h. induction (filter _ l) as [|x r IH]; intros h; [done|].
  simpl. destruct (free (h_data x) h); simpl; [apply IH|done].
Qed.

Lemma filter_owned h l chunks :
  Forall2 (owned h) l chunks -> exists cs, Forall2 (owned h) (filter (fun x => 0 < h_size x) l) cs.
Proof.
  induction 1 as [|x c l chunks Hx HF (cs & IH)]; [by exists []|].
  rewrite filter_cons. case_decide; [|by exists cs]. exists (c :: cs). by constructor.
Qed.

Lemma filter_nodup l :
  NoDup (ids l) -> NoDup (ids (filter (fun x => 0 < h_size x) l)).
Proof.
  unfold ids. induction l as [|x r IH]; simpl; [done|]. intros [Hx Hn]%NoDup_cons.
  rewrite filter_cons. case_decide; [|by apply IH]. csimpl. apply NoDup_cons. split; [|by apply IH].
  intros (z & Hz & [_ Hz2]%list_elem_of_filter)%list_elem_of_fmap. apply Hx.
  rewrite Hz. apply list_elem_of_fmap. by exists z.
Qed.

Lemma handed_ids_eq l : ids (handed l) = ids (filter (fun x => 0 < h_size x) l).
Proof. unfold ids, handed. by rewrite <- list_fmap_compose. Qed.

(** Everything [SwapOut] leaves behind, and what destroying the reader then frees. *)
Lemma SwapOut_spec h0 h wb chunks :
  inv h0 h wb chunks ->
  exists wb' rb h' cs h'', SwapOut wb ReadBuffer.init h = Some (wb', rb, h') /\
    wb' = set_base_block_factor (base_block_factor wb) init /\
    ReadBuffer.good rb h' cs /\ concat cs = concat chunks /\ ReadBuffer.read_bytes rb = 0 /\
    ReadBuffer.ToString rb h' = Some (concat chunks) /\
    ReadBuffer.TotalCount rb = write_bytes wb /\
    ReadBuffer.destroy rb h' = Some h'' /\ blocks h'' = blocks h0.
Proof.
  intros []. unfold SwapOut.
  destruct (swap_loop_spec h (buf_list wb) chunks ReadBuffer.init)
    as (rb & h1 & -> & Hn & Hl & Ht & Hit & Hp & Hlb & Hrd & Hbs & Hfr); [done|done|]. simpl in *.
  assert (forall p, p ∈ ids (handed (buf_list wb)) -> blocks h !! p = blocks h1 !! p) as Hfr1.
  { intros p H1. rewrite Hfr, decide_False by tauto. done. }
  destruct (handed_good h (buf_list wb) chunks) as (cs & Hcc & Hcs); [done|].
  assert (Forall2 (fun x c => load (h_data x) (h_aux x) (h_size x) h1 = Some c /\ c <> [])
    (handed (buf_list wb)) cs) as Hcs1.
  { clear -Hcs Hfr1. induction Hcs as [|x c l cs [Hload Hne] HF IH]; constructor.
    - split; [|done]. rewrite <- Hload. apply load_frame. symmetry. apply Hfr1. by left.
    - apply IH. intros p Hp. apply Hfr1. by right. }
  destruct (filter_owned h _ _ inv_owned0) as [fcs Hfo].
  destruct (free_all_spec h1 (filter (fun x => 0 < h_size x) (buf_list wb)) fcs)
    as (h2 & Hfree & _ & Hfr2).
  { eapply Forall2_owned_frame; [exact Hfo|]. intros p Hp1. apply Hfr1. by rewrite handed_ids_eq. }
  { by apply filter_nodup. }
  eexists _, rb, h1, cs, h2. splits; auto.
  - unfold ReadBuffer.good. rewrite Hl, Ht, Hp, Hlb, Hrd, Hit, Hcc by done. simpl.
    splits; auto; lia.
  - unfold ReadBuffer.ToString. rewrite Hl, <- Hcc. simpl. clear -Hcs1.
    induction Hcs1 as [|x c l cs [Hx _] HF IH]; simpl; [done|]. by rewrite Hx, IH.
  - unfold ReadBuffer.TotalCount. rewrite Ht, inv_bytes0. done.
  - unfold ReadBuffer.destroy. rewrite Hl. simpl. by rewrite handed_free_all.
  - apply map_eq. intros p. rewrite Hfr2.
    destruct (decide (p ∈ ids (buf_list wb))) as [Hin|Hout].
    + assert (blocks h0 !! p = None) as ->.
      { apply good_heap_fresh; [tauto|]. apply inv_fresh0 in Hin. lia. }
      case_decide as Hd; [done|]. rewrite Hfr, decide_True; [done|].
      split; [done|by rewrite handed_ids_eq].
    + rewrite decide_False.
      * rewrite Hfr, decide_False by tauto. by apply inv_frame0.
      * intros Hp1. apply Hout, handed_ids. by rewrite handed_ids_eq.
Qed.

Lemma free_all_inv h0 h wb chunks :
  inv h0 h wb chunks -> exists h', destroy wb h = Some h' /\ blocks h' = blocks h0.
Proof.
  intros []. destruct (free_all_spec h (buf_list wb) chunks) as (h' & Hf & _ & Hb); [done|done|].
  exists h'. split; [done|]. apply map_eq. intros p. rewrite Hb. case_decide as Hp.
  - symmetry. apply good_heap_fresh; [tauto|]. apply inv_fresh0 in Hp. lia.
  - by apply inv_frame0.
Qed.

(** C9: any sequence of [Append], [Reserve], in-bounds [SetData] and serializer fills on a
    fresh [WriteBuffer] runs without undefined behaviour, whatever the allocator does.  When
    every operation succeeds, [SwapOut] into a fresh [ReadBuffer] leaves the writer empty and
    the reader with exactly the bytes the specification says (the reserved ones unspecified);
    destroying the reader gives every block back to the heap.  When an allocation fails,
    destroying the writer does. *)
Theorem write_swap_read (os : list wop) (h : heap) (f : Z) :
  good_heap h -> in_u 64 f -> in_bounds os [] = true ->
  exists ok wb h1, exec_all os (set_base_block_factor f init) h = Some (ok, wb, h1) /\
    if (ok : bool) then
      exists rb h2 h3 s, SwapOut wb ReadBuffer.init h1 = Some (set_base_block_factor (base_block_factor wb) init, rb, h2) /\
        ReadBuffer.ToString rb h2 = Some s /\ agrees (a_exec_all os []) s /\
        ReadBuffer.TotalCount rb = Z.of_nat (length s) /\ ReadBuffer.ByteCount rb = 0 /\
        ReadBuffer.destroy rb h2 = Some h3 /\ blocks h3 = blocks h
    else exists h2, destroy wb h1 = Some h2 /\ blocks h2 = blocks h.
Proof.
  intros Hg Hf Hb.
  assert (inv h h (set_base_block_factor f init) []) as Hinv.
  { destruct (inv_init h Hg). by constructor. }
  destruct (exec_all_spec h os h (set_base_block_factor f init) [] [])
    as (ok & wb & h1 & ch & He & Hi & Ha); auto; [by left|by constructor|].
  exists ok, wb, h1. split; [done|]. destruct ok; [|by eapply free_all_inv].
  destruct (SwapOut_spec h h1 wb ch Hi)
    as (wb' & rb & h2 & cs & h3 & Hsw & -> & _ & _ & Hrd & Hstr & Htot & Hd & Hbl).
  exists rb, h2, h3, (concat ch). splits; auto.
  by rewrite Htot, (inv_bytes _ _ _ _ Hi).
Qed.

End WithAllocator.

(** An allocator that fills blocks with their address. *)
Definition test_allocator : Allocator := {| alloc_ok := fun _ => true; junk := fun p _ => Z.of_nat p |}.

Lemma write_swap_read_witness :
  let os := [WReserve 2; WAppend [1; 2; 3]; WFill [4; 5]; WSetData 0 [9; 8]] in
  exists rb h2 h3, @ReadBuffer.ToString rb h2 = Some [9; 8; 1; 2; 3; 4; 5] /\
    ReadBuffer.destroy rb h2 = Some h3 /\ blocks h3 = ∅.
Proof.
  cbv zeta.
  destruct (@write_swap_read test_allocator [WReserve 2; WAppend [1; 2; 3]; WFill [4; 5]; WSetData 0 [9; 8]]
    (mkHeap ∅ 0) 0) as (ok & wb & h1 & He & Hres).
  { apply map_Forall_empty. } { unfold in_u. lia. } { reflexivity. }
  vm_compute in He. injection He as <- <- <-.
  destruct Hres as (rb & h2 & h3 & s & _ & Hs & Ha & _ & _ & Hd & Hb).
  exists rb, h2, h3. splits; [|exact Hd|exact Hb].
  rewrite Hs. f_equal. vm_compute in Ha.
  repeat match goal with H : Forall2 _ (_ :: _) _ |- _ => inversion H; clear H; subst end.
  by match goal with H : Forall2 _ [] _ |- _ => inversion H end.
Defined.

(** *** The reader as a position in a string *)

Inductive rop := RNext | RBackUp (count : Z) | RSkip (count : Z).
Inductive rout := OBytes (l : list Z) | OEnd | OBackedUp | OSkipped (all : bool).

(** The preconditions the code states with its [NET_CHECK]s. *)
Definition r_pre (o : rop) (last : Z) : Prop :=
  match o with
  | RNext => True
  | RBackUp count => 0 < last /\ 0 <= count <= last
  | RSkip count => 0 <= count
  end.

Definition r_exec (o : rop) (rb : ReadBuffer.state) (h : heap) : option (rout * ReadBuffer.state) :=
  match o with
  | RNext =>
      match ReadBuffer.Next rb with
      | (Some v, rb') => l ← ReadBuffer.load_view v h; Some (OBytes l, rb')
      | (None, rb') => Some (OEnd, rb')
      end
  | RBackUp count => rb' ← ReadBuffer.BackUp count rb; Some (OBackedUp, rb')
  | RSkip count => '(b, rb') ← ReadBuffer.Skip count rb; Some (OSkipped b, rb')
  end.

(** [s_step str (pos, last) o out (pos', last')]: the specification.  How many bytes [Next]
    returns is up to the implementation, but it is at least one. *)
Inductive s_step (str : list Z) : Z * Z -> rop -> rout -> Z * Z -> Prop :=
  | s_next pos last n :
      0 < n -> pos + n <= Z.of_nat (length str) ->
      s_step str (pos, last) RNext (OBytes (take (Z.to_nat n) (drop (Z.to_nat pos) str)))
        (pos + n, n)
  | s_end pos last :
      pos = Z.of_nat (length str) -> s_step str (pos, last) RNext OEnd (pos, 0)
  | s_backup pos last count :
      0 <= count <= last -> s_step str (pos, last) (RBackUp count) OBackedUp (pos - count, 0)
  | s_skip pos last count :
      0 <= count ->
      s_step str (pos, last) (RSkip count)
        (OSkipped (pos + count <=? Z.of_nat (length str)))
        (Z.min (pos + count) (Z.of_nat (length str)), 0).

(** A well-formed [ReadBuffer] (what [SwapOut] produces) implements the stream of its
    bytes: every [Next], [BackUp] and [Skip] within the documented preconditions succeeds,
    is a step of the specification, whose position is [ByteCount], and leaves the buffer well
    formed. *)
Theorem reader_refines_stream (rb : ReadBuffer.state) (h : heap) (chunks : list (list Z)) (o : rop) :
  ReadBuffer.good rb h chunks -> r_pre o (ReadBuffer.last_bytes rb) ->
  exists out rb', r_exec o rb h = Some (out, rb') /\ ReadBuffer.good rb' h chunks /\
    s_step (concat chunks) (ReadBuffer.ByteCount rb, ReadBuffer.last_bytes rb) o out
      (ReadBuffer.ByteCount rb', ReadBuffer.last_bytes rb').
Proof.
  intros Hg Hpre. assert (ReadBuffer.total_bytes rb = Z.of_nat (length (concat chunks))) as Ht
    by (by destruct Hg as (_ & ? & _)).
  destruct o as [|count|count]; unfold r_exec, ReadBuffer.ByteCount in *; simpl in Hpre.
  - pose proof (ReadBuffer.Next_spec rb h chunks Hg) as HN. cbv zeta in HN.
    destruct (ReadBuffer.Next rb) as [[v|] rb'] eqn:E.
    + destruct HN as (Hg' & Hpos & Hlast & Hrd & Hload). rewrite Hload. simpl.
      eexists _, rb'. splits; [done|done|]. rewrite Hrd, Hlast. constructor; [done|].
      pose proof (ReadBuffer.good_range _ _ _ Hg').
      destruct Hg' as (_ & ? & _). lia.
    + destruct HN as (Hg' & Hlast & Hrd & Hend).
      eexists _, rb'. splits; [done|done|]. rewrite Hrd, Hlast. constructor. lia.
  - destruct (ReadBuffer.BackUp_spec rb h chunks count) as (rb' & -> & Hg' & Hlast & Hrd);
      [done|lia|]. simpl. eexists _, rb'. splits; [done|done|]. rewrite Hrd, Hlast.
    constructor. lia.
  - destruct (ReadBuffer.Skip_spec rb h chunks count) as (rb' & -> & Hg' & Hlast & Hrd);
      [done|done|]. simpl. eexists _, rb'. splits; [done|done|]. rewrite Hrd, Hlast, Ht.
    by constructor.
Qed.

Lemma reader_refines_stream_witness :
  let h := mkHeap {[0%nat := mkBlock 13 1 [1; 2; 3; 4; 5]]} 1 in
  let rb := ReadBuffer.mkState [mkHandle 0 2 0; mkHandle 0 3 2] 13 5 0 0 0 0 in
  exists out rb', r_exec (RSkip 3) rb h = Some (out, rb') /\
    s_step [1; 2; 3; 4; 5] (0, 0) (RSkip 3) out (ReadBuffer.ByteCount rb', ReadBuffer.last_bytes rb').
Proof.
  cbv zeta.
  destruct (reader_refines_stream
    (ReadBuffer.mkState [mkHandle 0 2 0; mkHandle 0 3 2] 13 5 0 0 0 0)
    (mkHeap {[0%nat := mkBlock 13 1 [1; 2; 3; 4; 5]]} 1) [[1; 2]; [3; 4; 5]] (RSkip 3))
    as (out & rb' & He & _ & Hs).
  - unfold ReadBuffer.good. simpl. splits; try lia; auto.
  - simpl. lia.
  - exists out, rb'. split; [exact He|exact Hs].
Defined.

End BufferRoundTrip.
