(* ===== verification/Flow.v ===== *)
(** * Flow control ([src/message_stream/flow_controller.h], [.cpp])

    A quota is an [int] that many threads update with compare-and-swap loops.  The module
    gives the atomic operations, and the loops as the code has them: each thread loads the
    quota, computes the new value, and tries to swap it in until nobody came in between. *)

From S2P Require Import Prelude.

Module FlowController.

Record state := mkState {
  _read_no_limit : bool; _read_quota : Z;
  _write_no_limit : bool; _write_quota : Z;
}.

(** ** The new value each loop computes from the old one *)

Definition recharged (quota old_quota : Z) : Z :=
  if 0 <? old_quota then quota else old_quota + quota.

Definition acquired (quota old_quota : Z) : Z :=
  if 0 <? old_quota then old_quota - quota else old_quota - 1.

(** ** The operations, run alone *)

Definition reset_read_quota (no_limit : bool) (quota : Z) (s : state) : state :=
  mkState no_limit quota (_write_no_limit s) (_write_quota s).

Definition recharge_read_quota (quota : Z) (s : state) : state :=
  if _read_no_limit s then s
  else mkState (_read_no_limit s) (recharged quota (_read_quota s))
         (_write_no_limit s) (_write_quota s).

Definition reset_write_quota (no_limit : bool) (quota : Z) (s : state) : state :=
  mkState (_read_no_limit s) (_read_quota s) no_limit quota.

Definition recharge_write_quota (quota : Z) (s : state) : state :=
  if _write_no_limit s then s
  else mkState (_read_no_limit s) (_read_quota s)
         (_write_no_limit s) (recharged quota (_write_quota s)).

Definition has_read_quota (s : state) : bool := _read_no_limit s || (0 <? _read_quota s).
Definition has_write_quota (s : state) : bool := _write_no_limit s || (0 <? _write_quota s).

Definition acquire_read_quota (quota : Z) (s : state) : Z * state :=
  if _read_no_limit s then (1, s)
  else (_read_quota s,
        mkState (_read_no_limit s) (acquired quota (_read_quota s))
          (_write_no_limit s) (_write_quota s)).

Definition acquire_write_quota (quota : Z) (s : state) : Z * state :=
  if _write_no_limit s then (1, s)
  else (_write_quota s,
        mkState (_read_no_limit s) (_read_quota s)
          (_write_no_limit s) (acquired quota (_write_quota s))).

(** ** The loops, interleaved

    One quota, any number of threads; [Loaded c old] is a thread between the [load] and the
    [compare_exchange] of call [c]. *)

Inductive call := Acquire (quota : Z) | Recharge (quota : Z).

Definition new_quota (c : call) (old_quota : Z) : Z :=
  match c with Acquire q => acquired q old_quota | Recharge q => recharged q old_quota end.

Inductive thread :=
  | Calling (c : call) | Loaded (c : call) (old_quota : Z) | Returned (c : call) (old_quota : Z).

Record config := mkConfig { quota : Z; threads : list thread }.

Inductive cas_step : config -> config -> Prop :=
  | step_load q ts i c :
      ts !! i = Some (Calling c) ->
      cas_step (mkConfig q ts) (mkConfig q (<[i := Loaded c q]> ts))
  | step_swap q ts i c :
      ts !! i = Some (Loaded c q) ->
      cas_step (mkConfig q ts) (mkConfig (new_quota c q) (<[i := Returned c q]> ts))
  | step_retry q ts i c old :
      ts !! i = Some (Loaded c old) -> old <> q ->
      cas_step (mkConfig q ts) (mkConfig q (<[i := Loaded c q]> ts)).

(** The calls that have returned, in the order in which they took effect, run one after the
    other: [runs q log q'] when each call of [log] returned the quota it found. *)
Inductive runs : Z -> list (nat * call * Z) -> Z -> Prop :=
  | runs_nil q : runs q [] q
  | runs_snoc q log q' i c :
      runs q log q' -> runs q (log ++ [(i, c, q')]) (new_quota c q').

Definition linearized (q0 : Z) (cfg : config) : Prop :=
  exists log, runs q0 log (quota cfg) /\ NoDup (log.*1.*1) /\
    forall i c old, threads cfg !! i = Some (Returned c old) <-> (i, c, old) ∈ log.

Lemma linearized_step q0 cfg cfg' :
  linearized q0 cfg -> cas_step cfg cfg' -> linearized q0 cfg'.
Proof.
  intros (log & Hr & Hnd & Hlog) Hs.
  assert (forall (ts : list thread) i t c', ts !! i = Some t ->
    (forall d o, t <> Returned d o) -> forall j c old,
    <[i := Loaded c' (quota cfg)]> ts !! j = Some (Returned c old) <->
    ts !! j = Some (Returned c old)) as Hins.
  { intros ts i t c' Hi Ht j c old. destruct (decide (i = j)) as [->|Hne].
    - rewrite list_lookup_insert_eq by (by eapply lookup_lt_Some).
      rewrite Hi. split; [done|]. intros [= ->]. by destruct (Ht c old).
    - by rewrite list_lookup_insert_ne. }
  destruct Hs as [q ts i c Hi|q ts i c Hi|q ts i c old Hi Hne]; simpl in *.
  - exists log. splits; auto. intros j d o. simpl. by rewrite (Hins _ _ _ _ Hi).
  - assert (i ∉ log.*1.*1) as Hnew.
    { intros Hin. apply list_elem_of_fmap in Hin as ([i' c'] & Hi' & Hin). simpl in Hi'. subst i'.
      apply list_elem_of_fmap in Hin as ([[i' c''] o] & Hi' & Hin). simplify_eq/=.
      apply Hlog in Hin. congruence. }
    exists (log ++ [(i, c, q)]). splits.
    + by constructor.
    + rewrite !fmap_app. apply NoDup_app. split_and!; [done| |apply NoDup_singleton].
      intros j Hj ->%list_elem_of_singleton. done.
    + intros j d o. simpl. rewrite elem_of_app, list_elem_of_singleton.
      destruct (decide (i = j)) as [<-|Hne].
      * rewrite list_lookup_insert_eq by (by eapply lookup_lt_Some).
        split; [intros [= <- <-]; by right|]. intros [Hin|[= -> ->]]; [|done].
        exfalso. apply Hnew. apply list_elem_of_fmap. exists (i, d). split; [done|].
        apply list_elem_of_fmap. by exists (i, d, o).
      * rewrite list_lookup_insert_ne by done. rewrite Hlog. split; [by left|].
        intros [|[= -> ->]]; done.
  - exists log. splits; auto. intros j d o. simpl. by rewrite (Hins _ _ _ _ Hi).
Qed.

Lemma linearized_init q ts :
  (forall t, t ∈ ts -> exists c, t = Calling c) -> linearized q (mkConfig q ts).
Proof.
  intros Hts. exists []. splits; [constructor|constructor|]. intros i c old. split.
  - intros Hi. apply list_elem_of_lookup_2 in Hi. apply Hts in Hi as [? [=]].
  - by intros Hin%elem_of_nil.
Qed.

(** ** What a quota grants *)

(** A sequence of atomic acquisitions: the tokens returned, and the quota left. *)
Fixpoint acquire_all (sizes : list Z) (q : Z) : list Z * Z :=
  match sizes with
  | [] => ([], q)
  | n :: r => let '(ts, q') := acquire_all r (acquired n q) in (q :: ts, q')
  end.

(** The sizes of the acquisitions that were granted (token above zero). *)
Definition granted (sizes tokens : list Z) : list Z :=
  fst <$> filter (fun '(_, t) => 0 < t) (zip sizes tokens).

Lemma acquire_all_exhausted sizes q :
  q <= 0 -> acquire_all sizes q = ((fun i => q - Z.of_nat i) <$> seq 0 (length sizes), q - Z.of_nat (length sizes)).
Proof.
  revert q. induction sizes as [|n r IH]; intros q Hq; simpl; [f_equal; lia|].
  unfold acquired. replace (0 <? q) with false by lia. rewrite IH by lia. f_equal.
  - csimpl. f_equal; [lia|]. rewrite <- fmap_S_seq, <- list_fmap_compose.
    apply list_fmap_ext. intros i x _. simpl. lia.
  - lia.
Qed.

Lemma granted_none sizes tokens :
  Forall (fun t => t <= 0) tokens -> granted sizes tokens = [].
Proof.
  unfold granted. intros H. revert sizes. induction H as [|t ts Ht _ IH]; intros sizes.
  - by destruct sizes.
  - destruct sizes as [|n r]; [done|]. simpl. rewrite filter_cons, decide_False by lia. apply IH.
Qed.

Lemma granted_prefix sizes q :
  Forall (fun n => 0 <= n) sizes -> 0 < q ->
  exists k, granted sizes (acquire_all sizes q).1 = take k sizes /\
    foldr Z.add 0 (removelast (take k sizes)) < q.
Proof.
  intros Hs. revert q. induction Hs as [|n r Hn Hr IH]; intros q Hq; [by exists 0%nat|].
  simpl. unfold acquired. replace (0 <? q) with true by lia.
  destruct (acquire_all r (q - n)) as [ts q'] eqn:E. simpl.
  unfold granted. simpl. rewrite filter_cons, decide_True by lia. csimpl.
  destruct (decide (0 < q - n)) as [Hp|Hp].
  - destruct (IH (q - n) Hp) as (k & Hk & Hlt). rewrite E in Hk. simpl in Hk.
    exists (S k). unfold granted in Hk. rewrite Hk. split; [done|]. simpl.
    destruct (take k r) as [|m l]; [simpl; lia|].
    change (removelast (n :: m :: l)) with (n :: removelast (m :: l)). simpl in *. lia.
  - exists 1%nat. simpl. split; [|lia]. f_equal.
    rewrite acquire_all_exhausted in E by lia. injection E as <- _.
    change (granted r ((fun i => q - n - Z.of_nat i) <$> seq 0 (length r)) = []).
    apply granted_none. apply Forall_fmap, Forall_forall. intros i _. simpl. lia.
Qed.

(** ** Properties *)



(** A quota bounds what it grants.  Acquiring non-negative sizes one after the other
    from a quota [q] grants a prefix of them, whose sizes but the last stay below [q] in
    total; every later call is refused, and the tokens of the refused calls decrease by one
    from the quota the last grant left, so a smaller token was refused later. *)
Theorem quota_bounds_grants (sizes : list Z) (q : Z) :
  Forall (fun n => 0 <= n) sizes ->
  (0 < q -> exists k, granted sizes (acquire_all sizes q).1 = take k sizes /\
     foldr Z.add 0 (removelast (take k sizes)) < q) /\
  (q <= 0 -> acquire_all sizes q =
     ((fun i => q - Z.of_nat i) <$> seq 0 (length sizes), q - Z.of_nat (length sizes))) /\
  (0 < q -> forall extra, q <= extra ->
     Forall (fun t => t <= 0) (acquire_all sizes (acquired extra q)).1).
Proof.
  intros Hs. splits.
  - intros Hq. by apply granted_prefix.
  - apply acquire_all_exhausted.
  - intros Hq extra He. unfold acquired. replace (0 <? q) with true by lia.
    rewrite acquire_all_exhausted by lia. simpl.
    apply Forall_fmap, Forall_forall. intros i _. simpl. lia.
Qed.

Lemma quota_bounds_grants_witness :
  acquire_all [4; 7; 5; 5] 10 = ([10; 6; -1; -2], -3) /\
  exists k, granted [4; 7; 5; 5] [10; 6; -1; -2] = take k [4; 7; 5; 5].
Proof.
  split; [reflexivity|].
  destruct (quota_bounds_grants [4; 7; 5; 5] 10) as (H & _).
  - repeat constructor; lia.
  - destruct (H ltac:(lia)) as (k & Hk & _). exists k. exact Hk.
Defined.

End FlowController.
