(* ===== verification/Framing.v ===== *)
(** * Message framing ([src/message_stream/message_header.h], [message_stream.cpp])

    The receive side of [MessageStream]: [split_and_process_message] cuts the bytes that
    arrive in the transfer buffer into messages, without copying: a message is a
    [ReadBuffer] whose handles point into the (reference-counted) transfer buffers.  The
    reference is a parser that is fed one byte at a time. *)

From S2P Require Import Prelude TranBuf BufRead.
Import TranBufPool.

Module Framing.

(** ** The header: 24 bytes, little endian *)

Definition MESSAGE_HEAD_MAGIC : Z := 322122.
Definition header_size : nat := 24.

Record MessageHeader := mkHeader {
  magic_str_value : Z; meta_size : Z; data_size : Z; message_size : Z;
}.

(** The fields of the struct, read from its 24 bytes. *)
Definition decode (bytes : list Z) : MessageHeader :=
  mkHeader (le_value (take 4 bytes))
    (i32 (le_value (take 4 (drop 4 bytes))))
    (i64 (le_value (take 8 (drop 8 bytes))))
    (i64 (le_value (take 8 (drop 16 bytes)))).

#[global] Arguments decode : simpl never.

Definition encode (h : MessageHeader) : list Z :=
  le_bytes 4 (magic_str_value h) ++ le_bytes 4 (meta_size h)
    ++ le_bytes 8 (data_size h) ++ le_bytes 8 (message_size h).

Definition CheckMagicString (h : MessageHeader) : bool :=
  magic_str_value h =? MESSAGE_HEAD_MAGIC.

(** ** The receiving environment *)

Record rx := mkRx {
  receiving_message : ReadBuffer.state;
  received_message_size : Z;
  receiving_header : list Z;          (* the bytes of [_receiving_header] *)
  received_header_size : Z;
  header_identified : bool;
  tran_buf : nat;
}.

Record ReceivedItem := mkItem {
  item_message : ReadBuffer.state; item_meta_size : Z; item_data_size : Z;
}.

Definition reset_receiving_env (s : rx) : rx :=
  mkRx ReadBuffer.init 0 (receiving_header s) 0 false (tran_buf s).

(** [memcpy] of header bytes, and the result 1, 0 or -1 of the identification. *)
Definition identify_message_header (data size : Z) (s : rx) (h : heap) :
    option (Z * Z * rx) :=
  let copy_size := Z.min size (Z.of_nat header_size - received_header_size s) in
  bytes ← load (tran_buf s) data copy_size h;
  let header := overwrite (Z.to_nat (received_header_size s)) bytes (receiving_header s) in
  let n := received_header_size s + copy_size in
  let s' := mkRx (receiving_message s) (received_message_size s) header n
              (header_identified s) (tran_buf s) in
  Some (if n <? Z.of_nat header_size then 0
        else if CheckMagicString (decode header) then 1 else -1,
        copy_size, s').

Definition set_identified (s : rx) : rx :=
  mkRx (receiving_message s) (received_message_size s) (receiving_header s)
    (received_header_size s) true (tran_buf s).

(** One iteration of the loop: it stops with the result of the function, or goes on. *)
Inductive iteration :=
  | Stop (ok : bool) (s : rx) (h : heap)
  | Continue (data size : Z) (item : ReceivedItem) (s : rx) (h : heap)
  | Undefined.

Definition append_received (data size : Z) (s : rx) (h : heap) : option (rx * heap) :=
  '(rb, h') ← ReadBuffer.Append (mkHandle (tran_buf s) (i32 size) (i32 data))
                 (receiving_message s) h;
  Some (mkRx rb (received_message_size s) (receiving_header s) (received_header_size s)
          (header_identified s) (tran_buf s), h').

Definition add_received (n : Z) (s : rx) : rx :=
  mkRx (receiving_message s) (received_message_size s + n) (receiving_header s)
    (received_header_size s) (header_identified s) (tran_buf s).

(** The part of an iteration after the header: append to the message, or complete it. *)
Definition process_body (data size : Z) (s : rx) (h : heap) : iteration :=
  let hdr := decode (receiving_header s) in
  if received_message_size s + size <? message_size hdr then
    match append_received data size s h with
    | Some (s', h') => Stop true (add_received size s') h'
    | None => Undefined
    end
  else
    let consume_size := message_size hdr - received_message_size s in
    match (if 0 <? consume_size then append_received data consume_size s h else Some (s, h)) with
    | Some (s', h') =>
        Continue (data + consume_size) (size - consume_size)
          (mkItem (receiving_message s') (meta_size hdr) (data_size hdr))
          (reset_receiving_env s') h'
    | None => Undefined
    end.

Definition split_once (data size : Z) (s : rx) (h : heap) : iteration :=
  if header_identified s then process_body data size s h
  else
    match identify_message_header data size s h with
    | Some (result, consumed, s') =>
        if 0 <? result then
          let s'' := set_identified s' in
          if (consumed =? size) && (0 <? message_size (decode (receiving_header s'')))
          then Stop true s'' h
          else process_body (data + consumed) (size - consumed) s'' h
        else Stop (result =? 0) s' h
    | None => Undefined
    end.

(** [split_and_process_message].  [OutOfFuel] is a loop that is still running. *)
Inductive outcome :=
  | Done (ok : bool) (s : rx) (items : list ReceivedItem) (h : heap)
  | OutOfFuel
  | UndefinedBehaviour.

Fixpoint split_and_process_message (fuel : nat) (data size : Z) (s : rx)
    (received : list ReceivedItem) (h : heap) : outcome :=
  match fuel with
  | O => OutOfFuel
  | S n =>
      if 0 <? size then
        match split_once data size s h with
        | Stop ok s' h' => Done ok s' received h'
        | Continue data' size' item s' h' =>
            split_and_process_message n data' size' s' (received ++ [item]) h'
        | Undefined => UndefinedBehaviour
        end
      else Done true s received h
  end.

(** ** The reference: a parser fed byte by byte *)

Inductive pstate :=
  | PHeader (acc : list Z)                        (* fewer than 24 bytes of a header *)
  | PBody (hdr : MessageHeader) (acc : list Z)    (* fewer bytes than [message_size] *)
  | PBroken                                       (* a wrong magic number *)
  | PNegative.                                    (* a negative message size *)

Record message := mkMessage { m_meta_size : Z; m_data_size : Z; m_bytes : list Z }.

Definition p_byte (p : pstate) (b : Z) : pstate * list message :=
  match p with
  | PHeader acc =>
      let acc' := acc ++ [b] in
      if (length acc' <? header_size)%nat then (PHeader acc', [])
      else
        let hdr := decode acc' in
        if negb (CheckMagicString hdr) then (PBroken, [])
        else if message_size hdr <? 0 then (PNegative, [])
        else if message_size hdr =? 0 then
          (PHeader [], [mkMessage (meta_size hdr) (data_size hdr) []])
        else (PBody hdr [], [])
  | PBody hdr acc =>
      let acc' := acc ++ [b] in
      if Z.of_nat (length acc') <? message_size hdr then (PBody hdr acc', [])
      else (PHeader [], [mkMessage (meta_size hdr) (data_size hdr) acc'])
  | PBroken => (PBroken, [])
  | PNegative => (PNegative, [])
  end.

Fixpoint feed (p : pstate) (bytes : list Z) : pstate * list message :=
  match bytes with
  | [] => (p, [])
  | b :: r => let '(p1, m1) := p_byte p b in
              let '(p2, m2) := feed p1 r in (p2, m1 ++ m2)
  end.

Lemma feed_app p a b :
  feed p (a ++ b) = ((feed (feed p a).1 b).1, (feed p a).2 ++ (feed (feed p a).1 b).2).
Proof.
  revert p. induction a as [|x r IH]; intros p; simpl; [by destruct (feed p b)|].
  destruct (p_byte p x) as [p1 m1]. rewrite IH. destruct (feed p1 r) as [p2 m2]. simpl.
  by rewrite app_assoc.
Qed.

Lemma feed_header acc bytes :
  (length acc + length bytes < header_size)%nat ->
  feed (PHeader acc) bytes = (PHeader (acc ++ bytes), []).
Proof.
  revert acc. induction bytes as [|b r IH]; intros acc H; simpl; [by rewrite app_nil_r|].
  simpl in H. rewrite length_app. simpl.
  destruct (_ <? _)%nat eqn:E; [|unfold header_size in *; lia].
  rewrite IH by (rewrite length_app; simpl; lia). by rewrite <- app_assoc.
Qed.

Lemma feed_body hdr acc bytes :
  Z.of_nat (length acc + length bytes) < message_size hdr ->
  feed (PBody hdr acc) bytes = (PBody hdr (acc ++ bytes), []).
Proof.
  revert acc. induction bytes as [|b r IH]; intros acc H; simpl; [by rewrite app_nil_r|].
  simpl in H. rewrite length_app. simpl.
  replace (_ <? _) with true by lia.
  rewrite IH by (rewrite length_app; simpl; lia). by rewrite <- app_assoc.
Qed.

Lemma feed_body_end hdr acc bytes :
  bytes <> [] -> Z.of_nat (length acc + length bytes) = message_size hdr ->
  feed (PBody hdr acc) bytes =
  (PHeader [], [mkMessage (meta_size hdr) (data_size hdr) (acc ++ bytes)]).
Proof.
  intros Hne H. destruct (exists_last Hne) as (l & b & ->).
  rewrite length_app in H. simpl in H. rewrite feed_app, feed_body by lia. simpl.
  rewrite !length_app. simpl. replace (_ <? _) with false by lia.
  by rewrite <- app_assoc.
Qed.

(** What the last byte of a header decides. *)
Definition after_header (acc : list Z) : pstate * list message :=
  let hdr := decode acc in
  if negb (CheckMagicString hdr) then (PBroken, [])
  else if message_size hdr <? 0 then (PNegative, [])
  else if message_size hdr =? 0 then
    (PHeader [], [mkMessage (meta_size hdr) (data_size hdr) []])
  else (PBody hdr [], []).

Lemma feed_header_end acc bytes :
  bytes <> [] -> (length acc + length bytes = header_size)%nat ->
  feed (PHeader acc) bytes = after_header (acc ++ bytes).
Proof.
  intros Hne H. destruct (exists_last Hne) as (l & b & ->).
  rewrite length_app in H. simpl in H. rewrite feed_app, feed_header by lia.
  simpl. rewrite !length_app. simpl.
  destruct (_ <? _)%nat eqn:E; [unfold header_size in *; lia|].
  rewrite <- app_assoc. unfold after_header.
  destruct (negb _); [done|]. destruct (_ <? 0); [done|]. by destruct (_ =? 0).
Qed.

Lemma feed_stuck bytes : feed PBroken bytes = (PBroken, []) /\ feed PNegative bytes = (PNegative, []).
Proof. induction bytes as [|b r [IH1 IH2]]; simpl; [done|]. by rewrite IH1, IH2. Qed.

(** ** Headers survive encoding *)

Definition good_header (h : MessageHeader) : Prop :=
  in_u 32 (magic_str_value h) /\ in_s 32 (meta_size h) /\
  in_s 64 (data_size h) /\ in_s 64 (message_size h).

Lemma length_encode h : length (encode h) = header_size.
Proof. unfold encode. by rewrite !length_app, !length_le_bytes. Qed.

Lemma decode_encode h : good_header h -> decode (encode h) = h.
Proof.
  intros (H1 & H2 & H3 & H4). unfold decode, encode.
  rewrite (take_app_length' (le_bytes 4 (magic_str_value h))) by (by rewrite length_le_bytes).
  rewrite (drop_app_length' (le_bytes 4 (magic_str_value h))) by (by rewrite length_le_bytes).
  rewrite (take_app_length' (le_bytes 4 (meta_size h))) by (by rewrite length_le_bytes).
  rewrite (app_assoc (le_bytes 4 (magic_str_value h))).
  rewrite (drop_app_length' (le_bytes 4 (magic_str_value h) ++ le_bytes 4 (meta_size h)))
    by (by rewrite length_app, !length_le_bytes).
  rewrite (take_app_length' (le_bytes 8 (data_size h))) by (by rewrite length_le_bytes).
  rewrite (app_assoc (_ ++ _) (le_bytes 8 (data_size h))).
  rewrite (drop_app_length' ((_ ++ _) ++ _)) by (by rewrite !length_app, !length_le_bytes).
  rewrite (take_ge (le_bytes 8 (message_size h))) by (by rewrite length_le_bytes).
  rewrite !le_bytes_value.
  change (256 ^ Z.of_nat 4) with (2 ^ 32). change (256 ^ Z.of_nat 8) with (2 ^ 64).
  rewrite !wraps_mod by (done || lia). unfold in_u in H1. rewrite Z.mod_small by lia.
  by destruct h.
Qed.

(** ** Who holds the transfer buffers

    [acct ext h t bound hs]: in the heap [h], every block is referenced by the handles [hs],
    once more when it is the current transfer buffer [t], and [ext] times from elsewhere;
    the handles into [t] stay below the offset [bound]. *)

Definition cnt (p : nat) (hs : list BufferHandle) : Z :=
  Z.of_nat (length (filter (fun x => h_data x = p) hs)).

Record acct (ext : nat -> Z) (h : heap) (t : nat) (bound : Z) (hs : list BufferHandle) : Prop := {
  acct_refs : forall p b, blocks h !! p = Some b ->
    good_block b /\ (p < next_addr h)%nat /\
    b_ref b = cnt p hs + (if decide (p = t) then 1 else 0) + ext p;
  acct_live : is_Some (blocks h !! t);
  acct_ext : (forall p, 0 <= ext p) /\ (forall p, (next_addr h <= p)%nat -> ext p = 0);
  acct_bound : forall x, x ∈ hs -> (h_data x < next_addr h)%nat /\
    (h_data x = t -> h_aux x + h_size x <= bound);
}.

Definition same_bytes (h h' : heap) : Prop :=
  forall p, b_data <$> blocks h !! p = b_data <$> blocks h' !! p.

Lemma same_bytes_trans h1 h2 h3 : same_bytes h1 h2 -> same_bytes h2 h3 -> same_bytes h1 h3.
Proof. intros H1 H2 p. by rewrite H1, H2. Qed.

Lemma load_same p off len h h' : same_bytes h h' -> load p off len h' = load p off len h.
Proof.
  intros Hs. specialize (Hs p). unfold load.
  destruct (blocks h !! p) as [b|], (blocks h' !! p) as [b'|]; simpl in *; try done.
  by injection Hs as ->.
Qed.

Lemma cnt_app p l1 l2 : cnt p (l1 ++ l2) = cnt p l1 + cnt p l2.
Proof. unfold cnt. rewrite filter_app, length_app. lia. Qed.

Lemma cnt_one p x : cnt p [x] = if decide (h_data x = p) then 1 else 0.
Proof. unfold cnt. rewrite filter_cons. by case_decide. Qed.

Lemma cnt_fresh n hs : (forall x, x ∈ hs -> (h_data x < n)%nat) -> cnt n hs = 0.
Proof.
  unfold cnt. induction hs as [|x r IH]; intros H; [done|].
  rewrite filter_cons, decide_False.
  - apply IH. intros y Hy. apply H. by right.
  - specialize (H x ltac:(by left)). lia.
Qed.

Lemma cnt_nonneg p l : 0 <= cnt p l.
Proof. unfold cnt. lia. Qed.

(** A fresh reader over the bytes [c]. *)
Definition holds (h : heap) (rb : ReadBuffer.state) (c : list Z) : Prop :=
  exists chunks, ReadBuffer.good rb h chunks /\ concat chunks = c /\
    ReadBuffer.read_bytes rb = 0 /\ ReadBuffer.last_bytes rb = 0 /\ ReadBuffer.cur_pos rb = 0 /\
    ReadBuffer.cur_it rb = 0%nat.

Lemma good_same h h' rb chunks :
  same_bytes h h' -> ReadBuffer.good rb h chunks -> ReadBuffer.good rb h' chunks.
Proof.
  intros Hs [HF Hg]. split; [|done]. eapply Forall2_impl; [exact HF|].
  intros x c [Hl Hne]. split; [|done]. by rewrite (load_same _ _ _ h).
Qed.

Lemma holds_same h h' rb c : same_bytes h h' -> holds h rb c -> holds h' rb c.
Proof. intros Hs (chunks & Hg & H'). exists chunks. split; [by eapply good_same|done]. Qed.

Lemma holds_init h : holds h ReadBuffer.init [].
Proof.
  exists []. splits; try done. unfold ReadBuffer.good. simpl. splits; auto; lia.
Qed.

Lemma holds_ToString h rb c : holds h rb c -> ReadBuffer.ToString rb h = Some c.
Proof.
  intros (chunks & [HF _] & <- & _). unfold ReadBuffer.ToString.
  induction HF as [|x d l cs [Hl _] HF IH]; simpl; [done|]. by rewrite Hl, IH.
Qed.

(** Appending a handle to a fresh reader of a live block. *)
Lemma reader_Append_spec ext h t bound hs rb c off len bytes :
  acct ext h t bound hs -> holds h rb c ->
  load t off len h = Some bytes -> 0 < len -> off + len <= bound ->
  exists rb' h', ReadBuffer.Append (mkHandle t len off) rb h = Some (rb', h') /\
    ReadBuffer.buf_list rb' = ReadBuffer.buf_list rb ++ [mkHandle t len off] /\
    same_bytes h h' /\ acct ext h' t bound (hs ++ [mkHandle t len off]) /\ holds h' rb' (c ++ bytes).
Proof.
  intros [] (chunks & Hg & Hc & Hrd & Hlb & Hcp & Hci) Hload Hlen Hb.
  destruct acct_live0 as [b Hbl]. unfold ReadBuffer.Append. simpl.
  rewrite (add_ref_live _ _ _ Hbl). simpl. unfold block_size. simpl. rewrite lookup_insert_eq. simpl.
  eexists _, _. split; [done|].
  assert (same_bytes h (set_blocks (<[t:=mkBlock (b_size b) (b_ref b + 1) (b_data b)]> (blocks h)) h))
    as Hsame.
  { intros p. simpl. destruct (decide (t = p)) as [<-|Hne].
    - by rewrite lookup_insert_eq, Hbl.
    - by rewrite lookup_insert_ne. }
  splits; [done|done| |].
  - constructor; simpl; auto.
    + intros p b' Hp. rewrite cnt_app, cnt_one. simpl. destruct (decide (t = p)) as [<-|Hne].
      * rewrite lookup_insert_eq in Hp. injection Hp as <-. simpl.
        destruct (acct_refs0 t b Hbl) as ([Hg1 Hg2] & Hlt & Hr). rewrite Hr.
        splits; auto; [|rewrite !decide_True by done; lia]. split; simpl; lia.
      * rewrite lookup_insert_ne in Hp by done. destruct (acct_refs0 p b' Hp) as (Hg1 & Hlt & Hr).
        splits; auto. rewrite Hr. lia.
    + rewrite lookup_insert_eq. by eexists.
    + intros x [Hx| ->%list_elem_of_singleton]%elem_of_app; [by auto|]. simpl.
      destruct (acct_refs0 t b Hbl) as (_ & Hlt & _). split; [done|]. by intros _.
  - apply ReadBuffer.load_length_pos in Hload as Hne; [|done].
    apply (good_same _ _ _ _ Hsame) in Hg. destruct Hg as (HF & Ht & Hit & Hpos & _ & _ & _).
    exists (chunks ++ [bytes]). splits; simpl; auto.
    + unfold ReadBuffer.good. simpl. rewrite Hcp, Hlb, Hrd. splits; auto; try lia.
      * apply Forall2_app; [done|]. constructor; [|constructor]. simpl. split; [|done].
        rewrite <- Hload. by apply load_same.
      * rewrite concat_app, length_app, Ht. simpl. rewrite app_nil_r.
        apply ReadBuffer.load_length in Hload. lia.
    + rewrite concat_app. simpl. by rewrite app_nil_r, Hc.
Qed.

(** ** The loop implements the parser *)

Definition rel_body (h : heap) (s : rx) (hdr : MessageHeader) (acc : list Z) : Prop :=
  header_identified s = true /\ decode (receiving_header s) = hdr /\
  length (receiving_header s) = header_size /\
  received_message_size s = Z.of_nat (length acc) /\ holds h (receiving_message s) acc.

Definition rel_header (s : rx) (acc : list Z) : Prop :=
  header_identified s = false /\ received_header_size s = Z.of_nat (length acc) /\
  length (receiving_header s) = header_size /\ take (length acc) (receiving_header s) = acc /\
  (length acc < header_size)%nat /\ received_message_size s = 0 /\
  receiving_message s = ReadBuffer.init.

Definition rel (h : heap) (s : rx) (p : pstate) : Prop :=
  match p with
  | PHeader acc => rel_header s acc
  | PBody hdr acc => rel_body h s hdr acc /\ Z.of_nat (length acc) < message_size hdr
  | _ => False
  end.

Definition item_ok (h : heap) (i : ReceivedItem) (m : message) : Prop :=
  holds h (item_message i) (m_bytes m) /\ item_meta_size i = m_meta_size m /\
  item_data_size i = m_data_size m.

Definition item_handles (items : list ReceivedItem) : list BufferHandle :=
  concat ((fun i => ReadBuffer.buf_list (item_message i)) <$> items).

Lemma item_ok_same h h' i m : same_bytes h h' -> item_ok h i m -> item_ok h' i m.
Proof. intros Hs (Hh & H'). split; [by eapply holds_same|done]. Qed.

Lemma items_ok_same h h' items ms :
  same_bytes h h' -> Forall2 (item_ok h) items ms -> Forall2 (item_ok h') items ms.
Proof. intros Hs HF. eapply Forall2_impl; [exact HF|]. intros i m. by apply item_ok_same. Qed.

Lemma item_handles_app a b : item_handles (a ++ b) = item_handles a ++ item_handles b.
Proof. unfold item_handles. by rewrite fmap_app, concat_app. Qed.

Lemma reset_rel s : length (receiving_header s) = header_size ->
  rel_header (reset_receiving_env s) [].
Proof. intros H. unfold rel_header, header_size in *. simpl. splits; auto. lia. Qed.

Lemma load_sub p off len h bytes k n :
  load p off len h = Some bytes -> 0 <= k -> 0 <= n -> k + n <= len ->
  load p (off + k) n h = Some (take (Z.to_nat n) (drop (Z.to_nat k) bytes)).
Proof.
  unfold load. destruct (blocks h !! p) as [b|]; simpl; [|done].
  intros H Hk Hn Hlen. destruct (_ && _) eqn:E in H; [|done]. injection H as <-.
  replace (_ && _) with true by lia. f_equal.
  rewrite (Z2Nat.inj_add off k) by lia. rewrite <- drop_drop, skipn_firstn_comm, take_take.
  f_equal. lia.
Qed.

(** Appending the next [k] bytes of the buffer to the message in progress. *)
Lemma append_received_spec ext h s hs acc data k bytes :
  acct ext h (tran_buf s) data hs -> holds h (receiving_message s) acc ->
  load (tran_buf s) data k h = Some bytes -> 0 <= data -> 0 < k -> data + k < 2 ^ 31 ->
  exists s' h', append_received data k s h = Some (s', h') /\ same_bytes h h' /\
    ReadBuffer.buf_list (receiving_message s') =
      ReadBuffer.buf_list (receiving_message s) ++ [mkHandle (tran_buf s) k data] /\
    acct ext h' (tran_buf s) (data + k) (hs ++ [mkHandle (tran_buf s) k data]) /\
    holds h' (receiving_message s') (acc ++ bytes) /\
    received_message_size s' = received_message_size s /\
    receiving_header s' = receiving_header s /\
    header_identified s' = header_identified s /\ tran_buf s' = tran_buf s.
Proof.
  intros Ha Hh Hl Hd Hk Hb. unfold append_received.
  rewrite !(wraps_small 32) by (unfold in_s; lia).
  assert (acct ext h (tran_buf s) (data + k) hs) as Ha'.
  { destruct Ha. constructor; auto. intros x Hx. destruct (acct_bound0 x Hx) as [? Hx2].
    split; [done|]. intros Ht. specialize (Hx2 Ht). lia. }
  destruct (reader_Append_spec ext h (tran_buf s) (data + k) hs (receiving_message s) acc data k bytes)
    as (rb & h' & -> & Hbl & Hs & Ha2 & Hh2); auto; [lia|].
  simpl. eexists _, h'. split; [done|]. simpl. splits; auto.
Qed.

Lemma acct_mono ext h t b b' hs : acct ext h t b hs -> b <= b' -> acct ext h t b' hs.
Proof.
  intros [] Hle. constructor; auto. intros x Hx. destruct (acct_bound0 x Hx) as [? Hx2].
  split; [done|]. intros Ht. specialize (Hx2 Ht). lia.
Qed.

(** The state of a body after some of its bytes, [bytes] being the rest of the buffer. *)
Lemma process_body_spec ext h s hs hdr acc data size bytes :
  acct ext h (tran_buf s) data (hs ++ ReadBuffer.buf_list (receiving_message s)) ->
  rel_body h s hdr acc -> load (tran_buf s) data size h = Some bytes ->
  0 <= data -> data + size < 2 ^ 31 -> Z.of_nat (length acc) <= message_size hdr ->
  (0 < size \/ message_size hdr = 0) ->
  match process_body data size s h with
  | Stop ok s' h' =>
      ok = true /\ same_bytes h h' /\ tran_buf s' = tran_buf s /\
      rel h' s' (PBody hdr (acc ++ bytes)) /\
      acct ext h' (tran_buf s) (data + size) (hs ++ ReadBuffer.buf_list (receiving_message s')) /\
      Z.of_nat (length acc) + size < message_size hdr
  | Continue data' size' i s' h' =>
      let k := message_size hdr - Z.of_nat (length acc) in
      data' = data + k /\ size' = size - k /\ 0 <= k <= size /\ same_bytes h h' /\
      tran_buf s' = tran_buf s /\ rel h' s' (PHeader []) /\
      acct ext h' (tran_buf s) (data + k) ((hs ++ item_handles [i]) ++ ReadBuffer.buf_list (receiving_message s')) /\
      item_ok h' i (mkMessage (meta_size hdr) (data_size hdr) (acc ++ take (Z.to_nat k) bytes))
  | Undefined => False
  end.
Proof.
  intros Ha (Hid & Hdec & Hlh & Hsz & Hh) Hload Hd Hb Hacc Hsize.
  pose proof (ReadBuffer.load_length _ _ _ _ _ Hload) as Hlen.
  unfold process_body. rewrite Hdec, Hsz.
  destruct (_ <? message_size hdr) eqn:E.
  - destruct (append_received_spec ext h s _ acc data size bytes Ha Hh Hload)
      as (s' & h' & -> & Hs & Hbl & Ha' & Hh' & Hsz' & Hrh & Hid' & Ht); [lia..|].
    splits; auto; [| |lia].
    + unfold rel, rel_body. simpl. rewrite Hid', Hrh, Hsz', Hsz, Hid, length_app.
      splits; auto; lia.
    + simpl. by rewrite Hbl, app_assoc.
  - set (k := message_size hdr - Z.of_nat (length acc)).
    assert (load (tran_buf s) data k h = Some (take (Z.to_nat k) bytes)) as Hload2.
    { pose proof (load_sub _ _ _ _ _ 0 k Hload) as H. rewrite Z.add_0_r in H. apply H; lia. }
    destruct (0 <? k) eqn:Ek.
    + destruct (append_received_spec ext h s _ acc data k (take (Z.to_nat k) bytes) Ha Hh)
        as (s' & h' & -> & Hs & Hbl & Ha' & Hh' & Hsz' & Hrh & Hid' & Ht); [done|lia..|].
      cbv zeta. splits; auto; try lia.
      * apply reset_rel. by rewrite Hrh.
      * unfold item_handles. simpl. rewrite !app_nil_r, Hbl. by rewrite app_assoc.
      * by splits.
    + cbv zeta. splits; auto; try lia.
      * by intros p.
      * by apply reset_rel.
      * unfold item_handles. simpl. rewrite !app_nil_r. eapply acct_mono; [exact Ha|lia].
      * unfold item_ok. simpl. replace (Z.to_nat k) with 0%nat by lia.
        simpl. rewrite app_nil_r. by splits.
Qed.

(** The header phase: the bytes copied, and what they decide. *)
Lemma identify_spec h s acc data size bytes :
  rel_header s acc -> load (tran_buf s) data size h = Some bytes -> 0 < size ->
  let k := Z.min size (Z.of_nat header_size - Z.of_nat (length acc)) in
  let acc' := acc ++ take (Z.to_nat k) bytes in
  exists s', identify_message_header data size s h =
    Some (if k <? Z.of_nat header_size - Z.of_nat (length acc) then 0
          else if CheckMagicString (decode acc') then 1 else -1, k, s') /\
    0 < k <= size /\ tran_buf s' = tran_buf s /\ receiving_message s' = ReadBuffer.init /\
    received_message_size s' = 0 /\ header_identified s' = false /\
    length (receiving_header s') = header_size /\
    received_header_size s' = Z.of_nat (length acc') /\
    take (length acc') (receiving_header s') = acc'.
Proof.
  intros (Hid & Hn & Hlh & Htk & Hlt & Hms & Hrm) Hload Hs k acc'.
  pose proof (ReadBuffer.load_length _ _ _ _ _ Hload) as Hlen.
  unfold identify_message_header. rewrite Hn. fold k.
  assert (0 < k <= size) as Hk by lia.
  pose proof (load_sub _ _ _ _ _ 0 k Hload ltac:(lia) ltac:(lia) ltac:(lia)) as Hl.
  rewrite Z.add_0_r, drop_0 in Hl. rewrite Hl. simpl. rewrite Nat2Z.id.
  set (bs := take (Z.to_nat k) bytes) in *.
  assert (length bs = Z.to_nat k) as Hbs by (unfold bs; rewrite length_take; lia).
  assert (take (length acc') (overwrite (length acc) bs (receiving_header s)) = acc') as Htake.
  { unfold overwrite, acc'. rewrite Htk, app_assoc. rewrite take_app_length'; [done|].
    by rewrite !length_app. }
  eexists. split.
  - f_equal. f_equal. f_equal.
    assert ((Z.of_nat (length acc) + k <? Z.of_nat header_size) =
            (k <? Z.of_nat header_size - Z.of_nat (length acc))) as -> by lia.
    destruct (k <? _) eqn:E2; [done|].
    assert (overwrite (length acc) bs (receiving_header s) = acc') as ->; [|done].
    rewrite <- (take_ge (overwrite _ _ _) (length acc')); [done|].
    rewrite length_overwrite; unfold acc'; rewrite ?length_app; lia.
  - simpl. splits; auto; try lia.
    + rewrite length_overwrite; lia.
    + unfold acc'. rewrite length_app. lia.
Qed.

Definition handles (s : rx) : list BufferHandle := ReadBuffer.buf_list (receiving_message s).

(** One iteration: it stops after the last byte, or completes one message. *)
Lemma split_once_spec ext h s p hs data size bytes :
  acct ext h (tran_buf s) data (hs ++ handles s) -> rel h s p ->
  load (tran_buf s) data size h = Some bytes -> 0 < size -> 0 <= data -> data + size < 2 ^ 31 ->
  (feed p bytes).1 <> PNegative ->
  match split_once data size s h with
  | Stop ok s' h' =>
      same_bytes h h' /\ tran_buf s' = tran_buf s /\ (feed p bytes).2 = [] /\
      acct ext h' (tran_buf s) (data + size) (hs ++ handles s') /\
      if ok then rel h' s' (feed p bytes).1 else (feed p bytes).1 = PBroken
  | Continue data' size' i s' h' =>
      exists b1 b2 m, bytes = b1 ++ b2 /\ b1 <> [] /\ data' = data + Z.of_nat (length b1) /\
        size' = size - Z.of_nat (length b1) /\ feed p b1 = (PHeader [], [m]) /\
        same_bytes h h' /\ tran_buf s' = tran_buf s /\ rel h' s' (PHeader []) /\
        item_ok h' i m /\
        acct ext h' (tran_buf s) data' ((hs ++ item_handles [i]) ++ handles s')
  | Undefined => False
  end.
Proof.
  intros Ha Hrel Hload Hs Hd Hb Hneg.
  pose proof (ReadBuffer.load_length _ _ _ _ _ Hload) as Hlen.
  unfold split_once. destruct p as [acc|hdr acc| |]; try done; simpl in Hrel.
  - pose proof Hrel as (Hid & _ & _ & _ & Hlt & _ & Hrm).
    rewrite Hid. destruct (identify_spec h s acc data size bytes Hrel Hload Hs)
      as (s' & -> & Hk & Ht & Hrm' & Hms & Hid' & Hlh & Hn & Htk).
    set (k := Z.min size _) in *. set (hb := take (Z.to_nat k) bytes) in *.
    assert (handles s' = handles s) as Hhs by (unfold handles; by rewrite Hrm, Hrm').
    assert (length hb = Z.to_nat k) as Hhb by (unfold hb; rewrite length_take; lia).
    assert (bytes = hb ++ drop (Z.to_nat k) bytes) as Hsplit by (unfold hb; by rewrite take_drop).
    assert (hb <> []) as Hhbne by (intros E; rewrite E in Hhb; simpl in Hhb; lia).
    destruct (k <? _) eqn:Ek.
    + simpl. rewrite Hsplit, (drop_ge bytes), app_nil_r by lia.
      rewrite feed_header by lia. simpl.
      splits; auto; [by intros q|rewrite Hhs; eapply acct_mono; [exact Ha|lia]|].
      unfold rel_header. rewrite length_app in *. splits; auto; try lia.
    + assert (length acc + length hb = header_size)%nat as Hfull by lia.
      pose proof (feed_header_end acc hb Hhbne Hfull) as Hend. unfold after_header in Hend.
      remember (decode (acc ++ hb)) as hdr eqn:Hhdr.
      assert (length (acc ++ hb) = header_size) as Hal by (by rewrite length_app).
      assert (receiving_header s' = acc ++ hb) as Hrh.
      { rewrite <- (take_ge (receiving_header s') (length (acc ++ hb))); [done|lia]. }
      destruct (CheckMagicString hdr) eqn:Em; cbn [negb] in Hend; cbv zeta;
        [change (0 <? 1) with true|change (0 <? -1) with false]; cbv iota.
      2: { rewrite Hsplit, feed_app, Hend. simpl. destruct (feed_stuck (drop (Z.to_nat k) bytes)) as [-> _].
           splits; auto; [by intros q|rewrite Hhs; eapply acct_mono; [exact Ha|lia]]. }
      change (receiving_header (set_identified s')) with (receiving_header s').
      rewrite Hrh, <- Hhdr.
      destruct (message_size hdr <? 0) eqn:Eneg.
      { exfalso. apply Hneg. rewrite Hsplit, feed_app, Hend. simpl.
        by destruct (feed_stuck (drop (Z.to_nat k) bytes)) as [_ ->]. }
      assert (rel_body h (set_identified s') hdr []) as Hbody.
      { unfold rel_body. simpl. rewrite Hrm', Hms, Hrh. splits; auto. apply holds_init. }
      destruct ((k =? size) && (0 <? message_size hdr)) eqn:Estop.
      * rewrite Hsplit, (drop_ge bytes), app_nil_r by lia. rewrite Hend.
        replace (message_size hdr =? 0) with false by lia. simpl.
        splits; auto; [by intros q| |lia].
        unfold handles in *. simpl. rewrite Hhs. eapply acct_mono; [exact Ha|lia].
      * assert (load (tran_buf (set_identified s')) (data + k) (size - k) h =
          Some (drop (Z.to_nat k) bytes)) as Hload2.
        { simpl. rewrite Ht. rewrite (load_sub _ _ _ _ _ k (size - k) Hload) by lia.
          f_equal. apply take_ge. rewrite length_drop. lia. }
        assert (acct ext h (tran_buf (set_identified s')) (data + k)
          (hs ++ handles (set_identified s'))) as Ha2.
        { simpl. rewrite Ht. unfold handles in *. simpl. rewrite Hhs.
          eapply acct_mono; [exact Ha|lia]. }
        pose proof (process_body_spec ext h (set_identified s') hs hdr [] (data + k) (size - k)
          (drop (Z.to_nat k) bytes) Ha2 Hbody Hload2) as HP.
        simpl length in HP. specialize (HP ltac:(lia) ltac:(lia) ltac:(lia) ltac:(lia)).
        destruct (process_body _ _ _ _) as [ok s2 h2|data' size' i s2 h2|]; [| |done].
        -- destruct HP as (-> & Hsb & Ht2 & Hrel2 & Ha3 & Hlt2). simpl in Ht2.
           rewrite Hsplit, feed_app, Hend.
           replace (message_size hdr =? 0) with false by lia. simpl fst. simpl snd.
           rewrite feed_body by (simpl; rewrite length_drop; lia). simpl.
           splits; auto; try apply Hrel2; [congruence|].
           rewrite <- Ht. eapply acct_mono; [exact Ha3|lia].
        -- destruct HP as (-> & -> & Hkk & Hsb & Ht2 & Hrel2 & Ha3 & Hi). simpl in Ht2.
           set (n := message_size hdr - Z.of_nat 0) in *.
           exists (hb ++ take (Z.to_nat n) (drop (Z.to_nat k) bytes)),
             (drop (Z.to_nat n) (drop (Z.to_nat k) bytes)),
             (mkMessage (meta_size hdr) (data_size hdr) (take (Z.to_nat n) (drop (Z.to_nat k) bytes))).
           assert (length (take (Z.to_nat n) (drop (Z.to_nat k) bytes)) = Z.to_nat n) as Hln
             by (rewrite length_take, length_drop; lia).
           assert (Z.of_nat (length (hb ++ take (Z.to_nat n) (drop (Z.to_nat k) bytes))) = k + n)
             as Hlb by (rewrite length_app; lia).
           splits; auto; try lia; try congruence.
           ++ by rewrite <- app_assoc, take_drop, <- Hsplit.
           ++ by destruct hb.
           ++ rewrite feed_app, Hend. destruct (message_size hdr =? 0) eqn:E0.
              ** replace (Z.to_nat n) with 0%nat by lia. done.
              ** simpl fst. simpl snd. rewrite feed_body_end; [done| |].
                 --- intros E. rewrite E in Hln. simpl in Hln. lia.
                 --- simpl. lia.
           ++ rewrite <- Ht. exact Ha3.
  - destruct Hrel as [Hbody Hlt]. pose proof Hbody as (Hid & _). rewrite Hid.
    pose proof (process_body_spec ext h s hs hdr acc data size bytes Ha Hbody Hload
      ltac:(lia) ltac:(lia) ltac:(lia) ltac:(lia)) as HP.
    destruct (process_body _ _ _ _) as [ok s2 h2|data' size' i s2 h2|]; [| |done].
    + destruct HP as (-> & Hsb & Ht2 & Hrel2 & Ha3 & Hlt2).
      rewrite feed_body by lia. simpl. splits; auto; apply Hrel2.
    + destruct HP as (-> & -> & Hkk & Hsb & Ht2 & Hrel2 & Ha3 & Hi).
      set (n := message_size hdr - Z.of_nat (length acc)) in *.
      exists (take (Z.to_nat n) bytes), (drop (Z.to_nat n) bytes),
        (mkMessage (meta_size hdr) (data_size hdr) (acc ++ take (Z.to_nat n) bytes)).
      assert (length (take (Z.to_nat n) bytes) = Z.to_nat n) as Hln
        by (rewrite length_take; lia).
      assert (take (Z.to_nat n) bytes <> []) as Hne.
      { intros E. rewrite E in Hln. simpl in Hln. lia. }
      replace (Z.of_nat (length (take (Z.to_nat n) bytes))) with n by lia.
      splits; auto; [by rewrite take_drop|].
      apply feed_body_end; [done|lia].
Qed.

(** The loop ends within [size] iterations and delivers what the parser emits. *)
Lemma split_spec ext n data size s p bytes h hs received :
  (Z.to_nat size < n)%nat -> 0 <= size -> load (tran_buf s) data size h = Some bytes ->
  0 <= data -> data + size < 2 ^ 31 -> rel h s p ->
  acct ext h (tran_buf s) data (hs ++ handles s) -> (feed p bytes).1 <> PNegative ->
  exists ok s' items h',
    split_and_process_message n data size s received h = Done ok s' (received ++ items) h' /\
    Forall2 (item_ok h') items (feed p bytes).2 /\ same_bytes h h' /\ tran_buf s' = tran_buf s /\
    acct ext h' (tran_buf s) (data + size) ((hs ++ item_handles items) ++ handles s') /\
    if (ok : bool) then rel h' s' (feed p bytes).1 else (feed p bytes).1 = PBroken.
Proof.
  revert data size s p bytes h hs received.
  induction n as [|n IH]; intros data size s p bytes h hs received Hn H0 Hload Hd Hb Hrel Ha Hneg; [lia|].
  pose proof (ReadBuffer.load_length _ _ _ _ _ Hload) as Hlen.
  cbn [split_and_process_message]. destruct (0 <? size) eqn:E.
  2: { exists true, s, [], h. destruct bytes; [|simpl in Hlen; lia]. rewrite app_nil_r. simpl.
       splits; [done|by constructor|by intros q|done| |done]. rewrite app_nil_r.
       by replace (data + size) with data by lia. }
  pose proof (split_once_spec ext h s p hs data size bytes Ha Hrel Hload ltac:(lia) Hd Hb Hneg) as HS.
  destruct (split_once data size s h) as [ok s' h'|data' size' i s' h'|]; [| |done].
  - destruct HS as (Hsb & Ht & -> & Ha' & Hok). exists ok, s', [], h'. rewrite app_nil_r. simpl.
    rewrite app_nil_r. splits; auto.
  - destruct HS as (b1 & b2 & m & -> & Hne & -> & -> & Hf1 & Hsb & Ht & Hrel' & Hi & Ha').
    rewrite feed_app, Hf1 in *. simpl in Hneg. simpl fst in *. simpl snd in *.
    assert (0 < length b1)%nat by (destruct b1; [done|simpl; lia]).
    rewrite length_app in Hlen.
    destruct (IH (data + Z.of_nat (length b1)) (size - Z.of_nat (length b1)) s' (PHeader []) b2 h'
      (hs ++ item_handles [i]) (received ++ [i]))
      as (ok & s2 & items & h2 & -> & Hitems & Hsb2 & Ht2 & Ha2 & Hok); auto; try lia.
    { rewrite Ht, (load_same _ _ _ h) by done.
      rewrite (load_sub _ _ _ _ _ (Z.of_nat (length b1)) (size - Z.of_nat (length b1)) Hload) by lia.
      f_equal. rewrite Nat2Z.id, drop_app_length. apply take_ge. lia. }
    { by rewrite Ht. }
    exists ok, s2, (i :: items), h2. rewrite <- app_assoc. simpl.
    splits; auto; try congruence.
    + constructor; [by eapply item_ok_same|done].
    + rewrite Ht in Ha2. replace (data + Z.of_nat (length b1) + (size - Z.of_nat (length b1)))
        with (data + size) in Ha2 by lia.
      by rewrite <- (app_assoc hs), <- item_handles_app in Ha2.
Qed.

(** ** Messages and the bytes that carry them *)

(** What [Session::Send] puts on the wire: a header, then meta and data. *)
Definition frame (m : message) : list Z :=
  encode (mkHeader MESSAGE_HEAD_MAGIC (m_meta_size m) (m_data_size m) (Z.of_nat (length (m_bytes m))))
    ++ m_bytes m.

Definition good_message (m : message) : Prop :=
  in_s 32 (m_meta_size m) /\ in_s 64 (m_data_size m) /\ Z.of_nat (length (m_bytes m)) < 2 ^ 63.

Lemma feed_frame m : good_message m -> feed (PHeader []) (frame m) = (PHeader [], [m]).
Proof.
  intros (H1 & H2 & H3). unfold frame. set (hdr := mkHeader _ _ _ _).
  assert (good_header hdr) as Hg.
  { unfold good_header, hdr. simpl. splits; auto; [done|]. unfold in_s. lia. }
  assert (encode hdr <> []) as Hne.
  { intros E. apply (f_equal length) in E. by rewrite length_encode in E. }
  rewrite feed_app, (feed_header_end [] (encode hdr) Hne) by (by rewrite length_encode).
  unfold after_header. rewrite app_nil_l, (decode_encode hdr Hg). unfold hdr, CheckMagicString.
  cbn [magic_str_value message_size negb meta_size data_size].
  rewrite Z.eqb_refl. cbn [negb]. replace (_ <? 0) with false by lia.
  destruct (m_bytes m) as [|b r] eqn:Eb; [destruct m; simpl in *; by subst|].
  rewrite <- Eb in *. replace (_ =? 0) with false by (rewrite Eb; simpl; lia).
  simpl fst. simpl snd. rewrite feed_body_end; [|by rewrite Eb|simpl; lia].
  simpl. by destruct m.
Qed.

Lemma feed_frames ms :
  Forall good_message ms -> feed (PHeader []) (concat (frame <$> ms)) = (PHeader [], ms).
Proof.
  induction 1 as [|m ms Hm Hms IH]; [done|]. rewrite fmap_cons; cbn [concat].
  rewrite feed_app, feed_frame by done. simpl. by rewrite IH.
Qed.

(** ** A negative message size *)

(** A header whose [message_size] is minus the size of a header: after it, the loop is
    back where it started. *)
Definition rewinding_header (meta data : Z) : MessageHeader :=
  mkHeader MESSAGE_HEAD_MAGIC meta data (-24).

Lemma rewinding_iteration s h data meta dsize :
  rel_header s [] -> in_s 32 meta -> in_s 64 dsize ->
  load (tran_buf s) data 24 h = Some (encode (rewinding_header meta dsize)) ->
  exists i s', split_once data 24 s h = Continue data 24 i s' h /\
    rel_header s' [] /\ tran_buf s' = tran_buf s.
Proof.
  intros Hrel Hm Hd Hload. pose proof Hrel as (Hid & _). unfold split_once. rewrite Hid.
  destruct (identify_spec h s [] data 24 _ Hrel Hload) as
    (s' & -> & _ & Ht & Hrm & Hms & Hid' & Hlh & _ & Htk); [lia|].
  simpl length in *. set (hdr := rewinding_header meta dsize) in *.
  assert (good_header hdr) as Hg.
  { unfold good_header, hdr, in_u, in_s in *. simpl. unfold MESSAGE_HEAD_MAGIC. splits; lia. }
  change (Z.to_nat (24 `min` (Z.of_nat header_size - Z.of_nat 0))) with 24%nat in *.
  rewrite (take_ge (encode hdr)) in * by (by rewrite length_encode).
  rewrite app_nil_l in *. rewrite (decode_encode hdr Hg).
  assert (receiving_header s' = encode hdr) as Hrh.
  { rewrite <- (take_ge (receiving_header s') (length (encode hdr))); [done|].
    rewrite length_encode, Hlh. lia. }
  change (CheckMagicString hdr) with true.
  change (24 `min` (Z.of_nat header_size - Z.of_nat 0)) with 24. cbv zeta.
  change (24 <? Z.of_nat header_size - Z.of_nat 0) with false.
  change (0 <? 1) with true. cbv iota.
  change (receiving_header (set_identified s')) with (receiving_header s').
  unfold process_body. change (receiving_header (set_identified s')) with (receiving_header s').
  change (received_message_size (set_identified s')) with (received_message_size s').
  rewrite Hrh, (decode_encode hdr Hg), Hms.
  change (message_size hdr) with (-24). simpl.
  replace (data + 24 + (-24 - 0)) with data by lia.
  eexists _, _. splits; [reflexivity| |done].
  unfold rel_header, header_size in *. simpl. splits; auto. lia.
Qed.

(** C15: a header with the right magic number and [message_size] -24 hangs the thread that
    reads it: however long it runs, [split_and_process_message] is still running (and each
    round appends one more empty message to the list of received messages). *)
Theorem negative_size_never_returns fuel s h data meta dsize received :
  rel_header s [] -> in_s 32 meta -> in_s 64 dsize ->
  load (tran_buf s) data 24 h = Some (encode (rewinding_header meta dsize)) ->
  split_and_process_message fuel data 24 s received h = OutOfFuel.
Proof.
  intros Hrel Hm Hd. revert s Hrel received.
  induction fuel as [|n IH]; intros s Hrel received Hload; [done|].
  cbn [split_and_process_message]. change (0 <? 24) with true. cbv iota.
  destruct (rewinding_iteration s h data meta dsize Hrel Hm Hd Hload)
    as (i & s' & -> & Hrel' & Ht). apply IH; [done|]. by rewrite Ht.
Qed.

Lemma negative_size_never_returns_witness :
  let h := mkHeap {[0%nat := mkBlock 64 1 (encode (rewinding_header 0 0) ++ replicate 32 0)]} 1 in
  let s := reset_receiving_env (mkRx ReadBuffer.init 0 (replicate 24 0) 0 false 0) in
  split_and_process_message 1000 0 24 s [] h = OutOfFuel.
Proof.
  cbv zeta. apply (negative_size_never_returns _ _ _ _ 0 0).
  - apply reset_rel. reflexivity.
  - unfold in_s. lia.
  - unfold in_s. lia.
  - vm_compute. reflexivity.
Defined.

End Framing.
