(* ===== verification/MessageStream.v ===== *)
(** * The connection ([src/message_stream/message_stream.cpp], [byte_stream.cpp])

    A [MessageStream] owns the receive environment of [Framing], two queues of messages to
    send, and two tokens that admit one reader and one writer.  Asynchronous operations are
    requests: [async_read_some] and [async_write_some] and the virtual callbacks append an
    event to [out]; their completions [on_read_some] and [on_write_some] are operations.

    A queued message is a value: each [ReadBuffer] is queued once.  The release of a message
    that was sent is not modelled, so that the blocks of the messages only need to be read. *)

From S2P Require Import Prelude TranBuf BufRead Flow Framing.
Import TranBufPool Framing.

Module MessageStream.
Section WithAllocator.
Context `{Allocator}.

Inductive net_type := NT_SERVER | NT_CLIENT | NT_NATS.
Inductive net_status := STATUS_INIT | STATUS_CONNECTING | STATUS_CONNECTED | STATUS_CLOSED.
Inductive token := TOKEN_FREE | TOKEN_LOCK.

#[global] Instance net_type_eq_dec : EqDecision net_type.
Proof. solve_decision. Defined.
#[global] Instance net_status_eq_dec : EqDecision net_status.
Proof. solve_decision. Defined.
#[global] Instance token_eq_dec : EqDecision token.
Proof. solve_decision. Defined.

Inductive event :=
  | EvReceived (i : ReceivedItem)
  | EvSent (m : option ReadBuffer.state)
  | EvSendFailed (m : option ReadBuffer.state)
  | EvClosed
  | EvAsyncRead (off size : Z)
  | EvAsyncWrite (data : option ReadBuffer.view) (size : Z).

(** The messages to send: the queue under the mutex, the queue of the sender, and the
    message in flight with the rest of its current block. *)
Record tx := mkTx {
  pending_calls : list ReadBuffer.state;
  pending_message_count : Z; pending_data_size : Z; pending_buffer_size_ : Z;
  swapped_calls : list ReadBuffer.state;
  swapped_message_count : Z; swapped_data_size : Z; swapped_buffer_size : Z;
  sending_message : option ReadBuffer.state;
  sent_size : Z;
  sending_data : option ReadBuffer.view;
  sending_size : Z;
}.

Record state := mkState {
  kind : net_type;
  status : net_status;
  recv : rx;
  receiving_data : Z;      (* offset in the transfer buffer *)
  receiving_size : Z;
  block_factor : Z;
  send : tx;
  flow : FlowController.state;
  max_pending_buffer_size : Z;
  read_quota_token : Z;
  write_quota_token : Z;
  send_token : token;
  receive_token : token;
  total_received_count : Z; total_received_size : Z;
  total_sent_count : Z; total_sent_size : Z;
  mem : heap;
  out : list event;
}.

Definition set_status (x : net_status) (s : state) : state :=
  mkState (kind s) x (recv s) (receiving_data s) (receiving_size s) (block_factor s) (send s)
    (flow s) (max_pending_buffer_size s) (read_quota_token s) (write_quota_token s)
    (send_token s) (receive_token s) (total_received_count s) (total_received_size s)
    (total_sent_count s) (total_sent_size s) (mem s) (out s).

Definition set_recv (x : rx) (d z : Z) (h : heap) (s : state) : state :=
  mkState (kind s) (status s) x d z (block_factor s) (send s)
    (flow s) (max_pending_buffer_size s) (read_quota_token s) (write_quota_token s)
    (send_token s) (receive_token s) (total_received_count s) (total_received_size s)
    (total_sent_count s) (total_sent_size s) h (out s).

Definition set_send (x : tx) (s : state) : state :=
  mkState (kind s) (status s) (recv s) (receiving_data s) (receiving_size s) (block_factor s) x
    (flow s) (max_pending_buffer_size s) (read_quota_token s) (write_quota_token s)
    (send_token s) (receive_token s) (total_received_count s) (total_received_size s)
    (total_sent_count s) (total_sent_size s) (mem s) (out s).

Definition set_read_quota (f : FlowController.state) (q : Z) (s : state) : state :=
  mkState (kind s) (status s) (recv s) (receiving_data s) (receiving_size s) (block_factor s)
    (send s) f (max_pending_buffer_size s) q (write_quota_token s)
    (send_token s) (receive_token s) (total_received_count s) (total_received_size s)
    (total_sent_count s) (total_sent_size s) (mem s) (out s).

Definition set_write_quota (f : FlowController.state) (q : Z) (s : state) : state :=
  mkState (kind s) (status s) (recv s) (receiving_data s) (receiving_size s) (block_factor s)
    (send s) f (max_pending_buffer_size s) (read_quota_token s) q
    (send_token s) (receive_token s) (total_received_count s) (total_received_size s)
    (total_sent_count s) (total_sent_size s) (mem s) (out s).

Definition set_send_token (t : token) (s : state) : state :=
  mkState (kind s) (status s) (recv s) (receiving_data s) (receiving_size s) (block_factor s)
    (send s) (flow s) (max_pending_buffer_size s) (read_quota_token s) (write_quota_token s)
    t (receive_token s) (total_received_count s) (total_received_size s)
    (total_sent_count s) (total_sent_size s) (mem s) (out s).

Definition set_receive_token (t : token) (s : state) : state :=
  mkState (kind s) (status s) (recv s) (receiving_data s) (receiving_size s) (block_factor s)
    (send s) (flow s) (max_pending_buffer_size s) (read_quota_token s) (write_quota_token s)
    (send_token s) t (total_received_count s) (total_received_size s)
    (total_sent_count s) (total_sent_size s) (mem s) (out s).

Definition count_received (n : Z) (s : state) : state :=
  mkState (kind s) (status s) (recv s) (receiving_data s) (receiving_size s) (block_factor s)
    (send s) (flow s) (max_pending_buffer_size s) (read_quota_token s) (write_quota_token s)
    (send_token s) (receive_token s) (total_received_count s + 1) (total_received_size s + n)
    (total_sent_count s) (total_sent_size s) (mem s) (out s).

Definition count_sent (n : Z) (s : state) : state :=
  mkState (kind s) (status s) (recv s) (receiving_data s) (receiving_size s) (block_factor s)
    (send s) (flow s) (max_pending_buffer_size s) (read_quota_token s) (write_quota_token s)
    (send_token s) (receive_token s) (total_received_count s) (total_received_size s)
    (total_sent_count s + 1) (total_sent_size s + n) (mem s) (out s).

Definition emit (e : event) (s : state) : state :=
  mkState (kind s) (status s) (recv s) (receiving_data s) (receiving_size s) (block_factor s)
    (send s) (flow s) (max_pending_buffer_size s) (read_quota_token s) (write_quota_token s)
    (send_token s) (receive_token s) (total_received_count s) (total_received_size s)
    (total_sent_count s) (total_sent_size s) (mem s) (out s ++ [e]).

Definition is_connected (s : state) : bool := bool_decide (status s = STATUS_CONNECTED).
Definition is_closed (s : state) : bool := bool_decide (status s = STATUS_CLOSED).

(** [ByteStream::close]: the callback runs once. *)
Definition close (s : state) : state :=
  if is_closed s then s else emit EvClosed (set_status STATUS_CLOSED s).

Definition pending_buffer_size (s : state) : Z :=
  pending_buffer_size_ (send s) + swapped_buffer_size (send s).
Definition pending_message_total (s : state) : Z :=
  pending_message_count (send s) + swapped_message_count (send s).
Definition pending_data_total (s : state) : Z :=
  pending_data_size (send s) + swapped_data_size (send s).

(** ** Receiving *)

Definition try_start_receive (s : state) : bool * state :=
  if decide (receive_token s = TOKEN_LOCK) then (false, s)
  else if read_quota_token s <=? 0 then (false, s)
  else if bool_decide (kind s = NT_SERVER) && (max_pending_buffer_size s <? pending_buffer_size s)
  then (false, s)
  else if is_connected s then
    let s1 := set_receive_token TOKEN_LOCK s in
    let '(q, f) := FlowController.acquire_read_quota (receiving_size s1) (flow s1) in
    let s2 := set_read_quota f q s1 in
    if q <=? 0 then (false, set_receive_token TOKEN_FREE s2)
    else (true, emit (EvAsyncRead (receiving_data s2) (receiving_size s2)) s2)
  else (false, s).

Definition trigger_receive (s : state) : bool * state :=
  try_start_receive (set_read_quota (flow s) 1 s).

(** [reset_tran_buf]; [None] is a double free, [false] an allocation that failed. *)
Definition reset_tran_buf (s : state) (old : option nat) : option (bool * state) :=
  h ← match old with Some p => free p (mem s) | None => Some (mem s) end;
  match malloc (block_factor s) h with
  | (h', None) => Some (false, set_recv (recv s) (receiving_data s) (receiving_size s) h' s)
  | (h', Some p) =>
      cap ← capacity p h';
      let r := recv s in
      Some (true, set_recv (mkRx (receiving_message r) (received_message_size r)
                              (receiving_header r) (received_header_size r)
                              (header_identified r) p) 0 cap h' s)
  end.

(** Notify the received messages one by one, as long as the connection is not closed. *)
Fixpoint notify (items : list ReceivedItem) (s : state) : state :=
  match items with
  | [] => s
  | i :: r => if is_closed s then s else notify r (emit (EvReceived i) s)
  end.

(** [on_read_some]: [error] is the error of the completed read.  [None] is undefined
    behaviour or a loop that does not end. *)
Definition on_read_some (error : bool) (n : Z) (s : state) : option state :=
  if negb (is_connected s) then Some s
  else if error then Some (close s)
  else
    let s1 := count_received n s in
    match split_and_process_message (S (Z.to_nat n)) (receiving_data s1) n (recv s1) [] (mem s1) with
    | Done false r _ h => Some (close (set_recv r (receiving_data s1) (receiving_size s1) h s1))
    | Done true r items h =>
        let s2 := set_recv r (receiving_data s1 + n) (receiving_size s1 - n) h s1 in
        '(ok, s3) ← (if receiving_size s2 =? 0 then reset_tran_buf s2 (Some (tran_buf r))
                     else Some (true, s2));
        if (ok : bool) then
          let s4 := set_receive_token TOKEN_FREE s3 in
          let '(_, s5) := try_start_receive s4 in
          Some (notify items s5)
        else Some (close s3)
    | OutOfFuel | UndefinedBehaviour => None
    end.

(** The kernel puts [bytes] in the buffer, and the read completes. *)
Definition read_completes (bytes : list Z) (s : state) : option state :=
  h ← store (tran_buf (recv s)) (receiving_data s) bytes (mem s);
  on_read_some false (Z.of_nat (length bytes))
    (set_recv (recv s) (receiving_data s) (receiving_size s) h s).

(** ** Sending *)

Definition put_into_pending_queue (m : ReadBuffer.state) (t : tx) : tx :=
  mkTx (pending_calls t ++ [m]) (pending_message_count t + 1)
    (pending_data_size t + ReadBuffer.TotalCount m)
    (pending_buffer_size_ t + ReadBuffer.TotalBlockSize m)
    (swapped_calls t) (swapped_message_count t) (swapped_data_size t) (swapped_buffer_size t)
    (sending_message t) (sent_size t) (sending_data t) (sending_size t).

Definition insert_into_pending_queue (m : ReadBuffer.state) (t : tx) : tx :=
  mkTx (pending_calls t) (pending_message_count t) (pending_data_size t) (pending_buffer_size_ t)
    (m :: swapped_calls t) (swapped_message_count t + 1)
    (swapped_data_size t + ReadBuffer.TotalCount m)
    (swapped_buffer_size t + ReadBuffer.TotalBlockSize m)
    (sending_message t) (sent_size t) (sending_data t) (sending_size t).

Definition swap_queues (t : tx) : tx :=
  mkTx (swapped_calls t) 0 0 0 (pending_calls t) (pending_message_count t) (pending_data_size t)
    (pending_buffer_size_ t)
    (sending_message t) (sent_size t) (sending_data t) (sending_size t).

Definition get_from_pending_queue (t : tx) : option ReadBuffer.state * tx :=
  let t1 :=
    match swapped_calls t with
    | [] => if 0 <? pending_message_count t then
              match pending_calls t with [] => t | _ => swap_queues t end
            else t
    | _ => t
    end in
  match swapped_calls t1 with
  | m :: r =>
      (Some m, mkTx (pending_calls t1) (pending_message_count t1) (pending_data_size t1)
                 (pending_buffer_size_ t1) r (swapped_message_count t1 - 1)
                 (swapped_data_size t1 - ReadBuffer.TotalCount m)
                 (swapped_buffer_size t1 - ReadBuffer.TotalBlockSize m)
                 (Some m) (sent_size t1) (sending_data t1) (sending_size t1))
  | [] => (None, t1)
  end.

Definition clear_sending_env (t : tx) : tx :=
  mkTx (pending_calls t) (pending_message_count t) (pending_data_size t) (pending_buffer_size_ t)
    (swapped_calls t) (swapped_message_count t) (swapped_data_size t) (swapped_buffer_size t)
    None 0 None 0.

(** [_sending_message->Next(&_sending_data, &_sending_size)]; at the end the pointers keep
    their value. *)
Definition next_block (m : ReadBuffer.state) (t : tx) : bool * tx :=
  match ReadBuffer.Next m with
  | (Some v, m') =>
      (true, mkTx (pending_calls t) (pending_message_count t) (pending_data_size t)
         (pending_buffer_size_ t) (swapped_calls t) (swapped_message_count t)
         (swapped_data_size t) (swapped_buffer_size t)
         (Some m') (sent_size t) (Some v) (ReadBuffer.v_size v))
  | (None, m') =>
      (false, mkTx (pending_calls t) (pending_message_count t) (pending_data_size t)
         (pending_buffer_size_ t) (swapped_calls t) (swapped_message_count t)
         (swapped_data_size t) (swapped_buffer_size t)
         (Some m') (sent_size t) (sending_data t) (sending_size t))
  end.

Definition set_sent_size (n : Z) (t : tx) : tx :=
  mkTx (pending_calls t) (pending_message_count t) (pending_data_size t) (pending_buffer_size_ t)
    (swapped_calls t) (swapped_message_count t) (swapped_data_size t) (swapped_buffer_size t)
    (sending_message t) n (sending_data t) (sending_size t).

Definition advance_sending (n : Z) (t : tx) : tx :=
  mkTx (pending_calls t) (pending_message_count t) (pending_data_size t) (pending_buffer_size_ t)
    (swapped_calls t) (swapped_message_count t) (swapped_data_size t) (swapped_buffer_size t)
    (sending_message t) (sent_size t)
    ((fun v => ReadBuffer.mkView (ReadBuffer.v_data v) (ReadBuffer.v_off v + n)
                 (ReadBuffer.v_size v - n)) <$> sending_data t)
    (sending_size t - n).

Definition write_event (t : tx) : event := EvAsyncWrite (sending_data t) (sending_size t).

(** The [while] loop of [try_start_send]; [on_sending] is the virtual callback. *)
Fixpoint send_loop (on_sending : ReadBuffer.state -> bool) (fuel : nat) (s : state) : option (bool * state) :=
  match fuel with
  | O => None
  | S n =>
      if is_connected s && bool_decide (send_token s = TOKEN_FREE) then
        let s1 := set_send_token TOKEN_LOCK s in
        match get_from_pending_queue (send s1) with
        | (Some m, t) =>
            let s2 := set_send t s1 in
            if negb (on_sending m) then
              Some (false, set_send_token TOKEN_FREE
                      (set_send (clear_sending_env t) (emit (EvSendFailed (Some m)) s2)))
            else
              let '(q, f) := FlowController.acquire_write_quota (ReadBuffer.TotalCount m) (flow s2) in
              let s3 := set_write_quota f q s2 in
              if q <=? 0 then
                Some (false, set_send_token TOKEN_FREE
                        (set_send (clear_sending_env (insert_into_pending_queue m t)) s3))
              else
                let '(_, t') := next_block m (set_sent_size 0 t) in
                Some (true, emit (write_event t') (set_send t' s3))
        | (None, t) =>
            let s2 := set_send_token TOKEN_FREE (set_send t s1) in
            if pending_message_count t =? 0 then Some (false, s2) else send_loop on_sending n s2
        end
      else Some (false, s)
  end.

Definition try_start_send (on_sending : ReadBuffer.state -> bool) (s : state) : option (bool * state) :=
  if decide (send_token s = TOKEN_LOCK) then Some (false, s)
  else if write_quota_token s <=? 0 then Some (false, s)
  else send_loop on_sending 2 s.

Definition trigger_send (on_sending : ReadBuffer.state -> bool) (s : state) : option (bool * state) :=
  try_start_send on_sending (set_write_quota (flow s) 1 s).

Definition async_send_message (on_sending : ReadBuffer.state -> bool) (m : ReadBuffer.state) (s : state) :
    option state :=
  if is_closed s then Some (emit (EvSendFailed (Some m)) s)
  else '(_, s') ← try_start_send on_sending (set_send (put_into_pending_queue m (send s)) s); Some s'.

Definition on_write_some (on_sending : ReadBuffer.state -> bool) (error : bool) (n : Z) (s : state) :
    option state :=
  if negb (is_connected s) then Some s
  else if error then
    Some (close (set_send (clear_sending_env (send s)) (emit (EvSendFailed (sending_message (send s))) s)))
  else
    let s1 := count_sent n (set_send (set_sent_size (sent_size (send s) + n) (send s)) s) in
    if n =? sending_size (send s1) then
      m ← sending_message (send s1);
      match next_block m (send s1) with
      | (true, t) => Some (emit (write_event t) (set_send t s1))
      | (false, t) =>
          let s2 := set_send_token TOKEN_FREE (emit (EvSent (sending_message t)) (set_send t s1)) in
          '(_, s3) ← try_start_send on_sending s2;
          Some (if bool_decide (kind s3 = NT_SERVER) then (try_start_receive s3).2 else s3)
      end
    else
      let t := advance_sending n (send s1) in
      Some (emit (write_event t) (set_send t s1)).

(** ** Connecting *)

Definition on_connected (s : state) (old : option nat) : option (bool * state) :=
  '(ok, s') ← reset_tran_buf (set_recv (reset_receiving_env (recv s)) (receiving_data s)
                 (receiving_size s) (mem s) s) old;
  Some (if (ok : bool) then (true, s') else (false, close s')).

(** [Session::on_connected] ignores the result of the base class. *)
Definition session_on_connected (s : state) (old : option nat) : option (bool * state) :=
  '(_, s') ← on_connected s old; Some (true, s').

(** [ByteStream::set_socket_connected], after the options of the socket are set. *)
Definition set_socket_connected (on_sending : ReadBuffer.state -> bool) (s : state) (old : option nat) :
    option state :=
  '(ok, s1) ← session_on_connected s old;
  if negb (ok : bool) then Some (close s1)
  else
    let s2 := set_status STATUS_CONNECTED s1 in
    let '(_, s3) := trigger_receive s2 in
    '(_, s4) ← trigger_send on_sending s3;
    Some s4.

(** ** What has been delivered *)

Definition received (s : state) : list ReceivedItem :=
  omap (fun e => match e with EvReceived i => Some i | _ => None end) (out s).

Lemma received_emit e s :
  received (emit e s) = received s ++ match e with EvReceived i => [i] | _ => [] end.
Proof. unfold received. simpl. rewrite omap_app. by destruct e. Qed.

Lemma received_close s : received (close s) = received s.
Proof.
  unfold close. destruct (is_closed s); [done|]. rewrite received_emit. by rewrite app_nil_r.
Qed.

Lemma close_closed s : is_closed (close s) = true.
Proof. unfold close. by destruct (is_closed s) eqn:E. Qed.

(** [try_start_receive] touches the token, the quota and the events only. *)
Lemma try_start_receive_frame s :
  let s' := (try_start_receive s).2 in
  status s' = status s /\ recv s' = recv s /\ receiving_data s' = receiving_data s /\
  receiving_size s' = receiving_size s /\ block_factor s' = block_factor s /\
  send s' = send s /\ mem s' = mem s /\ received s' = received s.
Proof.
  unfold try_start_receive. case_decide; [by splits|]. case_if; [by splits|].
  destruct (_ && _); [by splits|]. destruct (is_connected s); [|by splits].
  destruct (FlowController.acquire_read_quota _ _) as [q f].
  case_if; cbv zeta; splits; try done. cbn [snd]. rewrite received_emit. by rewrite app_nil_r.
Qed.

Lemma notify_connected items s :
  is_connected s = true ->
  notify items s = mkState (kind s) (status s) (recv s) (receiving_data s) (receiving_size s)
    (block_factor s) (send s) (flow s) (max_pending_buffer_size s) (read_quota_token s)
    (write_quota_token s) (send_token s) (receive_token s) (total_received_count s)
    (total_received_size s) (total_sent_count s) (total_sent_size s) (mem s)
    (out s ++ (EvReceived <$> items)).
Proof.
  revert s. induction items as [|i r IH]; intros s Hc; simpl.
  - rewrite app_nil_r. by destruct s.
  - assert (is_closed s = false) as ->.
    { unfold is_closed, is_connected in *. apply bool_decide_eq_true in Hc. by rewrite Hc. }
    rewrite IH by done. simpl. by rewrite <- app_assoc.
Qed.

Lemma received_notify items s :
  is_connected s = true -> received (notify items s) = received s ++ items.
Proof.
  intros Hc. rewrite notify_connected by done. unfold received. simpl. rewrite omap_app. f_equal.
  clear. induction items as [|i r IH]; [done|]. csimpl. by rewrite IH.
Qed.

(** ** The receive environment against the parser *)

Record rinv (ext : nat -> Z) (s : state) (p : pstate) (ms : list message) : Prop := {
  rinv_connected : is_connected s = true;
  rinv_rel : rel (mem s) (recv s) p;
  rinv_block : exists b, blocks (mem s) !! tran_buf (recv s) = Some b /\
    Z.of_nat (length (b_data b)) = receiving_data s + receiving_size s;
  rinv_room : 0 <= receiving_data s /\ 0 < receiving_size s /\
    receiving_data s + receiving_size s = block_bytes (block_factor s) - 8;
  rinv_factor : 0 <= block_factor s <= 9;
  rinv_acct : acct ext (mem s) (tran_buf (recv s)) (receiving_data s)
    (item_handles (received s) ++ handles (recv s));
  rinv_items : Forall2 (item_ok (mem s)) (received s) ms;
}.

Definition loads_same (h h' : heap) (hs : list BufferHandle) : Prop :=
  forall x, x ∈ hs -> load (h_data x) (h_aux x) (h_size x) h' = load (h_data x) (h_aux x) (h_size x) h.

Lemma holds_loads h h' rb c :
  loads_same h h' (ReadBuffer.buf_list rb) -> holds h rb c -> holds h' rb c.
Proof.
  intros Hl (chunks & [HF Hg] & H'). exists chunks. split; [|done]. split; [|done].
  clear -HF Hl. induction HF as [|x c l cs [Hx Hne] HF IH]; constructor.
  - split; [|done]. rewrite Hl; [done|]. by left.
  - apply IH. intros y Hy. apply Hl. by right.
Qed.

Lemma items_loads h h' items ms :
  loads_same h h' (item_handles items) -> Forall2 (item_ok h) items ms ->
  Forall2 (item_ok h') items ms.
Proof.
  intros Hl HF. induction HF as [|i m items ms [Hh Hi] HF IH]; constructor.
  - split; [|done]. eapply holds_loads; [|exact Hh]. intros x Hx. apply Hl.
    unfold item_handles. csimpl. apply elem_of_app. by left.
  - apply IH. intros x Hx. apply Hl. unfold item_handles in *. csimpl. apply elem_of_app. by right.
Qed.

Lemma rel_loads h h' r p : loads_same h h' (handles r) -> rel h r p -> rel h' r p.
Proof.
  destruct p as [acc|hdr acc| |]; simpl; try done.
  intros Hl [(H1 & H2 & H3 & H4 & H5) H6]. split; [|done]. unfold rel_body. splits; auto.
  by eapply holds_loads.
Qed.

(** The bytes that arrive go after every byte a handle can see. *)
Lemma store_acct ext h t d hs bytes b :
  acct ext h t d hs -> blocks h !! t = Some b -> 0 <= d ->
  d + Z.of_nat (length bytes) <= Z.of_nat (length (b_data b)) ->
  exists h', store t d bytes h = Some h' /\ loads_same h h' hs /\ acct ext h' t d hs /\
    load t d (Z.of_nat (length bytes)) h' = Some bytes /\
    exists b', blocks h' !! t = Some b' /\ length (b_data b') = length (b_data b).
Proof.
  intros [] Hb Hd Hlen. rewrite (store_spec _ _ _ _ b) by done. eexists; split; [done|].
  pose proof (length_overwrite (Z.to_nat d) bytes (b_data b) ltac:(lia)) as Hol.
  splits.
  - intros x Hx. destruct (acct_bound0 x Hx) as [Hlt Hbd]. unfold load. simpl.
    destruct (decide (t = h_data x)) as [->|Hne]; [|by rewrite lookup_insert_ne].
    rewrite lookup_insert_eq, Hb. simpl. rewrite Hol. specialize (Hbd eq_refl).
    destruct (_ && _) eqn:E; [|done]. f_equal. unfold overwrite.
    rewrite drop_app_le by (rewrite length_take; lia).
    rewrite take_app_le by (rewrite length_drop, length_take; lia).
    rewrite skipn_firstn_comm, take_take. f_equal. lia.
  - constructor; simpl; auto.
    + intros p b' Hp. destruct (decide (t = p)) as [<-|Hne].
      * rewrite lookup_insert_eq in Hp. injection Hp as <-. simpl.
        destruct (acct_refs0 t b Hb) as ([H1 H2] & H3 & H4). splits; auto.
        split; simpl; [rewrite Hol; done|done].
      * rewrite lookup_insert_ne in Hp by done. auto.
    + rewrite lookup_insert_eq. by eexists.
  - unfold load. simpl. rewrite lookup_insert_eq. simpl. rewrite Hol.
    replace (_ && _) with true by lia. f_equal. unfold overwrite.
    rewrite drop_app_length' by (rewrite length_take; lia).
    rewrite take_app_length' by lia. done.
  - eexists. simpl. rewrite lookup_insert_eq. split; [done|]. simpl. lia.
Qed.

(** Giving back the full transfer buffer: the messages keep it alive. *)
Lemma free_acct ext h t d hs :
  acct ext h t d hs ->
  exists h', free t h = Some h' /\ loads_same h h' hs /\ next_addr h' = next_addr h /\
    forall p b, blocks h' !! p = Some b ->
      good_block b /\ (p < next_addr h)%nat /\ b_ref b = cnt p hs + ext p.
Proof.
  intros []. destruct acct_live0 as [b Hb]. unfold free. rewrite Hb. simpl.
  destruct (acct_refs0 t b Hb) as ([Hg1 Hg2] & Hlt & Hr). rewrite decide_True in Hr by done.
  destruct acct_ext0 as [Hext _]. specialize (Hext t). pose proof (cnt_nonneg t hs) as Hcn.
  eexists; split; [done|]. splits; [|done|].
  - intros x Hx. unfold load. simpl. destruct (decide (t = h_data x)) as [Heq|Hne].
    + assert (0 < cnt t hs) as Hc.
      { unfold cnt. apply list_elem_of_split in Hx as (l1 & l2 & ->).
        rewrite filter_app, filter_cons, decide_True by done. rewrite length_app. simpl. lia. }
      replace (b_ref b =? 1) with false by lia. subst t. rewrite lookup_insert_eq, Hb. done.
    + destruct (b_ref b =? 1); [by rewrite lookup_delete_ne|by rewrite lookup_insert_ne].
  - intros p b' Hp. simpl in Hp. destruct (decide (t = p)) as [<-|Hne].
    + destruct (b_ref b =? 1) eqn:E; [by rewrite lookup_delete_eq in Hp|].
      rewrite lookup_insert_eq in Hp. injection Hp as <-. simpl.
      splits; [|done|lia]. split; simpl; [done|lia].
    + assert (blocks h !! p = Some b') as Hp'.
      { destruct (b_ref b =? 1);
          [by rewrite lookup_delete_ne in Hp|by rewrite lookup_insert_ne in Hp]. }
      destruct (acct_refs0 p b' Hp') as (H1 & H2 & H3). splits; auto.
      rewrite decide_False in H3 by done. lia.
Qed.

(** A fresh transfer buffer. *)
Lemma malloc_acct ext h hs f :
  (forall p b, blocks h !! p = Some b ->
      good_block b /\ (p < next_addr h)%nat /\ b_ref b = cnt p hs + ext p) ->
  (forall p, 0 <= ext p) -> (forall p, (next_addr h <= p)%nat -> ext p = 0) ->
  (forall x, x ∈ hs -> (h_data x < next_addr h)%nat) -> 0 <= f <= 9 ->
  alloc_ok (next_addr h) = true ->
  exists h' b, malloc f h = (h', Some (next_addr h)) /\ loads_same h h' hs /\
    acct ext h' (next_addr h) 0 hs /\ blocks h' !! next_addr h = Some b /\
    capacity (next_addr h) h' = Some (block_bytes f - 8) /\
    Z.of_nat (length (b_data b)) = block_bytes f - 8.
Proof.
  intros Hrefs He0 Hext Hlt Hf Hok. unfold malloc. rewrite Hok.
  pose proof (block_bytes_min f ltac:(lia)) as Hbb.
  eexists _, _. splits; [done| | | | |].
  - intros x Hx. specialize (Hlt x Hx). unfold load. simpl. by rewrite lookup_insert_ne by lia.
  - constructor; simpl.
    + intros p b. destruct (decide (next_addr h = p)) as [<-|Hne].
      * rewrite lookup_insert_eq. intros [= <-]. simpl. splits; [|lia|].
        -- split; simpl; [rewrite length_fmap, length_seq; lia|lia].
        -- rewrite decide_True by done. rewrite (Hext (next_addr h)) by lia.
           rewrite (cnt_fresh _ _ Hlt). lia.
      * rewrite lookup_insert_ne by done. intros Hp. destruct (Hrefs p b Hp) as (H1 & H2 & H3).
        splits; [done|lia|]. rewrite decide_False by done. lia.
    + rewrite lookup_insert_eq. by eexists.
    + split; [done|]. intros p Hp. apply Hext. lia.
    + intros x Hx. specialize (Hlt x Hx). split; [lia|]. lia.
  - simpl. apply lookup_insert_eq.
  - unfold capacity, block_size. simpl. by rewrite lookup_insert_eq.
  - simpl. rewrite length_fmap, length_seq. lia.
Qed.

Lemma acct_loads_bound ext h t d hs1 hs2 :
  acct ext h t d (hs1 ++ hs2) -> forall x, x ∈ hs1 ++ hs2 -> (h_data x < next_addr h)%nat.
Proof. intros [] x Hx. by apply acct_bound0. Qed.

Lemma loads_same_app_l h h' l1 l2 : loads_same h h' (l1 ++ l2) -> loads_same h h' l1.
Proof. intros H' x Hx. apply H', elem_of_app. by left. Qed.

Lemma loads_same_app_r h h' l1 l2 : loads_same h h' (l1 ++ l2) -> loads_same h h' l2.
Proof. intros H' x Hx. apply H', elem_of_app. by right. Qed.

(** A new transfer buffer for a receive environment whose buffer is full. *)
Lemma reset_tran_buf_spec ext s p ms :
  (forall n, alloc_ok n = true) ->
  is_connected s = true -> rel (mem s) (recv s) p -> 0 <= block_factor s <= 9 ->
  acct ext (mem s) (tran_buf (recv s)) (receiving_data s)
    (item_handles ms ++ handles (recv s)) ->
  exists s', reset_tran_buf s (Some (tran_buf (recv s))) = Some (true, s') /\
    loads_same (mem s) (mem s') (item_handles ms ++ handles (recv s)) /\
    is_connected s' = true /\ received s' = received s /\ block_factor s' = block_factor s /\
    rel (mem s') (recv s') p /\ handles (recv s') = handles (recv s) /\
    (exists b, blocks (mem s') !! tran_buf (recv s') = Some b /\
      Z.of_nat (length (b_data b)) = receiving_size s') /\
    receiving_data s' = 0 /\ receiving_size s' = block_bytes (block_factor s) - 8 /\
    acct ext (mem s') (tran_buf (recv s')) 0 (item_handles ms ++ handles (recv s)).
Proof.
  intros Hok Hc Hrel Hf Ha. unfold reset_tran_buf.
  destruct (free_acct _ _ _ _ _ Ha) as (h1 & -> & Hl1 & Hn1 & Hrefs1). simpl.
  pose proof (acct_ext _ _ _ _ _ Ha) as [He0 He].
  destruct (malloc_acct ext h1 (item_handles ms ++ handles (recv s)) (block_factor s))
    as (h2 & b & -> & Hl2 & Ha2 & Hb & Hcap & Hlen); auto.
  { intros q b' Hq. rewrite Hn1. by apply Hrefs1. }
  { intros q Hq. apply He. by rewrite <- Hn1. }
  { intros x Hx. rewrite Hn1. by eapply acct_loads_bound. }
  rewrite Hcap. simpl. eexists; split; [done|]. simpl.
  assert (loads_same (mem s) h2 (item_handles ms ++ handles (recv s))) as Hl.
  { intros x Hx. rewrite Hl2, Hl1; auto. }
  splits; auto.
  - apply (rel_loads (mem s) h2) in Hrel; [|by eapply loads_same_app_r].
    destruct p; simpl in *; try done.
  - exists b. split; [done|lia].
Qed.

(** One completed read, against the parser. *)
Lemma read_completes_spec ext s p ms bytes :
  (forall n, alloc_ok n = true) ->
  rinv ext s p ms -> Z.of_nat (length bytes) <= receiving_size s ->
  (feed p bytes).1 <> PNegative ->
  exists s', read_completes bytes s = Some s' /\
    match (feed p bytes).1 with
    | PBroken => is_closed s' = true /\ received s' = received s
    | p' => rinv ext s' p' (ms ++ (feed p bytes).2) /\ block_factor s' = block_factor s /\
        receiving_data s' = (if Z.of_nat (length bytes) =? receiving_size s then 0
                             else receiving_data s + Z.of_nat (length bytes))
    end.
Proof.
  intros Hok [] Hlen Hneg. destruct rinv_block0 as (b & Hb & Hbl).
  destruct rinv_room0 as (Hd0 & Hr0 & Hcap). unfold read_completes.
  destruct (store_acct ext (mem s) (tran_buf (recv s)) (receiving_data s)
    (item_handles (received s) ++ handles (recv s)) bytes b) as
    (h1 & -> & Hl1 & Ha1 & Hload & b1 & Hb1 & Hbl1); auto; [lia|].
  cbn [mbind option_bind]. unfold on_read_some.
  change (is_connected (set_recv (recv s) (receiving_data s) (receiving_size s) h1 s))
    with (is_connected s). rewrite rinv_connected0. cbn [negb].
  cbn [receiving_data recv mem set_recv count_received]. cbv zeta.
  assert (rel h1 (recv s) p) as Hrel1.
  { eapply rel_loads; [|exact rinv_rel0]. by eapply loads_same_app_r. }
  assert (Forall2 (item_ok h1) (received s) ms) as Hitems1.
  { eapply items_loads; [|exact rinv_items0]. by eapply loads_same_app_l. }
  pose proof (block_bytes_min (block_factor s) ltac:(lia)) as Hbb.
  assert (block_bytes (block_factor s) <= 2 ^ 15) as Hbmax.
  { unfold block_bytes, TRAN_BUF_BLOCK_BASE_SIZE. rewrite Z.shiftl_mul_pow2 by lia.
    assert (2 ^ block_factor s <= 2 ^ 9) by (apply Z.pow_le_mono_r; lia).
    assert (0 < 2 ^ block_factor s) by (apply Z.pow_pos_nonneg; lia).
    rewrite wrapu_small; unfold in_u; lia. }
  rewrite Nat2Z.id.
  destruct (split_spec ext (S (length bytes)) (receiving_data s) (Z.of_nat (length bytes)) (recv s)
    p bytes h1 (item_handles (received s)) []) as
    (ok & r & items & h2 & -> & Hitems & Hsb & Ht & Ha2 & Hp); auto; try lia.
  assert (Forall2 (item_ok h2) (received s) ms) as Hitems2 by (by eapply items_ok_same).
  destruct ok.
  2: { cbn [mbind option_bind]. rewrite Hp. eexists; split; [done|]. split; [apply close_closed|]. by rewrite received_close. }
  rewrite <- item_handles_app in Ha2.
  set (s2 := set_recv r _ _ h2 _).
  change (receiving_size s2) with (receiving_size s - Z.of_nat (length bytes)).
  (* the environment after a possible new buffer, before the notifications *)
  assert (exists s3, (if receiving_size s - Z.of_nat (length bytes) =? 0
                      then reset_tran_buf s2 (Some (tran_buf r)) else Some (true, s2)) = Some (true, s3) /\
    loads_same h2 (mem s3) (item_handles (received s ++ items) ++ handles r) /\
    is_connected s3 = true /\ received s3 = received s /\ block_factor s3 = block_factor s /\
    rel (mem s3) (recv s3) (feed p bytes).1 /\ handles (recv s3) = handles r /\
    (exists b, blocks (mem s3) !! tran_buf (recv s3) = Some b /\
      Z.of_nat (length (b_data b)) = receiving_data s3 + receiving_size s3) /\
    (0 <= receiving_data s3 /\ 0 < receiving_size s3 /\
     receiving_data s3 + receiving_size s3 = block_bytes (block_factor s) - 8) /\
    receiving_data s3 = (if Z.of_nat (length bytes) =? receiving_size s then 0
                         else receiving_data s + Z.of_nat (length bytes)) /\
    acct ext (mem s3) (tran_buf (recv s3)) (receiving_data s3)
      (item_handles (received s ++ items) ++ handles r)) as
    (s3 & -> & Hl3 & Hc3 & Hrc3 & Hf3 & Hrel3 & Hh3 & Hb3 & Hroom3 & Hd3 & Ha3).
  { destruct (receiving_size s - Z.of_nat (length bytes) =? 0) eqn:E.
    - destruct (reset_tran_buf_spec ext s2 (feed p bytes).1 (received s ++ items))
        as (s3 & Hs3 & Hl3 & Hc3 & Hrc3 & Hf3 & Hrel3 & Hh3 & (b3 & Hb3 & Hlen3) & Hd3 & Hz3 & Ha3); auto.
      { simpl. rewrite Ht. exact Ha2. }
      change (recv s2) with r in *. change (block_factor s2) with (block_factor s) in *.
      exists s3. rewrite Hd3, Hz3. splits; auto; try lia.
      + exists b3. split; [done|lia].
      + by replace (Z.of_nat (length bytes) =? receiving_size s) with true by lia.
    - exists s2. splits; auto; simpl; try lia.
      + by intros x Hx.
      + rewrite Ht. specialize (Hsb (tran_buf (recv s))). rewrite Hb1 in Hsb. simpl in Hsb.
        destruct (blocks h2 !! tran_buf (recv s)) as [b2|]; [|done]. injection Hsb as Hsb.
        exists b2. split; [done|]. rewrite <- Hsb. lia.
      + by replace (Z.of_nat (length bytes) =? receiving_size s) with false by lia.
      + rewrite Ht. exact Ha2. }
  cbn [mbind option_bind].
  pose proof (try_start_receive_frame (set_receive_token TOKEN_FREE s3)) as Hfr.
  destruct (try_start_receive (set_receive_token TOKEN_FREE s3)) as [st s5]. simpl in Hfr.
  destruct Hfr as (Hst & Hrv & Hrd & Hrs & Hbf & _ & Hm & Hrc).
  assert (is_connected s5 = true) as Hc5.
  { unfold is_connected in *. by rewrite Hst. }
  change ([] ++ items) with items. exists (notify items s5). split; [done|].
  assert (rinv ext (notify items s5) (feed p bytes).1 (ms ++ (feed p bytes).2)) as Hinv.
  { pose proof (received_notify items s5 Hc5) as Hrn.
    rewrite notify_connected in * by done.
    constructor; cbn [mem recv receiving_data receiving_size block_factor status]; rewrite ?Hrn, ?Hm, ?Hrv, ?Hrd, ?Hrs, ?Hbf; auto.
    - rewrite Hf3. exact Hroom3.
    - by rewrite Hf3.
    - rewrite Hrc, Hh3. change (received (set_receive_token TOKEN_FREE s3)) with (received s3).
      rewrite Hrc3. exact Ha3.
    - rewrite Hrc. change (received (set_receive_token TOKEN_FREE s3)) with (received s3).
      rewrite Hrc3. eapply items_loads; [by eapply loads_same_app_l|].
      by apply Forall2_app. }
  assert (block_factor (notify items s5) = block_factor s /\
    receiving_data (notify items s5) = receiving_data s3) as [Hn1 Hn2].
  { rewrite notify_connected by done. simpl. rewrite Hbf, Hrd. split; [exact Hf3|done]. }
  rewrite Hn1, Hn2. destruct (feed p bytes).1 eqn:Ep; try done; splits; auto; by rewrite Ep in Hp.
Qed.

(** ** A connection from its start *)

(** The constructor: default flow controller (no limit), nothing queued. *)
Definition init (k : net_type) (f : Z) (h : heap) : state :=
  mkState k STATUS_INIT (mkRx ReadBuffer.init 0 (replicate header_size 0) 0 false 0) 0 0 f
    (mkTx [] 0 0 0 [] 0 0 0 None 0 None 0) (FlowController.mkState true (-1) true (-1)) 0 1 1
    TOKEN_FREE TOKEN_FREE 0 0 0 0 h [].

(** The reads of a connection, one per chunk; a closed socket delivers nothing. *)
Fixpoint read_all (chunks : list (list Z)) (s : state) : option state :=
  match chunks with
  | [] => Some s
  | c :: r => s' ← (if is_connected s then read_completes c s else Some s); read_all r s'
  end.

(** Each chunk fits in what is left of the transfer buffer of [cap] bytes. *)
Fixpoint fits (cap off : Z) (chunks : list (list Z)) : bool :=
  match chunks with
  | [] => true
  | c :: r =>
      let n := Z.of_nat (length c) in
      (n <=? cap - off) && fits cap (if n =? cap - off then 0 else off + n) r
  end.

(** The reference for a sequence of reads: a chunk that breaks the stream delivers nothing. *)
Fixpoint ref_reads (p : pstate) (chunks : list (list Z)) : pstate * list message :=
  match chunks with
  | [] => (p, [])
  | c :: r =>
      let '(p1, m1) := feed p c in
      match p1 with
      | PBroken => (PBroken, [])
      | _ => let '(p2, m2) := ref_reads p1 r in (p2, m1 ++ m2)
      end
  end.

Lemma ref_reads_negative p chunks : p = PNegative -> (ref_reads p chunks).1 = PNegative.
Proof.
  intros ->. induction chunks as [|c r IH]; [done|]. cbn [ref_reads].
  destruct (feed_stuck c) as [_ ->]. destruct (ref_reads PNegative r). done.
Qed.

Lemma closed_read_all chunks s : is_closed s = true -> read_all chunks s = Some s.
Proof.
  intros Hc. induction chunks as [|c r IH]; [done|]. simpl.
  assert (is_connected s = false) as ->; [|done].
  unfold is_closed, is_connected in *. apply bool_decide_eq_true in Hc. by rewrite Hc.
Qed.

Lemma read_all_spec ext s p ms chunks :
  (forall n, alloc_ok n = true) -> rinv ext s p ms ->
  fits (block_bytes (block_factor s) - 8) (receiving_data s) chunks = true ->
  (ref_reads p chunks).1 <> PNegative ->
  exists s', read_all chunks s = Some s' /\
    match (ref_reads p chunks).1 with
    | PBroken => is_closed s' = true /\
                 exists h, Forall2 (item_ok h) (received s') (ms ++ (ref_reads p chunks).2)
    | p' => rinv ext s' p' (ms ++ (ref_reads p chunks).2)
    end.
Proof.
  intros Hok. revert s p ms. induction chunks as [|c r IH]; intros s p ms Hinv Hfit Hneg.
  { exists s. simpl. rewrite app_nil_r. split; [done|].
    destruct p; try done; by destruct Hinv. }
  cbn [fits] in Hfit. cbv zeta in Hfit. apply andb_prop in Hfit as [Hc Hfit].
  pose proof (rinv_room _ _ _ _ Hinv) as (_ & _ & Hcap).
  cbn [ref_reads] in *. destruct (feed p c) as [p1 m1] eqn:Ef.
  destruct (read_completes_spec ext s p ms c Hok Hinv) as (s1 & Hs1 & Hp1); [lia| |].
  { rewrite Ef. simpl. intros ->. apply Hneg.
    pose proof (ref_reads_negative PNegative r eq_refl). by destruct (ref_reads PNegative r). }
  rewrite Ef in Hp1. simpl in Hp1. cbn [read_all].
  rewrite (rinv_connected _ _ _ _ Hinv), Hs1. simpl.
  assert (p1 <> PBroken ->
    rinv ext s1 p1 (ms ++ m1) /\ block_factor s1 = block_factor s /\
    receiving_data s1 = (if Z.of_nat (length c) =? receiving_size s then 0
                         else receiving_data s + Z.of_nat (length c)) ->
    (ref_reads p1 r).1 <> PNegative ->
    exists s', read_all r s1 = Some s' /\
      match (ref_reads p1 r).1 with
      | PBroken => is_closed s' = true /\
                   exists h, Forall2 (item_ok h) (received s') (ms ++ m1 ++ (ref_reads p1 r).2)
      | p' => rinv ext s' p' (ms ++ m1 ++ (ref_reads p1 r).2)
      end) as Hgo.
  { intros _ (Hinv1 & Hf1 & Hd1) Hneg1.
    destruct (IH s1 p1 (ms ++ m1) Hinv1) as (s' & Hs' & Hp'); [|done|].
    - rewrite Hf1, Hd1. replace (receiving_size s) with (block_bytes (block_factor s) - 8 - receiving_data s) by lia.
      exact Hfit.
    - exists s'. rewrite app_assoc. done. }
  destruct p1 as [acc|hdr acc| |].
  - destruct (ref_reads (PHeader acc) r) as [p2 m2] eqn:Er. simpl in *. by apply Hgo.
  - destruct (ref_reads (PBody hdr acc) r) as [p2 m2] eqn:Er. simpl in *. by apply Hgo.
  - simpl in *. destruct Hp1 as [Hcl Hrc]. rewrite closed_read_all by done.
    exists s1. split; [done|]. split; [done|]. exists (mem s). rewrite Hrc, app_nil_r.
    by destruct Hinv.
  - destruct (ref_reads PNegative r) as [p2 m2] eqn:Er. simpl in *. by apply Hgo.
Qed.

(** References to the blocks that were there before. *)
Definition ext_of (h : heap) (p : nat) : Z := from_option b_ref 0 (blocks h !! p).

(** What the receive path sees of a state. *)
Definition rview (s : state) :=
  (status s, recv s, receiving_data s, receiving_size s, block_factor s, mem s, received s).

Lemma rview_inv s s' :
  rview s' = rview s ->
  status s' = status s /\ recv s' = recv s /\ receiving_data s' = receiving_data s /\
  receiving_size s' = receiving_size s /\ block_factor s' = block_factor s /\
  mem s' = mem s /\ received s' = received s.
Proof. unfold rview. intros [= -> -> -> -> -> -> ->]. done. Qed.

Lemma rinv_rview ext s s' p ms : rview s' = rview s -> rinv ext s p ms -> rinv ext s' p ms.
Proof.
  intros (H1 & H2 & H3 & H4 & H5 & H6 & H7)%rview_inv [].
  unfold is_connected in *. constructor; rewrite ?H2, ?H3, ?H4, ?H5, ?H6, ?H7; auto.
  unfold is_connected. by rewrite H1.
Qed.

Lemma rview_emit s e : (forall i, e <> EvReceived i) -> rview (emit e s) = rview s.
Proof.
  intros He. unfold rview. rewrite received_emit. simpl.
  destruct e; rewrite ?app_nil_r; try done. by destruct (He i).
Qed.

Lemma try_start_receive_rview s : rview (try_start_receive s).2 = rview s.
Proof.
  pose proof (try_start_receive_frame s) as (H1 & H2 & H3 & H4 & H5 & _ & H7 & H8).
  unfold rview. by rewrite H1, H2, H3, H4, H5, H7, H8.
Qed.

Lemma send_loop_rview f n s b s' : send_loop f n s = Some (b, s') -> rview s' = rview s.
Proof.
  revert s. induction n as [|n IH]; intros s; [done|]. cbn [send_loop].
  destruct (is_connected s && _); [|by intros [= _ <-]]. cbv zeta.
  destruct (get_from_pending_queue _) as [[m|] t].
  - destruct (negb (f m)).
    { intros [= _ <-]. change (rview (emit (EvSendFailed (Some m)) (set_send t (set_send_token TOKEN_LOCK s))) = rview s).
      by rewrite rview_emit. }
    destruct (FlowController.acquire_write_quota _ _) as [q fl].
    destruct (q <=? 0); [by intros [= _ <-]|].
    destruct (next_block _ _) as [? t']. intros [= _ <-]. by rewrite rview_emit.
  - case_if; [by intros [= _ <-]|]. intros Hs. by rewrite (IH _ Hs).
Qed.

Lemma send_loop_some f n s :
  Z.of_nat (length (pending_calls (send s))) = pending_message_count (send s) -> (0 < n)%nat ->
  is_Some (send_loop f n s).
Proof.
  intros Hc Hn. destruct n as [|n]; [lia|]. cbn [send_loop].
  destruct (is_connected s && _); [|by eexists]. cbv zeta.
  unfold get_from_pending_queue. change (send (set_send_token TOKEN_LOCK s)) with (send s).
  destruct (swapped_calls (send s)) as [|m r] eqn:E1.
  - destruct (0 <? pending_message_count (send s)) eqn:E2.
    + destruct (pending_calls (send s)) as [|m r] eqn:E3; [simpl in Hc; lia|].
      cbn [swapped_calls swap_queues]. rewrite E3. cbv iota beta zeta.
      destruct (negb _); [by eexists|]. destruct (FlowController.acquire_write_quota _ _).
      case_if; [by eexists|]. destruct (next_block _ _). by eexists.
    + rewrite E1. cbv iota beta. replace (_ =? 0) with true by lia. by eexists.
  - rewrite E1. cbv iota beta zeta. destruct (negb _); [by eexists|].
    destruct (FlowController.acquire_write_quota _ _).
    case_if; [by eexists|]. destruct (next_block _ _). by eexists.
Qed.

(** The events are only added to. *)
Lemma try_start_receive_out s : exists l, out (try_start_receive s).2 = out s ++ l.
Proof.
  unfold try_start_receive. case_decide; [exists []; by rewrite app_nil_r|].
  case_if; [exists []; by rewrite app_nil_r|]. destruct (_ && _); [exists []; by rewrite app_nil_r|].
  destruct (is_connected s); [|exists []; by rewrite app_nil_r].
  destruct (FlowController.acquire_read_quota _ _). case_if; [exists []; by rewrite app_nil_r|].
  by eexists.
Qed.

Lemma send_loop_out f n s b s' : send_loop f n s = Some (b, s') -> exists l, out s' = out s ++ l.
Proof.
  assert (exists l, out s = out s ++ l) as Hnil by (exists []; by rewrite app_nil_r).
  revert s Hnil. induction n as [|n IH]; intros s Hnil; [done|]. cbn [send_loop].
  destruct (is_connected s && _); [|by intros [= _ <-]]. cbv zeta.
  destruct (get_from_pending_queue _) as [[m|] t].
  - destruct (negb (f m)); [intros [= _ <-]; by eexists|].
    destruct (FlowController.acquire_write_quota _ _) as [q fl].
    destruct (q <=? 0); [by intros [= _ <-]|].
    destruct (next_block _ _) as [? t']. intros [= _ <-]. by eexists.
  - case_if; [by intros [= _ <-]|]. intros Hs. apply IH in Hs; [exact Hs|exact Hnil].
Qed.

Lemma trigger_send_frame s :
  Z.of_nat (length (pending_calls (send s))) = pending_message_count (send s) ->
  exists b s', trigger_send (fun _ => true) s = Some (b, s') /\ rview s' = rview s /\
    exists l, out s' = out s ++ l.
Proof.
  intros Hc. assert (exists l, out s = out s ++ l) as Hnil by (exists []; by rewrite app_nil_r).
  unfold trigger_send, try_start_send.
  case_decide; [by exists false, (set_write_quota (flow s) 1 s)|].
  case_if; [by exists false, (set_write_quota (flow s) 1 s)|].
  destruct (send_loop_some (fun _ => true) 2 (set_write_quota (flow s) 1 s)) as [[b3 s3] H3];
    [exact Hc|lia|].
  exists b3, s3. split; [exact H3|]. split; [by rewrite (send_loop_rview _ _ _ _ _ H3)|].
  by apply send_loop_out in H3.
Qed.

Lemma connect_spec k f h :
  (forall n, alloc_ok n = true) -> good_heap h -> 0 <= f <= 9 ->
  exists s, set_socket_connected (fun _ => true) (init k f h) None = Some s /\
    rinv (ext_of h) s (PHeader []) [] /\ receiving_data s = 0 /\ block_factor s = f.
Proof.
  intros Hok Hg Hf.
  destruct (malloc_acct (ext_of h) h [] f) as (h1 & b & Hm & _ & Ha & Hb & Hcap & Hlen); auto.
  { intros p b Hb. destruct (Hg p b Hb) as [Hlt Hgb]. splits; auto.
    unfold ext_of. rewrite Hb. unfold cnt. simpl. lia. }
  { intros p. unfold ext_of. destruct (blocks h !! p) as [b|] eqn:E; simpl; [|lia].
    apply Hg in E as [_ [_ ?]]. lia. }
  { intros p Hp. unfold ext_of. by rewrite good_heap_fresh. }
  { by intros x Hx%elem_of_nil. }
  pose proof (block_bytes_min f ltac:(lia)) as Hbb.
  unfold set_socket_connected.
  destruct (session_on_connected (init k f h) None) as [[ok s1]|] eqn:E1.
  2: { exfalso. revert E1. unfold session_on_connected, on_connected, reset_tran_buf. simpl.
       rewrite Hm. simpl. by rewrite Hcap. }
  revert E1. unfold session_on_connected, on_connected, reset_tran_buf. simpl.
  rewrite Hm. simpl. rewrite Hcap. simpl. intros [= <- <-]. cbn [negb mbind option_bind].
  match goal with |- context [set_status STATUS_CONNECTED ?x] => set (s1 := set_status STATUS_CONNECTED x) end.
  assert (rinv (ext_of h) s1 (PHeader []) []) as Hinv.
  { constructor; try done.
    - apply (reset_rel (mkRx ReadBuffer.init 0 (replicate header_size 0) 0 false 0)).
      reflexivity.
    - exists b. split; [exact Hb|]. simpl. lia.
    - simpl. splits; lia. }
  assert (receiving_data s1 = 0 /\ block_factor s1 = f /\ send s1 = send (init k f h)) as (Hd & Hbf & Hsd)
    by done.
  clearbody s1. unfold trigger_receive.
  pose proof (try_start_receive_rview (set_read_quota (flow s1) 1 s1)) as Hr.
  pose proof (try_start_receive_frame (set_read_quota (flow s1) 1 s1)) as (_ & _ & _ & _ & _ & Hs2 & _).
  destruct (try_start_receive (set_read_quota (flow s1) 1 s1)) as [b2 s2]. cbn [snd] in *.
  destruct (trigger_send_frame s2) as (b3 & s3 & -> & Hr3 & _).
  { rewrite Hs2. cbn [send set_read_quota]. by rewrite Hsd. }
  rewrite Hr in Hr3. change (rview (set_read_quota (flow s1) 1 s1)) with (rview s1) in Hr3.
  cbn [mbind option_bind]. exists s3.
  splits; [done|by eapply rinv_rview| |]; apply rview_inv in Hr3; destruct Hr3 as (_ & _ & H3 & _ & H5 & _).
  - by rewrite H3.
  - by rewrite H5.
Qed.

(** C2: the receive path implements the byte-by-byte parser.  From a fresh connection,
    whatever the transfer buffer size and however the bytes that arrive are cut into reads
    (which fit the buffer), as long as no header has a negative size: every read completes,
    the connection is closed exactly when a chunk contains a wrong magic number, and the
    messages delivered are, in order, those the parser emits, with the meta and data sizes of
    their headers; their zero-copy buffers still hold the bytes when all reads are done. *)
Theorem reads_refine_parser (k : net_type) (f : Z) (h : heap) (chunks : list (list Z)) :
  (forall n, alloc_ok n = true) -> good_heap h -> 0 <= f <= 9 ->
  fits (block_bytes f - 8) 0 chunks = true ->
  (ref_reads (PHeader []) chunks).1 <> PNegative ->
  exists s s', set_socket_connected (fun _ => true) (init k f h) None = Some s /\
    read_all chunks s = Some s' /\
    (is_closed s' = true <-> (ref_reads (PHeader []) chunks).1 = PBroken) /\
    (exists h', Forall2 (item_ok h') (received s') (ref_reads (PHeader []) chunks).2 /\
                (is_closed s' = false -> h' = mem s')).
Proof.
  intros Hok Hg Hf Hfit Hneg. destruct (connect_spec k f h Hok Hg Hf) as (s & Hs & Hinv & Hd & Hbf).
  destruct (read_all_spec _ s _ [] chunks Hok Hinv) as (s' & Hs' & Hp).
  { by rewrite Hbf, Hd. } { done. }
  exists s, s'. splits; [done|done| |].
  - destruct (ref_reads (PHeader []) chunks).1; try (by destruct Hp);
      destruct Hp; unfold is_closed, is_connected in *; apply bool_decide_eq_true in rinv_connected0;
      rewrite rinv_connected0; by split.
  - rewrite app_nil_l in Hp. destruct (ref_reads (PHeader []) chunks).1;
      try (by exists (mem s'); split; [by destruct Hp|]).
    destruct Hp as (Hc & h' & HF). exists h'. split; [done|]. by rewrite Hc.
Qed.

(** C1: no message is lost, merged, split or changed by the network's fragmentation: when the
    bytes of a sequence of messages arrive in any chunks, exactly these messages are delivered,
    in order, and their buffers read back as sent. *)
Theorem frames_survive_any_chunking (k : net_type) (f : Z) (h : heap) (ms : list message)
    (chunks : list (list Z)) :
  (forall n, alloc_ok n = true) -> good_heap h -> 0 <= f <= 9 ->
  Forall good_message ms -> concat chunks = concat (frame <$> ms) ->
  fits (block_bytes f - 8) 0 chunks = true ->
  exists s s', set_socket_connected (fun _ => true) (init k f h) None = Some s /\
    read_all chunks s = Some s' /\ is_connected s' = true /\
    Forall2 (fun i m => ReadBuffer.ToString (item_message i) (mem s') = Some (m_bytes m) /\
                        item_meta_size i = m_meta_size m /\ item_data_size i = m_data_size m)
      (received s') ms.
Proof.
  intros Hok Hg Hf Hms Hcc Hfit.
  assert (forall p chunks, (feed p (concat chunks)).1 <> PBroken ->
    ref_reads p chunks = feed p (concat chunks)) as Href.
  { clear. intros p chunks. revert p. induction chunks as [|c r IH]; intros p Hp; [done|].
    cbn [ref_reads concat] in *. rewrite feed_app in *. simpl in Hp.
    destruct (feed p c) as [p1 m1]. simpl in *.
    assert (p1 <> PBroken) as Hp1.
    { intros ->. apply Hp. destruct (feed_stuck (concat r)) as [-> _]. done. }
    rewrite (IH p1 Hp). destruct (feed p1 (concat r)). by destruct p1. }
  pose proof (feed_frames ms Hms) as Hfeed. rewrite <- Hcc in Hfeed.
  assert (ref_reads (PHeader []) chunks = (PHeader [], ms)) as Hr.
  { rewrite Href; rewrite Hfeed; done. }
  destruct (connect_spec k f h Hok Hg Hf) as (s & Hs & Hinv & Hd & Hbf).
  destruct (read_all_spec _ s _ [] chunks Hok Hinv) as (s' & Hs' & Hp).
  { by rewrite Hbf, Hd. } { by rewrite Hr. }
  rewrite Hr in Hp. simpl in Hp. exists s, s'. destruct Hp. splits; auto.
  eapply Forall2_impl; [exact rinv_items0|]. intros i m (Hh & H1 & H2).
  splits; auto. by apply holds_ToString.
Qed.

(** ** The send path *)

Definition queue (t : tx) : list ReadBuffer.state := swapped_calls t ++ pending_calls t.

Definition total_count (l : list ReadBuffer.state) : Z :=
  foldr (fun m z => ReadBuffer.TotalCount m + z) 0 l.

Lemma total_count_app l1 l2 : total_count (l1 ++ l2) = total_count l1 + total_count l2.
Proof. induction l1; simpl; lia. Qed.

(** The queued messages hold the contents [cs], none empty; the counters count them. *)
Definition queue_ok (h : heap) (t : tx) (cs : list (list Z)) : Prop :=
  Forall2 (fun m c => holds h m c /\ c <> []) (queue t) cs /\
  pending_message_count t = Z.of_nat (length (pending_calls t)) /\
  swapped_message_count t = Z.of_nat (length (swapped_calls t)) /\
  pending_data_size t = total_count (pending_calls t) /\
  swapped_data_size t = total_count (swapped_calls t).

(** The bytes of the message in flight that the kernel has not taken yet. *)
Definition in_flight (h : heap) (t : tx) (fl : list Z) : Prop :=
  exists m v chunks b, sending_message t = Some m /\ sending_data t = Some v /\
    sending_size t = ReadBuffer.v_size v /\ 0 < ReadBuffer.v_size v /\
    ReadBuffer.good m h chunks /\ ReadBuffer.load_view v h = Some b /\
    fl = b ++ drop (Z.to_nat (ReadBuffer.read_bytes m)) (concat chunks).

(** [todo] are the bytes that are still to be written. *)
Definition sinv (s : state) (todo : list Z) : Prop :=
  is_connected s = true /\ exists cs fl, queue_ok (mem s) (send s) cs /\ todo = fl ++ concat cs /\
    match send_token s with
    | TOKEN_FREE => fl = [] /\ (0 < write_quota_token s -> cs = [])
    | TOKEN_LOCK => in_flight (mem s) (send s) fl
    end.

Lemma holds_next h m c :
  holds h m c -> c <> [] ->
  exists v m' chunks b, ReadBuffer.Next m = (Some v, m') /\ 0 < ReadBuffer.v_size v /\
    ReadBuffer.good m' h chunks /\ ReadBuffer.load_view v h = Some b /\
    c = b ++ drop (Z.to_nat (ReadBuffer.read_bytes m')) (concat chunks).
Proof.
  intros (chunks & Hg & <- & Hrd & _) Hne.
  pose proof (ReadBuffer.Next_spec m h chunks Hg) as HN. cbv zeta in HN.
  destruct (ReadBuffer.Next m) as [[v|] m'].
  - destruct HN as (Hg' & Hpos & _ & Hr & Hl). rewrite Hrd in *. simpl in Hl.
    exists v, m', chunks, (take (Z.to_nat (ReadBuffer.v_size v)) (concat chunks)).
    rewrite drop_0 in Hl. splits; auto. rewrite Hr, Z.add_0_l. by rewrite take_drop.
  - destruct HN as (_ & _ & _ & Hend). destruct Hg as (_ & Ht & _). rewrite Hrd, Ht in Hend.
    destruct (concat chunks); [done|]. simpl in Hend. lia.
Qed.

Lemma holds_TotalCount h m c : holds h m c -> ReadBuffer.TotalCount m = Z.of_nat (length c).
Proof. intros (chunks & (_ & Ht & _) & <- & _). exact Ht. Qed.

(** Getting a message: the front of the queue, whichever deque it is in. *)
Lemma get_spec h t cs :
  queue_ok h t cs ->
  match get_from_pending_queue t, cs with
  | (Some m, t'), c :: cs' => holds h m c /\ c <> [] /\ queue_ok h t' cs' /\ sending_message t' = Some m /\
      queue t = m :: queue t'
  | (None, t'), [] => queue_ok h t' [] /\ pending_message_count t' = 0
  | _, _ => False
  end.
Proof.
  intros (HF & H1 & H2 & H3 & H4). unfold get_from_pending_queue, queue in *.
  destruct (swapped_calls t) as [|m r] eqn:Es; simpl in *.
  - destruct (pending_calls t) as [|m r] eqn:Ep; simpl in *.
    + destruct (0 <? pending_message_count t) eqn:E0; [lia|].
      rewrite Es. destruct cs; [|by inversion HF]. split; [|done].
      unfold queue_ok, queue. rewrite Es, Ep. splits; auto.
    + replace (0 <? pending_message_count t) with true by lia. simpl. rewrite Ep.
      apply Forall2_cons_inv_l in HF as (c & cs' & [Hm Hc] & HF & ->).
      unfold queue_ok, queue. simpl. rewrite Es, app_nil_r. simpl in *. splits; auto; lia.
  - apply Forall2_cons_inv_l in HF as (c & cs' & [Hm Hc] & HF & ->).
    rewrite Es. simpl. unfold queue_ok, queue. simpl in *. splits; auto; lia.
Qed.

Lemma queue_ok_frame h t t' cs :
  queue_ok h t cs -> pending_calls t' = pending_calls t -> swapped_calls t' = swapped_calls t ->
  pending_message_count t' = pending_message_count t ->
  swapped_message_count t' = swapped_message_count t ->
  pending_data_size t' = pending_data_size t -> swapped_data_size t' = swapped_data_size t ->
  queue_ok h t' cs.
Proof. unfold queue_ok, queue. by intros Hq -> -> -> -> -> ->. Qed.

(** Trying to send with the token free: every byte stays accounted for, and if the token
    stays free with quota left there is nothing to send. *)
Lemma try_start_send_spec s cs :
  is_connected s = true -> send_token s = TOKEN_FREE -> queue_ok (mem s) (send s) cs ->
  exists b s', try_start_send (fun _ => true) s = Some (b, s') /\ sinv s' (concat cs) /\
    mem s' = mem s.
Proof.
  intros Hc Ht Hq. unfold try_start_send. rewrite Ht. rewrite decide_False by done.
  destruct (write_quota_token s <=? 0) eqn:Ew.
  { exists false, s. splits; auto. split; [done|]. exists cs, []. splits; auto. rewrite Ht.
    split; [done|lia]. }
  cbn [send_loop]. rewrite Hc, bool_decide_true by done. cbn [andb]. cbv zeta.
  change (send (set_send_token TOKEN_LOCK s)) with (send s).
  pose proof (get_spec _ _ _ Hq) as Hg. destruct (get_from_pending_queue (send s)) as [[m|] t].
  - destruct cs as [|c cs]; [done|]. destruct Hg as (Hm & Hne & Hq' & Hsm & _). cbn [negb].
    destruct (FlowController.acquire_write_quota _ _) as [q fl] eqn:Eq.
    destruct (q <=? 0) eqn:E.
    + eexists _, _. splits; [done| |done]. split; [exact Hc|].
      exists (c :: cs), []. splits; [|done|simpl; split; [done|lia]].
      destruct Hq' as (HF & H1 & H2 & H3 & H4). unfold queue_ok, queue in *. simpl.
      splits; auto; lia.
    + destruct (holds_next _ _ _ Hm Hne) as (v & m' & chunks & b & HN & Hpos & Hg' & Hl & Hcc).
      unfold next_block. rewrite HN. eexists _, _. splits; [done| |done]. split; [exact Hc|].
      exists cs, c. splits; [|done|].
      * simpl. by eapply queue_ok_frame.
      * simpl. exists m', v, chunks, b. by splits.
  - destruct cs as [|c cs]; [|done]. destruct Hg as [Hq' H0]. rewrite H0. simpl.
    eexists _, _. splits; [done| |done]. split; [exact Hc|]. exists [], []. by splits.
Qed.

Lemma put_queue_ok h t cs m c :
  queue_ok h t cs -> holds h m c -> c <> [] -> queue_ok h (put_into_pending_queue m t) (cs ++ [c]).
Proof.
  intros (HF & H1 & H2 & H3 & H4) Hm Hc. unfold queue_ok, queue in *. simpl. splits; auto.
  - rewrite app_assoc. apply Forall2_app; [done|]. by repeat constructor.
  - rewrite length_app. simpl. lia.
  - rewrite H3, total_count_app. simpl. lia.
Qed.

Lemma async_send_spec s todo m c :
  sinv s todo -> holds (mem s) m c -> c <> [] ->
  exists s', async_send_message (fun _ => true) m s = Some s' /\ sinv s' (todo ++ c) /\ mem s' = mem s.
Proof.
  intros (Hc & cs & fl & Hq & -> & Hfl) Hm Hne. unfold async_send_message.
  assert (is_closed s = false) as ->.
  { unfold is_connected, is_closed in *. apply bool_decide_eq_true in Hc. by rewrite Hc. }
  pose proof (put_queue_ok _ _ _ _ _ Hq Hm Hne) as Hq'.
  destruct (send_token s) eqn:Et.
  - destruct Hfl as [-> _].
    destruct (try_start_send_spec (set_send (put_into_pending_queue m (send s)) s) (cs ++ [c]))
      as (b & s' & -> & Hs' & Hm'); [done|done|done|].
    exists s'. simpl. splits; [done| |done]. by rewrite concat_app in Hs'; simpl in Hs'; rewrite app_nil_r in Hs'.
  - unfold try_start_send. simpl. rewrite Et. simpl.
    eexists; splits; [done| |done]. split; [done|]. exists (cs ++ [c]), fl. simpl. rewrite Et.
    splits; auto. rewrite concat_app. simpl. by rewrite app_nil_r, app_assoc.
Qed.

(** A completed write of [n] bytes of the current block. *)
Lemma on_write_some_spec s todo n :
  sinv s todo -> send_token s = TOKEN_LOCK -> 0 < n <= sending_size (send s) ->
  exists v bytes s', sending_data (send s) = Some v /\
    load (ReadBuffer.v_data v) (ReadBuffer.v_off v) n (mem s) = Some bytes /\
    on_write_some (fun _ => true) false n s = Some s' /\ mem s' = mem s /\
    exists todo', todo = bytes ++ todo' /\ sinv s' todo'.
Proof.
  intros (Hc & cs & fl & Hq & -> & Hfl) Ht Hn. rewrite Ht in Hfl.
  destruct Hfl as (m & v & chunks & b & Hsm & Hsd & Hsz & Hpos & Hg & Hl & ->).
  unfold ReadBuffer.load_view in Hl.
  pose proof (ReadBuffer.load_length _ _ _ _ _ Hl) as Hbl.
  assert (load (ReadBuffer.v_data v) (ReadBuffer.v_off v) n (mem s) = Some (take (Z.to_nat n) b)) as Hln.
  { pose proof (load_sub _ _ _ _ _ 0 n Hl ltac:(lia) ltac:(lia) ltac:(lia)) as H'.
    by rewrite Z.add_0_r, drop_0 in H'. }
  exists v, (take (Z.to_nat n) b). unfold on_write_some. rewrite Hc. cbn [negb]. cbv zeta.
  set (s1 := count_sent n _).
  assert (queue_ok (mem s) (send s1) cs) as Hq1 by (by eapply queue_ok_frame).
  change (sending_size (send s1)) with (sending_size (send s)).
  change (sending_message (send s1)) with (sending_message (send s)).
  destruct (n =? sending_size (send s)) eqn:En.
  - rewrite Hsm. cbn [mbind option_bind]. rewrite (take_ge b) by lia.
    pose proof (ReadBuffer.Next_spec m (mem s) chunks Hg) as HN. cbv zeta in HN.
    unfold next_block. destruct (ReadBuffer.Next m) as [[v'|] m'].
    + destruct HN as (Hg' & Hpos' & _ & Hr & Hl').
      eexists. splits; [done|by rewrite Hln, take_ge by lia|done|done|].
      eexists. split; [by rewrite <- app_assoc|]. split; [exact Hc|].
      eexists cs, _. splits; [simpl; by eapply queue_ok_frame|reflexivity|]. simpl. rewrite Ht.
      pose proof (ReadBuffer.good_range _ _ _ Hg) as Hrange.
      eexists m', v', chunks, _. splits; [done|done|done|done|done|exact Hl'|].
      rewrite Hr, Z2Nat.inj_add by lia. rewrite <- drop_drop. by rewrite take_drop.
    + destruct HN as (Hg' & _ & Hr & Hend).
      set (s2 := set_send_token TOKEN_FREE _).
      destruct (try_start_send_spec s2 cs) as (bb & s3 & -> & Hs3 & Hm3);
        [exact Hc|done|by eapply queue_ok_frame|].
      cbn [mbind option_bind].
      assert (drop (Z.to_nat (ReadBuffer.read_bytes m)) (concat chunks) = []) as Hnil.
      { apply drop_ge. destruct Hg as (_ & Htb & _). lia. }
      eexists. splits; [done|by rewrite Hln, take_ge by lia|done| |].
      * case_bool_decide; [|exact Hm3].
        by destruct (try_start_receive_frame s3) as (_ & _ & _ & _ & _ & _ & -> & _).
      * exists (concat cs). rewrite Hnil, app_nil_r. split; [done|].
        case_bool_decide; [|exact Hs3].
        clear -Hs3. unfold try_start_receive.
        case_decide; [exact Hs3|]. case_if; [exact Hs3|]. destruct (_ && _); [exact Hs3|].
        destruct (is_connected s3); [|exact Hs3].
        destruct (FlowController.acquire_read_quota _ _). case_if; exact Hs3.
  - eexists. splits; [done|exact Hln|done|done|].
    exists ((drop (Z.to_nat n) b ++ drop (Z.to_nat (ReadBuffer.read_bytes m)) (concat chunks)) ++ concat cs).
    split; [by rewrite <- !app_assoc, (app_assoc (take _ _)), take_drop|].
    split; [exact Hc|]. eexists cs, _. splits; [simpl; by eapply queue_ok_frame|reflexivity|].
    simpl. rewrite Ht. eexists m, (ReadBuffer.mkView _ _ _), chunks, _. simpl. rewrite Hsd. simpl.
    splits; [done|reflexivity|by rewrite Hsz|simpl; lia|done| |reflexivity].
    unfold ReadBuffer.load_view. simpl. apply ReadBuffer.load_drop; [done|lia].
Qed.

Lemma trigger_send_spec s todo :
  sinv s todo -> exists b s', trigger_send (fun _ => true) s = Some (b, s') /\ sinv s' todo.
Proof.
  intros (Hc & cs & fl & Hq & -> & Hfl). unfold trigger_send.
  destruct (send_token s) eqn:Et.
  - destruct Hfl as [-> _].
    destruct (try_start_send_spec (set_write_quota (flow s) 1 s) cs) as (b & s' & Hs & Hi & _);
      [exact Hc|exact Et|exact Hq|]. by exists b, s'.
  - unfold try_start_send. rewrite decide_True by exact Et.
    eexists _, _. split; [reflexivity|]. split; [exact Hc|]. exists cs, fl.
    change (send_token (set_write_quota (flow s) 1 s)) with (send_token s). rewrite Et. by splits.
Qed.

(** Runs of the send path: [s_run s wire sent] when messages with contents [sent] were
    handed to [async_send_message] and the bytes [wire] went out.  In between, quotas are
    recharged, sending is triggered, and the rest of the connection does what it does as
    long as it leaves the queued buffers alone. *)
Inductive s_run : state -> list Z -> list (list Z) -> Prop :=
  | run_start s :
      is_connected s = true -> send_token s = TOKEN_FREE -> queue_ok (mem s) (send s) [] ->
      s_run s [] []
  | run_send s wire sent m c s' :
      s_run s wire sent -> holds (mem s) m c -> c <> [] ->
      async_send_message (fun _ => true) m s = Some s' -> s_run s' wire (sent ++ [c])
  | run_written s wire sent n v bytes s' :
      s_run s wire sent -> send_token s = TOKEN_LOCK -> 0 < n <= sending_size (send s) ->
      sending_data (send s) = Some v ->
      load (ReadBuffer.v_data v) (ReadBuffer.v_off v) n (mem s) = Some bytes ->
      on_write_some (fun _ => true) false n s = Some s' -> s_run s' (wire ++ bytes) sent
  | run_trigger s wire sent b s' :
      s_run s wire sent -> trigger_send (fun _ => true) s = Some (b, s') -> s_run s' wire sent
  | run_environment s wire sent s' :
      s_run s wire sent -> is_connected s' = true -> send s' = send s ->
      send_token s' = send_token s -> write_quota_token s' = write_quota_token s ->
      (forall p off len bytes, load p off len (mem s) = Some bytes -> load p off len (mem s') = Some bytes) ->
      s_run s' wire sent.

Lemma good_more_loads h h' m chunks :
  (forall p off len bytes, load p off len h = Some bytes -> load p off len h' = Some bytes) ->
  ReadBuffer.good m h chunks -> ReadBuffer.good m h' chunks.
Proof.
  intros Hl [HF Hg]. split; [|done]. eapply Forall2_impl; [exact HF|].
  intros x c [Hx Hne]. split; [by apply Hl|done].
Qed.

Lemma s_run_sinv s wire sent :
  s_run s wire sent -> exists todo, sinv s todo /\ wire ++ todo = concat sent.
Proof.
  induction 1 as [s Hc Ht Hq|s wire sent m c s' Hr IH Hm Hne Hs|s wire sent n v bytes s' Hr IH Ht Hn Hv Hb Hs
    |s wire sent b s' Hr IH Hs|s wire sent s' Hr IH Hc Hsd Ht Hw Hl].
  - exists []. split; [|done]. split; [done|]. exists [], []. rewrite Ht. by splits.
  - destruct IH as (todo & Hi & Hw). destruct (async_send_spec s todo m c Hi Hm Hne) as (s2 & H2 & Hi2 & _).
    rewrite Hs in H2. injection H2 as <-. exists (todo ++ c). split; [done|].
    rewrite concat_app. simpl. by rewrite app_nil_r, app_assoc, Hw.
  - destruct IH as (todo & Hi & Hw).
    destruct (on_write_some_spec s todo n Hi Ht Hn) as (v2 & b2 & s2 & Hv2 & Hb2 & Hs2 & _ & todo' & -> & Hi2).
    simplify_eq. exists todo'. split; [done|]. by rewrite <- app_assoc.
  - destruct IH as (todo & Hi & Hw). destruct (trigger_send_spec s todo Hi) as (b2 & s2 & H2 & Hi2).
    rewrite Hs in H2. injection H2 as <- <-. by exists todo.
  - destruct IH as (todo & (_ & cs & fl & Hq & -> & Hfl) & Hww).
    exists (fl ++ concat cs). split; [|done]. split; [done|]. exists cs, fl. rewrite Hsd, Ht, Hw.
    splits; auto.
    + destruct Hq as (HF & Hq). split; [|done]. eapply Forall2_impl; [exact HF|].
      intros m c [(chunks & Hg & Hc') Hne]. split; [|done]. exists chunks. split; [|done].
      by eapply good_more_loads.
    + destruct (send_token s); [done|].
      destruct Hfl as (m & v & chunks & b & H1 & H2 & H3 & H4 & H5 & H6 & H7).
      exists m, v, chunks, b. splits; auto; [by eapply good_more_loads|by apply Hl].
Qed.

(** C3: the send path writes the messages in the order they were handed in, each byte once:
    in every run, whatever the flow control does and however the kernel splits the writes,
    what went out followed by what is still to do is the concatenation of the messages; when
    nothing is in flight and there is write quota, everything went out (a message is never
    stuck); the next send and the next write completion are always well defined; and the
    counters count the queued messages and their bytes. *)
Theorem send_path_in_order (s : state) (wire : list Z) (sent : list (list Z)) :
  s_run s wire sent ->
  (exists todo, wire ++ todo = concat sent /\
     (send_token s = TOKEN_FREE -> 0 < write_quota_token s -> todo = [])) /\
  (forall m c, holds (mem s) m c -> c <> [] -> is_Some (async_send_message (fun _ => true) m s)) /\
  (forall n, send_token s = TOKEN_LOCK -> 0 < n <= sending_size (send s) ->
     is_Some (on_write_some (fun _ => true) false n s)) /\
  pending_message_total s = Z.of_nat (length (queue (send s))) /\
  pending_data_total s = total_count (queue (send s)).
Proof.
  intros Hr. destruct (s_run_sinv _ _ _ Hr) as (todo & Hi & Hw). splits.
  - exists todo. split; [done|]. intros Ht Hq. destruct Hi as (_ & cs & fl & _ & -> & Hfl).
    rewrite Ht in Hfl. destruct Hfl as [-> Hcs]. by rewrite (Hcs Hq).
  - intros m c Hm Hne. destruct (async_send_spec s todo m c Hi Hm Hne) as (s' & H' & _). by exists s'.
  - intros n Ht Hn. destruct (on_write_some_spec s todo n Hi Ht Hn) as (? & ? & s' & _ & _ & H' & _).
    by exists s'.
  - destruct Hi as (_ & cs & fl & (_ & H1 & H2 & _) & _). unfold pending_message_total, queue.
    rewrite length_app. lia.
  - destruct Hi as (_ & cs & fl & (_ & _ & _ & H3 & H4) & _). unfold pending_data_total, queue.
    rewrite H3, H4, total_count_app. lia.
Qed.

End WithAllocator.

Definition test_allocator : Allocator := {| alloc_ok := fun _ => true; junk := fun _ _ => 0 |}.

(** A valid message in two pieces, then garbage. *)
Definition two_pieces (m : message) : list (list Z) :=
  [take 30 (frame m); drop 30 (frame m); replicate 24 7].

Lemma reads_refine_parser_witness :
  let m := mkMessage 4 6 [1; 2; 3; 4; 5; 6; 7; 8; 9; 10] in
  exists s s', @set_socket_connected test_allocator (fun _ => true) (init NT_SERVER 1 (mkHeap ∅ 0)) None = Some s /\
    @read_all test_allocator (two_pieces m) s = Some s' /\ is_closed s' = true /\
    exists h', Forall2 (item_ok h') (received s') [m].
Proof.
  cbv zeta.
  destruct (@reads_refine_parser test_allocator NT_SERVER 1 (mkHeap ∅ 0)
    (two_pieces (mkMessage 4 6 [1; 2; 3; 4; 5; 6; 7; 8; 9; 10]))) as (s & s' & Hs & Hs' & Hc & h' & Hh & _).
  - reflexivity.
  - apply map_Forall_empty.
  - lia.
  - reflexivity.
  - vm_compute. discriminate.
  - exists s, s'. splits; [exact Hs|exact Hs'| |].
    + apply Hc. vm_compute. reflexivity.
    + exists h'. exact Hh.
Defined.

Lemma frames_survive_any_chunking_witness :
  let m1 := mkMessage 4 6 [1; 2; 3; 4; 5; 6; 7; 8; 9; 10] in
  let m2 := mkMessage 0 0 [] in
  exists s s', @set_socket_connected test_allocator (fun _ => true) (init NT_CLIENT 1 (mkHeap ∅ 0)) None = Some s /\
    @read_all test_allocator [take 3 (frame m1); drop 3 (frame m1) ++ take 5 (frame m2); drop 5 (frame m2)] s
      = Some s' /\ is_connected s' = true /\ length (received s') = 2%nat.
Proof.
  cbv zeta. set (m1 := mkMessage 4 6 _). set (m2 := mkMessage 0 0 []).
  destruct (@frames_survive_any_chunking test_allocator NT_CLIENT 1 (mkHeap ∅ 0) [m1; m2]
    [take 3 (frame m1); drop 3 (frame m1) ++ take 5 (frame m2); drop 5 (frame m2)])
    as (s & s' & Hs & Hs' & Hc & HF).
  - reflexivity.
  - apply map_Forall_empty.
  - lia.
  - repeat constructor; simpl; unfold in_s; lia.
  - vm_compute. reflexivity.
  - vm_compute. reflexivity.
  - exists s, s'. splits; [exact Hs|exact Hs'|exact Hc|].
    exact (Forall2_length _ _ _ HF).
Defined.

(** A connected stream and a message of four bytes; the kernel takes three. *)
Definition demo_message : ReadBuffer.state := ReadBuffer.mkState [mkHandle 0 4 0] 12 4 0 0 0 0.
Definition demo_state : state :=
  set_status STATUS_CONNECTED (init NT_CLIENT 0 (mkHeap {[0%nat := mkBlock 12 1 [1; 2; 3; 4]]} 1)).

Lemma demo_holds : holds (mem demo_state) demo_message [1; 2; 3; 4].
Proof.
  exists [[1; 2; 3; 4]]. splits; try done. unfold ReadBuffer.good. simpl. splits; try lia; auto.
Qed.

Lemma send_path_in_order_witness :
  exists s1 s2, @async_send_message (fun _ => true) demo_message demo_state = Some s1 /\
    on_write_some (fun _ => true) false 3 s1 = Some s2 /\ send_token s2 = TOKEN_LOCK /\
    (exists todo, [1; 2; 3] ++ todo = [1; 2; 3; 4]) /\ pending_message_total s2 = 0.
Proof.
  destruct (async_send_message (fun _ => true) demo_message demo_state) as [s1|] eqn:E1;
    [|vm_compute in E1; discriminate].
  assert (s_run s1 [] [[1; 2; 3; 4]]) as Hr1.
  { apply (run_send demo_state [] [] demo_message [1; 2; 3; 4]);
      [|exact demo_holds|discriminate|exact E1].
    apply run_start; [reflexivity|reflexivity|].
    unfold queue_ok, queue. simpl. splits; try done. }
  pose proof E1 as E1'. vm_compute in E1'. injection E1' as E1'.
  destruct (on_write_some (fun _ => true) false 3 s1) as [s2|] eqn:E2;
    [|rewrite <- E1' in E2; vm_compute in E2; discriminate].
  assert (s_run s2 [1; 2; 3] [[1; 2; 3; 4]]) as Hr2.
  { apply (run_written s1 [] [[1; 2; 3; 4]] 3 (ReadBuffer.mkView 0 0 4) [1; 2; 3] s2 Hr1);
      [rewrite <- E1'; reflexivity|rewrite <- E1'; simpl; lia|rewrite <- E1'; reflexivity
      |rewrite <- E1'; reflexivity|exact E2]. }
  destruct (send_path_in_order _ _ _ Hr2) as ((todo & Ht & _) & _ & _ & Hc & _).
  exists s1, s2. pose proof E2 as E2'. rewrite <- E1' in E2'. vm_compute in E2'. injection E2' as E2'.
  split; [reflexivity|]. split; [exact E2|]. split; [rewrite <- E2'; reflexivity|].
  split; [exists todo; exact Ht|]. rewrite Hc, <- E2'. reflexivity.
Defined.

Lemma reset_tran_buf_fails `{Allocator} s :
  alloc_ok (next_addr (mem s)) = false ->
  exists s', reset_tran_buf s None = Some (false, s') /\ status s' = status s /\ out s' = out s /\
    send s' = send s.
Proof.
  intros Hok. unfold reset_tran_buf, malloc. cbn [mbind option_bind]. rewrite Hok. by eexists.
Qed.

(** [Session::on_connected] drops the failure of the base class: when the allocation of
    the transfer buffer fails, the connection is closed (the closed callback runs) and then
    marked connected again, without a transfer buffer. *)
Theorem session_connects_after_out_of_memory `{Allocator} (k : net_type) (f : Z) (h : heap) :
  alloc_ok (next_addr h) = false ->
  exists s l, set_socket_connected (fun _ => true) (init k f h) None = Some s /\
    is_connected s = true /\ out s = EvClosed :: l.
Proof.
  intros Hok. unfold set_socket_connected, session_on_connected, on_connected.
  set (s0 := set_recv _ _ _ _ (init k f h)).
  destruct (reset_tran_buf_fails s0 Hok) as (s1 & -> & Hst & Hout & Hsd).
  cbn [mbind option_bind negb]. unfold close, is_closed. rewrite Hst, bool_decide_false by done.
  set (s2 := set_status STATUS_CONNECTED _).
  assert (out s2 = [EvClosed] /\ send s2 = send (init k f h) /\ status s2 = STATUS_CONNECTED) as (Ho2 & Hs2 & Ht2).
  { cbn [out send status s2 set_status emit]. by rewrite Hout, Hsd. }
  clearbody s2. unfold trigger_receive.
  pose proof (try_start_receive_frame (set_read_quota (flow s2) 1 s2)) as (H1 & _ & _ & _ & _ & H6 & _).
  destruct (try_start_receive_out (set_read_quota (flow s2) 1 s2)) as [l1 Hl1].
  destruct (try_start_receive _) as [b3 s3]. cbn [snd] in *.
  destruct (trigger_send_frame s3) as (b4 & s4 & -> & Hr4 & l2 & Hl2).
  { rewrite H6. cbn [send set_read_quota]. by rewrite Hs2. }
  cbn [mbind option_bind]. exists s4, (l1 ++ l2). apply rview_inv in Hr4 as (Hr4 & _).
  splits; [done| |].
  - unfold is_connected. rewrite Hr4, H1. cbn [status set_read_quota]. by rewrite Ht2.
  - rewrite Hl2, Hl1. cbn [out set_read_quota]. by rewrite Ho2.
Qed.

Lemma session_connects_after_out_of_memory_witness :
  exists s, @set_socket_connected {| alloc_ok := fun _ => false; junk := fun _ _ => 0 |}
    (fun _ => true) (init NT_SERVER 9 (mkHeap ∅ 0)) None = Some s /\ is_connected s = true.
Proof.
  destruct (@session_connects_after_out_of_memory {| alloc_ok := fun _ => false; junk := fun _ _ => 0 |}
    NT_SERVER 9 (mkHeap ∅ 0)) as (s & l & Hs & Hc & _); [reflexivity|].
  exists s. split; [exact Hs|exact Hc].
Defined.

End MessageStream.
