(* ===== verification/Session.v ===== *)
(** * Session: what is sent and how it is read ([src/network/io/session.cpp], [message_meta.h])

    [Session::Send] builds a frame in a [WriteBuffer]: a reserved header, the packed [Meta],
    the payload (compressed when the meta says so), and the header patched in at the end.
    The receiver takes the meta off the front of the message with [ReadMeta]. *)

From S2P Require Import Prelude TranBuf BufRead BufWrite Buffer Framing.
Import TranBufPool Framing.

Module Session.

(** ** Meta: 30 packed bytes *)

Record Meta := mkMeta {
  mode : Z; user_unique_id : Z; type : Z; compress_type : Z; method : Z; sequence : Z;
}.

Definition meta_bytes : nat := 30.

Definition default_meta : Meta := mkMeta 0 0 0 0 0 0.

Definition encode_meta (m : Meta) : list Z :=
  le_bytes 1 (mode m) ++ le_bytes 8 (user_unique_id m) ++ le_bytes 4 (type m)
    ++ le_bytes 1 (compress_type m) ++ le_bytes 8 (method m) ++ le_bytes 8 (sequence m).

Definition decode_meta (l : list Z) : Meta :=
  mkMeta (le_value (take 1 l)) (le_value (take 8 (drop 1 l))) (le_value (take 4 (drop 9 l)))
    (wraps 8 (le_value (take 1 (drop 13 l)))) (le_value (take 8 (drop 14 l)))
    (le_value (take 8 (drop 22 l))).
#[global] Arguments decode_meta : simpl never.
#[global] Arguments encode_meta : simpl never.

Definition good_meta (m : Meta) : Prop :=
  in_u 8 (mode m) /\ in_u 64 (user_unique_id m) /\ in_u 32 (type m) /\
  in_s 8 (compress_type m) /\ in_u 64 (method m) /\ in_u 64 (sequence m).

(** ** ReadMeta

    [memcpy] reads [meta_size] bytes from the first block, whatever the size of the view;
    the destination has 30 bytes.  [None] is undefined behaviour. *)
Definition ReadMeta (rb : ReadBuffer.state) (meta : Meta) (meta_size : Z) (h : heap) :
    option (Meta * ReadBuffer.state) :=
  let n := u64 meta_size in
  match ReadBuffer.Next rb with
  | (None, rb') => if n =? 0 then Some (meta, rb') else None
  | (Some v, rb') =>
      if Z.of_nat meta_bytes <? n then None
      else
        bytes ← load (ReadBuffer.v_data v) (ReadBuffer.v_off v) n h;
        let meta' := decode_meta (overwrite 0 bytes (encode_meta meta)) in
        if i32 n <? ReadBuffer.v_size v then
          rb'' ← ReadBuffer.BackUp (ReadBuffer.v_size v - i32 n) rb'; Some (meta', rb'')
        else Some (meta', rb')
  end.

Section Send.
Context `{Allocator}.

(** The compressed stream of a payload: third-party (gzip, zlib, lz4) code. *)
Context (compressed : Z -> list Z -> list Z).

(** [c.WriteVarint32(size)] of the coded stream. *)
Fixpoint varint (fuel : nat) (z : Z) : list Z :=
  match fuel with
  | O => []
  | S n => if z <? 128 then [z] else (z mod 128 + 128) :: varint n (z / 128)
  end.

(** The bytes the overloads for raw data append after the meta. *)
Definition payload (meta : Meta) (data : list Z) : list Z :=
  if compress_type meta =? 0 then data
  else compressed (compress_type meta) (varint 5 (u32 (Z.of_nat (length data))) ++ data).

(** The body shared by the overloads [Send(meta, data)]: [append] writes the payload. *)
Definition build (append : WriteBuffer.state -> heap -> option (WriteBuffer.state * heap))
    (meta : Meta) (h : heap) : option (ReadBuffer.state * heap) :=
  '(header_pos, w1, h1) ← WriteBuffer.Reserve (Z.of_nat header_size) WriteBuffer.init h;
  '(_, w2, h2) ← WriteBuffer.Append (encode_meta meta) (Z.of_nat meta_bytes) w1 h1;
  let msize := i32 (WriteBuffer.ByteCount w2 - header_pos - Z.of_nat header_size) in
  '(w3, h3) ← append w2 h2;
  let dsize := WriteBuffer.ByteCount w3 - header_pos - Z.of_nat header_size - msize in
  let header := mkHeader MESSAGE_HEAD_MAGIC msize dsize (msize + dsize) in
  h4 ← WriteBuffer.SetData header_pos (encode header) w3 h3;
  '(_, rb, h5) ← WriteBuffer.SwapOut w3 ReadBuffer.init h4;
  Some (rb, h5).

Definition append_data (data : list Z) (w : WriteBuffer.state) (h : heap) :
    option (WriteBuffer.state * heap) :=
  '(_, w', h') ← WriteBuffer.Append data (i32 (Z.of_nat (length data))) w h; Some (w', h').

(** [Send(meta, vector)], [Send(meta, string_view)], [Send(meta, data, size)] and
    [Send(meta, ReadBufferPtr)] differ in where the bytes of [data] come from. *)
Definition Send_data (meta : Meta) (data : list Z) (h : heap) : option (ReadBuffer.state * heap) :=
  build (append_data (payload meta data)) meta h.

Definition Send_buffer (meta : Meta) (data_buffer : ReadBuffer.state) (h : heap) :
    option (ReadBuffer.state * heap) :=
  data ← ReadBuffer.ToString data_buffer h; Send_data meta data h.

(** [Send(meta)]: the meta alone, or the empty heartbeat when there is no meta. *)
Definition Send_meta (meta : option Meta) (h : heap) : option (ReadBuffer.state * heap) :=
  '(header_pos, w1, h1) ← WriteBuffer.Reserve (Z.of_nat header_size) WriteBuffer.init h;
  match meta with
  | None =>
      h2 ← WriteBuffer.SetData header_pos (encode (mkHeader MESSAGE_HEAD_MAGIC 0 0 0)) w1 h1;
      '(_, rb, h3) ← WriteBuffer.SwapOut w1 ReadBuffer.init h2;
      Some (rb, h3)
  | Some meta =>
      '(_, w2, h2) ← WriteBuffer.Append (encode_meta meta) (Z.of_nat meta_bytes) w1 h1;
      let msize := i32 (WriteBuffer.ByteCount w2 - header_pos - Z.of_nat header_size) in
      h3 ← WriteBuffer.SetData header_pos (encode (mkHeader MESSAGE_HEAD_MAGIC msize 0 msize)) w2 h2;
      '(_, rb, h4) ← WriteBuffer.SwapOut w2 ReadBuffer.init h3;
      Some (rb, h4)
  end.

(** [Send(meta, protobuf message)] serializes straight into the write buffer;
    [SerializeToZeroCopyStream] is third-party code that fails or appends bytes. *)
Definition Send_message (meta : option Meta)
    (serialize : Meta -> WriteBuffer.state -> heap -> option (bool * WriteBuffer.state * heap))
    (h : heap) : option (option ReadBuffer.state * heap) :=
  match meta with
  | None => Some (None, h)
  | Some meta =>
      '(header_pos, w1, h1) ← WriteBuffer.Reserve (Z.of_nat header_size) WriteBuffer.init h;
      '(_, w2, h2) ← WriteBuffer.Append (encode_meta meta) (Z.of_nat meta_bytes) w1 h1;
      let msize := i32 (WriteBuffer.ByteCount w2 - header_pos - Z.of_nat header_size) in
      '(ok, w3, h3) ← serialize meta w2 h2;
      if (ok : bool) then
        let dsize := WriteBuffer.ByteCount w3 - header_pos - Z.of_nat header_size - msize in
        let header := mkHeader MESSAGE_HEAD_MAGIC msize dsize (msize + dsize) in
        h4 ← WriteBuffer.SetData header_pos (encode header) w3 h3;
        '(_, rb, h5) ← WriteBuffer.SwapOut w3 ReadBuffer.init h4;
        Some (Some rb, h5)
      else
        h4 ← WriteBuffer.destroy w3 h3;
        Some (None, h4)
  end.
End Send.

(** ** Heartbeats

    The flag, the wait that is pending on the timer, the handlers that are queued on the
    io service ([true]: the wait was aborted), and the empty messages sent so far. *)
Record heartbeat := mkHeartbeat {
  start_heartbeat : bool; waiting : bool; handlers : list bool; sent : nat }.

Definition heartbeat_init : heartbeat := mkHeartbeat false false [] 0.

(** [_heartbeat_timer.cancel()] and [expires_after] complete the pending wait with
    [operation_aborted]. *)
Definition timer_cancel (s : heartbeat) : heartbeat :=
  mkHeartbeat (start_heartbeat s) false
    (if waiting s then handlers s ++ [true] else handlers s) (sent s).

(** The wait that is pending runs out. *)
Definition timer_expires (s : heartbeat) : heartbeat :=
  if waiting s then
    mkHeartbeat (start_heartbeat s) false (handlers s ++ [false]) (sent s)
  else s.

Definition ScheduleHeartbeatWait (s : heartbeat) : heartbeat :=
  if start_heartbeat s then
    let s := timer_cancel s in mkHeartbeat (start_heartbeat s) true (handlers s) (sent s)
  else s.

Definition OnHeartbeat (aborted : bool) (s : heartbeat) : heartbeat :=
  if negb (start_heartbeat s) then s
  else if aborted then s
  else ScheduleHeartbeatWait
         (mkHeartbeat (start_heartbeat s) (waiting s) (handlers s) (S (sent s))).

Definition StartHeartbeat (s : heartbeat) : heartbeat :=
  let s := timer_cancel s in
  ScheduleHeartbeatWait (mkHeartbeat true (waiting s) (handlers s) (sent s)).

(** What [ShutDown] and [on_closed] do to the heartbeat. *)
Definition stop_heartbeat (s : heartbeat) : heartbeat :=
  timer_cancel (mkHeartbeat false (waiting s) (handlers s) (sent s)).

Inductive heartbeat_event := HStart | HStop | HExpire | HRun.

Definition heartbeat_step (e : heartbeat_event) (s : heartbeat) : heartbeat :=
  match e with
  | HStart => StartHeartbeat s
  | HStop => stop_heartbeat s
  | HExpire => timer_expires s
  | HRun =>
      match handlers s with
      | [] => s
      | ec :: r => OnHeartbeat ec (mkHeartbeat (start_heartbeat s) (waiting s) r (sent s))
      end
  end.

Definition heartbeat_run (es : list heartbeat_event) : heartbeat -> heartbeat :=
  fun s => foldl (fun s e => heartbeat_step e s) s es.

(** ** Meta round trip *)

Lemma length_encode_meta m : length (encode_meta m) = meta_bytes.
Proof. unfold encode_meta. by rewrite !length_app, !length_le_bytes. Qed.

(** The [n] bytes at offset [length a]. *)
Lemma field_at (a b c : list Z) n k :
  length a = k -> length b = n -> take n (drop k (a ++ b ++ c)) = b.
Proof. intros <- <-. rewrite drop_app_length. apply take_app_length. Qed.

Lemma decode_encode_meta m : good_meta m -> decode_meta (encode_meta m) = m.
Proof.
  intros (H1 & H2 & H3 & H4 & H5 & H6). unfold decode_meta, encode_meta.
  set (b1 := le_bytes 1 (mode m)). set (b2 := le_bytes 8 (user_unique_id m)).
  set (b3 := le_bytes 4 (type m)). set (b4 := le_bytes 1 (compress_type m)).
  set (b5 := le_bytes 8 (method m)). set (b6 := le_bytes 8 (sequence m)).
  assert (length b1 = 1 /\ length b2 = 8 /\ length b3 = 4 /\ length b4 = 1 /\ length b5 = 8 /\ length b6 = 8)%nat
    as (L1 & L2 & L3 & L4 & L5 & L6) by (splits; apply length_le_bytes).
  rewrite take_app_length' by done.
  rewrite (field_at b1 b2 _ 8 1 L1 L2).
  rewrite (app_assoc b1), (field_at (b1 ++ b2) b3 _ 4 9); [|rewrite length_app; lia|done].
  rewrite (app_assoc (b1 ++ b2)), (field_at ((b1 ++ b2) ++ b3) b4 _ 1 13); [|rewrite !length_app; lia|done].
  rewrite (app_assoc ((b1 ++ b2) ++ b3)), (field_at _ b5 b6 8 14); [|rewrite !length_app; lia|done].
  rewrite (app_assoc (((b1 ++ b2) ++ b3) ++ b4)).
  rewrite <- (app_nil_r b6), (field_at _ b6 [] 8 22); [|rewrite !length_app; lia|done].
  unfold b1, b2, b3, b4, b5, b6. rewrite !le_bytes_value.
  change (256 ^ Z.of_nat 1) with (2 ^ 8). change (256 ^ Z.of_nat 4) with (2 ^ 32).
  change (256 ^ Z.of_nat 8) with (2 ^ 64).
  rewrite wraps_mod by (done || lia). unfold in_u in *.
  rewrite !Z.mod_small by lia. by destruct m.
Qed.

(** ** Building a frame *)

Lemma overwrite_start {A} (d a b : list A) :
  length d = length a -> overwrite 0 d (a ++ b) = d ++ b.
Proof. intros Hl. unfold overwrite. simpl. rewrite Hl. by rewrite drop_app_length. Qed.

Section SendProofs.
Context `{Allocator}.
Context (compressed : Z -> list Z -> list Z).
Context (all_ok : forall k, alloc_ok k = true).

(** A way to write a payload: it appends these bytes to whatever is in the buffer. *)
Definition appends (append : WriteBuffer.state -> heap -> option (WriteBuffer.state * heap))
    (bytes : list Z) : Prop :=
  forall h0 h wb chunks,
    WriteBuffer.inv h0 h wb chunks -> WriteBuffer.last_ok wb ->
    in_u 64 (WriteBuffer.base_block_factor wb) ->
    exists wb' h' chunks', append wb h = Some (wb', h') /\
      WriteBuffer.inv h0 h' wb' chunks' /\ concat chunks' = concat chunks ++ bytes.

Lemma append_data_appends data :
  Z.of_nat (length data) < 2 ^ 31 -> appends (append_data data) data.
Proof.
  intros Hlen h0 h wb chunks Hinv Hl Hf. unfold append_data.
  rewrite wraps_small by (unfold in_s; lia).
  destruct (WriteBuffer.write_Append_spec data h0 h wb chunks Hinv Hl Hf)
    as (ok & wb' & h' & chunks' & -> & Hinv' & _ & _ & Hok & Hcc).
  exists wb', h', chunks'. splits; [done|done|]. apply Hcc, Hok, all_ok.
Qed.

(** The message of a frame that carries a meta and a payload. *)
Definition sent_message (meta : Meta) (bytes : list Z) : message :=
  mkMessage (Z.of_nat meta_bytes) (Z.of_nat (length bytes)) (encode_meta meta ++ bytes).

(** The reserved header and the meta behind it. *)
Lemma start_spec meta h :
  good_heap h ->
  exists w1 h1 w2 h2 chunks hd,
    WriteBuffer.Reserve (Z.of_nat header_size) WriteBuffer.init h = Some (0, w1, h1) /\
    WriteBuffer.Append (encode_meta meta) (Z.of_nat meta_bytes) w1 h1 = Some (true, w2, h2) /\
    WriteBuffer.inv h h2 w2 chunks /\ WriteBuffer.last_ok w2 /\
    in_u 64 (WriteBuffer.base_block_factor w2) /\
    concat chunks = hd ++ encode_meta meta /\ length hd = header_size /\
    WriteBuffer.ByteCount w2 = Z.of_nat header_size + Z.of_nat meta_bytes.
Proof.
  intros Hg.
  destruct (WriteBuffer.Reserve_spec (Z.of_nat header_size) h h WriteBuffer.init [])
    as (ok & w1 & h1 & ch1 & -> & Hi1 & Hl1 & Hf1 & Hok & Hbs);
    [by apply WriteBuffer.inv_init|by left|unfold in_u; simpl; lia|lia|].
  rewrite (Hok all_ok) in *. destruct (Hbs eq_refl) as (hd & Hc1 & Hhd). simpl in Hc1.
  destruct (WriteBuffer.write_Append_spec (encode_meta meta) h h1 w1 ch1)
    as (ok2 & w2 & h2 & ch2 & Ha & Hi2 & Hl2 & Hf2 & Hok2 & Hc2);
    [done|done|rewrite Hf1; unfold in_u; simpl; lia|].
  rewrite (Hok2 all_ok) in *. rewrite length_encode_meta in Ha.
  exists w1, h1, w2, h2, ch2, hd. rewrite Hc2, Hc1 by done.
  splits; auto; [rewrite Hf2, Hf1; unfold in_u; simpl; lia|lia|].
  unfold WriteBuffer.ByteCount. rewrite (WriteBuffer.inv_bytes _ _ _ _ Hi2), Hc2, Hc1 by done.
  rewrite length_app, length_encode_meta. lia.
Qed.

(** Patching the header in and handing the blocks over. *)
Lemma finish_spec h h3 w3 chunks hd rest header :
  WriteBuffer.inv h h3 w3 chunks -> concat chunks = hd ++ rest -> length hd = header_size ->
  exists h4 w4 rb h5 h6,
    WriteBuffer.SetData 0 (encode header) w3 h3 = Some h4 /\
    WriteBuffer.SwapOut w3 ReadBuffer.init h4 = Some (w4, rb, h5) /\
    ReadBuffer.ToString rb h5 = Some (encode header ++ rest) /\
    ReadBuffer.destroy rb h5 = Some h6 /\ blocks h6 = blocks h.
Proof.
  intros Hi Hc Hhd.
  destruct (WriteBuffer.SetData_spec h h3 w3 chunks 0 (encode header)) as (h4 & ch4 & E4 & Hi4 & Hc4 & _);
    [done|lia| |].
  { rewrite (WriteBuffer.inv_bytes _ _ _ _ Hi), Hc, length_app, length_encode. lia. }
  destruct (BufferRoundTrip.SwapOut_spec h h4 w3 ch4 Hi4)
    as (w4 & rb & h5 & cs & h6 & E5 & _ & _ & _ & _ & Hs & _ & Hd & Hb).
  exists h4, w4, rb, h5, h6. splits; auto. rewrite Hs, Hc4, Hc. simpl.
  by rewrite overwrite_start by (by rewrite length_encode).
Qed.

Lemma build_spec append bytes meta h :
  appends append bytes -> good_heap h -> Z.of_nat (length bytes) < 2 ^ 62 ->
  exists rb h' h'', build append meta h = Some (rb, h') /\
    ReadBuffer.ToString rb h' = Some (frame (sent_message meta bytes)) /\
    ReadBuffer.destroy rb h' = Some h'' /\ blocks h'' = blocks h.
Proof.
  intros Happ Hg Hlen. unfold build.
  destruct (start_spec meta h Hg) as (w1 & h1 & w2 & h2 & ch & hd & -> & E2 & Hi & Hl & Hf & Hc & Hhd & Hw).
  cbn [mbind option_bind]. rewrite E2. cbn [mbind option_bind].
  destruct (Happ h h2 w2 ch Hi Hl Hf) as (w3 & h3 & ch3 & -> & Hi3 & Hc3).
  cbn [mbind option_bind]. rewrite Hw.
  assert (WriteBuffer.ByteCount w3 = Z.of_nat header_size + Z.of_nat meta_bytes + Z.of_nat (length bytes)) as ->.
  { unfold WriteBuffer.ByteCount.
    rewrite (WriteBuffer.inv_bytes _ _ _ _ Hi3), Hc3, Hc, !length_app, length_encode_meta. lia. }
  replace (Z.of_nat header_size + Z.of_nat meta_bytes - 0 - Z.of_nat header_size)
    with (Z.of_nat meta_bytes) by lia.
  rewrite (wraps_small 32 (Z.of_nat meta_bytes)) by (unfold in_s, meta_bytes; lia).
  replace (Z.of_nat header_size + Z.of_nat meta_bytes + Z.of_nat (length bytes) - 0 -
    Z.of_nat header_size - Z.of_nat meta_bytes) with (Z.of_nat (length bytes)) by lia.
  destruct (finish_spec h h3 w3 ch3 hd (encode_meta meta ++ bytes)
    (mkHeader MESSAGE_HEAD_MAGIC (Z.of_nat meta_bytes) (Z.of_nat (length bytes))
       (Z.of_nat meta_bytes + Z.of_nat (length bytes))))
    as (h4 & w4 & rb & h5 & h6 & -> & E5 & Hs & Hd & Hb); [done| |done|].
  { by rewrite Hc3, Hc, app_assoc. }
  cbn [mbind option_bind]. rewrite E5. cbn [mbind option_bind].
  exists rb, h5, h6. splits; auto. rewrite Hs. unfold frame, sent_message.
  cbn [m_meta_size m_data_size m_bytes].
  by rewrite length_app, length_encode_meta, Nat2Z.inj_add.
Qed.

(** The overloads of [Session::Send] for raw data build one frame: header, meta and
    payload, with the sizes in the header equal to the sizes that follow it; a receiver
    that parses the bytes gets exactly one message.  Releasing the buffer gives back every
    block. *)
Theorem Send_data_builds_frame (meta : Meta) (data : list Z) (h : heap) :
  good_heap h -> Z.of_nat (length (payload compressed meta data)) < 2 ^ 31 ->
  let m := sent_message meta (payload compressed meta data) in
  exists rb h' h'', Send_data compressed meta data h = Some (rb, h') /\
    ReadBuffer.ToString rb h' = Some (frame m) /\
    feed (PHeader []) (frame m) = (PHeader [], [m]) /\
    ReadBuffer.destroy rb h' = Some h'' /\ blocks h'' = blocks h.
Proof.
  intros Hg Hlen m.
  destruct (build_spec _ _ meta h (append_data_appends _ Hlen) Hg) as (rb & h' & h'' & H1 & H2 & H3);
    [lia|].
  exists rb, h', h''. splits; [exact H1|exact H2|apply feed_frame|apply H3|apply H3].
  unfold good_message, m, sent_message. cbn [m_meta_size m_data_size m_bytes].
  rewrite length_app, length_encode_meta. unfold in_s, meta_bytes. lia.
Qed.

End SendProofs.

Lemma Send_data_builds_frame_witness :
  exists rb h', @Send_data BufferRoundTrip.test_allocator (fun _ l => l)
      (mkMeta 1 7 9 0 11 13) [1; 2; 3] (mkHeap ∅ 0) = Some (rb, h') /\
    ReadBuffer.ToString rb h' =
      Some (encode (mkHeader MESSAGE_HEAD_MAGIC 30 3 33) ++ encode_meta (mkMeta 1 7 9 0 11 13) ++ [1; 2; 3]).
Proof.
  destruct (@Send_data_builds_frame BufferRoundTrip.test_allocator (fun _ l => l)
    (fun _ => eq_refl) (mkMeta 1 7 9 0 11 13) [1; 2; 3] (mkHeap ∅ 0)) as (rb & h' & h'' & H1 & H2 & _).
  { apply map_Forall_empty. } { vm_compute. done. }
  exists rb, h'. split; [exact H1|exact H2].
Defined.

(** ** Taking the meta off the front of a message *)

(** [ReadMeta] on a fresh reader, when the first block covers the meta. *)
Lemma ReadMeta_spec rb h c cs meta n :
  ReadBuffer.good rb h (c :: cs) -> ReadBuffer.cur_it rb = 0%nat -> ReadBuffer.cur_pos rb = 0 ->
  0 <= n <= Z.of_nat meta_bytes -> n <= Z.of_nat (length c) < 2 ^ 31 ->
  exists rb', ReadMeta rb meta n h =
      Some (decode_meta (overwrite 0 (take (Z.to_nat n) c) (encode_meta meta)), rb') /\
    ReadBuffer.good rb' h (c :: cs) /\ ReadBuffer.read_bytes rb' = n.
Proof.
  intros Hg Hit Hpos Hn Hc. unfold meta_bytes in Hn.
  pose proof (ReadBuffer.good_lookup _ _ _ 0 Hg) as Hl. cbn in Hl.
  pose proof (ReadBuffer.Next_spec rb h (c :: cs) Hg) as HN. cbv zeta in HN.
  unfold ReadMeta, meta_bytes. rewrite wrapu_small by (unfold in_u; lia).
  rewrite wraps_small by (unfold in_s; lia).
  unfold ReadBuffer.Next in *. rewrite Hit in *.
  destruct (ReadBuffer.buf_list rb !! 0%nat) as [x|] eqn:Ex; [|done].
  destruct Hl as (Hload & _ & Hsz). rewrite Hpos in *.
  set (rb1 := ReadBuffer.mkState _ _ _ _ _ _ _) in *.
  cbn [ReadBuffer.v_data ReadBuffer.v_off ReadBuffer.v_size] in *.
  destruct HN as (Hg1 & Hp & Hlast & Hrd & _).
  assert (ReadBuffer.read_bytes rb = 0) as Hr0.
  { destruct Hg as (_ & _ & _ & _ & _ & _ & Hr). rewrite Hit, Hpos in Hr. done. }
  replace (Z.of_nat 30 <? n) with false by lia.
  rewrite (load_sub _ _ _ _ _ 0 n Hload); [|lia..]. cbn [mbind option_bind].
  assert (take (Z.to_nat n) (drop (Z.to_nat 0) c) = take (Z.to_nat n) c) as -> by done.
  destruct (n <? h_size x - 0) eqn:E.
  - destruct (ReadBuffer.BackUp_spec rb1 h (c :: cs) (h_size x - 0 - n)) as (rb2 & -> & Hg2 & _ & Hr2);
      [done|lia|]. cbn [mbind option_bind]. exists rb2. splits; [done|done|lia].
  - exists rb1. splits; [done|done|lia].
Qed.

(** A meta that was sent is the meta that is read, and the reader is left at the first
    byte of the payload, when the first block of the message holds the whole meta. *)
Theorem ReadMeta_reads_sent_meta (rb : ReadBuffer.state) (h : heap) (c : list Z)
    (cs : list (list Z)) (m : Meta) (bytes : list Z) :
  ReadBuffer.good rb h (c :: cs) -> ReadBuffer.cur_it rb = 0%nat -> ReadBuffer.cur_pos rb = 0 ->
  c ++ concat cs = encode_meta m ++ bytes -> good_meta m ->
  Z.of_nat meta_bytes <= Z.of_nat (length c) < 2 ^ 31 ->
  exists rb', ReadMeta rb default_meta (Z.of_nat meta_bytes) h = Some (m, rb') /\
    ReadBuffer.good rb' h (c :: cs) /\
    drop (Z.to_nat (ReadBuffer.ByteCount rb')) (c ++ concat cs) = bytes.
Proof.
  intros Hg Hit Hpos Hcc Hm Hc.
  destruct (ReadMeta_spec rb h c cs default_meta (Z.of_nat meta_bytes)) as (rb' & -> & Hg' & Hr);
    auto; [lia|].
  exists rb'. split; [|split; [done|]].
  - assert (take meta_bytes c = encode_meta m) as E.
    { rewrite <- (length_encode_meta m) in *. rewrite <- (take_app_le c (concat cs)) by lia.
      rewrite Hcc. apply take_app_length. }
    rewrite Nat2Z.id, E. do 2 f_equal. rewrite <- (app_nil_r (encode_meta default_meta)).
    rewrite overwrite_start by (by rewrite !length_encode_meta).
    rewrite app_nil_r. by apply decode_encode_meta.
  - unfold ReadBuffer.ByteCount. rewrite Hr, Hcc, Nat2Z.id, <- (length_encode_meta m).
    apply drop_app_length.
Qed.

(** A heap with one block of [bytes], and a reader of two slices of it. *)
Definition one_block (bytes : list Z) : heap :=
  mkHeap {[0%nat := mkBlock (Z.of_nat (length bytes) + 8) 2 bytes]} 1.

Definition slices (n1 off2 n2 : Z) : ReadBuffer.state :=
  ReadBuffer.mkState [mkHandle 0 n1 0; mkHandle 0 n2 off2] 0 (n1 + n2) 0 0 0 0.

Lemma ReadMeta_reads_sent_meta_witness :
  exists rb', ReadMeta (slices 30 30 2) default_meta 30 (one_block (encode_meta (mkMeta 1 7 9 0 11 13) ++ [1; 2]))
     = Some (mkMeta 1 7 9 0 11 13, rb').
Proof.
  destruct (ReadMeta_reads_sent_meta (slices 30 30 2)
    (one_block (encode_meta (mkMeta 1 7 9 0 11 13) ++ [1; 2]))
    (encode_meta (mkMeta 1 7 9 0 11 13)) [[1; 2]] (mkMeta 1 7 9 0 11 13) [1; 2]) as (rb' & H & _);
    [|reflexivity..|vm_compute; intuition discriminate|vm_compute; intuition discriminate|].
  - unfold ReadBuffer.good. cbn. splits; [|reflexivity|lia|by left|lia|by left|reflexivity].
    constructor; [by split|]. constructor; [by split|constructor].
  - exists rb'. exact H.
Defined.

(** When the meta of a message is spread over two blocks, [ReadMeta] takes [meta_size]
    bytes from the first block all the same: what it returns is made of memory after the
    view (undefined behaviour when the block ends there), and the reader is left in the
    middle of the meta, so that the payload is read from the wrong position. *)
Theorem split_meta_is_misread (rb : ReadBuffer.state) (h : heap) (x : BufferHandle) (c : list Z)
    (cs : list (list Z)) (meta : Meta) (res : Meta * ReadBuffer.state) :
  ReadBuffer.good rb h (c :: cs) -> ReadBuffer.cur_it rb = 0%nat -> ReadBuffer.cur_pos rb = 0 ->
  ReadBuffer.buf_list rb !! 0%nat = Some x -> Z.of_nat (length c) < Z.of_nat meta_bytes ->
  ReadMeta rb meta (Z.of_nat meta_bytes) h = Some res ->
  exists after, load (h_data x) (h_aux x) (Z.of_nat meta_bytes) h = Some (c ++ after) /\
    fst res = decode_meta (c ++ after) /\
    ReadBuffer.ByteCount (snd res) = Z.of_nat (length c) /\
    ReadBuffer.ByteCount (snd res) < Z.of_nat meta_bytes.
Proof.
  intros Hg Hit Hpos Hx Hlt.
  pose proof (ReadBuffer.good_lookup _ _ _ 0 Hg) as Hl. rewrite Hx in Hl. cbn in Hl.
  destruct Hl as (Hload & _ & Hsz).
  assert (ReadBuffer.read_bytes rb = 0) as Hr0.
  { destruct Hg as (_ & _ & _ & _ & _ & _ & Hr). rewrite Hit, Hpos in Hr. done. }
  unfold ReadMeta. change (u64 (Z.of_nat meta_bytes)) with (Z.of_nat meta_bytes).
  change (i32 (Z.of_nat meta_bytes)) with (Z.of_nat meta_bytes).
  unfold ReadBuffer.Next. rewrite Hit, Hx, Hpos. cbn [ReadBuffer.v_data ReadBuffer.v_off ReadBuffer.v_size].
  rewrite Z.ltb_irrefl. destruct (load _ _ (Z.of_nat meta_bytes) h) as [bytes|] eqn:E; [|done]. cbn [mbind option_bind].
  replace (Z.of_nat meta_bytes <? h_size x - 0) with false by lia. intros [= <-].
  cbn [fst snd ReadBuffer.ByteCount ReadBuffer.read_bytes].
  rewrite Z.add_0_r in E. apply ReadBuffer.load_length in E as Hlen.
  pose proof (load_sub _ _ _ _ _ 0 (h_size x) E ltac:(lia) ltac:(lia) ltac:(lia)) as Hs.
  rewrite Z.add_0_r, Hload in Hs. injection Hs as Hs.
  exists (drop (length c) bytes). rewrite Hsz, Nat2Z.id in Hs.
  assert (c ++ drop (length c) bytes = bytes) as Hb by (rewrite Hs at 1; apply take_drop).
  rewrite Hb. splits; [done| |lia|lia].
  rewrite <- (app_nil_r (encode_meta meta)), overwrite_start by (rewrite length_encode_meta; lia).
  by rewrite app_nil_r.
Qed.

(** The meta was written in two parts (20 bytes at the end of one read, 10 at the start of
    the next) and its sequence number does not survive. *)
Lemma split_meta_is_misread_witness :
  let m := mkMeta 1 7 9 0 11 13 in
  let h := one_block (take 20 (encode_meta m) ++ replicate 12 0 ++ drop 20 (encode_meta m)) in
  ReadBuffer.ToString (slices 20 32 10) h = Some (encode_meta m) /\
  exists rb', ReadMeta (slices 20 32 10) default_meta 30 h = Some (mkMeta 1 7 9 0 11 0, rb') /\
    ReadBuffer.ByteCount rb' = 20.
Proof.
  cbv zeta. split; [reflexivity|].
  set (h := one_block _).
  destruct (ReadMeta (slices 20 32 10) default_meta 30 h) as [res|] eqn:E; [|by vm_compute in E].
  destruct (split_meta_is_misread (slices 20 32 10) h (mkHandle 0 20 0)
    (take 20 (encode_meta (mkMeta 1 7 9 0 11 13))) [drop 20 (encode_meta (mkMeta 1 7 9 0 11 13))]
    default_meta res) as (after & Hload & Hm & Hp & _); [|reflexivity..|exact E|].
  - unfold ReadBuffer.good. cbn. splits; [|reflexivity|lia|by left|lia|by left|reflexivity].
    constructor; [by split|]. constructor; [by split|constructor].
  - vm_compute in Hload. injection Hload as <-. exists (snd res). split; [|exact Hp].
    destruct res as [m' rb']. f_equal. f_equal. simpl in Hm. rewrite Hm. reflexivity.
Defined.

(** ** Heartbeats *)

Definition heartbeat_inv (s : heartbeat) : Prop :=
  if start_heartbeat s then waiting s = true \/ false ∈ handlers s else waiting s = false.

Lemma heartbeat_step_inv e s : heartbeat_inv s -> heartbeat_inv (heartbeat_step e s).
Proof.
  destruct s as [st w hs n]. unfold heartbeat_inv. intros Hi.
  destruct e; simpl; unfold timer_expires, OnHeartbeat, ScheduleHeartbeatWait; simpl in *; auto.
  - destruct w, st; simpl in *; auto; try done. right. set_solver.
  - destruct hs as [|ec r]; simpl; [done|].
    destruct st, ec, w; simpl in *; auto; try done. right. set_solver.
Qed.

(** Heartbeats go on as long as they are enabled, whatever the order of restarts,
    expiries, cancellations and handlers: a wait is pending or an expired one is queued.
    Once they are stopped, no event short of a new start sends anything. *)
Theorem heartbeat_until_stopped (before after : list heartbeat_event) :
  let s := heartbeat_run before heartbeat_init in
  (start_heartbeat s = true -> waiting s = true \/ false ∈ handlers s) /\
  (HStart ∉ after -> sent (heartbeat_run after (stop_heartbeat s)) = sent s /\
     waiting (heartbeat_run after (stop_heartbeat s)) = false).
Proof.
  intros s. assert (heartbeat_inv s) as Hi.
  { unfold s, heartbeat_run. assert (heartbeat_inv heartbeat_init) as H by done.
    revert H. generalize heartbeat_init. induction before as [|e r IH]; intros s0 H; simpl; [done|].
    by apply IH, heartbeat_step_inv. }
  split.
  - intros Hst. unfold heartbeat_inv in Hi. by rewrite Hst in Hi.
  - intros Hno. assert (sent (stop_heartbeat s) = sent s) as <- by done.
    assert (start_heartbeat (stop_heartbeat s) = false) as H1 by done.
    assert (waiting (stop_heartbeat s) = false) as H2 by done.
    revert H1 H2. generalize (stop_heartbeat s). clear -Hno.
    induction after as [|e r IH]; intros [st w hs n] H1 H2; simpl in *; subst; [done|].
    apply not_elem_of_cons in Hno as [He Hr].
    destruct e; [done|..]; unfold timer_expires; simpl.
    + by destruct (IH Hr (stop_heartbeat (mkHeartbeat false false hs n))).
    + by destruct (IH Hr (mkHeartbeat false false hs n)).
    + destruct hs as [|ec hs]; unfold OnHeartbeat; simpl.
      * by destruct (IH Hr (mkHeartbeat false false [] n)).
      * by destruct (IH Hr (mkHeartbeat false false hs n)).
Qed.

Lemma heartbeat_until_stopped_witness :
  let s := heartbeat_run [HStart; HExpire; HRun; HExpire] heartbeat_init in
  sent s = 1%nat /\ (waiting s = true \/ false ∈ handlers s) /\
  sent (heartbeat_run [HRun; HExpire; HRun] (stop_heartbeat s)) = 1%nat.
Proof.
  destruct (heartbeat_until_stopped [HStart; HExpire; HRun; HExpire] [HRun; HExpire; HRun]) as [H1 H2].
  split; [reflexivity|]. split; [apply H1; reflexivity|].
  apply H2. intros H. repeat (apply elem_of_cons in H as [[=]|H]). by apply elem_of_nil in H.
Defined.

End Session.
