(* ===== verification/ScopeRunner.v ===== *)
(** * ScopeRunner: leaving the handlers of a destroyed object ([src/network/http/utility.hpp],
    last part)

    The completion handlers of the HTTP server and client take a shared lock first, the
    destructor stops the scope.  Threads run as interleaved steps: a step is one access to
    [count].  [compare_exchange_weak] may fail although the value is the expected one. *)

From S2P Require Import Prelude.

Module ScopeRunner.

(** A thread before, inside and after [continue_lock], or in [stop]. *)
Inductive thread :=
  | Outside                        (* may call [continue_lock] *)
  | Trying (expected : Z)          (* in its loop *)
  | Locked                         (* holds a [SharedLock] *)
  | Refused                        (* got [nullptr] *)
  | Stopping                       (* in the loop of [stop] *)
  | Stopped.                       (* [stop] has returned *)

#[export] Instance thread_eq_dec : EqDecision thread.
Proof. solve_decision. Defined.

Record scope := { count : Z; threads : list thread }.

Inductive label :=
  | LLoad (t : nat)                      (* [expected = count] *)
  | LExchange (t : nat) (weak : bool)    (* one [compare_exchange_weak]; [weak]: it fails for no reason *)
  | LUnlock (t : nat)                    (* [~SharedLock] *)
  | LExchangeStop (t : nat) (weak : bool).

Definition set_thread (t : nat) (x : thread) (c : Z) (s : scope) : option scope :=
  Some {| count := c; threads := <[t := x]> (threads s) |}.

(** The loop of [continue_lock] with what was loaded. *)
Definition lock_loop (expected : Z) : thread := if 0 <=? expected then Trying expected else Refused.

Definition scope_step (l : label) (s : scope) : option scope :=
  match l with
  | LLoad t =>
      match threads s !! t with
      | Some Outside => set_thread t (lock_loop (count s)) (count s) s
      | _ => None
      end
  | LExchange t weak =>
      match threads s !! t with
      | Some (Trying expected) =>
          if (count s =? expected) && negb weak then set_thread t Locked (expected + 1) s
          else set_thread t (lock_loop (count s)) (count s) s
      | _ => None
      end
  | LUnlock t =>
      match threads s !! t with
      | Some Locked => set_thread t Outside (count s - 1) s
      | _ => None
      end
  | LExchangeStop t weak =>
      match threads s !! t with
      | Some Stopping =>
          if (count s =? 0) && negb weak then set_thread t Stopped (-1) s
          else set_thread t (if count s <? 0 then Stopped else Stopping) (count s) s
      | _ => None
      end
  end.

(** [n] threads with handlers and [m] that call [stop]. *)
Definition init (n m : nat) : scope := {| count := 0; threads := replicate n Outside ++ replicate m Stopping |}.

(** ** The count *)

Definition locks (x : thread) : Z := match x with Locked => 1 | _ => 0 end.

Fixpoint held (ts : list thread) : Z := match ts with [] => 0 | x :: r => locks x + held r end.

Lemma held_nonneg ts : 0 <= held ts.
Proof. induction ts as [|[] ts IH]; cbn; lia. Qed.

Lemma held_insert ts t x y : ts !! t = Some x -> held (<[t := y]> ts) = held ts - locks x + locks y.
Proof.
  revert t. induction ts as [|z ts IH]; intros [|t]; cbn; [done|done|intros [= ->]; lia|intros H; rewrite IH by done; lia].
Qed.

Lemma held_lookup ts t : ts !! t = Some Locked -> 1 <= held ts.
Proof.
  revert t. induction ts as [|z ts IH]; intros [|t]; cbn; [done|done|intros [= ->]; cbn; pose proof (held_nonneg ts); lia|].
  intros H. apply IH in H. destruct z; cbn; lia.
Qed.

Lemma held_none ts : held ts = 0 <-> Locked ∉ ts.
Proof.
  split.
  - intros H [t Ht]%list_elem_of_lookup. apply held_lookup in Ht. lia.
  - induction ts as [|x ts IH]; [done|]. rewrite not_elem_of_cons. intros [Hx Hts]. cbn. rewrite IH by done. by destruct x.
Qed.

(** The count is the number of locks, or -1 when there is none and [stop] has got through;
    a thread tries with a count that was not negative, and a stopped one has seen it so. *)
Record good (s : scope) : Prop := {
  g_count : count s = held (threads s) \/ (count s = -1 /\ held (threads s) = 0);
  g_trying : forall t e, threads s !! t = Some (Trying e) -> 0 <= e;
  g_stopped : Stopped ∈ threads s -> count s = -1;
}.

Lemma good_set s t x y c s' : good s -> threads s !! t = Some x ->
  (c = held (threads s) - locks x + locks y \/ (c = -1 /\ held (threads s) - locks x + locks y = 0)) ->
  (forall e, y = Trying e -> 0 <= e) -> (y = Stopped -> c = -1) -> (count s = -1 -> c = -1) ->
  set_thread t y c s = Some s' -> good s'.
Proof.
  intros [Hc Ht Hs] Hx Hcount Htry Hstop Hkeep [= <-]. split; cbn.
  - by rewrite (held_insert _ _ _ _ Hx).
  - intros u e. destruct (decide (u = t)) as [->|Hne].
    + rewrite list_lookup_insert_eq by (by eapply lookup_lt_Some). intros [= ->]. by apply Htry.
    + rewrite list_lookup_insert_ne by done. apply Ht.
  - intros [u Hu]%list_elem_of_lookup. destruct (decide (u = t)) as [->|Hne].
    + rewrite list_lookup_insert_eq in Hu by (by eapply lookup_lt_Some). injection Hu as ->. by apply Hstop.
    + rewrite list_lookup_insert_ne in Hu by done. apply Hkeep, Hs. by eapply list_elem_of_lookup_2.
Qed.

Lemma good_scope_step l s s' : good s -> scope_step l s = Some s' -> good s'.
Proof.
  intros Hg. pose proof (g_count s Hg) as Hc. pose proof (held_nonneg (threads s)) as Hn.
  unfold scope_step, lock_loop. destruct l as [t|t weak|t|t weak]; destruct (threads s !! t) as [[]|] eqn:Et; try done.
  - intros Hset. eapply good_set; [exact Hg|exact Et|..|exact Hset]; destruct (Z.leb_spec 0 (count s)); cbn; try lia; try done;
      intros ? [= <-]; lia.
  - pose proof (g_trying s Hg t expected Et) as He. destruct ((count s =? expected) && negb weak) eqn:E.
    + apply andb_prop in E as [E _]. apply Z.eqb_eq in E. intros Hset.
      eapply good_set; [exact Hg|exact Et|..|exact Hset]; cbn; try done; lia.
    + intros Hset. eapply good_set; [exact Hg|exact Et|..|exact Hset]; destruct (Z.leb_spec 0 (count s)); cbn; try lia; try done;
        intros ? [= <-]; lia.
  - pose proof (held_lookup _ _ Et). intros Hset. eapply good_set; [exact Hg|exact Et|..|exact Hset]; cbn; try done; lia.
  - destruct ((count s =? 0) && negb weak) eqn:E.
    + apply andb_prop in E as [E _]. apply Z.eqb_eq in E. intros Hset.
      eapply good_set; [exact Hg|exact Et|..|exact Hset]; cbn; try done; lia.
    + intros Hset. eapply good_set; [exact Hg|exact Et|..|exact Hset]; destruct (Z.ltb_spec (count s) 0); cbn; try lia; done.
Qed.

Lemma scope_good_init n m : good (init n m).
Proof.
  split; cbn.
  - left. symmetry. apply held_none. rewrite not_elem_of_app. by split; intros [? _]%elem_of_replicate.
  - intros t e H. apply list_elem_of_lookup_2, elem_of_app in H as [[H _]%elem_of_replicate|[H _]%elem_of_replicate]; done.
  - intros [[H _]%elem_of_replicate|[H _]%elem_of_replicate]%elem_of_app; done.
Qed.

Lemma closed_step l s s' : good s /\ count s = -1 -> scope_step l s = Some s' -> good s' /\ count s' = -1.
Proof.
  intros [Hg Hc] Hstep. split; [by eapply good_scope_step|].
  pose proof (g_count s Hg) as Hcount. pose proof (held_nonneg (threads s)).
  unfold scope_step in Hstep. destruct l as [t|t weak|t|t weak]; destruct (threads s !! t) as [[]|] eqn:Et; try done.
  - by injection Hstep as <-.
  - pose proof (g_trying s Hg t expected Et). rewrite (proj2 (Z.eqb_neq _ _)) in Hstep by lia. by injection Hstep as <-.
  - apply held_lookup in Et. lia.
  - rewrite Hc in Hstep. by injection Hstep as <-.
Qed.

Lemma reachable_good n m ls s : run_steps scope_step ls (init n m) = Some s -> good s.
Proof. intros Hrun. eapply (run_steps_invariant good good_scope_step); [apply scope_good_init|exact Hrun]. Qed.

(** C40: When [stop] has returned in some thread, no handler holds the lock, and whatever the
    threads do afterwards none gets it: a destroyed server or client runs no handler. *)
Theorem stop_excludes_handlers n m ls ls' s s' :
  run_steps scope_step ls (init n m) = Some s -> Stopped ∈ threads s ->
  run_steps scope_step ls' s = Some s' -> (Locked ∉ threads s) /\ (Locked ∉ threads s').
Proof.
  intros Hrun Hst Hrun'. pose proof (reachable_good _ _ _ _ Hrun) as Hg.
  assert (forall x, good x /\ count x = -1 -> Locked ∉ threads x) as Hnone.
  { intros x [Hx Hc]. apply held_none. pose proof (g_count x Hx). pose proof (held_nonneg (threads x)). lia. }
  pose proof (g_stopped s Hg Hst) as Hc. split; [by apply Hnone|]. apply Hnone.
  eapply (run_steps_invariant (fun x => good x /\ count x = -1) closed_step); [|exact Hrun']. done.
Qed.

(** As soon as no lock is held, one exchange that does not fail for no reason lets [stop]
    through; while one is held, [stop] cannot return.  A handler that destroys its own
    server waits for itself. *)
Theorem stop_waits_for_locks n m ls s t : run_steps scope_step ls (init n m) = Some s -> threads s !! t = Some Stopping ->
  exists s', scope_step (LExchangeStop t false) s = Some s' /\
    ((threads s' !! t = Some Stopped) <-> (Locked ∉ threads s)).
Proof.
  intros Hrun Ht. pose proof (reachable_good _ _ _ _ Hrun) as Hg. pose proof (g_count s Hg) as Hc.
  pose proof (held_nonneg (threads s)) as Hn. unfold scope_step. rewrite Ht, andb_true_r. setoid_rewrite <- held_none.
  assert (forall x y, <[t := x]> (threads s) !! t = Some y <-> x = y) as Hins.
  { intros x y. rewrite list_lookup_insert_eq by (by eapply lookup_lt_Some). naive_solver. }
  destruct (Z.eqb_spec (count s) 0); [|destruct (Z.ltb_spec (count s) 0)]; eexists; (split; [done|]); cbn [threads];
    rewrite Hins; split; try done; lia.
Qed.

Lemma stop_excludes_handlers_witness : exists s s',
  run_steps scope_step [LLoad 0; LExchange 0 true; LExchange 0 false; LExchangeStop 2 false; LUnlock 0; LLoad 1; LExchangeStop 2 false]
    (init 2 1) = Some s /\
  run_steps scope_step [LExchange 1 false; LLoad 0] s = Some s' /\ (Locked ∉ threads s) /\ (Locked ∉ threads s').
Proof.
  eexists _, _. split; [vm_compute; reflexivity|]. split; [vm_compute; reflexivity|].
  apply (stop_excludes_handlers 2 1
    [LLoad 0; LExchange 0 true; LExchange 0 false; LExchangeStop 2 false; LUnlock 0; LLoad 1; LExchangeStop 2 false]
    [LExchange 1 false; LLoad 0]).
  - reflexivity.
  - apply (bool_decide_unpack _). vm_compute. exact I.
  - reflexivity.
Defined.

End ScopeRunner.
