(* ===== verification/HttpText.v ===== *)
(** * HttpText: the texts of HTTP ([src/network/http/utility.hpp], first part)

    Field names without case, multimaps of fields, percent coding, query strings and the
    attributes of a header value.  Characters are bytes; positions in a string are [size_t],
    with [npos] for "none"; [None] is the exception of [substr].  The order in which an
    [unordered_multimap] is iterated is the class [Multimap]: inserting adds the field
    somewhere.  Beside each parser stands what it computes, as a split at separators. *)

From S2P Require Import Prelude Decimal.

(** Insertion into an [unordered_multimap]; a map is the list of its fields in the order of
    iteration. *)
Class Multimap := emplace : bytes * bytes -> list (bytes * bytes) -> list (bytes * bytes).

Class MultimapLaws `{Multimap} : Prop := emplace_perm f m : emplace f m ≡ₚ f :: m.

Module HttpText.

(** ** Strings of the standard library *)

Definition size (s : bytes) : Z := Z.of_nat (length s).

Definition npos : Z := 2 ^ 64 - 1.

(** Subtraction of two values of [size_t]. *)
Definition minus (a b : Z) : Z := if b <=? a then a - b else a - b + 2 ^ 64.

(** [s.substr(pos, len)]. *)
Definition substr (s : bytes) (pos len : Z) : option bytes :=
  if size s <? pos then None
  else Some (take (Z.to_nat (Z.min len (size s - pos))) (drop (Z.to_nat pos) s)).

(** [s.find(c, pos)]. *)
Fixpoint find_in (c : Z) (s : bytes) (i : Z) : Z :=
  match s with [] => npos | x :: r => if x =? c then i else find_in c r (i + 1) end.

Definition find (c : Z) (s : bytes) (pos : Z) : Z := find_in c (drop (Z.to_nat pos) s) pos.

Definition tolower (c : Z) : Z := if (65 <=? c) && (c <=? 90) then c + 32 else c.

Definition case_insensitive_equal (str1 str2 : bytes) : bool :=
  (size str1 =? size str2) && forallb (fun '(a, b) => tolower a =? tolower b) (zip str1 str2).

(** A [char] is signed when it becomes an [int]; [hash] is [std::hash<int>]. *)
Definition CaseInsensitiveHash (hash : Z -> Z) (str : bytes) : Z :=
  fold_left (fun h c => Z.lxor h (u64 (hash (wraps 8 (tolower c)) + 0x9e3779b9 + u64 (Z.shiftl h 6) + Z.shiftr h 2)))
    str 0.

(** ** Fields *)

(** [equal_range] and [find]: of several fields with the name, [find] gives the first in the
    order of iteration. *)
Definition equal_range (name : bytes) (m : list (bytes * bytes)) : list (bytes * bytes) :=
  filter (fun f => case_insensitive_equal f.1 name = true) m.

Definition find_field (name : bytes) (m : list (bytes * bytes)) : option bytes :=
  snd <$> head (equal_range name m).

(** ** Percent coding *)

Definition hex_char (d : Z) : Z := if d <? 10 then 48 + d else 55 + d.

Definition unreserved (chr : Z) : bool :=
  ((48 <=? chr) && (chr <=? 57)) || ((65 <=? chr) && (chr <=? 90)) || ((97 <=? chr) && (chr <=? 122)) ||
  (chr =? 45) || (chr =? 46) || (chr =? 95) || (chr =? 126).

Definition encode_char (chr : Z) : bytes :=
  if negb (unreserved chr) then [37; hex_char (Z.shiftr chr 4); hex_char (Z.land chr 15)] else [chr].

Definition Percent_encode (value : bytes) : bytes := value ≫= encode_char.

(** [strtol] and [stoul] in base 16: blanks, a sign, [0x], digits; [None] when there is no
    digit. *)
Definition hex_digit (c : Z) : option Z :=
  if (48 <=? c) && (c <=? 57) then Some (c - 48)
  else if (65 <=? c) && (c <=? 70) then Some (c - 55)
  else if (97 <=? c) && (c <=? 102) then Some (c - 87)
  else None.

Fixpoint hex_value (l : bytes) (acc : Z) : Z :=
  match l with
  | c :: r => match hex_digit c with Some d => hex_value r (16 * acc + d) | None => acc end
  | [] => acc
  end.

Definition hex_digits (l : bytes) : option Z :=
  let after_prefix :=
    match l with
    | z :: x :: d :: r =>
        if (z =? 48) && ((x =? 120) || (x =? 88)) && bool_decide (is_Some (hex_digit d)) then d :: r else l
    | _ => l
    end in
  match after_prefix with
  | c :: _ => if bool_decide (is_Some (hex_digit c)) then Some (hex_value after_prefix 0) else None
  | [] => None
  end.

(** The sign and the magnitude. *)
Definition hex_number (l : bytes) : option (bool * Z) :=
  match skip_spaces l with
  | c :: r =>
      if c =? 45 then v ← hex_digits r; Some (true, v)
      else if c =? 43 then v ← hex_digits r; Some (false, v)
      else v ← hex_digits (c :: r); Some (false, v)
  | [] => None
  end.

(** [strtol] of two characters, cast to [char]; without a digit it gives 0. *)
Definition strtol16 (l : bytes) : Z :=
  match hex_number l with Some (neg, v) => if neg : bool then - v else v | None => 0 end.

Fixpoint Percent_decode (value : bytes) : bytes :=
  match value with
  | [] => []
  | chr :: r =>
      match r with
      | a :: b :: r' =>
          if chr =? 37 then u8 (strtol16 [a; b]) :: Percent_decode r'
          else if chr =? 43 then 32 :: Percent_decode r
          else chr :: Percent_decode r
      | _ => (if chr =? 43 then 32 else chr) :: Percent_decode r
      end
  end.

(** ** Query strings *)

(** The fields in the order of iteration. *)
Fixpoint query_fields (first : bool) (fields : list (bytes * bytes)) : bytes :=
  match fields with
  | [] => []
  | field :: r => (if first then [] else text "&") ++ field.1 ++ text "=" ++ Percent_encode field.2 ++ query_fields false r
  end.

Definition QueryString_create (fields : list (bytes * bytes)) : bytes := query_fields true fields.

Section Parsing.
Context `{Multimap}.

Record query_state := {
  name_pos : Z; name_end_pos : Z; value_pos : Z;
  result : list (bytes * bytes);
}.

Definition query_char (s : bytes) (c x : Z) (st : query_state) : option query_state :=
  let '{| name_pos := name_pos; name_end_pos := name_end_pos; value_pos := value_pos; result := result |} := st in
  if x =? 38 then
    name ← substr s name_pos (minus (if name_end_pos =? npos then c else name_end_pos) name_pos);
    result ← match name with
             | [] => Some result
             | _ =>
                 value ← if value_pos =? npos then Some [] else substr s value_pos (minus c value_pos);
                 Some (emplace (name, Percent_decode value) result)
             end;
    Some {| name_pos := c + 1; name_end_pos := npos; value_pos := npos; result := result |}
  else if x =? 61 then
    Some {| name_pos := name_pos; name_end_pos := c; value_pos := c + 1; result := result |}
  else Some st.

(** The loop over the characters [rest] of [s], from index [c]. *)
Fixpoint query_loop (s rest : bytes) (c : Z) (st : query_state) : option query_state :=
  match rest with
  | [] => Some st
  | x :: r => st ← query_char s c x st; query_loop s r (c + 1) st
  end.

Definition query_end (s : bytes) (st : query_state) : option (list (bytes * bytes)) :=
  if name_pos st <? size s then
    name ← substr s (name_pos st) (minus (name_end_pos st) (name_pos st));
    match name with
    | [] => Some (result st)
    | _ =>
        value ← if size s <=? value_pos st then Some [] else substr s (value_pos st) npos;
        Some (emplace (name, Percent_decode value) (result st))
    end
  else Some (result st).

Definition QueryString_parse (query_string : bytes) : option (list (bytes * bytes)) :=
  match query_string with
  | [] => Some []
  | _ =>
      st ← query_loop query_string query_string 0
             {| name_pos := 0; name_end_pos := npos; value_pos := npos; result := [] |};
      query_end query_string st
  end.

(** ** Attributes separated by semicolons *)

Record attr_state := {
  name_start : Z; name_end : Z; value_start : Z;
  attrs : list (bytes * bytes);
}.

Definition no_attr (m : list (bytes * bytes)) : attr_state :=
  {| name_start := npos; name_end := npos; value_start := npos; attrs := m |}.

Definition attr_char (str : bytes) (c x : Z) (st : attr_state) : option attr_state :=
  let '{| name_start := name_start; name_end := name_end; value_start := value_start; attrs := attrs |} := st in
  if name_start =? npos then
    Some (if negb (x =? 32) && negb (x =? 59)
          then {| name_start := c; name_end := name_end; value_start := value_start; attrs := attrs |} else st)
  else if name_end =? npos then
    if x =? 59 then
      name ← substr str name_start (minus c name_start);
      Some {| name_start := npos; name_end := name_end; value_start := value_start; attrs := emplace (name, []) attrs |}
    else if x =? 61 then
      Some {| name_start := name_start; name_end := c; value_start := value_start; attrs := attrs |}
    else Some st
  else if value_start =? npos then
    Some {| name_start := name_start; name_end := name_end;
            value_start := if (x =? 34) && (c + 1 <? size str) then c + 1 else c; attrs := attrs |}
  else if (x =? 34) || (x =? 59) then
    name ← substr str name_start (minus name_end name_start);
    value ← substr str value_start (minus c value_start);
    Some (no_attr (emplace (name, Percent_decode value) attrs))
  else Some st.

Fixpoint attr_loop (str rest : bytes) (c : Z) (st : attr_state) : option attr_state :=
  match rest with
  | [] => Some st
  | x :: r => st ← attr_char str c x st; attr_loop str r (c + 1) st
  end.

Definition attr_end (str : bytes) (st : attr_state) : option (list (bytes * bytes)) :=
  if name_start st =? npos then Some (attrs st)
  else if name_end st =? npos then
    name ← substr str (name_start st) npos; Some (emplace (name, []) (attrs st))
  else if value_start st =? npos then Some (attrs st)
  else
    name ← substr str (name_start st) (minus (name_end st) (name_start st));
    value ← substr str (value_start st) (if decide (last str = Some 34) then minus (size str) 1 else npos);
    Some (emplace (name, Percent_decode value) (attrs st)).

Definition SemicolonSeparatedAttributes_parse (str : bytes) : option (list (bytes * bytes)) :=
  st ← attr_loop str str 0 (no_attr []); attr_end str st.

End Parsing.

(** ** What the parsers compute *)

(** The last occurrence of [c]: what is before and what is after it. *)
Fixpoint last_split (c : Z) (s : bytes) : option (bytes * bytes) :=
  match s with
  | [] => None
  | x :: r =>
      match last_split c r with
      | Some (a, b) => Some (x :: a, b)
      | None => if x =? c then Some ([], r) else None
      end
  end.

(** The pieces of [q ++ s] between the occurrences of [c] in [s]. *)
Fixpoint split_from (c : Z) (q s : bytes) : list bytes :=
  match s with
  | [] => [q]
  | x :: r => if x =? c then q :: split_from c [] r else split_from c (q ++ [x]) r
  end.

Definition split_on (c : Z) (s : bytes) : list bytes := split_from c [] s.

(** A piece of a query string: the name is what stands before the last equals sign. *)
Definition query_field (piece : bytes) : option (bytes * bytes) :=
  let '(name, value) := default (piece, []) (last_split 61 piece) in
  match name with [] => None | _ => Some (name, Percent_decode value) end.

(** ** Lemmas on strings *)

Lemma size_append (a b : bytes) : size (a ++ b) = size a + size b.
Proof. unfold size. rewrite length_app. lia. Qed.

Lemma size_cons x (a : bytes) : size (x :: a) = 1 + size a.
Proof. unfold size. cbn [length]. lia. Qed.

Lemma size_ge0 (a : bytes) : 0 <= size a.
Proof. unfold size. lia. Qed.

Lemma minus_le a b : b <= a -> minus a b = a - b.
Proof. intros H. unfold minus. by rewrite (proj2 (Z.leb_le _ _)). Qed.

Lemma substr_suffix a r len : size r <= len -> substr (a ++ r) (size a) len = Some r.
Proof.
  intros Hlen. unfold substr. rewrite size_append. pose proof (size_ge0 r).
  rewrite (proj2 (Z.ltb_ge _ _)) by lia. replace (size a + size r - size a) with (size r) by lia.
  rewrite Z.min_r by lia. unfold size. rewrite !Nat2Z.id, drop_app_length. by rewrite firstn_all.
Qed.

Lemma substr_middle a b r : substr (a ++ b ++ r) (size a) (size b) = Some b.
Proof.
  unfold substr. rewrite !size_append. pose proof (size_ge0 b). pose proof (size_ge0 r).
  rewrite (proj2 (Z.ltb_ge _ _)) by lia. rewrite Z.min_l by lia.
  unfold size. rewrite !Nat2Z.id, drop_app_length. by rewrite take_app_length.
Qed.

Lemma substr_prefix b r : substr (b ++ r) 0 (size b) = Some b.
Proof. apply (substr_middle []). Qed.

Lemma find_in_none c s i : c ∉ s -> find_in c s i = npos.
Proof.
  revert i. induction s as [|x r IH]; intros i Hc; [done|]. cbn [find_in].
  apply not_elem_of_cons in Hc as [Hx Hr]. rewrite (proj2 (Z.eqb_neq _ _)) by done. by apply IH.
Qed.

Lemma find_in_first c a r i : c ∉ a -> find_in c (a ++ c :: r) i = i + size a.
Proof.
  revert i. induction a as [|x a IH]; intros i Hc; cbn [find_in app].
  - rewrite Z.eqb_refl. unfold size. cbn. lia.
  - apply not_elem_of_cons in Hc as [Hx Hr]. rewrite (proj2 (Z.eqb_neq _ _)) by done.
    rewrite IH by done. rewrite size_cons. lia.
Qed.

Lemma find_first c p a r : c ∉ a -> find c (p ++ a ++ c :: r) (size p) = size p + size a.
Proof. intros Hc. unfold find, size at 1. rewrite Nat2Z.id, drop_app_length. by apply find_in_first. Qed.

Lemma find_none c p a : c ∉ a -> find c (p ++ a) (size p) = npos.
Proof. intros Hc. unfold find, size at 1. rewrite Nat2Z.id, drop_app_length. by apply find_in_none. Qed.

(** ** Names without case *)

Lemma case_insensitive_equal_spec a b : case_insensitive_equal a b = true <-> tolower <$> a = tolower <$> b.
Proof.
  unfold case_insensitive_equal, size. rewrite andb_true_iff, Z.eqb_eq, Nat2Z.inj_iff. revert b.
  induction a as [|x a IH]; intros [|y b]; cbn; [done|by split; [intros [? ?]|]..|].
  rewrite andb_true_iff, Z.eqb_eq. specialize (IH b). split.
  - intros [Hl [Hx Hr]]. f_equal; [done|]. apply IH. split; [lia|done].
  - intros [= Hx Hr]. apply IH in Hr as [Hl Hr]. split; [lia|done].
Qed.

#[export] Instance case_insensitive_equiv : Equivalence (fun a b => case_insensitive_equal a b = true).
Proof.
  split; [intros a|intros a b|intros a b c]; rewrite !case_insensitive_equal_spec; congruence.
Qed.

(** Names that are equal have the same hash, so the map finds one under the other. *)
Lemma hash_respects_case hash a b :
  case_insensitive_equal a b = true -> CaseInsensitiveHash hash a = CaseInsensitiveHash hash b.
Proof.
  rewrite case_insensitive_equal_spec. unfold CaseInsensitiveHash. generalize 0 as h. revert b.
  induction a as [|x a IH]; intros [|y b] h; cbn; try done. intros [= Hx Hr]. rewrite Hx. by apply IH.
Qed.

#[export] Instance equal_range_proper name : Proper ((≡ₚ) ==> (≡ₚ)) (equal_range name).
Proof. intros m m' E. unfold equal_range. by rewrite E. Qed.

(** A name that occurs once is found whatever the order of the fields. *)
Lemma find_field_unique name m m' f :
  m ≡ₚ m' -> equal_range name m = [f] -> find_field name m' = Some f.2.
Proof.
  intros E Hf. pose proof (equal_range_proper name m m' E) as Hp. rewrite Hf in Hp.
  apply Permutation_singleton_l in Hp. unfold find_field. by rewrite <- Hp.
Qed.

Lemma find_field_none name m m' : m ≡ₚ m' -> equal_range name m = [] -> find_field name m' = None.
Proof.
  intros E Hf. pose proof (equal_range_proper name m m' E) as Hp. rewrite Hf in Hp.
  apply Permutation_nil_l in Hp. unfold find_field. by rewrite <- Hp.
Qed.

Lemma emplace_all `{MultimapLaws} fs m : foldl (fun m f => emplace f m) m fs ≡ₚ fs ++ m.
Proof.
  revert m. induction fs as [|f fs IH]; intros m; [done|]. cbn [foldl app]. rewrite IH, emplace_perm.
  by rewrite Permutation_middle.
Qed.

(** ** Percent coding *)

Lemma hex_digit_char d : 0 <= d < 16 -> hex_digit (hex_char d) = Some d.
Proof.
  intros Hd. unfold hex_char, hex_digit. destruct (Z.ltb_spec d 10).
  - rewrite (proj2 (Z.leb_le 48 _)), (proj2 (Z.leb_le _ 57)) by lia. cbn [andb]. f_equal. lia.
  - rewrite (proj2 (Z.leb_gt _ 57)), (proj2 (Z.leb_le 48 _)) by lia. cbn [andb].
    rewrite (proj2 (Z.leb_le 65 _)), (proj2 (Z.leb_le _ 70)) by lia. cbn [andb]. f_equal. lia.
Qed.

Lemma hex_char_range d : 0 <= d < 16 -> 48 <= hex_char d <= 57 \/ 65 <= hex_char d <= 70.
Proof. intros Hd. unfold hex_char. destruct (Z.ltb_spec d 10); lia. Qed.

Lemma hex_digits_char x y : 0 <= x < 16 -> 0 <= y < 16 ->
  hex_digits [hex_char x; hex_char y] = Some (16 * x + y).
Proof.
  intros Hx Hy. unfold hex_digits. rewrite bool_decide_eq_true_2 by (rewrite hex_digit_char by done; by eexists).
  cbn [hex_value]. by rewrite !hex_digit_char.
Qed.

Lemma strtol16_chars x y : 0 <= x < 16 -> 0 <= y < 16 -> strtol16 [hex_char x; hex_char y] = 16 * x + y.
Proof.
  intros Hx Hy. pose proof (hex_char_range x Hx). unfold strtol16, hex_number. cbn [skip_spaces]. unfold is_space.
  rewrite (proj2 (Z.eqb_neq _ 32)), (proj2 (Z.leb_gt _ 13)), andb_false_r by lia. cbn [orb].
  rewrite (proj2 (Z.eqb_neq _ 45)), (proj2 (Z.eqb_neq _ 43)) by lia. by rewrite hex_digits_char.
Qed.

Lemma unreserved_spec c : unreserved c = true -> c <> 37 /\ c <> 43 /\ c <> 38 /\ c <> 61 /\ c <> 34 /\ c <> 59 /\ 0 <= c.
Proof. unfold unreserved. lia. Qed.

Lemma encoded_byte chr : in_u 8 chr -> 16 * Z.shiftr chr 4 + Z.land chr 15 = chr /\
  0 <= Z.shiftr chr 4 < 16 /\ 0 <= Z.land chr 15 < 16.
Proof.
  intros Hc. unfold in_u in Hc. change 15 with (Z.ones 4).
  rewrite Z.shiftr_div_pow2, Z.land_ones by lia. change (2 ^ 4) with 16.
  pose proof (Z.div_mod chr 16). pose proof (Z.mod_pos_bound chr 16).
  pose proof (Z.div_lt_upper_bound chr 16 16). pose proof (Z.div_pos chr 16). lia.
Qed.

Lemma decode_plain c r : c <> 37 -> c <> 43 -> Percent_decode (c :: r) = c :: Percent_decode r.
Proof.
  intros H1 H2. cbn [Percent_decode]. rewrite (proj2 (Z.eqb_neq c 37)), (proj2 (Z.eqb_neq c 43)) by done.
  by destruct r as [|a [|b r]].
Qed.

Lemma decode_encoded a b r : Percent_decode (37 :: a :: b :: r) = u8 (strtol16 [a; b]) :: Percent_decode r.
Proof. done. Qed.

(** What is encoded is decoded to the same bytes, whatever follows. *)
Lemma decode_encode_app v r : Forall (in_u 8) v -> Percent_decode (Percent_encode v ++ r) = v ++ Percent_decode r.
Proof.
  induction 1 as [|c v Hc Hv IH]; [done|]. unfold Percent_encode in *. cbn [mbind list_bind]. rewrite <- app_assoc.
  unfold encode_char at 1. destruct (unreserved c) eqn:E; cbn [negb app].
  - apply unreserved_spec in E. rewrite decode_plain by lia. by rewrite IH.
  - destruct (encoded_byte c Hc) as (E1 & H1 & H2).
    rewrite decode_encoded, strtol16_chars, E1, wrapu_small by done. by rewrite IH.
Qed.

Lemma percent_decode_encode v : Forall (in_u 8) v -> Percent_decode (Percent_encode v) = v.
Proof. intros Hv. rewrite <- (app_nil_r (Percent_encode v)), decode_encode_app by done. apply app_nil_r. Qed.

(** An encoded value has none of the separators. *)
Lemma encoded_chars v : Forall (in_u 8) v ->
  Forall (fun c => c = 37 \/ unreserved c = true) (Percent_encode v).
Proof.
  induction 1 as [|c v Hc Hv IH]; [constructor|]. unfold Percent_encode in *. cbn [mbind list_bind].
  apply Forall_app. split; [|done]. unfold encode_char. destruct (unreserved c) eqn:E; cbn [negb].
  - apply Forall_singleton. by right.
  - destruct (encoded_byte c Hc) as (_ & H1 & H2).
    apply hex_char_range in H1, H2. apply Forall_cons. split; [by left|].
    apply Forall_cons. split; [|apply Forall_singleton]; right; unfold unreserved; lia.
Qed.

Lemma encoded_no c v : Forall (in_u 8) v -> c <> 37 -> unreserved c = false -> c ∉ Percent_encode v.
Proof.
  intros Hv Hc Hu Hin. apply encoded_chars in Hv. rewrite Forall_forall in Hv.
  apply Hv in Hin as [->|Hin]; congruence.
Qed.

(** ** The query parser computes the split *)

Lemma last_split_snoc c q x :
  last_split c (q ++ [x]) =
  if x =? c then Some (q, []) else (fun '(a, b) => (a, b ++ [x])) <$> last_split c q.
Proof.
  induction q as [|y q IH]; cbn [app last_split]; [by destruct (x =? c)|]. rewrite IH.
  destruct (x =? c); [done|]. destruct (last_split c q) as [[a b]|]; cbn; [done|]. by destruct (y =? c).
Qed.

Lemma last_split_app c s a b : last_split c s = Some (a, b) -> s = a ++ c :: b.
Proof.
  revert a b. induction s as [|x r IH]; intros a b; cbn [last_split]; [done|].
  destruct (last_split c r) as [[a' b']|].
  - intros [= <- <-]. by rewrite (IH a' b').
  - destruct (Z.eqb_spec x c) as [->|]; [|done]. by intros [= <- <-].
Qed.

Lemma last_split_at c a b : c ∉ b -> last_split c (a ++ c :: b) = Some (a, b).
Proof.
  intros Hb. induction a as [|x a IH]; cbn [app last_split]; [|by rewrite IH].
  rewrite Z.eqb_refl. replace (last_split c b) with (@None (bytes * bytes)); [done|].
  induction b as [|y b IHb]; [done|]. apply not_elem_of_cons in Hb as [Hy Hb]. cbn [last_split].
  rewrite <- IHb by done. by rewrite (proj2 (Z.eqb_neq _ _)).
Qed.

Section Query.
Context `{MultimapLaws}.

Definition add_field (m : list (bytes * bytes)) (f : option (bytes * bytes)) : list (bytes * bytes) :=
  match f with Some f => emplace f m | None => m end.

(** The state of the loop after the piece [q] that begins behind [pre]. *)
Definition in_piece (pre q : bytes) (m : list (bytes * bytes)) : query_state :=
  match last_split 61 q with
  | None => {| name_pos := size pre; name_end_pos := npos; value_pos := npos; result := m |}
  | Some (a, _) =>
      {| name_pos := size pre; name_end_pos := size pre + size a; value_pos := size pre + size a + 1; result := m |}
  end.

(** Name and value of a piece that is followed by [r]. *)
Lemma piece_parts pre a b r :
  substr (pre ++ (a ++ 61 :: b) ++ r) (size pre) (size a) = Some a /\
  substr (pre ++ (a ++ 61 :: b) ++ r) (size pre + size a + 1) (size b) = Some b.
Proof.
  split; [rewrite <- app_assoc; apply substr_middle|].
  replace (pre ++ (a ++ 61 :: b) ++ r) with ((pre ++ a ++ [61]) ++ b ++ r) by (by rewrite <- !app_assoc).
  replace (size pre + size a + 1) with (size (pre ++ a ++ [61])) by (rewrite !size_append; unfold size; cbn; lia).
  apply substr_middle.
Qed.

Lemma query_char_amp pre q r m : size (pre ++ q ++ 38 :: r) < npos ->
  query_char (pre ++ q ++ 38 :: r) (size pre + size q) 38 (in_piece pre q m) =
  Some (in_piece (pre ++ q ++ [38]) [] (add_field m (query_field q))).
Proof.
  intros Hs. rewrite !size_append, size_cons in Hs. pose proof (size_ge0 pre). pose proof (size_ge0 r).
  replace (in_piece (pre ++ q ++ [38]) [] (add_field m (query_field q))) with
    {| name_pos := size pre + size q + 1; name_end_pos := npos; value_pos := npos;
       result := add_field m (query_field q) |}
    by (unfold in_piece; cbn [last_split]; rewrite !size_append; f_equal; unfold size; cbn; lia).
  unfold in_piece, query_field. destruct (last_split 61 q) as [[a b]|] eqn:E; cbn [query_char default].
  - apply last_split_app in E as ->. rewrite size_append, size_cons in *.
    pose proof (size_ge0 a). pose proof (size_ge0 b).
    rewrite Z.eqb_refl, (proj2 (Z.eqb_neq (size pre + size a) npos)) by lia.
    rewrite !minus_le by lia. replace (size pre + size a - size pre) with (size a) by lia.
    destruct (piece_parts pre a b (38 :: r)) as [-> Hv]. cbn [mbind option_bind].
    destruct a as [|x a]; [done|]. rewrite (proj2 (Z.eqb_neq _ npos)) by lia.
    replace (_ - _) with (size b) by lia. by rewrite Hv.
  - rewrite !Z.eqb_refl, minus_le by (pose proof (size_ge0 q); lia).
    replace (size pre + size q - size pre) with (size q) by lia. rewrite substr_middle. cbn [mbind option_bind].
    by destruct q.
Qed.

Lemma query_char_other pre q x r m : x <> 38 -> size (pre ++ q ++ x :: r) < npos ->
  query_char (pre ++ q ++ x :: r) (size pre + size q) x (in_piece pre q m) = Some (in_piece pre (q ++ [x]) m).
Proof.
  intros Hx Hs. unfold in_piece. rewrite last_split_snoc.
  destruct (last_split 61 q) as [[a b]|]; cbn [query_char fmap option_fmap option_map];
    rewrite (proj2 (Z.eqb_neq x 38)) by done; by destruct (x =? 61).
Qed.

Lemma query_end_spec pre q m : size (pre ++ q) < npos ->
  query_end (pre ++ q) (in_piece pre q m) = Some (add_field m (query_field q)).
Proof.
  intros Hs. rewrite size_append in Hs. pose proof (size_ge0 pre).
  unfold query_end, query_field, in_piece. rewrite size_append.
  destruct (last_split 61 q) as [[a b]|] eqn:E; cbn [name_pos name_end_pos value_pos result default].
  - apply last_split_app in E as ->. rewrite size_append, size_cons in *.
    pose proof (size_ge0 a). pose proof (size_ge0 b).
    rewrite (proj2 (Z.ltb_lt _ _)), minus_le by lia. replace (size pre + size a - size pre) with (size a) by lia.
    destruct (piece_parts pre a b []) as [Hn _]. rewrite !app_nil_r in Hn. rewrite Hn. cbn [mbind option_bind].
    destruct a as [|x a]; [done|]. destruct (Z.leb_spec (size pre + (size (x :: a) + (1 + size b))) (size pre + size (x :: a) + 1)).
    + by replace b with (@nil Z) by (destruct b; [done|rewrite !size_cons in *; pose proof (size_ge0 b); lia]).
    + replace (pre ++ (x :: a) ++ 61 :: b) with ((pre ++ (x :: a) ++ [61]) ++ b) by (by rewrite <- !app_assoc).
      replace (size pre + size (x :: a) + 1) with (size (pre ++ (x :: a) ++ [61]))
        by (rewrite !size_append; unfold size; cbn [length]; lia).
      by rewrite substr_suffix by lia.
  - destruct q as [|x q]; [by rewrite (proj2 (Z.ltb_ge _ _)) by (change (size []) with 0; lia)|].
    rewrite size_cons in *. pose proof (size_ge0 q). rewrite (proj2 (Z.ltb_lt _ _)), minus_le by lia.
    rewrite substr_suffix by (rewrite size_cons; lia). cbn [mbind option_bind].
    by rewrite (proj2 (Z.leb_le _ _)) by lia.
Qed.

Lemma query_loop_spec rest pre q m : size (pre ++ q ++ rest) < npos ->
  (st ← query_loop (pre ++ q ++ rest) rest (size pre + size q) (in_piece pre q m);
   query_end (pre ++ q ++ rest) st) = Some (foldl add_field m (query_field <$> split_from 38 q rest)).
Proof.
  revert pre q m. induction rest as [|x rest IH]; intros pre q m Hs; cbn [query_loop split_from].
  { rewrite app_nil_r in *. cbn [mbind option_bind fmap list_fmap foldl]. by apply query_end_spec. }
  destruct (Z.eqb_spec x 38) as [->|Hx].
  - rewrite query_char_amp by done. cbn [mbind option_bind fmap list_fmap foldl].
    replace (pre ++ q ++ 38 :: rest) with ((pre ++ q ++ [38]) ++ [] ++ rest) in * by (by rewrite <- !app_assoc).
    rewrite <- (IH (pre ++ q ++ [38]) []) by done. do 2 f_equal. rewrite !size_append. unfold size. cbn. lia.
  - rewrite query_char_other by done. cbn [mbind option_bind].
    replace (pre ++ q ++ x :: rest) with (pre ++ (q ++ [x]) ++ rest) in * by (by rewrite <- !app_assoc).
    rewrite <- (IH pre) by done. do 2 f_equal. rewrite !size_append. unfold size. cbn. lia.
Qed.

(** The parser splits at the ampersands and each piece at its last equals sign; it throws
    nothing, on any string. *)
Lemma QueryString_parse_spec s : size s < npos ->
  QueryString_parse s = Some (foldl add_field [] (query_field <$> split_on 38 s)).
Proof.
  intros Hs. destruct s as [|x s]; [done|].
  pose proof (query_loop_spec (x :: s) [] [] [] Hs) as E. exact E.
Qed.

Lemma add_fields fs m : foldl add_field m (Some <$> fs) ≡ₚ fs ++ m.
Proof.
  rewrite <- emplace_all. revert m. induction fs as [|f fs IH]; intros m; [done|]. cbn. apply IH.
Qed.

Lemma split_from_pieces c q r s : c ∉ r -> split_from c q (r ++ c :: s) = (q ++ r) :: split_from c [] s.
Proof.
  revert q. induction r as [|x r IH]; intros q Hr; cbn [app split_from]; [by rewrite Z.eqb_refl, app_nil_r|].
  apply not_elem_of_cons in Hr as [Hx Hr]. rewrite (proj2 (Z.eqb_neq _ _)), IH by done. by rewrite <- app_assoc.
Qed.

Lemma split_from_last c q r : c ∉ r -> split_from c q r = [q ++ r].
Proof.
  revert q. induction r as [|x r IH]; intros q Hr; cbn [split_from]; [by rewrite app_nil_r|].
  apply not_elem_of_cons in Hr as [Hx Hr]. rewrite (proj2 (Z.eqb_neq _ _)), IH by done. by rewrite <- app_assoc.
Qed.

(** A field as [create] writes it. *)
Definition query_piece (f : bytes * bytes) : bytes := f.1 ++ text "=" ++ Percent_encode f.2.

Definition good_query_field (f : bytes * bytes) : Prop := f.1 <> [] /\ (38 ∉ f.1) /\ Forall (in_u 8) f.2.

Lemma query_field_piece f : good_query_field f -> query_field (query_piece f) = Some f.
Proof.
  destruct f as [name value]. intros (Hn & _ & Hv). unfold query_field, query_piece. cbn [fst snd] in *.
  change (text "=" ++ Percent_encode value) with (61 :: Percent_encode value).
  rewrite last_split_at by (by apply encoded_no). cbn. rewrite percent_decode_encode by done. by destruct name.
Qed.

Lemma piece_no_amp f : good_query_field f -> 38 ∉ query_piece f.
Proof.
  intros (_ & Hn & Hv). unfold query_piece. rewrite !not_elem_of_app. split; [done|]. split.
  - cbn. rewrite list_elem_of_singleton. done.
  - by apply encoded_no.
Qed.

Lemma split_query_fields f fs : Forall good_query_field (f :: fs) ->
  split_on 38 (query_fields true (f :: fs)) = query_piece <$> (f :: fs).
Proof.
  unfold split_on. cbn [query_fields app]. rewrite !app_assoc, <- (app_assoc f.1). fold (query_piece f).
  revert f. induction fs as [|g fs IH]; intros f Hf; apply Forall_cons in Hf as [Hf Hfs]; cbn [query_fields].
  - rewrite app_nil_r, split_from_last by (by apply piece_no_amp). done.
  - change (text "&") with [38]. cbn [app]. rewrite split_from_pieces by (by apply piece_no_amp).
    cbn [fmap list_fmap app] in *. f_equal. rewrite !app_assoc, <- (app_assoc g.1). by apply IH.
Qed.

(** [QueryString::parse] gives back the fields that [QueryString::create] was given, in
    some order, when no name is empty or has an ampersand (names are not encoded): any bytes
    in the values survive. *)
Theorem query_round_trip fields :
  Forall good_query_field fields -> size (QueryString_create fields) < npos ->
  exists m, QueryString_parse (QueryString_create fields) = Some m /\ m ≡ₚ fields.
Proof.
  intros Hf Hs. destruct fields as [|f fs]; [by exists []|].
  eexists. split; [by apply QueryString_parse_spec|].
  unfold QueryString_create. rewrite split_query_fields, <- list_fmap_compose by done.
  rewrite (list_fmap_ext (query_field ∘ query_piece) Some (f :: fs)).
  - by rewrite add_fields, app_nil_r.
  - intros i x Hi. apply query_field_piece. by apply (Forall_lookup_1 _ _ i _ Hf).
Qed.

(** A value that holds an equals sign of its own is cut: the name takes the rest of it. *)
Theorem last_equals_sign_separates a b c :
  38 ∉ a ++ b ++ c -> 61 ∉ c -> size (a ++ 61 :: b ++ 61 :: c) < npos ->
  QueryString_parse (a ++ 61 :: b ++ 61 :: c) = Some (emplace (a ++ 61 :: b, Percent_decode c) []).
Proof.
  rewrite !not_elem_of_app. intros (Ha & Hb & Hc) Hc' Hs. rewrite QueryString_parse_spec by done. unfold split_on.
  assert (38 ∉ a ++ 61 :: b ++ 61 :: c).
  { rewrite not_elem_of_app, not_elem_of_cons, not_elem_of_app, not_elem_of_cons. naive_solver. }
  rewrite split_from_last by done. cbn [fmap list_fmap foldl app]. unfold query_field.
  replace (a ++ 61 :: b ++ 61 :: c) with ((a ++ 61 :: b) ++ 61 :: c) by (by rewrite <- app_assoc).
  rewrite last_split_at by done. cbn. by destruct a.
Qed.

(** ** Attributes *)

(** Positions of the loop at index [c]. *)
Definition attr_ok (c : Z) (st : attr_state) : Prop :=
  (name_start st = npos -> name_end st = npos) /\ (name_end st = npos -> value_start st = npos) /\
  (name_start st <> npos -> name_start st <= c) /\ (name_end st <> npos -> name_end st <= c) /\
  (value_start st <> npos -> value_start st <= c).

Lemma substr_in s pos len : pos <= size s -> exists t, substr s pos len = Some t.
Proof. intros Hp. unfold substr. rewrite (proj2 (Z.ltb_ge _ _)) by lia. by eexists. Qed.

Lemma attr_char_ok str c x st : 0 <= c < size str -> attr_ok c st ->
  exists st', attr_char str c x st = Some st' /\ attr_ok (c + 1) st'.
Proof.
  intros Hc Hok. destruct st as [ns ne vs m]. unfold attr_ok in *. cbn [name_start name_end value_start attr_char] in *.
  destruct Hok as (H4 & H5 & H1 & H2 & H3). destruct (Z.eqb_spec ns npos) as [->|Hns].
  { eexists. split; [done|]. destruct (negb (x =? 32) && negb (x =? 59)); cbn; lia. }
  destruct (Z.eqb_spec ne npos) as [->|Hne].
  - destruct (x =? 59).
    + destruct (substr_in str ns (minus c ns)) as [t ->]; [lia|]. eexists. split; [done|]. cbn. lia.
    + destruct (x =? 61); eexists; (split; [done|]); cbn; lia.
  - destruct (Z.eqb_spec vs npos) as [->|Hvs].
    + eexists. split; [done|]. cbn. destruct ((x =? 34) && (c + 1 <? size str)); lia.
    + destruct ((x =? 34) || (x =? 59)).
      * destruct (substr_in str ns (minus ne ns)) as [t ->]; [lia|].
        destruct (substr_in str vs (minus c vs)) as [t' ->]; [lia|]. eexists. split; [done|]. cbn. lia.
      * eexists. split; [done|]. cbn. lia.
Qed.

Lemma attr_loop_ok str rest c st : 0 <= c -> c + size rest = size str -> attr_ok c st ->
  exists st', attr_loop str rest c st = Some st' /\ attr_ok (size str) st'.
Proof.
  revert c st. induction rest as [|x rest IH]; intros c st Hc Hs Hok; cbn [attr_loop].
  - exists st. split; [done|]. by replace (size str) with c by (change (size []) with 0 in Hs; lia).
  - rewrite size_cons in Hs. pose proof (size_ge0 rest).
    destruct (attr_char_ok str c x st) as (st' & -> & Hok'); [lia|done|]. cbn [mbind option_bind]. apply IH; [lia..|done].
Qed.

(** No header value makes the parser of attributes throw. *)
Theorem attributes_never_throw str : exists m, SemicolonSeparatedAttributes_parse str = Some m.
Proof.
  unfold SemicolonSeparatedAttributes_parse.
  destruct (attr_loop_ok str str 0 (no_attr [])) as (st & -> & Hok); [done|lia|done|]. cbn [mbind option_bind].
  destruct st as [ns ne vs m]. unfold attr_end, attr_ok in *. cbn [name_start name_end value_start attrs] in *.
  destruct Hok as (H4 & H5 & H1 & H2 & H3). destruct (Z.eqb_spec ns npos) as [->|Hns]; [by eexists|].
  destruct (substr_in str ns npos) as [t Ht]; [lia|]. destruct (substr_in str ns (minus ne ns)) as [t1 Ht1]; [lia|].
  destruct (Z.eqb_spec ne npos); [by rewrite Ht; eexists|].
  destruct (Z.eqb_spec vs npos); [by eexists|]. rewrite Ht1. cbn [mbind option_bind].
  edestruct (substr_in str vs) as [t2 ->]; [lia|]. by eexists.
Qed.

(** A semicolon inside quotes ends the value, and the rest becomes an attribute. *)
Theorem quoted_semicolon_cuts_value :
  SemicolonSeparatedAttributes_parse (text "a=" ++ [34] ++ text "x;y" ++ [34]) =
  Some (emplace (text "y" ++ [34], []) (emplace (text "a", text "x") [])).
Proof. reflexivity. Qed.

(** After an empty value the next attribute is taken for the value. *)
Theorem empty_value_takes_next_attribute :
  SemicolonSeparatedAttributes_parse (text "a=; b") = Some (emplace (text "a", text "; b") []).
Proof. reflexivity. Qed.

End Query.

(** A map whose iteration order is that of insertion. *)
Definition in_order : Multimap := fun f m => m ++ [f].

Lemma in_order_laws : @MultimapLaws in_order.
Proof. intros f m. unfold emplace, in_order. by rewrite Permutation_app_comm. Qed.

Example parses_two_fields :
  @QueryString_parse in_order (text "a=1%202&b=x+y&c") =
  Some [(text "a", text "1 2"); (text "b", text "x y"); (text "c", [])].
Proof. reflexivity. Qed.

Lemma query_round_trip_witness :
  exists m, @QueryString_parse in_order (QueryString_create [(text "name", text "a b&c"); (text "k", [])]) = Some m /\
    m ≡ₚ [(text "name", text "a b&c"); (text "k", [])].
Proof.
  apply (@query_round_trip in_order in_order_laws).
  - repeat constructor; cbn; try done; try (apply (bool_decide_unpack _); vm_compute; done).
  - vm_compute. reflexivity.
Defined.

End HttpText.
