(* ===== verification/HttpMessage.v ===== *)
(** * HttpMessage: request and response messages ([src/network/http/utility.hpp], second part,
    and [status_code.hpp])

    The input stream over the characters a connection has received, [getline] as the standard
    library has it (a stream that met its end leaves the line as it is), the header fields,
    the first lines, and the status codes.  [None] of a loop is that it has not ended within
    its fuel; [substr] never throws here. *)

From S2P Require Import Prelude Decimal HttpText.
Import HttpText.

Module HttpMessage.

(** ** Status codes *)

Inductive StatusCode :=
  | unknown | information_continue | information_switching_protocols | information_processing
  | success_ok | success_created | success_accepted | success_non_authoritative_information
  | success_no_content | success_reset_content | success_partial_content | success_multi_status
  | success_already_reported | success_im_used | redirection_multiple_choices
  | redirection_moved_permanently | redirection_found | redirection_see_other
  | redirection_not_modified | redirection_use_proxy | redirection_switch_proxy
  | redirection_temporary_redirect | redirection_permanent_redirect | client_error_bad_request
  | client_error_unauthorized | client_error_payment_required | client_error_forbidden
  | client_error_not_found | client_error_method_not_allowed | client_error_not_acceptable
  | client_error_proxy_authentication_required | client_error_request_timeout
  | client_error_conflict | client_error_gone | client_error_length_required
  | client_error_precondition_failed | client_error_payload_too_large | client_error_uri_too_long
  | client_error_unsupported_media_type | client_error_range_not_satisfiable
  | client_error_expectation_failed | client_error_im_a_teapot
  | client_error_misdirection_required | client_error_unprocessable_entity | client_error_locked
  | client_error_failed_dependency | client_error_upgrade_required
  | client_error_precondition_required | client_error_too_many_requests
  | client_error_request_header_fields_too_large | client_error_unavailable_for_legal_reasons
  | server_error_internal_server_error | server_error_not_implemented | server_error_bad_gateway
  | server_error_service_unavailable | server_error_gateway_timeout
  | server_error_http_version_not_supported | server_error_variant_also_negotiates
  | server_error_insufficient_storage | server_error_loop_detected | server_error_not_extended
  | server_error_network_authentication_required.

(** The values of the enumeration. *)
Definition code (c : StatusCode) : Z :=
  match c with
  | unknown => 0
  | information_continue => 100
  | information_switching_protocols => 101
  | information_processing => 102
  | success_ok => 200
  | success_created => 201
  | success_accepted => 202
  | success_non_authoritative_information => 203
  | success_no_content => 204
  | success_reset_content => 205
  | success_partial_content => 206
  | success_multi_status => 207
  | success_already_reported => 208
  | success_im_used => 226
  | redirection_multiple_choices => 300
  | redirection_moved_permanently => 301
  | redirection_found => 302
  | redirection_see_other => 303
  | redirection_not_modified => 304
  | redirection_use_proxy => 305
  | redirection_switch_proxy => 306
  | redirection_temporary_redirect => 307
  | redirection_permanent_redirect => 308
  | client_error_bad_request => 400
  | client_error_unauthorized => 401
  | client_error_payment_required => 402
  | client_error_forbidden => 403
  | client_error_not_found => 404
  | client_error_method_not_allowed => 405
  | client_error_not_acceptable => 406
  | client_error_proxy_authentication_required => 407
  | client_error_request_timeout => 408
  | client_error_conflict => 409
  | client_error_gone => 410
  | client_error_length_required => 411
  | client_error_precondition_failed => 412
  | client_error_payload_too_large => 413
  | client_error_uri_too_long => 414
  | client_error_unsupported_media_type => 415
  | client_error_range_not_satisfiable => 416
  | client_error_expectation_failed => 417
  | client_error_im_a_teapot => 418
  | client_error_misdirection_required => 421
  | client_error_unprocessable_entity => 422
  | client_error_locked => 423
  | client_error_failed_dependency => 424
  | client_error_upgrade_required => 426
  | client_error_precondition_required => 428
  | client_error_too_many_requests => 429
  | client_error_request_header_fields_too_large => 431
  | client_error_unavailable_for_legal_reasons => 451
  | server_error_internal_server_error => 500
  | server_error_not_implemented => 501
  | server_error_bad_gateway => 502
  | server_error_service_unavailable => 503
  | server_error_gateway_timeout => 504
  | server_error_http_version_not_supported => 505
  | server_error_variant_also_negotiates => 506
  | server_error_insufficient_storage => 507
  | server_error_loop_detected => 508
  | server_error_not_extended => 510
  | server_error_network_authentication_required => 511
  end.

(** The map is ordered by the code. *)
Definition status_code_strings : list (StatusCode * bytes) := [
  (unknown, text "");
  (information_continue, text "100 Continue");
  (information_switching_protocols, text "101 Switching Protocols");
  (information_processing, text "102 Processing");
  (success_ok, text "200 OK");
  (success_created, text "201 Created");
  (success_accepted, text "202 Accepted");
  (success_non_authoritative_information, text "203 Non-Authoritative Information");
  (success_no_content, text "204 No Content");
  (success_reset_content, text "205 Reset Content");
  (success_partial_content, text "206 Partial Content");
  (success_multi_status, text "207 Multi-Status");
  (success_already_reported, text "208 Already Reported");
  (success_im_used, text "226 IM Used");
  (redirection_multiple_choices, text "300 Multiple Choices");
  (redirection_moved_permanently, text "301 Moved Permanently");
  (redirection_found, text "302 Found");
  (redirection_see_other, text "303 See Other");
  (redirection_not_modified, text "304 Not Modified");
  (redirection_use_proxy, text "305 Use Proxy");
  (redirection_switch_proxy, text "306 Switch Proxy");
  (redirection_temporary_redirect, text "307 Temporary Redirect");
  (redirection_permanent_redirect, text "308 Permanent Redirect");
  (client_error_bad_request, text "400 Bad Request");
  (client_error_unauthorized, text "401 Unauthorized");
  (client_error_payment_required, text "402 Payment Required");
  (client_error_forbidden, text "403 Forbidden");
  (client_error_not_found, text "404 Not Found");
  (client_error_method_not_allowed, text "405 Method Not Allowed");
  (client_error_not_acceptable, text "406 Not Acceptable");
  (client_error_proxy_authentication_required, text "407 Proxy Authentication Required");
  (client_error_request_timeout, text "408 Request Timeout");
  (client_error_conflict, text "409 Conflict");
  (client_error_gone, text "410 Gone");
  (client_error_length_required, text "411 Length Required");
  (client_error_precondition_failed, text "412 Precondition Failed");
  (client_error_payload_too_large, text "413 Payload Too Large");
  (client_error_uri_too_long, text "414 URI Too Long");
  (client_error_unsupported_media_type, text "415 Unsupported Media Type");
  (client_error_range_not_satisfiable, text "416 Range Not Satisfiable");
  (client_error_expectation_failed, text "417 Expectation Failed");
  (client_error_im_a_teapot, text "418 I'm a teapot");
  (client_error_misdirection_required, text "421 Misdirected Request");
  (client_error_unprocessable_entity, text "422 Unprocessable Entity");
  (client_error_locked, text "423 Locked");
  (client_error_failed_dependency, text "424 Failed Dependency");
  (client_error_upgrade_required, text "426 Upgrade Required");
  (client_error_precondition_required, text "428 Precondition Required");
  (client_error_too_many_requests, text "429 Too Many Requests");
  (client_error_request_header_fields_too_large, text "431 Request Header Fields Too Large");
  (client_error_unavailable_for_legal_reasons, text "451 Unavailable For Legal Reasons");
  (server_error_internal_server_error, text "500 Internal Server Error");
  (server_error_not_implemented, text "501 Not Implemented");
  (server_error_bad_gateway, text "502 Bad Gateway");
  (server_error_service_unavailable, text "503 Service Unavailable");
  (server_error_gateway_timeout, text "504 Gateway Timeout");
  (server_error_http_version_not_supported, text "505 HTTP Version Not Supported");
  (server_error_variant_also_negotiates, text "506 Variant Also Negotiates");
  (server_error_insufficient_storage, text "507 Insufficient Storage");
  (server_error_loop_detected, text "508 Loop Detected");
  (server_error_not_extended, text "510 Not Extended");
  (server_error_network_authentication_required, text "511 Network Authentication Required")].

Definition status_code_of_string (status_code_string : bytes) : StatusCode :=
  default unknown (fst <$> List.find (fun '(_, t) => bool_decide (t = status_code_string)) status_code_strings).

Definition status_code (status_code_enum : StatusCode) : bytes :=
  default [] (snd <$> List.find (fun '(c, _) => code c =? code status_code_enum) status_code_strings).

(** ** Input streams *)

(** The characters left; [good] is that no end was met and nothing has failed. *)
Record istream := { chars : bytes; good : bool }.

(** The line and what follows the newline, if there is one. *)
Fixpoint until_newline (s : bytes) : bytes * option bytes :=
  match s with
  | [] => ([], None)
  | x :: r =>
      if x =? 10 then ([], Some r) else let '(l, rest) := until_newline r in (x :: l, rest)
  end.

Definition getline (s : istream) (line : bytes) : istream * bytes :=
  if good s then
    match until_newline (chars s) with
    | (l, Some rest) => ({| chars := rest; good := true |}, l)
    | (l, None) => ({| chars := []; good := false |}, l)
    end
  else (s, line).

(** [read(buffer, n)] and [get()]; [read] gives what was stored. *)
Definition read_chars (n : Z) (s : istream) : istream * bytes :=
  if good s then
    ({| chars := drop (Z.to_nat n) (chars s); good := n <=? size (chars s) |}, take (Z.to_nat n) (chars s))
  else (s, []).

Definition get_char (s : istream) : istream := (read_chars 1 s).1.

(** ** Header fields *)

Fixpoint skip_blanks (rest : bytes) (value_start : Z) : Z :=
  match rest with
  | x :: r => match r with
              | [] => value_start
              | _ => if x =? 32 then skip_blanks r (value_start + 1) else value_start
              end
  | [] => value_start
  end.

(** The field of a line with a colon at [param_end]; a line that ends there has none. *)
Definition header_field (line : bytes) (param_end : Z) : option (option (bytes * bytes)) :=
  let value_start := skip_blanks (drop (Z.to_nat (param_end + 1)) line) (param_end + 1) in
  if value_start <? size line then
    name ← substr line 0 param_end;
    value ← substr line value_start (size line - value_start - 1);
    Some (Some (name, value))
  else Some None.

Section Messages.
Context `{Multimap}.

Fixpoint header_loop (fuel : nat) (s : istream) (line : bytes) (m : list (bytes * bytes))
    : option (istream * list (bytes * bytes)) :=
  match fuel with
  | O => None
  | S fuel =>
      let param_end := find 58 line 0 in
      if param_end =? npos then Some (s, m)
      else
        f ← header_field line param_end;
        let '(s, line) := getline s line in
        header_loop fuel s line (add_field m f)
  end.

Definition HttpHeader_parse (fuel : nat) (stream : istream) : option (istream * list (bytes * bytes)) :=
  let '(s, line) := getline stream [] in header_loop fuel s line [].

(** ** Requests *)

Record request_message := {
  method : bytes; path : bytes; query_string : bytes; version : bytes;
  header : list (bytes * bytes);
}.

Definition empty_request : request_message :=
  {| method := []; path := []; query_string := []; version := []; header := [] |}.

(** The loop over the target: [query_start] and [path_and_query_string_end]. *)
Fixpoint scan_target (line_size : Z) (rest : bytes) (i query_start : Z) : Z * Z :=
  match rest with
  | [] => (query_start, npos)
  | x :: r =>
      if (x =? 63) && (i + 1 <? line_size) then scan_target line_size r (i + 1) (i + 1)
      else if x =? 32 then (query_start, i)
      else scan_target line_size r (i + 1) query_start
  end.

(** Path and query of the target, which ends at [e]. *)
Definition request_target (line : bytes) (method_end query_start e : Z) (q0 : bytes) : option (bytes * bytes) :=
  if query_start =? npos then
    p ← substr line (method_end + 1) (e - method_end - 1); Some (p, q0)
  else
    p ← substr line (method_end + 1) (query_start - method_end - 2);
    q ← substr line query_start (e - query_start);
    Some (p, q).

(** The first line: whether it is one, and what was assigned. *)
Definition parse_request_line (line : bytes) (r : request_message) : option (bool * request_message) :=
  let method_end := find 32 line 0 in
  if method_end =? npos then Some (false, r)
  else
    m ← substr line 0 method_end;
    let '(query_start, e) := scan_target (size line) (drop (Z.to_nat (method_end + 1)) line) (method_end + 1) npos in
    if e =? npos then
      Some (false, {| method := m; path := path r; query_string := query_string r; version := version r; header := [] |})
    else
      '(p, q) ← request_target line method_end query_start e (query_string r);
      let r := {| method := m; path := p; query_string := q; version := version r; header := [] |} in
      let protocol_end := find 47 line (e + 1) in
      if protocol_end =? npos then Some (false, r)
      else
        protocol ← substr line (e + 1) (protocol_end - e - 1);
        if negb (bool_decide (protocol = text "HTTP")) then Some (false, r)
        else
          v ← substr line (protocol_end + 1) (minus (size line - protocol_end) 2);
          Some (true, {| method := m; path := p; query_string := q; version := v; header := [] |}).

(** The result, what was assigned and the stream. *)
Definition RequestMessage_parse (fuel : nat) (stream : istream) (r : request_message)
    : option (bool * request_message * istream) :=
  let r := {| method := method r; path := path r; query_string := query_string r; version := version r; header := [] |} in
  let '(s, line) := getline stream [] in
  '(ok, r) ← parse_request_line line r;
  if ok : bool then
    '(s, h) ← HttpHeader_parse fuel s;
    Some (true, {| method := method r; path := path r; query_string := query_string r; version := version r; header := h |}, s)
  else Some (false, r, s).

(** ** Responses *)

Record response_message := {
  http_version : bytes; response_status : bytes;
  response_header : list (bytes * bytes);
}.

Definition empty_response : response_message := {| http_version := []; response_status := []; response_header := [] |}.

Definition ResponseMessage_parse (fuel : nat) (stream : istream) (r : response_message)
    : option (bool * response_message * istream) :=
  let r := {| http_version := http_version r; response_status := response_status r; response_header := [] |} in
  let '(s, line) := getline stream [] in
  let version_end := find 32 line 0 in
  if version_end =? npos then Some (false, r, s)
  else if 5 <? size line then
    v ← substr line 5 (minus version_end 5);
    let r := {| http_version := v; response_status := response_status r; response_header := [] |} in
    if version_end + 1 <? size line then
      c ← substr line (version_end + 1) (size line - (version_end + 1) - 1);
      '(s, h) ← HttpHeader_parse fuel s;
      Some (true, {| http_version := v; response_status := c; response_header := h |}, s)
    else Some (false, r, s)
  else Some (false, r, s).

End Messages.

(** The fuel of the header loop: a line takes at least one character. *)
Definition header_fuel (s : istream) : nat := S (S (length (chars s))).

(** ** Texts of messages *)

Definition crlf : bytes := [13; 10].

Definition header_line (f : bytes * bytes) : bytes := f.1 ++ [58; 32] ++ f.2 ++ [13].

Definition fields_text (fs : list (bytes * bytes)) : bytes := fs ≫= (fun f => header_line f ++ [10]).

(** Fields that survive: no colon or newline in the name, no newline in the value and no
    blank at its start. *)
Definition good_field (f : bytes * bytes) : Prop :=
  (58 ∉ f.1) /\ (10 ∉ f.1) /\ (10 ∉ f.2) /\ head f.2 <> Some 32 /\ size f.1 < npos.

Definition target_text (path : bytes) (query : option bytes) : bytes :=
  path ++ match query with Some q => [63] ++ q | None => [] end.

Definition request_line (method path : bytes) (query : option bytes) (version : bytes) : bytes :=
  method ++ [32] ++ target_text path query ++ [32] ++ text "HTTP/" ++ version ++ [13].

Definition good_request_line (method path : bytes) (query : option bytes) (version : bytes) : Prop :=
  (32 ∉ method) /\ (32 ∉ path) /\ (63 ∉ path) /\ (32 ∉ default [] query) /\ (63 ∉ default [] query) /\
  (10 ∉ request_line method path query version).

(** ** Lemmas on streams *)

Lemma until_newline_line l r : 10 ∉ l -> until_newline (l ++ 10 :: r) = (l, Some r).
Proof.
  induction l as [|x l IH]; intros Hl; [done|]. apply not_elem_of_cons in Hl as [Hx Hl].
  cbn [app until_newline]. by rewrite (proj2 (Z.eqb_neq _ _)), IH.
Qed.

Lemma until_newline_last l : 10 ∉ l -> until_newline l = (l, None).
Proof.
  induction l as [|x l IH]; intros Hl; [done|]. apply not_elem_of_cons in Hl as [Hx Hl].
  cbn [until_newline]. by rewrite (proj2 (Z.eqb_neq _ _)), IH.
Qed.

Lemma getline_line l r line : 10 ∉ l ->
  getline {| chars := l ++ 10 :: r; good := true |} line = ({| chars := r; good := true |}, l).
Proof. intros Hl. unfold getline. cbn [good chars]. by rewrite until_newline_line. Qed.

(** The first newline. *)
Lemma first_newline (a : bytes) : 10 ∈ a -> exists l r, a = l ++ 10 :: r /\ 10 ∉ l.
Proof.
  induction a as [|x a IH]; [by intros ?%elem_of_nil|]. destruct (decide (x = 10)) as [->|Hx].
  - intros _. exists [], a. split; [done|]. by intros ?%elem_of_nil.
  - intros Hin. destruct IH as (l & r & -> & Hl); [set_solver|].
    exists (x :: l), r. split; [done|]. by apply not_elem_of_cons.
Qed.

Lemma find_in_range c s i : find_in c s i = npos \/ i <= find_in c s i < i + size s.
Proof.
  revert i. induction s as [|x s IH]; intros i; [by left|]. cbn [find_in]. rewrite size_cons.
  pose proof (size_ge0 s). destruct (x =? c); [right; lia|]. destruct (IH (i + 1)) as [->|?]; [by left|right; lia].
Qed.

Lemma size_rest n s : 0 <= n -> size (drop (Z.to_nat n) s) = Z.max 0 (size s - n).
Proof. intros Hn. unfold size. rewrite length_drop. lia. Qed.

Lemma skip_blanks_range rest p : p <= skip_blanks rest p.
Proof.
  revert p. induction rest as [|x [|y r] IH]; intros p; [cbn; lia..|].
  cbn [skip_blanks] in *. destruct (x =? 32); [|lia]. specialize (IH (p + 1)). lia.
Qed.

Lemma header_field_total line p : 0 <= p <= size line -> exists f, header_field line p = Some f.
Proof.
  intros Hp. unfold header_field. pose proof (skip_blanks_range (drop (Z.to_nat (p + 1)) line) (p + 1)).
  set (v := skip_blanks _ _) in *. destruct (Z.ltb_spec v (size line)); [|by eexists].
  destruct (substr_in line 0 p) as [t ->]; [lia|].
  destruct (substr_in line v (size line - v - 1)) as [t' ->]; [lia|]. by eexists.
Qed.

(** ** Header fields *)

Lemma skip_blanks_value v p : head v <> Some 32 -> skip_blanks (32 :: v ++ [13]) p = p + 1.
Proof.
  intros Hv. destruct v as [|y v]; [done|]. cbn [app skip_blanks]. rewrite Z.eqb_refl.
  assert (y <> 32) by (cbn in Hv; congruence).
  destruct v as [|z v]; cbn [app]; by rewrite (proj2 (Z.eqb_neq y 32)).
Qed.

Lemma header_field_line f : good_field f ->
  find 58 (header_line f) 0 = size f.1 /\ header_field (header_line f) (size f.1) = Some (Some f).
Proof.
  destruct f as [name value]. intros (Hn & _ & _ & Hv & Hs). unfold header_line. cbn [fst snd app] in *.
  split; [by apply (find_first 58 [])|].
  assert (skip_blanks (drop (Z.to_nat (size name + 1)) (name ++ 58 :: 32 :: value ++ [13])) (size name + 1) =
          size name + 1 + 1) as E.
  { replace (Z.to_nat (size name + 1)) with (length (name ++ [58])) by (rewrite length_app; unfold size; cbn; lia).
    replace (name ++ 58 :: 32 :: value ++ [13]) with ((name ++ [58]) ++ 32 :: value ++ [13]) by (by rewrite <- app_assoc).
    rewrite drop_app_length. by apply skip_blanks_value. }
  unfold header_field. rewrite E, substr_prefix, size_append, !size_cons, size_append. change (size [13]) with 1.
  pose proof (size_ge0 value). rewrite (proj2 (Z.ltb_lt _ _)) by lia. cbn [mbind option_bind].
  replace (name ++ 58 :: 32 :: value ++ [13]) with ((name ++ [58; 32]) ++ value ++ [13]) by (by rewrite <- app_assoc).
  replace (size name + 1 + 1) with (size (name ++ [58; 32])) by (rewrite size_append; unfold size; cbn; lia).
  replace (_ - _ - _) with (size value) by (rewrite size_append; change (size [58; 32]) with 2; lia).
  by rewrite substr_middle.
Qed.

Lemma header_line_newline f : good_field f -> 10 ∉ header_line f.
Proof.
  intros (_ & Hn & Hv & _). unfold header_line. rewrite !not_elem_of_app.
  split; [done|]. split; [set_solver|]. split; [done|set_solver].
Qed.

Section Reading.
Context `{MultimapLaws}.

Lemma header_loop_fields fs rest fuel line m : Forall good_field fs -> (length fs < fuel)%nat ->
  (let '(s, line) := getline {| chars := fields_text fs ++ crlf ++ rest; good := true |} line in
   header_loop fuel s line m) = Some ({| chars := rest; good := true |}, foldl add_field m (Some <$> fs)).
Proof.
  revert fuel line m. induction fs as [|f fs IH]; intros fuel line m Hf Hfuel.
  - change (fields_text [] ++ crlf ++ rest) with ([13] ++ 10 :: rest).
    rewrite getline_line by set_solver. by destruct fuel as [|fuel]; [cbn in Hfuel; lia|].
  - apply Forall_cons in Hf as [Hf Hfs]. unfold fields_text. cbn [mbind list_bind].
    rewrite <- !app_assoc. cbn [app]. rewrite getline_line by (by apply header_line_newline).
    destruct fuel as [|fuel]; [cbn in Hfuel; lia|]. cbn [header_loop].
    destruct (header_field_line f Hf) as [-> ->].
    rewrite (proj2 (Z.eqb_neq _ npos)) by (destruct Hf; lia).
    cbn [mbind option_bind]. apply IH; [done|cbn in Hfuel; lia].
Qed.

Lemma HttpHeader_parse_fields fuel fs rest : Forall good_field fs -> (length fs < fuel)%nat ->
  HttpHeader_parse fuel {| chars := fields_text fs ++ crlf ++ rest; good := true |} =
  Some ({| chars := rest; good := true |}, foldl add_field [] (Some <$> fs)).
Proof. intros Hf Hfuel. unfold HttpHeader_parse. by apply header_loop_fields. Qed.

Lemma scan_plain n p r i qs : 32 ∉ p -> 63 ∉ p -> scan_target n (p ++ r) i qs = scan_target n r (i + size p) qs.
Proof.
  revert i. induction p as [|x p IH]; intros i H1 H2; [by rewrite Z.add_0_r|].
  apply not_elem_of_cons in H1 as [Hx1 H1], H2 as [Hx2 H2]. cbn [app scan_target].
  rewrite (proj2 (Z.eqb_neq x 63)), (proj2 (Z.eqb_neq x 32)), IH, size_cons by done. cbn [andb]. f_equal. lia.
Qed.

(** The end of the target and the start of the query. *)
Lemma scan_target_text n p q r i : i + size (target_text p q) + 1 <= n ->
  32 ∉ p -> 63 ∉ p -> 32 ∉ default [] q -> 63 ∉ default [] q ->
  scan_target n (target_text p q ++ 32 :: r) i npos =
  (match q with Some _ => i + size p + 1 | None => npos end, i + size (target_text p q)).
Proof.
  intros Hn H1 H2 H3 H4. unfold target_text in *. destruct q as [q|]; cbn [default] in *; cycle 1.
  { rewrite app_nil_r, scan_plain by done. done. }
  rewrite !size_append in *. change (size [63]) with 1 in *. pose proof (size_ge0 q).
  rewrite <- !app_assoc, scan_plain by done. cbn [app scan_target]. rewrite (proj2 (Z.ltb_lt _ _)) by lia.
  cbn [andb Z.eqb Pos.eqb]. rewrite scan_plain by done. cbn [scan_target andb Z.eqb Pos.eqb]. f_equal. lia.
Qed.

Lemma request_target_text pre p q r q0 : size (pre ++ [32] ++ target_text p q) < npos ->
  request_target (pre ++ [32] ++ target_text p q ++ r) (size pre)
    (match q with Some _ => size pre + 1 + size p + 1 | None => npos end)
    (size pre + 1 + size (target_text p q)) q0 = Some (p, default q0 q).
Proof.
  intros Hn. unfold request_target, target_text in *. destruct q as [q|]; cbn [default].
  - rewrite !size_append in *. change (size [63]) with 1 in *. change (size [32]) with 1 in *. pose proof (size_ge0 q).
    rewrite (proj2 (Z.eqb_neq _ npos)) by lia.
    replace (pre ++ [32] ++ (p ++ [63] ++ q) ++ r) with ((pre ++ [32]) ++ p ++ [63] ++ q ++ r) by (by rewrite <- !app_assoc).
    replace (size pre + 1) with (size (pre ++ [32])) by (by rewrite size_append).
    replace (_ - size pre - 2) with (size p) by (rewrite size_append; change (size [32]) with 1; lia).
    rewrite substr_middle. cbn [mbind option_bind].
    replace ((pre ++ [32]) ++ p ++ [63] ++ q ++ r) with ((pre ++ [32] ++ p ++ [63]) ++ q ++ r) by (by rewrite <- !app_assoc).
    replace (size (pre ++ [32]) + size p + 1) with (size (pre ++ [32] ++ p ++ [63]))
      by (rewrite !size_append; unfold size; cbn [length]; lia).
    replace (_ - _) with (size q) by (rewrite !size_append; unfold size; cbn [length]; lia). by rewrite substr_middle.
  - rewrite app_nil_r. cbn [Z.eqb]. rewrite Z.eqb_refl.
    replace (pre ++ [32] ++ p ++ r) with ((pre ++ [32]) ++ p ++ r) by (by rewrite <- !app_assoc).
    replace (size pre + 1 + size p - size pre - 1) with (size p) by lia.
    replace (size pre + 1) with (size (pre ++ [32])) by (by rewrite size_append). by rewrite substr_middle.
Qed.

Lemma parse_request_line_text method path query version r :
  good_request_line method path query version -> size (request_line method path query version) < npos ->
  parse_request_line (request_line method path query version) r =
  Some (true, {| method := method; path := path; query_string := default (query_string r) query;
                 version := version; header := [] |}).
Proof.
  intros (H1 & H2 & H3 & H4 & H5 & H6) Hn. set (line := request_line method path query version) in *.
  set (tgt := target_text path query).
  assert (line = method ++ [32] ++ tgt ++ 32 :: text "HTTP/" ++ version ++ [13]) as El by done.
  assert (size line = size method + size tgt + size version + 8) as Esz.
  { rewrite El. change (32 :: text "HTTP/" ++ version ++ [13]) with (([32] ++ text "HTTP/") ++ version ++ [13]).
    rewrite !size_append. change (size [32]) with 1. change (size [13]) with 1. change (size (text "HTTP/")) with 5. lia. }
  pose proof (size_ge0 method). pose proof (size_ge0 tgt). pose proof (size_ge0 version).
  assert (find 32 line 0 = size method) as E1 by (by apply (find_first 32 [])).
  assert (substr line 0 (size method) = Some method) as E2 by apply substr_prefix.
  assert (drop (Z.to_nat (size method + 1)) line = tgt ++ 32 :: text "HTTP/" ++ version ++ [13]) as E3.
  { rewrite El, app_assoc.
    replace (Z.to_nat (size method + 1)) with (length (method ++ [32])) by (rewrite length_app; unfold size; cbn; lia).
    apply drop_app_length. }
  set (pre := method ++ [32] ++ tgt ++ [32]).
  assert (size pre = size method + 1 + size tgt + 1) as Epre
    by (unfold pre; rewrite !size_append; change (size [32]) with 1; lia).
  assert (line = pre ++ text "HTTP" ++ 47 :: version ++ [13]) as E4 by (rewrite El; unfold pre; by rewrite <- !app_assoc).
  assert (find 47 line (size pre) = size pre + 4) as E5 by (rewrite E4; apply find_first; vm_compute; set_solver).
  assert (substr line (size pre) 4 = Some (text "HTTP")) as E6 by (rewrite E4; apply (substr_middle pre (text "HTTP"))).
  assert (substr line (size pre + 5) (size version) = Some version) as E7.
  { rewrite E4. replace (pre ++ text "HTTP" ++ 47 :: version ++ [13]) with ((pre ++ text "HTTP/") ++ version ++ [13])
      by (by rewrite <- !app_assoc).
    replace (size pre + 5) with (size (pre ++ text "HTTP/")) by (by rewrite size_append). apply substr_middle. }
  assert (request_target line (size method) (match query with Some _ => size method + 1 + size path + 1 | None => npos end)
            (size method + 1 + size tgt) (query_string r) = Some (path, default (query_string r) query)) as E8.
  { rewrite El. apply request_target_text. rewrite !size_append. change (size [32]) with 1. fold tgt. lia. }
  unfold parse_request_line. rewrite E1, (proj2 (Z.eqb_neq _ npos)), E2, E3 by lia. cbn [mbind option_bind].
  unfold tgt at 1. rewrite scan_target_text by (try done; fold tgt; lia). fold tgt.
  rewrite (proj2 (Z.eqb_neq _ npos)), E8 by lia. cbn [mbind option_bind].
  replace (size method + 1 + size tgt + 1) with (size pre) by lia. rewrite E5, (proj2 (Z.eqb_neq _ npos)) by lia.
  replace (size pre + 4 - _ - 1) with 4 by lia. rewrite E6. cbn [mbind option_bind].
  rewrite bool_decide_eq_true_2 by done. cbn [negb]. rewrite minus_le by lia.
  replace (size line - _ - 2) with (size version) by lia. replace (size pre + 4 + 1) with (size pre + 5) by lia.
  by rewrite E7.
Qed.

(** A printed request is parsed to its parts, and the stream is left at the content. *)
Lemma RequestMessage_parse_text fuel r method path query version fs rest :
  good_request_line method path query version -> size (request_line method path query version) < npos ->
  Forall good_field fs -> (length fs < fuel)%nat ->
  RequestMessage_parse fuel
    {| chars := request_line method path query version ++ 10 :: fields_text fs ++ crlf ++ rest; good := true |} r =
  Some (true, {| method := method; path := path; query_string := default (query_string r) query;
                 version := version; header := foldl add_field [] (Some <$> fs) |}, {| chars := rest; good := true |}).
Proof.
  intros Hl Hn Hf Hfuel. unfold RequestMessage_parse. rewrite getline_line by apply Hl.
  rewrite parse_request_line_text by done. cbn [mbind option_bind]. by rewrite HttpHeader_parse_fields.
Qed.

Definition status_line (version status : bytes) : bytes := text "HTTP/" ++ version ++ [32] ++ status ++ [13].

Definition good_status_line (version status : bytes) : Prop :=
  (32 ∉ version) /\ (10 ∉ status_line version status) /\ size (status_line version status) < npos.

(** A printed response is parsed to its parts. *)
Lemma ResponseMessage_parse_text fuel r version status fs rest :
  good_status_line version status -> Forall good_field fs -> (length fs < fuel)%nat ->
  ResponseMessage_parse fuel
    {| chars := status_line version status ++ 10 :: fields_text fs ++ crlf ++ rest; good := true |} r =
  Some (true, {| http_version := version; response_status := status; response_header := foldl add_field [] (Some <$> fs) |},
        {| chars := rest; good := true |}).
Proof.
  intros (H1 & H2 & Hn) Hf Hfuel. unfold ResponseMessage_parse. rewrite getline_line by done.
  set (line := status_line version status) in *.
  assert (size line = size version + size status + 7) as Esz.
  { unfold line, status_line. rewrite !size_append. change (size (text "HTTP/")) with 5. unfold size. cbn [length]. lia. }
  pose proof (size_ge0 version). pose proof (size_ge0 status).
  assert (line = (text "HTTP/" ++ version) ++ 32 :: status ++ [13]) as El by (unfold line, status_line; by rewrite <- app_assoc).
  assert (size (text "HTTP/" ++ version) = size version + 5) as Ev
    by (rewrite size_append; change (size (text "HTTP/")) with 5; lia).
  assert (find 32 line 0 = size version + 5) as ->.
  { rewrite <- Ev, El. apply (find_first 32 []). rewrite not_elem_of_app. split; [vm_compute; set_solver|done]. }
  rewrite (proj2 (Z.eqb_neq _ npos)), (proj2 (Z.ltb_lt 5 _)), minus_le, Z.add_simpl_r by lia.
  assert (substr line 5 (size version) = Some version) as -> by apply (substr_middle (text "HTTP/")). cbn [mbind option_bind].
  rewrite (proj2 (Z.ltb_lt _ _)) by lia. replace (size line - _ - 1) with (size status) by lia.
  rewrite El. replace (size version + 5 + 1) with (size ((text "HTTP/" ++ version) ++ [32]))
    by (rewrite size_append, Ev; unfold size; cbn [length]; lia).
  replace ((text "HTTP/" ++ version) ++ 32 :: status ++ [13]) with (((text "HTTP/" ++ version) ++ [32]) ++ status ++ [13])
    by (by rewrite <- app_assoc).
  rewrite substr_middle. cbn [mbind option_bind]. by rewrite HttpHeader_parse_fields.
Qed.

(** ** The parsers end *)

(** Some line of the characters consists of a carriage return only. *)
Definition has_blank_line (s : bytes) : Prop :=
  exists a b, s = a ++ crlf ++ b /\ (a = [] \/ last a = Some 10).

(** A line read from there is the blank one, or leaves it in the stream. *)
Lemma getline_blank a b line : a = [] \/ last a = Some 10 ->
  getline {| chars := a ++ crlf ++ b; good := true |} line = ({| chars := b; good := true |}, [13]) \/
  exists l a', getline {| chars := a ++ crlf ++ b; good := true |} line = ({| chars := a' ++ crlf ++ b; good := true |}, l) /\
    (a' = [] \/ last a' = Some 10) /\ (length a' < length a)%nat.
Proof.
  intros [->|Hl].
  - left. change ([] ++ crlf ++ b) with ([13] ++ 10 :: b). apply getline_line. set_solver.
  - right. assert (10 ∈ a) as Hin by (by apply last_Some_elem_of).
    destruct (first_newline a Hin) as (l & r & -> & Hn). exists l, r.
    rewrite <- app_assoc. cbn [app]. split; [by apply getline_line|]. rewrite length_app. cbn [length]. split; [|lia].
    destruct r as [|x r]; [by left|right]. by rewrite last_app_cons, last_cons_cons in Hl.
Qed.

Lemma header_field_found line : find 58 line 0 <> npos -> exists f, header_field line (find 58 line 0) = Some f.
Proof.
  intros Hf. apply header_field_total. destruct (find_in_range 58 line 0) as [E|E]; [done|]. unfold find in *.
  change (drop (Z.to_nat 0) line) with line in *. lia.
Qed.

Lemma header_loop_ends fuel a b line m : a = [] \/ last a = Some 10 -> (length a + 1 < fuel)%nat ->
  exists c m', (let '(s, line) := getline {| chars := a ++ crlf ++ b; good := true |} line in
                header_loop fuel s line m) = Some ({| chars := c ++ b; good := true |}, m').
Proof.
  revert a line m. induction fuel as [|fuel IH]; intros a line m Ha Hf; [lia|].
  destruct (getline_blank a b line Ha) as [->|(l & a' & -> & Ha' & Hlen)]; cbn [header_loop]; [by exists [], m|].
  destruct (Z.eqb_spec (find 58 l 0) npos) as [|Hne]; [exists (a' ++ crlf), m; by rewrite <- app_assoc|].
  destruct (header_field_found l Hne) as [f ->]. cbn [mbind option_bind]. apply IH; [done|lia].
Qed.

(** The scan stops at a blank behind the start; a query begins before it. *)
Lemma scan_target_range n rest i qs0 : let '(qs, e) := scan_target n rest i qs0 in
  e = npos \/ i <= e < i + size rest /\ (qs = qs0 \/ i + 1 <= qs <= e).
Proof.
  revert i qs0. induction rest as [|x r IH]; intros i qs0; cbn [scan_target]; [by left|].
  rewrite size_cons. pose proof (size_ge0 r). destruct ((x =? 63) && (i + 1 <? n)).
  - specialize (IH (i + 1) (i + 1)). destruct (scan_target n r (i + 1) (i + 1)) as [qs e]. lia.
  - destruct (x =? 32); [right; lia|]. specialize (IH (i + 1) qs0). destruct (scan_target n r (i + 1) qs0) as [qs e]. lia.
Qed.

Lemma find_end c s p : 0 <= p -> find c s p = npos \/ p <= find c s p < size s.
Proof.
  intros Hp. unfold find. destruct (find_in_range c (drop (Z.to_nat p) s) p) as [|H1]; [by left|].
  rewrite size_rest in H1 by done. right. lia.
Qed.

Lemma parse_request_line_total line r : exists x, parse_request_line line r = Some x.
Proof.
  unfold parse_request_line. destruct (find_end 32 line 0) as [->|Hm]; [done|by eexists|].
  destruct (Z.eqb_spec (find 32 line 0) npos) as [|_]; [by eexists|]. set (me := find 32 line 0) in *.
  destruct (substr_in line 0 me) as [m ->]; [lia|]. cbn [mbind option_bind].
  pose proof (scan_target_range (size line) (drop (Z.to_nat (me + 1)) line) (me + 1) npos) as Hsc.
  destruct (scan_target _ _ _ _) as [qs e]. rewrite size_rest in Hsc by lia.
  destruct (Z.eqb_spec e npos) as [|Hne]; [by eexists|]. destruct Hsc as [|[He Hqs]]; [done|].
  assert (exists t, request_target line me qs e (query_string r) = Some t) as [[p q] ->].
  { unfold request_target. destruct (Z.eqb_spec qs npos) as [|Hq].
    - destruct (substr_in line (me + 1) (e - me - 1)) as [t ->]; [lia|]. by eexists.
    - destruct (substr_in line (me + 1) (qs - me - 2)) as [t ->]; [lia|].
      destruct (substr_in line qs (e - qs)) as [t' ->]; [lia|]. by eexists. }
  cbn [mbind option_bind]. destruct (find_end 47 line (e + 1)) as [->|Hp]; [lia|by eexists|].
  destruct (Z.eqb_spec (find 47 line (e + 1)) npos) as [|_]; [by eexists|].
  destruct (substr_in line (e + 1) (find 47 line (e + 1) - e - 1)) as [t ->]; [lia|]. cbn [mbind option_bind].
  destruct (negb _); [by eexists|].
  destruct (substr_in line (find 47 line (e + 1) + 1) (minus (size line - find 47 line (e + 1)) 2)) as [v ->]; [lia|].
  by eexists.
Qed.

(** C28: On whatever a peer sends, once a blank line has arrived, [RequestMessage::parse]
    returns and throws nothing (it is [noexcept]: an exception or a loop would end the
    server); what follows the blank line is still in the stream, unread and readable. *)
Theorem request_parse_ends a b r : let s := {| chars := a ++ crlf ++ crlf ++ b; good := true |} in
  exists ok r' c, RequestMessage_parse (header_fuel s) s r = Some (ok, r', {| chars := c ++ b; good := true |}).
Proof.
  cbn zeta. unfold RequestMessage_parse, header_fuel. cbn [chars].
  change (crlf ++ crlf ++ b) with (([13] ++ [10]) ++ crlf ++ b). rewrite (app_assoc a).
  destruct (getline_blank (a ++ [13] ++ [10]) b []) as [->|(l & a' & -> & Ha' & Hlen)].
  - right. by rewrite app_assoc, last_snoc.
  - destruct (parse_request_line_total [13] {| method := method r; path := path r; query_string := query_string r;
      version := version r; header := [] |}) as [[ok r'] E].
    cbn in E. injection E as <- <-. by eexists false, _, [].
  - destruct (parse_request_line_total l {| method := method r; path := path r; query_string := query_string r;
      version := version r; header := [] |}) as [[ok r'] ->]. cbn [mbind option_bind]. destruct ok; cycle 1.
    + exists false, r', (a' ++ crlf). by rewrite <- app_assoc.
    + destruct (header_loop_ends (S (S (length ((a ++ [13] ++ [10]) ++ crlf ++ b)))) a' b [] []) as (c & m' & E); [done| |].
      { rewrite !length_app in *. lia. }
      unfold HttpHeader_parse. rewrite E. cbn [mbind option_bind]. by eexists _, _, c.
Qed.

(** Without it, a last line with a colon is read again and again: [getline] on a stream that
    met its end leaves the line, and the loop never ends, adding the field each time. *)
Theorem unterminated_field_loops line fuel m :
  find 58 line 0 <> npos -> 10 ∉ line ->
  (let '(s, l) := getline {| chars := line; good := true |} [] in header_loop fuel s l m) = None.
Proof.
  intros Hc Hn. unfold getline. cbn [good chars]. rewrite until_newline_last by done.
  revert m. induction fuel as [|fuel IH]; intros m; [done|]. cbn [header_loop].
  rewrite (proj2 (Z.eqb_neq _ _)) by done. destruct (header_field_found line Hc) as [f ->]. cbn [mbind option_bind getline good].
  apply IH.
Qed.

(** Of a target with two question marks the path keeps the first. *)
Theorem last_question_mark_separates :
  parse_request_line (text "GET /a?b?c HTTP/1.1" ++ [13]) empty_request =
  Some (true, {| method := text "GET"; path := text "/a?b"; query_string := text "c"; version := text "1.1"; header := [] |}).
Proof. reflexivity. Qed.

End Reading.

Lemma request_parse_ends_witness :
  let s := {| chars := text "GET / HTTP/1.1" ++ crlf ++ crlf ++ text "rest"; good := true |} in
  exists ok r' c, @RequestMessage_parse in_order (header_fuel s) s empty_request = Some (ok, r', {| chars := c ++ text "rest"; good := true |}).
Proof. exact (@request_parse_ends in_order in_order_laws (text "GET / HTTP/1.1") (text "rest") empty_request). Defined.

(** ** Status codes *)

(** The text of a status code names it. *)
Theorem status_code_round_trip c : status_code_of_string (status_code c) = c.
Proof. by destruct c; vm_compute. Qed.

End HttpMessage.
