(* ===== verification/HttpStream.v ===== *)
(** * HttpStream: reads of Asio into the stream buffer of a message, and chunk sizes

    The operations [async_read_until], [async_read] with [transfer_exactly] and [async_read] to
    the end, as the documentation of Asio describes them: a read takes some characters of what
    the peer sent, as many as fit, until the condition holds or the buffer is full;
    [async_read_until] may take more than the delimiter.  Also the number of [stoul] in base
    16, and lemmas on where a delimiter is met. *)

From S2P Require Import Prelude Decimal HttpText HttpMessage.
Import HttpText HttpMessage.

Module HttpStream.

(** The number of characters up to the end of the first [delim]. *)
Fixpoint find_delim (delim s : bytes) (i : Z) : option Z :=
  if bool_decide (take (length delim) s = delim) then Some (i + size delim)
  else match s with [] => None | _ :: r => find_delim delim r (i + 1) end.

(** What a read operation still waits for. *)
Inductive read_op :=
  | ReadUntil (delim : bytes)
  | ReadExactly (n : Z)
  | ReadToEnd.

(** A read goes on, completes, or finds the buffer full without the delimiter. *)
Inductive read_result :=
  | Continue (op : read_op)
  | Completed (bytes_transferred : Z)
  | NotFound.

Definition append_chars (s : istream) (data : bytes) : istream := {| chars := chars s ++ data; good := good s |}.

(** The operation receives [data], at most [room] characters; none when it need not wait. *)
Definition fits (room : Z) (data : bytes) : bool :=
  if room <=? 0 then bool_decide (data = []) else (0 <? size data) && (size data <=? room).

Definition receive (max_size : Z) (op : read_op) (s : istream) (data : bytes) : option (istream * read_result) :=
  let room := max_size - size (chars s) in
  let s' := append_chars s data in
  let full := max_size <=? size (chars s') in
  match op with
  | ReadUntil delim =>
      match find_delim delim (chars s) 0 with
      | Some n => if bool_decide (data = []) then Some (s, Completed n) else None
      | None =>
          if fits room data then
            Some (s', match find_delim delim (chars s') 0 with
                      | Some n => Completed n
                      | None => if full then NotFound else Continue op
                      end)
          else None
      end
  | ReadExactly n =>
      if fits (Z.min n room) data then
        Some (s', if full || (n <=? size data) then Completed (size data) else Continue (ReadExactly (n - size data)))
      else None
  | ReadToEnd =>
      if fits room data then Some (s', if full then Completed (size data) else Continue op) else None
  end.

(** [std::stoul(line, 0, 16)]; [None] is an exception. *)
Definition stoul16 (line : bytes) : option Z :=
  '(neg, v) ← hex_number line;
  if v <? 2 ^ 64 then Some (if neg : bool then u64 (- v) else v) else None.

(** ** Delimiters *)

Lemma starts_app (d s t : bytes) : (length d <= length s)%nat -> take (length d) (s ++ t) = take (length d) s.
Proof. intros H. by apply take_app_le. Qed.

Lemma starts_length (d s : bytes) : take (length d) s = d -> (length d <= length s)%nat.
Proof. intros E. apply (f_equal length) in E. rewrite length_take in E. lia. Qed.

Lemma find_delim_bound d s i n : find_delim d s i = Some n -> i + size d <= n <= i + size s.
Proof.
  revert i. induction s as [|x s IH]; intros i; cbn [find_delim]; case_bool_decide as E.
  - apply starts_length in E. intros [= <-]. unfold size. lia.
  - done.
  - apply starts_length in E. intros [= <-]. unfold size. lia.
  - intros H. apply IH in H. rewrite size_cons. lia.
Qed.

(** What is found stays where it is when more arrives. *)
Lemma find_delim_app d s t i n : find_delim d s i = Some n -> find_delim d (s ++ t) i = Some n.
Proof.
  revert i. induction s as [|x s IH]; intros i; cbn [find_delim app].
  - case_bool_decide as E; [|done]. apply starts_length in E. destruct d; [|cbn in E; lia]. intros <-.
    by destruct t.
  - case_bool_decide as E.
    + intros <-. rewrite bool_decide_eq_true_2; [done|].
      pose proof (starts_length _ _ E). change (x :: s ++ t) with ((x :: s) ++ t). by rewrite starts_app.
    + intros H. rewrite bool_decide_eq_false_2; [by apply IH|]. intros E'. apply E.
      rewrite <- E' at 2. symmetry. apply (starts_app d (x :: s) t). apply find_delim_bound in H. unfold size in H.
      cbn [length]. lia.
Qed.

Lemma find_delim_app_inv d s t i n : find_delim d (s ++ t) i = Some n ->
  find_delim d s i = if n <=? i + size s then Some n else None.
Proof.
  intros H. destruct (find_delim d s i) as [n'|] eqn:E.
  { pose proof (find_delim_app d s t i n' E) as E'. rewrite H in E'. injection E' as <-.
    apply find_delim_bound in E. by rewrite (proj2 (Z.leb_le _ _)) by lia. }
  destruct (Z.leb_spec n (i + size s)) as [Hn|]; [|done]. exfalso. revert i H E Hn.
  induction s as [|x s IH]; intros i H E Hn; cbn [find_delim app] in *.
  - apply find_delim_bound in H. case_bool_decide as E0; [done|]. rewrite take_nil in E0.
    destruct d; [done|]. unfold size in *. cbn [length] in *. lia.
  - case_bool_decide as E0; [done|]. case_bool_decide as E1.
    + injection H as <-. apply E0. rewrite <- E1 at 2. symmetry. apply (starts_app d (x :: s) t).
      unfold size in Hn. cbn [length]. cbn [length] in Hn. lia.
    + apply (IH (i + 1) H E). rewrite size_cons in Hn. lia.
Qed.

(** The end of a line without a carriage return. *)
Lemma find_crlf l r i : 13 ∉ l -> find_delim crlf (l ++ crlf ++ r) i = Some (i + size l + 2).
Proof.
  revert i. induction l as [|x l IH]; intros i Hl.
  - cbn. f_equal. unfold size. cbn. lia.
  - apply not_elem_of_cons in Hl as [Hx Hl]. cbn [app find_delim]. rewrite bool_decide_eq_false_2.
    + rewrite IH by done. rewrite size_cons. f_equal. lia.
    + unfold crlf. cbn. congruence.
Qed.

(** The blank line is looked for behind each newline. *)
Lemma find_blank_line l r i : 10 ∉ l ->
  find_delim (crlf ++ crlf) (l ++ crlf ++ r) i =
  if bool_decide (take 2 r = crlf) then Some (i + size l + 4) else find_delim (crlf ++ crlf) r (i + size l + 2).
Proof.
  revert i. induction l as [|x l IH]; intros i Hl.
  - change ([] ++ crlf ++ r) with (13 :: 10 :: r). cbn [find_delim]. change (length (crlf ++ crlf)) with 4%nat. cbn [take].
    change (take 2 r) with (take 2 r). destruct (decide (take 2 r = crlf)) as [E|E].
    + rewrite E, !bool_decide_eq_true_2 by done. f_equal. unfold size. cbn. lia.
    + rewrite !bool_decide_eq_false_2 by (unfold crlf in *; cbn [app]; congruence). f_equal. unfold size. cbn. lia.
  - apply not_elem_of_cons in Hl as [Hx Hl]. cbn [app find_delim]. rewrite bool_decide_eq_false_2.
    + rewrite IH by done. rewrite size_cons. replace (i + 1 + size l) with (i + (1 + size l)) by lia. done.
    + destruct l as [|y l]; unfold crlf; cbn; [congruence|]. apply not_elem_of_cons in Hl as [Hy _]. congruence.
Qed.

(** The blank line of a message is found behind its fields. *)
Lemma find_headers l fs rest i : 10 ∉ l -> Forall good_field fs ->
  find_delim (crlf ++ crlf) (l ++ crlf ++ fields_text fs ++ crlf ++ rest) i =
  Some (i + size l + 2 + size (fields_text fs) + 2).
Proof.
  intros Hl Hf. revert l i Hl. induction Hf as [|f fs Hf Hfs IH]; intros l i Hl; rewrite find_blank_line by done.
  - change (size (fields_text [])) with 0. rewrite bool_decide_eq_true_2 by done. f_equal. lia.
  - destruct Hf as (_ & Hn & Hv & _). destruct f as [name value]. cbn [fst snd] in *.
    assert (fields_text ((name, value) :: fs) ++ crlf ++ rest =
            (name ++ [58; 32] ++ value) ++ crlf ++ fields_text fs ++ crlf ++ rest) as E.
    { unfold fields_text, header_line, crlf. cbn [mbind list_bind fst snd]. by rewrite <- !app_assoc. }
    assert (size (fields_text ((name, value) :: fs)) = size (name ++ [58; 32] ++ value) + 2 + size (fields_text fs)) as Es.
    { unfold fields_text, header_line. cbn [mbind list_bind fst snd]. rewrite !size_append. unfold size. cbn [length]. lia. }
    assert (10 ∉ name ++ [58; 32] ++ value) as Hl'.
    { rewrite !not_elem_of_app. split; [done|]. split; [set_solver|done]. }
    rewrite E, bool_decide_eq_false_2, IH by
      (try done; destruct name as [|x [|y name]]; unfold crlf; cbn; try congruence; set_solver).
    f_equal. lia.
Qed.

(** What has arrived begins with [b] when it is long enough. *)
Lemma split_prefix (a w b y : bytes) : a ++ w = b ++ y -> size b <= size a -> exists p, a = b ++ p /\ p ++ w = y.
Proof.
  intros E Hs. apply app_eq_inv in E as [(k & -> & ->)|(k & -> & ->)]; [by exists k|].
  rewrite size_append in Hs. assert (k = []) as -> by (apply length_zero_iff_nil; unfold size in Hs; lia).
  exists []. by rewrite !app_nil_r.
Qed.

(** ** Printed fields *)

(** What [write_header] and [create_request_header] write for the fields. *)
Definition written_fields (fs : list (bytes * bytes)) : bytes :=
  fs ≫= (fun f => f.1 ++ text ": " ++ f.2 ++ crlf).

Lemma written_fields_text fs : written_fields fs = fields_text fs.
Proof.
  unfold written_fields, fields_text, header_line. induction fs as [|f fs IH]; [done|].
  cbn [mbind list_bind]. f_equal; [|exact IH]. by rewrite <- !app_assoc.
Qed.

Lemma written_fields_app fs gs : written_fields (fs ++ gs) = written_fields fs ++ written_fields gs.
Proof. unfold written_fields. apply bind_app. Qed.

End HttpStream.
