(* ===== verification/HttpReader.v ===== *)
(** * HttpReader: how a message is read ([src/network/http/server_http.hpp],
    [client_http.hpp])

    The server reads a request and the client reads a response by the same code: the head up
    to the blank line, then the content by its length or in chunks.  It is here once.  What is
    done with the head is the parameter [on_head]; where a message ends, the server and the
    client go on in their own ways with the [outcome].  The operations are completed by the
    reads of [HttpStream]. *)

From S2P Require Import Prelude Decimal HttpText HttpMessage HttpStream.
Import HttpText HttpMessage HttpStream.

Module HttpReader.

(** How the reading of a message ends: it is complete, an error is reported, or a completion
    handler throws or does what is undefined. *)
Inductive outcome := Complete | MessageSize | ProtocolError | Failed (e : Z) | Throws | Undefined.

(** The operation that is pending, with what its completion handler has captured. *)
Inductive phase :=
  | Head (op : read_op)
  | Content (op : read_op)
  | ChunkLine (chunks : bytes) (op : read_op)
  | Chunk (chunks : bytes) (length : Z) (op : read_op)
  | ToEnd (op : read_op)
  | Ended (o : outcome).

Record reader {M : Type} := { message : M; stream : istream; at_phase : phase }.
Arguments reader M : clear implicits.

(** The errors of Asio that the code tells apart. *)
Definition not_found : Z := 1.
Definition eof : Z := 2.
Definition operation_aborted : Z := 3.

Definition new_reader {M} (m : M) : reader M :=
  {| message := m; stream := {| chars := []; good := true |}; at_phase := Head (ReadUntil (crlf ++ crlf)) |}.

(** After the head, of whose content [num_additional_bytes] are in the buffer: [bad_length]
    is what a length that is no number leads to, [otherwise] what no field leads to. *)
Definition content_phase (bad_length : outcome) (otherwise : phase) (header : list (bytes * bytes))
    (num_additional_bytes : Z) : phase :=
  match find_field (text "Content-Length") header with
  | Some v =>
      match stoul v with
      | None => Ended bad_length
      | Some content_length =>
          if num_additional_bytes <? content_length then Content (ReadExactly (content_length - num_additional_bytes))
          else Ended Complete
      end
  | None =>
      if bool_decide (find_field (text "Transfer-Encoding") header = Some (text "chunked"))
      then ChunkLine [] (ReadUntil crlf)
      else otherwise
  end.

Section Reader.
Context {M : Type} (max_size : Z).
(** The characters, [bytes_transferred] and the message; [None] would be a parser that throws
    or does not end. *)
Context (on_head : istream -> Z -> M -> option (M * istream * phase)).

Definition set_phase (p : phase) (r : reader M) : reader M := {| message := message r; stream := stream r; at_phase := p |}.
Definition set_stream (s : istream) (r : reader M) : reader M := {| message := message r; stream := s; at_phase := at_phase r |}.

(** [read_chunked_transfer_encoded_chunk]: an array of more than 2^63 - 1 characters cannot be
    created, [new] throws; what does not fit into the buffer in the end is lost. *)
Definition read_chunk (chunks : bytes) (length : Z) (r : reader M) : reader M :=
  if 2 ^ 63 <=? length then set_phase (Ended Throws) r
  else
    let '(s, data) := read_chars length (stream r) in
    let chunks := chunks ++ data in
    if (0 <? length) && negb (size data =? length) then set_phase (Ended Undefined) r
    else if (0 <? length) && (max_size <=? size chunks) then set_phase (Ended MessageSize) (set_stream s r)
    else
      let s := get_char (get_char s) in
      if 0 <? length then set_phase (ChunkLine chunks (ReadUntil crlf)) (set_stream s r)
      else
        let room := Z.max 0 (max_size - size (chars s)) in
        set_phase (Ended Complete) (set_stream (append_chars s (take (Z.to_nat (Z.min room (size chunks))) chunks)) r).

(** The completion handler of [read_chunked_transfer_encoded]. *)
Definition on_chunk_line (chunks : bytes) (bytes_transferred : Z) (r : reader M) : reader M :=
  let '(s, line) := getline (stream r) [] in
  let bytes_transferred := minus bytes_transferred (size line + 1) in
  match line with
  | [] => set_phase (Ended Undefined) (set_stream s r)       (* [pop_back] of an empty string *)
  | _ =>
      match stoul16 (removelast line) with
      | None => set_phase (Ended ProtocolError) (set_stream s r)
      | Some length =>
          let num_additional_bytes := minus (size (chars s)) bytes_transferred in
          if num_additional_bytes <? u64 (2 + length) then
            set_phase (Chunk chunks length (ReadExactly (u64 (2 + length) - num_additional_bytes))) (set_stream s r)
          else read_chunk chunks length (set_stream s r)
      end
  end.

(** The completion of the pending read, without an error or with [not_found]. *)
Definition read_completed (missing : bool) (bytes_transferred : Z) (r : reader M) : option (reader M) :=
  if size (chars (stream r)) =? max_size then Some (set_phase (Ended MessageSize) r)
  else if missing then Some (set_phase (Ended (Failed not_found)) r)
  else
    match at_phase r with
    | Head _ =>
        '(m, s, p) ← on_head (stream r) bytes_transferred (message r);
        Some {| message := m; stream := s; at_phase := p |}
    | Content _ | ToEnd _ => Some (set_phase (Ended Complete) r)
    | ChunkLine chunks _ => Some (on_chunk_line chunks bytes_transferred r)
    | Chunk chunks length _ => Some (read_chunk chunks length r)
    | Ended _ => None
    end.

Definition pending_read (r : reader M) : option read_op :=
  match at_phase r with
  | Head op | Content op | ChunkLine _ op | Chunk _ _ op | ToEnd op => Some op
  | Ended _ => None
  end.

Definition set_read (op : read_op) (p : phase) : phase :=
  match p with
  | Head _ => Head op
  | Content _ => Content op
  | ChunkLine chunks _ => ChunkLine chunks op
  | Chunk chunks length _ => Chunk chunks length op
  | ToEnd _ => ToEnd op
  | Ended o => Ended o
  end.

(** The pending read gets [data]; the result tells whether it completed. *)
Definition reader_receive (data : bytes) (r : reader M) : option (reader M * bool) :=
  op ← pending_read r;
  '(s, res) ← receive max_size op (stream r) data;
  let r := set_stream s r in
  match res with
  | Continue op => Some (set_phase (set_read op (at_phase r)) r, false)
  | Completed n => r ← read_completed false n r; Some (r, true)
  | NotFound => r ← read_completed true 0 r; Some (r, true)
  end.

(** The pending read fails; a message without a length ends with the connection. *)
Definition reader_fail (e : Z) (r : reader M) : option (reader M) :=
  match at_phase r with
  | Ended _ => None
  | ToEnd _ => Some (set_phase (Ended (if e =? eof then Complete else Failed e)) r)
  | _ => Some (set_phase (Ended (Failed e)) r)
  end.

(** Reads take [k] characters of what is on the wire. *)
Definition deliver (k : nat) (st : reader M * bytes) : option (reader M * bytes) :=
  let '(r, wire) := st in
  if (k <=? length wire)%nat then
    '(r, _) ← reader_receive (take k wire) r; Some (r, drop k wire)
  else None.

End Reader.

(** ** A message on the wire *)

(** A chunk: the text of its size, possibly with an extension, and its data; the last chunk
    is the first that is empty. *)
Definition chunk_text (ch : bytes * bytes) : bytes := ch.1 ++ crlf ++ ch.2 ++ crlf.
Definition chunks_text (cs : list (bytes * bytes)) : bytes := cs ≫= chunk_text.
Definition chunks_data (cs : list (bytes * bytes)) : bytes := cs ≫= snd.

Definition good_chunk (ch : bytes * bytes) : Prop :=
  stoul16 ch.1 = Some (size ch.2) /\ (13 ∉ ch.1) /\ (10 ∉ ch.1) /\ size ch.2 < 2 ^ 63.

Fixpoint good_chunks (cs : list (bytes * bytes)) : Prop :=
  match cs with
  | [] => False
  | ch :: r => good_chunk ch /\ match ch.2 with [] => r = [] | _ => good_chunks r end
  end.

(** The body that the fields announce, and its content. *)
Inductive body_of (fs : list (bytes * bytes)) : bytes -> bytes -> Prop :=
  | no_content : find_field (text "Content-Length") fs = None -> find_field (text "Transfer-Encoding") fs = None ->
      body_of fs [] []
  | by_length v content : find_field (text "Content-Length") fs = Some v -> stoul v = Some (size content) ->
      body_of fs content content
  | by_chunks cs : find_field (text "Content-Length") fs = None ->
      find_field (text "Transfer-Encoding") fs = Some (text "chunked") -> good_chunks cs ->
      body_of fs (chunks_text cs) (chunks_data cs).

Lemma body_of_inv fs b d : body_of fs b d ->
  (find_field (text "Content-Length") fs = None /\ find_field (text "Transfer-Encoding") fs = None /\ b = [] /\ d = []) \/
  (exists v, find_field (text "Content-Length") fs = Some v /\ stoul v = Some (size d) /\ b = d) \/
  exists cs, find_field (text "Content-Length") fs = None /\
    find_field (text "Transfer-Encoding") fs = Some (text "chunked") /\ good_chunks cs /\
    b = chunks_text cs /\ d = chunks_data cs.
Proof. intros []; naive_solver. Qed.

(** ** The reads of Asio along a text *)

Lemma receive_until max d s data rest n s' res :
  find_delim d (chars s ++ data ++ rest) 0 = Some n -> size (chars s ++ data ++ rest) < max ->
  receive max (ReadUntil d) s data = Some (s', res) ->
  s' = append_chars s data /\ (data = [] -> n <= size (chars s)) /\
  res = if n <=? size (chars s ++ data) then Completed n else Continue (ReadUntil d).
Proof.
  intros Hd Hm. unfold receive.
  pose proof (find_delim_app_inv d (chars s) _ 0 n Hd) as E1. rewrite app_assoc in Hd.
  pose proof (find_delim_app_inv d (chars s ++ data) _ 0 n Hd) as E2. rewrite Z.add_0_l in *.
  rewrite !size_append in *. pose proof (size_ge0 rest). pose proof (size_ge0 data). rewrite E1.
  destruct (Z.leb_spec n (size (chars s))) as [Hn|Hn].
  - case_bool_decide as Ed; [subst data|done]. intros [= <- <-]. unfold append_chars. rewrite app_nil_r.
    split; [by destruct s|]. split; [done|]. rewrite (proj2 (Z.leb_le _ _)); [done|]. change (size []) with 0. lia.
  - destruct (fits _ _) eqn:Ef; [|done]. intros [= <- <-]. split; [done|].
    unfold append_chars. cbn [chars]. rewrite E2, size_append.
    split.
    { intros ->. unfold fits in Ef. change (size []) with 0 in *. rewrite (proj2 (Z.leb_gt _ _)) in Ef by lia. done. }
    destruct (Z.leb_spec n (size (chars s) + size data)); [done|]. by rewrite (proj2 (Z.leb_gt _ _)) by lia.
Qed.

Lemma receive_exactly max n s data s' res :
  0 < n -> size (chars s) + n < max -> receive max (ReadExactly n) s data = Some (s', res) ->
  s' = append_chars s data /\ 0 < size data <= n /\
  res = if n =? size data then Completed n else Continue (ReadExactly (n - size data)).
Proof.
  intros Hn Hm. unfold receive. destruct (fits _ _) eqn:Ef; [|done]. unfold fits in Ef.
  rewrite Z.min_l, (proj2 (Z.leb_gt n 0)) in Ef by lia. zify_bool. intros [= <- <-].
  split; [done|]. split; [lia|]. unfold append_chars. cbn [chars]. rewrite size_append.
  rewrite (proj2 (Z.leb_gt max _)) by lia. cbn [orb].
  destruct (Z.leb_spec n (size data)); destruct (Z.eqb_spec n (size data)); try lia; [|done]. by replace (size data) with n by lia.
Qed.

#[local] Arguments size : simpl never.

Lemma read_chars_all d p : read_chars (size d) {| chars := d ++ p; good := true |} = ({| chars := p; good := true |}, d).
Proof.
  unfold read_chars. cbn [good chars]. replace (Z.to_nat (size d)) with (length d) by (unfold size; lia).
  rewrite drop_app_length, take_app_length, size_append. pose proof (size_ge0 p). by rewrite (proj2 (Z.leb_le _ _)) by lia.
Qed.

Lemma get_crlf p : get_char (get_char {| chars := crlf ++ p; good := true |}) = {| chars := p; good := true |}.
Proof.
  unfold get_char. change (crlf ++ p) with ([13] ++ [10] ++ p). change 1 with (size [13]) at 2.
  rewrite read_chars_all. cbn [fst]. change 1 with (size [10]). by rewrite read_chars_all.
Qed.

(** ** A message is read to its end *)

Section Whole.
Context {M : Type} (max_size : Z) (on_head : istream -> Z -> M -> option (M * istream * phase)).
Context (m0 m : M) (fields : list (bytes * bytes)) (body head data : bytes).

(** What holds of the reader while the message arrives: [wire] is still to come. *)
Definition arriving (r : reader M) (wire : bytes) : Prop :=
  match at_phase r with
  | Ended o => o = Complete /\ message r = m /\ stream r = {| chars := data; good := good (stream r) |} /\ wire = []
  | Head op =>
      good (stream r) = true /\ op = ReadUntil (crlf ++ crlf) /\ message r = m0 /\
      chars (stream r) ++ wire = head ++ body /\ size (chars (stream r)) < size head
  | Content op =>
      good (stream r) = true /\ message r = m /\ chars (stream r) ++ wire = data /\ op = ReadExactly (size wire) /\ wire <> []
  | ChunkLine chunks op =>
      good (stream r) = true /\ message r = m /\ op = ReadUntil crlf /\
      exists cs, good_chunks cs /\ chars (stream r) ++ wire = chunks_text cs /\ chunks ++ chunks_data cs = data
  | Chunk chunks len op =>
      good (stream r) = true /\ message r = m /\
      exists ch cs, good_chunks (ch :: cs) /\ chars (stream r) ++ wire = ch.2 ++ crlf ++ chunks_text cs /\
        chunks ++ chunks_data (ch :: cs) = data /\
        len = size ch.2 /\ op = ReadExactly (len + 2 - size (chars (stream r))) /\ size (chars (stream r)) < len + 2
  | ToEnd _ => False
  end /\
  size (chars (stream r) ++ wire) < max_size.

Context (bad_length : outcome) (otherwise : phase)
  (Hother : find_field (text "Content-Length") fields = None -> find_field (text "Transfer-Encoding") fields = None ->
     otherwise = Ended Complete)
  (Hdata : size data < max_size)
  (Hfind : find_delim (crlf ++ crlf) (head ++ body) 0 = Some (size head))
  (Hhead : forall p, on_head {| chars := head ++ p; good := true |} (size head) m0 =
     Some (m, {| chars := p; good := true |}, content_phase bad_length otherwise fields (size p)))
  (Hbody : body_of fields body data).

Definition ended (r : reader M) : Prop := exists o, at_phase r = Ended o.

(** Fewer characters are left, or the message has ended. *)
Definition shrinks (r r' : reader M) : Prop := ended r' \/ size (chars (stream r')) < size (chars (stream r)).

Lemma complete_arriving (r : reader M) : message r = m -> chars (stream r) = data -> arriving (set_phase (Ended Complete) r) [].
Proof.
  intros Hm Hc. split; cbn; [|by rewrite Hc, app_nil_r]. split; [done|]. split; [done|]. split; [|done].
  destruct (stream r) as [ch g]. cbn in *. by subst ch.
Qed.

(** A chunk that has arrived with its line end. *)
Lemma chunk_arriving (r : reader M) chunks ch cs p wire :
  good (stream r) = true -> message r = m -> good_chunks (ch :: cs) ->
  chars (stream r) = ch.2 ++ crlf ++ p -> p ++ wire = chunks_text cs -> chunks ++ chunks_data (ch :: cs) = data ->
  size (chars (stream r) ++ wire) < max_size ->
  let r' := read_chunk max_size chunks (size ch.2) r in arriving r' wire /\ shrinks r r'.
Proof.
  cbn zeta. intros Hg Hr [(_ & _ & _ & Hlt) Hcs] Hc Hp Hd Hm. unfold read_chunk.
  rewrite (proj2 (Z.leb_gt _ _)) by lia. destruct (stream r) as [cc g] eqn:Ec. cbn [chars good] in *. subst cc g.
  rewrite read_chars_all. rewrite Z.eqb_refl, andb_false_r.
  change (chunks_data (ch :: cs)) with (ch.2 ++ chunks_data cs) in Hd.
  assert (size (chunks ++ ch.2) <= size data) as Hsz by (rewrite <- Hd, !size_append; pose proof (size_ge0 (chunks_data cs)); lia).
  rewrite (proj2 (Z.leb_gt _ (size (chunks ++ ch.2)))), andb_false_r by lia.
  rewrite get_crlf. destruct ch as [t [|x d]]; cbn [snd] in *.
  - subst cs. apply app_nil in Hp as [-> ->].
    assert (chunks = data) as -> by (rewrite <- Hd; symmetry; apply app_nil_r). rewrite app_nil_r.
    change (0 <? size []) with false. cbv iota. split; [|left; by eexists]. apply complete_arriving; [done|].
    cbn [stream set_stream append_chars chars app]. change (size []) with 0. rewrite Z.sub_0_r, Z.min_r by lia.
    unfold size. by rewrite Nat2Z.id, firstn_all.
  - rewrite (proj2 (Z.ltb_lt 0 _)) by (rewrite size_cons; pose proof (size_ge0 d); lia).
    split; [|right; rewrite Ec; cbn [chars stream set_phase set_stream];
             rewrite !size_append, size_cons; pose proof (size_ge0 d); change (size crlf) with 2; lia].
    unfold arriving. cbn. split; [|rewrite !size_append in *; pose proof (size_ge0 (x :: d)); change (size crlf) with 2 in *; lia].
    split; [done|]. split; [done|]. split; [done|]. exists cs. split; [done|]. split; [done|]. by rewrite <- app_assoc.
Qed.

(** The line of a chunk has arrived. *)
Lemma chunk_line_arriving (r : reader M) chunks cs n wire :
  good (stream r) = true -> message r = m -> good_chunks cs ->
  chars (stream r) ++ wire = chunks_text cs -> chunks ++ chunks_data cs = data ->
  find_delim crlf (chunks_text cs) 0 = Some n -> n <= size (chars (stream r)) ->
  size (chars (stream r) ++ wire) < max_size ->
  let r' := on_chunk_line max_size chunks n r in arriving r' wire /\ shrinks r r'.
Proof.
  cbn zeta. intros Hg Hr Hcs Hp Hd Hn Hle Hm. destruct cs as [|[t d] cs]; [done|].
  pose proof Hcs as [(Ht & H13 & H10 & Hlt) _]. cbn [fst snd] in *.
  assert (chunks_text ((t, d) :: cs) = (t ++ crlf) ++ d ++ crlf ++ chunks_text cs) as Et
    by (unfold chunks_text, chunk_text; cbn [mbind list_bind fst snd]; by rewrite <- !app_assoc).
  rewrite Et in *. rewrite <- app_assoc, find_crlf in Hn by done. injection Hn as <-.
  assert (exists p, chars (stream r) = (t ++ crlf) ++ p /\ p ++ wire = d ++ crlf ++ chunks_text cs) as (p & Ec & Ep).
  { apply split_prefix; [done|]. rewrite size_append. change (size crlf) with 2. lia. }
  unfold on_chunk_line. destruct (stream r) as [cc g] eqn:Econt. cbn [chars good] in *. subst cc g.
  replace ((t ++ crlf) ++ p) with ((t ++ [13]) ++ 10 :: p) in * by (unfold crlf; by rewrite <- !app_assoc).
  rewrite getline_line by (rewrite not_elem_of_app; split; [done|set_solver]).
  destruct (t ++ [13]) as [|x l] eqn:El; [by destruct t|]. rewrite <- El, removelast_last, Ht in *.
  rewrite size_append. change (size [13]) with 1. rewrite (minus_le (0 + size t + 2)) by lia.
  replace (0 + size t + 2 - (size t + 1 + 1)) with 0 by lia. cbn [chars].
  rewrite minus_le, Z.sub_0_r by apply size_ge0. rewrite wrapu_small by (unfold in_u; pose proof (size_ge0 d); lia).
  assert (forall q, size ((t ++ [13]) ++ 10 :: q) = size t + 2 + size q) as Esz
    by (intros q; unfold size; rewrite !length_app; cbn [length]; lia).
  pose proof (size_ge0 t). pose proof (size_ge0 d).
  assert (size (p ++ wire) < max_size) as Hm' by (rewrite size_append, Esz in Hm; rewrite size_append; lia).
  destruct (Z.ltb_spec (size p) (2 + size d)) as [Hlt2|Hge].
  - split; [|right; cbn; rewrite Econt; cbn [chars]; rewrite Esz; lia].
    unfold arriving. cbn. split; [|done]. split; [done|]. split; [done|]. exists (t, d), cs. cbn [fst snd].
    split; [done|]. split; [done|]. split; [done|]. split; [done|]. split; [f_equal; lia|lia].
  - assert (exists q, p = d ++ crlf ++ q /\ q ++ wire = chunks_text cs) as (q & -> & Eq).
    { rewrite app_assoc in Ep. apply split_prefix in Ep as (q & -> & Eq); [by exists q; rewrite <- app_assoc|].
      rewrite size_append. change (size crlf) with 2. lia. }
    destruct (chunk_arriving (set_stream {| chars := d ++ crlf ++ q; good := true |} r) chunks (t, d) cs q wire)
      as [Hserv Hshr]; try done.
    split; [done|]. destruct Hshr as [Hh|Hh]; [by left|right]. cbn [stream set_stream chars snd] in Hh.
    rewrite Econt. cbn [chars]. rewrite Esz. lia.
Qed.

(** The content behind the head, of which [p] has arrived. *)
Lemma content_arriving p wire : p ++ wire = body -> size body < max_size ->
  arriving {| message := m; stream := {| chars := p; good := true |};
              at_phase := content_phase bad_length otherwise fields (size p) |} wire.
Proof.
  intros Hp Hm. unfold content_phase.
  destruct (body_of_inv _ _ _ Hbody) as [(E1 & E2 & Eb & Ed)|[(v & -> & -> & Eb)|(cs & -> & -> & Hcs & Eb & Ed)]].
  - rewrite E1, E2, bool_decide_eq_false_2, Hother by done. rewrite Eb in Hp. apply app_nil in Hp as [-> ->].
    by apply (complete_arriving {| message := m; stream := {| chars := []; good := true |}; at_phase := otherwise |}).
  - rewrite Eb in Hp, Hm. destruct (Z.ltb_spec (size p) (size data)) as [Hlt|Hge].
    + unfold arriving. cbn. rewrite Hp. split; [|done]. split; [done|]. split; [done|]. split; [done|].
      rewrite <- Hp, size_append in *. split; [f_equal; lia|]. intros ->. change (size []) with 0 in *. lia.
    + assert (wire = []) as ->.
      { rewrite <- Hp, size_append in Hge. destruct wire as [|x w]; [done|]. rewrite size_cons in Hge. pose proof (size_ge0 w). lia. }
      rewrite app_nil_r in Hp. subst p.
      by apply (complete_arriving {| message := m; stream := {| chars := data; good := true |}; at_phase := otherwise |}).
  - rewrite bool_decide_eq_true_2 by done. unfold arriving. cbn. rewrite Hp. split; [|done].
    split; [done|]. split; [done|]. split; [done|]. by exists cs.
Qed.

(** ** Reads keep it, and each takes characters from the wire or from the buffer *)

Definition left_to_do (r : reader M) (wire : bytes) : Z :=
  match at_phase r with Ended _ => 0 | _ => 2 * size wire + size (chars (stream r)) + 1 end.

Lemma left_pending r wire : pending_read r <> None -> left_to_do r wire = 2 * size wire + size (chars (stream r)) + 1.
Proof. unfold pending_read, left_to_do. by destruct (at_phase r). Qed.

Lemma left_at_most r wire : left_to_do r wire <= 2 * size wire + size (chars (stream r)) + 1.
Proof. unfold left_to_do. pose proof (size_ge0 wire). pose proof (size_ge0 (chars (stream r))). destruct (at_phase r); lia. Qed.

(** A completion that leaves less than was there after [data'] had arrived. *)
Lemma left_less r r1 r' data' wire' : pending_read r <> None -> shrinks r1 r' ->
  stream r1 = append_chars (stream r) data' -> left_to_do r' wire' < left_to_do r (data' ++ wire').
Proof.
  intros Hp Hs E. rewrite (left_pending r) by done. rewrite size_append.
  pose proof (size_ge0 data'). pose proof (size_ge0 wire'). pose proof (size_ge0 (chars (stream r))).
  destruct Hs as [[o Ho]|Hs]; [unfold left_to_do; rewrite Ho; lia|].
  rewrite E in Hs. unfold append_chars in Hs. cbn [chars] in Hs. rewrite size_append in Hs. pose proof (left_at_most r' wire'). lia.
Qed.

Lemma left_continue r r' data' wire' : pending_read r <> None -> data' <> [] ->
  stream r' = append_chars (stream r) data' -> left_to_do r' wire' < left_to_do r (data' ++ wire').
Proof.
  intros Hp Hd E. rewrite (left_pending r) by done. pose proof (left_at_most r' wire') as Hl. rewrite E in Hl.
  unfold append_chars in Hl. cbn [chars] in Hl. rewrite !size_append in *.
  assert (0 < size data') by (destruct data'; [done|rewrite size_cons; pose proof (size_ge0 data'); lia]). lia.
Qed.

Definition step_ok (r : reader M) (data' wire' : bytes) (r' : reader M) : Prop :=
  arriving r' wire' /\ left_to_do r' wire' < left_to_do r (data' ++ wire').

(** A read that goes on: only the buffer has changed. *)
Lemma continue_ok r data' wire' p : pending_read r <> None -> data' <> [] ->
  arriving (set_phase p (set_stream (append_chars (stream r) data') r)) wire' ->
  step_ok r data' wire' (set_phase p (set_stream (append_chars (stream r) data') r)).
Proof. intros Hp Hd Ha. split; [done|]. by apply left_continue. Qed.

Lemma receive_inv op r data' r' b : reader_receive max_size on_head data' r = Some (r', b) -> pending_read r = Some op ->
  exists s res, receive max_size op (stream r) data' = Some (s, res) /\
    match res with
    | Continue op => Some (set_phase (set_read op (at_phase r)) (set_stream s r))
    | Completed n => read_completed max_size on_head false n (set_stream s r)
    | NotFound => read_completed max_size on_head true 0 (set_stream s r)
    end = Some r'.
Proof.
  unfold reader_receive. intros Hstep Hr. rewrite Hr in Hstep. cbn [mbind option_bind] in Hstep.
  destruct (receive _ _ _ _) as [[s res]|]; [|done]. exists s, res. split; [done|].
  cbn [mbind option_bind] in Hstep. destruct res; [by injection Hstep as <- _|..];
    (destruct (read_completed _ _ _ _ _); [|done]; by injection Hstep as <- _).
Qed.

Lemma continues_pending r data' r' : reader_receive max_size on_head data' r = Some (r', false) -> pending_read r' <> None.
Proof.
  unfold reader_receive, pending_read. destruct (at_phase r) eqn:Ep; try done; cbn [mbind option_bind];
    (destruct (receive _ _ _ _) as [[s res]|]; [|done]); cbn [mbind option_bind];
    (destruct res; [intros [= <-]; cbn; by rewrite Ep|..]); by destruct (read_completed _ _ _ _ _).
Qed.

(** What has arrived is below the limit of the buffer. *)
Lemma below_max (r : reader M) data' wire' : size (chars (stream r) ++ data' ++ wire') < max_size ->
  (size (chars (append_chars (stream r) data')) =? max_size) = false /\
  size (chars (append_chars (stream r) data') ++ wire') < max_size.
Proof.
  intros Hm. unfold append_chars. cbn [chars]. rewrite <- app_assoc. split; [|done]. apply Z.eqb_neq.
  rewrite !size_append in *. pose proof (size_ge0 wire'). lia.
Qed.

Lemma step_line r chunks op data' wire' r' b : arriving r (data' ++ wire') -> at_phase r = ChunkLine chunks op ->
  reader_receive max_size on_head data' r = Some (r', b) -> step_ok r data' wire' r'.
Proof.
  intros [Hs Hm] Hp Hstep. rewrite Hp in Hs. destruct Hs as (Hg & Hr & -> & cs & Hcs & Ht & Hd).
  assert (pending_read r = Some (ReadUntil crlf)) as Hop by (unfold pending_read; by rewrite Hp).
  apply (receive_inv (ReadUntil crlf)) in Hstep as (s & res & Erec & Hstep); [|done].
  destruct cs as [|[t d] cs]; [done|]. pose proof Hcs as [(_ & H13 & _) _]. cbn [fst] in H13.
  assert (find_delim crlf (chunks_text ((t, d) :: cs)) 0 = Some (0 + size t + 2)) as Hf.
  { unfold chunks_text, chunk_text. cbn [mbind list_bind fst snd]. rewrite <- !app_assoc. by apply find_crlf. }
  rewrite <- Ht in Hf. destruct (receive_until _ _ _ _ _ _ _ _ Hf Hm Erec) as (-> & Hdata' & ->).
  destruct (below_max r data' wire' Hm) as [Hne Hm'].
  destruct (Z.leb_spec (0 + size t + 2) (size (chars (stream r) ++ data'))) as [Hle|Hgt].
  - unfold read_completed in Hstep. cbn [stream set_stream at_phase] in Hstep. rewrite Hne, Hp in Hstep. injection Hstep as <-.
    destruct (chunk_line_arriving (set_stream (append_chars (stream r) data') r) chunks ((t, d) :: cs) (0 + size t + 2) wire')
      as [Ha Hshr]; try done.
    + cbn [stream set_stream append_chars chars]. by rewrite <- app_assoc.
    + by rewrite <- Ht.
    + split; [done|]. eapply left_less; [by rewrite Hop|done|done].
  - injection Hstep as <-. apply continue_ok; [by rewrite Hop| |].
    + intros ->. specialize (Hdata' eq_refl). rewrite app_nil_r in Hgt. lia.
    + rewrite Hp. unfold arriving. cbn. rewrite <- app_assoc. split; [|done]. split; [done|]. split; [done|]. split; [done|].
      by exists ((t, d) :: cs).
Qed.

Lemma step_chunk r chunks len op data' wire' r' b : arriving r (data' ++ wire') -> at_phase r = Chunk chunks len op ->
  reader_receive max_size on_head data' r = Some (r', b) -> step_ok r data' wire' r'.
Proof.
  intros [Hs Hm] Hp Hstep. rewrite Hp in Hs. destruct Hs as (Hg & Hr & ch & cs & Hcs & Ht & Hd & -> & -> & Hlt).
  assert (pending_read r = Some (ReadExactly (size ch.2 + 2 - size (chars (stream r))))) as Hop by (unfold pending_read; by rewrite Hp).
  destruct (receive_inv _ _ _ _ _ Hstep Hop) as (s & res & Erec & Hstep'). clear Hstep. rename Hstep' into Hstep.
  assert (size (chars (stream r) ++ data' ++ wire') = size ch.2 + 2 + size (chunks_text cs)) as Esz
    by (rewrite Ht, !size_append; change (size crlf) with 2; lia).
  pose proof (size_ge0 (chunks_text cs)). destruct (below_max r data' wire' Hm) as [Hne Hm'].
  apply receive_exactly in Erec as (-> & Hdata' & ->); [|lia..].
  destruct (Z.eqb_spec (size ch.2 + 2 - size (chars (stream r))) (size data')) as [He|Hnd].
  - unfold read_completed in Hstep. cbn [stream set_stream at_phase] in Hstep. rewrite Hne, Hp in Hstep. injection Hstep as <-.
    rewrite (app_assoc _ data'), (app_assoc ch.2) in Ht.
    apply split_prefix in Ht as (p & Ec & Ep); [|rewrite !size_append; change (size crlf) with 2; lia].
    destruct (chunk_arriving (set_stream (append_chars (stream r) data') r) chunks ch cs p wire') as [Ha Hshr]; try done.
    + cbn [stream set_stream append_chars chars]. by rewrite Ec, <- app_assoc.
    + split; [done|]. eapply left_less; [by rewrite Hop|done|done].
  - injection Hstep as <-. apply continue_ok; [by rewrite Hop| |].
    + intros ->. change (size []) with 0 in *. lia.
    + rewrite Hp. unfold arriving. cbn. rewrite <- app_assoc. split; [|done]. split; [done|]. split; [done|].
      exists ch, cs. split; [done|]. split; [done|]. split; [done|]. split; [done|]. rewrite size_append. split; [f_equal; lia|lia].
Qed.

Lemma step_content r op data' wire' r' b : arriving r (data' ++ wire') -> at_phase r = Content op ->
  reader_receive max_size on_head data' r = Some (r', b) -> step_ok r data' wire' r'.
Proof.
  intros [Hs Hm] Hp Hstep. rewrite Hp in Hs. destruct Hs as (Hg & Hr & Hc & -> & Hw).
  assert (pending_read r = Some (ReadExactly (size (data' ++ wire')))) as Hop by (unfold pending_read; by rewrite Hp).
  destruct (receive_inv _ _ _ _ _ Hstep Hop) as (s & res & Erec & Hstep'). clear Hstep. rename Hstep' into Hstep.
  destruct (below_max r data' wire' Hm) as [Hne Hm'].
  apply receive_exactly in Erec as (-> & Hdata' & ->); cycle 1.
  { destruct (data' ++ wire'); [done|]. rewrite size_cons. pose proof (size_ge0 l). lia. }
  { by rewrite <- size_append. }
  destruct (Z.eqb_spec (size (data' ++ wire')) (size data')) as [He|Hnd].
  - assert (wire' = []) as -> by (rewrite size_append in He; destruct wire' as [|x w]; [done|rewrite size_cons in He; pose proof (size_ge0 w); lia]).
    unfold read_completed in Hstep. cbn [stream set_stream at_phase] in Hstep. rewrite Hne, Hp in Hstep. injection Hstep as <-.
    split; [apply complete_arriving; [done|by rewrite app_nil_r in Hc]|].
    apply (left_less r (set_stream (append_chars (stream r) data') r)); [by rewrite Hop| |done]. left. by eexists.
  - injection Hstep as <-. apply continue_ok; [by rewrite Hop| |].
    + intros ->. change (size []) with 0 in *. lia.
    + rewrite Hp. unfold arriving. cbn. rewrite <- app_assoc. split; [|done]. split; [done|]. split; [done|]. split; [done|].
      rewrite size_append in *. split; [f_equal; lia|]. intros ->. change (size []) with 0 in *. lia.
Qed.

Lemma step_head r op data' wire' r' b : arriving r (data' ++ wire') -> at_phase r = Head op ->
  reader_receive max_size on_head data' r = Some (r', b) -> step_ok r data' wire' r'.
Proof.
  intros [Hs Hm] Hp Hstep. rewrite Hp in Hs. destruct Hs as (Hg & -> & Hr & Hc & Hlt).
  assert (pending_read r = Some (ReadUntil (crlf ++ crlf))) as Hop by (unfold pending_read; by rewrite Hp).
  apply (receive_inv (ReadUntil (crlf ++ crlf))) in Hstep as (s & res & Erec & Hstep); [|done].
  pose proof Hfind as Hf. rewrite <- Hc in Hf. destruct (receive_until _ _ _ _ _ _ _ _ Hf Hm Erec) as (-> & Hdata' & ->).
  destruct (below_max r data' wire' Hm) as [Hne Hm'].
  destruct (Z.leb_spec (size head) (size (chars (stream r) ++ data'))) as [Hle|Hgt].
  - pose proof Hc as Hc'. rewrite app_assoc in Hc'. apply split_prefix in Hc' as (p & Ec & Ep); [|done].
    unfold read_completed in Hstep. cbn [stream set_stream at_phase message] in Hstep. rewrite Hne, Hp in Hstep.
    unfold append_chars in Hstep. cbn [chars] in Hstep. rewrite Ec, Hg, Hr, Hhead in Hstep. injection Hstep as <-.
    assert (size body < max_size) as Hb by (rewrite Hc, size_append in Hm; pose proof (size_ge0 head); lia).
    split; [by apply content_arriving|].
    apply (left_less r (set_stream (append_chars (stream r) data') r)); [by rewrite Hop| |done]. right.
    cbn [stream set_stream append_chars chars]. rewrite Ec, size_append.
    apply find_delim_bound in Hfind as [Hh _]. change (size (crlf ++ crlf)) with 4 in Hh. lia.
  - injection Hstep as <-. apply continue_ok; [by rewrite Hop| |].
    + intros ->. rewrite app_nil_r in Hgt. specialize (Hdata' eq_refl). lia.
    + rewrite Hp. unfold arriving. cbn. rewrite <- app_assoc. split; [|done]. done.
Qed.

Lemma step_arriving r data' wire' r' b : arriving r (data' ++ wire') ->
  reader_receive max_size on_head data' r = Some (r', b) -> step_ok r data' wire' r'.
Proof.
  intros Ha Hstep. destruct (at_phase r) as [op|op|chunks op|chunks len op|op|o] eqn:Ep.
  - by eapply step_head.
  - by eapply step_content.
  - by eapply step_line.
  - by eapply step_chunk.
  - destruct Ha as [Ha _]. by rewrite Ep in Ha.
  - unfold reader_receive, pending_read in Hstep. by rewrite Ep in Hstep.
Qed.

(** What the read operation accepts, the reader accepts. *)
Lemma receive_some r op data' wire' : arriving r (data' ++ wire') -> pending_read r = Some op ->
  is_Some (receive max_size op (stream r) data') -> is_Some (reader_receive max_size on_head data' r).
Proof.
  intros [Hs Hm] Hop [[s res] Erec]. unfold reader_receive. rewrite Hop. cbn [mbind option_bind]. rewrite Erec.
  cbn [mbind option_bind]. destruct res as [op'|n|]; [by eexists| |].
  2:{ unfold read_completed. case_if; by eexists. }
  unfold read_completed. cbn [stream set_stream at_phase message]. case_if; [by eexists|].
  unfold pending_read in Hop. destruct (at_phase r) as [op'|op'|chunks op'|chunks len op'|op'|o] eqn:Ep; try done; try by eexists.
  injection Hop as ->. destruct Hs as (Hg & -> & Hr & Hc & Hlt). pose proof Hfind as Hf. rewrite <- Hc in Hf.
  destruct (receive_until _ _ _ _ _ _ _ _ Hf Hm Erec) as (-> & _ & Eres).
  destruct (Z.leb_spec (size head) (size (chars (stream r) ++ data'))) as [Hle|]; [|done]. injection Eres as ->.
  rewrite app_assoc in Hc. apply split_prefix in Hc as (p & Ec & _); [|done].
  unfold append_chars. cbn [chars]. rewrite Ec, Hg, Hr, Hhead. by eexists.
Qed.

(** While the message has not ended a read is possible: of nothing when what is needed has
    arrived, else of one character. *)
Lemma can_receive r wire : arriving r wire -> pending_read r <> None ->
  exists k, (k <= length wire)%nat /\ is_Some (reader_receive max_size on_head (take k wire) r).
Proof.
  intros Ha Hp. destruct (pending_read r) as [op|] eqn:Hop; [|done]. clear Hp.
  assert (forall k, (k <= length wire)%nat -> is_Some (receive max_size op (stream r) (take k wire)) ->
    exists k, (k <= length wire)%nat /\ is_Some (reader_receive max_size on_head (take k wire) r)) as Hdel.
  { intros k Hk Hrec. exists k. split; [done|]. rewrite <- (take_drop k wire) in Ha. by eapply receive_some. }
  destruct Ha as [Hs Hm]. rewrite size_append in Hm. pose proof (size_ge0 wire). pose proof (size_ge0 (chars (stream r))).
  assert (forall n, 0 < n -> wire <> [] -> fits (Z.min n (max_size - size (chars (stream r)))) (take 1 wire) = true) as Hfits.
  { intros n Hn Hw. destruct wire as [|x w]; [done|]. rewrite size_cons in Hm. pose proof (size_ge0 w).
    unfold fits. change (take 1 (x :: w)) with [x]. change (size [x]) with 1. rewrite (proj2 (Z.leb_gt _ 0)) by lia.
    apply andb_true_intro. split; [done|]. apply Z.leb_le. lia. }
  assert (forall d, find_delim d (chars (stream r)) 0 = None -> op = ReadUntil d -> wire <> [] ->
    exists k, (k <= length wire)%nat /\ is_Some (reader_receive max_size on_head (take k wire) r)) as Huntil.
  { intros d Hd -> Hw. apply (Hdel 1%nat); [destruct wire; [done|cbn; lia]|]. cbn [receive]. rewrite Hd.
    specialize (Hfits max_size). rewrite Z.min_r in Hfits by lia. rewrite Hfits by (try done; lia). by eexists. }
  unfold pending_read in Hop. destruct (at_phase r) as [op'|op'|chunks op'|chunks len op'|op'|o]; try done; injection Hop as ->.
  - destruct Hs as (_ & -> & _ & Hc & Hlt). pose proof Hfind as Hf. rewrite <- Hc in Hf. apply find_delim_app_inv in Hf.
    rewrite (proj2 (Z.leb_gt _ _)) in Hf by lia. apply (Huntil _ Hf eq_refl). intros ->. rewrite app_nil_r in Hc.
    rewrite Hc, size_append in Hlt. pose proof (size_ge0 body). lia.
  - destruct Hs as (_ & _ & _ & -> & Hw). apply (Hdel 1%nat); [destruct wire; [done|cbn; lia]|]. cbn [receive].
    rewrite Hfits; [by eexists| |done]. destruct wire as [|x w]; [done|]. rewrite size_cons. pose proof (size_ge0 w). lia.
  - destruct Hs as (_ & _ & -> & cs & Hcs & Ht & _). destruct (find_delim crlf (chars (stream r)) 0) as [n|] eqn:Ed.
    + apply (Hdel 0%nat); [lia|]. cbn [receive take]. rewrite Ed. by eexists.
    + apply (Huntil _ Ed eq_refl). intros ->. rewrite app_nil_r in Ht. rewrite Ht in Ed.
      destruct cs as [|[t d] cs]; [done|]. destruct Hcs as [(_ & H13 & _) _]. unfold chunks_text, chunk_text in Ed.
      cbn [mbind list_bind fst snd] in Ed. rewrite <- !app_assoc in Ed. by rewrite find_crlf in Ed.
  - destruct Hs as (_ & _ & ch & cs & _ & Ht & _ & -> & -> & Hlt).
    assert (wire <> []) as Hw.
    { intros ->. rewrite app_nil_r in Ht. rewrite Ht, !size_append in Hlt. change (size crlf) with 2 in Hlt.
      pose proof (size_ge0 (chunks_text cs)). lia. }
    apply (Hdel 1%nat); [destruct wire; [done|cbn; lia]|]. cbn [receive]. rewrite Hfits; [by eexists|lia|done].
Qed.

Lemma init_arriving : size (head ++ body) < max_size -> arriving (new_reader m0) (head ++ body).
Proof.
  intros Hm. split; [|done]. split; [done|]. split; [done|]. split; [done|]. split; [done|].
  apply find_delim_bound in Hfind as [Hb _]. change (size (crlf ++ crlf)) with 4 in Hb.
  change (size (chars (stream (new_reader m0)))) with 0. lia.
Qed.

End Whole.

(** ** Sizes and fields *)

Lemma chunks_data_short cs : size (chunks_data cs) <= size (chunks_text cs).
Proof.
  induction cs as [|ch cs IH]; [done|].
  change (chunks_data (ch :: cs)) with (ch.2 ++ chunks_data cs). change (chunks_text (ch :: cs)) with (chunk_text ch ++ chunks_text cs).
  unfold chunk_text. rewrite !size_append. pose proof (size_ge0 ch.1). pose proof (size_ge0 crlf). lia.
Qed.

Lemma body_of_short fs body data : body_of fs body data -> size data <= size body.
Proof. intros [ | |]; [done..|apply chunks_data_short]. Qed.

(** A field that occurs at most once is looked up the same in any order. *)
Lemma find_field_once name fs m : (length (equal_range name fs) <= 1)%nat -> m ≡ₚ fs -> find_field name m = find_field name fs.
Proof.
  intros Hl E. destruct (equal_range name fs) as [|f [|g l]] eqn:Ef; [| |cbn in Hl; lia].
  - rewrite (find_field_none name fs m) by done. unfold find_field. by rewrite Ef.
  - rewrite (find_field_unique name fs m f) by done. unfold find_field. by rewrite Ef.
Qed.

(** The fields that decide how a message goes on. *)
Definition once (fs : list (bytes * bytes)) : Prop :=
  Forall (fun n => length (equal_range n fs) <= 1)%nat
    [text "Content-Length"; text "Transfer-Encoding"; text "Upgrade"; text "Session"].

Lemma once_lookup fs m n : once fs -> m ≡ₚ fs ->
  n ∈ [text "Content-Length"; text "Transfer-Encoding"; text "Upgrade"; text "Session"] -> find_field n m = find_field n fs.
Proof. intros Ho E Hn. apply find_field_once; [|done]. unfold once in Ho. rewrite Forall_forall in Ho. by apply Ho. Qed.

(** The content of fields in another order. *)
Lemma body_of_perm fs m body data : once fs -> m ≡ₚ fs -> body_of fs body data -> body_of m body data.
Proof.
  intros Ho E Hb. pose proof (once_lookup fs m) as Hl.
  destruct Hb; [apply no_content|eapply by_length|apply by_chunks]; rewrite ?Hl by (try done; set_solver); done.
Qed.

Lemma length_fields_text fs : (length fs <= length (fields_text fs))%nat.
Proof.
  induction fs as [|f fs IH]; [done|]. change (fields_text (f :: fs)) with ((header_line f ++ [10]) ++ fields_text fs).
  rewrite !length_app. cbn [length]. lia.
Qed.

(** The head of a message: the first line without its line end, and the fields. *)
Definition head_of (line : bytes) (fs : list (bytes * bytes)) : bytes := line ++ crlf ++ fields_text fs ++ crlf.

Lemma find_head line fs body : 10 ∉ line -> Forall good_field fs ->
  find_delim (crlf ++ crlf) (head_of line fs ++ body) 0 = Some (size (head_of line fs)).
Proof.
  intros Hn Hf. unfold head_of. rewrite <- !app_assoc, find_headers by done. f_equal.
  rewrite !size_append. change (size crlf) with 2. lia.
Qed.

(** ** What goes wrong *)

(** A chunk of 2^64 - 2 characters: the size with its line end wraps around to 0, so nothing
    more is waited for, and the array for the chunk cannot be created. *)
Theorem huge_chunk_throws {M} max_size chunks p (r : reader M) :
  stream r = {| chars := text "fffffffffffffffe" ++ crlf ++ p; good := true |} -> size p < 2 ^ 64 ->
  at_phase (on_chunk_line max_size chunks 18 r) = Ended Throws.
Proof.
  intros Hc Hp. unfold on_chunk_line. rewrite Hc.
  change (text "fffffffffffffffe" ++ crlf ++ p) with ((text "fffffffffffffffe" ++ [13]) ++ 10 :: p).
  rewrite getline_line by (vm_compute; set_solver). cbn [text List.map app String.list_ascii_of_string].
  change (stoul16 _) with (Some (2 ^ 64 - 2)). cbn [chars].
  change (u64 (2 + (2 ^ 64 - 2))) with 0. pose proof (size_ge0 p).
  match goal with |- context [minus 18 ?x] => change (minus 18 x) with 0 end.
  by rewrite minus_le, (proj2 (Z.ltb_ge _ _)) by lia.
Qed.

(** A line feed alone where the size of a chunk should be: the line is empty, and its last
    character is removed all the same. *)
Theorem empty_chunk_line_is_undefined {M} max_size chunks n p (r : reader M) :
  stream r = {| chars := 10 :: p; good := true |} ->
  at_phase (on_chunk_line max_size chunks n r) = Ended Undefined.
Proof. intros Hc. unfold on_chunk_line. rewrite Hc. by rewrite (getline_line [] p) by set_solver. Qed.

End HttpReader.
