(* ===== verification/HttpServer.v ===== *)
(** * HttpServer: a connection of the HTTP server ([src/network/http/server_http.hpp])

    One connection, from the first read to its end: the request, the asynchronous operation
    that is pending and the timer.  An event is what happens to the pending operation, or what
    the handler of the request does with its response.  How the request is read is
    [HttpReader]; the regular expressions of the resources and their matching are the standard
    library's, a parameter.  The log has the calls of handlers and of [on_error], in order. *)

From S2P Require Import Prelude Decimal HttpText HttpMessage HttpStream HttpReader.
Import HttpText HttpMessage HttpStream HttpReader.

Module HttpServer.

(** ** Responses *)

Definition is_chunked (field : bytes * bytes) : bool :=
  case_insensitive_equal field.1 (text "transfer-encoding") && case_insensitive_equal field.2 (text "chunked").

(** The flags [content_length_written] and [chunked_transfer_encoding]. *)
Fixpoint header_flags (header : list (bytes * bytes)) (content_length_written chunked : bool) : bool * bool :=
  match header with
  | [] => (content_length_written, chunked)
  | field :: r =>
      if negb content_length_written && case_insensitive_equal field.1 (text "content-length")
      then header_flags r true chunked
      else if negb chunked && is_chunked field then header_flags r content_length_written true
      else header_flags r content_length_written chunked
  end.

Definition write_header (header : list (bytes * bytes)) (size : Z) (close_connection_after_response : bool) : bytes :=
  let '(content_length_written, chunked) := header_flags header false false in
  written_fields header ++
  (if negb content_length_written && negb chunked && negb close_connection_after_response
   then text "Content-Length: " ++ to_string size ++ crlf ++ crlf else crlf).

Definition status_text (c : StatusCode) : bytes := text "HTTP/1.1 " ++ status_code c ++ crlf.

(** The overloads of [Response::write]: a status, a text, a stream with these characters. *)
Definition write_status (c : StatusCode) (header : list (bytes * bytes)) (close : bool) : bytes :=
  status_text c ++ write_header header 0 close.

Definition write_content (c : StatusCode) (content : bytes) (header : list (bytes * bytes)) (close : bool) : bytes :=
  status_text c ++ write_header header (size content) close ++ content.

Definition write_stream (c : StatusCode) (content : bytes) (header : list (bytes * bytes)) (close : bool) : bytes :=
  status_text c ++ write_header header (size content) close ++ (if size content =? 0 then [] else content).

(** ** The connection *)

Inductive error := message_size | protocol_error | operation_canceled | asio_error (e : Z).

Record config := {
  max_request_streambuf_size : Z;
  timeout_request : Z; timeout_content : Z;
  resource : list (bytes * list (bytes * nat));   (* expression; handlers by method *)
  default_resource : list (bytes * nat);
  on_upgrade : bool;
}.

Inductive operation :=
  | Reading                                  (* what is read is in [request] *)
  | InHandler                                (* the response is held by the handler *)
  | Sending (out : bytes) (close_connection_after_response : bool)
  | SendingError (out : bytes)               (* a response without a callback *)
  | Finished.                                (* nothing holds the session *)

Inductive entry :=
  | Handled (h : nat) (r : request_message) (content : bytes)
  | Upgraded (r : request_message)
  | OnError (e : error)
  | Sent (out : bytes)
  | Thrown                                   (* an exception leaves the completion handler *)
  | UndefinedBehaviour.

Record connection := {
  request : reader request_message;
  pending : operation;
  timer : option Z;
  is_open : bool;
  in_connections : bool;
  runner_stopped : bool;
  log : list entry;
}.

Definition set_pending (p : operation) (c : connection) : connection :=
  {| request := request c; pending := p; timer := timer c; is_open := is_open c;
     in_connections := in_connections c; runner_stopped := runner_stopped c; log := log c |}.
Definition set_request (r : reader request_message) (c : connection) : connection :=
  {| request := r; pending := pending c; timer := timer c; is_open := is_open c;
     in_connections := in_connections c; runner_stopped := runner_stopped c; log := log c |}.
Definition set_timeout (seconds : Z) (c : connection) : connection :=
  {| request := request c; pending := pending c;
     timer := if seconds =? 0 then None else Some seconds; is_open := is_open c;
     in_connections := in_connections c; runner_stopped := runner_stopped c; log := log c |}.
Definition cancel_timeout (c : connection) : connection :=
  {| request := request c; pending := pending c; timer := None; is_open := is_open c;
     in_connections := in_connections c; runner_stopped := runner_stopped c; log := log c |}.
Definition emit (e : entry) (c : connection) : connection :=
  {| request := request c; pending := pending c; timer := timer c; is_open := is_open c;
     in_connections := in_connections c; runner_stopped := runner_stopped c; log := log c ++ [e] |}.
Definition close (c : connection) : connection :=
  {| request := request c; pending := pending c; timer := timer c; is_open := false;
     in_connections := in_connections c; runner_stopped := runner_stopped c; log := log c |}.
Definition erase_connection (c : connection) : connection :=
  {| request := request c; pending := pending c; timer := timer c; is_open := is_open c;
     in_connections := false; runner_stopped := runner_stopped c; log := log c |}.
Definition stop_runner (c : connection) : connection :=
  {| request := request c; pending := pending c; timer := timer c; is_open := is_open c;
     in_connections := in_connections c; runner_stopped := true; log := log c |}.

(** The session is dropped, after an error that is reported. *)
Definition finish (c : connection) : connection := set_pending Finished c.
Definition fail (e : error) (c : connection) : connection := finish (emit (OnError e) c).

Section Serving.
Context `{Multimap} (regex_match : bytes -> bytes -> bool) (cfg : config).

(** [Session::Session] and [read]: a new request with an empty buffer. *)
Definition read (c : connection) : connection :=
  set_pending Reading (set_timeout (timeout_request cfg) (set_request (new_reader empty_request) c)).

(** The part of [read] that parses the head and tells how the content comes. *)
Definition on_request_head (s : istream) (bytes_transferred : Z) (m : request_message)
    : option (request_message * istream * phase) :=
  let num_additional_bytes := minus (size (chars s)) bytes_transferred in
  '(ok, r, s) ← RequestMessage_parse (header_fuel s) s m;
  Some (r, s, if ok : bool then content_phase ProtocolError (Ended Complete) (header r) num_additional_bytes
              else Ended ProtocolError).

Definition too_large (c : connection) : connection :=
  emit (OnError message_size)
    (set_pending (SendingError (write_status client_error_payload_too_large [] false))
       (set_timeout (timeout_content cfg) c)).

Definition lookup_method (m : bytes) (l : list (bytes * nat)) : option nat :=
  snd <$> List.find (fun '(k, _) => bool_decide (k = m)) l.

(** The first resource with the method whose expression matches the path, else the default. *)
Definition find_handler (method path : bytes) : option nat :=
  match List.find (fun '(e, methods) => bool_decide (is_Some (lookup_method method methods)) && regex_match e path)
          (resource cfg) with
  | Some (_, methods) => lookup_method method methods
  | None => lookup_method method (default_resource cfg)
  end.

Definition find_resource (c : connection) : connection :=
  let r := message (request c) in
  if on_upgrade cfg && bool_decide (is_Some (find_field (text "Upgrade") (header r))) then
    finish (emit (Upgraded r) (erase_connection c))
  else
    match find_handler (method r) (path r) with
    | Some h => set_pending InHandler (emit (Handled h r (chars (stream (request c)))) (set_timeout (timeout_content cfg) c))
    | None => finish c
    end.

(** What follows a completed read: the next read of the content, or the end of the request. *)
Definition after_read (c : connection) : connection :=
  match at_phase (request c) with
  | Ended Complete => find_resource c
  | Ended MessageSize => too_large c
  | Ended ProtocolError => fail protocol_error c
  | Ended (Failed e) => fail (asio_error e) c
  | Ended Throws => finish (emit Thrown c)
  | Ended Undefined => finish (emit UndefinedBehaviour c)
  | _ => set_timeout (timeout_content cfg) c
  end.

(** ** After the response *)

(** [a >= b] on strings. *)
Fixpoint string_ge (a b : bytes) : bool :=
  match a, b with
  | _, [] => true
  | [], _ => false
  | x :: a, y :: b => if x =? y then string_ge a b else y <? x
  end.

(** The fields [Connection] in the order of iteration; the version decides when none does. *)
Fixpoint keep_alive (connection_fields : list (bytes * bytes)) (version : bytes) : bool :=
  match connection_fields with
  | [] => string_ge version (text "1.1")
  | field :: r =>
      if case_insensitive_equal field.2 (text "close") then false
      else if case_insensitive_equal field.2 (text "keep-alive") then true
      else keep_alive r version
  end.

Definition on_sent (close_connection_after_response : bool) (c : connection) : connection :=
  let r := message (request c) in
  if close_connection_after_response then finish c
  else if keep_alive (equal_range (text "Connection") (header r)) (version r) then read c
  else finish c.

Definition send (out : bytes) (close : bool) (c : connection) : connection :=
  set_pending (Sending out close) (set_timeout (timeout_content cfg) c).

(** ** Events *)

Inductive event :=
  | EReceive (data : bytes)                      (* the pending read gets characters *)
  | EFail (e : Z)                                (* the pending operation fails *)
  | EWritten                                     (* the pending write completes *)
  | ERespond (out : bytes) (close : bool)        (* the last reference to the response goes *)
  | EHandlerThrows
  | ETimeout
  | EStop.                                       (* the destructor of the server *)

(** A completion cancels the timer and goes on unless the server is being destroyed. *)
Definition complete (k : connection -> connection) (c : connection) : connection :=
  let c := cancel_timeout c in
  if runner_stopped c then finish c else k c.

Definition server_step (ev : event) (c : connection) : option connection :=
  match ev with
  | EReceive data =>
      match pending c with
      | Reading =>
          if is_open c then
            '(r, completed) ← reader_receive (max_request_streambuf_size cfg) on_request_head data (request c);
            let c := set_request r c in
            Some (if completed : bool then complete after_read c else c)
          else None
      | _ => None
      end
  | EFail e =>
      match pending c with
      | Reading =>
          r ← reader_fail e (request c);
          Some (complete after_read (set_request r c))
      | Sending _ _ => Some (complete (fail (asio_error e)) c)
      | SendingError _ => Some (complete finish c)
      | _ => None
      end
  | EWritten =>
      match pending c with
      | Sending out cl => Some (complete (on_sent cl) (emit (Sent out) c))
      | SendingError out => Some (complete finish (emit (Sent out) c))
      | _ => None
      end
  | ERespond out cl => match pending c with InHandler => Some (send out cl c) | _ => None end
  | EHandlerThrows => match pending c with InHandler => Some (emit (OnError operation_canceled) c) | _ => None end
  | ETimeout => match timer c with Some _ => Some (close (cancel_timeout c)) | None => None end
  | EStop => Some (close (stop_runner c))
  end.

(** A connection as [accept] hands it to [read]. *)
Definition accepted : connection :=
  read {| request := new_reader empty_request; pending := Finished; timer := None;
          is_open := true; in_connections := true; runner_stopped := false; log := [] |}.

(** The reads take [k] characters of what is on the wire. *)
Definition serve (k : nat) (st : connection * bytes) : option (connection * bytes) :=
  let '(c, wire) := st in
  if (k <=? length wire)%nat then c ← server_step (EReceive (take k wire)) c; Some (c, drop k wire)
  else None.

End Serving.

(** The head of a request on the wire. *)
Definition head_text (method path : bytes) (query : option bytes) (version : bytes) (fs : list (bytes * bytes)) : bytes :=
  head_of (method ++ [32] ++ target_text path query ++ [32] ++ text "HTTP/" ++ version) fs.

(** ** A request reaches its handler *)

(** The parsed request. *)
Definition parsed `{Multimap} method path query version fs : request_message :=
  {| method := method; path := path; query_string := default [] query; version := version;
     header := foldl add_field [] (Some <$> fs) |}.

Lemma head_text_line method path query version fs :
  head_text method path query version fs = request_line method path query version ++ 10 :: fields_text fs ++ crlf.
Proof. unfold head_text, head_of, request_line, crlf. rewrite <- !app_assoc. done. Qed.

Lemma parse_head `{MultimapLaws} method path query version fs p :
  good_request_line method path query version -> Forall good_field fs -> size (request_line method path query version) < npos ->
  let s := {| chars := head_text method path query version fs ++ p; good := true |} in
  RequestMessage_parse (header_fuel s) s empty_request =
  Some (true, parsed method path query version fs, {| chars := p; good := true |}).
Proof.
  cbn zeta. intros Hl Hf Hn. rewrite head_text_line.
  replace ((request_line method path query version ++ 10 :: fields_text fs ++ crlf) ++ p)
    with (request_line method path query version ++ 10 :: fields_text fs ++ crlf ++ p)
    by (rewrite <- app_assoc; cbn [app]; by rewrite <- app_assoc).
  apply (RequestMessage_parse_text _ empty_request); try done. unfold header_fuel. cbn [chars].
  rewrite !length_app. cbn [length]. rewrite length_app. pose proof (length_fields_text fs). lia.
Qed.

Section Request.
Context `{MultimapLaws} (regex_match : bytes -> bytes -> bool) (cfg : config).
Context (r : request_message) (body head data : bytes) (h : nat).
Context (Hhandler : find_handler regex_match cfg (method r) (path r) = Some h)
  (Hup : on_upgrade cfg && bool_decide (is_Some (find_field (text "Upgrade") (header r))) = false)
  (Hdata : size data < max_request_streambuf_size cfg)
  (Hfind : find_delim (crlf ++ crlf) (head ++ body) 0 = Some (size head))
  (Hhead : forall p, on_request_head {| chars := head ++ p; good := true |} (size head) empty_request =
     Some (r, {| chars := p; good := true |}, content_phase ProtocolError (Ended Complete) (header r) (size p)))
  (Hbody : body_of (header r) body data).

(** The request is arriving, or the handler has it. *)
Definition serving (st : connection * bytes) : Prop :=
  let '(c, wire) := st in
  match pending c with
  | Reading =>
      is_open c = true /\ runner_stopped c = false /\ log c = [] /\ pending_read (request c) <> None /\
      arriving (max_request_streambuf_size cfg) empty_request r body head data (request c) wire
  | InHandler => log c = [Handled h r data] /\ wire = []
  | _ => False
  end.

Definition serving_left (st : connection * bytes) : Z :=
  match pending st.1 with Reading => left_to_do (request st.1) st.2 | _ => 0 end.

Lemma serve_step k st st' : serving st -> serve regex_match cfg k st = Some st' ->
  serving st' /\ serving_left st' < serving_left st.
Proof.
  destruct st as [c wire]. unfold serve, serving. destruct (Nat.leb_spec k (length wire)) as [Hk|]; [|done].
  intros Hs. unfold server_step. destruct (pending c) eqn:Ep; try done.
  destruct Hs as (Ho & Hst & Hl & Hpr & Ha). rewrite Ho. rewrite <- (take_drop k wire) in Ha.
  destruct (reader_receive _ _ _ _) as [[r' b]|] eqn:Erec; [|done]. cbn [mbind option_bind].
  destruct (step_arriving _ _ _ _ _ _ _ _ _ _ (fun _ _ => eq_refl) Hdata Hfind Hhead Hbody _ _ _ _ _ Ha Erec) as [Ha' Hlt].
  rewrite take_drop in Hlt. intros [= <-]. unfold serving_left. cbn [fst snd]. rewrite Ep.
  destruct b; cycle 1.
  { cbn [pending set_request request is_open runner_stopped log]. rewrite Ep. apply continues_pending in Erec. done. }
  unfold complete. cbn [runner_stopped cancel_timeout set_request]. rewrite Hst.
  unfold after_read. cbn [request cancel_timeout set_request].
  destruct (at_phase r') as [op|op|chunks op|chunks len op|op|o] eqn:Ep';
    try (cbn [set_timeout cancel_timeout set_request pending is_open runner_stopped log request]; rewrite Ep;
         unfold pending_read; rewrite Ep'; done).
  assert (left_to_do (request c) wire = 2 * size wire + size (chars (stream (request c))) + 1) as Hleft by (by apply left_pending).
  pose proof (size_ge0 wire). pose proof (size_ge0 (chars (stream (request c)))).
  destruct Ha' as [Ha' _]. rewrite Ep' in Ha'. destruct Ha' as (-> & Hm & Hc & Hw).
  unfold find_resource. cbn [request cancel_timeout set_request]. rewrite Hm, Hup, Hhandler, Hc.
  cbn [pending set_pending log emit set_timeout cancel_timeout set_request chars]. rewrite Hl, Hw. split; [done|lia].
Qed.

Lemma serve_can c wire : serving (c, wire) -> pending c = Reading -> exists k, is_Some (serve regex_match cfg k (c, wire)).
Proof.
  unfold serving. intros Hs Hp. rewrite Hp in Hs. destruct Hs as (Ho & Hst & Hl & Hpr & Ha).
  destruct (can_receive _ _ _ _ _ _ _ _ _ _ Hfind Hhead _ _ Ha Hpr) as (k & Hk & [[r' b] Erec]).
  exists k. unfold serve, server_step. rewrite (proj2 (Nat.leb_le _ _)), Hp, Ho by done.
  unfold reader_receive in *. rewrite Erec. by eexists.
Qed.

Lemma serve_run ks st st' : serving st -> run_steps (serve regex_match cfg) ks st = Some st' ->
  serving st' /\ Z.of_nat (length ks) <= serving_left st.
Proof.
  revert st. induction ks as [|k ks IH]; intros st Hs; cbn [run_steps].
  - intros [= ->]. split; [done|]. unfold serving_left, left_to_do. cbn [length].
    pose proof (size_ge0 st'.2). pose proof (size_ge0 (chars (stream (request st'.1)))).
    destruct (pending st'.1); try lia. destruct (at_phase _); lia.
  - destruct (serve _ _ _ _) as [st1|] eqn:E; [|done]. cbn [mbind option_bind]. intros Hrun.
    destruct (serve_step k st st1 Hs E) as [Hs1 Hlt]. destruct (IH st1 Hs1 Hrun) as [Hs2 Hlen].
    split; [done|]. cbn [length]. lia.
Qed.

End Request.

(** What a text must satisfy for its head to be read as one. *)
Definition good_request method path query version fs : Prop :=
  good_request_line method path query version /\ Forall good_field fs /\ once fs /\
  size (request_line method path query version) < npos.

Section Heads.
Context `{MultimapLaws}.

Lemma parsed_fields method path query version fs : header (parsed method path query version fs) ≡ₚ fs.
Proof. unfold parsed. cbn [header]. by rewrite add_fields, app_nil_r. Qed.

Lemma request_head_text method path query version fs p : good_request method path query version fs ->
  let head := head_text method path query version fs in
  on_request_head {| chars := head ++ p; good := true |} (size head) empty_request =
  Some (parsed method path query version fs, {| chars := p; good := true |},
        content_phase ProtocolError (Ended Complete) (header (parsed method path query version fs)) (size p)).
Proof.
  intros (Hl & Hf & _ & Hn). cbn zeta. unfold on_request_head. cbn [chars]. rewrite parse_head by done. cbn [mbind option_bind].
  pose proof (size_ge0 p). by rewrite size_append, minus_le, Z.add_simpl_l by lia.
Qed.

Lemma request_head_found method path query version fs body : good_request method path query version fs ->
  let head := head_text method path query version fs in
  find_delim (crlf ++ crlf) (head ++ body) 0 = Some (size head).
Proof.
  intros ((_ & _ & _ & _ & _ & Hn) & Hf & _). apply find_head; [|done].
  unfold request_line in Hn. rewrite !not_elem_of_app in *. tauto.
Qed.

(** C8: Whatever pieces a request arrives in, the reads of the server end, each read takes
    something, and then the handler of its method and path has been called once, with the
    method, path, query, version and fields of the request and exactly its content, whether
    it came with a length, in chunks or not at all. *)
Theorem request_reaches_handler regex_match cfg method path query version fs body data h ks c rest :
  good_request method path query version fs -> body_of fs body data ->
  find_handler regex_match cfg method path = Some h ->
  (on_upgrade cfg = true -> find_field (text "Upgrade") fs = None) ->
  size (head_text method path query version fs ++ body) < max_request_streambuf_size cfg ->
  run_steps (serve regex_match cfg) ks (accepted cfg, head_text method path query version fs ++ body) = Some (c, rest) ->
  Z.of_nat (length ks) <= 2 * size (head_text method path query version fs ++ body) + 1 /\
  ((log c = [] /\ exists k, is_Some (serve regex_match cfg k (c, rest))) \/
   exists r, log c = [Handled h r data] /\ rest = [] /\ pending c = InHandler /\
     HttpMessage.method r = method /\ HttpMessage.path r = path /\ query_string r = default [] query /\
     HttpMessage.version r = version /\ header r ≡ₚ fs).
Proof.
  intros Hgood Hbody Hh Hup Hm Hrun. pose proof Hgood as (_ & _ & Honce & _).
  set (r := parsed method path query version fs). pose proof (parsed_fields method path query version fs) as Hperm.
  pose proof (body_of_short _ _ _ Hbody) as Hshort. apply (body_of_perm _ _ _ _ Honce Hperm) in Hbody.
  assert (on_upgrade cfg && bool_decide (is_Some (find_field (text "Upgrade") (header r))) = false) as Hup'.
  { destruct (on_upgrade cfg) eqn:Eu; [|done]. rewrite (once_lookup fs _ _ Honce Hperm) by set_solver. by rewrite Hup. }
  pose proof (request_head_found method path query version fs body Hgood) as Hfind. cbn zeta in Hfind.
  pose proof (fun p => request_head_text method path query version fs p Hgood) as Hhead. cbn zeta in Hhead.
  set (head := head_text method path query version fs) in *.
  assert (size data < max_request_streambuf_size cfg) as Hdata by (rewrite size_append in Hm; pose proof (size_ge0 head); lia).
  assert (serving cfg r body head data h (accepted cfg, head ++ body)) as Hinit.
  { repeat (split; [done|]). by eapply init_arriving. }
  destruct (serve_run regex_match cfg r body head data h Hh Hup' Hdata Hfind Hhead Hbody ks _ _ Hinit Hrun) as [Hs Hlen].
  split; [unfold serving_left, left_to_do in Hlen; cbn in Hlen; change (size []) with 0 in Hlen; cbn; lia|].
  destruct (pending c) eqn:Ep; unfold serving in Hs; rewrite Ep in Hs; try done.
  - left. split; [apply Hs|]. eapply (serve_can regex_match cfg r body head data h); try done. unfold serving. by rewrite Ep.
  - right. exists r. destruct Hs as [-> ->]. repeat (split; [done|]). done.
Qed.

End Heads.

(** ** What goes wrong *)

Section Faults.
Context `{MultimapLaws} (regex_match : bytes -> bytes -> bool) (cfg : config).

(** Characters behind the content that came with the same read, such as the next request,
    join the content; when the response is sent the next request is read into a new buffer,
    and they are lost. *)
Theorem pipelined_request_is_swallowed method path query version fs v data extra h out c1 c2 c3 :
  good_request method path query version fs ->
  find_field (text "Content-Length") fs = Some v -> stoul v = Some (size data) ->
  find_handler regex_match cfg method path = Some h -> on_upgrade cfg = false ->
  size (head_text method path query version fs ++ data ++ extra) < max_request_streambuf_size cfg ->
  server_step regex_match cfg (EReceive (head_text method path query version fs ++ data ++ extra)) (accepted cfg) = Some c1 ->
  server_step regex_match cfg (ERespond out false) c1 = Some c2 -> server_step regex_match cfg EWritten c2 = Some c3 ->
  (exists r, log c1 = [Handled h r (data ++ extra)]) /\
  (pending c3 <> Finished -> request c3 = new_reader empty_request).
Proof.
  intros Hgood Hv Hst Hh Hup Hm E1 E2 E3. pose proof Hgood as (_ & _ & Honce & _).
  pose proof (parsed_fields method path query version fs) as Hperm.
  pose proof (request_head_found method path query version fs (data ++ extra) Hgood) as Hfind. cbn zeta in Hfind.
  pose proof (request_head_text method path query version fs (data ++ extra) Hgood) as Hhead. cbn zeta in Hhead.
  set (head := head_text method path query version fs) in *.
  unfold server_step in E1. cbn [pending is_open accepted read set_pending set_timeout set_request] in E1.
  destruct (reader_receive _ _ _ _) as [[r' b]|] eqn:Erec; [|done]. cbn [mbind option_bind] in E1.
  unfold reader_receive in Erec. cbn [pending_read at_phase new_reader mbind option_bind request accepted read set_pending set_timeout set_request] in Erec.
  destruct (receive _ _ _ _) as [[s res]|] eqn:Er; [|done]. cbn [mbind option_bind] in Erec.
  apply (receive_until _ _ _ _ [] (size head)) in Er as (-> & _ & ->);
    [|rewrite app_nil_r; exact Hfind|rewrite app_nil_r; exact Hm].
  pose proof (size_ge0 data). pose proof (size_ge0 extra).
  change (chars (stream (new_reader empty_request)) ++ head ++ data ++ extra) with (head ++ data ++ extra) in Erec.
  rewrite (proj2 (Z.leb_le _ _)) in Erec by (rewrite !size_append; lia).
  unfold read_completed in Erec. cbn [stream set_stream at_phase message new_reader] in Erec.
  change (append_chars _ _) with {| chars := head ++ data ++ extra; good := true |} in Erec. cbn [chars] in Erec.
  rewrite (proj2 (Z.eqb_neq _ _)), Hhead in Erec by lia. injection Erec as <- <-.
  injection E1 as E1. unfold content_phase in E1.
  rewrite (once_lookup fs _ _ Honce Hperm), Hv, Hst, (proj2 (Z.ltb_ge _ _)) in E1 by (try set_solver; rewrite size_append; lia).
  unfold complete, after_read, find_resource in E1.
  cbn [runner_stopped cancel_timeout set_request at_phase request message accepted read set_pending set_timeout] in E1.
  rewrite Hup in E1. cbn [andb] in E1. unfold parsed in E1 at 1 2. cbn [HttpMessage.method HttpMessage.path] in E1. rewrite Hh in E1.
  split; [rewrite <- E1; by eexists|].
  assert (pending c1 = InHandler /\ runner_stopped c1 = false) as [Hp1 Hs1] by (by rewrite <- E1). clear E1.
  unfold server_step in E2. rewrite Hp1 in E2. injection E2 as <-.
  unfold server_step, complete in E3. cbn [pending send set_pending set_timeout runner_stopped cancel_timeout emit] in E3.
  rewrite Hs1 in E3. injection E3 as <-. unfold on_sent. by case_if.
Qed.

(** Once the server is being destroyed no handler is called and no error reported for what
    completes. *)
Theorem stopped_runner_is_quiet ev c c' : runner_stopped c = true -> ev <> EHandlerThrows ->
  server_step regex_match cfg ev c = Some c' ->
  runner_stopped c' = true /\ (log c' = log c \/ exists out, log c' = log c ++ [Sent out]).
Proof.
  intros Hs He. unfold server_step, complete.
  destruct ev; try done; cbn [runner_stopped cancel_timeout emit set_request].
  - destruct (pending c); try done. destruct (is_open c); [|done].
    destruct (reader_receive _ _ _ _) as [[r b]|]; [|done]. cbn [mbind option_bind]. rewrite Hs.
    destruct b; intros [= <-]; cbn; (split; [done|by left]).
  - rewrite Hs. destruct (pending c); try done; [destruct (reader_fail _ _); [|done]; cbn [mbind option_bind]|..];
      intros [= <-]; cbn; (split; [done|by left]).
  - rewrite Hs. destruct (pending c); try done; intros [= <-]; cbn; (split; [done|right; by eexists]).
  - destruct (pending c); try done; intros [= <-]; cbn. by split; [|left].
  - destruct (timer c); try done; intros [= <-]; cbn. by split; [|left].
  - intros [= <-]. cbn. by split; [|left].
Qed.

End Faults.

(** ** A server with one resource *)

Definition demo_config : config :=
  {| max_request_streambuf_size := npos; timeout_request := 5; timeout_content := 300;
     resource := [(text "/echo", [(text "POST", 7%nat)])]; default_resource := []; on_upgrade := false |}.

Definition exact (e p : bytes) : bool := bool_decide (e = p).

Definition demo_fields : list (bytes * bytes) := [(text "Host", text "x"); (text "transfer-encoding", text "chunked")].
Definition demo_chunks : list (bytes * bytes) := [(text "3;a=b", text "abc"); (text "02", text "de"); (text "0", [])].

(** A trailer behind the last chunk is not read as such: two characters of it are removed and
    the rest stands before the content. *)
Theorem trailer_spoils_content :
  let head := head_text (text "POST") (text "/echo") None (text "1.1") demo_fields in
  let reads := [EReceive (head ++ text "1" ++ crlf ++ text "z" ++ crlf ++ text "0" ++ crlf ++ text "X: y" ++ crlf ++ crlf);
                EReceive []; EReceive []] in
  (log <$> run_steps (@server_step in_order exact demo_config) reads (accepted demo_config)) =
  Some [Handled 7 (@parsed in_order (text "POST") (text "/echo") None (text "1.1") demo_fields)
          (text " y" ++ crlf ++ crlf ++ text "z")].
Proof. vm_compute. reflexivity. Qed.

Definition demo_head : bytes := head_text (text "POST") (text "/echo") (Some (text "k=v")) (text "1.1") demo_fields.

Definition demo_reads : list nat := [25; 25; 25; 0]%nat ++ replicate 14 1%nat.

(** The handler gets [abcde]; the last characters of the request come one by one. *)
Lemma request_reaches_handler_witness :
  exists c rest r, run_steps (@serve in_order exact demo_config) demo_reads
      (accepted demo_config, demo_head ++ chunks_text demo_chunks) = Some (c, rest) /\
    log c = [Handled 7 r (text "abcde")] /\ header r ≡ₚ demo_fields.
Proof.
  destruct (run_steps (@serve in_order exact demo_config) demo_reads
    (accepted demo_config, demo_head ++ chunks_text demo_chunks)) as [[c rest]|] eqn:E; [|vm_compute in E; discriminate].
  exists c, rest. destruct (@request_reaches_handler in_order in_order_laws exact demo_config (text "POST") (text "/echo")
    (Some (text "k=v")) (text "1.1") demo_fields (chunks_text demo_chunks) (chunks_data demo_chunks) 7 demo_reads c rest)
    as [_ [[Hlog _]|(r & Hlog & _ & _ & _ & _ & _ & _ & Hh)]].
  - split; [repeat split; apply (bool_decide_unpack _); vm_compute; exact I|]. split.
    + repeat constructor; cbn; try (apply (bool_decide_unpack _); vm_compute; exact I); vm_compute; congruence.
    + split; [repeat constructor|vm_compute; reflexivity].
  - apply by_chunks; [vm_compute; reflexivity..|].
    repeat split; try (apply (bool_decide_unpack _); vm_compute; exact I); vm_compute; reflexivity.
  - vm_compute. reflexivity.
  - discriminate.
  - vm_compute. reflexivity.
  - exact E.
  - vm_compute in E. injection E as <- <-. discriminate.
  - exists r. split; [reflexivity|]. split; [exact Hlog|exact Hh].
Defined.

End HttpServer.
