(* ===== verification/Lz4.v ===== *)
(** * LZ4: decompression ([src/buffer/lz4.cpp], [LZ4_uncompress_unknownOutputSize])

    The decoder works on two buffers, with pointers that are offsets here: [ip] into the
    source, [op] and [ref] into the destination.  Every access is checked: [None] is an access
    outside the buffer, or an [int] that overflows.  The build is for 64 bits, little-endian. *)

From S2P Require Import Prelude TranBuf.
Import TranBufPool.

Module Lz4.

(** ** Memory *)

Definition size (l : list Z) : Z := Z.of_nat (length l).

Definition read (l : list Z) (i n : Z) : option (list Z) :=
  if (0 <=? i) && (0 <=? n) && (i + n <=? size l) then Some (take (Z.to_nat n) (drop (Z.to_nat i) l)) else None.

Definition write (l : list Z) (i : Z) (b : list Z) : option (list Z) :=
  if (0 <=? i) && (i + size b <=? size l) then Some (overwrite (Z.to_nat i) b l) else None.

Definition byte (l : list Z) (i : Z) : option Z := if 0 <=? i then l !! Z.to_nat i else None.

(** A signed [int]: overflow is undefined. *)
Definition int (z : Z) : option Z := if (- 2 ^ 31 <=? z) && (z <? 2 ^ 31) then Some z else None.

(** ** The macros *)

Definition STEPSIZE : Z := 8.
Definition COPYLENGTH : Z := 8.
Definition MINMATCH : Z := 4.
Definition ML_BITS : Z := 4.
Definition ML_MASK : Z := 15.
Definition RUN_MASK : Z := 15.

(** [A64(d) = A64(s)]; the source is the destination itself when it is not given. *)
Definition LZ4_COPYSTEP (src : option (list Z)) (s d : Z) (dst : list Z) : option (Z * Z * list Z) :=
  p ← read (default dst src) s 8;
  dst' ← write dst d p;
  Some (s + 8, d + 8, dst').

(** [do { LZ4_COPYPACKET } while (d<e)]. *)
Fixpoint LZ4_WILDCOPY (fuel : nat) (src : option (list Z)) (s d e : Z) (dst : list Z) : option (Z * Z * list Z) :=
  match fuel with
  | O => None
  | S n =>
      '(s, d, dst) ← LZ4_COPYSTEP src s d dst;
      if d <? e then LZ4_WILDCOPY n src s d e dst else Some (s, d, dst)
  end.

Definition wild_fuel (d e : Z) : nat := S (Z.to_nat (e - d)).

Definition LZ4_SECURECOPY (s d e : Z) (dst : list Z) : option (Z * Z * list Z) :=
  if d <? e then LZ4_WILDCOPY (wild_fuel d e) None s d e dst else Some (s, d, dst).

(** ** Decompression *)

(** [while ((ip<iend) && (s==255)) { s=*ip++; length += s; }]. *)
Fixpoint run_length (fuel : nat) (src : list Z) (ip s length : Z) : option (Z * Z) :=
  if (ip <? size src) && (s =? 255) then
    match fuel with
    | O => None
    | S n => s ← byte src ip; length ← int (length + s); run_length n src (ip + 1) s length
    end
  else Some (ip, length).

(** [while (ip<iend) { int s = *ip++; length +=s; if (s==255) continue; break; }]. *)
Fixpoint match_length (fuel : nat) (src : list Z) (ip length : Z) : option (Z * Z) :=
  if ip <? size src then
    match fuel with
    | O => None
    | S n =>
        s ← byte src ip;
        length ← int (length + s);
        if s =? 255 then match_length n src (ip + 1) length else Some (ip + 1, length)
    end
  else Some (ip, length).

Definition dec : list Z := [0; 3; 2; 3; 0; 0; 0; 0].
Definition dec2table : list Z := [0; 0; 0; -1; 0; 1; 2; 3].

(** [*op++ = *ref++]. *)
Definition copy1 (x : Z * Z * list Z) : option (Z * Z * list Z) :=
  let '(ref, op, dest) := x in
  b ← byte dest ref; dest ← write dest op [b]; Some (ref + 1, op + 1, dest).

(** [while(op<cpy) *op++=*ref++]. *)
Fixpoint copy_to (fuel : nat) (cpy : Z) (x : Z * Z * list Z) : option (Z * Z * list Z) :=
  if x.1.2 <? cpy then
    match fuel with O => None | S n => x ← copy1 x; copy_to n cpy x end
  else Some x.

(** The first eight bytes of a match. *)
Definition copy_start (ref op : Z) (dest : list Z) : option (Z * Z * list Z) :=
  if op - ref <? STEPSIZE then
    dec2 ← byte dec2table (op - ref);
    x ← copy1 (ref, op, dest); x ← copy1 x; x ← copy1 x; '(ref, op, dest) ← copy1 x;
    d ← byte dec (op - ref);
    let ref := ref - d in
    p ← read dest ref 4;
    dest ← write dest op p;
    Some (ref - dec2, op + (STEPSIZE - 4), dest)
  else LZ4_COPYSTEP None ref op dest.

(** A match of [length + MINMATCH] bytes: the new [op], or an error. *)
Definition copy_match (ref op length : Z) (dest : list Z) : option (option Z * list Z) :=
  let oend := size dest in
  '(ref, op, dest) ← copy_start ref op dest;
  let cpy := op + length - (STEPSIZE - 4) in
  if oend - COPYLENGTH <? cpy then
    if oend <? cpy then Some (None, dest)
    else
      x ← LZ4_SECURECOPY ref op (oend - COPYLENGTH) dest;
      x ← copy_to (Z.to_nat (cpy - x.1.2)) cpy x;
      Some (Some cpy, x.2)
  else
    '(_, _, dest) ← LZ4_SECURECOPY ref op cpy dest;
    Some (Some cpy, dest).

Inductive outcome :=
  | Continue (ip op : Z) (dest : list Z)
  | Break (op : Z) (dest : list Z)
  | OutputError (ip : Z) (dest : list Z).

(** One round of the main loop. *)
Definition round (src : list Z) (ip op : Z) (dest : list Z) : option outcome :=
  let iend := size src in
  let oend := size dest in
  token ← byte src ip;
  let ip := ip + 1 in
  let length := Z.shiftr token ML_BITS in
  '(ip, length) ← (if length =? RUN_MASK then run_length (List.length src) src ip 255 length else Some (ip, length));
  let cpy := op + length in
  if (oend - COPYLENGTH <? cpy) || (iend - COPYLENGTH <? ip + length) then
    if oend <? cpy then Some (OutputError ip dest)
    else if iend <? ip + length then Some (OutputError ip dest)
    else
      p ← read src ip length;
      dest ← write dest op p;
      let ip := ip + length in
      if ip <? iend then Some (OutputError ip dest) else Some (Break (op + length) dest)
  else
    '(ip, op, dest) ← LZ4_WILDCOPY (wild_fuel op cpy) (Some src) ip op cpy dest;
    let ip := ip - (op - cpy) in
    let op := cpy in
    p ← read src ip 2;
    let ref := cpy - le_value p in
    let ip := ip + 2 in
    if ref <? 0 then Some (OutputError ip dest)
    else
      let length := Z.land token ML_MASK in
      '(ip, length) ← (if length =? ML_MASK then match_length (List.length src) src ip length else Some (ip, length));
      '(r, dest) ← copy_match ref op length dest;
      match r with
      | None => Some (OutputError ip dest)
      | Some op => if op =? oend then Some (Break op dest) else Some (Continue ip op dest)
      end.

Fixpoint rounds (fuel : nat) (src : list Z) (ip op : Z) (dest : list Z) : option (Z * list Z) :=
  if ip <? size src then
    match fuel with
    | O => None
    | S n =>
        r ← round src ip op dest;
        match r with
        | Continue ip op dest => rounds n src ip op dest
        | Break op dest => Some (op, dest)
        | OutputError ip dest => Some (- ip, dest)
        end
    end
  else Some (op, dest).

(** The source has [isize] bytes and the destination [maxOutputSize]. *)
Definition LZ4_uncompress_unknownOutputSize (src dest : list Z) : option (Z * list Z) :=
  rounds (length src) src 0 0 dest.

(** ** The reference decoder

    A match copies byte by byte from [D] bytes back, so that it may overlap itself. *)

Fixpoint lz_copy (D n : nat) (out : list Z) : list Z :=
  match n with O => out | S m => lz_copy D m (out ++ take 1 (drop (length out - D) out)) end.

(** The length bytes after 15. *)
Fixpoint extend (l : list Z) (length : Z) : Z * list Z :=
  match l with
  | [] => (length, [])
  | b :: r => if b =? 255 then extend r (length + 255) else (length + b, r)
  end.

Definition field (n : Z) (r : list Z) : Z * list Z := if n =? 15 then extend r 15 else (n, r).

Inductive decoded := Ok (out : list Z) | Malformed | ZeroOffset.

(** [max]: the size of the destination. *)
Fixpoint ref_decode (fuel : nat) (max : Z) (src out : list Z) : decoded :=
  match fuel, src with
  | _, [] => Ok out
  | O, _ => Malformed
  | S fuel, token :: r =>
      let '(lit, r) := field (token / 16) r in
      if (max <? size out + lit) || (size r <? lit) then Malformed
      else
        let out := out ++ take (Z.to_nat lit) r in
        let r := drop (Z.to_nat lit) r in
        if (max - 8 <? size out) || (size r <? 8) then
          match r with [] => Ok out | _ => Malformed end
        else
          match r with
          | lo :: hi :: r =>
              let D := lo + 256 * hi in
              if D =? 0 then ZeroOffset
              else if size out <? D then Malformed
              else
                let '(ml, r) := field (token mod 16) r in
                let out := lz_copy (Z.to_nat D) (Z.to_nat (ml + 4)) out in
                if max <? size out then Malformed
                else if size out =? max then Ok out
                else ref_decode fuel max r out
          | _ => Malformed
          end
  end.

(** ** Copying *)

Lemma lz_copy_add D a b out : lz_copy D (a + b) out = lz_copy D b (lz_copy D a out).
Proof. revert out. induction a as [|a IH]; intros out; cbn [Nat.add lz_copy]; [done|apply IH]. Qed.

Lemma lz_copy_S D n out : lz_copy D (S n) out =
  lz_copy D n out ++ take 1 (drop (length (lz_copy D n out) - D) (lz_copy D n out)).
Proof. rewrite <- Nat.add_1_r, lz_copy_add. done. Qed.

Lemma length_lz_copy D n out : (1 <= D <= length out)%nat -> length (lz_copy D n out) = (length out + n)%nat.
Proof.
  intros H. induction n as [|n IH]; [cbn; lia|]. rewrite lz_copy_S, length_app, length_take, length_drop. lia.
Qed.

Lemma lz_copy_prefix D n out : out `prefix_of` lz_copy D n out.
Proof.
  induction n as [|n IH]; [done|]. rewrite lz_copy_S. etrans; [exact IH|]. by apply prefix_app_r.
Qed.

Lemma lz_copy_le D n m out : (n <= m)%nat -> lz_copy D n out `prefix_of` lz_copy D m out.
Proof. intros H. replace m with (n + (m - n))%nat by lia. rewrite lz_copy_add. apply lz_copy_prefix. Qed.

Lemma take_snoc_drop {A} n (l : list A) : take n l ++ take 1 (drop n l) = take (S n) l.
Proof. rewrite take_take_drop. f_equal. lia. Qed.

Lemma lz_copy_block D n out : (n <= D <= length out)%nat ->
  lz_copy D n out = out ++ take n (drop (length out - D) out).
Proof.
  induction n as [|n IH]; intros H; [cbn; by rewrite app_nil_r|].
  rewrite lz_copy_S, IH by lia. rewrite length_app, length_take, length_drop.
  rewrite <- app_assoc. f_equal. rewrite <- (take_snoc_drop n). f_equal.
  rewrite drop_drop. replace (length out + _ - D)%nat with (length out - D + n)%nat by lia.
  rewrite drop_app_le by lia. rewrite take_app_le by (rewrite length_drop; lia). done.
Qed.

(** What was copied repeats what is [D] bytes back. *)
Lemma lz_copy_repeats D n out i : (1 <= D <= length out)%nat -> (length out <= i < length out + n)%nat ->
  lz_copy D n out !! i = lz_copy D n out !! (i - D)%nat.
Proof.
  intros HD. induction n as [|n IH]; intros Hi; [lia|].
  pose proof (length_lz_copy D n out HD) as Hl. rewrite lz_copy_S.
  destruct (decide (i < length out + n)%nat) as [Hlt|Hge].
  - rewrite !lookup_app_l by lia. apply IH. lia.
  - rewrite lookup_app_r by lia. rewrite lookup_app_l by lia. replace (i - _)%nat with 0%nat by lia.
    rewrite lookup_take_lt, lookup_drop by lia. f_equal. lia.
Qed.

Lemma lz_copy_repeats_many D n k out i : (1 <= D <= length out)%nat -> (1 <= k)%nat ->
  (length out + (k - 1) * D <= i < length out + n)%nat ->
  lz_copy D n out !! i = lz_copy D n out !! (i - k * D)%nat.
Proof.
  intros HD Hk. revert i. induction k as [|k IH]; intros i Hi; [lia|].
  destruct (decide (k = 0)%nat) as [->|Hk0]; [rewrite Nat.mul_1_l; by apply lz_copy_repeats; lia|].
  rewrite (lz_copy_repeats D n out i HD) by nia. rewrite IH by nia. f_equal. nia.
Qed.

Lemma take1_drop {A} (l l' : list A) i j : l !! i = l' !! j -> take 1 (drop i l) = take 1 (drop j l').
Proof.
  intros H. destruct (l !! i) as [x|] eqn:E.
  - rewrite (drop_S _ _ _ E), (drop_S _ _ _ (eq_sym H)). done.
  - apply lookup_ge_None in E. symmetry in H. apply lookup_ge_None in H. by rewrite !drop_ge.
Qed.

(** After enough bytes, copying from a multiple of the distance is the same. *)
Lemma lz_copy_multiple D k m n out : (1 <= D <= length out)%nat -> (1 <= k)%nat -> (k * D <= m + D)%nat ->
  lz_copy (k * D) n (lz_copy D m out) = lz_copy D n (lz_copy D m out).
Proof.
  intros HD Hk Hm. induction n as [|n IH]; [done|]. rewrite !lz_copy_S, IH. f_equal.
  rewrite <- lz_copy_add. pose proof (length_lz_copy D (m + n) out HD) as Hl. rewrite Hl.
  apply take1_drop. destruct (decide (k = 1)%nat) as [->|]; [f_equal; lia|].
  rewrite (lz_copy_repeats_many D (m + n) (k - 1) out (length out + (m + n) - D)) by nia. f_equal. nia.
Qed.

(** ** Memory *)

Lemma read_Some l i n : 0 <= i -> 0 <= n -> i + n <= size l ->
  read l i n = Some (take (Z.to_nat n) (drop (Z.to_nat i) l)).
Proof. intros. unfold read. by rewrite !(proj2 (Z.leb_le _ _)) by lia. Qed.

Lemma byte_Some l i : 0 <= i < size l -> exists b, byte l i = Some b /\ drop (Z.to_nat i) l = b :: drop (Z.to_nat (i + 1)) l.
Proof.
  unfold size. intros H. unfold byte. rewrite (proj2 (Z.leb_le _ _)) by lia.
  destruct (lookup_lt_is_Some_2 l (Z.to_nat i)) as [b Hb]; [lia|]. exists b. split; [done|].
  rewrite (drop_S _ _ _ Hb). do 2 f_equal. lia.
Qed.

Lemma write_Some l i b : 0 <= i -> i + size b <= size l ->
  exists l', write l i b = Some l' /\ size l' = size l /\
    forall out, size out = i -> out `prefix_of` l -> (out ++ b) `prefix_of` l'.
Proof.
  unfold size. intros Hi Hb. unfold write, size. rewrite !(proj2 (Z.leb_le _ _)) by lia. cbn [andb].
  eexists. split; [done|]. split; [rewrite length_overwrite; lia|].
  intros out Ho [x ->]. unfold overwrite. replace (Z.to_nat i) with (length out) by lia.
  rewrite take_app_length. exists (drop (length b) x). rewrite <- app_assoc. do 2 f_equal.
  rewrite drop_app_ge by lia. f_equal. lia.
Qed.

Lemma read_prefix l out i n : out `prefix_of` l -> 0 <= i -> 0 <= n -> i + n <= size out ->
  read l i n = Some (take (Z.to_nat n) (drop (Z.to_nat i) out)).
Proof.
  unfold size. intros [x ->] Hi Hn Hle. rewrite read_Some by (unfold size; rewrite ?length_app; lia).
  rewrite drop_app_le by lia. by rewrite take_app_le by (rewrite length_drop; lia).
Qed.

Lemma byte_prefix l out i : out `prefix_of` l -> 0 <= i < size out -> byte l i = out !! Z.to_nat i.
Proof.
  unfold size, byte. intros [x ->] Hi. rewrite (proj2 (Z.leb_le _ _)) by lia. by rewrite lookup_app_l by lia.
Qed.

Lemma size_app a b : size (a ++ b) = size a + size b.
Proof. unfold size. rewrite length_app. lia. Qed.

(** ** Copying in the destination

    A pointer pair [ref], [op] with the bytes up to [op] decoded to [out]: what is copied
    continues [out] at that distance. *)

Definition continues (ref op op' : Z) (dest dest' : list Z) : Prop :=
  size dest' = size dest /\
  forall D out, 1 <= D -> ref = op - D -> 0 <= ref -> size out = op -> out `prefix_of` dest ->
    lz_copy (Z.to_nat D) (Z.to_nat (op' - op)) out `prefix_of` dest'.

Lemma continues_refl ref op dest : continues ref op op dest dest.
Proof. split; [done|]. intros. by rewrite Z.sub_diag. Qed.

Lemma size_lz_copy D n out : 1 <= D <= size out -> 0 <= n -> size (lz_copy (Z.to_nat D) (Z.to_nat n) out) = size out + n.
Proof. unfold size. intros HD Hn. rewrite length_lz_copy by lia. lia. Qed.

Lemma continues_trans ref op ref1 op1 op2 d d1 d2 : op <= op1 <= op2 -> op1 - ref1 = op - ref ->
  continues ref op op1 d d1 -> continues ref1 op1 op2 d1 d2 -> continues ref op op2 d d2.
Proof.
  intros Hop Hd [H1 C1] [H2 C2]. split; [lia|]. intros D out HD -> Hr Ho Hp.
  replace (Z.to_nat (op2 - op)) with (Z.to_nat (op1 - op) + Z.to_nat (op2 - op1))%nat by lia.
  rewrite lz_copy_add. apply C2; [lia..| |by apply C1]. rewrite size_lz_copy; lia.
Qed.

Lemma continues_less ref op op1 op2 d d' : op <= op1 <= op2 -> continues ref op op2 d d' -> continues ref op op1 d d'.
Proof.
  intros Hop [H1 C1]. split; [done|]. intros D out HD Hr Hr0 Ho Hp.
  etrans; [|by apply (C1 D out)]. apply lz_copy_le. lia.
Qed.

(** A block that does not overlap. *)
Lemma copy_block n ref op dest : 0 <= ref <= op -> 0 <= n -> op + n <= size dest ->
  exists p dest', read dest ref n = Some p /\ write dest op p = Some dest' /\ size dest' = size dest /\
    (n <= op - ref -> continues ref op (op + n) dest dest').
Proof.
  intros Hr Hn Hs. rewrite read_Some by lia. set (p := take _ _).
  assert (size p = n) as Hp by (unfold p, size in *; rewrite length_take, length_drop; lia).
  destruct (write_Some dest op p) as (dest' & Hw & Hsz & Hpre); [lia..|]. exists p, dest'. do 3 (split; [done|]).
  intros Hd. split; [done|]. intros D out HD E Hr0 Ho Hpo. rewrite lz_copy_block by (unfold size in *; lia).
  assert (p = take (Z.to_nat n) (drop (Z.to_nat ref) out)) as Hpe.
  { pose proof (read_prefix dest out ref n Hpo ltac:(lia) ltac:(lia) ltac:(lia)) as H. rewrite read_Some in H by lia. unfold p.
    by injection H. }
  replace (op + n - op) with n by lia. replace (length out - Z.to_nat D)%nat with (Z.to_nat ref) by (unfold size in *; lia).
  rewrite <- Hpe. by apply Hpre.
Qed.

Lemma copystep_spec ref op dest : 0 <= ref <= op -> op + 8 <= size dest ->
  exists dest', LZ4_COPYSTEP None ref op dest = Some (ref + 8, op + 8, dest') /\ size dest' = size dest /\
    (8 <= op - ref -> continues ref op (op + 8) dest dest').
Proof.
  intros Hr Hs. destruct (copy_block 8 ref op dest Hr) as (p & dest' & E1 & E2 & H); [lia..|].
  exists dest'. unfold LZ4_COPYSTEP. cbn [default]. rewrite E1. cbn [mbind option_bind]. rewrite E2. done.
Qed.

Lemma wildcopy_spec fuel ref op e dest : (Z.to_nat (e - op) < fuel)%nat -> 0 <= ref <= op ->
  op + 8 <= size dest -> e + 7 <= size dest ->
  exists op' dest', LZ4_WILDCOPY fuel None ref op e dest = Some (op' - (op - ref), op', dest') /\
    size dest' = size dest /\ op + 8 <= op' <= size dest /\ e <= op' /\
    (8 <= op - ref -> continues ref op op' dest dest').
Proof.
  revert ref op dest. induction fuel as [|fuel IH]; intros ref op dest Hf Hr Hs He; [lia|].
  cbn [LZ4_WILDCOPY]. destruct (copystep_spec ref op dest Hr Hs) as (d1 & -> & Hs1 & Hc1). cbn [mbind option_bind].
  destruct (Z.ltb_spec (op + 8) e).
  - destruct (IH (ref + 8) (op + 8) d1) as (op' & dest' & -> & Hs2 & Hb & Hc & H2); [lia..|].
    exists op', dest'. replace (op' - (op + 8 - (ref + 8))) with (op' - (op - ref)) by lia.
    do 4 (split; [done || lia|]). intros Hd. eapply (continues_trans _ _ (ref + 8) (op + 8)); [lia|lia|by apply Hc1|].
    apply H2. lia.
  - exists (op + 8), d1. replace (op + 8 - (op - ref)) with (ref + 8) by lia. do 4 (split; [done || lia|]). done.
Qed.

Lemma securecopy_spec ref op e dest : 0 <= ref <= op -> op <= size dest -> e + 8 <= size dest ->
  exists op' dest', LZ4_SECURECOPY ref op e dest = Some (op' - (op - ref), op', dest') /\
    size dest' = size dest /\ op <= op' <= size dest /\ e <= op' /\
    (8 <= op - ref -> continues ref op op' dest dest').
Proof.
  intros Hr Ho He. unfold LZ4_SECURECOPY. destruct (Z.ltb_spec op e).
  - destruct (wildcopy_spec (wild_fuel op e) ref op e dest) as (op' & dest' & -> & Hs & Hb & Hc & H2);
      [unfold wild_fuel; lia|lia..|].
    exists op', dest'. do 4 (split; [done || lia|]). done.
  - exists op, dest. replace (op - (op - ref)) with ref by lia. do 4 (split; [done || lia|]).
    intros _. apply continues_refl.
Qed.

Lemma copy1_spec ref op dest : 0 <= ref <= op -> op + 1 <= size dest ->
  exists dest', copy1 (ref, op, dest) = Some (ref + 1, op + 1, dest') /\ size dest' = size dest /\
    continues ref op (op + 1) dest dest'.
Proof.
  intros Hr Hs. unfold copy1. destruct (byte_Some dest ref) as (b & -> & Hb); [lia|]. cbn [mbind option_bind].
  destruct (write_Some dest op [b]) as (dest' & -> & Hsz & Hp); [lia|unfold size in *; cbn; lia|].
  exists dest'. split; [done|]. split; [done|]. split; [done|]. intros D out HD E Hr0 Ho Hpo.
  replace (op + 1 - op) with 1 by lia. rewrite lz_copy_block by (unfold size in *; lia).
  replace (length out - Z.to_nat D)%nat with (Z.to_nat ref) by (unfold size in *; lia).
  destruct Hpo as [x ->]. rewrite drop_app_le in Hb by (unfold size in *; lia).
  destruct (drop (Z.to_nat ref) out) as [|y l] eqn:Ed.
  { apply (f_equal length) in Ed. rewrite length_drop in Ed. unfold size in *. cbn in Ed. lia. }
  injection Hb as -> _. cbn [Z.to_nat take]. apply Hp; [done|by exists x].
Qed.

Lemma copy_to_spec fuel cpy ref op dest : (Z.to_nat (cpy - op) <= fuel)%nat -> 0 <= ref <= op -> cpy <= size dest ->
  exists ref' dest', copy_to fuel cpy (ref, op, dest) = Some (ref', Z.max op cpy, dest') /\ size dest' = size dest /\
    continues ref op (Z.max op cpy) dest dest'.
Proof.
  revert ref op dest. induction fuel as [|fuel IH]; intros ref op dest Hf Hr Hs; cbn [copy_to fst snd];
    destruct (Z.ltb_spec op cpy).
  - lia.
  - exists ref, dest. rewrite Z.max_l by lia. split; [done|]. split; [done|]. apply continues_refl.
  - destruct (copy1_spec ref op dest Hr) as (d1 & -> & Hs1 & Hc1); [lia|]. cbn [mbind option_bind].
    destruct (IH (ref + 1) (op + 1) d1) as (ref' & dest' & -> & Hs2 & Hc2); [lia..|].
    rewrite Z.max_r in Hc2 |- * by lia. exists ref', dest'. rewrite ?Z.max_r by lia. split; [done|]. split; [lia|].
    eapply (continues_trans _ _ (ref + 1) (op + 1)); [lia|lia|done|done].
  - exists ref, dest. rewrite Z.max_l by lia. split; [done|]. split; [done|]. apply continues_refl.
Qed.

(** Going on at a multiple of the distance. *)
Lemma continues_multiple k ref op op1 ref1 op2 d d1 d2 : op <= op1 <= op2 -> 1 <= k ->
  op1 - ref1 = k * (op - ref) -> k * (op - ref) <= (op1 - op) + (op - ref) ->
  continues ref op op1 d d1 -> continues ref1 op1 op2 d1 d2 -> continues ref op op2 d d2.
Proof.
  intros Hop Hk Hd Hm [H1 C1] [H2 C2]. split; [lia|]. intros D out HD E Hr Ho Hp.
  replace (op - ref) with D in * by lia.
  replace (Z.to_nat (op2 - op)) with (Z.to_nat (op1 - op) + Z.to_nat (op2 - op1))%nat by lia.
  rewrite lz_copy_add, <- (lz_copy_multiple _ (Z.to_nat k)) by (unfold size in *; nia).
  replace (Z.to_nat k * Z.to_nat D)%nat with (Z.to_nat (k * D)) by nia.
  apply C2; [nia|nia|nia| |by apply C1]. rewrite size_lz_copy; lia.
Qed.

Ltac table_entry k4 k8 :=
  eexists _, _; split; [reflexivity|split; [reflexivity|]]; do 4 (split; [lia|]); intros _; exists k4, k8; lia.

(** The tables bring the distance to a multiple of itself that is at least 8. *)
Lemma tables D : 0 <= D < 8 ->
  exists d d2, byte dec D = Some d /\ byte dec2table D = Some d2 /\ 0 <= d <= 3 /\ -1 <= d2 <= 3 /\
    (d2 = -1 -> d = 3) /\ d2 + d <= 4 /\
    (1 <= D -> exists k4 k8, 1 <= k4 /\ D + d = k4 * D /\ k4 * D <= 4 + D /\ 4 <= D + d /\
      1 <= k8 /\ 4 + D + d + d2 = k8 * D /\ k8 * D <= 8 + D /\ 8 <= 4 + D + d + d2).
Proof.
  intros H. assert (D = 0 \/ D = 1 \/ D = 2 \/ D = 3 \/ D = 4 \/ D = 5 \/ D = 6 \/ D = 7) as HD by lia.
  destruct HD as [->|[->|[->|[->|[->|[->|[->| ->]]]]]]].
  - eexists _, _. split; [reflexivity|split; [reflexivity|]]. do 4 (split; [lia|]). lia.
  - table_entry 4 8.
  - table_entry 2 4.
  - table_entry 2 3.
  - table_entry 1 2.
  - table_entry 1 2.
  - table_entry 1 2.
  - table_entry 1 2.
Qed.

Lemma copy4_spec ref op dest : 0 <= ref <= op -> op + 4 <= size dest ->
  exists dest', (x ← copy1 (ref, op, dest); x ← copy1 x; x ← copy1 x; copy1 x) = Some (ref + 4, op + 4, dest') /\
    size dest' = size dest /\ continues ref op (op + 4) dest dest'.
Proof.
  intros Hr Hs. destruct (copy1_spec ref op dest Hr) as (d1 & -> & Hs1 & Hc1); [lia|]. cbn [mbind option_bind].
  destruct (copy1_spec (ref + 1) (op + 1) d1) as (d2 & -> & Hs2 & Hc2); [lia..|]. cbn [mbind option_bind].
  destruct (copy1_spec (ref + 1 + 1) (op + 1 + 1) d2) as (d3 & -> & Hs3 & Hc3); [lia..|]. cbn [mbind option_bind].
  destruct (copy1_spec (ref + 1 + 1 + 1) (op + 1 + 1 + 1) d3) as (d4 & -> & Hs4 & Hc4); [lia..|].
  exists d4. split; [do 2 f_equal; f_equal; lia|]. split; [lia|].
  replace (op + 4) with (op + 1 + 1 + 1 + 1) by lia.
  eapply (continues_trans _ _ (ref + 1) (op + 1)); [lia|lia|exact Hc1|].
  eapply (continues_trans _ _ (ref + 1 + 1) (op + 1 + 1)); [lia|lia|exact Hc2|].
  eapply (continues_trans _ _ (ref + 1 + 1 + 1) (op + 1 + 1 + 1)); [lia|lia|exact Hc3|exact Hc4].
Qed.

(** After the first eight bytes the distance is a multiple of the distance of the match, and
    at least 8. *)
Lemma copy_start_spec ref op dest : 0 <= ref <= op -> op + 8 <= size dest ->
  exists ref' dest', copy_start ref op dest = Some (ref', op + 8, dest') /\ size dest' = size dest /\
    0 <= ref' <= op + 8 /\
    (1 <= op - ref -> continues ref op (op + 8) dest dest' /\ 8 <= op + 8 - ref' /\
      exists k, 1 <= k /\ op + 8 - ref' = k * (op - ref) /\ k * (op - ref) <= 8 + (op - ref)).
Proof.
  intros Hr Hs. unfold copy_start, STEPSIZE. destruct (Z.ltb_spec (op - ref) 8).
  - destruct (tables (op - ref)) as (d & d2 & Ed & Ed2 & Hd & Hd2 & Hm1 & Hsum & Hk); [lia|].
    rewrite Ed2. cbn [mbind option_bind].
    destruct (copy4_spec ref op dest Hr) as (dst4 & E4 & Hs4 & Hc4); [lia|].
    assert (forall (f : Z * Z * list Z -> option (Z * Z * list Z)),
      (x ← copy1 (ref, op, dest); x ← copy1 x; x ← copy1 x; y ← copy1 x; f y) = f (ref + 4, op + 4, dst4)) as Hf.
    { intros f. change (f (ref + 4, op + 4, dst4)) with (y ← Some (ref + 4, op + 4, dst4); f y). rewrite <- E4.
      destruct (copy1 (ref, op, dest)) as [x|]; [|done]. cbn [mbind option_bind].
      destruct (copy1 x) as [x1|]; [|done]. cbn [mbind option_bind]. by destruct (copy1 x1). }
    rewrite Hf. replace (op + 4 - (ref + 4)) with (op - ref) by lia. rewrite Ed. cbn [mbind option_bind].
    destruct (copy_block 4 (ref + 4 - d) (op + 4) dst4) as (p & dst5 & -> & E5 & Hs5 & Hc5); [lia..|].
    cbn [mbind option_bind]. rewrite E5. cbn [mbind option_bind].
    exists (ref + 4 - d - d2), dst5. split; [do 2 f_equal; f_equal; lia|]. split; [lia|]. split; [lia|].
    intros H1. destruct (Hk H1) as (k4 & k8 & ? & ? & ? & ? & ? & ? & ? & ?). split; [|split; [lia|]].
    + replace (op + 8) with (op + 4 + 4) by lia.
      eapply (continues_multiple k4 ref op (op + 4) (ref + 4 - d)); [lia|lia|lia|lia|exact Hc4|apply Hc5; lia].
    + exists k8. lia.
  - destruct (copystep_spec ref op dest Hr Hs) as (dest' & -> & Hs' & Hc'). exists (ref + 8), dest'.
    split; [done|]. split; [done|]. split; [lia|]. intros _. split; [by apply Hc'|]. split; [lia|]. exists 1. lia.
Qed.

(** A match: in bounds, and refused exactly when it does not fit. *)
Lemma copy_match_spec ref op length dest : 0 <= ref <= op -> op + 8 <= size dest -> 0 <= length ->
  exists dest', size dest' = size dest /\
    if size dest <? op + length + 4 then copy_match ref op length dest = Some (None, dest')
    else copy_match ref op length dest = Some (Some (op + length + 4), dest') /\
         (1 <= op - ref -> continues ref op (op + length + 4) dest dest').
Proof.
  intros Hr Hs Hl. unfold copy_match, STEPSIZE, COPYLENGTH.
  destruct (copy_start_spec ref op dest Hr Hs) as (ref' & d1 & -> & Hs1 & Hr' & Hc1). cbn [mbind option_bind].
  replace (op + 8 + length - (8 - 4)) with (op + length + 4) by lia.
  destruct (Z.ltb_spec (size dest) (op + length + 4)) as [Hbig|Hfit].
  { exists d1. rewrite (proj2 (Z.ltb_lt _ _)) by lia. done. }
  assert (forall op' d', op + length + 4 <= op' -> op + 8 <= op' ->
      (8 <= op + 8 - ref' -> continues ref' (op + 8) op' d1 d') ->
      1 <= op - ref -> continues ref op (op + length + 4) dest d') as Hend.
  { intros op' d' H1 H2 Hc H3. destruct (Hc1 H3) as (Hca & H8 & k & Hk1 & Hk2 & Hk3).
    eapply (continues_less _ _ _ op'); [lia|].
    eapply (continues_multiple k ref op (op + 8) ref'); [lia|lia|lia|lia|exact Hca|by apply Hc]. }
  destruct (Z.ltb_spec (size dest - 8) (op + length + 4)).
  - destruct (securecopy_spec ref' (op + 8) (size dest - 8) d1) as (op2 & d2 & -> & Hs2 & Hb2 & He2 & Hc2); [lia..|].
    cbn [mbind option_bind fst snd].
    destruct (copy_to_spec (Z.to_nat (op + length + 4 - op2)) (op + length + 4) (op2 - (op + 8 - ref')) op2 d2)
      as (ref3 & d3 & -> & Hs3 & Hc3); [lia..|]. cbn [mbind option_bind fst snd].
    exists d3. split; [lia|]. split; [done|].
    apply (Hend (Z.max op2 (op + length + 4))); [lia|lia|]. intros H8.
    eapply (continues_trans _ _ (op2 - (op + 8 - ref')) op2); [lia|lia|by apply Hc2|done].
  - destruct (securecopy_spec ref' (op + 8) (op + length + 4) d1) as (op2 & d2 & -> & Hs2 & Hb2 & He2 & Hc2); [lia..|].
    cbn [mbind option_bind]. exists d2. split; [lia|]. split; [done|]. by apply (Hend op2); [lia..|].
Qed.

(** ** Lengths and literals *)

Lemma int_small z : - 2 ^ 31 <= z < 2 ^ 31 -> int z = Some z.
Proof. intros H. unfold int. rewrite (proj2 (Z.leb_le _ _)), (proj2 (Z.ltb_lt _ _)) by lia. done. Qed.

Lemma byte_range src i b : Forall (in_u 8) src -> byte src i = Some b -> in_u 8 b.
Proof.
  intros H. unfold byte. destruct (0 <=? i); [|done]. intros Hb. by eapply Forall_lookup_1 in Hb.
Qed.

(** What both loops do with the length bytes. *)
Definition extends (src : list Z) (ip length ip' length' : Z) : Prop :=
  extend (drop (Z.to_nat ip) src) length = (length', drop (Z.to_nat ip') src) /\ ip <= ip' <= size src /\
  length <= length' <= length + 255 * (ip' - ip).

Lemma run_length_spec fuel src ip length : Forall (in_u 8) src -> (Z.to_nat (size src - ip) <= fuel)%nat ->
  0 <= ip <= size src -> 0 <= length -> length + 255 * (size src - ip) < 2 ^ 31 ->
  exists ip' length', run_length fuel src ip 255 length = Some (ip', length') /\ extends src ip length ip' length'.
Proof.
  intros Hsrc. revert ip length. induction fuel as [|fuel IH]; intros ip length Hf Hip Hl Hov;
    cbn [run_length]; rewrite Z.eqb_refl, andb_true_r.
  - rewrite (proj2 (Z.ltb_ge _ _)) by lia. exists ip, length. split; [done|]. split; [|lia].
    by rewrite drop_ge by (unfold size in *; lia).
  - destruct (Z.ltb_spec ip (size src)).
    + destruct (byte_Some src ip) as (b & E & Hd); [lia|]. rewrite E. cbn [mbind option_bind].
      pose proof (byte_range src ip b Hsrc E) as Hb. unfold in_u in Hb. rewrite int_small by lia. cbn [mbind option_bind].
      unfold extends. rewrite Hd. cbn [extend]. destruct (Z.eqb_spec b 255) as [->|Hb'].
      * destruct (IH (ip + 1) (length + 255)) as (ip' & len' & -> & He & Hip' & Hl'); [lia..|].
        exists ip', len'. split; [done|]. split; [done|]. lia.
      * exists (ip + 1), (length + b). split; [|split; [done|lia]].
        destruct fuel; cbn [run_length]; by rewrite (proj2 (Z.eqb_neq b 255)), andb_false_r.
    + exists ip, length. split; [done|]. split; [|lia]. by rewrite drop_ge by (unfold size in *; lia).
Qed.

Lemma match_length_spec fuel src ip length : Forall (in_u 8) src -> (Z.to_nat (size src - ip) <= fuel)%nat ->
  0 <= ip <= size src -> 0 <= length -> length + 255 * (size src - ip) < 2 ^ 31 ->
  exists ip' length', match_length fuel src ip length = Some (ip', length') /\ extends src ip length ip' length'.
Proof.
  intros Hsrc. revert ip length. induction fuel as [|fuel IH]; intros ip length Hf Hip Hl Hov; cbn [match_length].
  - rewrite (proj2 (Z.ltb_ge _ _)) by lia. exists ip, length. split; [done|]. split; [|lia].
    by rewrite drop_ge by (unfold size in *; lia).
  - destruct (Z.ltb_spec ip (size src)).
    + destruct (byte_Some src ip) as (b & E & Hd); [lia|]. rewrite E. cbn [mbind option_bind].
      pose proof (byte_range src ip b Hsrc E) as Hb. unfold in_u in Hb. rewrite int_small by lia. cbn [mbind option_bind].
      unfold extends. rewrite Hd. cbn [extend]. destruct (Z.eqb_spec b 255) as [->|Hb'].
      * destruct (IH (ip + 1) (length + 255)) as (ip' & len' & -> & He & Hip' & Hl'); [lia..|].
        exists ip', len'. split; [done|]. split; [done|]. lia.
      * exists (ip + 1), (length + b). split; [done|]. split; [done|lia].
    + exists ip, length. split; [done|]. split; [|lia]. by rewrite drop_ge by (unfold size in *; lia).
Qed.

(** The field of a token with its length bytes. *)
Definition field_at (src : list Z) (n ip ip' length : Z) : Prop :=
  field n (drop (Z.to_nat ip) src) = (length, drop (Z.to_nat ip') src) /\ ip <= ip' <= size src /\
  0 <= length <= n + 255 * (ip' - ip).

Lemma extends_field src ip ip' length : extends src ip 15 ip' length -> field_at src 15 ip ip' length.
Proof. intros (He & Hip & Hl). split; [done|]. lia. Qed.

Lemma run_field src n ip : Forall (in_u 8) src -> 0 <= ip <= size src -> size src <= 2 ^ 22 -> 0 <= n <= 15 ->
  exists ip' length,
    (if n =? RUN_MASK then run_length (List.length src) src ip 255 n else Some (ip, n)) = Some (ip', length) /\
    field_at src n ip ip' length.
Proof.
  intros Hsrc Hip Hsz Hn. unfold RUN_MASK. destruct (Z.eqb_spec n 15) as [->|].
  - destruct (run_length_spec (List.length src) src ip 15 Hsrc) as (ip' & l & -> & He); [unfold size in *; lia|lia..|].
    exists ip', l. split; [done|by apply extends_field].
  - exists ip, n. split; [done|]. unfold field_at, field. rewrite (proj2 (Z.eqb_neq n 15)) by done. split; [done|lia].
Qed.

Lemma match_field src n ip : Forall (in_u 8) src -> 0 <= ip <= size src -> size src <= 2 ^ 22 -> 0 <= n <= 15 ->
  exists ip' length,
    (if n =? ML_MASK then match_length (List.length src) src ip n else Some (ip, n)) = Some (ip', length) /\
    field_at src n ip ip' length.
Proof.
  intros Hsrc Hip Hsz Hn. unfold ML_MASK. destruct (Z.eqb_spec n 15) as [->|].
  - destruct (match_length_spec (List.length src) src ip 15 Hsrc) as (ip' & l & -> & He); [unfold size in *; lia|lia..|].
    exists ip', l. split; [done|by apply extends_field].
  - exists ip, n. split; [done|]. unfold field_at, field. rewrite (proj2 (Z.eqb_neq n 15)) by done. split; [done|lia].
Qed.

(** Literals are copied in blocks of eight bytes, with what follows them. *)
Lemma wildcopy_literals fuel src ip op e dest : (Z.to_nat (e - op) < fuel)%nat -> 0 <= ip -> 0 <= op ->
  op + 8 <= size dest -> e + 7 <= size dest -> ip + 8 <= size src -> ip + (e - op) + 7 <= size src ->
  exists op' dest', LZ4_WILDCOPY fuel (Some src) ip op e dest = Some (ip + (op' - op), op', dest') /\
    size dest' = size dest /\ op <= op' /\ e <= op' /\
    (forall out, size out = op -> out `prefix_of` dest ->
      (out ++ take (Z.to_nat (op' - op)) (drop (Z.to_nat ip) src)) `prefix_of` dest').
Proof.
  revert ip op dest. induction fuel as [|fuel IH]; intros ip op dest Hf Hip Hop Hs He Hs1 He1; [lia|].
  cbn [LZ4_WILDCOPY]. unfold LZ4_COPYSTEP. cbn [from_option id]. rewrite read_Some by lia. cbn [mbind option_bind].
  set (p := take _ _). assert (size p = 8) as Hp by (unfold p, size in *; rewrite length_take, length_drop; lia).
  destruct (write_Some dest op p) as (d1 & -> & Hsz & Hpre); [lia..|]. cbn [mbind option_bind].
  destruct (Z.ltb_spec (op + 8) e).
  - destruct (IH (ip + 8) (op + 8) d1) as (op' & d2 & -> & Hs2 & Ho2 & He2 & H2); [lia..|].
    exists op', d2. split; [do 2 f_equal; f_equal; lia|]. do 3 (split; [lia|]). intros out Ho Hpo.
    replace (Z.to_nat (op' - op)) with (8 + Z.to_nat (op' - (op + 8)))%nat by lia.
    rewrite <- take_take_drop, app_assoc, drop_drop. replace (Z.to_nat ip + 8)%nat with (Z.to_nat (ip + 8)) by lia.
    change (take 8 (drop (Z.to_nat ip) src)) with p. apply H2; [rewrite size_app; lia|]. by apply Hpre.
  - exists (op + 8), d1. split; [do 2 f_equal; f_equal; lia|]. do 3 (split; [lia|]). intros out Ho Hpo.
    replace (op + 8 - op) with 8 by lia. by apply Hpre.
Qed.

(** ** One round *)

Lemma decode_token fuel max token r out lit r1 : field (token / 16) r = (lit, r1) ->
  size out + lit <= max -> lit <= size r1 ->
  ref_decode (S fuel) max (token :: r) out =
    let out := out ++ take (Z.to_nat lit) r1 in
    let r := drop (Z.to_nat lit) r1 in
    if (max - 8 <? size out) || (size r <? 8) then
      match r with [] => Ok out | _ => Malformed end
    else
      match r with
      | lo :: hi :: r =>
          let D := lo + 256 * hi in
          if D =? 0 then ZeroOffset
          else if size out <? D then Malformed
          else
            let '(ml, r) := field (token mod 16) r in
            let out := lz_copy (Z.to_nat D) (Z.to_nat (ml + 4)) out in
            if max <? size out then Malformed
            else if size out =? max then Ok out
            else ref_decode fuel max r out
      | _ => Malformed
      end.
Proof.
  intros Hf Ho Hr. cbn [ref_decode]. rewrite Hf. rewrite (proj2 (Z.ltb_ge max _)) by lia.
  rewrite (proj2 (Z.ltb_ge (size r1) _)) by lia. done.
Qed.

Lemma decode_too_long fuel max token r out lit r1 : field (token / 16) r = (lit, r1) ->
  max < size out + lit \/ size r1 < lit -> ref_decode (S fuel) max (token :: r) out = Malformed.
Proof.
  intros Hf H. cbn [ref_decode]. rewrite Hf. destruct H as [H|H].
  - by rewrite (proj2 (Z.ltb_lt max _)) by lia.
  - rewrite (proj2 (Z.ltb_lt (size r1) _)) by lia. by rewrite orb_true_r.
Qed.

Lemma size_drop l i : 0 <= i <= size l -> size (drop (Z.to_nat i) l) = size l - i.
Proof. unfold size. rewrite length_drop. lia. Qed.

Lemma size_take l i : 0 <= i <= size l -> size (take (Z.to_nat i) l) = i.
Proof. unfold size. rewrite length_take. lia. Qed.

(** What a round leaves, and what the reference decoder says of the rest of the source. *)
Definition in_range (src : list Z) (ip : Z) (dest : list Z) (r : outcome) : Prop :=
  match r with
  | Continue ip' op' d => ip < ip' <= size src /\ 0 <= op' <= size dest /\ size d = size dest
  | Break op' d => 0 <= op' <= size dest /\ size d = size dest
  | OutputError ip' d => ip < ip' <= size src /\ size d = size dest
  end.

Definition agrees (fuel : nat) (src : list Z) (ip : Z) (dest out : list Z) (r : outcome) : Prop :=
  let spec := ref_decode (S fuel) (size dest) (drop (Z.to_nat ip) src) out in
  spec = ZeroOffset \/
  match r with
  | Continue ip' op' d => exists out', size out' = op' /\ out' `prefix_of` d /\
      spec = ref_decode fuel (size dest) (drop (Z.to_nat ip') src) out'
  | Break op' d => exists out', size out' = op' /\ out' `prefix_of` d /\ spec = Ok out'
  | OutputError _ _ => spec = Malformed
  end.

Lemma token_fields token : in_u 8 token ->
  Z.shiftr token ML_BITS = token / 16 /\ Z.land token ML_MASK = token mod 16 /\
  0 <= token / 16 <= 15 /\ 0 <= token mod 16 <= 15.
Proof.
  unfold in_u, ML_BITS, ML_MASK. intros H. split; [by rewrite Z.shiftr_div_pow2 by lia|].
  split; [change 15 with (Z.ones 4); by rewrite Z.land_ones by lia|].
  split; [|pose proof (Z.mod_pos_bound token 16); lia].
  split; [apply Z.div_pos; lia|]. pose proof (Z.div_lt_upper_bound token 16 16). lia.
Qed.

(** The last literals. *)
Lemma round_last src ip ip1 op lit dest token : 0 <= ip < ip1 -> ip1 <= size src -> 0 <= op -> 0 <= lit ->
  size dest - 8 < op + lit \/ size src - 8 < ip1 + lit ->
  drop (Z.to_nat ip) src = token :: drop (Z.to_nat (ip + 1)) src ->
  field (token / 16) (drop (Z.to_nat (ip + 1)) src) = (lit, drop (Z.to_nat ip1) src) ->
  exists r,
    (if size dest <? op + lit then Some (OutputError ip1 dest)
     else if size src <? ip1 + lit then Some (OutputError ip1 dest)
     else
       p ← read src ip1 lit; dest ← write dest op p;
       let ip := ip1 + lit in
       if ip <? size src then Some (OutputError ip dest) else Some (Break (op + lit) dest)) = Some r /\
    in_range src ip dest r /\
    forall fuel out, size out = op -> out `prefix_of` dest -> agrees fuel src ip dest out r.
Proof.
  intros Hip Hip1 Hop Hlit Hend Hd Hf. unfold agrees. rewrite Hd.
  destruct (Z.ltb_spec (size dest) (op + lit)).
  { exists (OutputError ip1 dest). split; [done|]. split; [cbn; lia|]. intros fuel out Ho _. right.
    eapply decode_too_long; [exact Hf|]. lia. }
  destruct (Z.ltb_spec (size src) (ip1 + lit)).
  { exists (OutputError ip1 dest). split; [done|]. split; [cbn; lia|]. intros fuel out Ho _. right.
    eapply decode_too_long; [exact Hf|]. rewrite size_drop; lia. }
  rewrite read_Some by lia. cbn [mbind option_bind]. set (p := take _ _).
  assert (size p = lit) as Hp by (unfold p; rewrite size_take; [done|rewrite size_drop; lia]).
  destruct (write_Some dest op p) as (d1 & -> & Hs1 & Hpre); [lia..|]. cbn [mbind option_bind].
  assert (forall fuel out, size out = op -> ref_decode (S fuel) (size dest) (token :: drop (Z.to_nat (ip + 1)) src) out =
    match drop (Z.to_nat lit) (drop (Z.to_nat ip1) src) with [] => Ok (out ++ p) | _ => Malformed end) as Hdec.
  { intros fuel out Ho. rewrite (decode_token _ _ _ _ _ lit (drop (Z.to_nat ip1) src)) by (done || rewrite ?size_drop; lia).
    cbv zeta. fold p. rewrite size_app, !size_drop by (rewrite ?size_drop; lia).
    assert ((size dest - 8 <? size out + size p) || (size src - ip1 - lit <? 8) = true) as ->; [|done].
    destruct Hend; [rewrite (proj2 (Z.ltb_lt _ _)) by lia; done|].
    rewrite (proj2 (Z.ltb_lt (size src - ip1 - lit) 8)) by lia. by rewrite orb_true_r. }
  rewrite drop_drop in Hdec. replace (Z.to_nat ip1 + Z.to_nat lit)%nat with (Z.to_nat (ip1 + lit)) in Hdec by lia.
  cbv zeta. destruct (Z.ltb_spec (ip1 + lit) (size src)).
  - exists (OutputError (ip1 + lit) d1). split; [done|]. split; [cbn; lia|]. intros fuel out Ho Hpo. right.
    rewrite Hdec by done. destruct (byte_Some src (ip1 + lit)) as (b & _ & ->); [lia|done].
  - exists (Break (op + lit) d1). split; [done|]. split; [cbn; lia|]. intros fuel out Ho Hpo. right.
    exists (out ++ p). split; [rewrite size_app; lia|]. split; [by apply Hpre|].
    rewrite Hdec by done. by rewrite drop_ge by (unfold size in *; lia).
Qed.

Lemma read2 src ip : Forall (in_u 8) src -> 0 <= ip -> ip + 2 <= size src ->
  exists lo hi, read src ip 2 = Some [lo; hi] /\ in_u 8 lo /\ in_u 8 hi /\
    drop (Z.to_nat ip) src = lo :: hi :: drop (Z.to_nat (ip + 2)) src.
Proof.
  intros Hsrc Hip Hs. destruct (byte_Some src ip) as (lo & E1 & D1); [lia|].
  destruct (byte_Some src (ip + 1)) as (hi & E2 & D2); [lia|].
  exists lo, hi. rewrite read_Some, D1, D2 by lia. replace (ip + 1 + 1) with (ip + 2) by lia.
  pose proof (byte_range _ _ _ Hsrc E1). pose proof (byte_range _ _ _ Hsrc E2). done.
Qed.

Lemma take_prefix_le {A} n m (l : list A) : (n <= m)%nat -> take n l `prefix_of` take m l.
Proof. intros H. exists (take (m - n) (drop n l)). rewrite take_take_drop. f_equal. lia. Qed.

Lemma round_spec src ip op dest : Forall (in_u 8) src -> size src <= 2 ^ 22 ->
  0 <= ip < size src -> 0 <= op <= size dest ->
  exists r, round src ip op dest = Some r /\ in_range src ip dest r /\
    forall fuel out, size out = op -> out `prefix_of` dest -> agrees fuel src ip dest out r.
Proof.
  intros Hsrc Hsz Hip Hop. unfold round, COPYLENGTH.
  destruct (byte_Some src ip) as (token & Et & Hd); [lia|]. rewrite Et. cbn [mbind option_bind].
  destruct (token_fields token (byte_range _ _ _ Hsrc Et)) as (-> & -> & Hhi & Hlo).
  destruct (run_field src (token / 16) (ip + 1) Hsrc) as (ip1 & lit & -> & Hf & Hip1 & Hlit); [lia..|].
  cbn [mbind option_bind].
  destruct ((size dest - 8 <? op + lit) || (size src - 8 <? ip1 + lit)) eqn:Eend.
  { apply (round_last src ip ip1 op lit dest token); done || lia. }
  apply orb_false_elim in Eend as [Ho8%Z.ltb_ge Hi8%Z.ltb_ge].
  destruct (wildcopy_literals (wild_fuel op (op + lit)) src ip1 op (op + lit) dest)
    as (op1 & d1 & -> & Hs1 & Hop1 & He1 & Hpre); [unfold wild_fuel; lia|lia..|]. cbn [mbind option_bind].
  replace (ip1 + (op1 - op) - (op1 - (op + lit))) with (ip1 + lit) by lia.
  destruct (read2 src (ip1 + lit) Hsrc) as (lo & hi & Er & Hlo8 & Hhi8 & Hd2); [lia..|]. rewrite Er. cbn [mbind option_bind].
  unfold in_u in Hlo8, Hhi8. set (D := lo + 256 * hi).
  assert (le_value [lo; hi] = D) as -> by (unfold D; cbn; lia).
  set (lits := take (Z.to_nat lit) (drop (Z.to_nat ip1) src)).
  assert (forall fuel out, size out = op ->
    ref_decode (S fuel) (size dest) (drop (Z.to_nat ip) src) out =
      if D =? 0 then ZeroOffset
      else if op + lit <? D then Malformed
      else
        let '(ml, r) := field (token mod 16) (drop (Z.to_nat (ip1 + lit + 2)) src) in
        let out := lz_copy (Z.to_nat D) (Z.to_nat (ml + 4)) (out ++ lits) in
        if size dest <? size out then Malformed
        else if size out =? size dest then Ok out
        else ref_decode fuel (size dest) r out) as Hdec.
  { intros fuel out Ho. rewrite Hd, (decode_token _ _ _ _ _ lit (drop (Z.to_nat ip1) src)) by (done || rewrite ?size_drop; lia).
    cbv zeta. fold lits. rewrite drop_drop. replace (Z.to_nat ip1 + Z.to_nat lit)%nat with (Z.to_nat (ip1 + lit)) by lia.
    rewrite size_drop by lia. rewrite size_app. assert (size lits = lit) as -> by (unfold lits; rewrite size_take; [done|rewrite size_drop; lia]).
    rewrite Ho, Hd2. rewrite (proj2 (Z.ltb_ge (size dest - 8) _)), (proj2 (Z.ltb_ge _ 8)) by lia. done. }
  unfold agrees. cbv zeta. destruct (Z.ltb_spec (op + lit - D) 0) as [Hneg|Hpos].
  { exists (OutputError (ip1 + lit + 2) d1). split; [done|]. split; [cbn; lia|]. intros fuel out Ho Hpo.
    rewrite Hdec by done. destruct (Z.eqb_spec D 0); [by left|]. right. by rewrite (proj2 (Z.ltb_lt _ D)) by lia. }
  destruct (match_field src (token mod 16) (ip1 + lit + 2) Hsrc) as (ip2 & ml & -> & Hf2 & Hip2 & Hml); [lia..|].
  cbn [mbind option_bind]. assert (0 <= D) as HD0 by lia.
  destruct (copy_match_spec (op + lit - D) (op + lit) ml d1) as (d2 & Hs2 & Hm); [lia..|].
  assert (forall fuel out, size out = op -> D <> 0 -> ref_decode (S fuel) (size dest) (drop (Z.to_nat ip) src) out =
    if size dest <? op + lit + ml + 4 then Malformed
    else if op + lit + ml + 4 =? size dest then Ok (lz_copy (Z.to_nat D) (Z.to_nat (ml + 4)) (out ++ lits))
    else ref_decode fuel (size dest) (drop (Z.to_nat ip2) src) (lz_copy (Z.to_nat D) (Z.to_nat (ml + 4)) (out ++ lits)))
    as Hdec2.
  { intros fuel out Ho HD. rewrite Hdec, Hf2 by done. rewrite (proj2 (Z.eqb_neq D 0)), (proj2 (Z.ltb_ge _ D)) by lia.
    cbv zeta. rewrite size_lz_copy; rewrite ?size_app; unfold lits; rewrite ?size_take by (rewrite size_drop; lia); [|lia|lia].
    rewrite Ho. by replace (op + lit + (ml + 4)) with (op + lit + ml + 4) by lia. }
  rewrite Hs1 in *. destruct (Z.ltb_spec (size dest) (op + lit + ml + 4)) as [Hbig|Hfit].
  { rewrite Hm. cbn [mbind option_bind]. exists (OutputError ip2 d2). split; [done|]. split; [cbn; lia|].
    intros fuel out Ho Hpo. destruct (decide (D = 0)) as [E0|E0]; [left; rewrite Hdec, E0 by done; done|].
    right. by rewrite Hdec2 by done. }
  destruct Hm as [-> Hc]. cbn [mbind option_bind].
  assert (forall out, size out = op -> out `prefix_of` dest -> D <> 0 ->
    let out' := lz_copy (Z.to_nat D) (Z.to_nat (ml + 4)) (out ++ lits) in
    size out' = op + lit + ml + 4 /\ out' `prefix_of` d2) as Hout.
  { intros out Ho Hpo HD. assert (size (out ++ lits) = op + lit) as Hol.
    { rewrite size_app. unfold lits. rewrite size_take by (rewrite size_drop; lia). lia. }
    split; [rewrite size_lz_copy; lia|]. destruct (Hc ltac:(lia)) as [_ Hcc].
    replace (ml + 4) with (op + lit + ml + 4 - (op + lit)) by lia. apply Hcc; [lia|done|lia|done|].
    etrans; [|by apply (Hpre out)]. apply prefix_app. unfold lits. apply take_prefix_le. lia. }
  destruct (Z.eqb_spec (op + lit + ml + 4) (size dest)) as [Efull|Efull].
  - exists (Break (op + lit + ml + 4) d2). split; [done|]. split; [cbn; lia|]. intros fuel out Ho Hpo.
    destruct (decide (D = 0)) as [E0|E0]; [left; rewrite Hdec, E0 by done; done|]. right.
    eexists. destruct (Hout out Ho Hpo E0). split; [done|]. split; [done|]. by rewrite Hdec2 by done.
  - exists (Continue ip2 (op + lit + ml + 4) d2). split; [done|]. split; [cbn; lia|]. intros fuel out Ho Hpo.
    destruct (decide (D = 0)) as [E0|E0]; [left; rewrite Hdec, E0 by done; done|]. right.
    eexists. destruct (Hout out Ho Hpo E0). split; [done|]. split; [done|]. by rewrite Hdec2 by done.
Qed.

(** ** The decoder *)

Lemma decode_end fuel max out : ref_decode fuel max [] out = Ok out.
Proof. by destruct fuel. Qed.

Lemma rounds_spec fuel src ip op dest : Forall (in_u 8) src -> size src <= 2 ^ 22 ->
  0 <= ip <= size src -> 0 <= op <= size dest -> (Z.to_nat (size src - ip) <= fuel)%nat ->
  exists n d, rounds fuel src ip op dest = Some (n, d) /\ size d = size dest /\ - size src <= n <= size dest /\
    forall out, size out = op -> out `prefix_of` dest ->
      match ref_decode fuel (size dest) (drop (Z.to_nat ip) src) out with
      | Ok out' => n = size out' /\ out' `prefix_of` d
      | Malformed => n < 0
      | ZeroOffset => True
      end.
Proof.
  intros Hsrc Hsz. revert ip op dest. induction fuel as [|fuel IH]; intros ip op dest Hip Hop Hf; cbn [rounds];
    (destruct (Z.ltb_spec ip (size src)) as [Hlt|Hge]; [|exists op, dest; do 2 (split; [done|]); split; [lia|];
      intros out Ho Hpo; rewrite (drop_ge src), decode_end by (unfold size in *; lia); done]).
  { unfold size in *. lia. }
  destruct (round_spec src ip op dest Hsrc Hsz) as (r & -> & Hr & Ha); [lia..|]. cbn [mbind option_bind].
  destruct r as [ip' op' d'|op' d'|ip' d']; cbn [in_range] in Hr.
  - destruct Hr as (Hip' & Hop' & Hs'). destruct (IH ip' op' d') as (n & d & -> & Hs & Hn & H); [lia..|].
    exists n, d. split; [done|]. split; [lia|]. split; [lia|]. intros out Ho Hpo.
    destruct (Ha fuel out Ho Hpo) as [->|(out' & Ho' & Hp' & ->)]; [done|]. rewrite <- Hs'. by apply H.
  - exists op', d'. do 2 (split; [done || lia|]). split; [lia|]. intros out Ho Hpo.
    destruct (Ha fuel out Ho Hpo) as [->|(out' & Ho' & Hp' & ->)]; [done|]. done.
  - exists (- ip'), d'. do 2 (split; [done || lia|]). split; [lia|]. intros out Ho Hpo.
    destruct (Ha fuel out Ho Hpo) as [->| ->]; [done|]. lia.
Qed.

(** C6: the decoder of LZ4 on any bytes whatsoever: it returns, every access is inside the source
    and the destination, no [int] overflows for sources up to 4 MiB, and the result is between
    minus the size of the source and the size of the destination.  It decodes what the reference
    decoder decodes, which copies one byte at a time: it returns the size and leaves the
    bytes at the start of the destination when the reference accepts the block, and a negative
    number when it does not; only a match of offset 0 is left open. *)
Theorem uncompress_refines_reference src dest : Forall (in_u 8) src -> size src <= 2 ^ 22 ->
  exists n dest', LZ4_uncompress_unknownOutputSize src dest = Some (n, dest') /\
    size dest' = size dest /\ - size src <= n <= size dest /\
    match ref_decode (length src) (size dest) src [] with
    | Ok out => n = size out /\ out `prefix_of` dest'
    | Malformed => n < 0
    | ZeroOffset => True
    end.
Proof.
  intros Hsrc Hsz. unfold LZ4_uncompress_unknownOutputSize.
  destruct (rounds_spec (length src) src 0 0 dest Hsrc Hsz) as (n & d & -> & Hs & Hn & H);
    [unfold size; lia|unfold size; lia|unfold size; lia|].
  exists n, d. do 3 (split; [done|]). apply (H []); [done|]. apply prefix_nil.
Qed.

(** "ab", a match of seven bytes at distance 2, and the last literals. *)
Definition sample : list Z := [35; 97; 98; 2; 0; 80; 49; 50; 51; 52; 53].

Lemma uncompress_refines_reference_witness :
  exists n dest', LZ4_uncompress_unknownOutputSize sample (replicate 30 0) = Some (n, dest') /\
    n = 14 /\ [97; 98; 97; 98; 97; 98; 97; 98; 97; 49; 50; 51; 52; 53] `prefix_of` dest'.
Proof.
  destruct (uncompress_refines_reference sample (replicate 30 0)) as (n & d & E & _ & _ & H).
  - repeat constructor; unfold in_u; cbn; lia.
  - unfold sample, size. cbn. lia.
  - exists n, d. split; [exact E|].
    assert (ref_decode (length sample) (size (replicate 30 0)) sample [] =
      Ok [97; 98; 97; 98; 97; 98; 97; 98; 97; 49; 50; 51; 52; 53]) as Hd by (vm_compute; reflexivity).
    rewrite Hd in H. exact H.
Defined.

(** A match of offset 0 is accepted: what was in the destination before is handed out. *)
Theorem offset_zero_leaks x : exists dest',
  LZ4_uncompress_unknownOutputSize [20; 97; 0; 0; 80; 49; 50; 51; 52; 53] (replicate 30 x) = Some (14, dest') /\
  nth 8 dest' 0 = x.
Proof. eexists. split; reflexivity. Qed.

End Lz4.
