(* ===== verification/Blocks.v ===== *)
(** * Blocks: compressed streams as blocks ([src/buffer/block_wrappers.cpp], [block_wrappers.h])

    An output stream cuts what its client writes into blocks of [BLOCKSIZE] bytes, compresses
    each and writes its compressed size and bytes to the coded stream of protobuf; an input
    stream reads them back.  The pure virtual functions of the two base classes are the class
    [Codec], with the law that what is compressed can be uncompressed.  The coded streams are
    lists of bytes: those written so far, and those left to read; [ReadVarint32] is the class
    [CodedStream]. *)

From S2P Require Import Prelude Session.
Import Session.

(** [RawCompress] and [RawUncompress]: the latter gives the [int] of the library, negative for
    malformed data, and the bytes in the output buffer. *)
Class Codec := {
  RawCompress : list Z -> list Z;
  RawUncompress : list Z -> Z * list Z;
}.

Module Blocks.

Definition BLOCKSIZE : Z := 64 * 1024.

Class CodecLaws `{Codec} : Prop := {
  uncompress_compress b : Z.of_nat (length b) <= BLOCKSIZE -> Forall (in_u 8) b ->
    RawUncompress (RawCompress b) = (Z.of_nat (length b), b);
  compress_size b : Z.of_nat (length b) <= BLOCKSIZE -> Forall (in_u 8) b ->
    Z.of_nat (length (RawCompress b)) <= 2 * BLOCKSIZE;
}.

(** [CodedInputStream::ReadVarint32]: the number and what is left, or a failure. *)
Class CodedStream := ReadVarint32 : list Z -> option (Z * list Z).

Class CodedStreamLaws `{CodedStream} : Prop := {
  ReadVarint32_varint n r : in_u 32 n -> ReadVarint32 (varint 5 n ++ r) = Some (n, r);
  ReadVarint32_end : ReadVarint32 [] = None;
}.

Section Streams.
Context `{K : Codec, C : CodedStream}.

(** ** The output stream *)

(** [_sub_stream]: the bytes given to the coded stream. *)
Record output := mkOutput {
  _input_buffer : option (list Z);
  _sub_stream : list Z;
  _backed_up_bytes : Z;
  _byte_count : Z }.

Definition output_init : output := mkOutput None [] 0 0.

(** [BLOCKSIZE - _backed_up_bytes], as [size_t]. *)
Definition filled (s : output) : Z := u64 (BLOCKSIZE - _backed_up_bytes s).

Definition WriteVarint32 (n : Z) (s : list Z) : list Z := s ++ varint 5 (u32 n).
Definition WriteRaw (l : list Z) (s : list Z) : list Z := s ++ l.

Definition Flush (s : output) : bool * output :=
  match _input_buffer s with
  | None => (true, s)
  | Some buf =>
      if filled s =? 0 then (true, s)
      else
        let compressed := RawCompress (take (Z.to_nat (filled s)) buf) in
        let size32 := Z.of_nat (length compressed) in
        (true, mkOutput None (WriteRaw compressed (WriteVarint32 size32 (_sub_stream s))) 0 (_byte_count s))
  end.

Definition Close (s : output) : bool * output := Flush s.

(** [junk]: the bytes of a new buffer.  The position in the buffer and the size of what the
    client may write. *)
Definition Next (junk : list Z) (s : output) : Z * Z * output :=
  if negb (_backed_up_bytes s =? 0) then
    (filled s, _backed_up_bytes s,
     mkOutput (_input_buffer s) (_sub_stream s) 0 (u64 (_byte_count s + _backed_up_bytes s)))
  else
    let s := match _input_buffer s with Some _ => snd (Flush s) | None => s end in
    (0, BLOCKSIZE, mkOutput (Some junk) (_sub_stream s) (_backed_up_bytes s) (u64 (_byte_count s + BLOCKSIZE))).

(** The checks only write to the log. *)
Definition BackUp (count : Z) (s : output) : output :=
  if count <=? 0 then s
  else mkOutput (_input_buffer s) (_sub_stream s) (_backed_up_bytes s + count) (u64 (_byte_count s - count)).

Definition ByteCount (s : output) : Z := wraps 64 (_byte_count s).

(** The client writes into the buffer it was given. *)
Definition fill (off : Z) (l : list Z) (s : output) : output :=
  mkOutput (b ← _input_buffer s; Some (take (Z.to_nat off) b ++ l ++ drop (Z.to_nat off + length l) b))
    (_sub_stream s) (_backed_up_bytes s) (_byte_count s).

(** ** The input stream *)

(** [sub_stream]: the bytes the coded stream has left. *)
Record input := mkInput {
  _output_buffer : list Z;
  _output_buffer_size : Z;
  sub_stream : list Z;
  backed_up_bytes : Z;
  byte_count : Z }.

Definition input_init (l : list Z) : input := mkInput [] 0 l 0 0.

(** [ReadRaw]: all or a failure, which leaves nothing. *)
Definition ReadRaw (n : Z) (l : list Z) : option (list Z) * list Z :=
  if n <=? Z.of_nat (length l) then (Some (take (Z.to_nat n) l), drop (Z.to_nat n) l) else (None, []).

(** [reset_input_stream] makes a new coded stream, which goes on where the old one was; it
    happens after every block, since [BytesUntilLimit] is -1 without a limit. *)
Definition reset_input_stream (l : list Z) : list Z := l.

(** The position and size of the buffer for the client, or the end. *)
Definition NextIn (s : input) : option (Z * Z) * input :=
  if negb (backed_up_bytes s =? 0) then
    (Some (u64 (_output_buffer_size s - backed_up_bytes s), backed_up_bytes s),
     mkInput (_output_buffer s) (_output_buffer_size s) (sub_stream s) 0 (u64 (byte_count s + backed_up_bytes s)))
  else
    let set l := mkInput (_output_buffer s) (_output_buffer_size s) l 0 (byte_count s) in
    match ReadVarint32 (sub_stream s) with
    | None => (None, set [])
    | Some (compressed_size, l) =>
        if 2 * BLOCKSIZE <? compressed_size then (None, set l)
        else
          match ReadRaw compressed_size l with
          | (None, l) => (None, set l)
          | (Some tempbuffer, l) =>
              let '(n, out) := RawUncompress tempbuffer in
              let size := i32 (u64 n) in
              (Some (0, size), mkInput out (u64 n) (reset_input_stream l) 0 (u64 (byte_count s + size)))
          end
    end.

Definition BackUpIn (count : Z) (s : input) : input :=
  if count <=? 0 then s
  else mkInput (_output_buffer s) (_output_buffer_size s) (sub_stream s) (backed_up_bytes s + count)
         (u64 (byte_count s - count)).

(** [Skip] is not supported. *)
Definition Skip (count : Z) (s : input) : bool * input := (false, s).

Definition ByteCountIn (s : input) : Z := wraps 64 (byte_count s).
Definition ExpectAtEnd (s : input) : bool := true.

(** The bytes the client finds. *)
Definition view (off size : Z) (s : input) : list Z := take (Z.to_nat size) (drop (Z.to_nat off) (_output_buffer s)).

(** ** What clients do

    [ONext l] fills the whole buffer that [Next] gives with [l]; [OBackUp] gives back bytes of
    it, at most as many as are left of it.  The second component is what may be given back. *)
Inductive out_op := ONext (junk l : list Z) | OBackUp (count : Z) | OFlush.

Definition out_step (o : out_op) (x : output * Z) : option (output * Z) :=
  let '(s, room) := x in
  match o with
  | ONext junk l =>
      let '(off, size, s) := Next junk s in
      if (Z.of_nat (length junk) =? BLOCKSIZE) && (Z.of_nat (length l) =? size) then Some (fill off l s, size) else None
  | OBackUp count => if (0 <=? count) && (count <=? room) then Some (BackUp count s, room - count) else None
  | OFlush => Some (snd (Flush s), 0)
  end.

(** What was written and not given back. *)
Definition written_step (o : out_op) (w : list Z) : list Z :=
  match o with
  | ONext _ l => w ++ l
  | OBackUp count => take (length w - Z.to_nat count) w
  | OFlush => w
  end.

Definition written (os : list out_op) : list Z := foldl (fun w o => written_step o w) [] os.

Abbreviation out_exec := (run_steps out_step).

(** A block as it is sent. *)
Definition frame (b : list Z) : list Z := varint 5 (u32 (Z.of_nat (length (RawCompress b)))) ++ RawCompress b.

Inductive in_op := INext | IBackUp (count : Z).

(** The client of an input stream: what it has got, and how much it may give back.  [None]: a
    buffer of negative size. *)
Definition in_step (o : in_op) (x : input * Z * list Z) : option (input * Z * list Z) :=
  let '(s, room, got) := x in
  match o with
  | INext =>
      match NextIn s with
      | (Some (off, size), s) => if size <? 0 then None else Some (s, size, got ++ view off size s)
      | (None, s) => Some (s, 0, got)
      end
  | IBackUp count =>
      if (0 <=? count) && (count <=? room) then
        Some (BackUpIn count s, room - count, take (length got - Z.to_nat count) got)
      else None
  end.

(** ** Proofs *)

Context {KL : CodecLaws} {CL : CodedStreamLaws}.

Definition good_block (b : list Z) : Prop := b <> [] /\ Z.of_nat (length b) <= BLOCKSIZE /\ Forall (in_u 8) b.

(** What is in the buffer of an output stream. *)
Definition current (s : output) : list Z :=
  match _input_buffer s with Some buf => take (Z.to_nat (BLOCKSIZE - _backed_up_bytes s)) buf | None => [] end.

Record out_inv (w : list Z) (s : output) (room : Z) : Prop := {
  out_blocks : exists blocks, w = concat blocks ++ current s /\ _sub_stream s = concat (List.map frame blocks) /\
    Forall good_block blocks;
  out_buffer buf : _input_buffer s = Some buf -> Z.of_nat (length buf) = BLOCKSIZE;
  out_none : _input_buffer s = None -> _backed_up_bytes s = 0 /\ room = 0;
  out_backed : 0 <= _backed_up_bytes s;
  out_room : 0 <= room /\ _backed_up_bytes s + room <= BLOCKSIZE;
  out_count : _byte_count s = u64 (Z.of_nat (length w));
  out_bytes : Forall (in_u 8) w }.

Lemma BLOCKSIZE_pos : 0 < BLOCKSIZE < 2 ^ 20.
Proof. unfold BLOCKSIZE. lia. Qed.

Lemma filled_small s : 0 <= _backed_up_bytes s <= BLOCKSIZE -> filled s = BLOCKSIZE - _backed_up_bytes s.
Proof. intros H. pose proof BLOCKSIZE_pos. apply wrapu_small. unfold in_u. lia. Qed.

Lemma count_add a b : u64 (u64 a + b) = u64 (a + b).
Proof. unfold wrapu. by rewrite Zplus_mod_idemp_l. Qed.

Lemma count_sub a b : u64 (u64 a - b) = u64 (a - b).
Proof. rewrite <- !Z.add_opp_r. apply count_add. Qed.

Lemma current_length w s room : out_inv w s room -> Z.of_nat (length (current s)) = match _input_buffer s with Some _ => BLOCKSIZE - _backed_up_bytes s | None => 0 end.
Proof.
  intros H. unfold current. destruct (_input_buffer s) as [buf|] eqn:E; [|done].
  pose proof (out_buffer _ _ _ H buf E). pose proof (out_backed _ _ _ H). pose proof (out_room _ _ _ H).
  rewrite length_take. lia.
Qed.

(** Flushing ends the current block. *)
Lemma flush_inv w s room : out_inv w s room -> out_inv w (snd (Flush s)) 0 /\ (current (snd (Flush s)) = []).
Proof.
  intros H. pose proof (current_length _ _ _ H) as Hc. destruct H as [(blocks & Hw & Hs & Hb) Hbuf Hn Hbk Hr Hcnt Hby].
  pose proof BLOCKSIZE_pos. unfold Flush. destruct (_input_buffer s) as [buf|] eqn:E.
  - rewrite filled_small by lia. destruct (Z.eqb_spec (BLOCKSIZE - _backed_up_bytes s) 0) as [E0|E0]; cbn [snd].
    + assert (current s = []) as Hcur by (destruct (current s); [done|cbn [length] in Hc; lia]).
      split; [|done]. split; try done; [by exists blocks|by rewrite E|by rewrite E|lia].
    + split; [|done]. assert (current s = take (Z.to_nat (BLOCKSIZE - _backed_up_bytes s)) buf) as Hcur by (unfold current; by rewrite E).
      split; cbn; try done; try lia.
      exists (blocks ++ [current s]). splits.
      * rewrite concat_app. cbn [concat]. rewrite !app_nil_r. exact Hw.
      * unfold WriteRaw, WriteVarint32. rewrite map_app, concat_app, Hs. cbn [List.map concat]. rewrite app_nil_r.
        unfold frame. by rewrite Hcur, <- app_assoc.
      * apply Forall_app. split; [done|]. constructor; [|done]. split; [|split].
        -- intros E1. rewrite E1 in Hc. cbn in Hc. lia.
        -- lia.
        -- rewrite Hw in Hby. by apply Forall_app in Hby as [_ ?].
  - cbn [snd]. assert (current s = []) as Hcur by (unfold current; by rewrite E). destruct (Hn eq_refl).
    split; [|done]. split; try done; [by exists blocks|by rewrite E|lia].
Qed.

Lemma next_inv w s room junk l : out_inv w s room ->
  Z.of_nat (length junk) = BLOCKSIZE -> Forall (in_u 8) l ->
  let '(off, size, s') := Next junk s in
  Z.of_nat (length l) = size -> out_inv (w ++ l) (fill off l s') size.
Proof.
  intros H Hj Hl. unfold Next. pose proof BLOCKSIZE_pos as HB. pose proof (current_length _ _ _ H) as Hc.
  destruct (Z.eqb_spec (_backed_up_bytes s) 0) as [E0|E0]; cbn [negb].
  - intros Hlen.
    assert (exists s1, (match _input_buffer s with Some _ => snd (Flush s) | None => s end) = s1 /\ out_inv w s1 0 /\ current s1 = [] /\ _backed_up_bytes s1 = 0) as (s1 & -> & H1 & Hcur & Hb1).
    { destruct (_input_buffer s) as [buf|] eqn:E.
      - eexists. split; [done|]. destruct (flush_inv _ _ _ H) as [Hf Hcur]. split; [done|]. split; [done|].
        unfold Flush. rewrite E. rewrite filled_small by lia. by destruct (_ =? _).
      - exists s. split; [done|]. destruct (out_none _ _ _ H E) as [_ Hr0]. rewrite Hr0 in H. split; [done|].
        split; [unfold current; by rewrite E|done]. }
    destruct H1 as [(blocks & Hw & Hs & Hb) Hbuf Hn Hbk Hr Hcnt Hby].
    assert (take (Z.to_nat 0) junk ++ l ++ drop (Z.to_nat 0 + length l) junk = l) as Hfill.
    { change (Z.to_nat 0) with 0%nat. rewrite take_0, drop_ge by lia. by rewrite app_nil_r. }
    split; cbn -[take drop].
    + exists blocks. unfold current. cbn -[take drop]. rewrite Hfill, Hb1, Z.sub_0_r, take_ge by lia.
      rewrite Hw, Hcur, app_nil_r. done.
    + rewrite Hfill. intros ? [= <-]. lia.
    + done.
    + lia.
    + lia.
    + rewrite Hcnt, count_add, length_app. f_equal. lia.
    + by apply Forall_app.
  - intros Hlen. destruct H as [(blocks & Hw & Hs & Hb) Hbuf Hn Hbk Hr Hcnt Hby].
    destruct (_input_buffer s) as [buf|] eqn:E; [|by destruct (Hn eq_refl)].
    rewrite filled_small in * by lia. set (off := BLOCKSIZE - _backed_up_bytes s) in *. pose proof (Hbuf buf eq_refl) as Hbl.
    assert (current s = take (Z.to_nat off) buf) as Hcur by (unfold current; by rewrite E).
    assert (take (Z.to_nat off) buf ++ l ++ drop (Z.to_nat off + length l) buf = current s ++ l) as Hfill.
    { rewrite drop_ge by lia. by rewrite app_nil_r, Hcur. }
    split; cbn -[take drop].
    + exists blocks. unfold current. cbn -[take drop]. rewrite Hfill, Z.sub_0_r, take_ge by (rewrite length_app; lia).
      rewrite Hw, <- app_assoc. done.
    + rewrite Hfill. intros ? [= <-]. rewrite length_app. lia.
    + done.
    + lia.
    + lia.
    + rewrite Hcnt, count_add, length_app. f_equal. lia.
    + by apply Forall_app.
Qed.

Lemma backup_inv w s room count : out_inv w s room -> 0 <= count <= room ->
  out_inv (take (length w - Z.to_nat count) w) (BackUp count s) (room - count).
Proof.
  intros H Hcount. unfold BackUp. destruct (Z.leb_spec count 0).
  { replace count with 0 by lia. rewrite Nat.sub_0_r, take_ge, Z.sub_0_r by lia. done. }
  pose proof (current_length _ _ _ H) as Hc. destruct H as [(blocks & Hw & Hs & Hb) Hbuf Hn Hbk Hr Hcnt Hby].
  destruct (_input_buffer s) as [buf|] eqn:E; [|destruct (Hn eq_refl); lia].
  assert (current s = take (Z.to_nat (BLOCKSIZE - _backed_up_bytes s)) buf) as Hcur by (unfold current; by rewrite E).
  split; cbn -[take].
  - exists blocks. splits; [|done|done]. unfold current. cbn -[take]. rewrite Hw at 2. rewrite Hw at 1. rewrite length_app.
    rewrite take_app_ge by lia. f_equal. rewrite Hcur, take_take. f_equal. rewrite <- Hcur. lia.
  - apply Hbuf.
  - done.
  - lia.
  - lia.
  - rewrite Hcnt, count_sub, length_take. f_equal. pose proof (f_equal length Hw) as HL. rewrite length_app in HL. lia.
  - by apply Forall_take.
Qed.

Definition op_bytes (o : out_op) : Prop := match o with ONext _ l => Forall (in_u 8) l | _ => True end.

Lemma out_step_inv o w s room s' room' : op_bytes o -> out_inv w s room ->
  out_step o (s, room) = Some (s', room') -> out_inv (written_step o w) s' room'.
Proof.
  intros Ho H. destruct o as [junk l|count|]; cbn [out_step written_step].
  - pose proof (next_inv w s room junk l H) as Hn. destruct (Next junk s) as [[off size] s1].
    destruct (Z.eqb_spec (Z.of_nat (length junk)) BLOCKSIZE); cbn [andb]; [|done].
    destruct (Z.eqb_spec (Z.of_nat (length l)) size); [|done]. intros [= <- <-]. by apply Hn.
  - destruct (Z.leb_spec 0 count), (Z.leb_spec count room); cbn [andb]; try done. intros [= <- <-]. by apply backup_inv.
  - intros [= <- <-]. by destruct (flush_inv _ _ _ H).
Qed.

Lemma out_run_inv os w s room s' room' : Forall op_bytes os -> out_inv w s room ->
  out_exec os (s, room) = Some (s', room') -> out_inv (foldl (fun w o => written_step o w) w os) s' room'.
Proof.
  intros Ho. revert w s room. induction Ho as [|o os Ho _ IH]; intros w s room H; cbn [run_steps foldl].
  - by intros [= <- <-].
  - destruct (out_step o (s, room)) as [[s1 room1]|] eqn:E; cbn [mbind option_bind]; [|done].
    intros He. eapply IH; [|done]. by eapply out_step_inv.
Qed.

Lemma out_init_inv : out_inv [] output_init 0.
Proof. split; cbn; try done; try lia. exists []. done. Qed.

(** ** The input stream *)

(** [rest]: what is still to be read. *)
Record in_inv (rest : list Z) (s : input) : Prop := {
  in_blocks : exists blocks, sub_stream s = concat (List.map frame blocks) /\ Forall good_block blocks /\
    rest = drop (Z.to_nat (_output_buffer_size s - backed_up_bytes s)) (_output_buffer s) ++ concat blocks;
  in_size : _output_buffer_size s = Z.of_nat (length (_output_buffer s)) /\ _output_buffer_size s <= BLOCKSIZE;
  in_backed : 0 <= backed_up_bytes s <= _output_buffer_size s }.

Lemma in_next rest s : in_inv rest s ->
  match NextIn s with
  | (Some (off, size), s') =>
      exists rest', rest = view off size s' ++ rest' /\ 0 < size /\ size = Z.of_nat (length (view off size s')) /\ in_inv rest' s' /\
        backed_up_bytes s' = 0 /\ (forall count, 0 <= count <= size -> exists r, r = drop (Z.to_nat (size - count)) (view off size s') /\
          drop (Z.to_nat (_output_buffer_size s' - count)) (_output_buffer s') = r) /\
        byte_count s' = u64 (byte_count s + size)
  | (None, s') => rest = [] /\ in_inv [] s' /\ byte_count s' = byte_count s
  end.
Proof.
  intros [(blocks & Hs & Hb & Hr) [Hsz HszB] Hbk]. pose proof BLOCKSIZE_pos as HB. unfold NextIn.
  destruct (Z.eqb_spec (backed_up_bytes s) 0) as [E0|E0]; cbn [negb].
  - assert (drop (Z.to_nat (_output_buffer_size s - backed_up_bytes s)) (_output_buffer s) = []) as Hd by (apply drop_ge; lia).
    rewrite Hd in Hr. cbn [app] in Hr. rewrite Hs. destruct blocks as [|b blocks].
    + cbn [List.map concat]. rewrite ReadVarint32_end. splits; [done| |done]. split; cbn; [|done|lia].
      exists []. splits; [done|done|]. by rewrite drop_ge by lia.
    + apply Forall_cons in Hb as [(Hne & Hlen & Hby) Hb]. cbn [List.map concat]. unfold frame. rewrite <- app_assoc.
      pose proof (compress_size b Hlen Hby) as Hcs. assert (in_u 32 (Z.of_nat (length (RawCompress b)))) as Hu by (unfold in_u; lia).
      rewrite (wrapu_small _ _ Hu), ReadVarint32_varint by done.
      rewrite (proj2 (Z.ltb_ge _ _)) by lia. unfold ReadRaw.
      rewrite (proj2 (Z.leb_le _ _)) by (rewrite length_app; lia).
      rewrite Nat2Z.id, take_app_length, drop_app_length, (uncompress_compress b Hlen Hby).
      assert (u64 (Z.of_nat (length b)) = Z.of_nat (length b)) as Hu64 by (apply wrapu_small; unfold in_u; lia).
      assert (i32 (u64 (Z.of_nat (length b))) = Z.of_nat (length b)) as Hi32 by (rewrite Hu64; apply wraps_small; [lia|unfold in_s; lia]).
      rewrite Hi32, Hu64. unfold reset_input_stream, view. cbn [_output_buffer _output_buffer_size backed_up_bytes byte_count].
      rewrite Nat2Z.id, drop_0, take_ge by lia. assert (0 < length b)%nat by (destruct b; [done|cbn; lia]).
      exists (concat blocks). splits; [done|lia|done| |done| |done].
      * split; cbn; [|lia|lia]. exists blocks. splits; [done|done|]. by rewrite drop_ge by lia.
      * intros count Hcount. eexists. split; [done|]. f_equal.
  - set (off := _output_buffer_size s - backed_up_bytes s) in *.
    assert (u64 off = off) as -> by (apply wrapu_small; unfold in_u; lia).
    unfold view. cbn [_output_buffer _output_buffer_size backed_up_bytes byte_count].
    rewrite take_ge by (rewrite length_drop; lia).
    exists (concat blocks). splits; [done|lia|rewrite length_drop; lia| |done| |done].
    + split; cbn; [|done|lia]. exists blocks. splits; [done|done|]. by rewrite drop_ge by lia.
    + intros count Hcount. eexists. split; [done|]. rewrite drop_drop. f_equal. lia.
Qed.

(** The client's state: what it got is what is gone, and what it may give back is at its end. *)
Record reader_inv (data : list Z) (s : input) (room : Z) (got : list Z) : Prop := {
  rd_rest : exists rest, in_inv rest s /\ data = got ++ rest;
  rd_room : 0 <= room /\ backed_up_bytes s + room <= _output_buffer_size s;
  rd_tail count : 0 <= count <= room ->
    drop (Z.to_nat (_output_buffer_size s - backed_up_bytes s - count)) (_output_buffer s) =
    drop (length got - Z.to_nat count) got ++ drop (Z.to_nat (_output_buffer_size s - backed_up_bytes s)) (_output_buffer s);
  rd_got : room <= Z.of_nat (length got);
  rd_count : byte_count s = u64 (Z.of_nat (length got)) }.

Lemma reader_step data o s room got x : reader_inv data s room got ->
  in_step o (s, room, got) = Some x -> let '(s', room', got') := x in reader_inv data s' room' got'.
Proof.
  intros H. destruct o as [|count]; cbn [in_step].
  - destruct H as [(rest & Hi & Hd) Hr Ht Hg Hc]. pose proof (in_next rest s Hi) as Hn.
    destruct (NextIn s) as [[[off size]|] s'].
    + destruct Hn as (rest' & -> & Hpos & Hsz & Hi' & Hb' & Htail & Hcnt).
      destruct (Z.ltb_spec size 0); [lia|]. intros [= <-].
      pose proof (in_size _ _ Hi') as [Hl HB'].
      assert (size <= _output_buffer_size s') as Hle by (rewrite Hl, Hsz; unfold view; rewrite length_take, length_drop; lia).
      split.
      * exists rest'. split; [done|]. by rewrite Hd, <- app_assoc.
      * lia.
      * intros count Hcount. rewrite Hb', Z.sub_0_r. destruct (Htail count Hcount) as (r & -> & Hdr). rewrite Hdr.
        rewrite (drop_ge (_output_buffer s')) by lia. rewrite app_nil_r, drop_app, length_app.
        rewrite (drop_ge got) by lia. cbn [app]. f_equal. lia.
      * rewrite length_app. lia.
      * rewrite Hcnt, Hc, count_add, length_app. f_equal. lia.
    + destruct Hn as (-> & Hi' & Hcnt). intros [= <-]. pose proof (in_backed _ _ Hi'). pose proof (in_size _ _ Hi'). split.
      * exists []. by rewrite Hd.
      * lia.
      * intros count Hcount. replace count with 0 by lia. rewrite Z.sub_0_r, Nat.sub_0_r, drop_all. done.
      * lia.
      * by rewrite Hcnt.
  - destruct (Z.leb_spec 0 count), (Z.leb_spec count room); cbn [andb]; try done. intros [= <-]. unfold BackUpIn.
    destruct (Z.leb_spec count 0).
    { replace count with 0 by lia. by rewrite Nat.sub_0_r, take_ge, Z.sub_0_r by lia. }
    destruct H as [(rest & [(blocks & Hs & Hb & Hrest) Hsz Hbk] & Hd) Hr Ht Hg Hc]. split; cbn.
    + exists (drop (length got - Z.to_nat count) got ++ rest). split.
      * split; cbn; [|done|lia]. exists blocks. splits; [done|done|]. rewrite Hrest, app_assoc. f_equal.
        rewrite <- Ht by lia. f_equal. lia.
      * by rewrite app_assoc, take_drop.
    + lia.
    + intros c Hcc. replace (_output_buffer_size s - (backed_up_bytes s + count) - c) with (_output_buffer_size s - backed_up_bytes s - (count + c)) by lia.
      replace (_output_buffer_size s - (backed_up_bytes s + count)) with (_output_buffer_size s - backed_up_bytes s - count) by lia.
      rewrite !Ht by lia. rewrite app_assoc. f_equal. rewrite length_take.
      replace (length got - Z.to_nat (count + c))%nat with ((length got - Z.to_nat count) - Z.to_nat c)%nat by lia.
      rewrite Nat.min_l by lia. set (k := (length got - Z.to_nat count)%nat).
      rewrite <- (take_drop k got) at 1. rewrite drop_app_le by (rewrite length_take; lia). done.
    + rewrite length_take. lia.
    + rewrite Hc, count_sub, length_take. f_equal. lia.
Qed.

Lemma reader_run data ks s room got s' room' got' : reader_inv data s room got ->
  run_steps in_step ks (s, room, got) = Some (s', room', got') -> reader_inv data s' room' got'.
Proof.
  intros H He. revert H. pose (P := fun x : input * Z * list Z => let '(s, room, got) := x in reader_inv data s room got).
  change (P (s, room, got) -> P (s', room', got')). intros H.
  eapply (run_steps_invariant P); [|exact H|exact He].
  intros o [[s1 r1] g1] x Hx Hs. by apply (reader_step data o s1 r1 g1 x).
Qed.

Lemma reader_init bs : Forall good_block bs -> reader_inv (concat bs) (input_init (concat (List.map frame bs))) 0 [].
Proof.
  intros H. split; cbn; try done; try lia.
  - exists (concat bs). split; [|done]. split; cbn; [|done|lia]. by exists bs.
  - intros count Hc; cbn -[drop]; by rewrite !drop_nil.
Qed.

(** [Next] never fails on what an output stream wrote, and gives at least a byte until the end. *)
Lemma reader_reads_all data n s room got : reader_inv data s room got -> (length data <= length got + n)%nat ->
  exists s', run_steps in_step (replicate (S n) INext) (s, room, got) = Some (s', 0, data).
Proof.
  revert s room got. induction n as [|n IH]; intros s room got H Hn;
    pose proof (reader_step data INext s room got) as Hstep;
    destruct (rd_rest _ _ _ _ H) as (rest & Hi & Hd); pose proof (in_next rest s Hi) as Hnx;
    rewrite replicate_S; cbn [run_steps]; cbn [in_step] in Hstep |- *;
    destruct (NextIn s) as [[[off size]|] s1].
  - destruct Hnx as (rest' & Hr & Hpos & Hsz & _). exfalso. rewrite Hd, length_app, Hr, length_app in Hn. lia.
  - destruct Hnx as (-> & _). exists s1. cbn. by rewrite Hd, app_nil_r.
  - destruct Hnx as (rest' & Hr & Hpos & Hsz & _). rewrite (proj2 (Z.ltb_ge size 0)) in Hstep |- * by lia.
    cbn [mbind option_bind]. apply IH; [exact (Hstep _ H eq_refl)|]. rewrite length_app. lia.
  - destruct Hnx as (-> & _). cbn [mbind option_bind]. apply IH; [exact (Hstep _ H eq_refl)|]. rewrite Hd, length_app. cbn. lia.
Qed.

Lemma wraps_wrapu n : wraps 64 (u64 n) = wraps 64 n.
Proof. unfold wraps, wrapu. by rewrite Zplus_mod_idemp_l. Qed.

(** What an output stream wrote, flushed: good blocks of it. *)
Lemma written_blocks os s room : Forall op_bytes os -> out_exec os (output_init, 0) = Some (s, room) ->
  ByteCount s = wraps 64 (Z.of_nat (length (written os))) /\
  exists bs, Forall good_block bs /\ written os = concat bs /\
  _sub_stream (snd (Flush s)) = concat (List.map frame bs) /\ fst (Flush s) = true.
Proof.
  intros Ho He. pose proof (out_run_inv os [] output_init 0 s room Ho out_init_inv He) as H.
  change (foldl _ [] os) with (written os) in H. split.
  { unfold ByteCount. by rewrite (out_count _ _ _ H), wraps_wrapu. }
  destruct (flush_inv _ _ _ H) as [Hf Hc]. destruct (out_blocks _ _ _ Hf) as (bs & Hw & Hs & Hb).
  exists bs. rewrite Hc, app_nil_r in Hw. splits; try done. unfold Flush.
  destruct (_input_buffer s); [by destruct (_ =? _)|done].
Qed.

(** C26: what a client writes to a block output stream - filling the buffers it is given, giving
    back the end of them and flushing, in any order - is what a client of a block input stream
    reads from the bytes that were sent once the stream is flushed: it has always read a prefix,
    whatever it gave back and read again; both count their bytes; a [Next] that ends means that all was
    read; and every [Next] before gives at least a byte, so that reading on comes to the end. *)
Theorem block_streams_round_trip os s room : Forall op_bytes os -> out_exec os (output_init, 0) = Some (s, room) ->
  let sent := _sub_stream (snd (Flush s)) in
  ByteCount s = wraps 64 (Z.of_nat (length (written os))) /\
  (forall ks s' room' got, run_steps in_step ks (input_init sent, 0, []) = Some (s', room', got) ->
    got `prefix_of` written os /\ ByteCountIn s' = wraps 64 (Z.of_nat (length got)) /\
  (fst (NextIn s') = None -> got = written os)) /\
  exists s', run_steps in_step (replicate (S (length (written os))) INext) (input_init sent, 0, []) = Some (s', 0, written os).
Proof.
  intros Ho He sent. destruct (written_blocks os s room Ho He) as (Hcount & bs & Hb & Hw & Hs & _).
  split; [done|]. unfold sent. rewrite Hs, Hw. split.
  - intros ks s' room' got Hr. pose proof (reader_run (concat bs) ks _ _ _ _ _ _ (reader_init bs Hb) Hr) as H.
    destruct (rd_rest _ _ _ _ H) as (rest & Hi & Hd). split; [by exists rest|].
    split; [unfold ByteCountIn; by rewrite (rd_count _ _ _ _ H), wraps_wrapu|].
    intros Hn. pose proof (in_next rest s' Hi) as Hnx. destruct (NextIn s') as [[[]|] s1]; [done|].
    destruct Hnx as (-> & _). by rewrite Hd, app_nil_r.
  - by apply (reader_reads_all (concat bs) (length (concat bs)) _ 0 []); [apply reader_init|].
Qed.

(** A malformed block: [LZ4] answers with a negative number, which is stored as a size; [Next]
    answers that there is data, of negative size. *)
Theorem malformed_block_has_negative_size s n l tempbuffer l' r out : backed_up_bytes s = 0 ->
  ReadVarint32 (sub_stream s) = Some (n, l) -> n <= 2 * BLOCKSIZE -> ReadRaw n l = (Some tempbuffer, l') ->
  RawUncompress tempbuffer = (r, out) -> in_s 32 r -> r < 0 ->
  fst (NextIn s) = Some (0, r).
Proof.
  intros E0 Ev Hn Er Eu Hr Hneg. unfold NextIn. rewrite E0, Ev. cbn [negb Z.eqb].
  rewrite (proj2 (Z.ltb_ge _ _)) by lia. rewrite Er, Eu. cbn [fst]. do 2 f_equal.
  rewrite <- (wraps_small 32 r) at 2 by (done || lia). unfold wraps, wrapu.
  f_equal. change (2 ^ 64) with (2 ^ 32 * 2 ^ 32). rewrite Z.add_comm, (Z.add_comm r).
  rewrite <- (Zplus_mod_idemp_r (r mod (2 ^ 32 * 2 ^ 32))), <- (Zplus_mod_idemp_r r).
  do 2 f_equal. rewrite Z.rem_mul_r by lia. rewrite Z.mul_comm, Z.mod_add by lia. apply Zmod_mod.
Qed.

(** The client gives back the whole of a buffer and flushes: nothing is written, and the buffer
    stays, which the destructor logs and leaks. *)
Theorem backed_up_buffer_stays s buf : _input_buffer s = Some buf -> _backed_up_bytes s = BLOCKSIZE ->
  Flush s = (true, s).
Proof. intros E Eb. unfold Flush, filled. rewrite E, Eb. by rewrite Z.sub_diag. Qed.

(** [Skip] moves nothing, and says so. *)
Theorem skip_is_unsupported count s : Skip count s = (false, s).
Proof. done. Qed.

End Streams.

(** ** A codec that copies, and the varints of protobuf *)

Instance copy_codec : Codec := {| RawCompress b := b; RawUncompress b := (Z.of_nat (length b), b) |}.

Instance copy_laws : CodecLaws.
Proof. split; cbn; [done|]. unfold BLOCKSIZE. lia. Qed.

Fixpoint read_varint (fuel : nat) (l : list Z) : option (Z * list Z) :=
  match fuel, l with
  | S fuel, b :: l =>
      if b <? 128 then Some (b, l)
      else '(v, l) ← read_varint fuel l; Some (b - 128 + 128 * v, l)
  | _, _ => None
  end.

Instance coded_stream : CodedStream := read_varint 5.

Lemma read_varint_varint k n r : 0 <= n < 128 ^ Z.of_nat (S k) -> read_varint (S k) (varint (S k) n ++ r) = Some (n, r).
Proof.
  revert n. induction k as [|k IH]; intros n Hn.
  - cbn [varint]. rewrite (proj2 (Z.ltb_lt n 128)) by lia. cbn. by rewrite (proj2 (Z.ltb_lt n 128)) by lia.
  - remember (S k) as k' eqn:Ek. cbn [varint]. destruct (Z.ltb_spec n 128).
    + cbn [app read_varint]. by rewrite (proj2 (Z.ltb_lt n 128)) by lia.
    + cbn [app read_varint]. pose proof (Z.mod_pos_bound n 128).
      rewrite (proj2 (Z.ltb_ge _ 128)) by lia. rewrite IH; [|].
      * cbn. do 2 f_equal. pose proof (Z.div_mod n 128). lia.
      * split; [apply Z.div_pos; lia|]. apply Z.div_lt_upper_bound; [lia|].
        rewrite Nat2Z.inj_succ, Z.pow_succ_r in Hn by lia. lia.
Qed.

Instance coded_stream_laws : CodedStreamLaws.
Proof.
  split; [|done]. intros n r Hn. apply (read_varint_varint 4). unfold in_u in Hn. cbn. lia.
Qed.

(** A client that gives back most of its buffer, fills it again in part and flushes. *)
Definition hello : list out_op :=
  [ONext (replicate (Z.to_nat BLOCKSIZE) 0) (replicate (Z.to_nat BLOCKSIZE) 7); OBackUp (BLOCKSIZE - 3); OFlush].

Lemma block_streams_round_trip_witness :
  written hello = [7; 7; 7] /\
  exists s', run_steps in_step (replicate 4 INext) (input_init [3; 7; 7; 7], 0, []) = Some (s', 0, [7; 7; 7]).
Proof.
  assert (Forall op_bytes hello) as Ho.
  { apply Forall_cons. split; [apply Forall_replicate; unfold in_u; lia|]. by repeat constructor. }
  assert (run_steps out_step hello (output_init, 0) = Some (mkOutput None [3; 7; 7; 7] 0 3, 0)) as He
    by (vm_compute; reflexivity).
  assert (written hello = [7; 7; 7]) as Hw by (vm_compute; reflexivity).
  split; [exact Hw|]. destruct (block_streams_round_trip hello _ _ Ho He) as (_ & _ & s' & H).
  rewrite Hw in H. by exists s'.
Defined.

End Blocks.
