(* ===== verification/Lz4Enc.v ===== *)
(** * LZ4: compression, and its round trip ([src/buffer/lz4.cpp], [LZ4_compress])

    The compressor is a loop with jumps: it searches a match ([Search]), writes matches one
    behind the other ([NextMatch]) and ends with the last literals ([Last]).  Pointers are
    offsets into the source ([ip], [ref], [anchor]) and into the destination ([op], [token]);
    every access is checked, as in [Lz4].  The two compressors of the source, for inputs up to
    64 KiB and for longer ones, differ in a few places, which are the fields of [variant]. *)

From S2P Require Import Prelude TranBuf Session Blocks Lz4.
Import TranBufPool Lz4.

Module Lz4Enc.

Definition MFLIMIT : Z := COPYLENGTH + MINMATCH.
Definition MINLENGTH : Z := MFLIMIT + 1.
Definition LASTLITERALS : Z := 5.
Definition MAX_DISTANCE : Z := 2 ^ 16 - 1.
Definition SKIPSTRENGTH : Z := 6.
Definition LZ4_64KLIMIT : Z := 2 ^ 16 + (MFLIMIT - 1).

(** The bits of the hash, the type of the entries, the tests of the distance in the search and
    behind a match, and whether the first position is entered. *)
Record variant := mkVariant {
  HASHLOG : Z;
  entry : Z -> Z;
  search_ok : Z -> Z -> bool;
  next_ok : Z -> Z -> bool;
  enter_first : bool }.

Definition up_to_64k : variant := mkVariant 13 (wrapu 16) (fun _ _ => true) (fun _ _ => true) false.

Definition any_size : variant :=
  mkVariant 12 (wrapu 32) (fun ref ip => negb (ref <? ip - MAX_DISTANCE))
    (fun ref ip => ip - (MAX_DISTANCE + 1) <? ref) true.

Definition LZ4_compressBound (isize : Z) : Z := isize + isize / 255 + 16.

(** [__builtin_ctzll(val) >> 3]. *)
Fixpoint ctz (p : positive) : Z := match p with xO p => 1 + ctz p | _ => 0 end.

Definition LZ4_NbCommonBytes (val : Z) : Z := match val with Zpos p => Z.shiftr (ctz p) 3 | _ => 0 end.

Section Compress.
Context (v : variant) (src : list Z).

Definition iend : Z := size src.
Definition mflimit : Z := iend - MFLIMIT.
Definition matchlimit : Z := iend - LASTLITERALS.

(** [A64], [A32], [A16] of the source: [n] bytes, little-endian. *)
Definition A (n p : Z) : option Z := le_value <$> read src p n.

(** [A32(ref) == A32(ip)] and the like. *)
Definition equal (n ref ip : Z) : option bool := a ← A n ref; b ← A n ip; Some (a =? b).

Definition LZ4_HASH_VALUE (p : Z) : option Z :=
  i ← A 4 p; Some (Z.shiftr (u32 (i * 2654435761)) (32 - HASHLOG v)).

Abbreviation table := (gmap Z Z).

Definition lookup_table (t : table) (h : Z) : Z := default 0 (t !! h).
Definition enter (h ip : Z) (t : table) : table := <[h := entry v ip]> t.

(** The loop that finds a match; [Some None] is the jump to [_last_literals]. *)
Fixpoint find_match (fuel : nat) (attempts forwardIp forwardH : Z) (t : table) : option (option (Z * Z * table)) :=
  match fuel with
  | O => None
  | S n =>
      let h := forwardH in
      let step := Z.shiftr attempts SKIPSTRENGTH in
      let ip := forwardIp in
      let forwardIp := ip + step in
      if mflimit <? forwardIp then Some None
      else
        forwardH ← LZ4_HASH_VALUE forwardIp;
        let ref := lookup_table t h in
        let t := enter h ip t in
        if search_ok v ref ip then
          same ← equal 4 ref ip;
          if (same : bool) then Some (Some (ip, ref, t)) else find_match n (attempts + 1) forwardIp forwardH t
        else find_match n (attempts + 1) forwardIp forwardH t
  end.

(** [while ((ip>anchor) && (ref>source) && ip[-1]==ref[-1]) { ip--; ref--; }]. *)
Fixpoint catch_up (fuel : nat) (anchor ip ref : Z) : option (Z * Z) :=
  if (anchor <? ip) && (0 <? ref) then
    match fuel with
    | O => None
    | S n =>
        a ← byte src (ip - 1); b ← byte src (ref - 1);
        if a =? b then catch_up n anchor (ip - 1) (ref - 1) else Some (ip, ref)
    end
  else Some (ip, ref).

(** [for(; len > 254 ; len-=255) *op++ = 255; *op++ = (BYTE)len]. *)
Fixpoint put_length (fuel : nat) (len op : Z) (dest : list Z) : option (Z * list Z) :=
  if 254 <? len then
    match fuel with
    | O => None
    | S n => dest ← write dest op [255]; put_length n (len - 255) (op + 1) dest
    end
  else dest ← write dest op [u8 len]; Some (op + 1, dest).

(** [for(; len > 509 ; len-=510) { *op++ = 255; *op++ = 255; } if (len > 254) { len-=255; *op++ = 255; } *op++ = (BYTE)len]. *)
Fixpoint put_length2 (fuel : nat) (len op : Z) (dest : list Z) : option (Z * list Z) :=
  if 509 <? len then
    match fuel with
    | O => None
    | S n =>
        dest ← write dest op [255]; dest ← write dest (op + 1) [255];
        put_length2 n (len - 510) (op + 2) dest
    end
  else
    '(len, op, dest) ← (if 254 <? len then dest ← write dest op [255]; Some (len - 255, op + 1, dest)
                        else Some (len, op, dest));
    dest ← write dest op [u8 len]; Some (op + 1, dest).

(** A token with the length of the literals. *)
Definition put_token (length op : Z) (dest : list Z) : option (Z * list Z) :=
  if RUN_MASK <=? length then
    dest ← write dest op [Z.shiftl RUN_MASK ML_BITS];
    put_length (Z.to_nat length) (length - RUN_MASK) (op + 1) dest
  else dest ← write dest op [u8 (Z.shiftl length ML_BITS)]; Some (op + 1, dest).

(** [LZ4_BLINDCOPY(anchor, op, length)]. *)
Definition put_literals (anchor length op : Z) (dest : list Z) : option (Z * list Z) :=
  let e := op + length in
  '(_, _, dest) ← LZ4_WILDCOPY (wild_fuel op e) (Some src) anchor op e dest;
  Some (e, dest).

(** The end of a match, less than eight bytes before [matchlimit]. *)
Definition count_tail (ip ref : Z) : option Z :=
  b4 ← (if ip <? matchlimit - 3 then equal 4 ref ip else Some false);
  let '(ip, ref) := if (b4 : bool) then (ip + 4, ref + 4) else (ip, ref) in
  b2 ← (if ip <? matchlimit - 1 then equal 2 ref ip else Some false);
  let '(ip, ref) := if (b2 : bool) then (ip + 2, ref + 2) else (ip, ref) in
  b1 ← (if ip <? matchlimit then equal 1 ref ip else Some false);
  Some (if (b1 : bool) then ip + 1 else ip).

Fixpoint count (fuel : nat) (ip ref : Z) : option Z :=
  if ip <? matchlimit - (STEPSIZE - 1) then
    match fuel with
    | O => None
    | S n =>
        a ← A 8 ref; b ← A 8 ip;
        let diff := Z.lxor a b in
        if diff =? 0 then count n (ip + STEPSIZE) (ref + STEPSIZE)
        else Some (ip + LZ4_NbCommonBytes diff)
    end
  else count_tail ip ref.

(** [*token += x]. *)
Definition add_token (token x : Z) (dest : list Z) : option (list Z) :=
  t ← byte dest token; write dest token [u8 (t + x)].

Definition put_match_length (token len op : Z) (dest : list Z) : option (Z * list Z) :=
  if ML_MASK <=? len then
    dest ← add_token token ML_MASK dest;
    put_length2 (Z.to_nat len) (len - ML_MASK) op dest
  else dest ← add_token token len dest; Some (op, dest).

Inductive place :=
  | Search (ip forwardH anchor op : Z)
  | NextMatch (token ip ref op : Z)
  | Last (anchor op : Z).

Definition step (x : place) (t : table) (dest : list Z) : option (place * table * list Z) :=
  match x with
  | Search ip forwardH anchor op =>
      r ← find_match (S (Z.to_nat (iend - ip))) (Z.shiftl 1 SKIPSTRENGTH + 3) ip forwardH t;
      match r with
      | None => Some (Last anchor op, t, dest)
      | Some (ip, ref, t) =>
          '(ip, ref) ← catch_up (Z.to_nat (ip - anchor)) anchor ip ref;
          let length := ip - anchor in
          let token := op in
          '(op, dest) ← put_token length op dest;
          '(op, dest) ← put_literals anchor length op dest;
          Some (NextMatch token ip ref op, t, dest)
      end
  | NextMatch token ip ref op =>
      dest ← write dest op (le_bytes 2 (u16 (ip - ref)));
      let op := op + 2 in
      let anchor := ip + MINMATCH in
      ip ← count (Z.to_nat (iend - anchor)) anchor (ref + MINMATCH);
      '(op, dest) ← put_match_length token (ip - anchor) op dest;
      if mflimit <? ip then Some (Last ip op, t, dest)
      else
        h2 ← LZ4_HASH_VALUE (ip - 2);
        let t := enter h2 (ip - 2) t in
        h ← LZ4_HASH_VALUE ip;
        let ref := lookup_table t h in
        let t := enter h ip t in
        same ← (if next_ok v ref ip then equal 4 ref ip else Some false);
        if (same : bool) then dest ← write dest op [0]; Some (NextMatch op ip ref (op + 1), t, dest)
        else h' ← LZ4_HASH_VALUE (ip + 1); Some (Search (ip + 1) h' ip op, t, dest)
  | Last _ _ => Some (x, t, dest)
  end.

(** [LZ4_COMPRESSMIN] is 0. *)
Definition last_literals (anchor op : Z) (dest : list Z) : option (Z * list Z) :=
  let lastRun := iend - anchor in
  '(op, dest) ← put_token lastRun op dest;
  p ← read src anchor lastRun;
  dest ← write dest op p;
  Some (op + lastRun, dest).

Fixpoint steps (fuel : nat) (x : place) (t : table) (dest : list Z) : option (Z * list Z) :=
  match x with
  | Last anchor op => last_literals anchor op dest
  | _ =>
      match fuel with
      | O => None
      | S n => '(x, t, dest) ← step x t dest; steps n x t dest
      end
  end.

Definition compress (dest : list Z) : option (Z * list Z) :=
  if iend <? MINLENGTH then last_literals 0 0 dest
  else
    t ← (if enter_first v then h ← LZ4_HASH_VALUE 0; Some (enter h 0 ∅) else Some ∅);
    h ← LZ4_HASH_VALUE 1;
    steps (2 * length src) (Search 1 h 0 0) t dest.
End Compress.

Definition LZ4_compress64kCtx (src dest : list Z) : option (Z * list Z) := compress up_to_64k src dest.
Definition LZ4_compressCtx (src dest : list Z) : option (Z * list Z) := compress any_size src dest.

Definition LZ4_compress (src dest : list Z) : option (Z * list Z) :=
  if size src <? LZ4_64KLIMIT then LZ4_compress64kCtx src dest else LZ4_compressCtx src dest.

(** ** What a block is made of

    A sequence: literals, the distance of a match, and its length without the four bytes it
    has at least. *)
Definition sequence : Type := list Z * Z * Z.

Definition nibble (n : Z) : Z := Z.min n 15.

(** [n] as 255's and a rest. *)
Definition tail_bytes (n : Z) : list Z := replicate (Z.to_nat (n / 255)) 255 ++ [n mod 255].
Definition length_bytes (n : Z) : list Z := if n <? 15 then [] else tail_bytes (n - 15).

Definition head_bytes (ml : Z) (l : list Z) : list Z :=
  (nibble (size l) * 16 + ml) :: length_bytes (size l) ++ l.

Definition sequence_bytes (x : sequence) : list Z :=
  let '(l, D, ml) := x in head_bytes (nibble ml) l ++ le_bytes 2 D ++ length_bytes ml.

Definition sequences_bytes (xs : list sequence) : list Z := concat (List.map sequence_bytes xs).

Definition play1 (out : list Z) (x : sequence) : list Z :=
  let '(l, D, ml) := x in lz_copy (Z.to_nat D) (Z.to_nat (ml + 4)) (out ++ l).

Definition play (xs : list sequence) (out : list Z) : list Z := foldl play1 out xs.

Lemma extend_replicate k n r a : extend (replicate k 255 ++ n :: r) a = extend (n :: r) (a + 255 * Z.of_nat k).
Proof.
  revert a. induction k as [|k IH]; intros a; cbn [replicate app]; [f_equal; lia|].
  cbn [extend]. rewrite Z.eqb_refl. cbn [extend] in IH. rewrite IH. f_equal. by replace (a + 255 + 255 * Z.of_nat k) with (a + 255 * Z.of_nat (S k)) by lia.
Qed.

Lemma extend_tail n r a : 0 <= n -> extend (tail_bytes n ++ r) a = (a + n, r).
Proof.
  intros Hn. unfold tail_bytes. rewrite <- app_assoc. cbn [app]. rewrite extend_replicate. cbn [extend].
  pose proof (Z.mod_pos_bound n 255). rewrite (proj2 (Z.eqb_neq _ 255)) by lia. f_equal.
  pose proof (Z.div_mod n 255). assert (0 <= n / 255) by (apply Z.div_pos; lia). lia.
Qed.

Lemma field_length n r : 0 <= n -> field (nibble n) (length_bytes n ++ r) = (n, r).
Proof.
  intros Hn. unfold field, length_bytes, nibble. destruct (Z.ltb_spec n 15).
  - rewrite Z.min_l, (proj2 (Z.eqb_neq n 15)) by lia. done.
  - rewrite Z.min_r by lia. cbn [Z.eqb Pos.eqb]. rewrite extend_tail by lia. f_equal. lia.
Qed.

Lemma size_nonneg l : 0 <= size l.
Proof. unfold size. lia. Qed.

Lemma size_tail_bytes n : 0 <= n -> size (tail_bytes n) = n / 255 + 1.
Proof.
  intros Hn. unfold tail_bytes. rewrite size_app. unfold size. rewrite length_replicate. cbn.
  assert (0 <= n / 255) by (apply Z.div_pos; lia). lia.
Qed.

Lemma size_length_bytes n : 0 <= n -> 0 <= size (length_bytes n) /\
  (15 <= n -> size (length_bytes n) = (n - 15) / 255 + 1) /\ (n < 15 -> size (length_bytes n) = 0).
Proof.
  intros Hn. unfold length_bytes. split; [apply size_nonneg|]. split; intros H.
  - rewrite (proj2 (Z.ltb_ge _ _)) by lia. apply size_tail_bytes. lia.
  - by rewrite (proj2 (Z.ltb_lt _ _)) by lia.
Qed.

(** The conditions on a sequence behind [out], in a destination of size [max]. *)
Definition good_sequence (max : Z) (out : list Z) (x : sequence) : Prop :=
  let '(l, D, ml) := x in
  0 <= ml /\ 1 <= D < 2 ^ 16 /\ D <= size (out ++ l) /\ size (out ++ l) + 8 <= max /\
  size (play1 out x) < max.

Fixpoint good_block (max : Z) (out : list Z) (xs : list sequence) : Prop :=
  match xs with
  | [] => True
  | x :: r => good_sequence max out x /\ good_block max (play1 out x) r
  end.

Lemma good_block_snoc max out xs x : good_block max out xs -> good_sequence max (play xs out) x ->
  good_block max out (xs ++ [x]).
Proof. revert out. induction xs as [|y xs IH]; intros out; cbn; [done|]. intros [? ?] Hx. split; [done|]. by apply IH. Qed.

Lemma play_snoc xs x out : play (xs ++ [x]) out = play1 (play xs out) x.
Proof. unfold play. by rewrite foldl_snoc. Qed.

Lemma block_bytes_snoc xs x : sequences_bytes (xs ++ [x]) = sequences_bytes xs ++ sequence_bytes x.
Proof. unfold sequences_bytes. rewrite map_app, concat_app. cbn [List.map concat]. by rewrite app_nil_r. Qed.

Lemma nibble_range n : 0 <= n -> 0 <= nibble n <= 15.
Proof. unfold nibble. lia. Qed.

Lemma token_high a b : 0 <= b < 16 -> (a * 16 + b) / 16 = a /\ (a * 16 + b) mod 16 = b.
Proof.
  intros H. rewrite Z.add_comm. rewrite Z.div_add, Z.mod_add by lia. rewrite Z.div_small, Z.mod_small by lia. lia.
Qed.

(** The reference decoder reads back a block. *)
Lemma decode_block fuel max xs l out : good_block max out xs ->
  size (play xs out ++ l) <= max -> (xs <> [] -> 5 <= size l) -> (length xs < fuel)%nat ->
  ref_decode fuel max (sequences_bytes xs ++ head_bytes 0 l) out = Ok (play xs out ++ l).
Proof.
  revert fuel out. induction xs as [|[[l1 D] ml] xs IH]; intros fuel out Hg Hmax Hl Hf; (destruct fuel as [|fuel]; [cbn in Hf; lia|]).
  - cbn [sequences_bytes List.map concat app play foldl] in *. unfold head_bytes.
    pose proof (size_nonneg l). destruct (token_high (nibble (size l)) 0) as [Eh _]; [lia|].
    rewrite <- Eh at 1. rewrite size_app in Hmax.
    erewrite decode_token; [|rewrite Eh at 1; rewrite <- (app_nil_r (_ ++ l)), <- app_assoc; rewrite Eh; apply field_length; lia|lia|rewrite app_nil_r; lia].
    cbv zeta. rewrite app_nil_r. replace (Z.to_nat (size l)) with (length l) by (unfold size; lia).
    rewrite take_ge, drop_ge by lia. by rewrite orb_true_r.
  - cbn [good_block] in Hg. destruct Hg as [Hg1 Hg]. pose proof Hg1 as (Hml & HD & HDo & Ho8 & Hfull).
    set (rest := sequences_bytes xs ++ head_bytes 0 l). assert (5 <= size l) as Hl5 by (by apply Hl).
    assert (6 <= size rest) as Hrest.
    { unfold rest, head_bytes. rewrite size_app. pose proof (size_nonneg (sequences_bytes xs)).
      assert (size (nibble (size l) * 16 + 0 :: length_bytes (size l) ++ l) = 1 + size (length_bytes (size l)) + size l) as ->
        by (unfold size; cbn [length]; rewrite length_app; lia).
      pose proof (size_nonneg (length_bytes (size l))). lia. }
    set (token := nibble (size l1) * 16 + nibble ml). pose proof (nibble_range ml Hml).
    destruct (token_high (nibble (size l1)) (nibble ml)) as [Eh El]; [lia|]. fold token in Eh, El.
    assert (sequences_bytes (@cons sequence (l1, D, ml) xs) ++ head_bytes 0 l =
      token :: length_bytes (size l1) ++ (l1 ++ D mod 256 :: D / 256 mod 256 :: length_bytes ml ++ rest)) as ->.
    { unfold sequences_bytes. cbn [List.map concat]. unfold sequence_bytes at 1. unfold head_bytes at 1.
      cbn [app le_bytes]. rewrite <- !app_assoc. cbn [app]. done. }
    pose proof (size_nonneg l1). rewrite size_app in HDo, Ho8.
    rewrite (decode_token _ _ _ _ _ (size l1) (l1 ++ D mod 256 :: D / 256 mod 256 :: length_bytes ml ++ rest));
      [|rewrite Eh; by apply field_length|lia|rewrite size_app; pose proof (size_nonneg (D mod 256 :: D / 256 mod 256 :: length_bytes ml ++ rest)); lia].
    cbv zeta. replace (Z.to_nat (size l1)) with (length l1) by (unfold size; lia).
    rewrite take_app_length, drop_app_length, size_app.
    rewrite (proj2 (Z.ltb_ge (max - 8) _)) by lia.
    assert (8 <= size (D mod 256 :: D / 256 mod 256 :: length_bytes ml ++ rest)) as H8.
    { unfold size in *. cbn [length]. rewrite length_app. lia. }
    rewrite (proj2 (Z.ltb_ge _ 8)) by lia. cbn [orb].
    assert (D mod 256 + 256 * (D / 256 mod 256) = D) as ->.
    { rewrite (Z.mod_small (D / 256)) by (split; [apply Z.div_pos|apply Z.div_lt_upper_bound]; lia).
      pose proof (Z.div_mod D 256). lia. }
    rewrite (proj2 (Z.eqb_neq D 0)), (proj2 (Z.ltb_ge _ D)) by lia. rewrite El, field_length by done.
    cbn [play1] in Hfull. rewrite (proj2 (Z.ltb_ge max _)) by lia. rewrite (proj2 (Z.eqb_neq _ max)) by lia.
    unfold rest. apply (IH fuel (lz_copy (Z.to_nat D) (Z.to_nat (ml + 4)) (out ++ l1))); [exact Hg|exact Hmax|done|cbn in Hf; lia].
Qed.

(** ** Comparing bytes *)

Lemma ctz_nonneg p : 0 <= ctz p.
Proof. induction p; cbn; lia. Qed.

Lemma ctz_divides p : (2 ^ ctz p | Zpos p).
Proof.
  induction p as [p _|p [q Hq]|]; cbn [ctz]; [exists (Zpos p~1); lia| |exists 1; lia].
  exists q. rewrite Z.pow_add_r by (pose proof (ctz_nonneg p); lia). lia.
Qed.

Lemma common_zero d : 0 < d -> d mod 256 <> 0 -> LZ4_NbCommonBytes d = 0.
Proof.
  intros Hd Hm. destruct d as [|p|]; [lia| |lia]. cbn [LZ4_NbCommonBytes].
  rewrite Z.shiftr_div_pow2 by lia. pose proof (ctz_nonneg p). apply Z.div_small. split; [lia|].
  change (2 ^ 3) with 8. destruct (Z.lt_ge_cases (ctz p) 8) as [|H8]; [done|]. exfalso. apply Hm.
  destruct (ctz_divides p) as [q Hq]. rewrite Hq. replace (ctz p) with (ctz p - 8 + 8) by lia.
  rewrite Z.pow_add_r by lia. change (2 ^ 8) with 256. rewrite Z.mul_assoc. apply Z.mod_mul. lia.
Qed.

Lemma common_shift d : 0 < d -> LZ4_NbCommonBytes (d * 256) = LZ4_NbCommonBytes d + 1.
Proof.
  intros Hd. destruct d as [|p|]; [lia| |lia].
  assert (Zpos p * 256 = Zpos (p~0~0~0~0~0~0~0~0)) as -> by lia. cbn [LZ4_NbCommonBytes ctz].
  rewrite !Z.shiftr_div_pow2 by lia. change (2 ^ 3) with 8.
  replace (1 + (1 + (1 + (1 + (1 + (1 + (1 + (1 + ctz p)))))))) with (ctz p + 1 * 8) by lia.
  by rewrite Z.div_add by lia.
Qed.

Lemma byte_high x i : in_u 8 x -> 8 <= i -> Z.testbit x i = false.
Proof.
  unfold in_u. intros Hx Hi. destruct (Z.eq_dec x 0) as [->|]; [apply Z.testbit_0_l|].
  apply Z.bits_above_log2; [lia|]. apply Z.log2_lt_pow2; [lia|].
  apply (Z.lt_le_trans _ (2 ^ 8)); [lia|]. apply Z.pow_le_mono_r; lia.
Qed.

Lemma lxor_byte x y : in_u 8 x -> in_u 8 y -> in_u 8 (Z.lxor x y).
Proof.
  intros Hx Hy. assert (Z.lxor x y = (Z.lxor x y) mod 2 ^ 8) as ->; [|unfold in_u; apply Z.mod_pos_bound; lia].
  apply Z.bits_inj'. intros i Hi. destruct (Z.lt_ge_cases i 8).
  - by rewrite Z.mod_pow2_bits_low by lia.
  - rewrite Z.mod_pow2_bits_high by lia. rewrite Z.lxor_spec, !byte_high by (done || lia). done.
Qed.

Lemma lxor_byte_neq x y : in_u 8 x -> in_u 8 y -> x <> y -> 0 < Z.lxor x y < 256.
Proof.
  intros Hx Hy Hxy. pose proof (lxor_byte x y Hx Hy) as H. unfold in_u in H.
  assert (Z.lxor x y <> 0) as Hn by (intros E; by apply Z.lxor_eq in E). lia.
Qed.

Lemma lxor_bytes x y a b : in_u 8 x -> in_u 8 y ->
  Z.lxor (x + 256 * a) (y + 256 * b) = Z.lxor x y + 256 * Z.lxor a b.
Proof.
  intros Hx Hy. assert (forall x a, in_u 8 x -> (x + 256 * a) / 2 ^ 8 = a /\ (x + 256 * a) mod 2 ^ 8 = x) as Hdm.
  { unfold in_u. intros z c Hz. change (2 ^ 8) with 256 in *. rewrite (Z.mul_comm 256), Z.div_add, Z.mod_add by lia.
    rewrite Z.div_small, Z.mod_small by lia. lia. }
  pose proof (lxor_byte x y Hx Hy) as Hxy.
  apply Z.bits_inj'. intros i Hi. rewrite Z.lxor_spec. destruct (Z.lt_ge_cases i 8).
  - rewrite <- (Z.mod_pow2_bits_low (x + 256 * a) 8), <- (Z.mod_pow2_bits_low (y + 256 * b) 8) by lia.
    rewrite <- (Z.mod_pow2_bits_low (Z.lxor x y + _) 8) by lia.
    destruct (Hdm x a Hx) as [_ ->], (Hdm y b Hy) as [_ ->], (Hdm _ (Z.lxor a b) Hxy) as [_ ->].
    by rewrite Z.lxor_spec.
  - replace i with (i - 8 + 8) by lia. rewrite <- !Z.div_pow2_bits by lia.
    destruct (Hdm x a Hx) as [-> _], (Hdm y b Hy) as [-> _], (Hdm _ (Z.lxor a b) Hxy) as [-> _].
    by rewrite Z.lxor_spec.
Qed.

Lemma le_value_nonneg l : Forall (in_u 8) l -> 0 <= le_value l.
Proof. induction 1 as [|x l Hx _ IH]; cbn; [lia|]. unfold in_u in Hx. lia. Qed.

(** The xor of two words: 0 when the bytes are the same, else the first byte that differs. *)
Lemma xor_words xs ys : length xs = length ys -> Forall (in_u 8) xs -> Forall (in_u 8) ys ->
  let d := Z.lxor (le_value xs) (le_value ys) in
  (d = 0 /\ xs = ys) \/
  (0 < d /\ exists k, LZ4_NbCommonBytes d = Z.of_nat k /\ (k < length xs)%nat /\ take k xs = take k ys /\ xs !! k <> ys !! k).
Proof.
  revert ys. induction xs as [|x xs IH]; intros [|y ys] Hl Hxs Hys; cbn [le_value length] in *; try lia; [by left|].
  apply Forall_cons in Hxs as [Hx Hxs]. apply Forall_cons in Hys as [Hy Hys]. cbv zeta. rewrite lxor_bytes by done.
  destruct (IH ys) as [[E ->]|[Hd (k & Hk & Hlt & Ht & Hne)]]; [lia|done..| |].
  - rewrite E, Z.mul_0_r, Z.add_0_r. destruct (decide (x = y)) as [->|Hxy]; [left; by rewrite Z.lxor_nilpotent|].
    right. pose proof (lxor_byte_neq x y Hx Hy Hxy). split; [lia|]. exists 0%nat.
    split; [|split; [lia|split; [done|cbn; congruence]]]. apply common_zero; [lia|]. rewrite Z.mod_small; lia.
  - right. pose proof (lxor_byte x y Hx Hy) as H0. unfold in_u in H0. split; [lia|].
    destruct (decide (x = y)) as [->|Hxy].
    + rewrite Z.lxor_nilpotent, Z.add_0_l, Z.mul_comm, common_shift, Hk by done. exists (S k).
      split; [lia|]. split; [lia|]. cbn. split; [by rewrite Ht|done].
    + pose proof (lxor_byte_neq x y Hx Hy Hxy). exists 0%nat.
      split; [|split; [lia|split; [done|cbn; congruence]]]. apply common_zero; [lia|].
      rewrite Z.mul_comm, Z.mod_add, Z.mod_small by lia. lia.
Qed.

(** ** Writing *)

(** [dest] holds [pre] up to [op]. *)
Definition holds (pre : list Z) (op : Z) (dest : list Z) : Prop := size pre = op /\ pre `prefix_of` dest.

Lemma put_bytes pre op dest b : holds pre op dest -> op + size b <= size dest ->
  exists dest', write dest op b = Some dest' /\ size dest' = size dest /\ holds (pre ++ b) (op + size b) dest'.
Proof.
  intros [Hs Hp] Hb. pose proof (size_nonneg pre) as Hnn.
  destruct (write_Some dest op b) as (d & E & Hd & H); [lia..|]. exists d. split; [done|]. split; [done|].
  split; [rewrite size_app; lia|by apply H].
Qed.

Lemma put1 pre op dest b : holds pre op dest -> op + 1 <= size dest ->
  exists dest', write dest op [b] = Some dest' /\ size dest' = size dest /\ holds (pre ++ [b]) (op + 1) dest'.
Proof. apply (put_bytes pre op dest [b]). Qed.

Lemma tail_bytes_step n : 255 <= n -> tail_bytes n = 255 :: tail_bytes (n - 255).
Proof.
  intros Hn. unfold tail_bytes. assert (n / 255 = (n - 255) / 255 + 1) as ->.
  { replace n with (n - 255 + 1 * 255) at 1 by lia. by rewrite Z.div_add by lia. }
  assert (0 <= (n - 255) / 255) by (apply Z.div_pos; lia). rewrite Z2Nat.inj_add by lia.
  change (Z.to_nat 1) with 1%nat. rewrite Nat.add_1_r. cbn [replicate app]. do 3 f_equal.
  replace n with (n - 255 + 1 * 255) at 1 by lia. by rewrite Z.mod_add by lia.
Qed.

Lemma tail_bytes_small n : 0 <= n < 255 -> tail_bytes n = [n].
Proof. intros H. unfold tail_bytes. by rewrite Z.div_small, Z.mod_small by lia. Qed.

Lemma div255 n : 255 <= n -> n / 255 = (n - 255) / 255 + 1.
Proof. intros H. replace n with (n - 255 + 1 * 255) at 1 by lia. by rewrite Z.div_add by lia. Qed.

Lemma put_length_spec fuel len op dest pre : holds pre op dest -> 0 <= len <= 254 + 255 * Z.of_nat fuel ->
  op + (len / 255 + 1) <= size dest ->
  exists dest', put_length fuel len op dest = Some (op + (len / 255 + 1), dest') /\ size dest' = size dest /\
    holds (pre ++ tail_bytes len) (op + (len / 255 + 1)) dest'.
Proof.
  revert len op dest pre. induction fuel as [|fuel IH]; intros len op dest pre Hh Hl Hs; cbn [put_length];
    (destruct (Z.ltb_spec 254 len) as [Hbig|Hsm];
      [|rewrite Z.div_small in * by lia; rewrite tail_bytes_small, wrapu_small by (unfold in_u; lia);
        destruct (put1 pre op dest len Hh) as (d & -> & Hd & H); [lia|]; exists d; done]); [lia|].
  rewrite div255 in * by lia. assert (0 <= (len - 255) / 255) by (apply Z.div_pos; lia).
  destruct (put1 pre op dest 255 Hh) as (d & -> & Hd & H1); [lia|]. cbn [mbind option_bind].
  destruct (IH (len - 255) (op + 1) d (pre ++ [255])) as (d2 & -> & Hd2 & H2); [done|lia|lia|].
  exists d2. rewrite tail_bytes_step by lia. replace (op + 1 + ((len - 255) / 255 + 1)) with (op + ((len - 255) / 255 + 1 + 1)) in * by lia.
  split; [done|]. split; [lia|]. by rewrite <- app_assoc in H2.
Qed.

Lemma put_length2_spec fuel len op dest pre : holds pre op dest -> 0 <= len <= 509 + 510 * Z.of_nat fuel ->
  op + (len / 255 + 1) <= size dest ->
  exists dest', put_length2 fuel len op dest = Some (op + (len / 255 + 1), dest') /\ size dest' = size dest /\
    holds (pre ++ tail_bytes len) (op + (len / 255 + 1)) dest'.
Proof.
  revert len op dest pre. induction fuel as [|fuel IH]; intros len op dest pre Hh Hl Hs; cbn [put_length2];
    (destruct (Z.ltb_spec 509 len) as [Hbig|Hsm];
      [|destruct (put_length_spec 1 len op dest pre Hh) as (d & E & H); [lia|done|];
        exists d; split; [|done]; rewrite <- E; cbn [put_length];
        destruct (Z.ltb_spec 254 len); [|done]; destruct (write dest op [255]); [|done]; cbn [mbind option_bind];
        by rewrite (proj2 (Z.ltb_ge 254 _)) by lia]); [lia|].
  pose proof (div255 len) as E1. pose proof (div255 (len - 255)) as E2. replace (len - 255 - 255) with (len - 510) in E2 by lia.
  rewrite E1, E2 in * by lia. assert (0 <= (len - 510) / 255) by (apply Z.div_pos; lia).
  destruct (put1 pre op dest 255 Hh) as (d & -> & Hd & H1); [lia|]. cbn [mbind option_bind].
  destruct (put1 _ _ d 255 H1) as (d1 & -> & Hd1 & H2); [lia|]. cbn [mbind option_bind].
  replace (op + 1 + 1) with (op + 2) in H2 by lia.
  destruct (IH (len - 510) (op + 2) d1 ((pre ++ [255]) ++ [255])) as (d2 & -> & Hd2 & H3); [done|lia|lia|].
  exists d2. rewrite (tail_bytes_step len), (tail_bytes_step (len - 255)) by lia. replace (len - 255 - 255) with (len - 510) by lia.
  replace (op + 2 + ((len - 510) / 255 + 1)) with (op + ((len - 510) / 255 + 1 + 1 + 1)) in * by lia.
  split; [done|]. split; [lia|]. by rewrite <- !app_assoc in H3.
Qed.

(** The size of the length bytes. *)
Lemma length_bytes_bound n : 0 <= n -> 0 <= size (length_bytes n) <= n / 255 + 1 /\ size (length_bytes n) <= n.
Proof.
  intros Hn. destruct (size_length_bytes n Hn) as (H0 & H1 & H2). split; [split; [done|]|].
  - destruct (Z.lt_ge_cases n 15); [rewrite H2 by done; assert (0 <= n / 255) by (apply Z.div_pos; lia); lia|].
    rewrite H1 by done. pose proof (Z.div_le_mono (n - 15) n 255). lia.
  - destruct (Z.lt_ge_cases n 15); [rewrite H2 by done; lia|]. rewrite H1 by done.
    pose proof (Z.div_le_mono (n - 15) (255 * (n - 15)) 255) as Hm. rewrite Z.mul_comm, Z.div_mul in Hm by lia. lia.
Qed.

Lemma put_token_spec length op dest pre : holds pre op dest -> 0 <= length ->
  op + 1 + size (length_bytes length) <= size dest ->
  exists dest', put_token length op dest = Some (op + 1 + size (length_bytes length), dest') /\ size dest' = size dest /\
    holds (pre ++ nibble length * 16 :: length_bytes length) (op + 1 + size (length_bytes length)) dest'.
Proof.
  intros Hh Hl Hs. unfold put_token, RUN_MASK, ML_BITS. destruct (size_length_bytes length Hl) as (_ & H1 & H2).
  destruct (Z.leb_spec 15 length) as [Hbig|Hsm].
  - rewrite H1 in * by done. change (Z.shiftl 15 4) with 240.
    assert (0 <= (length - 15) / 255) by (apply Z.div_pos; lia).
    destruct (put1 pre op dest 240 Hh) as (d & -> & Hd & Hh1); [lia|]. cbn [mbind option_bind].
    destruct (put_length_spec (Z.to_nat length) (length - 15) (op + 1) d (pre ++ [240])) as (d2 & -> & Hd2 & Hh2);
      [done|lia|lia|].
    exists d2. split; [done|]. split; [lia|]. unfold length_bytes, nibble. rewrite (proj2 (Z.ltb_ge length 15)), Z.min_r by lia.
    by rewrite <- app_assoc in Hh2.
  - rewrite H2 in * by done. rewrite Z.shiftl_mul_pow2 by lia. change (2 ^ 4) with 16.
    rewrite wrapu_small by (unfold in_u; lia). destruct (put1 pre op dest (length * 16) Hh) as (d & -> & Hd & Hh1); [lia|].
    exists d. cbn [mbind option_bind]. rewrite Z.add_0_r. split; [done|]. split; [done|].
    unfold length_bytes, nibble. by rewrite (proj2 (Z.ltb_lt length 15)), Z.min_l by lia.
Qed.

(** Changing the token behind which [mid] was written. *)
Lemma add_token_spec pre t mid op dest x : holds (pre ++ t :: mid) op dest -> 0 <= t + x < 256 ->
  exists dest', add_token (size pre) x dest = Some dest' /\ size dest' = size dest /\ holds (pre ++ t + x :: mid) op dest'.
Proof.
  intros [Hs [r ->]] Hx. unfold add_token. rewrite (byte_prefix _ (pre ++ t :: mid));
    [|by apply prefix_app_r|rewrite size_app; unfold size; cbn [length]; lia].
  rewrite lookup_app_r by (unfold size; lia). replace (Z.to_nat (size pre) - length pre)%nat with 0%nat by (unfold size; lia).
  cbn [lookup list_lookup mbind option_bind]. rewrite wrapu_small by done. unfold write.
  rewrite (proj2 (Z.leb_le 0 _)), (proj2 (Z.leb_le _ _)) by (unfold size; rewrite ?length_app; cbn [length]; lia). cbn [andb].
  eexists. split; [done|]. unfold overwrite. replace (Z.to_nat (size pre)) with (length pre) by (unfold size; lia).
  rewrite <- !app_assoc. rewrite take_app_length, drop_app_ge by lia.
  replace (length pre + _ - length pre)%nat with 1%nat by (cbn; lia). cbn [app drop].
  split; [unfold size; rewrite !length_app; done|]. split; [rewrite <- Hs; unfold size; by rewrite !length_app|].
  exists r. by rewrite <- app_assoc.
Qed.

Lemma put_match_length_spec pre t mid op dest len : holds (pre ++ t :: mid) op dest -> 0 <= len -> 0 <= t -> t + 15 < 256 ->
  op + size (length_bytes len) <= size dest ->
  exists dest', put_match_length (size pre) len op dest = Some (op + size (length_bytes len), dest') /\ size dest' = size dest /\
    holds (pre ++ t + nibble len :: mid ++ length_bytes len) (op + size (length_bytes len)) dest'.
Proof.
  intros Hh Hl Ht Ht15 Hs. unfold put_match_length, ML_MASK. destruct (size_length_bytes len Hl) as (_ & H1 & H2).
  destruct (Z.leb_spec 15 len) as [Hbig|Hsm].
  - rewrite H1 in * by done.
    destruct (add_token_spec pre t mid op dest 15 Hh) as (d & -> & Hd & Hh1); [lia|]. cbn [mbind option_bind].
    destruct (put_length2_spec (Z.to_nat len) (len - 15) op d _ Hh1) as (d2 & -> & Hd2 & Hh2); [lia|lia|].
    exists d2. split; [done|]. split; [lia|]. unfold length_bytes, nibble. rewrite (proj2 (Z.ltb_ge len 15)), Z.min_r by lia.
    by rewrite <- app_assoc in Hh2.
  - rewrite H2 in * by done. rewrite Z.add_0_r.
    destruct (add_token_spec pre t mid op dest len Hh) as (d & -> & Hd & Hh1); [lia|]. cbn [mbind option_bind].
    exists d. split; [done|]. split; [done|]. unfold length_bytes, nibble. rewrite (proj2 (Z.ltb_lt len 15)), Z.min_l by lia.
    by rewrite app_nil_r.
Qed.

Lemma bytes_length n : 0 <= n -> Forall (in_u 8) (length_bytes n).
Proof.
  intros Hn. unfold length_bytes, tail_bytes. destruct (n <? 15); [constructor|]. apply Forall_app. split.
  - apply Forall_replicate. unfold in_u. lia.
  - constructor; [|done]. unfold in_u. pose proof (Z.mod_pos_bound (n - 15) 255). lia.
Qed.

Lemma bytes_head ml l : 0 <= ml <= 15 -> Forall (in_u 8) l -> Forall (in_u 8) (head_bytes ml l).
Proof.
  intros Hm Hl. unfold head_bytes. constructor.
  - unfold in_u, nibble. pose proof (size_nonneg l). lia.
  - apply Forall_app. split; [apply bytes_length, size_nonneg|done].
Qed.

Lemma bytes_sequence l D ml : Forall (in_u 8) l -> 0 <= ml -> Forall (in_u 8) (sequence_bytes (l, D, ml)).
Proof.
  intros Hl Hm. unfold sequence_bytes. apply Forall_app. split; [apply bytes_head; [by apply nibble_range|done]|].
  apply Forall_app. split; [|by apply bytes_length].
  repeat constructor; unfold in_u; apply Z.mod_pos_bound; lia.
Qed.

Section Proofs.
Context (v : variant) (src : list Z).
Context (Hsrc : Forall (in_u 8) src).

Abbreviation iend := (iend src).
Abbreviation mflimit := (mflimit src).
Abbreviation matchlimit := (matchlimit src).

(** ** Matches *)

(** The same [n] bytes at [ref] and [ip]. *)
Definition common (ref ip n : Z) : Prop :=
  forall i, 0 <= i < n -> src !! Z.to_nat (ref + i) = src !! Z.to_nat (ip + i).

Definition word (n p : Z) : list Z := take (Z.to_nat n) (drop (Z.to_nat p) src).

Lemma length_word n p : 0 <= p -> 0 <= n -> p + n <= iend -> length (word n p) = Z.to_nat n.
Proof. unfold word, Lz4Enc.iend, size. intros. rewrite length_take, length_drop. lia. Qed.

Lemma word_bytes n p : Forall (in_u 8) (word n p).
Proof. by apply Forall_take, Forall_drop. Qed.

Lemma word_lookup n p i : 0 <= p -> 0 <= i < n -> word n p !! Z.to_nat i = src !! Z.to_nat (p + i).
Proof. intros. unfold word. rewrite lookup_take_lt, lookup_drop by lia. f_equal. lia. Qed.

Lemma A_spec n p : 0 <= p -> 0 <= n -> p + n <= iend -> A src n p = Some (le_value (word n p)).
Proof. intros. unfold A. by rewrite read_Some by done. Qed.

Lemma word_eq n ref ip : 0 <= ref -> 0 <= ip -> 0 <= n -> ref + n <= iend -> ip + n <= iend ->
  word n ref = word n ip <-> common ref ip n.
Proof.
  intros. split.
  - intros E i Hi. rewrite <- !(word_lookup n) by lia. by rewrite E.
  - intros Hc. apply list_eq. intros i. destruct (decide (i < Z.to_nat n)%nat) as [Hi|Hi].
    + rewrite <- (Nat2Z.id i), !word_lookup by lia. apply Hc. lia.
    + rewrite !lookup_ge_None_2 by (rewrite length_word; lia). done.
Qed.

Lemma equal_spec n ref ip : 0 <= ref -> 0 <= ip -> 0 <= n -> ref + n <= iend -> ip + n <= iend ->
  exists b, equal src n ref ip = Some b /\ (b = true <-> common ref ip n).
Proof.
  intros. unfold equal. rewrite !A_spec by done. cbn [mbind option_bind]. eexists. split; [done|].
  rewrite <- word_eq by done. pose proof (xor_words (word n ref) (word n ip)) as Hx. cbv zeta in Hx.
  rewrite !length_word in Hx by done. specialize (Hx eq_refl (word_bytes _ _) (word_bytes _ _)).
  rewrite Z.eqb_eq. split; [|by intros ->]. intros E. destruct Hx as [[_ Hx]|[Hx _]]; [done|].
  rewrite E, Z.lxor_nilpotent in Hx. lia.
Qed.

Lemma common_app ref ip n m : 0 <= n -> common ref ip n -> common (ref + n) (ip + n) m -> common ref ip (n + m).
Proof.
  intros Hn H1 H2 i Hi. destruct (Z.lt_ge_cases i n); [apply H1; lia|].
  replace (ref + i) with (ref + n + (i - n)) by lia. replace (ip + i) with (ip + n + (i - n)) by lia. apply H2. lia.
Qed.

Lemma common_le ref ip n m : m <= n -> common ref ip n -> common ref ip m.
Proof. intros Hm H i Hi. apply H. lia. Qed.

(** The result of counting: everything from [ip] matches, and nothing more. *)
Definition counted (ip ref ip' : Z) : Prop :=
  ip <= ip' <= matchlimit /\ common ref ip (ip' - ip) /\
  (ip' < matchlimit -> src !! Z.to_nat (ref + (ip' - ip)) <> src !! Z.to_nat ip').

Lemma counted_app ip ref n ip' : 0 <= n -> common ref ip n -> counted (ip + n) (ref + n) ip' -> counted ip ref ip'.
Proof.
  intros Hn H1 (H2 & H3 & H4). split; [lia|]. split.
  - replace (ip' - ip) with (n + (ip' - (ip + n))) by lia. by apply common_app.
  - intros H. replace (ref + (ip' - ip)) with (ref + n + (ip' - (ip + n))) by lia. by apply H4.
Qed.

(** A test for [n] bytes in the tail. *)
Lemma tail_test n ip ref : 0 <= ref < ip -> 1 <= n -> ip <= matchlimit ->
  exists b, (if ip <? matchlimit - (n - 1) then equal src n ref ip else Some false) = Some b /\
    (b = true -> ip + n <= matchlimit /\ common ref ip n) /\
    (b = false -> ip + n <= matchlimit -> ~ common ref ip n).
Proof.
  intros Hr Hn Hip. unfold Lz4Enc.matchlimit, LASTLITERALS in *. destruct (Z.ltb_spec ip (iend - 5 - (n - 1))).
  - destruct (equal_spec n ref ip) as (b & -> & Hb); [lia..|]. exists b. split; [done|]. split.
    + intros E. split; [lia|by apply Hb].
    + intros E _ Hc. apply Hb in Hc. congruence.
  - exists false. split; [done|]. split; [done|lia].
Qed.

Lemma common1 ref ip : common ref ip 1 <-> src !! Z.to_nat ref = src !! Z.to_nat ip.
Proof.
  split.
  - intros H. specialize (H 0). rewrite !Z.add_0_r in H. apply H. lia.
  - intros H i Hi. by replace i with 0 by lia; rewrite !Z.add_0_r.
Qed.

Lemma count_tail_spec ip ref : 0 <= ref < ip -> ip <= matchlimit -> matchlimit < ip + 8 ->
  exists ip', count_tail src ip ref = Some ip' /\ counted ip ref ip'.
Proof.
  intros Hr Hip H8. unfold count_tail.
  destruct (tail_test 4 ip ref) as (b4 & E4 & Ht4 & Hf4); [lia..|]. change (4 - 1) with 3 in E4. rewrite E4.
  cbn [mbind option_bind].
  assert (exists n4, 0 <= n4 /\ (if b4 then (ip + 4, ref + 4) else (ip, ref)) = (ip + n4, ref + n4) /\ common ref ip n4 /\
    ip + n4 <= matchlimit /\ (ip + n4 + 4 <= matchlimit -> ~ common (ref + n4) (ip + n4) 4)) as (n4 & Hn4 & -> & Hc4 & Hl4 & Hx4).
  { destruct b4.
    - exists 4. destruct (Ht4 eq_refl). split; [lia|]. split; [done|]. split; [done|]. split; [lia|]. lia.
    - exists 0. rewrite !Z.add_0_r. split; [lia|]. split; [done|]. split; [intros i; lia|]. split; [lia|]. by apply Hf4. }
  destruct (tail_test 2 (ip + n4) (ref + n4)) as (b2 & E2 & Ht2 & Hf2); [lia..|]. change (2 - 1) with 1 in E2. rewrite E2.
  cbn [mbind option_bind].
  assert (exists n2, 0 <= n2 /\ (if b2 then (ip + n4 + 2, ref + n4 + 2) else (ip + n4, ref + n4)) = (ip + n4 + n2, ref + n4 + n2) /\
    common (ref + n4) (ip + n4) n2 /\ ip + n4 + n2 <= matchlimit /\
    (ip + n4 + n2 + 2 <= matchlimit -> ~ common (ref + n4 + n2) (ip + n4 + n2) 2)) as (n2 & Hn2 & -> & Hc2 & Hl2 & Hx2).
  { destruct b2.
    - exists 2. destruct (Ht2 eq_refl). split; [lia|]. split; [done|]. split; [done|]. split; [lia|].
      intros Hle Hc. apply Hx4; [lia|]. change 4 with (2 + 2). apply common_app; [lia|done|done].
    - exists 0. rewrite !Z.add_0_r. split; [lia|]. split; [done|]. split; [intros i; lia|]. split; [lia|]. by apply Hf2. }
  destruct (tail_test 1 (ip + n4 + n2) (ref + n4 + n2)) as (b1 & E1 & Ht1 & Hf1); [lia..|].
  change (1 - 1) with 0 in E1. rewrite Z.sub_0_r in E1. rewrite E1. cbn [mbind option_bind].
  assert (forall m, counted (ip + n4 + n2) (ref + n4 + n2) m -> counted ip ref m) as Hup.
  { intros m Hm. apply (counted_app ip ref n4); [done|done|]. by apply (counted_app _ _ n2). }
  eexists. split; [done|]. apply Hup. destruct b1.
  - destruct (Ht1 eq_refl) as [Hle Hc1]. split; [lia|].
    replace (ip + n4 + n2 + 1 - (ip + n4 + n2)) with 1 by lia. split; [done|]. intros Hlt Heq.
    apply Hx2; [lia|]. change 2 with (1 + 1). apply common_app; [lia|done|]. by apply common1.
  - split; [lia|]. rewrite Z.sub_diag, Z.add_0_r. split; [intros i; lia|]. intros Hlt Heq.
    apply Hf1; [done|lia|]. by apply common1.
Qed.

Lemma count_spec fuel ip ref : (Z.to_nat (matchlimit - ip) <= fuel)%nat -> 0 <= ref < ip -> ip <= matchlimit ->
  exists ip', count src fuel ip ref = Some ip' /\ counted ip ref ip'.
Proof.
  revert ip ref. induction fuel as [|fuel IH]; intros ip ref Hf Hr Hip; cbn [count]; unfold STEPSIZE;
    (destruct (Z.ltb_spec ip (matchlimit - (8 - 1))); [|apply count_tail_spec; lia]); [lia|].
  assert (iend = matchlimit + 5) as Hm by (unfold Lz4Enc.matchlimit, LASTLITERALS; lia).
  rewrite !A_spec by lia. cbn [mbind option_bind].
  pose proof (xor_words (word 8 ref) (word 8 ip)) as Hx. cbv zeta in Hx. rewrite !length_word in Hx by lia.
  destruct (Hx eq_refl (word_bytes _ _) (word_bytes _ _)) as [[-> E]|[Hd (k & Hk & Hlt & Ht & Hne)]].
  - cbn [Z.eqb]. apply word_eq in E; [|lia..]. destruct (IH (ip + 8) (ref + 8)) as (ip' & -> & Hc); [lia..|].
    exists ip'. split; [done|]. apply (counted_app ip ref 8); [lia|done|done].
  - rewrite (proj2 (Z.eqb_neq _ 0)) by lia. rewrite Hk. eexists. split; [done|].
    split; [lia|]. replace (ip + Z.of_nat k - ip) with (Z.of_nat k) by lia. split.
    + intros i Hi. rewrite <- !(word_lookup 8) by lia.
      rewrite <- (lookup_take_lt (word 8 ref) k), <- (lookup_take_lt (word 8 ip) k) by lia. by rewrite Ht.
    + intros _ Heq. apply Hne. rewrite <- (Nat2Z.id k), !word_lookup by lia. exact Heq.
Qed.

(** Whatever matches up to the limit was counted. *)
Lemma counted_max ip ref ip' q : counted ip ref ip' -> 0 <= ref -> 0 <= ip -> ip <= q <= matchlimit -> common ref ip (q - ip) -> q <= ip'.
Proof.
  intros (H1 & H2 & H3) Hr Hi Hq Hc. destruct (Z.le_gt_cases q ip') as [|Hlt]; [done|]. exfalso.
  apply H3; [lia|]. replace ip' with (ip + (ip' - ip)) at 2 by lia. apply Hc. lia.
Qed.

(** A match is a copy in the text. *)
Lemma lz_copy_text ref ip n : 0 <= ref < ip -> common ref ip (Z.of_nat n) -> ip + Z.of_nat n <= iend ->
  lz_copy (Z.to_nat (ip - ref)) n (take (Z.to_nat ip) src) = take (Z.to_nat (ip + Z.of_nat n)) src.
Proof.
  intros Hr. induction n as [|n IH]; intros Hc Hn; [cbn; f_equal; lia|].
  unfold Lz4Enc.iend, size in *. rewrite lz_copy_S, IH; [|eapply common_le; [|exact Hc]; lia|lia].
  rewrite length_take. replace (Z.to_nat (ip + Z.of_nat (S n))) with (S (Z.to_nat (ip + Z.of_nat n))) by lia.
  rewrite <- (take_snoc_drop (Z.to_nat (ip + Z.of_nat n))). f_equal.
  replace (_ `min` _ - _)%nat with (Z.to_nat (ref + Z.of_nat n)) by lia.
  apply take1_drop. rewrite lookup_take_lt by lia. apply Hc. lia.
Qed.

(** ** The table *)

Context (Hentry : forall ip, 0 <= ip <= mflimit -> entry v ip = ip).
Context (Hsearch : forall ref ip, 0 <= ref < ip -> ip <= mflimit -> search_ok v ref ip = true -> ip - ref < 2 ^ 16).
Context (Hnext : forall ref ip, 0 <= ref < ip -> ip <= mflimit -> next_ok v ref ip = true -> ip - ref < 2 ^ 16).

(** All positions in the table are before [b]. *)
Definition below (t : gmap Z Z) (b : Z) : Prop := forall h, 0 <= lookup_table t h < b.

Lemma below_enter t b b' h ip : below t b -> b <= b' -> 0 <= ip < b' -> ip <= mflimit -> below (enter v h ip t) b'.
Proof.
  intros Ht Hb Hip Hm h'. unfold enter, lookup_table. destruct (decide (h = h')) as [->|Hne].
  - rewrite lookup_insert_eq. cbn. rewrite Hentry; lia.
  - rewrite lookup_insert_ne by done. specialize (Ht h'). unfold lookup_table in Ht. lia.
Qed.

Lemma hash_spec p : 0 <= p -> p + 4 <= iend -> exists h, LZ4_HASH_VALUE v src p = Some h.
Proof. intros. unfold LZ4_HASH_VALUE. rewrite A_spec by lia. by eexists. Qed.

(** The hash is an index of the table, which has [2 ^ HASHLOG] entries. *)
Lemma hash_range p h : 0 <= HASHLOG v <= 32 -> LZ4_HASH_VALUE v src p = Some h -> 0 <= h < 2 ^ HASHLOG v.
Proof.
  intros Hv. unfold LZ4_HASH_VALUE. destruct (A src 4 p) as [a|]; [|done]. cbn [mbind option_bind]. intros [= <-].
  pose proof (wrapu_range 32 (a * 2654435761)) as H. unfold in_u in H. rewrite Z.shiftr_div_pow2 by lia.
  assert (0 < 2 ^ (32 - HASHLOG v)) by (apply Z.pow_pos_nonneg; lia).
  split; [apply Z.div_pos; lia|]. apply Z.div_lt_upper_bound; [lia|]. rewrite <- Z.pow_add_r by lia.
  replace (32 - HASHLOG v + HASHLOG v) with 32 by lia. lia.
Qed.

Lemma mflimit_eq : mflimit = iend - 12.
Proof. done. Qed.

Lemma matchlimit_eq : matchlimit = iend - 5.
Proof. done. Qed.

(** ** The search *)

Lemma find_match_spec fuel attempts fip fh t : 64 <= attempts -> 1 <= fip -> below t fip ->
  (Z.to_nat (iend - fip) < fuel)%nat ->
  exists r, find_match v src fuel attempts fip fh t = Some r /\
    match r with
    | None => True
    | Some (ip, ref, t') => fip <= ip <= mflimit /\ 0 <= ref < ip /\ ip - ref < 2 ^ 16 /\ common ref ip 4 /\ below t' (ip + 1)
    end.
Proof.
  pose proof mflimit_eq as Hmf. revert attempts fip fh t. induction fuel as [|fuel IH]; intros attempts fip fh t Ha Hf Ht Hfu; [lia|].
  cbn [find_match]. rewrite Z.shiftr_div_pow2 by (unfold SKIPSTRENGTH; lia).
  assert (1 <= attempts / 2 ^ SKIPSTRENGTH) as Hstep by (apply Z.div_le_lower_bound; unfold SKIPSTRENGTH; lia).
  set (st := attempts / 2 ^ SKIPSTRENGTH) in *. clearbody st.
  destruct (Z.ltb_spec mflimit (fip + st)); [by exists None|].
  destruct (hash_spec (fip + st)) as (h' & ->); [lia..|]. cbn [mbind option_bind].
  pose proof (Ht fh) as Href. set (ref := lookup_table t fh) in *.
  assert (below (enter v fh fip t) (fip + 1)) as Ht' by (apply (below_enter t fip); [done|lia..]).
  assert (exists r, find_match v src fuel (attempts + 1) (fip + st) h' (enter v fh fip t) = Some r /\
    match r with
    | None => True
    | Some (ip, ref, t') => fip <= ip <= mflimit /\ 0 <= ref < ip /\ ip - ref < 2 ^ 16 /\ common ref ip 4 /\ below t' (ip + 1)
    end) as Hgo.
  { destruct (IH (attempts + 1) (fip + st) h' (enter v fh fip t)) as (r & -> & Hr); [lia|lia| |lia|].
    - intros k. specialize (Ht' k). lia.
    - exists r. split; [done|]. destruct r as [[[ip rf] t']|]; [|done]. intuition lia. }
  destruct (search_ok v ref fip) eqn:Eok; [|done].
  destruct (equal_spec 4 ref fip) as (b & -> & Hb); [lia..|]. cbn [mbind option_bind]. destruct b; [|done].
  eexists. split; [done|]. cbn. split; [lia|]. split; [lia|]. split; [apply Hsearch; (done || lia)|].
  split; [by apply Hb|done].
Qed.

Lemma common_back ref ip n : 0 < ref -> 0 < ip -> src !! Z.to_nat (ip - 1) = src !! Z.to_nat (ref - 1) ->
  common ref ip n -> common (ref - 1) (ip - 1) (n + 1).
Proof.
  intros Hr Hi E H i Hb. destruct (Z.eq_dec i 0) as [->|]; [by rewrite !Z.add_0_r|].
  specialize (H (i - 1)). replace (ref - 1 + i) with (ref + (i - 1)) by lia.
  replace (ip - 1 + i) with (ip + (i - 1)) by lia. apply H. lia.
Qed.

Lemma catch_up_spec fuel anchor ip ref n : (Z.to_nat (ip - anchor) <= fuel)%nat -> 0 <= anchor <= ip ->
  0 <= ref < ip -> ip <= iend -> common ref ip n ->
  exists ip' ref', catch_up src fuel anchor ip ref = Some (ip', ref') /\ anchor <= ip' <= ip /\ 0 <= ref' /\
    ip' - ref' = ip - ref /\ common ref' ip' (n + (ip - ip')).
Proof.
  revert ip ref n. induction fuel as [|fuel IH]; intros ip ref n Hf Ha Hr Hip Hc; cbn [catch_up];
    destruct (Z.ltb_spec anchor ip), (Z.ltb_spec 0 ref); cbn [andb];
    try (exists ip, ref; rewrite Z.sub_diag, Z.add_0_r; split; [done|]; split; [lia|]; split; [lia|]; done); [lia|].
  destruct (byte_Some src (ip - 1)) as (a & Ea & _); [unfold Lz4Enc.iend in *; lia|].
  destruct (byte_Some src (ref - 1)) as (b & Eb & _); [unfold Lz4Enc.iend in *; lia|].
  rewrite Ea, Eb. cbn [mbind option_bind]. destruct (Z.eqb_spec a b) as [->|].
  - destruct (IH (ip - 1) (ref - 1) (n + 1)) as (ip' & ref' & -> & H1 & H2 & H3 & H4); [lia..| |].
    + apply common_back; [lia|lia| |done]. unfold byte in Ea, Eb.
      rewrite (proj2 (Z.leb_le 0 (ip - 1))) in Ea by lia. rewrite (proj2 (Z.leb_le 0 (ref - 1))) in Eb by lia. congruence.
    + exists ip', ref'. split; [done|]. split; [lia|]. split; [done|]. split; [lia|].
      by replace (n + (ip - ip')) with (n + 1 + (ip - 1 - ip')) by lia.
  - exists ip, ref. rewrite Z.sub_diag, Z.add_0_r. split; [done|]. split; [lia|]. split; [lia|]. done.
Qed.

(** ** Literals *)

Lemma put_literals_spec pre anchor length op dest : holds pre op dest -> 0 <= anchor -> 0 <= length ->
  anchor + length <= mflimit -> op + length + 8 <= size dest ->
  exists dest', put_literals src anchor length op dest = Some (op + length, dest') /\ size dest' = size dest /\
    holds (pre ++ word length anchor) (op + length) dest'.
Proof.
  pose proof mflimit_eq as Hmf. intros [Hs Hp] Ha Hl Hm Hd. unfold put_literals. pose proof (size_nonneg pre) as Hnn.
  destruct (wildcopy_literals (wild_fuel op (op + length)) src anchor op (op + length) dest)
    as (op' & d & -> & Hsd & Ho & He & H); [unfold wild_fuel; lia|unfold Lz4Enc.iend in *; lia..|]. cbn [mbind option_bind].
  exists d. split; [done|]. split; [done|]. split.
  - rewrite size_app. unfold size at 2. rewrite length_word by lia. lia.
  - etrans; [|by apply (H pre)]. apply prefix_app. apply take_prefix_le. lia.
Qed.

(** ** The state between the jumps

    [max] is the size of the buffer the block will be decompressed into. *)
Context (max : Z) (Hmax : iend <= max).

Definition text (n : Z) : list Z := take (Z.to_nat n) src.

(** The sequences written so far say the text up to [anchor]. *)
Record written (xs : list sequence) (anchor op : Z) (dest : list Z) : Prop := {
  wr_good : good_block max [] xs;
  wr_bytes : Forall (in_u 8) (sequences_bytes xs);
  wr_text : play xs [] = text anchor;
  wr_holds : holds (sequences_bytes xs) op dest;
  wr_op : op <= anchor + anchor / 255;
  wr_anchor : 0 <= anchor <= iend;
  wr_last : xs <> [] -> anchor <= matchlimit }.

(** A match was found, and the token and the literals in front of it are written. *)
Record pending (xs : list sequence) (l : list Z) (token ip ref op : Z) (t : gmap Z Z) (dest : list Z) : Prop := {
  pe_good : good_block max [] xs;
  pe_bytes : Forall (in_u 8) (sequences_bytes xs) /\ Forall (in_u 8) l;
  pe_text : play xs [] ++ l = text ip;
  pe_token : token = size (sequences_bytes xs);
  pe_holds : holds (sequences_bytes xs ++ head_bytes 0 l) op dest;
  pe_op : op <= ip + ip / 255 + 2;
  pe_ref : 0 <= ref < ip /\ ip - ref < 2 ^ 16;
  pe_ip : ip <= mflimit;
  pe_match : exists m, ip <= m <= mflimit /\ common ref ip (4 + (m - ip)) /\ below t (m + 1) }.

Definition inv (x : place) (t : gmap Z Z) (dest : list Z) : Prop :=
  match x with
  | Search ip _ anchor op => exists xs, written xs anchor op dest /\ anchor < ip <= mflimit + 1 /\ below t ip
  | NextMatch token ip ref op => exists xs l, pending xs l token ip ref op t dest
  | Last anchor op => exists xs, written xs anchor op dest
  end.

Definition todo (x : place) : Z :=
  match x with
  | Search _ _ anchor _ => 2 * (iend - anchor)
  | NextMatch _ ip _ _ => 2 * (iend - ip) - 1
  | Last _ _ => 0
  end.

Lemma size_text n : 0 <= n <= iend -> size (text n) = n.
Proof. intros H. unfold text. apply size_take. unfold Lz4Enc.iend in H. lia. Qed.

Lemma text_word n k : 0 <= n -> 0 <= k -> text n ++ word k n = text (n + k).
Proof. intros. unfold text, word. rewrite take_take_drop. f_equal. lia. Qed.

Lemma size_word k n : 0 <= n -> 0 <= k -> n + k <= iend -> size (word k n) = k.
Proof. intros. unfold size. rewrite length_word by lia. lia. Qed.

Lemma div255_add a b : 0 <= a -> 0 <= b -> a / 255 + b / 255 <= (a + b) / 255.
Proof.
  intros. pose proof (Z.div_mod a 255). pose proof (Z.div_mod b 255).
  pose proof (Z.mod_pos_bound a 255). pose proof (Z.mod_pos_bound b 255).
  apply Z.div_le_lower_bound; lia.
Qed.

(** A token and literals. *)
Lemma put_run_spec xs anchor ip op dest : written xs anchor op dest -> anchor <= ip <= mflimit ->
  LZ4_compressBound iend <= size dest ->
  exists op1 d1 op2 d2, put_token (ip - anchor) op dest = Some (op1, d1) /\
    put_literals src anchor (ip - anchor) op1 d1 = Some (op2, d2) /\ size d2 = size dest /\
    holds (sequences_bytes xs ++ head_bytes 0 (word (ip - anchor) anchor)) op2 d2 /\ op2 <= ip + ip / 255 + 2.
Proof.
  pose proof mflimit_eq as Hmf. intros [Hg Hbytes Ht Hh Hop Ha _] Hip Hd. unfold LZ4_compressBound in Hd. set (n := ip - anchor).
  assert (0 <= iend / 255) as Hn0 by (apply Z.div_pos; lia).
  destruct (length_bytes_bound n) as [[Hl0 Hl1] _]; [lia|].
  pose proof (div255_add anchor n) as Hsum. replace (anchor + n) with ip in Hsum by lia.
  pose proof (Z.div_le_mono ip iend 255) as Hmono.
  destruct (put_token_spec n op dest _ Hh) as (d1 & E1 & Hs1 & Hh1); [lia|lia|].
  destruct (put_literals_spec _ anchor n _ d1 Hh1) as (d2 & E2 & Hs2 & Hh2); [lia..|].
  eexists _, d1, _, d2. split; [exact E1|]. split; [exact E2|]. split; [lia|]. split; [|lia].
  unfold head_bytes. rewrite Z.add_0_r. rewrite size_word by lia. rewrite <- app_assoc in Hh2. exact Hh2.
Qed.

Lemma step_search ip fh anchor op t dest : LZ4_compressBound iend <= size dest ->
  inv (Search ip fh anchor op) t dest ->
  exists x' t' dest', step v src (Search ip fh anchor op) t dest = Some (x', t', dest') /\ inv x' t' dest' /\
    size dest' = size dest /\ todo x' < todo (Search ip fh anchor op).
Proof.
  pose proof mflimit_eq as Hmf. intros Hd (xs & Hw & Hip & Hb). pose proof (wr_anchor _ _ _ _ Hw) as Ha. cbn [step].
  destruct (find_match_spec (S (Z.to_nat (iend - ip))) (Z.shiftl 1 SKIPSTRENGTH + 3) ip fh t) as (r & -> & Hr);
    [done|lia|done|lia|]. cbn [mbind option_bind]. destruct r as [[[m ref] t']|].
  - destruct Hr as (Hm & Href & HD & Hc & Hb').
    destruct (catch_up_spec (Z.to_nat (m - anchor)) anchor m ref 4) as (ip' & ref' & -> & Hip' & Href' & Hdd & Hc');
      [lia..|done|]. cbn [mbind option_bind].
    destruct (put_run_spec xs anchor ip' op dest Hw) as (op1 & d1 & op2 & d2 & -> & E2 & Hs2 & Hh2 & Hop2); [lia|done|].
    cbn [mbind option_bind]. rewrite E2. cbn [mbind option_bind]. eexists _, t', d2. split; [done|].
    split; [|split; [done|cbn; lia]]. exists xs, (word (ip' - anchor) anchor). split; try done; try lia.
    + apply (wr_good _ _ _ _ Hw).
    + split; [apply (wr_bytes _ _ _ _ Hw)|apply word_bytes].
    + rewrite (wr_text _ _ _ _ Hw), text_word by lia. f_equal. lia.
    + symmetry. apply (wr_holds _ _ _ _ Hw).
    + exists m. split; [lia|]. done.
  - eexists _, t, dest. split; [done|]. split; [by exists xs|]. split; [done|]. cbn. lia.
Qed.

(** A match is complete: offset, length, and the text behind it. *)
Lemma match_written xs l token ip ref op t dest ip' d1 : LZ4_compressBound iend <= size dest ->
  pending xs l token ip ref op t dest -> counted (ip + 4) (ref + 4) ip' ->
  write dest op (le_bytes 2 (u16 (ip - ref))) = Some d1 ->
  exists op2 d2, put_match_length token (ip' - (ip + 4)) (op + 2) d1 = Some (op2, d2) /\ size d2 = size dest /\
    written (xs ++ [(l, ip - ref, ip' - (ip + 4))]) ip' op2 d2.
Proof.
  pose proof mflimit_eq as Hmf. pose proof matchlimit_eq as Hml.
  intros Hd Hpe (Hip' & Hc & _) Ew. pose proof Hpe as [Hg [Hbx Hbl] Ht -> Hh Hop [Hr HD] Hm (m & Hmm & Hcm & Hb)].
  unfold LZ4_compressBound in Hd. set (ml := ip' - (ip + 4)). set (D := ip - ref) in Ew |- *.
  assert (0 <= iend / 255) as Hn0 by (apply Z.div_pos; lia).
  pose proof (Z.div_le_mono ip' iend 255) as Hmono. pose proof (Z.div_le_mono ip ip' 255) as Hmono2.
  destruct (put_bytes _ op dest (le_bytes 2 (u16 D)) Hh) as (d & E & Hs & Hh1); [change (size (le_bytes 2 (u16 D))) with 2; lia|].
  rewrite E in Ew. injection Ew as <-. rewrite (wrapu_small 16) in Hh1 by (unfold in_u, D; lia).
  change (size (le_bytes 2 D)) with 2 in Hh1.
  destruct (length_bytes_bound ml) as [[Hl0 Hl1] Hl2]; [unfold ml; lia|].
  unfold head_bytes in Hh1. rewrite Z.add_0_r, <- app_assoc in Hh1. cbn [app] in Hh1. pose proof (size_nonneg l) as Hln.
  destruct (put_match_length_spec (sequences_bytes xs) (nibble (size l) * 16)
    ((length_bytes (size l) ++ l) ++ le_bytes 2 D) (op + 2) d ml Hh1) as (d2 & E2 & Hs2 & Hh2);
    [unfold ml; lia|pose proof (nibble_range (size l)); lia|pose proof (nibble_range (size l)); lia|lia|].
  exists (op + 2 + size (length_bytes ml)), d2. split; [exact E2|]. split; [lia|].
  assert (common ref ip (ml + 4)) as Hcall.
  { replace (ml + 4) with (4 + ml) by lia. apply common_app; [lia| |exact Hc]. eapply common_le; [|exact Hcm]. lia. }
  assert (play1 (play xs []) (l, D, ml) = text ip') as Hplay.
  { cbn [play1]. rewrite Ht. unfold text, D. replace (Z.to_nat (ml + 4)) with (Z.to_nat (ml + 4)) by lia.
    rewrite lz_copy_text by (try lia; rewrite Z2Nat.id by (unfold ml; lia); (done || (unfold ml; lia))).
    f_equal. unfold ml. lia. }
  assert (size (play xs [] ++ l) = ip) as Hsz by (rewrite Ht, size_text; lia).
  split.
  - apply good_block_snoc; [done|]. unfold good_sequence. rewrite Hsz, Hplay, size_text by lia. unfold ml, D. lia.
  - rewrite block_bytes_snoc. apply Forall_app. split; [done|]. apply bytes_sequence; [done|unfold ml; lia].
  - by rewrite play_snoc.
  - rewrite block_bytes_snoc. unfold sequence_bytes, head_bytes.
    assert ((sequences_bytes xs ++ ((nibble (size l) * 16 + nibble ml :: length_bytes (size l) ++ l) ++ le_bytes 2 D ++ length_bytes ml)) =
      sequences_bytes xs ++ nibble (size l) * 16 + nibble ml :: ((length_bytes (size l) ++ l) ++ le_bytes 2 D) ++ length_bytes ml) as ->; [|exact Hh2].
    f_equal. cbn [app]. by rewrite <- !app_assoc.
  - unfold ml in *. lia.
  - lia.
  - intros _. lia.
Qed.

Lemma step_next token ip ref op t dest : LZ4_compressBound iend <= size dest ->
  inv (NextMatch token ip ref op) t dest ->
  exists x' t' dest', step v src (NextMatch token ip ref op) t dest = Some (x', t', dest') /\ inv x' t' dest' /\
    size dest' = size dest /\ todo x' < todo (NextMatch token ip ref op).
Proof.
  pose proof mflimit_eq as Hmf. pose proof matchlimit_eq as Hml.
  intros Hd (xs & l & Hpe). pose proof Hpe as [_ _ _ _ Hh Hop [Hr HD] Hm (m & Hmm & Hcm & Hb)]. cbn [step]. unfold MINMATCH.
  assert (0 <= iend / 255) as Hn0 by (apply Z.div_pos; lia). pose proof (Z.div_le_mono ip iend 255) as Hmono0.
  destruct (put_bytes _ op dest (le_bytes 2 (u16 (ip - ref))) Hh) as (d1 & Ew & Hs1 & _);
    [change (size (le_bytes 2 (u16 (ip - ref)))) with 2; unfold LZ4_compressBound in Hd; lia|].
  rewrite Ew. cbn [mbind option_bind].
  destruct (count_spec (Z.to_nat (iend - (ip + 4))) (ip + 4) (ref + 4)) as (ip' & -> & Hc); [lia..|]. cbn [mbind option_bind].
  assert (m + 4 <= ip') as Hm4.
  { apply (counted_max (ip + 4) (ref + 4)); [done|lia|lia|lia|]. intros i Hi.
    replace (ref + 4 + i) with (ref + (4 + i)) by lia. replace (ip + 4 + i) with (ip + (4 + i)) by lia. apply Hcm. lia. }
  destruct (match_written xs l token ip ref op t dest ip' d1 Hd Hpe Hc Ew) as (op2 & d2 & -> & Hs2 & Hw). cbn [mbind option_bind].
  pose proof (wr_anchor _ _ _ _ Hw) as Hip'. pose proof (wr_op _ _ _ _ Hw) as Hop2. unfold LZ4_compressBound in Hd.
  pose proof (Z.div_le_mono ip' iend 255) as Hmono. set (xs' := xs ++ _) in Hw.
  destruct (Z.ltb_spec mflimit ip').
  { eexists _, t, d2. split; [done|]. split; [by exists xs'|]. split; [done|]. cbn. lia. }
  destruct (hash_spec (ip' - 2)) as (h2 & ->); [lia..|]. cbn [mbind option_bind].
  destruct (hash_spec ip') as (h & ->); [lia..|]. cbn [mbind option_bind].
  assert (below (enter v h2 (ip' - 2) t) ip') as Hb1 by (apply (below_enter t (m + 1)); [done|lia..]).
  set (t1 := enter v h2 (ip' - 2) t) in *. pose proof (Hb1 h) as Href. set (ref' := lookup_table t1 h) in *.
  assert (below (enter v h ip' t1) (ip' + 1)) as Hb2 by (apply (below_enter t1 ip'); [done|lia..]).
  assert (exists b, (if next_ok v ref' ip' then equal src 4 ref' ip' else Some false) = Some b /\
    (b = true -> ip' - ref' < 2 ^ 16 /\ common ref' ip' 4)) as (b & -> & Hbt).
  { destruct (next_ok v ref' ip') eqn:E; [|by exists false].
    destruct (equal_spec 4 ref' ip') as (b & -> & Hbc); [lia..|]. exists b. split; [done|]. intros Eb.
    split; [by apply Hnext|by apply Hbc]. }
  cbn [mbind option_bind]. destruct b.
  - destruct (Hbt eq_refl) as [HD' Hc4]. destruct (put1 _ op2 d2 0 (wr_holds _ _ _ _ Hw)) as (d3 & -> & Hs3 & Hh3); [lia|].
    cbn [mbind option_bind]. eexists _, _, d3. split; [done|]. split; [|split; [lia|cbn; lia]].
    exists xs', []. destruct Hw as [Hg Hbx Ht Hh2 _ _ _]. split.
    + done.
    + split; [done|constructor].
    + by rewrite app_nil_r.
    + symmetry. apply Hh2.
    + exact Hh3.
    + lia.
    + lia.
    + lia.
    + exists ip'. rewrite Z.sub_diag, Z.add_0_r. split; [lia|]. done.
  - destruct (hash_spec (ip' + 1)) as (h' & ->); [lia..|]. cbn [mbind option_bind]. eexists _, _, d2. split; [done|].
    split; [|split; [done|cbn; lia]]. exists xs'. split; [done|]. split; [lia|done].
Qed.

(** A finished block. *)
Definition finished (n : Z) (dest : list Z) : Prop :=
  exists xs l, good_block max [] xs /\ play xs [] ++ l = src /\ holds (sequences_bytes xs ++ head_bytes 0 l) n dest /\
    (xs <> [] -> 5 <= size l) /\ Forall (in_u 8) (sequences_bytes xs ++ head_bytes 0 l) /\ n <= LZ4_compressBound iend.

Lemma last_literals_spec xs anchor op dest : LZ4_compressBound iend <= size dest -> written xs anchor op dest ->
  exists n dest', last_literals src anchor op dest = Some (n, dest') /\ size dest' = size dest /\ finished n dest'.
Proof.
  pose proof matchlimit_eq as Hml. unfold LZ4_compressBound. intros Hd [Hg Hbx Ht Hh Hop Ha Hlast]. unfold last_literals.
  set (n := iend - anchor). destruct (length_bytes_bound n) as [[Hl0 Hl1] _]; [lia|].
  pose proof (div255_add anchor n) as Hsum. replace (anchor + n) with iend in Hsum by lia.
  assert (0 <= iend / 255) as Hn0 by (apply Z.div_pos; lia).
  destruct (put_token_spec n op dest _ Hh) as (d1 & -> & Hs1 & Hh1); [lia|lia|]. cbn [mbind option_bind].
  rewrite read_Some by (unfold Lz4Enc.iend in *; lia). cbn [mbind option_bind]. fold (word n anchor).
  assert (size (word n anchor) = n) as Hsw by (apply size_word; lia).
  destruct (put_bytes _ _ d1 (word n anchor) Hh1) as (d2 & -> & Hs2 & Hh2); [lia|]. cbn [mbind option_bind].
  rewrite Hsw in Hh2. eexists _, d2. split; [done|]. split; [lia|]. exists xs, (word n anchor).
  split; [done|]. split; [|split; [|split; [|split]]].
  - rewrite Ht, text_word by lia. unfold text. apply take_ge. unfold n, Lz4Enc.iend, size in *. lia.
  - unfold head_bytes. rewrite Z.add_0_r, Hsw. by rewrite <- app_assoc in Hh2.
  - intros Hx. specialize (Hlast Hx). lia.
  - apply Forall_app. split; [done|]. apply bytes_head; [lia|apply word_bytes].
  - unfold LZ4_compressBound. lia.
Qed.

Lemma steps_spec fuel x t dest : LZ4_compressBound iend <= size dest -> inv x t dest -> todo x <= Z.of_nat fuel ->
  exists n dest', steps v src fuel x t dest = Some (n, dest') /\ size dest' = size dest /\ finished n dest'.
Proof.
  pose proof mflimit_eq as Hmf.
  revert x t dest. induction fuel as [|fuel IH]; intros x t dest Hd Hi Hf.
  - destruct x as [ip fh anchor op|token ip ref op|anchor op]; cbn [steps todo] in *.
    + destruct Hi as (xs & _ & Hip & _). lia.
    + destruct Hi as (xs & l & Hpe). pose proof (pe_ip _ _ _ _ _ _ _ _ Hpe). lia.
    + destruct Hi as (xs & Hw). by apply (last_literals_spec xs).
  - destruct x as [ip fh anchor op|token ip ref op|anchor op]; cbn [steps].
    + destruct (step_search ip fh anchor op t dest Hd Hi) as (x' & t' & d' & -> & Hi' & Hs & Ht). cbn [mbind option_bind].
      rewrite <- Hs. apply IH; [lia|done|lia].
    + destruct (step_next token ip ref op t dest Hd Hi) as (x' & t' & d' & -> & Hi' & Hs & Ht). cbn [mbind option_bind].
      rewrite <- Hs. apply IH; [lia|done|lia].
    + destruct Hi as (xs & Hw). by apply (last_literals_spec xs).
Qed.

Lemma compress_finishes dest : LZ4_compressBound iend <= size dest ->
  exists n dest', compress v src dest = Some (n, dest') /\ size dest' = size dest /\ finished n dest'.
Proof.
  pose proof mflimit_eq as Hmf. intros Hd. unfold compress, MINLENGTH, MFLIMIT, COPYLENGTH, MINMATCH.
  assert (written [] 0 0 dest) as Hw.
  { split; [done|constructor|done| |done|unfold Lz4Enc.iend; pose proof (size_nonneg src); lia|done]. split; [done|apply prefix_nil]. }
  destruct (Z.ltb_spec iend (8 + 4 + 1)); [by apply (last_literals_spec [])|].
  assert (exists t, (if enter_first v then h ← LZ4_HASH_VALUE v src 0; Some (enter v h 0 ∅) else Some ∅) = Some t /\ below t 1) as (t & -> & Ht).
  { assert (below ∅ 1) as H0 by (intros h; unfold lookup_table; rewrite lookup_empty; cbn; lia).
    destruct (enter_first v); [|by exists ∅]. destruct (hash_spec 0) as (h & ->); [lia..|]. cbn [mbind option_bind].
    eexists. split; [done|]. by apply (below_enter ∅ 1); [|lia..]. }
  cbn [mbind option_bind]. destruct (hash_spec 1) as (h & ->); [lia..|]. cbn [mbind option_bind].
  apply steps_spec; [done| |cbn; unfold Lz4Enc.iend, size; lia].
  exists []. split; [done|]. split; [lia|done].
Qed.

End Proofs.
(** ** The round trip *)

Lemma good_block_length max out xs : good_block max out xs -> (length xs <= length (sequences_bytes xs))%nat.
Proof.
  revert out. induction xs as [|[[l D] ml] xs IH]; intros out; cbn; [lia|]. intros [_ H]. specialize (IH _ H).
  unfold sequences_bytes in *. rewrite length_app. cbn. lia.
Qed.

(** What a finished block decompresses to. *)
Lemma finished_decodes src max n dest dest2 : size dest2 = max -> size src <= max ->
  Forall (in_u 8) src -> LZ4_compressBound (size src) <= 2 ^ 22 -> finished src max n dest ->
  0 < n /\ exists dest2', LZ4_uncompress_unknownOutputSize (take (Z.to_nat n) dest) dest2 = Some (size src, dest2') /\
    size dest2' = max /\ src `prefix_of` dest2'.
Proof.
  intros Hd Hs Hsrc Hb (xs & l & Hg & Hpl & [Hsz Hpre] & Hl & Hby & Hn). unfold iend in Hn.
  assert (take (Z.to_nat n) dest = sequences_bytes xs ++ head_bytes 0 l) as E.
  { destruct Hpre as [r ->]. rewrite <- Hsz. unfold size. by rewrite Nat2Z.id, take_app_length. }
  rewrite E. split; [rewrite <- Hsz, size_app; unfold head_bytes; pose proof (size_nonneg (sequences_bytes xs)); unfold size; cbn [length]; lia|].
  unfold LZ4_uncompress_unknownOutputSize. set (b := sequences_bytes xs ++ head_bytes 0 l) in *.
  destruct (rounds_spec (length b) b 0 0 dest2 Hby) as (k & d & -> & Hs2 & _ & H);
    [lia|unfold size; lia|unfold size; lia|unfold size; lia|].
  specialize (H [] eq_refl (prefix_nil _)). cbn [Z.to_nat drop] in H. unfold b in H.
  rewrite (decode_block _ _ xs l []) in H; [|by rewrite Hd|rewrite Hpl; lia|done|].
  - rewrite Hpl in H. destruct H as [-> H]. exists d. split; [done|]. split; [lia|done].
  - pose proof (good_block_length _ _ _ Hg). rewrite length_app. unfold head_bytes. cbn [length]. lia.
Qed.

Lemma LZ4_compress_spec src dest max : Forall (in_u 8) src -> size src <= 2 ^ 31 -> size src <= max ->
  LZ4_compressBound (size src) <= size dest ->
  exists n dest', LZ4_compress src dest = Some (n, dest') /\ size dest' = size dest /\ finished src max n dest'.
Proof.
  intros Hsrc Hs Hmax Hd. unfold LZ4_compress. change (size src) with (iend src) in *.
  pose proof (mflimit_eq src) as Hm. unfold LZ4_64KLIMIT, MFLIMIT, COPYLENGTH, MINMATCH.
  destruct (Z.ltb_spec (iend src) (2 ^ 16 + (8 + 4 - 1))) as [Hk|Hk]; apply compress_finishes; try done.
  - intros ip Hip. apply wrapu_small. unfold in_u. lia.
  - intros ref ip Hr Hip _. lia.
  - intros ref ip Hr Hip _. lia.
  - intros ip Hip. apply wrapu_small. unfold in_u. lia.
  - intros ref ip Hr Hip H. cbn in H. apply negb_true_iff in H. unfold MAX_DISTANCE in H. lia.
  - intros ref ip Hr Hip H. cbn in H. unfold MAX_DISTANCE in H. lia.
Qed.

(** C5: what [LZ4_compress] makes of any bytes, in a buffer of the size that [LZ4_compressBound]
    says, [LZ4_uncompress_unknownOutputSize] turns back into these bytes, in any buffer that is
    large enough: both return, all accesses are inside the buffers - the copies of eight bytes at
    a time included - and the block is not longer than the bound. *)
Theorem lz4_round_trip src dest dest2 : Forall (in_u 8) src -> size src <= 2 ^ 21 ->
  LZ4_compressBound (size src) <= size dest -> size src <= size dest2 ->
  exists n dest', LZ4_compress src dest = Some (n, dest') /\ size dest' = size dest /\
    0 < n <= LZ4_compressBound (size src) /\
    exists dest2', LZ4_uncompress_unknownOutputSize (take (Z.to_nat n) dest') dest2 = Some (size src, dest2') /\
      size dest2' = size dest2 /\ src `prefix_of` dest2'.
Proof.
  intros Hsrc Hs Hd Hd2. destruct (LZ4_compress_spec src dest (size dest2) Hsrc) as (n & d & -> & Hsd & Hf); [lia..|].
  assert (LZ4_compressBound (size src) <= 2 ^ 22) as Hb.
  { unfold LZ4_compressBound. pose proof (Z.div_le_mono (size src) (2 ^ 21) 255). change (2 ^ 21 / 255) with 8224 in *. lia. }
  destruct (finished_decodes src (size dest2) n d dest2 eq_refl Hd2 Hsrc Hb Hf) as (Hn & d2 & E2 & Hs2 & Hp).
  exists n, d. split; [done|]. split; [done|]. destruct Hf as (_ & _ & _ & _ & _ & _ & _ & Hle). split; [done|].
  exists d2. done.
Qed.

Definition phrase : list Z := concat (replicate 6 [97; 98; 99; 100; 101; 102; 103]) ++ [49; 50; 51; 52; 53; 54; 55; 56].

Lemma lz4_round_trip_witness :
  exists n dest', LZ4_compress phrase (replicate 80 7) = Some (n, dest') /\
    exists dest2', LZ4_uncompress_unknownOutputSize (take (Z.to_nat n) dest') (replicate 60 9) = Some (50, dest2') /\
      phrase `prefix_of` dest2'.
Proof.
  destruct (lz4_round_trip phrase (replicate 80 7) (replicate 60 9)) as (n & d & E & _ & _ & d2 & E2 & _ & H).
  - cbn. repeat constructor; unfold in_u; cbn; lia.
  - vm_compute. discriminate.
  - vm_compute. discriminate.
  - vm_compute. discriminate.
  - exists n, d. split; [exact E|]. exists d2. split; [exact E2|exact H].
Defined.

(** Without a repetition nothing is found, and the block is longer than the text. *)
Example incompressible :
  fst <$> LZ4_compress (Z.of_nat <$> seq 0 40) (replicate 60 0) = Some 42.
Proof. vm_compute. reflexivity. Qed.

(** ** The codec of the block streams

    [LZ4OutputStream] and [LZ4InputStream] of [block_wrappers.cpp]: [junk n] is what is in a new
    buffer of [n] bytes. *)
Section Codec.
Context (junk : Z -> list Z) (size_junk : forall n, 0 <= n -> size (junk n) = n).

Definition MaxCompressedLength (input_size : Z) : Z := LZ4_compressBound input_size.

Definition lz4_RawCompress (b : list Z) : list Z :=
  match LZ4_compress b (junk (MaxCompressedLength (size b))) with
  | Some (n, dest) => take (Z.to_nat n) dest
  | None => []
  end.

Definition lz4_RawUncompress (b : list Z) : Z * list Z :=
  match LZ4_uncompress_unknownOutputSize b (junk Blocks.BLOCKSIZE) with
  | Some (n, dest) => (n, take (Z.to_nat n) dest)
  | None => (0, [])
  end.

Instance lz4_codec : Codec := {| RawCompress := lz4_RawCompress; RawUncompress := lz4_RawUncompress |}.

(** LZ4 keeps what the block streams ask of a codec. *)
Instance lz4_laws : Blocks.CodecLaws.
Proof.
  assert (forall b, Z.of_nat (length b) <= Blocks.BLOCKSIZE -> Forall (in_u 8) b ->
    exists n dest, LZ4_compress b (junk (MaxCompressedLength (size b))) = Some (n, dest) /\ finished b Blocks.BLOCKSIZE n dest) as Hc.
  { intros b Hl Hb. unfold Blocks.BLOCKSIZE in *. fold (size b) in Hl. pose proof (size_nonneg b) as H0.
    assert (0 <= size b / 255) by (apply Z.div_pos; lia).
    destruct (LZ4_compress_spec b (junk (MaxCompressedLength (size b))) (64 * 1024) Hb) as (n & d & E & _ & Hf);
      [lia|lia|rewrite size_junk; unfold MaxCompressedLength, LZ4_compressBound; lia|]. eauto. }
  assert (forall b, Z.of_nat (length b) <= Blocks.BLOCKSIZE -> LZ4_compressBound (size b) <= 2 * Blocks.BLOCKSIZE) as Hbound.
  { intros b Hl. unfold Blocks.BLOCKSIZE, LZ4_compressBound in *. fold (size b) in Hl.
    pose proof (Z.div_le_mono (size b) (64 * 1024) 255). change (64 * 1024 / 255) with 257 in *. lia. }
  split; cbn [RawCompress RawUncompress lz4_codec]; intros b Hl Hb; destruct (Hc b Hl Hb) as (n & d & E & Hf);
    unfold lz4_RawCompress; rewrite E; pose proof (Hbound b Hl) as Hbb; unfold Blocks.BLOCKSIZE in *.
  - destruct (finished_decodes b (64 * 1024) n d (junk (64 * 1024))) as (Hn & d2 & E2 & Hs2 & Hp);
      [by apply size_junk|exact Hl|done|lia|exact Hf|].
    unfold lz4_RawUncompress, Blocks.BLOCKSIZE. rewrite E2. f_equal. destruct Hp as [r ->].
    unfold size. by rewrite Nat2Z.id, take_app_length.
  - destruct Hf as (_ & _ & _ & _ & _ & _ & _ & Hle). unfold iend in Hle. rewrite length_take. lia.
Qed.
End Codec.

End Lz4Enc.
