(* ===== verification/Worker.v ===== *)
(** * Worker: one thread and its task queue ([src/worker/worker.h], [src/worker/worker.cpp])

    The worker thread and the threads that post to it run as interleaved steps: [step] is
    one atomic action (a queue operation, a test of a flag, one task).  The queue is the
    third-party [ConcurrentQueue]: what one producer puts in comes out in this order, and
    tasks of different producers come out in any order.  The trace records what happened. *)

From S2P Require Import Prelude ConcQueue.

Module Worker.

(** ** State *)

Inductive WorkerType := NORMAL | MAIN.

(** A task is a closure.  Two of them act on the worker itself: the one of
    [CleanupInWorkerThread], and the one that takes the reply to an RPC.  What other tasks
    post is posted by steps of the producer that stands for the worker thread. *)
Inductive Task := User (id : nat) | Cleanup | Reply (local_seq : Z).

#[export] Instance Task_eq_dec : EqDecision Task.
Proof. solve_decision. Defined.

Record state := mkWorker {
  worker_type : WorkerType;
  index : Z;
  executor_ : bool;     (* [executor_] has been made *)
  has_logic : bool;
  events : list (nat * Task);
  runing : bool;
  shutting_down : bool;
  rpc_seq_counter : Z;
  pending_rpcs : gmap Z nat;
}.

(** The constructor: index 0 and no executor until [Init], not running, sequence numbers from 1. *)
Definition make (t : WorkerType) (logic : bool) : state := mkWorker t 0 false logic [] false false 1 ∅.

Definition set_events (q : list (nat * Task)) (w : state) : state :=
  mkWorker (worker_type w) (index w) (executor_ w) (has_logic w) q (runing w) (shutting_down w)
    (rpc_seq_counter w) (pending_rpcs w).

Definition set_runing (b : bool) (w : state) : state :=
  mkWorker (worker_type w) (index w) (executor_ w) (has_logic w) (events w) b (shutting_down w)
    (rpc_seq_counter w) (pending_rpcs w).

Definition set_rpcs (n : Z) (m : gmap Z nat) (w : state) : state :=
  mkWorker (worker_type w) (index w) (executor_ w) (has_logic w) (events w) (runing w) (shutting_down w) n m.

(** ** Operations *)

Definition Init (i : Z) (w : state) : state :=
  mkWorker (worker_type w) (u32 i) true (has_logic w) (events w) (runing w) (shutting_down w)
    (rpc_seq_counter w) (pending_rpcs w).

Definition OnStart (w : state) : state := set_runing true w.

Definition Stop (w : state) : state := set_runing false w.

Definition EnterShutdownMode (w : state) : state :=
  mkWorker (worker_type w) (index w) (executor_ w) (has_logic w) (events w) (runing w) true
    (rpc_seq_counter w) (pending_rpcs w).

Definition OnCleanup (w : state) : state := Stop w.

(** The guards of [EnqueueTask]; an empty [std::function] is [None]. *)
Definition guard_handler (handler : option Task) : bool :=
  match handler with Some _ => true | None => false end.
Definition guard_shutdown (force : bool) (w : state) : bool := force || negb (shutting_down w).

Definition enqueue (p : nat) (t : Task) (w : state) : state := set_events (events w ++ [(p, t)]) w.

(** [EnqueueTask] when no other thread interferes. *)
Definition EnqueueTask (p : nat) (handler : option Task) (force : bool) (w : state) : bool * state :=
  match handler with
  | None => (false, w)
  | Some t =>
      if negb (guard_shutdown force w) then (false, w)
      else if negb (runing w) then (false, w)
      else (true, enqueue p t w)
  end.

(** [Post] ignores the result. *)
Definition Post (p : nat) (handler : option Task) (w : state) : state :=
  snd (EnqueueTask p handler false w).

(** What [CleanupInWorkerThread] does before it waits: [Some] is a result, [None] waits for
    the task. *)
Definition CleanupInWorkerThread (p : nat) (w : state) : option bool * state :=
  match worker_type w with
  | MAIN => (Some true, OnCleanup w)
  | NORMAL =>
      if negb (runing w) then (Some true, w)
      else
        let '(ok, w') := EnqueueTask p (Some Cleanup) true w in
        (if ok then None else Some false, w')
  end.

(** RPC sequence numbers and the calls that wait for a reply. *)
Definition AllocRpcSeq (w : state) : Z * state :=
  (rpc_seq_counter w, set_rpcs (u32 (rpc_seq_counter w + 1)) (pending_rpcs w) w).

Definition StorePendingRpc (local_seq : Z) (call : nat) (w : state) : state :=
  set_rpcs (rpc_seq_counter w) (<[local_seq := call]> (pending_rpcs w)) w.

Definition TakePendingRpc (local_seq : Z) (w : state) : option nat * state :=
  match pending_rpcs w !! local_seq with
  | None => (None, w)
  | Some call => (Some call, set_rpcs (rpc_seq_counter w) (delete local_seq (pending_rpcs w)) w)
  end.

(** ** The threads *)

(** Where the worker thread is: before [OnStart], at the head of the loop of [Run], in the
    task loop of [OnUpdate], before [worker_logic_->OnUpdate], before [OnTick], in the wait
    at the end of a frame, and after [Run]. *)
Inductive position := New | Head | Tasks | Logic | Tick | Wait | Exited.

(** A producer inside [EnqueueTask]: before the test of [runing_], or before [enqueue]. *)
Inductive stage := Guarded (t : Task) | Checked (t : Task).

Inductive event :=
  | Accepted (p : nat) (t : Task)      (* [EnqueueTask] returned true *)
  | Rejected (p : nat)                 (* [EnqueueTask] returned false *)
  | Ran (p : nat) (t : Task)
  | RpcDone (call : nat)               (* [call->Done] *)
  | LogicUpdate | LogicTick | LogicCleanup
  | Exit.

Record system := mkSystem {
  worker : state;
  pos : position;
  producers : gmap nat stage;
  trace : list event;
}.

Definition start (t : WorkerType) (logic : bool) : system := mkSystem (make t logic) New ∅ [].

(** Running a task; [OnCleanup] of the cleanup task, [TakePendingRpc] and [Done] of a reply. *)
Definition run_task (p : nat) (t : Task) (w : state) : state * list event :=
  match t with
  | User _ => (w, [Ran p t])
  | Cleanup => (OnCleanup w, Ran p t :: if has_logic w then [LogicCleanup] else [])
  | Reply local_seq =>
      let '(call, w') := TakePendingRpc local_seq w in
      (w', Ran p t :: match call with Some c => [RpcDone c] | None => [] end)
  end.

Inductive label :=
  | LStart (i : Z)         (* [Init] and [OnStart] *)
  | LHead                  (* [runing_] is set: a frame begins *)
  | LTask (i : nat)        (* a task is taken and run *)
  | LEmpty                 (* [try_dequeue] finds nothing *)
  | LLogic | LTick | LWait
  | LStop | LShutdown      (* other threads *)
  | LCall (p : nat) (handler : option Task) (force : bool)
  | LGuard (p : nat)
  | LEnqueue (p : nat).

Definition takes_tasks (s : system) : bool :=
  match pos s with
  | Head => negb (runing (worker s))
  | Tasks => true
  | _ => false
  end.

Definition step (l : label) (s : system) : option system :=
  let w := worker s in
  match l with
  | LStart i =>
      match pos s with
      | New => Some (mkSystem (OnStart (Init i w)) Head (producers s) (trace s))
      | _ => None
      end
  | LHead =>
      match pos s with
      | Head => if runing w then Some (mkSystem w Tasks (producers s) (trace s)) else None
      | _ => None
      end
  | LTask i =>
      if takes_tasks s then
        '(p, t, q) ← try_dequeue i (events w);
        let '(w', es) := run_task p t (set_events q w) in
        Some (mkSystem w' (pos s) (producers s) (trace s ++ es))
      else None
  | LEmpty =>
      match events w with
      | [] =>
          if takes_tasks s then
            match pos s with
            | Head => Some (mkSystem w Exited (producers s) (trace s ++ [Exit]))
            | _ => Some (mkSystem w Logic (producers s) (trace s))
            end
          else None
      | _ => None
      end
  | LLogic =>
      match pos s with
      | Logic => Some (mkSystem w Tick (producers s)
                         (trace s ++ if has_logic w then [LogicUpdate] else []))
      | _ => None
      end
  | LTick =>
      match pos s with
      | Tick => Some (mkSystem w Wait (producers s)
                        (trace s ++ if has_logic w then [LogicTick] else []))
      | _ => None
      end
  | LWait =>
      match pos s with
      | Wait => Some (mkSystem w Head (producers s) (trace s))
      | _ => None
      end
  | LStop => Some (mkSystem (Stop w) (pos s) (producers s) (trace s))
  | LShutdown => Some (mkSystem (EnterShutdownMode w) (pos s) (producers s) (trace s))
  | LCall p handler force =>
      match producers s !! p, handler with
      | Some _, _ => None
      | None, None => Some (mkSystem w (pos s) (producers s) (trace s ++ [Rejected p]))
      | None, Some t =>
          if guard_shutdown force w
          then Some (mkSystem w (pos s) (<[p := Guarded t]> (producers s)) (trace s))
          else Some (mkSystem w (pos s) (producers s) (trace s ++ [Rejected p]))
      end
  | LGuard p =>
      match producers s !! p with
      | Some (Guarded t) =>
          if runing w then Some (mkSystem w (pos s) (<[p := Checked t]> (producers s)) (trace s))
          else Some (mkSystem w (pos s) (delete p (producers s)) (trace s ++ [Rejected p]))
      | _ => None
      end
  | LEnqueue p =>
      match producers s !! p with
      | Some (Checked t) =>
          Some (mkSystem (enqueue p t w) (pos s) (delete p (producers s)) (trace s ++ [Accepted p t]))
      | _ => None
      end
  end.

Abbreviation exec := (run_steps step).

(** ** What the trace says *)

Definition accepted (p : nat) (tr : list event) : list Task :=
  omap (fun e => match e with Accepted p' t => if Nat.eqb p' p then Some t else None | _ => None end) tr.

Definition ran (p : nat) (tr : list event) : list Task :=
  omap (fun e => match e with Ran p' t => if Nat.eqb p' p then Some t else None | _ => None end) tr.

Definition all_accepted (tr : list event) : list (nat * Task) :=
  omap (fun e => match e with Accepted p t => Some (p, t) | _ => None end) tr.

(** What follows the first [LogicCleanup], and the first [Exit]. *)
Fixpoint after (is_mark : event -> bool) (tr : list event) : list event :=
  match tr with
  | [] => []
  | e :: r => if is_mark e then r else after is_mark r
  end.

Definition is_cleanup (e : event) : bool := match e with LogicCleanup => true | _ => false end.
Definition is_exit (e : event) : bool := match e with Exit => true | _ => false end.
Definition is_logic (e : event) : bool := match e with LogicUpdate | LogicTick => true | _ => false end.

Definition logic_calls (tr : list event) : list event := List.filter is_logic tr.

(** ** Lemmas on traces and queues *)

Lemma accepted_app p a b : accepted p (a ++ b) = accepted p a ++ accepted p b.
Proof. apply omap_app. Qed.
Lemma ran_app p a b : ran p (a ++ b) = ran p a ++ ran p b.
Proof. apply omap_app. Qed.
Lemma all_accepted_app a b : all_accepted (a ++ b) = all_accepted a ++ all_accepted b.
Proof. apply omap_app. Qed.
Lemma logic_calls_app a b : logic_calls (a ++ b) = logic_calls a ++ logic_calls b.
Proof. apply List.filter_app. Qed.

Lemma after_app_in m a b : existsb m a = true -> after m (a ++ b) = after m a ++ b.
Proof.
  induction a as [|e r IH]; simpl; [done|]. destruct (m e); simpl; [done|apply IH].
Qed.
Lemma after_app_out m a b : existsb m a = false -> after m (a ++ b) = after m b.
Proof.
  induction a as [|e r IH]; simpl; [done|]. destruct (m e); simpl; [done|apply IH].
Qed.

Lemma run_task_events p t w w' es :
  run_task p t w = (w', es) -> events w' = events w /\ all_accepted es = [] /\
  (forall p', accepted p' es = []) /\ (forall p', ran p' es = if Nat.eqb p p' then [t] else []) /\
  existsb is_exit es = false.
Proof.
  destruct t; unfold run_task, TakePendingRpc; try (destruct (pending_rpcs w !! local_seq));
    intros [= <- <-]; splits; simpl; try done; intros; destruct (has_logic w); simpl; try done;
    by destruct (Nat.eqb _ _).
Qed.

(** The steps other than [LTask]: every test of the step is resolved. *)
Ltac step_inv H :=
  cbn [step worker pos producers trace] in H; try discriminate H;
  repeat match type of H with
  | context [match ?x with _ => _ end] => let X := fresh "X" in destruct x eqn:X; try discriminate H; cbn beta iota in H
  end;
  injection H as <-.

(** ** Order: tasks run in the order in which their producer handed them in *)

Definition fifo_inv (s : system) : Prop :=
  forall p, accepted p (trace s) = ran p (trace s) ++ queued p (events (worker s)).

(** [LTask], spelled out. *)
Lemma step_LTask i s s' :
  step (LTask i) s = Some s' ->
  takes_tasks s = true /\
  exists p t l1 l2 w es, events (worker s) = l1 ++ (p, t) :: l2 /\ queued p l1 = [] /\
    run_task p t (set_events (l1 ++ l2) (worker s)) = (w, es) /\
    s' = mkSystem w (pos s) (producers s) (trace s ++ es).
Proof.
  unfold step. destruct (takes_tasks s); [|done].
  destruct (try_dequeue i (events (worker s))) as [[[p t] q]|] eqn:E; simpl; [|done].
  apply try_dequeue_spec in E as (l1 & l2 & -> & -> & Hl).
  destruct (run_task p t _) as [w es] eqn:Er. intros [= <-]. split; [done|].
  by exists p, t, l1, l2, w, es.
Qed.

Lemma step_fifo l s s' : fifo_inv s -> step l s = Some s' -> fifo_inv s'.
Proof.
  unfold fifo_inv. intros Hi Hs p. specialize (Hi p). destruct l.
  3: { apply step_LTask in Hs as (_ & p0 & t & l1 & l2 & w & es & Hq & Hl & Er & ->).
    apply run_task_events in Er as (Hw & _ & Ha & Hr & _). cbn [worker trace].
    rewrite Hw, accepted_app, ran_app, Ha, Hr, app_nil_r, Hi, Hq. cbn [events set_events].
    rewrite !queued_app, <- app_assoc. f_equal. cbn.
    destruct (Nat.eqb p0 p) eqn:Ep; [|done].
    apply Nat.eqb_eq in Ep as ->. by rewrite Hl. }
  all: destruct s as [w po ps tr]; cbn [worker trace pos producers] in *; step_inv Hs;
    cbn [worker trace events set_events enqueue set_runing OnStart Init Stop EnterShutdownMode];
    rewrite ?accepted_app, ?ran_app, ?queued_app, ?Hi, ?app_nil_r, <- ?app_assoc;
    rewrite ?X; cbn [accepted ran queued omap list_omap]; by rewrite ?app_nil_r.
Qed.

(** C14: whatever the interleaving of the worker thread and the threads that post to it,
    each accepted task is run at most once, the tasks of one producer are run in the order
    in which they were accepted, and the ones that were not run are still in the queue. *)
Theorem tasks_run_in_order (ls : list label) (ty : WorkerType) (logic : bool) (s : system) :
  exec ls (start ty logic) = Some s ->
  forall p, accepted p (trace s) = ran p (trace s) ++ queued p (events (worker s)).
Proof. intros He. by apply (run_steps_invariant fifo_inv step_fifo) in He. Qed.

Definition two_producers : list label :=
  [LStart 1; LCall 1 (Some (User 7)) false; LCall 2 (Some (User 9)) false; LGuard 2;
   LGuard 1; LEnqueue 2; LEnqueue 1; LHead; LTask 1; LCall 1 (Some (User 8)) false; LGuard 1;
   LEnqueue 1].

Lemma tasks_run_in_order_witness :
  exists s, exec two_producers (start NORMAL true) = Some s /\
    accepted 1 (trace s) = [User 7; User 8] /\
    accepted 1 (trace s) = [User 7] ++ queued 1 [(2%nat, User 9); (1%nat, User 8)].
Proof.
  destruct (exec two_producers (start NORMAL true)) as [s|] eqn:E; [|by vm_compute in E].
  pose proof (tasks_run_in_order two_producers NORMAL true s E 1) as H.
  vm_compute in E. injection E as <-. eexists. split; [reflexivity|]. split; [reflexivity|exact H].
Defined.

(** ** The end of the thread *)

Definition exit_inv (s : system) : Prop :=
  match pos s with
  | Exited => existsb is_exit (trace s) = true /\
      events (worker s) = all_accepted (after is_exit (trace s))
  | _ => existsb is_exit (trace s) = false
  end.

(** The other steps of a frame, by components; [simpl_sys] computes the projections. *)
Ltac simpl_sys :=
  cbn [worker trace events pos producers runing has_logic existsb is_exit is_cleanup is_logic orb
       set_events enqueue set_runing OnStart Init Stop EnterShutdownMode] in *.

Lemma step_exit l s s' : exit_inv s -> step l s = Some s' -> exit_inv s'.
Proof.
  unfold exit_inv. intros Hi Hs. destruct l.
  3: { apply step_LTask in Hs as (Ht & p0 & t & l1 & l2 & w & es & _ & _ & Er & ->).
    apply run_task_events in Er as (_ & _ & _ & _ & Hx). simpl_sys.
    unfold takes_tasks in Ht. destruct (pos s); try done; by rewrite existsb_app, Hi, Hx. }
  all: destruct s as [w po ps tr]; simpl_sys; step_inv Hs; subst; simpl_sys; try exact Hi.
  all: rewrite ?existsb_app; simpl_sys.
  all: try (rewrite Hi; reflexivity).
  all: try (destruct po; [by rewrite Hi..|]; destruct Hi as [H1 H2];
    rewrite H1, after_app_in, all_accepted_app by done; simpl_sys; rewrite <- H2;
    split; [reflexivity|]; by rewrite ?app_nil_r).
  all: try exact Hi; try discriminate.
  rewrite after_app_out by done. split; [by rewrite orb_true_r|done].
Qed.

Lemma exit_inv_reached ls ty logic s : exec ls (start ty logic) = Some s -> exit_inv s.
Proof. intros He. by apply (run_steps_invariant exit_inv step_exit) in He. Qed.

(** Once the thread has left [Run], only producers that had already passed the test of
    [runing_] can still enqueue. *)
Definition dead (s : system) : Prop :=
  pos s = Exited /\ runing (worker s) = false.

Definition late (s : system) : Prop := exists p t, producers s !! p = Some (Checked t).

Definition exited_inv (s : system) : Prop := pos s = Exited -> runing (worker s) = false.

Lemma step_exited l s s' : exited_inv s -> step l s = Some s' -> exited_inv s'.
Proof.
  unfold exited_inv. intros Hi Hs. destruct l.
  3: { apply step_LTask in Hs as (Ht & p0 & t & l1 & l2 & w & es & _ & _ & Er & ->). simpl_sys.
    unfold takes_tasks in Ht. by destruct (pos s). }
  all: destruct s as [w po ps tr]; simpl_sys; step_inv Hs; subst; simpl_sys; try done; try exact Hi.
  2: intros Hpo; specialize (Hi Hpo); congruence.
  intros _. unfold takes_tasks in *. simpl_sys. by apply negb_true_iff.
Qed.

(** A step of a dead worker keeps every queued task, and enqueues only what was checked. *)
Lemma step_dead l s s' :
  dead s -> step l s = Some s' ->
  dead s' /\ (forall x, x ∈ events (worker s) -> x ∈ events (worker s')) /\
  (~ late s -> ~ late s' /\ events (worker s') = events (worker s)).
Proof.
  unfold dead, late. intros [Hp Hr] Hs. destruct l.
  3: { apply step_LTask in Hs as (Ht & _). unfold takes_tasks in Ht. by rewrite Hp in Ht. }
  all: destruct s as [w po ps tr]; simpl_sys; subst; step_inv Hs; subst; simpl_sys; try discriminate.
  all: try (splits; auto; fail); try congruence.
  - splits; auto. intros Hn. split; [|done]. intros (p' & t' & [[_ ?]|[_ H]]%lookup_insert_Some); [done|].
    apply Hn. by exists p', t'.
  - splits; auto. intros Hn. split; [|done]. intros (p' & t' & [_ H]%lookup_delete_Some).
    apply Hn. by exists p', t'.
  - splits; auto. { intros x Hx. apply elem_of_app. by left. }
    intros []. by exists p, t.
Qed.

(** When the worker thread ends, every task that was accepted before has been run; what
    is accepted after that (by a producer that tested [runing_] earlier) stays in the queue
    and is never run; and if no producer was between the test and the enqueue, nothing is
    ever accepted again. *)
Theorem exit_and_late_tasks (ls : list label) (ty : WorkerType) (logic : bool) (s : system) :
  exec ls (start ty logic) = Some s -> pos s = Exited ->
  (forall p, ran p (trace s) ++ queued p (all_accepted (after is_exit (trace s))) =
             accepted p (trace s)) /\
  forall more s', exec more s = Some s' ->
    (forall x, x ∈ events (worker s) -> x ∈ events (worker s')) /\
    (~ late s -> events (worker s') = events (worker s)).
Proof.
  intros He Hp. pose proof (exit_inv_reached _ _ _ _ He) as Hx. unfold exit_inv in Hx.
  rewrite Hp in Hx. destruct Hx as [_ Hx].
  assert (exited_inv s) as Hr by (eapply (run_steps_invariant exited_inv step_exited); [|exact He]; done).
  specialize (Hr Hp).
  apply (run_steps_invariant fifo_inv step_fifo) in He; [|done]. split.
  - intros p. rewrite <- Hx. symmetry. apply He.
  - assert (dead s) as Hd by done. clear He Hx Hp Hr. intros more. revert s Hd.
    induction more as [|l r IH]; intros s Hd s' He; simpl in He; [by injection He as <-|].
    destruct (step l s) as [s1|] eqn:E; simpl in He; [|done].
    destruct (step_dead _ _ _ Hd E) as (Hd1 & Hk & Hn). destruct (IH s1 Hd1 s' He) as [Hk' Hn'].
    split; [by auto|]. intros Hl. destruct (Hn Hl) as [Hl1 <-]. by apply Hn'.
Qed.

(** The task of producer 2 is accepted (its poster is told [true]) and never runs. *)
Definition lost_task : list label :=
  [LStart 1; LCall 1 (Some (User 7)) false; LGuard 1; LEnqueue 1;
   LCall 2 (Some (User 8)) false; LGuard 2; LStop; LTask 0; LEmpty; LEnqueue 2].

Lemma exit_and_late_tasks_witness :
  exists s, exec lost_task (start NORMAL false) = Some s /\
    trace s = [Accepted 1 (User 7); Ran 1 (User 7); Exit; Accepted 2 (User 8)] /\
    forall more s', exec more s = Some s' -> (2%nat, User 8) ∈ events (worker s').
Proof.
  destruct (exec lost_task (start NORMAL false)) as [s|] eqn:E; [|by vm_compute in E].
  assert (pos s = Exited /\ (2%nat, User 8) ∈ events (worker s) /\
    trace s = [Accepted 1 (User 7); Ran 1 (User 7); Exit; Accepted 2 (User 8)]) as (Hp & Hin & Ht).
  { vm_compute in E. injection E as <-. splits; [done| |done]. by left. }
  exists s. splits; [done|done|]. intros more s' Hm.
  destruct (exit_and_late_tasks lost_task NORMAL false s E Hp) as [_ H].
  by apply (H more s' Hm).
Defined.

(** ** Cleanup *)

(** What [worker_logic_] has been asked after its [OnCleanup], by the position of the
    thread. *)
Definition calls_at (po : position) (calls : list event) : Prop :=
  match po with
  | New => False
  | Tasks | Logic => calls = []
  | Tick => calls = [LogicUpdate]
  | Wait => calls = [LogicUpdate; LogicTick]
  | Head | Exited => calls = [] \/ calls = [LogicUpdate; LogicTick]
  end.

Definition cleanup_inv (s : system) : Prop :=
  existsb is_cleanup (trace s) = true ->
  has_logic (worker s) = true /\ runing (worker s) = false /\
  calls_at (pos s) (logic_calls (after is_cleanup (trace s))).

Lemma run_task_cleanup p t w w' es :
  run_task p t w = (w', es) -> has_logic w' = has_logic w /\ (runing w = false -> runing w' = false) /\
  logic_calls es = [] /\ logic_calls (after is_cleanup es) = [] /\
  (existsb is_cleanup es = true -> has_logic w = true /\ runing w' = false).
Proof.
  destruct t; unfold run_task, TakePendingRpc; try (destruct (pending_rpcs w !! local_seq));
    intros [= <- <-]; simpl; splits; auto; try done; destruct (has_logic w); simpl; auto; done.
Qed.

Lemma step_cleanup l s s' : cleanup_inv s -> step l s = Some s' -> cleanup_inv s'.
Proof.
  unfold cleanup_inv. intros Hi Hs. destruct l.
  3: { apply step_LTask in Hs as (Ht & p0 & t & l1 & l2 & w & es & _ & _ & Er & ->).
    apply run_task_cleanup in Er as (Hl & Hr & Hc & Ha & Hcl). simpl_sys. rewrite existsb_app.
    destruct (existsb is_cleanup (trace s)) eqn:E.
    - intros _. destruct (Hi eq_refl) as (H1 & H2 & H3). rewrite Hl, after_app_in by done.
      rewrite logic_calls_app, Hc, app_nil_r. splits; auto.
    - intros H. simpl in H. destruct (Hcl H) as [H1 H2]. rewrite Hl, after_app_out, Ha by done.
      splits; auto. unfold takes_tasks in Ht. destruct (pos s); try done. by left. }
  all: destruct s as [w po ps tr]; simpl_sys; step_inv Hs; subst; simpl_sys; try exact Hi.
  all: rewrite ?existsb_app; simpl_sys; rewrite ?orb_false_r; try exact Hi.
  all: intros H; destruct (Hi H) as (H1 & H2 & H3); try congruence; simpl in H3;
    rewrite ?after_app_in, ?logic_calls_app, ?H3 by done; cbn; rewrite ?app_nil_r; splits; auto; try done.
  all: try (rewrite H3; auto).
Qed.

(** The cleanup task runs in the middle of a frame: after its [OnCleanup] the worker's
    logic is still called, but at most one [OnUpdate] and one [OnTick], in this order, and
    no new frame begins. *)
Theorem logic_after_cleanup (ls : list label) (ty : WorkerType) (logic : bool) (s : system) :
  exec ls (start ty logic) = Some s ->
  logic_calls (after is_cleanup (trace s)) `prefix_of` [LogicUpdate; LogicTick] /\
  (existsb is_cleanup (trace s) = true -> runing (worker s) = false /\ step LHead s = None).
Proof.
  intros He. assert (cleanup_inv s) as Hi.
  { eapply (run_steps_invariant cleanup_inv step_cleanup); [|exact He]. done. }
  unfold cleanup_inv in Hi. destruct (existsb is_cleanup (trace s)) eqn:E.
  - destruct (Hi eq_refl) as (H1 & H2 & H3). split.
    + destruct (pos s); simpl in H3; try done; try destruct H3 as [H3|H3]; rewrite ?H3;
        try apply prefix_nil; by eexists.
    + intros _. split; [done|]. unfold step. destruct (pos s); try done. by rewrite H2.
  - split; [|done]. replace (after is_cleanup (trace s)) with (@nil event); [apply prefix_nil|].
    revert E. generalize (trace s). clear. intros tr. induction tr as [|e r IH]; simpl; [done|].
    destruct (is_cleanup e); [done|apply IH].
Qed.

Definition cleanup_in_frame : list label :=
  [LStart 1; LHead; LCall 0 (Some Cleanup) true; LGuard 0; LEnqueue 0; LTask 0; LEmpty; LLogic; LTick;
   LWait; LEmpty].

Lemma logic_after_cleanup_witness :
  exists s, exec cleanup_in_frame (start NORMAL true) = Some s /\
    trace s = [Accepted 0 Cleanup; Ran 0 Cleanup; LogicCleanup; LogicUpdate; LogicTick; Exit] /\
    [LogicUpdate; LogicTick] `prefix_of` [LogicUpdate; LogicTick].
Proof.
  destruct (exec cleanup_in_frame (start NORMAL true)) as [s|] eqn:E; [|by vm_compute in E].
  pose proof (logic_after_cleanup cleanup_in_frame NORMAL true s E) as [H _].
  vm_compute in E. injection E as <-. eexists. splits; [reflexivity|reflexivity|exact H].
Defined.

(** ** Shutdown: the thread drains its queue *)

Definition thread_label (l : label) : bool :=
  match l with LHead | LTask _ | LEmpty | LLogic | LTick | LWait => true | _ => false end.

(** From a position that takes tasks, the tasks are taken from the front. *)
Lemma drain_tasks s q :
  takes_tasks s = true -> (pos s = Tasks \/ runing (worker s) = false) -> events (worker s) = q ->
  exists s', exec (replicate (length q) (LTask 0)) s = Some s' /\ pos s' = pos s /\
    takes_tasks s' = true /\ (runing (worker s) = false -> runing (worker s') = false) /\
    events (worker s') = [] /\ (forall p, ran p (trace s') = ran p (trace s) ++ queued p q).
Proof.
  revert s. induction q as [|[p t] q IH]; intros s Ht Hp Hq; cbn [length replicate exec].
  { exists s. splits; auto. intros p. by rewrite app_nil_r. }
  cbn [step]. rewrite Ht, Hq. cbn [try_dequeue lookup list_lookup take existsb mbind option_bind app drop].
  destruct (run_task p t _) as [w es] eqn:Er. pose proof (run_task_cleanup _ _ _ _ _ Er) as (_ & Hr & _).
  apply run_task_events in Er as (Hw & _ & _ & Hran & _).
  cbn [mbind option_bind]. simpl_sys.
  destruct (IH (mkSystem w (pos s) (producers s) (trace s ++ es))) as (s' & -> & Hpos & Ht' & Hr' & He & Hran').
  - unfold takes_tasks in *. simpl_sys. destruct (pos s); try done.
    destruct Hp as [|Hp]; [done|]. by rewrite Hr.
  - simpl_sys. destruct Hp as [|Hp]; [by left|]. right. by apply Hr.
  - cbn [worker]. by rewrite Hw.
  - exists s'. splits; auto. intros p'. rewrite Hran'. simpl_sys.
    rewrite ran_app, Hran, <- app_assoc. f_equal. simpl. by destruct (Nat.eqb p p').
Qed.

Lemma replicate_thread n ls : forallb thread_label ls = true ->
  forallb thread_label (replicate n (LTask 0) ++ ls) = true.
Proof. intros H. by induction n. Qed.

(** From the head of the loop. *)
Lemma drain_head s :
  pos s = Head -> runing (worker s) = false ->
  exists ls s', forallb thread_label ls = true /\ exec ls s = Some s' /\ pos s' = Exited /\
    (length ls <= S (length (events (worker s))))%nat /\
    events (worker s') = [] /\
    (forall p, ran p (trace s') = ran p (trace s) ++ queued p (events (worker s))).
Proof.
  intros Hp Hr. assert (takes_tasks s = true) as Ht by (unfold takes_tasks; by rewrite Hp, Hr).
  destruct (drain_tasks s (events (worker s)) Ht (or_intror Hr) eq_refl) as (s1 & E1 & Hp1 & Ht1 & _ & Hq & Hran).
  exists (replicate (length (events (worker s))) (LTask 0) ++ [LEmpty]).
  eexists. split; [by apply replicate_thread|]. split.
  { rewrite (run_steps_app step _ _ _ _ E1). simpl. rewrite Hq, Ht1, Hp1, Hp. reflexivity. }
  simpl_sys. splits; auto; [rewrite length_app, length_replicate; simpl; lia|].
  intros p. by rewrite ran_app, Hran, app_nil_r.
Qed.

(** C16: once it is stopped, a worker thread that is left alone leaves [Run] within a bounded
    number of steps, wherever in its frame it was, and by then it has run every queued task. *)
Theorem stopped_worker_drains (s : system) :
  runing (worker s) = false -> pos s <> New -> pos s <> Exited ->
  exists ls s', forallb thread_label ls = true /\ exec ls s = Some s' /\ pos s' = Exited /\
    (length ls <= length (events (worker s)) + 5)%nat /\ events (worker s') = [] /\
    forall p, ran p (trace s') = ran p (trace s) ++ queued p (events (worker s)).
Proof.
  intros Hr Hn He.
  assert (forall s0 pre s1, forallb thread_label pre = true -> exec pre s0 = Some s1 ->
    runing (worker s1) = false -> pos s1 = Head -> (length pre <= 4)%nat ->
    events (worker s1) = events (worker s0) -> (forall p, ran p (trace s1) = ran p (trace s0)) ->
    exists ls s', forallb thread_label ls = true /\ exec ls s0 = Some s' /\ pos s' = Exited /\
    (length ls <= length (events (worker s0)) + 5)%nat /\ events (worker s') = [] /\
    forall p, ran p (trace s') = ran p (trace s0) ++ queued p (events (worker s0))) as Hpre.
  { clear. intros s0 pre s1 Hl E1 Hr Hp Hlen Hev Hran.
    destruct (drain_head s1 Hp Hr) as (ls & s' & Hl' & E2 & Hp' & Hn & Hq & Hran').
    exists (pre ++ ls), s'. rewrite forallb_app, Hl, Hl', (run_steps_app step _ _ _ _ E1), length_app.
    rewrite Hev in *. splits; auto; [lia|]. intros p. by rewrite Hran', Hran. }
  destruct s as [w po ps tr]. simpl_sys. destruct po; try done.
  - apply (Hpre (mkSystem w Head ps tr) [] (mkSystem w Head ps tr)); simpl; auto; lia.
  - destruct (drain_tasks (mkSystem w Tasks ps tr) (events w) eq_refl (or_introl eq_refl) eq_refl)
      as (s1 & E1 & Hp1 & Ht1 & Hr1 & Hq & Hran).
    destruct s1 as [w1 po1 ps1 tr1]. simpl_sys. subst po1.
    exists (replicate (length (events w)) (LTask 0) ++ [LEmpty; LLogic; LTick; LWait; LEmpty]).
    eexists. split; [by apply replicate_thread|]. split.
    { rewrite (run_steps_app step _ _ _ _ E1). cbn [run_steps step worker pos producers trace mbind option_bind].
      rewrite Hq. cbn [takes_tasks pos mbind option_bind worker producers trace].
      rewrite Hq. unfold takes_tasks. cbn [pos worker]. rewrite (Hr1 Hr). reflexivity. }
    simpl_sys. splits; auto; [rewrite length_app, length_replicate; simpl; lia|].
    intros p. rewrite !ran_app, Hran. destruct (has_logic w1); simpl; by rewrite !app_nil_r.
  - apply (Hpre (mkSystem w Logic ps tr) [LLogic; LTick; LWait] (mkSystem w Head ps
      ((tr ++ if has_logic w then [LogicUpdate] else []) ++ if has_logic w then [LogicTick] else [])));
      simpl; auto; try lia.
    intros p. rewrite !ran_app. destruct (has_logic w); simpl; by rewrite !app_nil_r.
  - apply (Hpre (mkSystem w Tick ps tr) [LTick; LWait] (mkSystem w Head ps (tr ++ if has_logic w then [LogicTick] else [])));
      simpl; auto; try lia.
    intros p. rewrite !ran_app. destruct (has_logic w); simpl; by rewrite !app_nil_r.
  - apply (Hpre (mkSystem w Wait ps tr) [LWait] (mkSystem w Head ps tr)); simpl; auto; lia.
Qed.

Lemma stopped_worker_drains_witness :
  exists ls s', exec ls (mkSystem (set_events [(1%nat, User 4); (2%nat, Cleanup)] (make NORMAL true)) Tasks ∅ [])
      = Some s' /\ pos s' = Exited /\ ran 1 (trace s') = [User 4].
Proof.
  destruct (stopped_worker_drains (mkSystem (set_events [(1%nat, User 4); (2%nat, Cleanup)] (make NORMAL true)) Tasks ∅ []))
    as (ls & s' & _ & H1 & H2 & _ & _ & H3); [done|done|done|].
  exists ls, s'. splits; [done|done|]. by rewrite H3.
Defined.

(** ** RPC sequence numbers *)

(** The sequence number of the [n]-th call from [w] on. *)
Definition nth_seq (n : nat) (w : state) : Z := fst (AllocRpcSeq (Nat.iter n (fun w => snd (AllocRpcSeq w)) w)).

Lemma nth_seq_eq n w :
  in_u 32 (rpc_seq_counter w) -> nth_seq n w = u32 (rpc_seq_counter w + Z.of_nat n).
Proof.
  intros Hw. unfold nth_seq. induction n as [|n IH].
  - simpl. by rewrite Z.add_0_r, wrapu_small.
  - rewrite Nat.iter_succ. unfold AllocRpcSeq in *. cbn [fst snd rpc_seq_counter set_rpcs] in *.
    rewrite IH. unfold wrapu. rewrite Zplus_mod_idemp_l. f_equal. lia.
Qed.

(** The sequence numbers of a worker count up from its counter modulo 2^32, so that the
    numbers of any 2^32 consecutive calls are distinct; the next one is the number of the
    oldest again, and storing its call drops the one that waits under that number. *)
Theorem rpc_sequences (w : state) (i j : nat) (call call' : nat) :
  in_u 32 (rpc_seq_counter w) ->
  nth_seq i w = u32 (rpc_seq_counter w + Z.of_nat i) /\
  ((i < j)%nat -> Z.of_nat j - Z.of_nat i < 2 ^ 32 -> nth_seq i w <> nth_seq j w) /\
  (Z.of_nat j = Z.of_nat i + 2 ^ 32 ->
     nth_seq j w = nth_seq i w /\
     TakePendingRpc (nth_seq i w) (StorePendingRpc (nth_seq j w) call' (StorePendingRpc (nth_seq i w) call w)) =
       (Some call', set_rpcs (rpc_seq_counter w) (delete (nth_seq i w) (pending_rpcs w)) w)).
Proof.
  intros Hw. rewrite !nth_seq_eq by done. splits; auto.
  - intros Hij Hd. unfold wrapu. intros E.
    apply (f_equal (fun z => (z - (rpc_seq_counter w + Z.of_nat i)) mod 2 ^ 32)) in E.
    rewrite !Zminus_mod_idemp_l in E.
    rewrite Z.sub_diag, Zmod_0_l, Z.mod_small in E by lia. lia.
  - intros Hj. assert (u32 (rpc_seq_counter w + Z.of_nat j) = u32 (rpc_seq_counter w + Z.of_nat i)) as ->.
    { unfold wrapu. rewrite Hj, Z.add_assoc. rewrite <- (Z.mul_1_l (2 ^ 32)) at 1. apply Z_mod_plus_full. }
    split; [done|]. unfold TakePendingRpc, StorePendingRpc, set_rpcs. simpl.
    rewrite lookup_insert_eq, insert_insert_eq, delete_insert_eq. done.
Qed.

Lemma rpc_sequences_witness :
  nth_seq 0 (make NORMAL false) = 1 /\ nth_seq 3 (make NORMAL false) <> nth_seq 5 (make NORMAL false).
Proof.
  assert (in_u 32 (rpc_seq_counter (make NORMAL false))) as Hw by (unfold in_u; simpl; lia).
  destruct (rpc_sequences (make NORMAL false) 0 1 0 0 Hw) as [H0 _].
  destruct (rpc_sequences (make NORMAL false) 3 5 0 0 Hw) as (_ & H1 & _).
  split; [exact H0|apply H1; lia].
Defined.

End Worker.
