(* ===== verification/Router.v ===== *)
(** * Workers, executors and the router ([src/worker/worker_manager.cpp],
    [src/network/rpc/executor.h], [src/network/router/router.cpp], [route_table.h])

    The [WorkerManager] owns the workers; a [WorkerExecutor] is a weak reference to one with
    a fallback; the [Router] turns a message into an executor, by the entity route table
    (stateful) or by a hash over the workers of a service type (stateless). *)

From S2P Require Import Prelude RouteTable Worker.

Module Router.

(** ** Worker manager

    Workers are shared objects; [objs] is the store of the ones that are alive. *)
Record manager := mkManager {
  objs : gmap nat Worker.state;
  next_obj : nat;
  main_worker_ : option nat;
  workers : list nat;
}.

Definition manager_init : manager := mkManager ∅ 0 None [].

Definition set_objs (m : gmap nat Worker.state) (wm : manager) : manager :=
  mkManager m (next_obj wm) (main_worker_ wm) (workers wm).

Definition InitMainWorker (wm : manager) : manager :=
  match main_worker_ wm with
  | Some _ => wm
  | None =>
      let id := next_obj wm in
      mkManager (<[id := Worker.OnStart (Worker.Init 0 (Worker.make Worker.MAIN false))]> (objs wm))
        (S id) (Some id) (workers wm)
  end.

(** [CreateWorker] makes the worker; its thread runs [thread_start] later. *)
Definition CreateWorker (logic : bool) (wm : manager) : nat * manager :=
  let id := next_obj wm in
  (id, mkManager (<[id := Worker.make Worker.NORMAL logic]> (objs wm)) (S id) (main_worker_ wm)
         (workers wm ++ [id])).

(** The start of the thread of the worker at position [index - 1]. *)
Definition thread_start (index : Z) (id : nat) (wm : manager) : manager :=
  match objs wm !! id with
  | Some w => set_objs (<[id := Worker.OnStart (Worker.Init index w)]> (objs wm)) wm
  | None => wm
  end.

Definition Size (wm : manager) : Z :=
  Z.of_nat (length (workers wm)) + match main_worker_ wm with Some _ => 1 | None => 0 end.

Definition GetWorker (index : Z) (wm : manager) : option nat :=
  if index =? 0 then main_worker_ wm
  else if Z.of_nat (length (workers wm)) <? index then None
  else workers wm !! Z.to_nat (index - 1).

Definition post_to (p : nat) (handler : option Worker.Task) (id : nat) (wm : manager) : manager :=
  match objs wm !! id with
  | Some w => set_objs (<[id := Worker.Post p handler w]> (objs wm)) wm
  | None => wm
  end.

Definition PostToWorker (p : nat) (index : Z) (handler : option Worker.Task) (wm : manager) : bool * manager :=
  match GetWorker index wm, handler with
  | Some id, Some _ => (true, post_to p handler id wm)
  | _, _ => (false, wm)
  end.

Definition PostToMain (p : nat) (handler : option Worker.Task) (wm : manager) : bool * manager :=
  match main_worker_ wm, handler with
  | Some id, Some _ => (true, post_to p handler id wm)
  | _, _ => (false, wm)
  end.

(** [BroadcastToWorkers]: the main worker is not among them. *)
Definition BroadcastToWorkers (p : nat) (dispatcher : option Worker.Task) (wm : manager) : manager :=
  match dispatcher with
  | None => wm
  | Some _ => foldl (fun wm id => post_to p dispatcher id wm) wm (workers wm)
  end.

(** ** Executor *)

(** [Main()] before there is a main worker is the only one with a [dispatch_] function. *)
Record executor := mkExecutor { worker_ : option nat; dispatch_ : bool; inline_fallback_ : bool }.

Definition empty_executor : executor := mkExecutor None false true.
Definition worker_executor (w : option nat) (inline : bool) : executor := mkExecutor w false inline.

Definition executor_Main (inline : bool) (wm : manager) : executor :=
  match main_worker_ wm with
  | Some id => worker_executor (Some id) inline
  | None => mkExecutor None true inline
  end.

(** [weak_ptr::lock]. *)
Definition lock (w : option nat) (wm : manager) : option (nat * Worker.state) :=
  id ← w; s ← objs wm !! id; Some (id, s).

(** The thread that asks: its [tl_current_worker], and whether it is the main thread. *)
Record thread := mkThread { current : option nat; is_main : bool }.

Definition IsCurrent (e : executor) (th : thread) (wm : manager) : bool :=
  match lock (worker_ e) wm with
  | Some (_, w) =>
      match lock (current th) wm with
      | Some (_, c) => Worker.index c =? Worker.index w
      | None => false
      end
  | None => if dispatch_ e then is_main th else false
  end.

(** What becomes of the function. *)
Inductive fate := RunsHere | PostedTo (id : nat) | PostedToMain | Dropped.

(** [Dispatch]: what it returns, what becomes of the function, the new manager. *)
Definition Dispatch (p : nat) (fn : option Worker.Task) (e : executor) (th : thread) (wm : manager) :
    bool * fate * manager :=
  match fn with
  | None => (false, Dropped, wm)
  | Some _ =>
      match lock (worker_ e) wm with
      | Some (id, _) =>
          if IsCurrent e th wm then (true, RunsHere, wm)
          else (true, PostedTo id, post_to p fn id wm)
      | None =>
          if dispatch_ e then
            if IsCurrent e th wm then (true, RunsHere, wm)
            else (true, PostedToMain, snd (PostToMain p fn wm))
          else if inline_fallback_ e then (true, RunsHere, wm)
          else (false, Dropped, wm)
      end
  end.

(** ** Service table ([route_table.h]) *)

Definition SWT_Normal : Z := 0.
Definition SWT_Count : nat := 3.

Record snapshot := mkSnapshot {
  snap_resolver : option (Z -> Z);
  snap_workers : list (option (list nat));
}.

Record service_table := mkService {
  workers_ : list (list nat);           (* one list per service type *)
  service_type_resolver_ : option (Z -> Z);
  frozen_ : option snapshot;
}.

Definition service_init : service_table := mkService (replicate SWT_Count []) None None.

Definition RegisterWorker (ty : Z) (w : nat) (t : service_table) : service_table :=
  if Z.of_nat SWT_Count <=? ty then t
  else mkService (alter (fun l => l ++ [w]) (Z.to_nat ty) (workers_ t))
         (service_type_resolver_ t) (frozen_ t).

Definition SetServiceTypeResolver (r : option (Z -> Z)) (t : service_table) : service_table :=
  mkService (workers_ t) r (frozen_ t).

Definition table_Freeze (t : service_table) : service_table :=
  mkService (workers_ t) (service_type_resolver_ t)
    (Some (mkSnapshot (service_type_resolver_ t)
             ((fun l => if bool_decide (l = []) then None else Some l) <$> workers_ t))).

Definition GetWorkerList (ty : Z) (t : service_table) : list nat :=
  match frozen_ t with
  | Some f =>
      if ty <? Z.of_nat SWT_Count then default [] (mjoin (snap_workers f !! Z.to_nat ty))
      else if Z.of_nat SWT_Count <=? ty then [] else default [] (workers_ t !! Z.to_nat ty)
  | None => if Z.of_nat SWT_Count <=? ty then [] else default [] (workers_ t !! Z.to_nat ty)
  end.

Definition GetWorkerRef (ty : Z) (t : service_table) : option (list nat) :=
  match frozen_ t with
  | Some f => if ty <? Z.of_nat SWT_Count then mjoin (snap_workers f !! Z.to_nat ty) else None
  | None => None
  end.

Definition ResolveServiceWorkerType (message_type : Z) (t : service_table) : Z :=
  match frozen_ t with
  | Some (mkSnapshot (Some r) _) => r message_type
  | _ => match service_type_resolver_ t with Some r => r message_type | None => SWT_Normal end
  end.

(** ** Router *)

Inductive Policy := Stateful | Stateless.

(** The two strategies a user can install. *)
Record strategy := mkStrategy {
  route_key_selector : option (Z -> Z -> Z);
  worker_index_selector : option (list nat -> Z -> Z -> Z);
}.

Record state := mkRouter {
  policy_ : Policy;
  route_table_ : service_table;
  strategy_ : strategy;
  frozen_strategy_ : option strategy;
  entity_route_table_ : LockFreeRouteTable.state;
}.

Definition init : state :=
  mkRouter Stateless service_init (mkStrategy None None) None LockFreeRouteTable.init.

Definition SetPolicy (p : Policy) (r : state) : state :=
  mkRouter p (route_table_ r) (strategy_ r) (frozen_strategy_ r) (entity_route_table_ r).

Definition register (ty : Z) (w : nat) (r : state) : state :=
  mkRouter (policy_ r) (RegisterWorker ty w (route_table_ r)) (strategy_ r) (frozen_strategy_ r)
    (entity_route_table_ r).

Definition set_resolver (f : option (Z -> Z)) (r : state) : state :=
  mkRouter (policy_ r) (SetServiceTypeResolver f (route_table_ r)) (strategy_ r)
    (frozen_strategy_ r) (entity_route_table_ r).

Definition SetRouteKeySelector (f : option (Z -> Z -> Z)) (r : state) : state :=
  mkRouter (policy_ r) (route_table_ r) (mkStrategy f (worker_index_selector (strategy_ r)))
    (frozen_strategy_ r) (entity_route_table_ r).

Definition SetWorkerIndexSelector (f : option (list nat -> Z -> Z -> Z)) (r : state) : state :=
  mkRouter (policy_ r) (route_table_ r) (mkStrategy (route_key_selector (strategy_ r)) f)
    (frozen_strategy_ r) (entity_route_table_ r).

Definition Freeze (r : state) : state :=
  mkRouter (policy_ r) (table_Freeze (route_table_ r)) (strategy_ r) (Some (strategy_ r))
    (entity_route_table_ r).

(** [PickWorker]: both branches of the code read a strategy, the frozen one or the mutable
    one, and go on alike. *)
Definition PickWorker (ws : list nat) (message_type route_id : Z) (r : state) : option nat :=
  match ws with
  | [] => None
  | _ =>
      let st := default (strategy_ r) (frozen_strategy_ r) in
      match worker_index_selector st with
      | Some f =>
          let index := u64 (f ws message_type route_id) in
          if index <? Z.of_nat (length ws) then ws !! Z.to_nat index else None
      | None =>
          let route_key := match route_key_selector st with
                           | Some f => u64 (f message_type route_id)
                           | None => route_id
                           end in
          ws !! Z.to_nat (route_key mod Z.of_nat (length ws))
      end
  end.

(** [worker->GetExecutor()], or an executor made on the spot. *)
Definition executor_of (id : nat) (w : Worker.state) : executor :=
  if Worker.executor_ w then worker_executor (Some id) false else worker_executor (Some id) true.

(** [None] is a read of a freed snapshot. *)
Definition GetExecutor (message_type user_unique_id : Z) (r : state) (wm : manager) : option executor :=
  if user_unique_id =? 0 then
    Some match lock (main_worker_ wm) wm with
         | Some (id, w) => executor_of id w
         | None => empty_executor
         end
  else
    match policy_ r with
    | Stateful =>
        index ← LockFreeRouteTable.Lookup (entity_route_table_ r) user_unique_id;
        Some (if negb (index =? LockFreeRouteTable.kInvalidWorker) then
                match lock (GetWorker index wm) wm with
                | Some (id, w) => executor_of id w
                | None => empty_executor
                end
              else empty_executor)
    | Stateless =>
        Some match GetWorkerRef (ResolveServiceWorkerType message_type (route_table_ r)) (route_table_ r) with
             | None | Some [] => empty_executor
             | Some ws =>
                 match lock (PickWorker ws message_type user_unique_id r) wm with
                 | Some (id, w) => executor_of id w
                 | None => empty_executor
                 end
             end
    end.

Definition GetServiceExecutor (message_type route_id : Z) (r : state) (wm : manager) : option executor :=
  GetExecutor (u32 message_type) route_id r wm.

(** Entity routes. *)
Definition entity_step (o : LockFreeRouteTable.op) (r : state) : option state :=
  t ← LockFreeRouteTable.step (entity_route_table_ r) o;
  Some (mkRouter (policy_ r) (route_table_ r) (strategy_ r) (frozen_strategy_ r) t).

(** ** Manager invariant *)

Inductive manager_op :=
  | MInitMain | MCreate (logic : bool) | MStart (i : nat)      (* the thread of [workers !! i] *)
  | MPost (index : Z) (p : nat) (t : Worker.Task) | MPostMain (p : nat) (t : Worker.Task)
  | MBroadcast (p : nat) (t : Worker.Task).

Definition manager_step (o : manager_op) (wm : manager) : manager :=
  match o with
  | MInitMain => InitMainWorker wm
  | MCreate logic => snd (CreateWorker logic wm)
  | MStart i => match workers wm !! i with
                | Some id => thread_start (Z.of_nat i + 1) id wm
                | None => wm
                end
  | MPost index p t => snd (PostToWorker p index (Some t) wm)
  | MPostMain p t => snd (PostToMain p (Some t) wm)
  | MBroadcast p t => BroadcastToWorkers p (Some t) wm
  end.

Definition manager_run (os : list manager_op) (wm : manager) : manager :=
  foldl (fun wm o => manager_step o wm) wm os.

(** Every worker object is alive, objects are distinct, and a worker whose thread has run
    [Init] knows its position. *)
Record wm_inv (wm : manager) : Prop := {
  inv_nodup : NoDup (workers wm);
  inv_workers : forall i id, workers wm !! i = Some id ->
    (id < next_obj wm)%nat /\ main_worker_ wm <> Some id /\
    exists w, objs wm !! id = Some w /\
      Worker.index w = if Worker.executor_ w then u32 (Z.of_nat i + 1) else 0;
  inv_main : forall id, main_worker_ wm = Some id ->
    (id < next_obj wm)%nat /\
    exists w, objs wm !! id = Some w /\ Worker.index w = 0 /\ Worker.executor_ w = true;
}.

Lemma Post_fields p h w :
  Worker.index (Worker.Post p h w) = Worker.index w /\
  Worker.executor_ (Worker.Post p h w) = Worker.executor_ w.
Proof.
  unfold Worker.Post, Worker.EnqueueTask. destruct h; [|done].
  by repeat case_if.
Qed.

(** Updates that keep index and executor of every object keep the invariant. *)
Lemma set_objs_inv wm m :
  wm_inv wm ->
  (forall id w, objs wm !! id = Some w -> exists w', m !! id = Some w' /\
     Worker.index w' = Worker.index w /\ Worker.executor_ w' = Worker.executor_ w) ->
  wm_inv (set_objs m wm).
Proof.
  intros [Hn Hw Hm] Hk. constructor; simpl; [done| |].
  - intros i id Hi. destruct (Hw i id Hi) as (H1 & H2 & w & Ho & Hx). splits; auto.
    destruct (Hk id w Ho) as (w' & Hw' & Hi' & He). exists w'.
    split; [done|]. by rewrite Hi', He.
  - intros id Hi. destruct (Hm id Hi) as (H1 & w & Ho & H2 & H3). split; [done|].
    destruct (Hk id w Ho) as (w' & Hw' & Hi' & He). exists w'. splits; congruence.
Qed.

Lemma post_to_inv p h id wm : wm_inv wm -> wm_inv (post_to p h id wm).
Proof.
  intros Hi. unfold post_to. destruct (objs wm !! id) as [w|] eqn:E; [|done].
  apply set_objs_inv; [done|]. intros id' w' Hw'. destruct (decide (id' = id)) as [->|Hne].
  - rewrite lookup_insert_eq. replace w' with w by congruence. eexists. split; [done|]. apply Post_fields.
  - rewrite lookup_insert_ne by done. by exists w'.
Qed.

Lemma post_all_inv p h ids wm : wm_inv wm -> wm_inv (foldl (fun wm id => post_to p h id wm) wm ids).
Proof. revert wm. induction ids as [|id r IH]; intros wm Hi; simpl; [done|]. by apply IH, post_to_inv. Qed.

Lemma init_main_inv wm : wm_inv wm -> wm_inv (InitMainWorker wm).
Proof.
  intros Hi. unfold InitMainWorker. destruct (main_worker_ wm) eqn:E; [done|].
  destruct Hi as [Hn Hw Hm]. constructor; simpl; [done| |].
  - intros i id Hi. destruct (Hw i id Hi) as (H1 & H2 & w & Ho & Hx).
    splits; [lia|intros [=]; lia|]. exists w. rewrite lookup_insert_ne by lia. done.
  - intros id [= <-]. split; [lia|]. eexists. rewrite lookup_insert_eq. splits; done.
Qed.

Lemma create_inv logic wm : wm_inv wm -> wm_inv (snd (CreateWorker logic wm)).
Proof.
  intros [Hn Hw Hm]. constructor; simpl.
  - apply NoDup_app. splits; [done| |apply NoDup_singleton].
    intros x Hx%list_elem_of_lookup ->%list_elem_of_singleton. destruct Hx as [i Hi].
    destruct (Hw _ _ Hi). lia.
  - intros i id Hi. apply lookup_app_Some in Hi as [Hi|[_ Hi]].
    + destruct (Hw i id Hi) as (H1 & H2 & w & Ho & Hx). splits; [lia|done|]. exists w.
      rewrite lookup_insert_ne by lia. done.
    + apply list_lookup_singleton_Some in Hi as [_ <-]. splits; [lia| |].
      * intros Hx. destruct (Hm _ Hx). lia.
      * eexists. rewrite lookup_insert_eq. done.
  - intros id Hi. destruct (Hm id Hi) as (H1 & w & Ho & H2). split; [lia|]. exists w.
    rewrite lookup_insert_ne by lia. done.
Qed.

Lemma start_inv i id wm : wm_inv wm -> workers wm !! i = Some id -> wm_inv (thread_start (Z.of_nat i + 1) id wm).
Proof.
  intros [Hn Hw Hm] Hi. unfold thread_start. destruct (Hw i id Hi) as (H1 & H2 & w & Ho & Hx). rewrite Ho.
  constructor; simpl; [done| |].
  - intros j id' Hj. destruct (Hw j id' Hj) as (H3 & H4 & w' & Ho' & Hx'). splits; auto.
    destruct (decide (id' = id)) as [->|Hne].
    + pose proof (NoDup_lookup _ _ _ _ Hn Hi Hj) as <-. eexists. rewrite lookup_insert_eq. done.
    + exists w'. rewrite lookup_insert_ne by done. done.
  - intros id' Hj. destruct (Hm id' Hj) as (H3 & w' & Ho' & Hx'). split; [done|]. exists w'.
    rewrite lookup_insert_ne by congruence. done.
Qed.

Lemma manager_inv os : wm_inv (manager_run os manager_init).
Proof.
  unfold manager_run. assert (wm_inv manager_init) as H0.
  { constructor; simpl; [constructor|by intros [|]|done]. }
  revert H0. generalize manager_init. induction os as [|o r IH]; intros wm Hi; simpl; [done|].
  apply IH. destruct o; simpl.
  - by apply init_main_inv.
  - by apply create_inv.
  - destruct (workers wm !! i) eqn:E; [by apply start_inv|done].
  - unfold PostToWorker. destruct (GetWorker index wm); [by apply post_to_inv|done].
  - unfold PostToMain. destruct (main_worker_ wm); [by apply post_to_inv|done].
  - by apply post_all_inv.
Qed.

(** Any worker of the manager, main or not, at its position. *)
Lemma GetWorker_alive os index id :
  let wm := manager_run os manager_init in
  Z.of_nat (length (workers wm)) < 2 ^ 32 - 1 -> 0 <= index -> GetWorker index wm = Some id ->
  exists w, objs wm !! id = Some w /\
    Worker.index w = if Worker.executor_ w then index else 0.
Proof.
  intros wm Hlen H0. pose proof (manager_inv os) as [_ Hw Hm]. fold wm in Hw, Hm. unfold GetWorker.
  destruct (index =? 0) eqn:E.
  - intros Hi. destruct (Hm id Hi) as (_ & w & Ho & H1 & H2). exists w. split; [done|]. rewrite H1, H2. lia.
  - destruct (_ <? index) eqn:E2; [done|]. intros Hi. destruct (Hw _ _ Hi) as (_ & _ & w & Ho & H1).
    exists w. split; [done|]. rewrite H1, Z2Nat.id by lia. replace (index - 1 + 1) with index by lia.
    rewrite wrapu_small; [done|unfold in_u; lia].
Qed.

(** C34: from the thread of one worker, a function dispatched to another worker that has
    started is posted to it, and one dispatched to the same worker runs at once; so every
    function runs on its own worker. *)
Theorem dispatch_to_own_worker (os : list manager_op) (i j : Z) (idi idj : nat) (p : nat)
    (t : Worker.Task) (inline main : bool) :
  let wm := manager_run os manager_init in
  Z.of_nat (length (workers wm)) < 2 ^ 32 - 1 -> 0 <= i -> 0 <= j ->
  GetWorker i wm = Some idi -> GetWorker j wm = Some idj ->
  (forall w, objs wm !! idi = Some w -> Worker.executor_ w = true) ->
  (forall w, objs wm !! idj = Some w -> Worker.executor_ w = true) ->
  Dispatch p (Some t) (worker_executor (Some idj) inline) (mkThread (Some idi) main) wm =
    if i =? j then (true, RunsHere, wm) else (true, PostedTo idj, post_to p (Some t) idj wm).
Proof.
  intros wm Hlen Hi Hj Hgi Hgj Hei Hej.
  destruct (GetWorker_alive os i idi Hlen Hi Hgi) as (wi & Hoi & Hxi).
  destruct (GetWorker_alive os j idj Hlen Hj Hgj) as (wj & Hoj & Hxj).
  fold wm in Hoi, Hoj. rewrite (Hei _ Hoi) in Hxi. rewrite (Hej _ Hoj) in Hxj.
  unfold Dispatch, IsCurrent, lock. cbn [worker_ worker_executor current mbind option_bind].
  rewrite Hoi, Hoj. cbn [mbind option_bind]. by rewrite Hxi, Hxj.
Qed.

Definition one_started : list manager_op := [MInitMain; MCreate true; MStart 0].

Lemma dispatch_to_own_worker_witness :
  let wm := manager_run one_started manager_init in
  Dispatch 0 (Some (Worker.User 5)) (worker_executor (Some 1%nat) false) (mkThread (Some 0%nat) true) wm =
    (true, PostedTo 1, post_to 0 (Some (Worker.User 5)) 1 wm).
Proof.
  intros wm. apply (dispatch_to_own_worker one_started 0 1 0 1 0 (Worker.User 5) false true);
    try reflexivity; try lia; intros w Hw; vm_compute in Hw; by injection Hw as <-.
Defined.

(** Before its thread has run [Init] a worker has the index of the main worker: what the
    main thread dispatches to it in this window runs on the main thread, and what any thread
    posts to it is dropped although [PostToWorker] returns true. *)
Theorem unstarted_worker (os : list manager_op) (logic inline : bool) (main : nat) (p : nat) (t : Worker.Task) :
  let wm := manager_run os manager_init in
  main_worker_ wm = Some main ->
  let '(id, wm') := CreateWorker logic wm in
  Dispatch p (Some t) (worker_executor (Some id) inline) (mkThread (Some main) true) wm' =
    (true, RunsHere, wm') /\
  fst (PostToWorker p (Size wm) (Some t) wm') = true /\
  exists w, objs wm' !! id = Some w /\
    objs (snd (PostToWorker p (Size wm) (Some t) wm')) !! id = Some w /\ Worker.events w = [].
Proof.
  intros wm Hm. unfold CreateWorker. pose proof (manager_inv os) as [_ _ Hinv].
  destruct (Hinv _ Hm) as (Hlt & wmain & Ho & Hx & _). fold wm in Hlt, Ho.
  set (wm' := mkManager _ _ _ _).
  assert (objs wm' !! next_obj wm = Some (Worker.make Worker.NORMAL logic)) as Hnew.
  { unfold wm'. cbn [objs]. apply lookup_insert_eq. }
  assert (GetWorker (Size wm) wm' = Some (next_obj wm)) as Hg.
  { unfold GetWorker, Size. rewrite Hm. unfold wm'. cbn [workers main_worker_].
    rewrite length_app. cbn [length].
    replace (_ =? 0) with false by lia. replace (_ <? _) with false by lia.
    replace (Z.to_nat _) with (length (workers wm)) by lia. by apply list_lookup_middle. }
  assert (post_to p (Some t) (next_obj wm) wm' = wm') as Hpost.
  { unfold post_to. rewrite Hnew. unfold Worker.Post, Worker.EnqueueTask.
    cbn. unfold set_objs. rewrite insert_id; [reflexivity|exact Hnew]. }
  split; [|split].
  - unfold Dispatch, IsCurrent, lock. cbn [worker_ worker_executor current mbind option_bind].
    rewrite Hnew. unfold wm'. cbn [objs mbind option_bind]. rewrite lookup_insert_ne by lia.
    rewrite Ho. cbn [mbind option_bind]. by rewrite Hx.
  - unfold PostToWorker. by rewrite Hg.
  - unfold PostToWorker. rewrite Hg. cbn [snd]. rewrite Hpost. by exists (Worker.make Worker.NORMAL logic).
Qed.

Lemma unstarted_worker_witness :
  let wm' := snd (CreateWorker true (manager_run [MInitMain] manager_init)) in
  Dispatch 0 (Some (Worker.User 5)) (worker_executor (Some 1%nat) false) (mkThread (Some 0%nat) true) wm' =
    (true, RunsHere, wm').
Proof. exact (proj1 (unstarted_worker [MInitMain] true false 0 0 (Worker.User 5) eq_refl)). Defined.

(** ** Broadcast *)

Lemma post_to_other p h id id' wm : id' <> id -> objs (post_to p h id wm) !! id' = objs wm !! id'.
Proof. intros Hne. unfold post_to. destruct (objs wm !! id); [|done]. simpl. by rewrite lookup_insert_ne. Qed.

Lemma post_to_same p h id wm w : objs wm !! id = Some w -> objs (post_to p h id wm) !! id = Some (Worker.Post p h w).
Proof. intros Ho. unfold post_to. rewrite Ho. simpl. apply lookup_insert_eq. Qed.

Lemma post_all_spec p h ids wm id :
  NoDup ids ->
  objs (foldl (fun wm id => post_to p h id wm) wm ids) !! id =
    if decide (id ∈ ids) then Worker.Post p h <$> objs wm !! id else objs wm !! id.
Proof.
  revert wm. induction ids as [|x r IH]; intros wm Hnd; cbn [foldl].
  - by rewrite decide_False by apply not_elem_of_nil.
  - apply NoDup_cons in Hnd as [Hx Hr]. rewrite (IH _ Hr).
    destruct (decide (id = x)) as [->|Hne].
    + rewrite decide_False, decide_True by (done || by left).
      destruct (objs wm !! x) as [w|] eqn:Ho; simpl; [by apply post_to_same|].
      unfold post_to. by rewrite Ho.
    + rewrite post_to_other by done. destruct (decide (id ∈ r)) as [Hin|Hn].
      * by rewrite decide_True by (by right).
      * rewrite decide_False; [done|]. by intros [|]%elem_of_cons.
Qed.

(** A broadcast puts one task at the end of the queue of every worker that runs and is
    not shutting down, and changes no other worker; the main worker is left out. *)
Theorem broadcast_once_each (os : list manager_op) (p : nat) (t : Worker.Task) (id : nat) (w : Worker.state) :
  let wm := manager_run os manager_init in
  objs wm !! id = Some w ->
  objs (BroadcastToWorkers p (Some t) wm) !! id =
    Some (if bool_decide (id ∈ workers wm) && Worker.runing w && negb (Worker.shutting_down w)
          then Worker.set_events (Worker.events w ++ [(p, t)]) w else w) /\
  (main_worker_ wm = Some id -> objs (BroadcastToWorkers p (Some t) wm) !! id = Some w).
Proof.
  intros wm Ho. pose proof (manager_inv os) as [Hnd Hw _]. fold wm in Hnd, Hw.
  unfold BroadcastToWorkers. rewrite post_all_spec, Ho by done. split.
  - destruct (decide (id ∈ workers wm)) as [Hin|Hn]; [rewrite bool_decide_true by done|by rewrite bool_decide_false].
    simpl. unfold Worker.Post, Worker.EnqueueTask, Worker.guard_shutdown.
    destruct (Worker.shutting_down w), (Worker.runing w); done.
  - intros Hm. rewrite decide_False; [done|]. intros [i Hi]%list_elem_of_lookup.
    by destruct (Hw i id Hi) as (_ & [] & _).
Qed.

Lemma broadcast_once_each_witness :
  let wm := manager_run (one_started ++ [MCreate false]) manager_init in
  exists w, objs wm !! 1%nat = Some w /\
    objs (BroadcastToWorkers 7 (Some (Worker.User 3)) wm) !! 1%nat =
      Some (Worker.set_events [(7%nat, Worker.User 3)] w) /\
    objs (BroadcastToWorkers 7 (Some (Worker.User 3)) wm) !! 2%nat = objs wm !! 2%nat.
Proof.
  intros wm. destruct (objs wm !! 1%nat) as [w|] eqn:E; [|by vm_compute in E].
  destruct (objs wm !! 2%nat) as [w2|] eqn:E2; [|by vm_compute in E2].
  pose proof (proj1 (broadcast_once_each _ 7 (Worker.User 3) 1 w E)) as H1.
  pose proof (proj1 (broadcast_once_each _ 7 (Worker.User 3) 2 w2 E2)) as H2.
  exists w. split; [done|]. fold wm in H1, H2. rewrite H1, H2.
  vm_compute in E, E2. injection E as <-. injection E2 as <-. split; reflexivity.
Defined.

(** ** Routing *)

(** A router whose entity table went through [os]. *)
Definition with_entities (os : list LockFreeRouteTable.op) (r : state) : option state :=
  t ← LockFreeRouteTable.run LockFreeRouteTable.init os;
  Some (mkRouter (policy_ r) (route_table_ r) (strategy_ r) (frozen_strategy_ r) t).

(** The worker an entity is bound to, by the abstract route table. *)
Definition bound (os : list LockFreeRouteTable.op) (id : Z) : option Z :=
  LockFreeRouteTable.a_current (LockFreeRouteTable.a_run LockFreeRouteTable.a_init os) id.

Lemma lookup_bound os r id :
  Forall LockFreeRouteTable.op_ok os ->
  exists r', with_entities os r = Some r' /\ policy_ r' = policy_ r /\
    LockFreeRouteTable.Lookup (entity_route_table_ r') id =
      Some (default LockFreeRouteTable.kInvalidWorker (bound os id)).
Proof.
  intros Hos. unfold with_entities.
  destruct (LockFreeRouteTable.sim_run _ _ os LockFreeRouteTable.sim_init Hos) as (t & -> & Hs).
  eexists. split; [reflexivity|]. split; [done|]. simpl. by apply LockFreeRouteTable.sim_Lookup.
Qed.

(** C22: with the stateful policy a message for an entity goes to the worker the entity was
    bound to when the table was last frozen: its executor, and dispatching to it from the
    thread of another started worker posts the handler to that worker.  Messages without
    an entity go to the main worker. *)
Theorem stateful_routing (os : list LockFreeRouteTable.op) (ms : list manager_op) (r : state)
    (message_type id index : Z) (target : nat) :
  let wm := manager_run ms manager_init in
  Forall LockFreeRouteTable.op_ok os -> policy_ r = Stateful ->
  Z.of_nat (length (workers wm)) < 2 ^ 32 - 1 ->
  bound os id = Some index -> 0 <= index -> GetWorker index wm = Some target -> id <> 0 ->
  exists r', with_entities os r = Some r' /\
    (exists e, GetExecutor message_type id r' wm = Some e /\ worker_ e = Some target) /\
    (forall main, main_worker_ wm = Some main ->
       GetExecutor message_type 0 r' wm = Some (worker_executor (Some main) false)).
Proof.
  intros wm Hos Hp Hlen Hb H0 Hg Hid.
  destruct (lookup_bound os r id Hos) as (r' & -> & Hp' & Hl). exists r'. split; [done|].
  destruct (GetWorker_alive ms index target Hlen H0 Hg) as (w & Ho & _). fold wm in Ho.
  pose proof (manager_inv ms) as [_ _ Hinv]. fold wm in Hinv. clearbody wm.
  split.
  - unfold GetExecutor. replace (id =? 0) with false by lia.
    rewrite Hp', Hp, Hl, Hb. cbn [default mbind option_bind from_option Datatypes.id].
    assert (index <> LockFreeRouteTable.kInvalidWorker) as Hk.
    { intros ->. unfold GetWorker in Hg. simpl in Hg.
      replace (_ <? LockFreeRouteTable.kInvalidWorker) with true in Hg; [done|].
      symmetry. apply Z.ltb_lt. unfold LockFreeRouteTable.kInvalidWorker. lia. }
    replace (index =? LockFreeRouteTable.kInvalidWorker) with false by lia. cbn [negb].
    rewrite Hg. cbn [lock mbind option_bind]. rewrite Ho. cbn [mbind option_bind].
    eexists. split; [done|]. unfold executor_of. by destruct (Worker.executor_ w).
  - intros main Hm. destruct (Hinv _ Hm) as (_ & wmain & Hom & _ & He).
    unfold GetExecutor. simpl. rewrite Hm. cbn [lock mbind option_bind]. rewrite Hom.
    cbn [mbind option_bind]. unfold executor_of. by rewrite He.
Qed.

Definition bind_100 : list LockFreeRouteTable.op :=
  [LockFreeRouteTable.OpBind 100 200 1; LockFreeRouteTable.OpFreeze].

Lemma stateful_routing_witness :
  exists r', with_entities bind_100 (SetPolicy Stateful init) = Some r' /\
    exists e, GetExecutor 7 150 r' (manager_run one_started manager_init) = Some e /\ worker_ e = Some 1%nat.
Proof.
  destruct (stateful_routing bind_100 one_started (SetPolicy Stateful init) 7 150 1 1)
    as (r' & H1 & H2 & _); try reflexivity; try lia.
  - repeat constructor; simpl; lia.
  - exists r'. split; [exact H1|exact H2].
Defined.

(** A message for an entity that is not bound (or whose worker does not exist) gets an
    empty executor, and dispatching to an empty executor runs the handler at once on the
    thread that received the message. *)
Theorem unrouted_message_runs_inline (os : list LockFreeRouteTable.op) (wm : manager) (r : state)
    (message_type id : Z) (th : thread) (p : nat) (t : Worker.Task) :
  Forall LockFreeRouteTable.op_ok os -> policy_ r = Stateful -> id <> 0 ->
  (forall index, bound os id = Some index -> lock (GetWorker index wm) wm = None) ->
  exists r' e, with_entities os r = Some r' /\ GetExecutor message_type id r' wm = Some e /\
    Dispatch p (Some t) e th wm = (true, RunsHere, wm).
Proof.
  intros Hos Hp Hid Hb. destruct (lookup_bound os r id Hos) as (r' & -> & Hp' & Hl).
  exists r', empty_executor. split; [done|]. split; [|done].
  unfold GetExecutor. replace (id =? 0) with false by lia. rewrite Hp', Hp, Hl. cbn [mbind option_bind].
  destruct (bound os id) as [index|]; cbn [default from_option Datatypes.id]; [|done].
  rewrite (Hb index eq_refl). by case_if.
Qed.

Lemma unrouted_message_runs_inline_witness :
  exists r' e, with_entities bind_100 (SetPolicy Stateful init) = Some r' /\
    GetExecutor 7 300 r' (manager_run one_started manager_init) = Some e /\
    Dispatch 0 (Some (Worker.User 5)) e (mkThread None false) (manager_run one_started manager_init) =
      (true, RunsHere, manager_run one_started manager_init).
Proof.
  apply (unrouted_message_runs_inline bind_100); [repeat constructor; simpl; lia|done|lia|].
  intros index Hb. by vm_compute in Hb.
Defined.

(** What [register] and [set_resolver] and the others have put in before [Freeze]. *)
Lemma frozen_ref ty t :
  0 <= ty < Z.of_nat SWT_Count -> length (workers_ t) = SWT_Count ->
  GetWorkerRef ty (table_Freeze t) =
    match workers_ t !! Z.to_nat ty with Some [] | None => None | Some l => Some l end.
Proof.
  intros Hty Hlen. unfold GetWorkerRef, table_Freeze. cbn [frozen_ snap_workers].
  replace (ty <? Z.of_nat SWT_Count) with true by lia. rewrite list_lookup_fmap.
  destruct (workers_ t !! Z.to_nat ty) as [[|x l]|]; done.
Qed.

(** With the stateless policy, once frozen, every entity of a service type is always
    routed to one of the workers registered for the type, the one at position [key mod n];
    any registration or selector set after [Freeze] changes nothing. *)
Theorem stateless_routing (r : state) (wm : manager) (message_type id ty : Z) (ws : list nat)
    (late : nat) (sel : option (Z -> Z -> Z)) :
  policy_ r = Stateless -> 0 < id -> length (workers_ (route_table_ r)) = SWT_Count ->
  ty = match service_type_resolver_ (route_table_ r) with Some f => f message_type | None => SWT_Normal end ->
  0 <= ty < Z.of_nat SWT_Count -> workers_ (route_table_ r) !! Z.to_nat ty = Some ws -> ws <> [] ->
  worker_index_selector (strategy_ r) = None ->
  (forall w, w ∈ ws -> is_Some (objs wm !! w)) ->
  let key := match route_key_selector (strategy_ r) with Some f => u64 (f message_type id) | None => id end in
  exists e w, GetExecutor message_type id (Freeze r) wm = Some e /\
    worker_ e = Some w /\ ws !! Z.to_nat (key mod Z.of_nat (length ws)) = Some w /\
    GetExecutor message_type id (SetRouteKeySelector sel (register ty late (Freeze r))) wm = Some e.
Proof.
  intros Hp Hid Hlen Hty Hr Hws Hne Hsel Halive key.
  assert (0 <= key) as Hk.
  { unfold key. destruct (route_key_selector _); [|lia]. apply wrapu_range. lia. }
  pose proof (Z.mod_pos_bound key (Z.of_nat (length ws)) ltac:(destruct ws; simpl; [done|lia])) as Hm.
  destruct (lookup_lt_is_Some_2 ws (Z.to_nat (key mod Z.of_nat (length ws)))) as [w Hw]; [lia|].
  destruct (Halive w) as [sw Hsw]; [by eapply list_elem_of_lookup_2|].
  assert (forall r', policy_ r' = Stateless -> frozen_ (route_table_ r') = frozen_ (table_Freeze (route_table_ r)) ->
    service_type_resolver_ (route_table_ r') = service_type_resolver_ (route_table_ r) ->
    frozen_strategy_ r' = Some (strategy_ r) ->
    GetExecutor message_type id r' wm = Some (executor_of w sw)) as Hget.
  { intros r' Hp' Hf Hres Hst. unfold GetExecutor. replace (id =? 0) with false by lia. rewrite Hp'.
    assert (ResolveServiceWorkerType message_type (route_table_ r') = ty) as ->.
    { unfold ResolveServiceWorkerType. rewrite Hf, Hres, Hty. simpl.
      by destruct (service_type_resolver_ (route_table_ r)). }
    assert (GetWorkerRef ty (route_table_ r') = Some ws) as ->.
    { assert (GetWorkerRef ty (route_table_ r') = GetWorkerRef ty (table_Freeze (route_table_ r))) as ->.
      { unfold GetWorkerRef. by rewrite Hf. }
      rewrite frozen_ref, Hws by done. by destruct ws. }
    assert (PickWorker ws message_type id r' = Some w) as Hpick.
    { unfold PickWorker. destruct ws as [|x l] eqn:E; [done|]. rewrite <- E in *.
      rewrite Hst. cbn [default from_option Datatypes.id]. by rewrite Hsel. }
    rewrite Hpick. destruct ws as [|x l]; [done|]. cbn [lock mbind option_bind].
    by rewrite Hsw. }
  exists (executor_of w sw), w. splits; auto.
  - unfold executor_of. by destruct (Worker.executor_ sw).
  - apply Hget; try done; unfold SetRouteKeySelector, register, RegisterWorker; simpl; by destruct (_ <=? ty).
Qed.

Lemma stateless_routing_witness :
  let r := register 0 0 (register 0 1 init) in
  let wm := manager_run one_started manager_init in
  exists e w, GetExecutor 12 7 (Freeze r) wm = Some e /\ worker_ e = Some w /\ [1%nat; 0%nat] !! 1%nat = Some w.
Proof.
  intros r wm. destruct (stateless_routing r wm 12 7 0 [1%nat; 0%nat] 5 None) as (e & w & H1 & H2 & H3 & _);
    try reflexivity; try lia; try done.
  - intros w. rewrite !elem_of_cons, elem_of_nil. intros [->|[->|[]]]; vm_compute; by eexists.
  - exists e, w. splits; [exact H1|exact H2|exact H3].
Defined.

End Router.
