(* ===== verification/Md5.v ===== *)
(** * MD5 ([src/base/md5.hpp])

    The keys of the RPC interfaces are the first 64 bits of the MD5 digest of their names.
    The code computes the padded message byte by byte and uses shortened round functions;
    the reference below is the definition of RFC 1321.  Bytes are [Z] in [0, 256). *)

From S2P Require Import Prelude.

Module Md5.

Record IntermediateData := mkData { a : Z; b : Z; c : Z; d : Z }.

Definition kConstants : list Z := [
  0xd76aa478; 0xe8c7b756; 0x242070db; 0xc1bdceee; 0xf57c0faf; 0x4787c62a;
  0xa8304613; 0xfd469501; 0x698098d8; 0x8b44f7af; 0xffff5bb1; 0x895cd7be;
  0x6b901122; 0xfd987193; 0xa679438e; 0x49b40821; 0xf61e2562; 0xc040b340;
  0x265e5a51; 0xe9b6c7aa; 0xd62f105d; 0x02441453; 0xd8a1e681; 0xe7d3fbc8;
  0x21e1cde6; 0xc33707d6; 0xf4d50d87; 0x455a14ed; 0xa9e3e905; 0xfcefa3f8;
  0x676f02d9; 0x8d2a4c8a; 0xfffa3942; 0x8771f681; 0x6d9d6122; 0xfde5380c;
  0xa4beea44; 0x4bdecfa9; 0xf6bb4b60; 0xbebfbc70; 0x289b7ec6; 0xeaa127fa;
  0xd4ef3085; 0x04881d05; 0xd9d4d039; 0xe6db99e5; 0x1fa27cf8; 0xc4ac5665;
  0xf4292244; 0x432aff97; 0xab9423a7; 0xfc93a039; 0x655b59c3; 0x8f0ccc92;
  0xffeff47d; 0x85845dd1; 0x6fa87e4f; 0xfe2ce6e0; 0xa3014314; 0x4e0811a1;
  0xf7537e82; 0xbd3af235; 0x2ad7d2bb; 0xeb86d391 ].

Definition kShifts : list Z := [7; 12; 17; 22; 5; 9; 14; 20; 4; 11; 16; 23; 6; 10; 15; 21].

Definition kInitialIntermediateData : IntermediateData :=
  mkData 0x67452301 0xefcdab89 0x98badcfe 0x10325476.

(** ** The padded message; [n] and [m] are [uint32_t] *)

Definition GetPaddedMessageLength (n : Z) : Z := u32 (u32 (n + 1 + 8 + 63) / 64 * 64).

Definition ExtractByte (value i : Z) : Z := Z.land (Z.shiftr value (i * 8)) 0xff.

Definition GetPaddedMessageByte (data : list Z) (n m i : Z) : Z :=
  if i <? n then nth (Z.to_nat i) data 0
  else if i =? n then 0x80
  else if u32 (m - 8) <=? i then ExtractByte (u32 (n * 8)) (u32 (i - u32 (m - 8)))
  else 0.

Definition GetPaddedMessageWord (data : list Z) (n m i : Z) : Z :=
  Z.lor (Z.lor (Z.lor (GetPaddedMessageByte data n m i)
    (Z.shiftl (GetPaddedMessageByte data n m (i + 1)) 8))
    (Z.shiftl (GetPaddedMessageByte data n m (i + 2)) 16))
    (Z.shiftl (GetPaddedMessageByte data n m (i + 3)) 24).

Definition GetRoundData (data : list Z) (n m i : Z) : list Z :=
  (fun k => GetPaddedMessageWord data n m (i + 4 * Z.of_nat k)) <$> seq 0 16.

(** ** One step *)

Definition not32 (x : Z) : Z := Z.lxor x (Z.ones 32).

Definition CalcF (i : nat) (b c d : Z) : Z :=
  if (i <? 16)%nat then Z.lxor d (Z.land b (Z.lxor c d))
  else if (i <? 32)%nat then Z.lxor c (Z.land d (Z.lxor b c))
  else if (i <? 48)%nat then Z.lxor (Z.lxor b c) d
  else Z.lxor c (Z.lor b (not32 d)).

Definition CalcG (i : nat) : nat :=
  if (i <? 16)%nat then i
  else if (i <? 32)%nat then ((5 * i + 1) mod 16)%nat
  else if (i <? 48)%nat then ((3 * i + 5) mod 16)%nat
  else ((7 * i) mod 16)%nat.

Definition GetShift (i : nat) : Z := nth (i / 16 * 4 + i mod 4)%nat kShifts 0.

Definition LeftRotate (value bits : Z) : Z :=
  Z.lor (u32 (Z.shiftl value bits)) (Z.shiftr value (32 - bits)).

Definition ApplyStep (i : nat) (data : list Z) (x : IntermediateData) : IntermediateData :=
  let g := CalcG i in
  let f := u32 (CalcF i (b x) (c x) (d x) + a x + nth i kConstants 0 + nth g data 0) in
  let s := GetShift i in
  mkData (d x) (u32 (b x + LeftRotate f s)) (b x) (c x).

Definition Add (x y : IntermediateData) : IntermediateData :=
  mkData (u32 (a x + a y)) (u32 (b x + b y)) (u32 (c x + c y)) (u32 (d x + d y)).

(** ** The message *)

(** The loop over the blocks; [None] when the fuel runs out. *)
Fixpoint process_loop (fuel : nat) (data : list Z) (n m offset : Z) (x : IntermediateData) :
    option IntermediateData :=
  match fuel with
  | O => None
  | S k =>
      if offset <? m then
        let block := GetRoundData data n m offset in
        let y := foldl (fun y i => ApplyStep i block y) x (seq 0 64) in
        process_loop k data n m (u32 (offset + 64)) (Add x y)
      else Some x
  end.

Definition ProcessMessage (data : list Z) (n : Z) : option IntermediateData :=
  let m := GetPaddedMessageLength n in
  process_loop (S (Z.to_nat (m / 64))) data n m 0 kInitialIntermediateData.

Fixpoint StringLength (s : list Z) : Z :=
  match s with
  | [] => 0
  | x :: r => if x =? 0 then 0 else u32 (1 + StringLength r)
  end.

Definition SwapEndian (x : Z) : Z :=
  Z.lor (Z.lor (Z.lor (Z.shiftl (Z.land x 0xff) 24) (Z.shiftl (Z.land (Z.shiftr x 8) 0xff) 16))
    (Z.shiftl (Z.land (Z.shiftr x 16) 0xff) 8)) (Z.land (Z.shiftr x 24) 0xff).

Definition Hash64 (data : list Z) (n : Z) : option Z :=
  x ← ProcessMessage data n;
  Some (Z.lor (Z.shiftl (SwapEndian (a x)) 32) (SwapEndian (b x))).

Definition Hash32 (data : list Z) (n : Z) : option Z :=
  x ← ProcessMessage data n; Some (SwapEndian (a x)).

Definition MD5Hash32 (string : list Z) : option Z := Hash32 string (StringLength string).
Definition MD5Hash64 (string : list Z) : option Z := Hash64 string (StringLength string).

Example md5_abc : MD5Hash64 [97; 98; 99] = Some 0x900150983cd24fb0.
Proof. vm_compute. reflexivity. Qed.

Example md5_empty : MD5Hash64 [] = Some 0xd41d8cd98f00b204.
Proof. vm_compute. reflexivity. Qed.

(** ** The reference: RFC 1321 *)

Definition rfc_F (x y z : Z) : Z := Z.lor (Z.land x y) (Z.land (not32 x) z).
Definition rfc_G (x y z : Z) : Z := Z.lor (Z.land x z) (Z.land y (not32 z)).
Definition rfc_H (x y z : Z) : Z := Z.lxor (Z.lxor x y) z.
Definition rfc_I (x y z : Z) : Z := Z.lxor y (Z.lor x (not32 z)).

Definition rfc_round (i : nat) : (Z -> Z -> Z -> Z) * nat :=
  match (i / 16)%nat with
  | 0 => (rfc_F, i)
  | 1 => (rfc_G, (5 * i + 1) mod 16)
  | 2 => (rfc_H, (3 * i + 5) mod 16)
  | _ => (rfc_I, (7 * i) mod 16)
  end%nat.

Definition rfc_shift (i : nat) : Z :=
  nth (i mod 4) (nth (i / 16) [[7; 12; 17; 22]; [5; 9; 14; 20]; [4; 11; 16; 23]; [6; 10; 15; 21]] []) 0.

(** Rotation: what leaves on the left comes in on the right. *)
Definition rotl32 (x s : Z) : Z := (x * 2 ^ s) mod 2 ^ 32 + x / 2 ^ (32 - s).

Definition rfc_step (words : list Z) (x : IntermediateData) (i : nat) : IntermediateData :=
  let '(f, g) := rfc_round i in
  mkData (d x)
    (u32 (b x + rotl32 (u32 (a x + f (b x) (c x) (d x) + nth g words 0 + nth i kConstants 0)) (rfc_shift i)))
    (b x) (c x).

Definition rfc_compress (x : IntermediateData) (words : list Z) : IntermediateData :=
  Add x (foldl (rfc_step words) x (seq 0 64)).

(** The message, a one bit, zeros up to 56 modulo 64, and the length in bits. *)
Definition rfc_pad (msg : list Z) : list Z :=
  msg ++ [0x80] ++ replicate (Z.to_nat ((55 - Z.of_nat (length msg)) mod 64)) 0
    ++ le_bytes 8 (8 * Z.of_nat (length msg)).

Definition rfc_word (padded : list Z) (i : nat) : Z := le_value (take 4 (drop i padded)).

Definition rfc_block (padded : list Z) (k : nat) : list Z :=
  (fun j => rfc_word padded (64 * k + 4 * j)) <$> seq 0 16.

Definition rfc_state (msg : list Z) : IntermediateData :=
  let padded := rfc_pad msg in
  foldl (fun x k => rfc_compress x (rfc_block padded k)) kInitialIntermediateData
    (seq 0 (length padded / 64)).

Definition rfc_digest (msg : list Z) : list Z :=
  let x := rfc_state msg in le_bytes 4 (a x) ++ le_bytes 4 (b x) ++ le_bytes 4 (c x) ++ le_bytes 4 (d x).

Definition be_value (l : list Z) : Z := foldl (fun z x => 256 * z + x) 0 l.

Example rfc_abc : be_value (rfc_digest [97; 98; 99]) = 0x900150983cd24fb0d6963f7d28e17f72.
Proof. vm_compute. reflexivity. Qed.

(** ** Bit lemmas *)

Lemma testbit_high k x n : 0 <= x < 2 ^ k -> k <= n -> Z.testbit x n = false.
Proof.
  intros Hx Hn. destruct (decide (x = 0)) as [->|Hne]; [apply Z.bits_0|].
  apply Z.bits_above_log2; [lia|].
  assert (0 <= k) by (destruct (decide (0 <= k)); [done|]; rewrite Z.pow_neg_r in Hx; lia).
  apply Z.log2_lt_pow2; [lia|]. assert (2 ^ k <= 2 ^ n) by (apply Z.pow_le_mono_r; lia). lia.
Qed.

(** Disjoint halves: [lor] is addition. *)
Lemma lor_shiftl x y k : 0 <= k -> 0 <= x < 2 ^ k -> Z.lor x (Z.shiftl y k) = x + y * 2 ^ k.
Proof.
  intros Hk Hx. rewrite <- Z.shiftl_mul_pow2 by done. symmetry. apply Z.add_nocarry_lor.
  apply Z.bits_inj'. intros n Hn. rewrite Z.land_spec, Z.bits_0.
  destruct (decide (n < k)).
  - rewrite Z.shiftl_spec_low by lia. apply andb_false_r.
  - by rewrite (testbit_high k x n) by lia.
Qed.

Ltac bitwise :=
  apply Z.bits_inj'; intros n Hn;
  rewrite ?Z.lor_spec, ?Z.land_spec, ?Z.lxor_spec, ?Z.lor_spec, ?Z.land_spec, ?Z.lxor_spec;
  rewrite ?Z.testbit_ones_nonneg by lia.

Definition good_data (x : IntermediateData) : Prop :=
  in_u 32 (a x) /\ in_u 32 (b x) /\ in_u 32 (c x) /\ in_u 32 (d x).

(** The shortened round functions. *)
Lemma CalcF_spec i x y z :
  (i < 64)%nat -> in_u 32 x -> in_u 32 y -> in_u 32 z -> fst (rfc_round i) x y z = CalcF i x y z.
Proof.
  intros Hi Hx Hy Hz. unfold rfc_round, CalcF.
  destruct (Nat.ltb_spec i 16); [rewrite (Nat.div_small i 16) by lia|].
  { unfold fst, rfc_F, not32. bitwise. destruct (n <? 32) eqn:E.
    - by destruct (Z.testbit x n), (Z.testbit y n), (Z.testbit z n).
    - by rewrite (testbit_high 32 x), (testbit_high 32 y), (testbit_high 32 z) by (done || lia). }
  destruct (Nat.ltb_spec i 32).
  { rewrite <- (Nat.div_unique i 16 1 (i - 16)) by lia. unfold fst, rfc_G, not32. bitwise.
    destruct (n <? 32) eqn:E.
    - by destruct (Z.testbit x n), (Z.testbit y n), (Z.testbit z n).
    - by rewrite (testbit_high 32 x), (testbit_high 32 y), (testbit_high 32 z) by (done || lia). }
  destruct (Nat.ltb_spec i 48).
  { by rewrite <- (Nat.div_unique i 16 2 (i - 32)) by lia. }
  by rewrite <- (Nat.div_unique i 16 3 (i - 48)) by lia.
Qed.

(** The tables of the 64 steps, checked one by one. *)
Lemma tables_spec i : (i < 64)%nat ->
  snd (rfc_round i) = CalcG i /\ rfc_shift i = GetShift i /\ 0 < GetShift i < 32 /\ (CalcG i < 16)%nat.
Proof.
  intros Hi.
  assert (forallb (fun i => (snd (rfc_round i) =? CalcG i)%nat && (rfc_shift i =? GetShift i) &&
    (0 <? GetShift i) && (GetShift i <? 32) && (CalcG i <? 16)%nat) (seq 0 64) = true) as H
    by (vm_compute; reflexivity).
  rewrite List.forallb_forall in H. specialize (H i ltac:(apply in_seq; lia)). lia.
Qed.

Lemma rfc_round_spec i x y z :
  (i < 64)%nat -> in_u 32 x -> in_u 32 y -> in_u 32 z ->
  fst (rfc_round i) x y z = CalcF i x y z /\ snd (rfc_round i) = CalcG i /\ rfc_shift i = GetShift i /\
  0 < GetShift i < 32 /\ (CalcG i < 16)%nat.
Proof. intros Hi Hx Hy Hz. split; [by apply CalcF_spec|by apply tables_spec]. Qed.

Lemma LeftRotate_spec x s : in_u 32 x -> 0 < s < 32 -> LeftRotate x s = rotl32 x s.
Proof.
  intros Hx Hs. unfold LeftRotate, rotl32. rewrite Z.shiftl_mul_pow2, Z.shiftr_div_pow2 by lia.
  symmetry. apply Z.add_nocarry_lor. apply Z.bits_inj'. intros n Hn.
  rewrite Z.land_spec, Z.bits_0. destruct (decide (n < s)).
  - unfold wrapu. rewrite Z.mod_pow2_bits_low by lia. rewrite Z.mul_pow2_bits_low by lia. done.
  - rewrite (testbit_high s (x / 2 ^ (32 - s)) n); [apply andb_false_r| |lia].
    unfold in_u in Hx. split; [apply Z.div_pos; lia|].
    apply Z.div_lt_upper_bound; [lia|]. rewrite <- Z.pow_add_r by lia.
    replace (32 - s + s) with 32 by lia. lia.
Qed.

Lemma good_step i words x : (i < 64)%nat -> good_data x ->
  rfc_step words x i = ApplyStep i words x /\ good_data (ApplyStep i words x).
Proof.
  intros Hi (Ha & Hb & Hc & Hd).
  destruct (rfc_round_spec i (b x) (c x) (d x) Hi Hb Hc Hd) as (Hf & Hg & Hs & Hsr & _).
  unfold rfc_step, ApplyStep. destruct (rfc_round i) as [f g]. cbn [fst snd] in *.
  rewrite Hf, Hg, Hs. split.
  - rewrite LeftRotate_spec; [|by apply wrapu_range|done]. do 5 f_equal. lia.
  - unfold good_data. simpl. splits; auto. by apply wrapu_range.
Qed.

Lemma good_steps words l x :
  Forall (fun i => i < 64)%nat l -> good_data x ->
  foldl (rfc_step words) x l = foldl (fun y i => ApplyStep i words y) x l /\
  good_data (foldl (fun y i => ApplyStep i words y) x l).
Proof.
  intros Hl. revert x. induction Hl as [|i l Hi Hl IH]; intros x Hx; simpl; [done|].
  destruct (good_step i words x Hi Hx) as [-> Hx']. by apply IH.
Qed.

Lemma good_Add x y : good_data (Add x y).
Proof. unfold good_data. cbn [Add a b c d]. splits; by apply wrapu_range. Qed.

Lemma compress_spec words x : good_data x ->
  rfc_compress x words = Add x (foldl (fun y i => ApplyStep i words y) x (seq 0 64)) /\
  good_data (rfc_compress x words).
Proof.
  intros Hx. unfold rfc_compress.
  destruct (good_steps words (seq 0 64) x) as [-> _]; [|done|].
  { apply Forall_forall. intros i Hi. apply elem_of_seq in Hi. lia. }
  split; [done|apply good_Add].
Qed.

(** ** The padded message *)

Lemma nth_le_bytes k n z : (k < n)%nat -> 0 <= z ->
  nth k (le_bytes n z) 0 = Z.land (Z.shiftr z (Z.of_nat k * 8)) 0xff.
Proof.
  intros Hk Hz. revert k z Hk Hz. induction n as [|n IH]; intros k z Hk Hz; [lia|].
  change 0xff with (Z.ones 8). rewrite Z.land_ones by lia. destruct k as [|k]; simpl.
  - reflexivity.
  - rewrite IH by (try lia; apply Z.div_pos; lia). change 0xff with (Z.ones 8). rewrite Z.land_ones by lia.
    rewrite !Z.shiftr_div_pow2 by lia. change 256 with (2 ^ 8). rewrite Z.div_div by lia.
    rewrite <- Z.pow_add_r by lia. do 3 f_equal. lia.
Qed.

Section Padding.
Context (msg : list Z) (Hlen : Z.of_nat (length msg) < 2 ^ 29).

Let n := Z.of_nat (length msg).
Let m := GetPaddedMessageLength n.

Lemma padded_length : m = (n + 72) / 64 * 64 /\ Z.of_nat (length (rfc_pad msg)) = m /\ n + 9 <= m < 2 ^ 30.
Proof.
  assert (m = (n + 72) / 64 * 64) as Hm.
  { unfold m, GetPaddedMessageLength. replace (n + 1 + 8 + 63) with (n + 72) by lia.
    rewrite (wrapu_small 32 (n + 72)) by (unfold in_u, n; lia).
    apply wrapu_small. unfold in_u, n. pose proof (Z.mul_div_le (Z.of_nat (length msg) + 72) 64).
    pose proof (Z.div_pos (Z.of_nat (length msg) + 72) 64). lia. }
  split; [done|]. pose proof (Z.div_mod (n + 72) 64 ltac:(lia)) as Hd.
  pose proof (Z.mod_pos_bound (n + 72) 64 ltac:(lia)) as Hb.
  assert ((55 - n) mod 64 = 63 - (n + 72) mod 64) as Hz.
  { symmetry. apply (Z.mod_unique_pos _ _ (1 - (n + 72) / 64)); lia. }
  unfold rfc_pad. rewrite !length_app, length_replicate, length_le_bytes. cbn [length].
  fold n. rewrite Hz. split; [lia|]. unfold n in *. lia.
Qed.

Lemma padded_byte i : 0 <= i < m ->
  GetPaddedMessageByte msg n m i = nth (Z.to_nat i) (rfc_pad msg) 0.
Proof.
  intros Hi. pose proof padded_length as (_ & Hpl & Hm).
  unfold GetPaddedMessageByte. rewrite (wrapu_small 32 (m - 8)) by (unfold in_u, n in *; lia).
  unfold rfc_pad in *. rewrite !length_app, length_replicate, length_le_bytes in Hpl. cbn [length] in Hpl.
  fold n in Hpl |- *. set (z := Z.to_nat ((55 - n) mod 64)) in *.
  destruct (i <? n) eqn:E1; [by rewrite app_nth1 by (unfold n in *; lia)|].
  rewrite app_nth2 by (unfold n in *; lia).
  destruct (i =? n) eqn:E2.
  - replace (Z.to_nat i - length msg)%nat with 0%nat by (unfold n in *; lia). done.
  - rewrite app_nth2 by (cbn [length]; unfold n in *; lia). cbn [length].
    destruct (m - 8 <=? i) eqn:E3.
    + rewrite app_nth2 by (rewrite length_replicate; unfold n in *; lia). rewrite length_replicate.
      rewrite nth_le_bytes by (unfold n in *; lia). unfold ExtractByte.
      rewrite (wrapu_small 32 (n * 8)) by (unfold in_u, n in *; lia).
      rewrite (wrapu_small 32 (i - (m - 8))) by (unfold in_u, n in *; lia).
      do 2 f_equal; unfold n in *; lia.
    + rewrite app_nth1 by (rewrite length_replicate; unfold n in *; lia). rewrite nth_lookup.
      by rewrite lookup_replicate_2 by (unfold n in *; lia).
Qed.

Context (Hbytes : Forall (in_u 8) msg).

Lemma padded_byte_range i : 0 <= i < m -> in_u 8 (GetPaddedMessageByte msg n m i).
Proof.
  intros Hi. unfold GetPaddedMessageByte.
  destruct (i <? n) eqn:E1.
  - rewrite Forall_forall in Hbytes. apply Hbytes. rewrite nth_lookup.
    destruct (msg !! Z.to_nat i) eqn:E; [by apply list_elem_of_lookup_2 in E|].
    apply lookup_ge_None in E. unfold n in *. lia.
  - destruct (i =? n); [unfold in_u; lia|]. destruct (_ <=? i); [|unfold in_u; lia].
    unfold ExtractByte. change 0xff with (Z.ones 8). rewrite Z.land_ones by lia.
    unfold in_u. apply Z.mod_pos_bound. lia.
Qed.

Lemma le_value_4 (l : list Z) k : (k + 4 <= length l)%nat ->
  le_value (take 4 (drop k l)) =
    nth k l 0 + 256 * nth (k + 1) l 0 + 65536 * nth (k + 2) l 0 + 16777216 * nth (k + 3) l 0.
Proof.
  intros Hk. revert l Hk. induction k as [|k IH]; intros l Hk.
  - destruct l as [|x0 [|x1 [|x2 [|x3 l]]]]; simpl in Hk; try lia. cbn -[Z.mul Z.add]. rewrite take_0. cbn [le_value]. ring.
  - destruct l as [|x l]; simpl in Hk; [lia|]. apply (IH l). lia.
Qed.

Lemma padded_word i : 0 <= i -> i + 4 <= m ->
  GetPaddedMessageWord msg n m i = rfc_word (rfc_pad msg) (Z.to_nat i).
Proof.
  intros Hi Him. pose proof padded_length as (_ & Hpl & _).
  pose proof (padded_byte_range i ltac:(lia)) as H0.
  pose proof (padded_byte_range (i + 1) ltac:(lia)) as H1.
  pose proof (padded_byte_range (i + 2) ltac:(lia)) as H2.
  unfold in_u in *. unfold GetPaddedMessageWord.
  set (b0 := GetPaddedMessageByte msg n m i) in *.
  set (b1 := GetPaddedMessageByte msg n m (i + 1)) in *.
  set (b2 := GetPaddedMessageByte msg n m (i + 2)) in *.
  rewrite (lor_shiftl b0 b1 8) by lia. rewrite (lor_shiftl (b0 + b1 * 2 ^ 8) b2 16) by lia.
  rewrite lor_shiftl by lia. unfold b0, b1, b2. rewrite !padded_byte by lia.
  unfold rfc_word. rewrite le_value_4 by lia.
  replace (Z.to_nat (i + 1)) with (Z.to_nat i + 1)%nat by lia.
  replace (Z.to_nat (i + 2)) with (Z.to_nat i + 2)%nat by lia.
  replace (Z.to_nat (i + 3)) with (Z.to_nat i + 3)%nat by lia. ring.
Qed.

Lemma padded_block k : 64 * Z.of_nat k + 64 <= m ->
  GetRoundData msg n m (64 * Z.of_nat k) = rfc_block (rfc_pad msg) k.
Proof.
  intros Hk. unfold GetRoundData, rfc_block. apply list_fmap_ext. intros i j Hj.
  apply lookup_seq in Hj as [-> Hj]. simpl. rewrite padded_word by lia. f_equal. lia.
Qed.

(** The loop over the blocks from block [k] on. *)
Lemma process_loop_spec fuel k x :
  good_data x -> (Z.to_nat (m / 64) - k < fuel)%nat -> 64 * Z.of_nat k <= m ->
  process_loop fuel msg n m (64 * Z.of_nat k) x =
    Some (foldl (fun x k => rfc_compress x (rfc_block (rfc_pad msg) k)) x (seq k (Z.to_nat (m / 64) - k))).
Proof.
  pose proof padded_length as (Hm & _ & Hr).
  assert (m / 64 * 64 = m) as Hdiv by (rewrite Hm, Z.div_mul; lia).
  revert k x. induction fuel as [|fuel IH]; intros k x Hx Hf Hk; [lia|]. cbn [process_loop].
  destruct (_ <? m) eqn:E.
  - assert (64 * Z.of_nat k + 64 <= m) as Hk' by lia.
    rewrite wrapu_small by (unfold in_u; lia).
    replace (64 * Z.of_nat k + 64) with (64 * Z.of_nat (S k)) by lia.
    replace (Z.to_nat (m / 64) - k)%nat with (S (Z.to_nat (m / 64) - S k)) by lia.
    rewrite <- (cons_seq (Z.to_nat (m / 64) - S k) k). cbn [foldl]. rewrite padded_block by done.
    destruct (compress_spec (rfc_block (rfc_pad msg) k) x Hx) as [<- Hx'].
    apply IH; [done|lia|lia].
  - replace (Z.to_nat (m / 64) - k)%nat with 0%nat by lia. done.
Qed.

Lemma process_message_spec : ProcessMessage msg n = Some (rfc_state msg) /\ good_data (rfc_state msg).
Proof.
  pose proof padded_length as (Hm & Hpl & Hr).
  assert (good_data kInitialIntermediateData) as H0.
  { unfold good_data, in_u. cbn [a b c d kInitialIntermediateData]. lia. }
  split.
  - unfold ProcessMessage. fold m.
    rewrite (process_loop_spec _ 0) by (done || lia). unfold rfc_state. do 3 f_equal.
    rewrite Nat.sub_0_r. apply Nat2Z.inj. rewrite Nat2Z.inj_div, Z2Nat.id by (apply Z.div_pos; lia).
    f_equal. lia.
  - unfold rfc_state. revert H0. generalize (seq 0 (length (rfc_pad msg) / 64)) kInitialIntermediateData.
    intros l. induction l as [|k l IH]; intros x Hx; simpl; [done|]. apply IH. by apply compress_spec.
Qed.

End Padding.

(** ** The first eight bytes of the digest *)

Lemma SwapEndian_spec x : in_u 32 x -> SwapEndian x = be_value (le_bytes 4 x).
Proof.
  intros Hx. unfold SwapEndian, in_u in *. change 0xff with (Z.ones 8).
  rewrite !Z.land_ones, !Z.shiftr_div_pow2 by lia. cbn [le_bytes be_value foldl].
  change (2 ^ 8) with 256. rewrite !Z.div_div by lia.
  change (2 ^ 16) with 65536. change (2 ^ 24) with 16777216. change (256 * 256) with 65536.
  change (256 * 65536) with 16777216. change (65536 * 256) with 16777216.
  pose proof (Z.mod_pos_bound x 256 ltac:(lia)). pose proof (Z.mod_pos_bound (x / 256) 256 ltac:(lia)).
  pose proof (Z.mod_pos_bound (x / 65536) 256 ltac:(lia)).
  pose proof (Z.mod_pos_bound (x / 16777216) 256 ltac:(lia)).
  set (b0 := x mod 256) in *. set (b1 := (x / 256) mod 256) in *. set (b2 := (x / 65536) mod 256) in *.
  set (b3 := (x / 16777216) mod 256) in *.
  rewrite (Z.lor_comm (Z.lor (Z.lor _ _) _) b3). rewrite (Z.lor_comm (Z.lor _ _) (Z.shiftl b2 8)), Z.lor_assoc.
  rewrite (lor_shiftl b3 b2 8) by lia. rewrite (Z.lor_comm (Z.shiftl b0 24)), Z.lor_assoc.
  rewrite (lor_shiftl (b3 + b2 * 2 ^ 8) b1 16) by lia. rewrite lor_shiftl by lia. lia.
Qed.

(** C36: the key of an RPC interface is the number made of the first eight bytes of the MD5
    digest (RFC 1321) of its name, for every name of fewer than 2^29 bytes without a zero
    byte. *)
Theorem md5_hash64_is_rfc1321 (name : list Z) :
  Forall (fun x => 0 < x < 256) name -> Z.of_nat (length name) < 2 ^ 29 ->
  MD5Hash64 name = Some (be_value (take 8 (rfc_digest name))).
Proof.
  intros Hname Hlen. unfold MD5Hash64.
  assert (StringLength name = Z.of_nat (length name)) as ->.
  { clear -Hname Hlen. induction Hname as [|x r Hx Hr IH]; [done|].
    cbn [StringLength length] in *. replace (x =? 0) with false by lia.
    rewrite IH by lia. rewrite wrapu_small; [lia|unfold in_u; lia]. }
  destruct (process_message_spec name Hlen) as [Hp (Ha & Hb & _)].
  { eapply Forall_impl; [exact Hname|]. unfold in_u. simpl. lia. }
  unfold Hash64. rewrite Hp. cbn [mbind option_bind]. f_equal.
  unfold rfc_digest. rewrite app_assoc.
  rewrite take_app_length' by (by rewrite length_app, !length_le_bytes).
  assert (forall l1 l2, length l2 = 4%nat -> be_value (l1 ++ l2) = be_value l1 * 2 ^ 32 + be_value l2) as Happ.
  { intros l1 l2 H2. destruct l2 as [|x0 [|x1 [|x2 [|x3 [|]]]]]; try done.
    unfold be_value. rewrite foldl_app. cbn [foldl]. lia. }
  rewrite Happ by apply length_le_bytes. rewrite <- !SwapEndian_spec by done.
  assert (in_u 32 (SwapEndian (b (rfc_state name)))) as Hr.
  { rewrite SwapEndian_spec by done. unfold in_u. cbn [le_bytes be_value foldl].
    repeat match goal with |- context [?z mod 256] => pose proof (Z.mod_pos_bound z 256 ltac:(lia));
      generalize dependent (z mod 256); intros end. lia. }
  rewrite Z.lor_comm, lor_shiftl by (unfold in_u in *; lia). lia.
Qed.

Lemma md5_hash64_is_rfc1321_witness : MD5Hash64 [97; 98; 99] = Some 0x900150983cd24fb0.
Proof.
  rewrite (md5_hash64_is_rfc1321 [97; 98; 99]); [vm_compute; reflexivity|repeat constructor; lia|simpl; lia].
Defined.

End Md5.
