(* ===== verification/Network.v ===== *)
(** * NetworkManager: handlers and the dispatch of messages
    ([src/network/manager/network_manager.cpp], [network_manager.h])

    Handlers are registered by message type and by the hash of a method name, published by
    [Freeze], and found when a message arrives; the reply to an RPC finds the worker and the
    call that wait for it by the sequence number.  Handlers and calls are numbers. *)

From S2P Require Import Prelude TranBuf BufRead RouteTable Worker Router Md5 Session.
Import Router.

Module Network.

(** ** Sequence numbers: [SequenceId] of [rpc_call.h]

    Two 32-bit fields of a 64-bit word; the first field is in the low bits. *)
Definition sequence_id (index seq : Z) : Z := Z.lor (u32 index) (Z.shiftl (u32 seq) 32).
Definition sequence_index (value : Z) : Z := Z.land value (Z.ones 32).
Definition sequence_seq (value : Z) : Z := Z.shiftr (u64 value) 32.

(** [MsgMode]. *)
Definition Msg : Z := 0.
Definition Request : Z := 1.
Definition Response : Z := 2.

Record state := mkNet {
  router_ : Router.state;
  listen_function_map_ : gmap Z nat;
  rpc_interface_map_ : gmap Z nat;
  frozen_listen_map_ : option (gmap Z nat);
  frozen_rpc_interface_map_ : option (gmap Z nat);
}.

Definition init : state := mkNet Router.init ∅ ∅ None None.

Definition set_listen (m : gmap Z nat) (s : state) : state :=
  mkNet (router_ s) m (rpc_interface_map_ s) (frozen_listen_map_ s) (frozen_rpc_interface_map_ s).

Definition set_rpc (m : gmap Z nat) (s : state) : state :=
  mkNet (router_ s) (listen_function_map_ s) m (frozen_listen_map_ s) (frozen_rpc_interface_map_ s).

(** ** Registration *)

Definition ListenOption (ty : Z) (f : nat) (s : state) : state :=
  set_listen (<[ty := f]> (listen_function_map_ s)) s.

Definition UnListen (ty : Z) (s : state) : state :=
  set_listen (delete ty (listen_function_map_ s)) s.

(** [insert] of a [std::map] keeps the entry that is there. *)
Definition insert_new (key : Z) (f : nat) (m : gmap Z nat) : gmap Z nat :=
  match m !! key with Some _ => m | None => <[key := f]> m end.

Definition RegisterOption (method : list Z) (f : nat) (s : state) : option state :=
  key ← Md5.MD5Hash64 method; Some (set_rpc (insert_new key f (rpc_interface_map_ s)) s).

Definition UnRegister (method : list Z) (s : state) : option state :=
  key ← Md5.MD5Hash64 method; Some (set_rpc (delete key (rpc_interface_map_ s)) s).

Definition FindListenFunction (ty : Z) (s : state) : option nat :=
  match frozen_listen_map_ s with
  | Some frozen => frozen !! ty
  | None => listen_function_map_ s !! ty
  end.

Definition FindRpcFunction (method : Z) (s : state) : option nat :=
  match frozen_rpc_interface_map_ s with
  | Some frozen => frozen !! method
  | None => rpc_interface_map_ s !! method
  end.

(** [Freeze] publishes the maps and empties the mutable ones. *)
Definition Freeze (s : state) : state :=
  mkNet (Router.Freeze (router_ s)) ∅ ∅ (Some (listen_function_map_ s)) (Some (rpc_interface_map_ s)).

(** ** Calls *)

(** [CallImpl(meta, call, buffer)] up to [call->Call]: the meta that is sent, and what is
    recorded in the call ([SetId], [SetWorkerInfo]).  [None]: not on a worker thread. *)
Definition CallImpl (meta : Session.Meta) (call : nat) (th : thread) (wm : manager) :
    option (Session.Meta * (Z * Z) * manager) :=
  '(id, w) ← lock (current th) wm;
  let '(local_seq, w1) := Worker.AllocRpcSeq w in
  let worker_index := Worker.index w in
  let value := sequence_id worker_index local_seq in
  let meta' := Session.mkMeta (Session.mode meta) (Session.user_unique_id meta) (Session.type meta)
                 (Session.compress_type meta) (Session.method meta) value in
  let w2 := Worker.StorePendingRpc local_seq call w1 in
  Some (meta', (worker_index, local_seq), set_objs (<[id := w2]> (objs wm)) wm).

(** [Call(call, method, id, args...)]: the meta of a request by name. *)
Definition request_meta (method : list Z) (id : Z) : option Session.Meta :=
  key ← Md5.MD5Hash64 method; Some (Session.mkMeta Request id 0 0 key 0).

(** [RpcReply]: the meta of the request, turned round. *)
Definition reply_meta (meta : Session.Meta) : Session.Meta :=
  Session.mkMeta Response (Session.user_unique_id meta) (Session.type meta)
    (Session.compress_type meta) (Session.method meta) (Session.sequence meta).

(** ** Dispatch *)

Inductive action :=
  | Ignored                                  (* no handler, or an unknown mode *)
  | UnknownWorker
  | Handler (f : nat) (what : fate)          (* the handler and where it runs *)
  | ReplyPosted (id : nat) (local_seq : Z).

(** Messages and requests: the executor is chosen first, then the handler looked up. *)
Definition dispatch_handler (p : nat) (found : option nat) (e : executor) (th : thread) (wm : manager) :
    action * manager :=
  match found with
  | None => (Ignored, wm)
  | Some f =>
      let '(_, what, wm') := Router.Dispatch p (Some (Worker.User f)) e th wm in (Handler f what, wm')
  end.

(** [None] is a read of a freed snapshot of the entity table. *)
Definition Dispatch (p : nat) (meta : Session.Meta) (th : thread) (s : state) (wm : manager) :
    option (action * manager) :=
  let mode := Session.mode meta in
  if mode =? Msg then
    e ← GetExecutor (Session.type meta) (Session.user_unique_id meta) (router_ s) wm;
    Some (dispatch_handler p (FindListenFunction (Session.type meta) s) e th wm)
  else if mode =? Request then
    e ← GetExecutor (Session.type meta) (Session.user_unique_id meta) (router_ s) wm;
    Some (dispatch_handler p (FindRpcFunction (Session.method meta) s) e th wm)
  else if mode =? Response then
    let worker_index := sequence_index (Session.sequence meta) in
    let local_seq := sequence_seq (Session.sequence meta) in
    Some match GetWorker worker_index wm with
         | None => (UnknownWorker, wm)
         | Some id => (ReplyPosted id local_seq, post_to p (Some (Worker.Reply local_seq)) id wm)
         end
  else Some (Ignored, wm).

(** [OnReceiveCall]: the meta is read from the message ([ReadMeta] never returns false). *)
Definition OnReceiveCall (p : nat) (buffer : ReadBuffer.state) (meta_size : Z) (h : TranBufPool.heap)
    (th : thread) (s : state) (wm : manager) : option (action * manager) :=
  '(meta, _) ← Session.ReadMeta buffer Session.default_meta meta_size h;
  Dispatch p meta th s wm.

(** ** Sequence numbers round trip *)

Lemma sequence_roundtrip index seq :
  in_u 32 index -> in_u 32 seq ->
  in_u 64 (sequence_id index seq) /\ sequence_index (sequence_id index seq) = index /\
  sequence_seq (sequence_id index seq) = seq.
Proof.
  intros Hi Hs. unfold sequence_index, sequence_seq, sequence_id.
  rewrite !(wrapu_small 32) by done. unfold in_u in *.
  rewrite Md5.lor_shiftl by lia.
  assert (0 <= index + seq * 2 ^ 32 < 2 ^ 64) as Hr by lia.
  split; [done|]. split.
  - rewrite Z.land_ones by lia. rewrite Z.mod_add by lia. by apply Z.mod_small.
  - rewrite wrapu_small by (unfold in_u; lia). rewrite Z.shiftr_div_pow2 by lia.
    rewrite Z.div_add by lia. rewrite Z.div_small by lia. lia.
Qed.

(** ** A reply reaches the call that waits for it *)

(** C10: a worker makes a call; whenever the reply to the request it sent arrives while the
    call is still pending, exactly this worker gets a task, and this task takes the call
    out of the pending calls and completes it.  A reply that comes again completes
    nothing. *)
Theorem reply_reaches_its_call (ms : list manager_op) (i : Z) (id call p : nat) (meta : Session.Meta)
    (s : state) (main : bool) (io : thread) :
  let wm := manager_run ms manager_init in
  Z.of_nat (length (workers wm)) < 2 ^ 32 - 1 -> 0 <= i -> GetWorker i wm = Some id ->
  (forall w, objs wm !! id = Some w -> Worker.executor_ w = true /\ in_u 32 (Worker.rpc_seq_counter w)) ->
  exists sent local_seq wm1,
    CallImpl meta call (mkThread (Some id) main) wm = Some (sent, (i, local_seq), wm1) /\
    forall wm2 w2, workers wm2 = workers wm -> main_worker_ wm2 = main_worker_ wm ->
      objs wm2 !! id = Some w2 -> Worker.pending_rpcs w2 !! local_seq = Some call ->
      Worker.runing w2 = true -> Worker.shutting_down w2 = false ->
      exists wm3, Dispatch p (reply_meta sent) io s wm2 = Some (ReplyPosted id local_seq, wm3) /\
        objs wm3 = <[id := Worker.enqueue p (Worker.Reply local_seq) w2]> (objs wm2) /\
        exists w3, Worker.run_task p (Worker.Reply local_seq) w2 =
            (w3, [Worker.Ran p (Worker.Reply local_seq); Worker.RpcDone call]) /\
          Worker.pending_rpcs w3 = delete local_seq (Worker.pending_rpcs w2) /\
          snd (Worker.run_task p (Worker.Reply local_seq) w3) = [Worker.Ran p (Worker.Reply local_seq)].
Proof.
  intros wm Hlen Hi Hg Hw. destruct (GetWorker_alive ms i id Hlen Hi Hg) as (w & Ho & Hx).
  fold wm in Ho. destruct (Hw w Ho) as [He Hseq]. rewrite He in Hx. clear Hw He.
  assert (in_u 32 i) as Hi32.
  { unfold in_u. split; [done|]. unfold GetWorker in Hg.
    destruct (i =? 0) eqn:E0; [lia|]. destruct (_ <? i) eqn:E1; [done|]. lia. }
  clearbody wm. eexists _, (Worker.rpc_seq_counter w), _. split.
  { unfold CallImpl. cbn [lock current mbind option_bind]. rewrite Ho. cbn [mbind option_bind].
    unfold Worker.AllocRpcSeq. rewrite Hx. reflexivity. }
  intros wm2 w2 Hws Hm Ho2 Hp Hr Hs.
  destruct (sequence_roundtrip i (Worker.rpc_seq_counter w) Hi32 Hseq) as (_ & H1 & H2).
  exists (post_to p (Some (Worker.Reply (Worker.rpc_seq_counter w))) id wm2). split; [|split].
  - unfold Dispatch. cbn [reply_meta Session.mode Session.sequence Response Msg Request Z.eqb Pos.eqb].
    rewrite H1, H2. assert (GetWorker i wm2 = Some id) as ->; [|done].
    rewrite <- Hg. unfold GetWorker. by rewrite Hws, Hm.
  - unfold post_to. rewrite Ho2. cbn [set_objs objs]. f_equal.
    unfold Worker.Post, Worker.EnqueueTask, Worker.guard_shutdown. by rewrite Hr, Hs.
  - eexists. split; [|split].
    + unfold Worker.run_task, Worker.TakePendingRpc. rewrite Hp. reflexivity.
    + reflexivity.
    + unfold Worker.run_task, Worker.TakePendingRpc. cbn [Worker.pending_rpcs Worker.set_rpcs].
      by rewrite lookup_delete_eq.
Qed.

Lemma reply_reaches_its_call_witness :
  let wm := manager_run one_started manager_init in
  exists sent wm1 wm3,
    CallImpl (Session.mkMeta Request 5 0 0 99 0) 7 (mkThread (Some 1%nat) false) wm = Some (sent, (1, 1), wm1) /\
    Session.sequence sent = 2 ^ 32 + 1 /\
    Dispatch 0 (reply_meta sent) (mkThread None false) init wm1 = Some (ReplyPosted 1 1, wm3).
Proof.
  intros wm.
  destruct (reply_reaches_its_call one_started 1 1 7 0 (Session.mkMeta Request 5 0 0 99 0) init false
    (mkThread None false)) as (sent & seq & wm1 & Hc & Hd); [reflexivity|lia|reflexivity| |].
  { intros w Hw. vm_compute in Hw. injection Hw as <-. split; [done|unfold in_u; simpl; lia]. }
  pose proof Hc as Hc'. vm_compute in Hc'. injection Hc' as <- <- <-.
  edestruct Hd as (wm3 & H3 & _); [..|eexists _, _, wm3; split; [exact Hc|split; [reflexivity|exact H3]]];
    vm_compute; reflexivity.
Defined.

(** ** Handler tables *)

(** What a program does to the tables, by message type. *)
Inductive table_op := TListen (ty : Z) (f : nat) | TUnListen (ty : Z) | TFreeze.

Definition table_step (s : state) (o : table_op) : state :=
  match o with
  | TListen ty f => ListenOption ty f s
  | TUnListen ty => UnListen ty s
  | TFreeze => Freeze s
  end.

Definition table_run (os : list table_op) (s : state) : state := foldl table_step s os.

(** The specification: the handler of one type, as written and as published. *)
Definition spec_step (ty : Z) (x : option nat * option (option nat)) (o : table_op) :=
  match o with
  | TListen ty' f => if ty' =? ty then (Some f, snd x) else x
  | TUnListen ty' => if ty' =? ty then (None, snd x) else x
  | TFreeze => (None, Some (fst x))
  end.

Definition spec_run (ty : Z) (os : list table_op) := foldl (spec_step ty) (None, None) os.

(** The handler that is found for a message type is the last one registered before the
    first [Freeze], and from then on the one published by the last [Freeze], whatever is
    registered or removed in between; a second [Freeze] publishes only what was registered
    since the first, so the handlers of the first are gone. *)
Theorem handler_found (os : list table_op) (ty : Z) :
  FindListenFunction ty (table_run os init) =
    match spec_run ty os with (_, Some published) => published | (written, None) => written end.
Proof.
  unfold FindListenFunction, table_run, spec_run.
  assert (forall s x,
    (listen_function_map_ s !! ty = fst x /\ (fun m => m !! ty) <$> frozen_listen_map_ s = snd x) ->
    listen_function_map_ (foldl table_step s os) !! ty = fst (foldl (spec_step ty) x os) /\
    (fun m => m !! ty) <$> frozen_listen_map_ (foldl table_step s os) = snd (foldl (spec_step ty) x os)) as H.
  { induction os as [|o r IH]; intros s x Hx; simpl; [done|]. apply IH. destruct Hx as [H1 H2].
    destruct o as [ty' f|ty'|]; simpl.
    - destruct (ty' =? ty) eqn:E; simpl; split; try done.
      + replace ty' with ty by lia. apply lookup_insert_eq.
      + by rewrite lookup_insert_ne by lia.
    - destruct (ty' =? ty) eqn:E; simpl; split; try done.
      + replace ty' with ty by lia. apply lookup_delete_eq.
      + by rewrite lookup_delete_ne by lia.
    - split; [apply lookup_empty|]. cbn. by rewrite H1. }
  destruct (H init (None, None)) as [H1 H2]; [done|].
  destruct (frozen_listen_map_ _) as [m|]; simpl in H2; destruct (foldl (spec_step ty) _ os) as [w [p|]];
    simpl in *; congruence.
Qed.

(** Messages and requests with a handler run it by the executor of the router; without
    one, or with an unknown mode, nothing happens. *)
Theorem dispatch_by_mode (p : nat) (meta : Session.Meta) (th : thread) (s : state) (wm : manager) (e : executor) :
  GetExecutor (Session.type meta) (Session.user_unique_id meta) (router_ s) wm = Some e ->
  Session.mode meta <> Response ->
  let found := if Session.mode meta =? Msg then FindListenFunction (Session.type meta) s
               else if Session.mode meta =? Request then FindRpcFunction (Session.method meta) s else None in
  match found with
  | None => Dispatch p meta th s wm = Some (Ignored, wm)
  | Some f => exists ok what wm', Router.Dispatch p (Some (Worker.User f)) e th wm = (ok, what, wm') /\
      Dispatch p meta th s wm = Some (Handler f what, wm')
  end.
Proof.
  intros He Hm found. unfold Dispatch, found, dispatch_handler in *. rewrite He.
  destruct (Session.mode meta =? Msg).
  - destruct (FindListenFunction _ s) as [f|]; [|done]. cbn [mbind option_bind].
    destruct (Router.Dispatch p (Some (Worker.User f)) e th wm) as [[ok what] wm']. by exists ok, what, wm'.
  - destruct (Session.mode meta =? Request).
    + destruct (FindRpcFunction _ s) as [f|]; [|done]. cbn [mbind option_bind].
      destruct (Router.Dispatch p (Some (Worker.User f)) e th wm) as [[ok what] wm']. by exists ok, what, wm'.
    + by replace (Session.mode meta =? Response) with false by lia.
Qed.

Lemma dispatch_by_mode_witness :
  let wm := manager_run one_started manager_init in
  let s := Freeze (ListenOption 12 77 init) in
  exists ok what wm', Router.Dispatch 0 (Some (Worker.User 77)) (worker_executor (Some 0%nat) false) (mkThread None false) wm
      = (ok, what, wm') /\ what = PostedTo 0 /\
    Dispatch 0 (Session.mkMeta Msg 0 12 0 0 0) (mkThread None false) s wm = Some (Handler 77 what, wm').
Proof.
  intros wm s.
  pose proof (dispatch_by_mode 0 (Session.mkMeta Msg 0 12 0 0 0) (mkThread None false) s wm
    (worker_executor (Some 0%nat) false) eq_refl) as H.
  destruct H as (ok & what & wm' & H1 & H2); [done|]. exists ok, what, wm'.
  split; [exact H1|]. split; [vm_compute in H1; by injection H1|exact H2].
Defined.

(** ** Heartbeats are dispatched *)

(** A heartbeat is a frame with no meta and no payload.  The receiver reads a meta of
    no bytes, which leaves the default meta: a message of type 0 ([MT_Login]) without a
    user.  With a main worker and a listener for type 0, each heartbeat runs this
    listener. *)
Theorem heartbeat_runs_login_handler (ms : list manager_op) (main p f : nat) (h : TranBufPool.heap)
    (io : thread) (s : state) :
  let wm := manager_run ms manager_init in
  main_worker_ wm = Some main -> FindListenFunction 0 s = Some f -> current io = None ->
  OnReceiveCall p ReadBuffer.init 0 h io s wm =
    Some (Handler f (PostedTo main), post_to p (Some (Worker.User f)) main wm).
Proof.
  intros wm Hm Hf Hio. pose proof (manager_inv ms) as [_ _ Hinv].
  destruct (Hinv _ Hm) as (_ & w & Ho & _ & He). fold wm in Ho.
  unfold OnReceiveCall, Session.ReadMeta. cbn [ReadBuffer.Next ReadBuffer.init ReadBuffer.buf_list lookup
    list_lookup mbind option_bind].
  change (u64 0 =? 0) with true. cbn [mbind option_bind].
  unfold Dispatch, Session.default_meta. cbn [Session.mode Session.type Session.user_unique_id Msg Z.eqb].
  unfold GetExecutor. simpl. rewrite Hm. cbn [lock mbind option_bind]. rewrite Ho. cbn [mbind option_bind].
  rewrite Hf. unfold dispatch_handler, executor_of, Router.Dispatch, IsCurrent. rewrite He, Hio.
  cbn [worker_executor worker_ lock mbind option_bind]. rewrite Ho. done.
Qed.

Lemma heartbeat_runs_login_handler_witness :
  let wm := manager_run one_started manager_init in
  OnReceiveCall 0 ReadBuffer.init 0 (TranBufPool.mkHeap ∅ 0) (mkThread None false) (Freeze (ListenOption 0 42 init)) wm =
    Some (Handler 42 (PostedTo 0), post_to 0 (Some (Worker.User 42)) 0 wm).
Proof.
  intros wm. apply (heartbeat_runs_login_handler one_started); reflexivity.
Defined.

End Network.
