(* ===== verification/Msgpack.v ===== *)
(** * MessagePack: packing ([src/msgpack/msgpack.hpp], class [Packer])

    The arguments of an RPC are packed one after the other.  The C++ overloads are chosen by
    the static type, which is an inductive here; bytes are [Z] in [0, 256).  Lua values are
    packed by their dynamic type. *)

From S2P Require Import Prelude.

Module Msgpack.

(** ** Formats *)

Definition fmt_nil : Z := 0xc0.
Definition fmt_false : Z := 0xc2.
Definition fmt_true : Z := 0xc3.
Definition fmt_bin8 : Z := 0xc4.
Definition fmt_bin16 : Z := 0xc5.
Definition fmt_bin32 : Z := 0xc6.
Definition fmt_float32 : Z := 0xca.
Definition fmt_float64 : Z := 0xcb.
Definition fmt_uint8 : Z := 0xcc.
Definition fmt_uint16 : Z := 0xcd.
Definition fmt_uint32 : Z := 0xce.
Definition fmt_uint64 : Z := 0xcf.
Definition fmt_int8 : Z := 0xd0.
Definition fmt_int16 : Z := 0xd1.
Definition fmt_int32 : Z := 0xd2.
Definition fmt_int64 : Z := 0xd3.
Definition fmt_str8 : Z := 0xd9.
Definition fmt_str16 : Z := 0xda.
Definition fmt_str32 : Z := 0xdb.
Definition fmt_array16 : Z := 0xdc.
Definition fmt_array32 : Z := 0xdd.
Definition fmt_map16 : Z := 0xde.
Definition fmt_map32 : Z := 0xdf.
Definition fmt_table : Z := 0xe0.

(** ** Types and values *)

Inductive kind := I8 | I16 | I32 | I64 | U8 | U16 | U32 | U64.

(** [TyVector] is [std::vector] of anything but [uint8_t], which is [TyBin]; [TyMap] is
    [std::unordered_map], as the list of its entries. *)
Inductive ty :=
  | TyInt (k : kind) | TyBool | TyNil | TyString | TyBin | TyVector (t : ty) | TyMap (k v : ty).

Inductive value :=
  | VInt (z : Z) | VBool (b : bool) | VNil | VStr (s : list Z) | VBin (s : list Z)
  | VArray (l : list value) | VMap (l : list (value * value)).

Definition kind_width (k : kind) : Z :=
  match k with I8 | U8 => 8 | I16 | U16 => 16 | I32 | U32 => 32 | I64 | U64 => 64 end.

Definition kind_signed (k : kind) : bool :=
  match k with I8 | I16 | I32 | I64 => true | _ => false end.

(** [static_cast] to an integer type. *)
Definition cast (k : kind) (z : Z) : Z :=
  if kind_signed k then wraps (kind_width k) z else wrapu (kind_width k) z.

(** ** Packing *)

Definition byte (z : Z) : Z := u8 z.

(** The loops [for (i = n; i > 0; --i) push(value >> (8 * (i - 1)) & 0xff)]. *)
Fixpoint be_bytes (n : nat) (z : Z) : list Z :=
  match n with
  | O => []
  | S m => Z.land (Z.shiftr z (8 * Z.of_nat m)) 0xff :: be_bytes m z
  end.

Definition pack_int8 (v : Z) : list Z :=
  if (-32 <=? v) && (v <=? -1) then [byte (0xe0 + 32 + v)]
  else if (0 <=? v) && (v <=? 0x7f) then [byte v]
  else [fmt_int8; byte v].

Definition pack_int16 (v : Z) : list Z :=
  if (v <=? 127) && (-128 <=? v) then pack_int8 (wraps 8 v)
  else fmt_int16 :: be_bytes 2 (u16 v).

Definition pack_int32 (v : Z) : list Z :=
  if (v <=? 32767) && (-32768 <=? v) then pack_int16 (wraps 16 v)
  else fmt_int32 :: be_bytes 4 (u32 v).

Definition pack_int64 (v : Z) : list Z :=
  if (v <=? 2147483647) && (-2147483648 <=? v) then pack_int32 (wraps 32 v)
  else fmt_int64 :: be_bytes 8 (u64 v).

Definition pack_uint8 (v : Z) : list Z :=
  if v <=? 0x7f then [v] else [fmt_uint8; v].

Definition pack_uint16 (v : Z) : list Z :=
  if 255 <? v then fmt_uint16 :: be_bytes 2 v else pack_uint8 (u8 v).

Definition pack_uint32 (v : Z) : list Z :=
  if 65535 <? v then fmt_uint32 :: be_bytes 4 v else pack_uint16 (u16 v).

Definition pack_uint64 (v : Z) : list Z :=
  if 4294967295 <? v then fmt_uint64 :: be_bytes 8 v else pack_uint32 (u32 v).

Definition pack_int (k : kind) (v : Z) : list Z :=
  match k with
  | I8 => pack_int8 v | I16 => pack_int16 v | I32 => pack_int32 v | I64 => pack_int64 v
  | U8 => pack_uint8 v | U16 => pack_uint16 v | U32 => pack_uint32 v | U64 => pack_uint64 v
  end.

Definition pack_nil : list Z := [fmt_nil].

Definition pack_bool (b : bool) : list Z := if b then [fmt_true] else [fmt_false].

Definition pack_string (str : list Z) : list Z :=
  let len := Z.of_nat (length str) in
  if len <=? 31 then Z.lor 0xa0 len :: str
  else if len <=? 0xff then fmt_str8 :: byte len :: str
  else if len <=? 0xffff then fmt_str16 :: be_bytes 2 len ++ str
  else if len <=? 0xffffffff then fmt_str32 :: be_bytes 4 len ++ str
  else [].

Definition pack_bin (data : list Z) : list Z :=
  let size := Z.of_nat (length data) in
  if size <? 255 then fmt_bin8 :: byte size :: data
  else if size <? 65535 then fmt_bin16 :: be_bytes 2 size ++ data
  else if size <? 4294967295 then fmt_bin32 :: be_bytes 4 size ++ data
  else [].

(** The header of an array, then its items; nothing when it is too long. *)
Definition pack_array (items : list (list Z)) : list Z :=
  let size := Z.of_nat (length items) in
  if size <=? 15 then Z.lor 0x90 size :: concat items
  else if size <=? 0xffff then fmt_array16 :: be_bytes 2 size ++ concat items
  else if size <=? 0xffffffff then fmt_array32 :: be_bytes 4 size ++ concat items
  else [].

Definition pack_map (items : list (list Z * list Z)) : list Z :=
  let size := Z.of_nat (length items) in
  let body := concat ((fun kv => fst kv ++ snd kv) <$> items) in
  if size <=? 15 then Z.lor 0x80 size :: body
  else if size <=? 0xffff then fmt_map16 :: be_bytes 2 size ++ body
  else if size <=? 0xffffffff then fmt_map32 :: be_bytes 4 size ++ body
  else [].

(** [pack_type], by the static type; a value of another type packs to nothing. *)
Fixpoint pack_type (t : ty) (v : value) : list Z :=
  match t, v with
  | TyInt k, VInt z => pack_int k z
  | TyBool, VBool b => pack_bool b
  | TyNil, VNil => pack_nil
  | TyString, VStr s => pack_string s
  | TyBin, VBin s => pack_bin s
  | TyVector t, VArray l => pack_array (pack_type t <$> l)
  | TyMap k t, VMap l => pack_map ((fun kv => (pack_type k (fst kv), pack_type t (snd kv))) <$> l)
  | _, _ => []
  end.

(** [pack(args...)]. *)
Definition pack (args : list (ty * value)) : list Z := concat ((fun a => pack_type (fst a) (snd a)) <$> args).

(** ** Lua values

    A Lua number is an integer or a double; a double is the 64-bit pattern.  [LPackBase] is
    userdata of a class derived from [MsgPackBase], with the bytes its own [pack] appends
    ([None] when that is undefined; a [pack] that clears the packer is not modelled); [LOther] is
    what is not packed: functions, threads and other userdata. *)
Inductive lua :=
  | LNil | LInteger (z : Z) | LNumber (bits : Z) | LString (s : list Z) | LBoolean (b : bool)
  | LTable (l : list (lua * lua)) | LPackBase (packed : option (list Z)) | LOther.

(** IEEE 754 binary64: sign, biased exponent, fraction. *)
Definition f64_sign (bits : Z) : Z := bits / 2 ^ 63.
Definition f64_exp (bits : Z) : Z := (bits / 2 ^ 52) mod 2 ^ 11.
Definition f64_frac (bits : Z) : Z := bits mod 2 ^ 52.

(** The magnitude is [f64_mant * 2 ^ f64_e]. *)
Definition f64_mant (bits : Z) : Z :=
  if f64_exp bits =? 0 then f64_frac bits else f64_frac bits + 2 ^ 52.
Definition f64_e (bits : Z) : Z := Z.max 1 (f64_exp bits) - 1075.

(** [(int64_t)value]: truncation; undefined for what is out of range. *)
Definition f64_to_int64 (bits : Z) : option Z :=
  if f64_exp bits =? 2047 then None
  else
    let m := if 0 <=? f64_e bits then f64_mant bits * 2 ^ f64_e bits
             else f64_mant bits / 2 ^ (- f64_e bits) in
    let z := if f64_sign bits =? 1 then - m else m in
    if (- 2 ^ 63 <=? z) && (z <? 2 ^ 63) then Some z else None.

(** [double(i) == value] for the truncation [i]: the value has no fraction. *)
Definition f64_integral (bits : Z) : bool :=
  if 0 <=? f64_e bits then true else f64_mant bits mod 2 ^ (- f64_e bits) =? 0.

(** [pack_type(const double&)]; the bytes of the pattern are in native order. *)
Definition pack_double (bits : Z) : option (list Z) :=
  i ← f64_to_int64 bits;
  Some (if f64_integral bits then pack_int64 i else fmt_float64 :: le_bytes 8 bits).

(** [pack_stack_proxy] and [pack_table]; [None] is undefined behaviour. *)
Fixpoint pack_stack_proxy (x : lua) : option (list Z) :=
  match x with
  | LNil => Some pack_nil
  | LInteger z => Some (pack_int64 z)
  | LNumber bits => pack_double bits
  | LString s => Some (pack_string s)
  | LBoolean b => Some (pack_bool b)
  | LTable l =>
      body ← (fix go (l : list (lua * lua)) : option (list Z) :=
        match l with
        | [] => Some []
        | (k, v) :: r =>
            a ← pack_stack_proxy k; b ← pack_stack_proxy v; c ← go r; Some (a ++ b ++ c)
        end) l;
      Some (fmt_table :: be_bytes 4 (Z.of_nat (length l)) ++ body)
  | LPackBase packed => packed
  | LOther => Some []
  end.

(** ** Laws of the encodings *)

Fixpoint be_value (l : list Z) : Z :=
  match l with [] => 0 | b :: r => b * 256 ^ Z.of_nat (length r) + be_value r end.

Lemma length_be_bytes n z : length (be_bytes n z) = n.
Proof. induction n; simpl; auto. Qed.

Lemma be_bytes_value n z : be_value (be_bytes n z) = z mod 256 ^ Z.of_nat n.
Proof.
  induction n as [|n IH]; [simpl; by rewrite Z.mod_1_r|].
  cbn [be_bytes be_value]. rewrite length_be_bytes, IH.
  change 0xff with (Z.ones 8). rewrite Z.land_ones, Z.shiftr_div_pow2 by lia.
  replace (2 ^ (8 * Z.of_nat n)) with (256 ^ Z.of_nat n) by (rewrite Z.pow_mul_r by lia; done).
  rewrite Nat2Z.inj_succ, Z.pow_succ_r, (Z.mul_comm 256) by lia.
  rewrite Z.rem_mul_r by (try apply Z.pow_nonzero; lia). change (2 ^ 8) with 256. ring.
Qed.

Lemma be_bytes_range n z : Forall (in_u 8) (be_bytes n z).
Proof.
  induction n; simpl; constructor; [|done].
  change 0xff with (Z.ones 8). rewrite Z.land_ones by lia. unfold in_u. apply Z.mod_pos_bound. lia.
Qed.

(** Or-ing a small length into a format byte with low bits zero. *)
Lemma lor_small m k n : 0 <= n < 2 ^ k -> 0 <= k -> Z.lor (m * 2 ^ k) n = m * 2 ^ k + n.
Proof.
  intros Hn Hk. symmetry. apply Z.add_nocarry_lor. apply Z.bits_inj'. intros i Hi.
  rewrite Z.land_spec, Z.bits_0. destruct (decide (i < k)).
  - by rewrite Z.mul_pow2_bits_low by lia.
  - replace n with (n mod 2 ^ k) by (apply Z.mod_small; lia).
    by rewrite (Z.mod_pow2_bits_high n k i), andb_false_r by lia.
Qed.

Lemma lor_a0 n : 0 <= n < 32 -> Z.lor 0xa0 n = 0xa0 + n.
Proof. intros Hn. apply (lor_small 5 5 n); lia. Qed.
Lemma lor_90 n : 0 <= n < 16 -> Z.lor 0x90 n = 0x90 + n.
Proof. intros Hn. apply (lor_small 9 4 n); lia. Qed.
Lemma lor_80 n : 0 <= n < 16 -> Z.lor 0x80 n = 0x80 + n.
Proof. intros Hn. apply (lor_small 8 4 n); lia. Qed.

(** The first byte and the rest of a packed integer. *)
Definition in_kind (k : kind) (z : Z) : Prop :=
  if kind_signed k then in_s (kind_width k) z else in_u (kind_width k) z.

#[export] Instance in_kind_dec k z : Decision (in_kind k z).
Proof. unfold in_kind, in_s, in_u. destruct (kind_signed k); apply _. Defined.

Lemma cast_in k z : in_kind k z -> cast k z = z.
Proof.
  unfold in_kind, cast. destruct (kind_signed k).
  - intros H. apply wraps_small; [by destruct k|done].
  - intros H. by apply wrapu_small.
Qed.

Lemma cast_range k z : in_kind k (cast k z).
Proof.
  unfold in_kind, cast. destruct (kind_signed k).
  - apply wraps_range. by destruct k.
  - apply wrapu_range. by destruct k.
Qed.

End Msgpack.
