(* ===== verification/MsgUnpack.v ===== *)
(** * MessagePack: unpacking to C++ types ([src/msgpack/msgpack.hpp], class [Unpacker])

    The unpacker walks over the bytes with a pointer that stops at the end, and remembers
    errors in [ec]; a value that cannot be read keeps its default.  [None] stands for
    undefined behaviour (reads past the end, stores outside a vector, pointer overflow) and
    for the exceptions of the containers. *)

From S2P Require Import Prelude Msgpack.
Import Msgpack.

Module MsgUnpack.

(** The bytes from [dataPointer_] to [dataEnd_], and whether [ec] is set. *)
Record state := mkState { rest : list Z; ec : bool }.

Definition fail (s : state) : state := mkState (rest s) true.

Definition empty (s : state) : bool := match rest s with [] => true | _ => false end.

(** The byte at the pointer, 0 and an error at the end. *)
Definition safe_data (s : state) : Z * state :=
  match rest s with x :: _ => (x, s) | [] => (0, fail s) end.

Definition safe_incremen (size : nat) (s : state) : state :=
  if (size <=? length (rest s))%nat then mkState (drop size (rest s)) (ec s) else mkState [] true.

(** [dataPointer_ + size <= dataEnd_] for a 64-bit [size]: [None] when the pointer would
    wrap around the address space. *)
Definition fits (size : Z) (s : state) : option bool :=
  if size <? 2 ^ 63 then Some (size <=? Z.of_nat (length (rest s))) else None.

(** [read_be_unsigned] of an [n]-byte type. *)
Fixpoint read_be_loop (n : nat) (width out : Z) (s : state) : Z * state :=
  match n with
  | O => (out, s)
  | S m =>
      let '(x, s1) := safe_data s in
      read_be_loop m width (Z.lor (wrapu width (Z.shiftl out 8)) x) (safe_incremen 1 s1)
  end.

Definition read_be_unsigned (n : nat) (s : state) : Z * state :=
  read_be_loop n (8 * Z.of_nat n) 0 s.

(** Unary minus of an [n]-byte integer, assigned to one: computed in [int] for 1 and 2 bytes,
    undefined for the least value of 4 and 8 bytes. *)
Definition negate (n : nat) (a : Z) : option Z :=
  let w := 8 * Z.of_nat n in
  if (n <=? 2)%nat then Some (wraps w (- a))
  else if a =? - 2 ^ (w - 1) then None else Some (- a).

(** Two's complement, written out as in the code. *)
Definition read_be_signed (n : nat) (s : state) : option (Z * state) :=
  let w := 8 * Z.of_nat n in
  let '(u, s') := read_be_loop n w 0 s in
  if negb (Z.land u (2 ^ (w - 1)) =? 0) then
    z ← negate n (wraps w (wrapu w (Z.lxor u (Z.ones w) + 1))); Some (z, s')
  else Some (wraps w u, s').

(** ** Numbers *)

(** A [float] or [double] becomes an integer by truncation; [None] when out of range. *)
Definition f64_to_kind (k : kind) (bits : Z) : option Z :=
  z ← f64_to_int64 bits; if bool_decide (in_kind k z) then Some z else None.

(** The pattern in binary64 of a binary32 number; subnormals are normalised and NaNs made
    quiet, as the conversion does. *)
Definition f32_to_f64 (bits : Z) : Z :=
  let sign := bits / 2 ^ 31 in
  let e := (bits / 2 ^ 23) mod 2 ^ 8 in
  let f := bits mod 2 ^ 23 in
  if e =? 0 then
    if f =? 0 then sign * 2 ^ 63
    else sign * 2 ^ 63 + (Z.log2 f + 874) * 2 ^ 52 + (f - 2 ^ Z.log2 f) * 2 ^ (52 - Z.log2 f)
  else if e =? 255 then
    sign * 2 ^ 63 + 2047 * 2 ^ 52 + (if f =? 0 then 0 else Z.lor f (2 ^ 22)) * 2 ^ 29
  else sign * 2 ^ 63 + (e + 896) * 2 ^ 52 + f * 2 ^ 29.

(** [memcpy] from the pointer: undefined when fewer bytes are left. *)
Definition read_native (n : nat) (s : state) : option (Z * state) :=
  if (n <=? length (rest s))%nat then Some (le_value (take n (rest s)), safe_incremen n s) else None.

(** [unpack_number<T>] for any arithmetic [T]; [of_z], [of_f32] and [of_f64] are the casts of
    integers, floats and doubles to [T], the last two of the bits; [old] is the value the
    variable has. *)
Definition unpack_number_as {T : Type} (of_z : Z -> T) (of_f32 of_f64 : Z -> option T) (old : T) (s : state) :
    option (T * state) :=
  let '(x, s) := safe_data s in
  if x <=? 0x7f then Some (of_z x, safe_incremen 1 s)
  else if 0xe0 <=? x then Some (of_z (wraps 8 x), safe_incremen 1 s)
  else
    let unsigned n := let '(v, s') := read_be_unsigned n (safe_incremen 1 s) in Some (of_z v, s') in
    let signed n := '(v, s') ← read_be_signed n (safe_incremen 1 s); Some (of_z v, s') in
    if x =? fmt_uint64 then unsigned 8%nat
    else if x =? fmt_uint32 then unsigned 4%nat
    else if x =? fmt_uint16 then unsigned 2%nat
    else if x =? fmt_uint8 then unsigned 1%nat
    else if x =? fmt_int64 then signed 8%nat
    else if x =? fmt_int32 then signed 4%nat
    else if x =? fmt_int16 then signed 2%nat
    else if x =? fmt_int8 then signed 1%nat
    else if x =? fmt_float32 then
      '(b, s') ← read_native 4 (safe_incremen 1 s); v ← of_f32 b; Some (v, s')
    else if x =? fmt_float64 then
      '(b, s') ← read_native 8 (safe_incremen 1 s); v ← of_f64 b; Some (v, s')
    else Some (old, fail s).

(** [unpack_number<T>] for an integer type. *)
Definition unpack_number (k : kind) : Z -> state -> option (Z * state) :=
  unpack_number_as (cast k) (fun b => f64_to_kind k (f32_to_f64 b)) (f64_to_kind k).

(** A number becomes [true] when it is not zero.  For a [float] or [double] that is: a bit
    other than the sign is set; a NaN is [true], both zeros are [false]. *)
Definition z_to_bool (z : Z) : bool := negb (z =? 0).
Definition f32_to_bool (bits : Z) : bool := negb (bits mod 2 ^ 31 =? 0).
Definition f64_to_bool (bits : Z) : bool := negb (bits mod 2 ^ 63 =? 0).

(** Reading a [bool]; what is not a boolean byte is read by [unpack_number<bool>]. *)
Definition unpack_bool (s : state) : option (bool * state) :=
  let '(x, s1) := safe_data s in
  if x =? fmt_false then Some (false, safe_incremen 1 s1)
  else
    let '(x, s2) := safe_data s1 in
    if x =? fmt_true then Some (true, safe_incremen 1 s2)
    else unpack_number_as z_to_bool (fun b => Some (f32_to_bool b)) (fun b => Some (f64_to_bool b)) false s2.

(** ** Strings and byte vectors *)

Definition take_bytes (size : Z) (s : state) : option (list Z * state) :=
  ok ← fits size s;
  Some (if (ok : bool) then (take (Z.to_nat size) (rest s), safe_incremen (Z.to_nat size) s)
        else ([], fail s)).

(** The sizes behind [str16] and [str32] are read into a [size_t], that is 8 bytes. *)
Definition unpack_string (s : state) : option (list Z * state) :=
  let '(x, s) := safe_data s in
  if (0xa0 <=? x) && (x <=? 0xbf) then take_bytes (Z.land x 0x1f) (safe_incremen 1 s)
  else if x =? fmt_str32 then let '(n, s) := read_be_unsigned 8 (safe_incremen 1 s) in take_bytes n s
  else if x =? fmt_str16 then let '(n, s) := read_be_unsigned 8 (safe_incremen 1 s) in take_bytes n s
  else if x =? fmt_str8 then let '(n, s) := read_be_unsigned 1 (safe_incremen 1 s) in take_bytes n s
  else Some ([], fail s).

Definition unpack_bin (s : state) : option (list Z * state) :=
  let '(x, s) := safe_data s in
  if x =? fmt_bin32 then let '(n, s) := read_be_unsigned 8 (safe_incremen 1 s) in take_bytes n s
  else if x =? fmt_bin16 then let '(n, s) := read_be_unsigned 8 (safe_incremen 1 s) in take_bytes n s
  else if x =? fmt_bin8 then let '(n, s) := read_be_unsigned 1 (safe_incremen 1 s) in take_bytes n s
  else Some ([], fail s).

(** ** Containers *)

(** [T val{}]. *)
Definition default_value (t : ty) : value :=
  match t with
  | TyInt _ => VInt 0 | TyBool => VBool false | TyNil => VNil | TyString => VStr []
  | TyBin => VBin [] | TyVector _ => VArray [] | TyMap _ _ => VMap []
  end.

(** Keys of a map are integers, booleans or strings. *)
Definition key_eqb (a b : value) : bool :=
  match a, b with
  | VInt x, VInt y => x =? y
  | VBool x, VBool y => Bool.eqb x y
  | VStr x, VStr y => bool_decide (x = y)
  | _, _ => false
  end.

(** [insert_or_assign]; the entries are in the order of their insertion. *)
Fixpoint insert_or_assign (k v : value) (l : list (value * value)) : list (value * value) :=
  match l with
  | [] => [(k, v)]
  | (k', v') :: r => if key_eqb k' k then (k, v) :: r else (k', v') :: insert_or_assign k v r
  end.

Section Unpack.

(** The largest [reserve] that does not throw; it also bounds [resize]. *)
Context (max_reserve : Z).

Definition reserve (n : Z) : option nat := if n <=? max_reserve then Some (Z.to_nat n) else None.

(** The loops over [n] items. *)
Fixpoint items (f : state -> option (value * state)) (n : nat) (s : state) : option (list value * state) :=
  match n with
  | O => Some ([], s)
  | S m => '(v, s1) ← f s; '(l, s2) ← items f m s1; Some (v :: l, s2)
  end.

Fixpoint entries (f g : state -> option (value * state)) (n : nat) (acc : list (value * value)) (s : state) :
    option (list (value * value) * state) :=
  match n with
  | O => Some (acc, s)
  | S m => '(k, s1) ← f s; '(v, s2) ← g s1; entries f g m (insert_or_assign k v acc) s2
  end.

(** A Lua table read into a vector: [array[key - 1] = val] is not checked. *)
Fixpoint table_items (f : state -> option (value * state)) (n : nat) (acc : list value) (s : state) :
    option (list value * state) :=
  match n with
  | O => Some (acc, s)
  | S m =>
      '(key, s1) ← unpack_number I64 0 s;
      '(v, s2) ← f s1;
      if (1 <=? key) && (key <=? Z.of_nat (length acc)) then
        table_items f m (<[Z.to_nat (key - 1) := v]> acc) s2
      else None
  end.

Definition unpack_array (t : ty) (f : state -> option (value * state)) (s : state) :
    option (list value * state) :=
  let '(x, s) := safe_data s in
  if (0x90 <=? x) && (x <=? 0x9f) then
    n ← reserve (Z.land x 0x0f); items f n (safe_incremen 1 s)
  else if (x =? fmt_array32) || (x =? fmt_array16) then
    let '(size, s) := read_be_unsigned 8 (safe_incremen 1 s) in
    n ← reserve size; items f n s
  else if x =? fmt_table then
    let '(size, s) := read_be_unsigned 8 (safe_incremen 1 s) in
    n ← reserve size; table_items f n (replicate n (default_value t)) s
  else Some ([], fail s).

Definition unpack_map (f g : state -> option (value * state)) (s : state) :
    option (list (value * value) * state) :=
  let '(x, s) := safe_data s in
  if (0x80 <=? x) && (x <=? 0x8f) then
    n ← reserve (Z.land x 0x0f); entries f g n [] (safe_incremen 1 s)
  else if (x =? fmt_map32) || (x =? fmt_table) || (x =? fmt_map16) then
    let '(size, s) := read_be_unsigned 8 (safe_incremen 1 s) in
    n ← reserve size; entries f g n [] s
  else Some ([], s).

(** [unpack_type], by the static type. *)
Fixpoint unpack_type (t : ty) (s : state) : option (value * state) :=
  match t with
  | TyInt k => '(z, s') ← unpack_number k 0 s; Some (VInt z, s')
  | TyBool => '(b, s') ← unpack_bool s; Some (VBool b, s')
  | TyNil => Some (VNil, safe_incremen 1 s)
  | TyString => '(l, s') ← unpack_string s; Some (VStr l, s')
  | TyBin => '(l, s') ← unpack_bin s; Some (VBin l, s')
  | TyVector t => '(l, s') ← unpack_array t (unpack_type t) s; Some (VArray l, s')
  | TyMap k v => '(l, s') ← unpack_map (unpack_type k) (unpack_type v) s; Some (VMap l, s')
  end.

Fixpoint unpack_all (ts : list ty) (s : state) : option (list value * state) :=
  match ts with
  | [] => Some ([], s)
  | t :: r => '(v, s1) ← unpack_type t s; '(l, s2) ← unpack_all r s1; Some (v :: l, s2)
  end.

(** [unpack<Args...>(data, ec)]: the values and the error code. *)
Definition unpack (ts : list ty) (data : list Z) : option (list value * bool) :=
  '(l, s) ← unpack_all ts (mkState data false); Some (l, ec s).

End Unpack.

(** ** What every step of the unpacker keeps

    The pointer only advances and an error is never forgotten. *)

Record advance (s s' : state) : Prop := {
  advance_rest : rest s' `suffix_of` rest s;
  advance_ec : ec s = true -> ec s' = true }.

#[export] Instance advance_preorder : PreOrder advance.
Proof.
  split; [by split|]. intros a b c [H1 H2] [H3 H4]. split; [by etrans|auto].
Qed.

Definition bytes (s : state) : Prop := Forall (in_u 8) (rest s).

Lemma advance_bytes s s' : advance s s' -> bytes s -> bytes s'.
Proof. intros [[l E] _] H. unfold bytes in *. rewrite E in H. by apply Forall_app in H as [_ ?]. Qed.

Lemma fail_advance s : advance s (fail s).
Proof. by split. Qed.

Lemma safe_data_advance s x s' : safe_data s = (x, s') -> advance s s'.
Proof. unfold safe_data. destruct (rest s); intros [= <- <-]; [apply fail_advance|done]. Qed.

Lemma safe_incremen_advance n s : advance s (safe_incremen n s).
Proof.
  unfold safe_incremen. destruct (n <=? length (rest s))%nat; split; cbn; auto.
  - apply suffix_drop.
  - apply suffix_nil.
Qed.

Lemma safe_incremen_after n s s' : advance s s' -> advance s (safe_incremen n s').
Proof. intros H. etrans; [exact H|apply safe_incremen_advance]. Qed.

#[export] Hint Resolve fail_advance safe_data_advance safe_incremen_advance safe_incremen_after : gb.

Lemma read_be_loop_advance n w out s x s' : read_be_loop n w out s = (x, s') -> advance s s'.
Proof.
  revert out s. induction n as [|n IH]; intros out s; cbn [read_be_loop]; [by intros [= _ <-]|].
  destruct (safe_data s) as [y s1] eqn:E. intros H%IH. etrans; [|exact H]. eauto with gb.
Qed.

Lemma read_be_unsigned_advance n s x s' : read_be_unsigned n s = (x, s') -> advance s s'.
Proof. apply read_be_loop_advance. Qed.

Lemma read_be_signed_advance n s x s' : read_be_signed n s = Some (x, s') -> advance s s'.
Proof.
  unfold read_be_signed. destruct (read_be_loop _ _ _ _) as [u s1] eqn:E. apply read_be_loop_advance in E.
  case_if; [|by intros [= _ <-]]. by intros (z & _ & [= _ <-])%bind_Some.
Qed.

Lemma read_native_advance n s x s' : read_native n s = Some (x, s') -> advance s s'.
Proof. unfold read_native. case_if; [|done]. intros [= _ <-]. eauto with gb. Qed.

#[export] Hint Resolve read_be_unsigned_advance read_be_signed_advance read_native_advance : gb.

(** Walk through the steps of a function that returned [Some (v, s')]. *)
Ltac walk :=
  repeat match goal with
  | H : ?x = (_, _) |- _ => is_var x; subst x
  | H : context [let '(_, _) := ?e in _] |- _ => let E := fresh "E" in destruct e eqn:E
  | H : (_ ≫= _) = Some _ |- _ => apply bind_Some in H as [? [? H]]
  | H : context [if ?b then _ else _] |- _ => destruct b eqn:?
  | H : Some (_, _) = Some (_, _) |- _ => injection H as <- <-
  | H : None = Some _ |- _ => discriminate H
  end.

(** The chain of steps from a state to a later one. *)
Ltac chain :=
  solve [eauto 3 with gb
        | repeat match goal with
          | |- advance ?s ?s => reflexivity
          | H : safe_data ?s = (_, ?s1) |- advance ?s _ => etrans; [apply (safe_data_advance _ _ _ H)|]
          | H : safe_data _ = (_, ?s') |- advance _ ?s' => etrans; [|apply (safe_data_advance _ _ _ H)]
          | H : read_be_unsigned _ _ = (_, ?s') |- advance _ ?s' => etrans; [|apply (read_be_unsigned_advance _ _ _ _ H)]
          | H : read_be_signed _ _ = Some (_, ?s') |- advance _ ?s' => etrans; [|apply (read_be_signed_advance _ _ _ _ H)]
          | H : read_native _ _ = Some (_, ?s') |- advance _ ?s' => etrans; [|apply (read_native_advance _ _ _ _ H)]
          | H : advance _ ?s' |- advance _ ?s' => etrans; [|exact H]
          | |- advance _ (safe_incremen _ _) => apply safe_incremen_after
          | |- advance _ (fail _) => etrans; [|apply fail_advance]
          end].

Lemma f64_to_kind_in k b z : f64_to_kind k b = Some z -> in_kind k z.
Proof. unfold f64_to_kind. intros H. walk. case_bool_decide; [|done]. by injection H as <-. Qed.

Lemma unpack_number_advance {T} (of_z : Z -> T) of_f32 of_f64 old s z s' :
  unpack_number_as of_z of_f32 of_f64 old s = Some (z, s') -> advance s s'.
Proof. intros H. unfold unpack_number_as in H. walk; chain. Qed.

Lemma unpack_number_ok k old s z s' :
  in_kind k old -> unpack_number k old s = Some (z, s') -> in_kind k z /\ advance s s'.
Proof.
  intros Hold H. split; [|by eapply unpack_number_advance]. unfold unpack_number, unpack_number_as in H.
  walk; auto using cast_range; by eapply f64_to_kind_in.
Qed.

Lemma unpack_bool_advance s b s' : unpack_bool s = Some (b, s') -> advance s s'.
Proof.
  intros H. unfold unpack_bool in H. walk; try chain.
  match goal with E : unpack_number_as _ _ _ _ _ = Some _ |- _ => apply unpack_number_advance in E end. chain.
Qed.

Lemma take_bytes_advance n s l s' : take_bytes n s = Some (l, s') -> advance s s'.
Proof. unfold take_bytes. intros H. walk; chain. Qed.

Lemma take_bytes_ok n s l s' :
  bytes s -> take_bytes n s = Some (l, s') -> Forall (in_u 8) l /\ advance s s'.
Proof.
  intros Hs H. unfold take_bytes in H. walk; split; try chain; auto using Forall_take.
Qed.

Lemma unpack_string_ok s l s' :
  bytes s -> unpack_string s = Some (l, s') -> Forall (in_u 8) l /\ advance s s'.
Proof.
  intros Hs H. unfold unpack_string in H. walk.
  all: first [apply take_bytes_ok in H as [? ?]; [split; [done|chain]|eapply advance_bytes; [|done]; chain]
             |split; [done|chain]].
Qed.

Lemma unpack_bin_ok s l s' :
  bytes s -> unpack_bin s = Some (l, s') -> Forall (in_u 8) l /\ advance s s'.
Proof.
  intros Hs H. unfold unpack_bin in H. walk.
  all: first [apply take_bytes_ok in H as [? ?]; [split; [done|chain]|eapply advance_bytes; [|done]; chain]
             |split; [done|chain]].
Qed.

(** ** Typing *)

Definition key_type (t : ty) : bool :=
  match t with TyInt _ | TyBool | TyString => true | _ => false end.

Fixpoint ty_ok (t : ty) : bool :=
  match t with TyVector t => ty_ok t | TyMap k t => key_type k && ty_ok t | _ => true end.

(** The values of a C++ type; the keys of a map are distinct. *)
Fixpoint has_type (t : ty) (v : value) : Prop :=
  match t, v with
  | TyInt k, VInt z => in_kind k z
  | TyBool, VBool _ => True
  | TyNil, VNil => True
  | TyString, VStr s => Forall (in_u 8) s
  | TyBin, VBin s => Forall (in_u 8) s
  | TyVector t, VArray l => Forall (has_type t) l
  | TyMap k t, VMap l => Forall (fun kv => has_type k kv.1 /\ has_type t kv.2) l /\ NoDup l.*1
  | _, _ => False
  end.

Lemma default_has_type t : has_type t (default_value t).
Proof. destruct t; cbn; auto using NoDup_nil_2. by destruct k. Qed.

Lemma key_eqb_spec t a b : key_type t -> has_type t a -> has_type t b -> key_eqb a b = true <-> a = b.
Proof.
  destruct t, a, b; try done; intros _ _ _; cbn.
  - rewrite Z.eqb_eq. split; [by intros ->|by intros [= ->]].
  - rewrite eqb_true_iff. split; [by intros ->|by intros [= ->]].
  - rewrite bool_decide_eq_true. split; [by intros ->|by intros [= ->]].
Qed.

Lemma insert_or_assign_keys k v l x :
  x ∈ (insert_or_assign k v l).*1 -> x = k \/ x ∈ l.*1.
Proof.
  induction l as [|[k' v'] l IH]; cbn; [rewrite list_elem_of_singleton; auto|].
  destruct (key_eqb k' k); cbn; rewrite !elem_of_cons; tauto.
Qed.

Lemma insert_or_assign_typed kt t k v l :
  key_type kt -> has_type kt k -> has_type t v -> has_type (TyMap kt t) (VMap l) ->
  has_type (TyMap kt t) (VMap (insert_or_assign k v l)).
Proof.
  intros Hkt Hk Hv. cbn. induction l as [|[k' v'] l IH]; cbn.
  { intros _. split; [auto|]. apply NoDup_cons; split; [set_solver|constructor]. }
  intros [Hl Hnd]. apply Forall_cons in Hl as [[Hk' Hv'] Hl]. apply NoDup_cons in Hnd as [Hn Hnd].
  cbn in *. destruct (key_eqb k' k) eqn:E; cbn.
  - apply (key_eqb_spec kt) in E as ->; auto. split; [by constructor|by apply NoDup_cons].
  - destruct IH as [IH1 IH2]; [auto|]. split; [by constructor|]. apply NoDup_cons. split; [|done].
    intros [->|?]%insert_or_assign_keys; [|done].
    assert (key_eqb k k = true) by (by apply (key_eqb_spec kt)). congruence.
Qed.

(** A reader for the values with property [P]. *)
Definition reads (P : value -> Prop) (f : state -> option (value * state)) : Prop :=
  forall s v s', bytes s -> f s = Some (v, s') -> P v /\ advance s s'.

Lemma items_ok P f n s l s' :
  reads P f -> bytes s -> items f n s = Some (l, s') -> Forall P l /\ advance s s'.
Proof.
  intros Hf. revert s l. induction n as [|n IH]; intros s l Hs H; cbn in H.
  { injection H as <- <-. by split. }
  apply bind_Some in H as [[v s1] [H1 H]]. apply bind_Some in H as [[r s2] [H2 H]].
  injection H as <- <-. apply Hf in H1 as [Hv A1]; [|done].
  apply IH in H2 as [Hr A2]; [|by eapply advance_bytes]. split; [by constructor|by etrans].
Qed.

Lemma entries_ok kt t f g n acc s l s' :
  key_type kt -> reads (has_type kt) f -> reads (has_type t) g -> bytes s ->
  has_type (TyMap kt t) (VMap acc) -> entries f g n acc s = Some (l, s') ->
  has_type (TyMap kt t) (VMap l) /\ advance s s'.
Proof.
  intros Hkt Hf Hg. revert acc s. induction n as [|n IH]; intros acc s Hs Hacc H; cbn [entries] in H.
  { injection H as <- <-. by split. }
  apply bind_Some in H as [[k s1] [H1 H]]. apply bind_Some in H as [[v s2] [H2 H]].
  apply Hf in H1 as [Hk A1]; [|done].
  apply Hg in H2 as [Hv A2]; [|by eapply advance_bytes].
  assert (advance s s2) as A by by etrans.
  apply IH in H as [Hl A3]; [split; [done|by etrans]|by eapply advance_bytes|].
  by apply insert_or_assign_typed.
Qed.

Lemma table_items_ok P f n acc s l s' :
  reads P f -> bytes s -> Forall P acc -> table_items f n acc s = Some (l, s') ->
  Forall P l /\ advance s s'.
Proof.
  intros Hf. revert acc s. induction n as [|n IH]; intros acc s Hs Hacc H; cbn [table_items] in H.
  { injection H as <- <-. by split. }
  apply bind_Some in H as [[k s1] [H1 H]]. apply bind_Some in H as [[v s2] [H2 H]].
  apply unpack_number_ok in H1 as [_ A1]; [|done].
  apply Hf in H2 as [Hv A2]; [|by eapply advance_bytes].
  assert (advance s s2) as A by by etrans.
  destruct (_ && _); [|done].
  apply IH in H as [Hl A3]; [split; [done|by etrans]|by eapply advance_bytes|by apply Forall_insert].
Qed.

Lemma reserve_in m n k : reserve m n = Some k -> k = Z.to_nat n.
Proof. unfold reserve. case_if; [|done]. by intros [= <-]. Qed.

Lemma unpack_array_ok m t f s l s' :
  reads (has_type t) f -> bytes s -> unpack_array m t f s = Some (l, s') ->
  has_type (TyVector t) (VArray l) /\ advance s s'.
Proof.
  intros Hf Hs H. unfold unpack_array in H. walk.
  all: first [apply (items_ok (has_type t)) in H as [? ?]
             |apply (table_items_ok (has_type t)) in H as [? ?]
             |split; [by constructor|chain]].
  all: try (split; [done|chain]).
  all: try (eapply advance_bytes; [|exact Hs]; chain); try done.
  apply Forall_replicate, default_has_type.
Qed.

Lemma unpack_map_ok m kt t f g s l s' :
  key_type kt -> reads (has_type kt) f -> reads (has_type t) g -> bytes s ->
  unpack_map m f g s = Some (l, s') -> has_type (TyMap kt t) (VMap l) /\ advance s s'.
Proof.
  intros Hkt Hf Hg Hs H. unfold unpack_map in H.
  assert (has_type (TyMap kt t) (VMap [])) as Hnil by (split; constructor).
  walk.
  all: first [apply (entries_ok kt t) in H as [? ?]|split; [done|chain]]; auto.
  all: try (split; [done|chain]).
  all: eapply advance_bytes; [|exact Hs]; chain.
Qed.

Lemma unpack_type_reads m t : ty_ok t -> reads (has_type t) (unpack_type m t).
Proof.
  induction t as [k| | | | |t IH|kt IHk t IH]; intros Ht s v s' Hs H; cbn [unpack_type] in H.
  - walk. eapply unpack_number_ok; [|done]. by destruct k.
  - walk. split; [done|]. by eapply unpack_bool_advance.
  - injection H as <- <-. split; [done|]. chain.
  - walk. by apply unpack_string_ok.
  - walk. by apply unpack_bin_ok.
  - walk. eapply unpack_array_ok; [|done..]. by apply IH.
  - cbn in Ht. apply andb_prop_elim in Ht as [Hk Ht].
    walk. eapply unpack_map_ok; [done| |by apply IH|done..].
    apply IHk. by destruct kt.
Qed.

(** ** Reading what was packed *)

(** [f] reads [v] from the bytes [bs] and leaves the rest. *)
Definition decodes {A} (f : state -> option (A * state)) (v : A) (bs : list Z) : Prop :=
  forall r e, f (mkState (bs ++ r) e) = Some (v, mkState r e).

Lemma safe_incremen_app l r e n : length l = n -> safe_incremen n (mkState (l ++ r) e) = mkState r e.
Proof.
  intros <-. unfold safe_incremen. cbn [rest ec]. rewrite length_app.
  destruct (Nat.leb_spec (length l) (length l + length r)); [|lia]. by rewrite drop_app_length.
Qed.

Lemma safe_incremen_cons x r e : safe_incremen 1 (mkState (x :: r) e) = mkState r e.
Proof. apply (safe_incremen_app [x]). done. Qed.

Lemma shift_byte out x : 0 <= x < 256 -> Z.lor (Z.shiftl out 8) x = out * 256 + x.
Proof. intros Hx. rewrite Z.shiftl_mul_pow2 by lia. apply (lor_small out 8 x); lia. Qed.

Lemma be_value_range l : Forall (in_u 8) l -> 0 <= be_value l < 256 ^ Z.of_nat (length l).
Proof.
  induction 1 as [|x l Hx _ IH]; [done|]. cbn [be_value length].
  rewrite Nat2Z.inj_succ, Z.pow_succ_r by lia. unfold in_u in Hx. nia.
Qed.

Lemma pow256 n : 2 ^ (8 * Z.of_nat n) = 256 ^ Z.of_nat n.
Proof. rewrite Z.pow_mul_r by lia. done. Qed.

Lemma read_be_loop_app l w out r e :
  Forall (in_u 8) l -> 0 <= out -> out * 256 ^ Z.of_nat (length l) + be_value l < 2 ^ w ->
  read_be_loop (length l) w out (mkState (l ++ r) e) =
  (out * 256 ^ Z.of_nat (length l) + be_value l, mkState r e).
Proof.
  intros Hl. revert out. induction Hl as [|x l Hx Hl IH]; intros out Hout Hw.
  { cbn. f_equal. lia. }
  cbn [length read_be_loop app be_value] in *. unfold safe_data. cbn [rest].
  rewrite safe_incremen_cons. pose proof (be_value_range l Hl).
  rewrite Nat2Z.inj_succ, Z.pow_succ_r in * by lia. unfold in_u in Hx.
  rewrite wrapu_small, shift_byte by (try unfold in_u; rewrite ?Z.shiftl_mul_pow2 by lia; nia).
  rewrite IH by nia. f_equal. ring.
Qed.

Lemma read_be_bytes n v r e :
  read_be_unsigned n (mkState (be_bytes n v ++ r) e) = (v mod 256 ^ Z.of_nat n, mkState r e).
Proof.
  unfold read_be_unsigned. rewrite <- (length_be_bytes n v) at 1.
  pose proof (be_value_range _ (be_bytes_range n v)) as H.
  rewrite read_be_loop_app by (try apply be_bytes_range; rewrite ?pow256; rewrite ?length_be_bytes in *; lia).
  rewrite be_bytes_value. done.
Qed.

Lemma lxor_ones w u : 0 <= w -> in_u w u -> Z.lxor u (Z.ones w) = 2 ^ w - 1 - u.
Proof.
  intros Hw Hu. replace (2 ^ w - 1) with (Z.ones w) by (rewrite Z.ones_equiv; lia).
  assert (forall i, w <= i -> Z.testbit u i = false) as Hhigh.
  { intros i Hi. rewrite <- (Z.mod_small u (2 ^ w)) by done. apply Z.mod_pow2_bits_high. lia. }
  rewrite Z.sub_nocarry_ldiff; apply Z.bits_inj'; intros i Hi.
  - rewrite Z.lxor_spec, Z.ldiff_spec. destruct (decide (i < w)).
    + rewrite Z.ones_spec_low by lia. by destruct (Z.testbit u i).
    + rewrite Z.ones_spec_high by lia. by rewrite Hhigh by lia.
  - rewrite Z.ldiff_spec, Z.bits_0. destruct (decide (i < w)).
    + rewrite Z.ones_spec_low by lia. apply andb_false_r.
    + by rewrite Hhigh by lia.
Qed.

Lemma read_be_signed_bytes n v r e :
  (0 < n)%nat -> in_s (8 * Z.of_nat n) v -> (n <= 2)%nat \/ v <> - 2 ^ (8 * Z.of_nat n - 1) ->
  read_be_signed n (mkState (be_bytes n v ++ r) e) = Some (v, mkState r e).
Proof.
  intros Hn Hv Hmin. unfold read_be_signed.
  pose proof (read_be_bytes n v r e) as H. unfold read_be_unsigned in H. rewrite H. clear H.
  rewrite <- pow256. unfold negate. set (w := 8 * Z.of_nat n) in *.
  assert (0 < w) as Hw by lia.
  assert (2 ^ w = 2 * 2 ^ (w - 1)) as E by (rewrite <- Z.pow_succ_r by lia; f_equal; lia).
  assert (Z.land (v mod 2 ^ w) (2 ^ (w - 1)) = if v <? 0 then 2 ^ (w - 1) else 0) as ->.
  { apply Z.bits_inj'. intros i Hi. rewrite Z.land_spec, Z.pow2_bits_eqb by lia.
    destruct (Z.eqb_spec (w - 1) i) as [<-|]; rewrite ?andb_true_r, ?andb_false_r.
    - rewrite Z.mod_pow2_bits_low by lia. unfold in_s in Hv.
      rewrite (Z.testbit_odd v), Z.shiftr_div_pow2 by lia.
      destruct (Z.ltb_spec v 0).
      + rewrite Z.pow2_bits_true by lia. replace (v / 2 ^ (w - 1)) with (-1); [done|].
        apply Z.div_unique with (v + 2 ^ (w - 1)); lia.
      + rewrite Z.bits_0, Z.div_small by lia. done.
    - destruct (v <? 0); [|by rewrite Z.bits_0]. by rewrite Z.pow2_bits_false by lia. }
  unfold in_s in Hv. assert (0 < 2 ^ (w - 1)) by lia. destruct (Z.ltb_spec v 0).
  - destruct (Z.eqb_spec (2 ^ (w - 1)) 0); [lia|]. cbn [negb].
    replace (v mod 2 ^ w) with (v + 2 ^ w) by (apply Z.mod_unique with (-1); lia).
    rewrite lxor_ones by (unfold in_u; lia).
    replace (2 ^ w - 1 - (v + 2 ^ w) + 1) with (- v) by lia.
    rewrite wrapu_small by (unfold in_u; lia).
    destruct (decide (v = - 2 ^ (w - 1))) as [->|].
    + assert (wraps w (- - 2 ^ (w - 1)) = - 2 ^ (w - 1)) as ->.
      { unfold wraps.
        replace (- - 2 ^ (w - 1) + 2 ^ (w - 1)) with (2 ^ w) by lia. rewrite Z_mod_same_full. lia. }
      destruct (Nat.leb_spec n 2); [|lia]. cbn. do 2 f_equal.
      unfold wraps. replace (- - 2 ^ (w - 1) + 2 ^ (w - 1)) with (2 ^ w) by lia.
      rewrite Z_mod_same_full. lia.
    + rewrite (wraps_small w (- v)) by (unfold in_s; lia). rewrite Z.opp_involutive.
      destruct (n <=? 2)%nat; cbn.
      * by rewrite wraps_small by done.
      * destruct (Z.eqb_spec (- v) (- 2 ^ (w - 1))); [lia|done].
  - cbn [negb Z.eqb]. rewrite Z.mod_small by lia. rewrite wraps_small; [done|lia|]. unfold in_s. lia.
Qed.

(** [bs] is read as the number [z] by every integer type. *)
Definition num (z : Z) (bs : list Z) : Prop :=
  forall k old, decodes (unpack_number k old) (cast k z) bs.

Lemma num_fixpos z : 0 <= z <= 0x7f -> num z [z].
Proof.
  intros Hz k old r e. unfold unpack_number, unpack_number_as, safe_data. cbn [rest app].
  rewrite (proj2 (Z.leb_le z 0x7f)) by lia. by rewrite safe_incremen_cons.
Qed.

Lemma num_fixneg z : -32 <= z <= -1 -> num z [256 + z].
Proof.
  intros Hz k old r e. unfold unpack_number, unpack_number_as, safe_data. cbn [rest app].
  rewrite (proj2 (Z.leb_gt (256 + z) 0x7f)), (proj2 (Z.leb_le 0xe0 (256 + z))) by lia.
  rewrite safe_incremen_cons. replace (wraps 8 (256 + z)) with z; [done|].
  unfold wraps. replace (256 + z + 2 ^ (8 - 1)) with (z + 2 ^ 7 + 1 * 2 ^ 8) by lia.
  rewrite Z_mod_plus_full, Z.mod_small; lia.
Qed.

Lemma num_unsigned n fmt z :
  (n, fmt) ∈ [(1%nat, fmt_uint8); (2%nat, fmt_uint16); (4%nat, fmt_uint32); (8%nat, fmt_uint64)] ->
  0 <= z < 256 ^ Z.of_nat n -> num z (fmt :: be_bytes n z).
Proof.
  intros Hn Hz k old r e. unfold unpack_number, unpack_number_as, safe_data. cbn [rest app].
  repeat (apply elem_of_cons in Hn as [[= -> ->]|Hn]; [|]); [..|by apply elem_of_nil in Hn].
  all: cbn -[Z.pow safe_incremen read_be_unsigned cast be_bytes app Z.of_nat] in Hz |- *.
  all: rewrite safe_incremen_cons.
  all: rewrite (read_be_bytes _ z), Z.mod_small by done; done.
Qed.

Lemma num_signed n fmt z :
  (n, fmt) ∈ [(1%nat, fmt_int8); (2%nat, fmt_int16); (4%nat, fmt_int32); (8%nat, fmt_int64)] ->
  in_s (8 * Z.of_nat n) z -> (n <= 2)%nat \/ z <> - 2 ^ (8 * Z.of_nat n - 1) ->
  num z (fmt :: be_bytes n z).
Proof.
  intros Hn Hz Hmin k old r e. unfold unpack_number, unpack_number_as, safe_data. cbn [rest app].
  repeat (apply elem_of_cons in Hn as [[= -> ->]|Hn]; [|]); [..|by apply elem_of_nil in Hn].
  all: cbn -[Z.pow safe_incremen read_be_signed cast be_bytes app Z.of_nat].
  all: rewrite safe_incremen_cons, (read_be_signed_bytes _ z) by (done || lia); done.
Qed.

(** The two integers [read_be_signed] cannot return: [-static_cast<Int>(~u + 1)] overflows. *)
Definition least (z : Z) : bool := (z =? - 2 ^ 31) || (z =? - 2 ^ 63).

Lemma be_bytes_mod n m z : 0 <= m -> (n <= Z.to_nat m)%nat -> be_bytes n (z mod 2 ^ (8 * m)) = be_bytes n z.
Proof.
  intros Hm. induction n as [|n IH]; intros Hn; [done|]. cbn [be_bytes]. rewrite IH by lia. f_equal.
  apply Z.bits_inj'. intros i Hi. rewrite !Z.land_spec, !Z.shiftr_spec by lia.
  change 0xff with (Z.ones 8). destruct (decide (i < 8)).
  - by rewrite Z.mod_pow2_bits_low by lia.
  - by rewrite Z.ones_spec_high, !andb_false_r by lia.
Qed.

Lemma byte_be z : [byte z] = be_bytes 1 z.
Proof.
  cbn [be_bytes]. f_equal. change 0xff with (Z.ones 8).
  rewrite Z.land_ones, Z.shiftr_0_r by lia. done.
Qed.

Lemma num_int8 z : in_s 8 z -> num z (pack_int8 z).
Proof.
  intros Hz. unfold pack_int8, in_s in *. case_if; [|case_if].
  - replace (byte (0xe0 + 32 + z)) with (256 + z); [apply num_fixneg; lia|].
    symmetry. apply wrapu_small. unfold in_u. lia.
  - unfold byte. rewrite wrapu_small by (unfold in_u; lia). apply num_fixpos. lia.
  - rewrite byte_be. apply num_signed; [set_solver|done|lia].
Qed.

Lemma num_int16 z : in_s 16 z -> num z (pack_int16 z).
Proof.
  intros Hz. unfold pack_int16. case_if.
  - rewrite wraps_small; [apply num_int8|..]; unfold in_s in *; lia.
  - unfold wrapu. rewrite (be_bytes_mod 2 2) by lia. apply num_signed; [set_solver|done|lia].
Qed.

Lemma num_int32 z : in_s 32 z -> least z = false -> num z (pack_int32 z).
Proof.
  intros Hz Hl. unfold pack_int32, least in *. case_if.
  - rewrite wraps_small; [apply num_int16|..]; unfold in_s in *; lia.
  - unfold wrapu. rewrite (be_bytes_mod 4 4) by lia. apply num_signed; [set_solver|done|lia].
Qed.

Lemma num_int64 z : in_s 64 z -> least z = false -> num z (pack_int64 z).
Proof.
  intros Hz Hl. unfold pack_int64, least in *. case_if.
  - rewrite wraps_small; [apply num_int32; [|done]|..]; unfold in_s in *; lia.
  - unfold wrapu. rewrite (be_bytes_mod 8 8) by lia. apply num_signed; [set_solver|done|lia].
Qed.

Lemma num_uint8 z : in_u 8 z -> num z (pack_uint8 z).
Proof.
  intros Hz. unfold pack_uint8, in_u in *. case_if; [apply num_fixpos; lia|].
  replace [fmt_uint8; z] with (fmt_uint8 :: be_bytes 1 z).
  - apply num_unsigned; [set_solver|done].
  - rewrite <- byte_be. unfold byte. by rewrite wrapu_small.
Qed.

Lemma num_uint16 z : in_u 16 z -> num z (pack_uint16 z).
Proof.
  intros Hz. unfold pack_uint16. case_if.
  - apply num_unsigned; [set_solver|done].
  - rewrite wrapu_small; [apply num_uint8|]; unfold in_u in *; lia.
Qed.

Lemma num_uint32 z : in_u 32 z -> num z (pack_uint32 z).
Proof.
  intros Hz. unfold pack_uint32. case_if.
  - apply num_unsigned; [set_solver|done].
  - rewrite wrapu_small; [apply num_uint16|]; unfold in_u in *; lia.
Qed.

Lemma num_uint64 z : in_u 64 z -> num z (pack_uint64 z).
Proof.
  intros Hz. unfold pack_uint64. case_if.
  - apply num_unsigned; [set_solver|done].
  - rewrite wrapu_small; [apply num_uint32|]; unfold in_u in *; lia.
Qed.

Lemma num_int k z : in_kind k z -> least z = false -> num z (pack_int k z).
Proof.
  intros Hz Hl. destruct k; cbn in *;
    auto using num_int8, num_int16, num_int32, num_int64, num_uint8, num_uint16, num_uint32, num_uint64.
Qed.

Lemma decodes_int k z old : in_kind k z -> least z = false -> decodes (unpack_number k old) z (pack_int k z).
Proof. intros Hz Hl. rewrite <- (cast_in k z) at 1 by done. by apply num_int. Qed.

Lemma decodes_bool b : decodes unpack_bool b (pack_bool b).
Proof. intros r e. by destruct b; cbn -[safe_incremen]; rewrite safe_incremen_cons. Qed.

Lemma take_bytes_app l r e :
  Z.of_nat (length l) < 2 ^ 63 ->
  take_bytes (Z.of_nat (length l)) (mkState (l ++ r) e) = Some (l, mkState r e).
Proof.
  intros Hl. unfold take_bytes, fits. cbn [rest]. rewrite length_app, Nat2Z.inj_add.
  rewrite (proj2 (Z.ltb_lt _ _)) by done. cbn [mbind option_bind].
  rewrite (proj2 (Z.leb_le _ _)) by lia. rewrite Nat2Z.id, take_app_length.
  by rewrite safe_incremen_app.
Qed.

Lemma decodes_str8 s : Z.of_nat (length s) <= 255 -> decodes unpack_string s (pack_string s).
Proof.
  intros Hs r e. unfold pack_string. case_if.
  - rewrite lor_a0 by lia. unfold unpack_string, safe_data. cbn [rest app].
    rewrite (proj2 (Z.leb_le 0xa0 _)), (proj2 (Z.leb_le _ 0xbf)) by lia. cbn [andb].
    rewrite safe_incremen_cons.
    replace (Z.land _ 0x1f) with (Z.of_nat (length s)); [by rewrite take_bytes_app by lia|].
    rewrite (Z.land_ones _ 5) by lia. replace (0xa0 + Z.of_nat (length s)) with (Z.of_nat (length s) + 5 * 2 ^ 5) by lia.
    rewrite Z_mod_plus_full, Z.mod_small; lia.
  - rewrite (proj2 (Z.leb_le _ 255)) by lia. unfold unpack_string, safe_data. cbn [rest].
    change ((fmt_str8 :: byte ?n :: s) ++ r) with (fmt_str8 :: [byte n] ++ s ++ r). rewrite byte_be.
    cbn -[safe_incremen read_be_unsigned be_bytes app take_bytes].
    rewrite safe_incremen_cons, read_be_bytes, Z.mod_small by lia. by rewrite take_bytes_app by lia.
Qed.

Lemma decodes_bin8 s : Z.of_nat (length s) < 255 -> decodes unpack_bin s (pack_bin s).
Proof.
  intros Hs r e. unfold pack_bin. rewrite (proj2 (Z.ltb_lt _ 255)) by lia.
  unfold unpack_bin, safe_data. cbn [rest].
  change ((fmt_bin8 :: byte ?n :: s) ++ r) with (fmt_bin8 :: [byte n] ++ s ++ r). rewrite byte_be.
  cbn -[safe_incremen read_be_unsigned be_bytes app take_bytes].
  rewrite safe_incremen_cons, read_be_bytes, Z.mod_small by lia. by rewrite take_bytes_app by lia.
Qed.

Lemma decodes_items f p l :
  Forall (fun v => decodes f v (p v)) l -> decodes (items f (length l)) l (concat (p <$> l)).
Proof.
  induction 1 as [|v l Hv _ IH]; intros r e; [done|]. cbn [length items fmap list_fmap concat].
  rewrite <- app_assoc, Hv. cbn [mbind option_bind]. by rewrite IH.
Qed.

Lemma insert_or_assign_new kt k v acc :
  key_type kt -> has_type kt k -> Forall (has_type kt) acc.*1 -> k ∉ acc.*1 ->
  insert_or_assign k v acc = acc ++ [(k, v)].
Proof.
  intros Hkt Hk. induction acc as [|[k' v'] acc IH]; [done|]. cbn. intros [Hk' Ha]%Forall_cons Hn.
  apply not_elem_of_cons in Hn as [Hne Hn]. cbn in *.
  destruct (key_eqb k' k) eqn:E; [apply (key_eqb_spec kt) in E; congruence|]. by rewrite IH.
Qed.

Lemma decodes_entries kt f g p q l :
  key_type kt -> Forall (has_type kt) l.*1 -> NoDup l.*1 ->
  Forall (fun kv => decodes f kv.1 (p kv.1) /\ decodes g kv.2 (q kv.2)) l ->
  decodes (entries f g (length l) []) l (concat ((fun kv => p kv.1 ++ q kv.2) <$> l)).
Proof.
  intros Hkt Ht Hnd H.
  enough (forall acc, Forall (has_type kt) (acc ++ l).*1 -> NoDup (acc ++ l).*1 -> forall r e,
    entries f g (length l) acc (mkState (concat ((fun kv => p kv.1 ++ q kv.2) <$> l) ++ r) e) =
    Some (acc ++ l, mkState r e)) as Hg by (intros r e; by apply (Hg [])).
  clear Ht Hnd. induction H as [|[k v] l [Hk Hv] _ IH]; intros acc Ht Hnd r e.
  { cbn. by rewrite app_nil_r. }
  cbn [length entries fmap list_fmap concat] in *. rewrite <- !app_assoc.
  cbn [fst snd] in *. rewrite Hk. cbn [mbind option_bind]. rewrite Hv. cbn [mbind option_bind].
  rewrite fmap_app in Ht, Hnd. cbn in Ht, Hnd.
  apply Forall_app in Ht as [Ha Hl]. apply Forall_cons in Hl as [Hkt' Hl].
  apply NoDup_app in Hnd as (Hnd1 & Hdis & Hnd2).
  rewrite (insert_or_assign_new kt); [|done..|set_solver].
  rewrite IH; [by rewrite <- app_assoc|..]; rewrite <- app_assoc, fmap_app; cbn.
  - by apply Forall_app_2; [|constructor].
  - by apply NoDup_app.
Qed.

(** Values that reach the other side: strings up to 255 bytes, byte vectors up to 254,
    containers up to 15 items; not the least 32-bit and 64-bit integers. *)
Fixpoint receivable (t : ty) (v : value) : Prop :=
  match t, v with
  | TyInt _, VInt z => least z = false
  | TyString, VStr s => Z.of_nat (length s) <= 255
  | TyBin, VBin s => Z.of_nat (length s) < 255
  | TyVector t, VArray l => (length l <= 15)%nat /\ Forall (receivable t) l
  | TyMap k t, VMap l => (length l <= 15)%nat /\ Forall (fun kv => receivable k kv.1 /\ receivable t kv.2) l
  | _, _ => True
  end.

Lemma header_low m k n : 0 <= k -> 0 <= n < 2 ^ k -> Z.land (m * 2 ^ k + n) (Z.ones k) = n.
Proof.
  intros Hk Hn. rewrite Z.land_ones, Z.add_comm, Z_mod_plus_full, Z.mod_small by lia. done.
Qed.

Lemma decodes_array m t f p l :
  15 <= m -> (length l <= 15)%nat -> Forall (fun v => decodes f v (p v)) l ->
  decodes (unpack_array m t f) l (pack_array (p <$> l)).
Proof.
  intros Hm Hl H r e. unfold pack_array. rewrite length_fmap, (proj2 (Z.leb_le _ 15)) by lia.
  rewrite lor_90 by lia. unfold unpack_array, safe_data. cbn [rest app].
  rewrite (proj2 (Z.leb_le 0x90 _)), (proj2 (Z.leb_le _ 0x9f)) by lia. cbn [andb].
  change (0x90 + ?n) with (9 * 2 ^ 4 + n). change 0x0f with (Z.ones 4).
  rewrite header_low, safe_incremen_cons by lia.
  unfold reserve. rewrite (proj2 (Z.leb_le _ m)), Nat2Z.id by lia. cbn [mbind option_bind].
  by apply decodes_items.
Qed.

Lemma decodes_map m kt f g p q l :
  15 <= m -> (length l <= 15)%nat -> key_type kt -> Forall (has_type kt) l.*1 -> NoDup l.*1 ->
  Forall (fun kv => decodes f kv.1 (p kv.1) /\ decodes g kv.2 (q kv.2)) l ->
  decodes (unpack_map m f g) l (pack_map ((fun kv => (p kv.1, q kv.2)) <$> l)).
Proof.
  intros Hm Hl Hkt Ht Hnd H r e. unfold pack_map.
  rewrite length_fmap, (proj2 (Z.leb_le _ 15)) by lia.
  rewrite lor_80 by lia. unfold unpack_map, safe_data. cbn [rest app].
  rewrite (proj2 (Z.leb_le 0x80 _)), (proj2 (Z.leb_le _ 0x8f)) by lia. cbn [andb].
  change (0x80 + ?n) with (8 * 2 ^ 4 + n). change 0x0f with (Z.ones 4).
  rewrite header_low, safe_incremen_cons by lia.
  unfold reserve. rewrite (proj2 (Z.leb_le _ m)), Nat2Z.id by lia. cbn [mbind option_bind].
  rewrite <- list_fmap_compose. by apply (decodes_entries kt).
Qed.

(** A reader of a type reads back what was packed from it. *)
Lemma decodes_type m t v :
  15 <= m -> ty_ok t -> has_type t v -> receivable t v -> decodes (unpack_type m t) v (pack_type t v).
Proof.
  intros Hm. revert v.
  induction t as [k| | | | |t IH|kt IHk t IH]; intros [z|b| |s|s|l|l] Ht Hv Hr; try done; intros r e.
  all: cbn [pack_type unpack_type].
  - cbn in *. rewrite decodes_int by done. done.
  - by rewrite decodes_bool.
  - cbn in *. by rewrite decodes_str8.
  - cbn in *. by rewrite decodes_bin8.
  - cbn in Hr, Hv. destruct Hr as [Hl Hr]. rewrite (decodes_array m t); [done..|].
    eapply Forall_impl; [exact (proj2 (Forall_and _ _) (conj Hv Hr))|]. cbn. intros v []. by apply IH.
  - cbn in Hr, Hv, Ht. destruct Hr as [Hl Hr], Hv as [Hv Hnd].
    apply andb_prop_elim in Ht as [Hk Ht].
    rewrite (decodes_map m kt); [done..| |done|].
    + apply Forall_fmap. eapply Forall_impl; [exact Hv|]. by intros ? [].
    + eapply Forall_impl; [exact (proj2 (Forall_and _ _) (conj Hv Hr))|]. cbn.
      intros [k v] [[] []]. split; [apply IHk|apply IH]; auto. by destruct kt.
Qed.

Lemma decodes_all m ts vs :
  15 <= m -> Forall2 (fun t v => ty_ok t /\ has_type t v /\ receivable t v) ts vs ->
  decodes (unpack_all m ts) vs (pack (zip ts vs)).
Proof.
  intros Hm. induction 1 as [|t v ts vs (Ht & Hv & Hr) _ IH]; intros r e; [done|].
  unfold pack. cbn [zip_with fmap list_fmap concat unpack_all fst snd]. rewrite <- app_assoc.
  rewrite decodes_type by done. cbn [mbind option_bind].
  fold (pack (zip ts vs)). by rewrite IH.
Qed.

Lemma read_be_loop_bound n w out s :
  bytes s -> 0 <= out -> (out + 1) * 256 ^ Z.of_nat n <= 2 ^ w ->
  exists v s', read_be_loop n w out s = (v, s') /\
    out * 256 ^ Z.of_nat n <= v < (out + 1) * 256 ^ Z.of_nat n /\
    ((n <= length (rest s))%nat -> s' = mkState (drop n (rest s)) (ec s)).
Proof.
  revert out s. induction n as [|n IH]; intros out s Hs Hout Hw; cbn [read_be_loop].
  { exists out, s. destruct s. split; [done|]. split; [lia|done]. }
  rewrite Nat2Z.inj_succ, Z.pow_succ_r in * by lia.
  destruct (safe_data s) as [x s1] eqn:E.
  assert (0 <= x < 256) as Hx.
  { unfold safe_data in E. destruct (rest s) as [|y l] eqn:R; injection E as <- _; [lia|].
    unfold bytes in Hs. rewrite R in Hs. by apply Forall_cons in Hs as [? _]. }
  rewrite wrapu_small, shift_byte by (try unfold in_u; rewrite ?Z.shiftl_mul_pow2 by lia; nia).
  destruct (IH (out * 256 + x) (safe_incremen 1 s1)) as (v & s' & -> & Hv & Hd); [|lia|nia|].
  { eapply advance_bytes; [|exact Hs]. chain. }
  exists v, s'. split; [done|]. split; [nia|]. intros Hl.
  unfold safe_data in E. destruct s as [[|y l] e]; cbn in Hl; [lia|]. injection E as <- <-.
  rewrite safe_incremen_cons in Hd. apply Hd. cbn. lia.
Qed.

Lemma read_be_loop_split n m w out s :
  read_be_loop (n + m) w out s = let '(v, s1) := read_be_loop n w out s in read_be_loop m w v s1.
Proof.
  revert out s. induction n as [|n IH]; intros out s; [done|]. cbn [Nat.add read_be_loop].
  destruct (safe_data s). apply IH.
Qed.

(** Eight bytes are read as a size where two were packed. *)
Lemma read_size_large n tail e :
  0 <= n < 2 ^ 16 -> Forall (in_u 8) tail ->
  exists size s', read_be_unsigned 8 (mkState (be_bytes 2 n ++ tail) e) = (size, s') /\
    n * 2 ^ 48 <= size < (n + 1) * 2 ^ 48 /\
    ((6 <= length tail)%nat -> s' = mkState (drop 6 tail) e).
Proof.
  intros Hn Ht. unfold read_be_unsigned. change (8 * Z.of_nat 8) with 64.
  rewrite (read_be_loop_split 2 6).
  pose proof (read_be_loop_app (be_bytes 2 n) 64 0 tail e (be_bytes_range 2 n)) as H.
  rewrite length_be_bytes, be_bytes_value, Z.mod_small in H by lia.
  rewrite H by lia.
  apply read_be_loop_bound; cbn; [done|lia..].
Qed.

(** ** Theorems *)

(** C4: within the limits of the reader the arguments of an RPC survive the wire.  Packed one
    after the other and unpacked with the same types they give the values again and no error,
    for integers, booleans, null, strings, byte vectors, vectors and maps, nested in any way,
    provided that they are [receivable]: no integer is the least of 32 or 64 signed bits,
    strings have at most 255 bytes, byte vectors fewer than 255, vectors and maps at most 15
    items; and provided that a container may reserve 15 items.  Without these limits it is
    false ([long_data_is_lost]). *)
Theorem unpack_pack m ts vs :
  15 <= m -> Forall2 (fun t v => ty_ok t /\ has_type t v /\ receivable t v) ts vs ->
  unpack m ts (pack (zip ts vs)) = Some (vs, false).
Proof.
  intros Hm H. unfold unpack. rewrite <- (app_nil_r (pack _)).
  by rewrite (decodes_all m ts vs Hm H).
Qed.

Lemma unpack_pack_witness :
  unpack 1000 [TyInt I32; TyVector (TyInt U16); TyMap TyString TyBool]
    (pack (zip [TyInt I32; TyVector (TyInt U16); TyMap TyString TyBool]
      [VInt (-32); VArray [VInt 65535; VInt 3]; VMap [(VStr [97], VBool true); (VStr [98], VBool false)]])) =
  Some ([VInt (-32); VArray [VInt 65535; VInt 3]; VMap [(VStr [97], VBool true); (VStr [98], VBool false)]], false).
Proof.
  apply unpack_pack; [lia|]. repeat constructor; cbn; unfold in_s, in_u; cbn; try lia; set_solver.
Defined.



(** What [pack] writes with a 16-bit length cannot be read back, since the reader takes
    eight bytes for the length: a string of 256 to 32767 bytes comes out empty with the error
    set, and a vector of 16 to 65535 items makes [reserve] throw. *)
Theorem long_data_is_lost m t f str l r e :
  256 <= Z.of_nat (length str) < 2 ^ 15 -> Forall (in_u 8) (str ++ r) ->
  Z.of_nat (length (str ++ r)) < 2 ^ 48 -> 0 <= m < 2 ^ 52 ->
  16 <= Z.of_nat (length l) <= 65535 -> Forall (in_u 8) (concat l ++ r) ->
  unpack_type m TyString (mkState (pack_type TyString (VStr str) ++ r) e) =
    Some (VStr [], mkState (drop 6 str ++ r) true) /\
  unpack_array m t f (mkState (pack_array l ++ r) e) = None.
Proof.
  intros Hs Hb Hr Hm Hl Hlb. split.
  - cbn [pack_type unpack_type]. unfold pack_string.
    rewrite (proj2 (Z.leb_gt _ 31)), (proj2 (Z.leb_gt _ 0xff)), (proj2 (Z.leb_le _ 0xffff)) by lia.
    unfold unpack_string, safe_data. cbn [rest app].
    cbn -[safe_incremen read_be_unsigned be_bytes app take_bytes].
    rewrite safe_incremen_cons, <- app_assoc.
    destruct (read_size_large (Z.of_nat (length str)) (str ++ r) e) as (size & s' & -> & Hsize & Hd).
    { lia. } { done. }
    rewrite Hd by (rewrite length_app; lia). rewrite drop_app_le by lia.
    unfold take_bytes, fits. cbn [rest]. rewrite (proj2 (Z.ltb_lt size _)) by lia.
    cbn [mbind option_bind]. rewrite length_app in *. rewrite length_drop.
    rewrite (proj2 (Z.leb_gt _ _)) by lia. done.
  - unfold pack_array. rewrite (proj2 (Z.leb_gt _ 15)), (proj2 (Z.leb_le _ 0xffff)) by lia.
    unfold unpack_array, safe_data. cbn [rest app].
    cbn -[safe_incremen read_be_unsigned be_bytes app reserve items].
    rewrite safe_incremen_cons, <- app_assoc.
    destruct (read_size_large (Z.of_nat (length l)) (concat l ++ r) e) as (size & s' & -> & Hsize & _).
    { lia. } { done. }
    unfold reserve. by rewrite (proj2 (Z.leb_gt size m)) by lia.
Qed.

Lemma long_data_is_lost_witness :
  unpack_type 1000 TyString (mkState (pack_type TyString (VStr (replicate 256 65)) ++ []) false) =
    Some (VStr [], mkState (drop 6 (replicate 256 65) ++ []) true) /\
  unpack_array 1000 (TyInt U8) (unpack_type 1000 (TyInt U8)) (mkState (pack_array (replicate 16 [1]) ++ []) false) = None.
Proof.
  apply (long_data_is_lost 1000 (TyInt U8) (unpack_type 1000 (TyInt U8)) (replicate 256 65) (replicate 16 [1]) [] false).
  - vm_compute. split; congruence.
  - rewrite app_nil_r. apply Forall_replicate. unfold in_u. lia.
  - vm_compute. reflexivity.
  - lia.
  - vm_compute. split; congruence.
  - apply (Forall_replicate (in_u 8) 16 1). unfold in_u. lia.
Defined.

(** A number read into a [bool]: one half and a NaN are [true], zeros of both signs are
    [false], in both formats; one half read into an integer is 0. *)
Example floats_read_as_bool :
  let read bs := fst <$> unpack_bool (mkState bs false) in
  read [fmt_float64; 0; 0; 0; 0; 0; 0; 0xe0; 0x3f] = Some true /\
  read [fmt_float64; 0; 0; 0; 0; 0; 0; 0xf8; 0x7f] = Some true /\
  read [fmt_float64; 0; 0; 0; 0; 0; 0; 0; 0x80] = Some false /\
  read [fmt_float32; 0; 0; 0; 0xbf] = Some true /\ read [fmt_float32; 0; 0; 0; 0x80] = Some false /\
  read [0xff] = Some true /\
  fst <$> unpack_number U64 7 (mkState [fmt_float64; 0; 0; 0; 0; 0; 0; 0xe0; 0x3f] false) = Some 0.
Proof. vm_compute. repeat split. Qed.

Example unpack_pack_example :
  unpack 1000 [TyInt I32; TyString; TyVector (TyInt U16); TyMap TyString TyBool]
    (pack [(TyInt I32, VInt (-32)); (TyString, VStr [104; 105]); (TyVector (TyInt U16), VArray [VInt 65535; VInt 3]);
           (TyMap TyString TyBool, VMap [(VStr [97], VBool true); (VStr [98], VBool false)])]) =
  Some ([VInt (-32); VStr [104; 105]; VArray [VInt 65535; VInt 3];
         VMap [(VStr [97], VBool true); (VStr [98], VBool false)]], false).
Proof. vm_compute. reflexivity. Qed.

End MsgUnpack.
