(* ===== verification/MsgLua.v ===== *)
(** * MessagePack: unpacking to Lua ([src/msgpack/msgpack.hpp], [unpack_stack_proxy] and
      [unpack_table]; [src/msgpack/msgpack.cpp])

    The arguments of an RPC that a script handles are pushed on the Lua stack one after the
    other until the buffer is empty.  Tables are built on the stack with [lua_rawset] and
    [lua_rawseti], so a value that is not pushed breaks the enclosing table. *)

From S2P Require Import Prelude Msgpack MsgUnpack.
Import Msgpack MsgUnpack.

Module MsgLua.

(** The stack, its top first.  A table on it is referenced from nowhere else. *)
Definition stack := list lua.

Definition config : Type := stack * state.

(** The size loops of [unpack_table]: [size += T(safe_data()) << 8 * (i - 1)]. *)
Fixpoint read_size (n : nat) (size : Z) (s : state) : Z * state :=
  match n with
  | O => (size, s)
  | S m =>
      let '(x, s1) := safe_data s in
      read_size m (u64 (size + Z.shiftl x (8 * Z.of_nat m))) (safe_incremen 1 s1)
  end.

Section Unpack.

(** [lua_rawset] on the entries of a table; [None] when it raises (a nil or NaN key). *)
Context (rawset : list (lua * lua) -> lua -> lua -> option (list (lua * lua))).

(** [lua_rawseti(L, -2, i)] and [lua_rawset(L, -3)]; [None] when there is no table there. *)
Definition lua_rawseti (i : Z) (c : config) : option config :=
  match c.1 with
  | v :: LTable l :: r => l' ← rawset l (LInteger i) v; Some (LTable l' :: r, c.2)
  | _ => None
  end.

Definition lua_rawset (c : config) : option config :=
  match c.1 with
  | v :: k :: LTable l :: r => l' ← rawset l k v; Some (LTable l' :: r, c.2)
  | _ => None
  end.

(** The loops over [n] items from number [i], and over [n] entries. *)
Fixpoint array_loop (proxy : config -> option config) (n : nat) (i : Z) (c : config) : option config :=
  match n with
  | O => Some c
  | S m => c1 ← proxy c; c2 ← lua_rawseti (i + 1) c1; array_loop proxy m (i + 1) c2
  end.

Fixpoint map_loop (proxy : config -> option config) (n : nat) (c : config) : option config :=
  match n with
  | O => Some c
  | S m => c1 ← proxy c; c2 ← proxy c1; c3 ← lua_rawset c2; map_loop proxy m c3
  end.

Definition unpack_table (proxy : config -> option config) (c : config) : option config :=
  let '(st, s) := c in
  let '(x, s) := safe_data s in
  let sized n := read_size n 0 (safe_incremen 1 s) in
  if x =? fmt_array32 then
    let '(size, s) := sized 4%nat in array_loop proxy (Z.to_nat size) 0 (LTable [] :: st, s)
  else if x =? fmt_array16 then
    let '(size, s) := sized 2%nat in array_loop proxy (Z.to_nat size) 0 (LTable [] :: st, s)
  else if (x =? fmt_map32) || (x =? fmt_table) then
    let '(size, s) := sized 4%nat in map_loop proxy (Z.to_nat size) (LTable [] :: st, s)
  else if x =? fmt_map16 then
    let '(size, s) := sized 2%nat in map_loop proxy (Z.to_nat size) (LTable [] :: st, s)
  else if (0x90 <=? x) && (x <=? 0x9f) then
    array_loop proxy (Z.to_nat (Z.land x 0x0f)) 0 (LTable [] :: st, safe_incremen 1 s)
  else if (0x80 <=? x) && (x <=? 0x8f) then
    map_loop proxy (Z.to_nat (Z.land x 0x0f)) (LTable [] :: st, safe_incremen 1 s)
  else Some (st, fail s).

(** What the byte starts, in the order of the [switch] and its [default]. *)
Inductive start : Set :=
  | SNil | SFalse | STrue | SBin | SFloat32 | SFloat64 | SUnsigned | SSigned | SString | STable
  | SPositive | SNegative | SFixstr | SUnknown.

#[export] Instance start_eq_dec : EqDecision start.
Proof. solve_decision. Defined.

Definition starts (x : Z) : start :=
  if x =? fmt_nil then SNil
  else if x =? fmt_false then SFalse
  else if x =? fmt_true then STrue
  else if (x =? fmt_bin8) || (x =? fmt_bin16) || (x =? fmt_bin32) then SBin
  else if x =? fmt_float32 then SFloat32
  else if x =? fmt_float64 then SFloat64
  else if (x =? fmt_uint8) || (x =? fmt_uint16) || (x =? fmt_uint32) || (x =? fmt_uint64) then SUnsigned
  else if (x =? fmt_int8) || (x =? fmt_int16) || (x =? fmt_int32) || (x =? fmt_int64) then SSigned
  else if (x =? fmt_str8) || (x =? fmt_str16) || (x =? fmt_str32) then SString
  else if (x =? fmt_array16) || (x =? fmt_array32) || (x =? fmt_map16) || (x =? fmt_map32) || (x =? fmt_table)
  then STable
  else if (0 <=? x) && (x <=? 0x7f) then SPositive
  else if (0xe0 <=? x) && (x <=? 0xff) then SNegative
  else if (0x90 <=? x) && (x <=? 0x9f) then STable
  else if (0x80 <=? x) && (x <=? 0x8f) then STable
  else if (0xa0 <=? x) && (x <=? 0xbf) then SFixstr
  else SUnknown.

(** [unpack_stack_proxy]; [fuel] bounds the nesting of tables. *)
Fixpoint unpack_stack_proxy (fuel : nat) (c : config) : option config :=
  match fuel with
  | O => None
  | S fuel =>
      let '(st, s) := c in
      let '(x, s) := safe_data s in
      match starts x with
      | SNil => Some (LNil :: st, safe_incremen 1 s)
      | SFalse => Some (LBoolean false :: st, safe_incremen 1 s)
      | STrue => Some (LBoolean true :: st, safe_incremen 1 s)
      | SBin => '(l, s) ← unpack_bin s; Some (LString l :: st, s)
      | SFloat32 => '(b, s) ← read_native 4 (safe_incremen 1 s); Some (LNumber (f32_to_f64 b) :: st, s)
      | SFloat64 => '(b, s) ← read_native 8 (safe_incremen 1 s); Some (LNumber b :: st, s)
      | SUnsigned => '(v, s) ← unpack_number U64 0 s; Some (LInteger (i64 v) :: st, s)
      | SSigned => '(v, s) ← unpack_number I64 0 s; Some (LInteger v :: st, s)
      | SString => '(l, s) ← unpack_string s; Some (LString l :: st, s)
      | STable => unpack_table (unpack_stack_proxy fuel) (st, s)
      | SPositive => Some (LInteger x :: st, safe_incremen 1 s)
      | SNegative => Some (LInteger (wraps 8 x) :: st, safe_incremen 1 s)
      | SFixstr =>
          let size := Z.land x 31 in
          let s := safe_incremen 1 s in
          ok ← fits size s;
          Some (if (ok : bool) then (LString (take (Z.to_nat size) (rest s)) :: st, safe_incremen (Z.to_nat size) s)
                else (st, fail s))
      | SUnknown => Some (st, fail s)
      end
  end.

(** The nesting is at most the number of bytes left. *)
Definition proxy (c : config) : option config := unpack_stack_proxy (S (length (rest c.2))) c.

(** [while (!unpacker.empty()) unpacker(state)]. *)
Inductive outcome := Done (c : config) (count : nat) | Undefined | Running (c : config) (count : nat).

Fixpoint unpack_loop (fuel : nat) (c : config) (i : nat) : outcome :=
  match fuel with
  | O => Running c i
  | S fuel =>
      if empty c.2 then Done c i
      else match proxy c with None => Undefined | Some c' => unpack_loop fuel c' (S i) end
  end.

(** [unpack(state, data, ec)]: the number of values, the stack and the error. *)
Definition unpack_lua (fuel : nat) (st : stack) (data : list Z) : outcome :=
  unpack_loop fuel (st, mkState data false) 0.

End Unpack.

(** ** Progress *)

Lemma read_size_advance n size s v s' : read_size n size s = (v, s') -> advance s s'.
Proof.
  revert size s. induction n as [|n IH]; intros size s; cbn [read_size]; [by intros [= _ <-]|].
  destruct (safe_data s) as [x s1] eqn:E. intros H%IH. etrans; [|exact H]. eauto with gb.
Qed.

Lemma advance_length s s' : advance s s' -> (length (rest s') <= length (rest s))%nat.
Proof. intros [H _]. by apply suffix_length. Qed.

(** [f] only moves forward. *)
Definition forward (f : config -> option config) : Prop :=
  forall c c', f c = Some c' -> advance c.2 c'.2.

Section Progress.
Context (rawset : list (lua * lua) -> lua -> lua -> option (list (lua * lua))).

Lemma lua_rawseti_state i c c' : lua_rawseti rawset i c = Some c' -> c'.2 = c.2.
Proof.
  unfold lua_rawseti. destruct c as [[|v [|[] r]] s]; cbn; try done.
  by intros (l' & _ & [= <-])%bind_Some.
Qed.

Lemma lua_rawset_state c c' : lua_rawset rawset c = Some c' -> c'.2 = c.2.
Proof.
  unfold lua_rawset. destruct c as [[|v [|k [|[] r]]] s]; cbn; try done.
  by intros (l' & _ & [= <-])%bind_Some.
Qed.

Lemma array_loop_forward f n i : forward f -> forward (array_loop rawset f n i).
Proof.
  intros Hf. revert i. induction n as [|n IH]; intros i c c'; cbn; [by intros [= <-]|].
  intros (c1 & H1 & (c2 & H2 & H)%bind_Some)%bind_Some.
  apply lua_rawseti_state in H2. apply IH in H. rewrite H2 in H. etrans; [by apply Hf|done].
Qed.

Lemma map_loop_forward f n : forward f -> forward (map_loop rawset f n).
Proof.
  intros Hf. induction n as [|n IH]; intros c c'; cbn; [by intros [= <-]|].
  intros (c1 & H1 & (c2 & H2 & (c3 & H3 & H)%bind_Some)%bind_Some)%bind_Some.
  apply lua_rawset_state in H3. apply IH in H. rewrite H3 in H.
  etrans; [by apply Hf|]. etrans; [by apply Hf|done].
Qed.

(** No case of the [switch] is left for [Hx]. *)
Ltac starts_absurd Hx :=
  revert Hx; unfold starts;
  repeat match goal with
  | H : (_ || _)%bool = false |- _ => apply orb_false_elim in H as [? ?]
  | H : _ = false |- _ => rewrite !H; clear H
  end;
  cbn [orb andb]; repeat (case_if; [discriminate|]); done.

(** A table starts with a byte that is consumed. *)
Lemma unpack_table_forward f st x r e c' :
  forward f -> starts x = STable ->
  unpack_table rawset f (st, mkState (x :: r) e) = Some c' -> advance (mkState r e) c'.2.
Proof.
  intros Hf Hx H. unfold unpack_table, safe_data in H. cbn [rest] in H. rewrite !safe_incremen_cons in H.
  repeat match type of H with
  | context [if ?b then _ else _] => destruct b eqn:?
  | context [read_size ?n 0 ?s] => destruct (read_size n 0 s) as [size s1] eqn:E; apply read_size_advance in E
  end.
  all: try (apply array_loop_forward in H; [|done]; cbn in H; by try etrans).
  all: try (apply map_loop_forward in H; [|done]; cbn in H; by try etrans).
  exfalso. starts_absurd Hx.
Qed.

(** The readers of a value consume the byte they were chosen by. *)
Lemma unpack_bin_starts x r e l s' :
  starts x = SBin -> unpack_bin (mkState (x :: r) e) = Some (l, s') -> advance (mkState r e) s'.
Proof.
  intros Hx H. unfold unpack_bin, safe_data in H. cbn [rest] in H. rewrite !safe_incremen_cons in H.
  walk; try (eapply take_bytes_advance in H; chain).
  exfalso. starts_absurd Hx.
Qed.

Lemma unpack_string_starts x r e l s' :
  starts x = SString -> unpack_string (mkState (x :: r) e) = Some (l, s') -> advance (mkState r e) s'.
Proof.
  intros Hx H. unfold unpack_string, safe_data in H. cbn [rest] in H. rewrite !safe_incremen_cons in H.
  walk; try (eapply take_bytes_advance in H; chain).
  exfalso. starts_absurd Hx.
Qed.

Lemma unpack_number_starts k x r e v s' :
  starts x = SUnsigned \/ starts x = SSigned ->
  unpack_number k 0 (mkState (x :: r) e) = Some (v, s') -> advance (mkState r e) s'.
Proof.
  intros Hx H. unfold unpack_number, unpack_number_as, safe_data in H. cbn [rest] in H. rewrite !safe_incremen_cons in H.
  walk; try chain.
  exfalso. destruct Hx as [Hx|Hx]; starts_absurd Hx.
Qed.

(** A step with the known byte [x] at its head consumes the byte. *)
Lemma proxy_consumes n st x r e c' :
  forward (unpack_stack_proxy rawset n) -> starts x <> SUnknown ->
  unpack_stack_proxy rawset (S n) (st, mkState (x :: r) e) = Some c' -> advance (mkState r e) c'.2.
Proof.
  intros Hf Hx H. cbn [unpack_stack_proxy] in H. unfold safe_data in H. cbn [rest] in H.
  destruct (starts x) eqn:E; try done; rewrite ?safe_incremen_cons in H.
  all: try (injection H as <-; done).
  all: try (walk; injection H as <-; chain).
  all: try (apply bind_Some in H as [[l s'] [H1 H]]; injection H as <-).
  - by eapply unpack_bin_starts.
  - eapply unpack_number_starts; [left|]; done.
  - eapply unpack_number_starts; [right|]; done.
  - by eapply unpack_string_starts.
  - by eapply unpack_table_forward.
Qed.

Lemma proxy_forward n : forward (unpack_stack_proxy rawset n).
Proof.
  induction n as [|n IH]; [done|]. intros [st [[|x r] e]] c' H.
  { cbn in H. injection H as <-. by split. }
  destruct (decide (starts x = SUnknown)) as [Hx|Hx].
  - cbn [unpack_stack_proxy] in H. unfold safe_data in H. cbn [rest] in H. rewrite Hx in H.
    injection H as <-. apply fail_advance.
  - etrans; [|by eapply proxy_consumes]. split; [by apply suffix_cons_r|done].
Qed.

(** ** The fuel is enough *)

(** [f] and [g] agree when at most [k] bytes are left. *)
Definition agree (k : nat) (f g : config -> option config) : Prop :=
  forall c, (length (rest c.2) <= k)%nat -> f c = g c.

Lemma array_loop_agree k f g n i c :
  forward f -> agree k f g -> (length (rest c.2) <= k)%nat ->
  array_loop rawset f n i c = array_loop rawset g n i c.
Proof.
  intros Hf Hfg. revert i c. induction n as [|n IH]; intros i c Hc; [done|].
  cbn [array_loop]. rewrite <- Hfg by done. destruct (f c) as [c1|] eqn:E; [|done]. cbn.
  apply Hf, advance_length in E.
  destruct (lua_rawseti _ _ _) as [c2|] eqn:E2; [|done]. cbn.
  apply lua_rawseti_state in E2. apply IH. rewrite E2. lia.
Qed.

Lemma map_loop_agree k f g n c :
  forward f -> agree k f g -> (length (rest c.2) <= k)%nat ->
  map_loop rawset f n c = map_loop rawset g n c.
Proof.
  intros Hf Hfg. revert c. induction n as [|n IH]; intros c Hc; [done|].
  cbn [map_loop]. rewrite <- Hfg by done. destruct (f c) as [c1|] eqn:E; [|done]. cbn.
  apply Hf, advance_length in E. rewrite <- Hfg by lia.
  destruct (f c1) as [c2|] eqn:E2; [|done]. cbn. apply Hf, advance_length in E2.
  destruct (lua_rawset _ _) as [c3|] eqn:E3; [|done]. cbn.
  apply lua_rawset_state in E3. apply IH. rewrite E3. lia.
Qed.

Lemma unpack_table_agree f g st x r e :
  forward f -> agree (length r) f g ->
  unpack_table rawset f (st, mkState (x :: r) e) = unpack_table rawset g (st, mkState (x :: r) e).
Proof.
  intros Hf Hfg. unfold unpack_table, safe_data. cbn [rest]. rewrite safe_incremen_cons.
  repeat match goal with
  | |- context [if ?b then _ else _] => destruct b eqn:?
  | |- context [read_size ?n 0 ?s] =>
      destruct (read_size n 0 s) as [size s1] eqn:E; apply read_size_advance, advance_length in E
  end; try done;
    first [by apply (array_loop_agree (length r))|by apply (map_loop_agree (length r))].
Qed.

Lemma proxy_fuel n m c :
  (length (rest c.2) < n)%nat -> (length (rest c.2) < m)%nat ->
  unpack_stack_proxy rawset n c = unpack_stack_proxy rawset m c.
Proof.
  revert m c. induction n as [|n IH]; intros [|m] [st [[|x r] e]] Hn Hm; cbn [rest snd length] in *; try lia; [done|].
  cbn [unpack_stack_proxy]. change (safe_data (mkState (x :: r) e)) with (x, mkState (x :: r) e). cbn iota beta.
  destruct (starts x); try done.
  apply unpack_table_agree; [apply proxy_forward|]. intros c Hc. apply IH; lia.
Qed.

Lemma proxy_step st x r e c' :
  proxy rawset (st, mkState (x :: r) e) = Some c' ->
  (starts x = SUnknown /\ c' = (st, mkState (x :: r) true)) \/ (length (rest c'.2) <= length r)%nat.
Proof.
  intros H. destruct (decide (starts x = SUnknown)) as [Hx|Hx].
  - left. split; [done|]. unfold proxy in H. cbn [unpack_stack_proxy] in H.
    unfold safe_data in H. cbn [rest] in H. rewrite Hx in H. by injection H as <-.
  - right. eapply proxy_consumes in H; [|apply proxy_forward|done]. by apply advance_length in H.
Qed.

(** On an unknown byte the loop stays where it is. *)
Lemma loop_unknown st x r fuel i :
  starts x = SUnknown ->
  unpack_loop rawset fuel (st, mkState (x :: r) true) i = Running (st, mkState (x :: r) true) (i + fuel).
Proof.
  intros Hx. revert i. induction fuel as [|fuel IH]; intros i; cbn [unpack_loop]; [by rewrite Nat.add_0_r|].
  cbn [empty rest snd]. unfold proxy. cbn [unpack_stack_proxy]. unfold safe_data. cbn [rest]. rewrite Hx.
  unfold fail. cbn [rest]. rewrite IH. f_equal. lia.
Qed.

Lemma starts_unknown x : in_u 8 x ->
  starts x = SUnknown <-> x = 0xc1 \/ 0xc7 <= x <= 0xc9 \/ 0xd4 <= x <= 0xd8.
Proof.
  intros Hx.
  unfold starts, fmt_nil, fmt_false, fmt_true, fmt_bin8, fmt_bin16, fmt_bin32, fmt_float32, fmt_float64,
    fmt_uint8, fmt_uint16, fmt_uint32, fmt_uint64, fmt_int8, fmt_int16, fmt_int32, fmt_int64, fmt_str8,
    fmt_str16, fmt_str32, fmt_array16, fmt_array32, fmt_map16, fmt_map32, fmt_table, in_u in *.
  repeat (case_if; [split; [discriminate|lia]|]). split; [lia|done].
Qed.

(** The bytes no format is written for: 0xc1 and the extension types. *)
Definition unknown_byte (x : Z) : Prop := x = 0xc1 \/ 0xc7 <= x <= 0xc9 \/ 0xd4 <= x <= 0xd8.

Lemma loop_result fuel c i :
  bytes c.2 -> (length (rest c.2) < fuel)%nat ->
  match unpack_loop rawset fuel c i with
  | Done c' _ => rest c'.2 = []
  | Undefined => True
  | Running c' j =>
      (exists x r, rest c'.2 = x :: r /\ unknown_byte x) /\
      forall more, unpack_loop rawset (fuel + more) c i = Running c' (j + more)
  end.
Proof.
  revert c i. induction fuel as [|fuel IH]; intros [st [[|x r] e]] i Hb Hf; [cbn in Hf; lia|cbn in Hf; lia|done|].
  cbn [unpack_loop empty rest snd Nat.add].
  destruct (proxy rawset (st, mkState (x :: r) e)) as [c'|] eqn:E; [|done].
  assert (Hb' : bytes c'.2) by (apply proxy_forward in E; by eapply advance_bytes).
  apply proxy_step in E as [[Hx ->]|Hr].
  - rewrite loop_unknown by done. split.
    + exists x, r. split; [done|]. apply starts_unknown; [|done]. by apply Forall_cons in Hb as [? _].
    + intros more. rewrite loop_unknown by done. f_equal. lia.
  - apply IH; [done|]. cbn in Hf. lia.
Qed.

End Progress.

(** C23: reading the arguments of a script ends or never does.  One round more than there are
    bytes is enough: the loop has read the whole buffer, or has failed, or stands on a byte
    0xc1, 0xc7..0xc9 or 0xd4..0xd8, and then no number of rounds gets past it. *)
Theorem lua_loop_ends rawset st data :
  Forall (in_u 8) data ->
  match unpack_lua rawset (S (length data)) st data with
  | Done c _ => rest c.2 = []
  | Undefined => True
  | Running c i =>
      (exists x r, rest c.2 = x :: r /\ (x = 0xc1 \/ 0xc7 <= x <= 0xc9 \/ 0xd4 <= x <= 0xd8)) /\
      forall more, unpack_lua rawset (S (length data) + more) st data = Running c (i + more)
  end.
Proof. intros H. apply (loop_result rawset (S (length data)) (st, mkState data false) 0 H). cbn. lia. Qed.


Lemma lua_loop_ends_witness :
  let rawset (l : list (lua * lua)) k v := Some (l ++ [(k, v)]) in
  unpack_lua rawset 3 [] [7; 0xc1] = Running ([LInteger 7], mkState [0xc1] true) 3 /\
  forall more, unpack_lua rawset (3 + more) [] [7; 0xc1] = Running ([LInteger 7], mkState [0xc1] true) (3 + more).
Proof.
  intros rawset. split; [vm_compute; reflexivity|].
  pose proof (lua_loop_ends rawset [] [7; 0xc1]) as H.
  destruct H as [_ H]; [repeat constructor; unfold in_u; lia|exact H].
Defined.

(** ** Values that survive *)

Section LuaInd.
Context (P : lua -> Prop) (Hnil : P LNil) (Hint : forall z, P (LInteger z)) (Hnum : forall b, P (LNumber b))
  (Hstr : forall s, P (LString s)) (Hbool : forall b, P (LBoolean b))
  (Hbase : forall l, P (LPackBase l)) (Hother : P LOther)
  (Htab : forall l, Forall (fun kv => P kv.1 /\ P kv.2) l -> P (LTable l)).

Fixpoint lua_nested_ind (x : lua) : P x :=
  match x with
  | LNil => Hnil | LInteger z => Hint z | LNumber b => Hnum b | LString s => Hstr s
  | LBoolean b => Hbool b | LPackBase l => Hbase l | LOther => Hother
  | LTable l => Htab l ((fix go (l : list (lua * lua)) : Forall (fun kv => P kv.1 /\ P kv.2) l :=
      match l with
      | [] => Forall_nil_2 _
      | (k, v) :: r => Forall_cons_2 _ (k, v) r (conj (lua_nested_ind k) (lua_nested_ind v)) (go r)
      end) l)
  end.
End LuaInd.

(** The loop over the entries in [pack_table]. *)
Definition pack_entries : list (lua * lua) -> option (list Z) :=
  fix go (l : list (lua * lua)) : option (list Z) :=
    match l with
    | [] => Some []
    | (k, v) :: r =>
        a ← pack_stack_proxy k; b ← pack_stack_proxy v; c ← go r; Some (a ++ b ++ c)
    end.

Definition key_value (k : lua) : bool :=
  match k with LInteger _ | LString _ | LBoolean _ => true | _ => false end.

(** What a script can send to a script: integers but -32 and the least ones, numbers with a
    fraction, strings up to 255 bytes, and tables of such values under distinct integer,
    string and boolean keys. *)
Fixpoint sendable (x : lua) : Prop :=
  match x with
  | LNil | LBoolean _ => True
  | LInteger z => in_s 64 z /\ least z = false /\ z <> -32
  | LNumber b => in_u 64 b /\ is_Some (f64_to_int64 b) /\ f64_integral b = false
  | LString s => Z.of_nat (length s) <= 255
  | LTable l =>
      Z.of_nat (length l) < 2 ^ 32 /\ NoDup l.*1 /\
      (fix go (l : list (lua * lua)) : Prop :=
        match l with
        | [] => True
        | (k, v) :: r => (key_value k /\ sendable k /\ sendable v /\ v <> LNil) /\ go r
        end) l
  | LPackBase _ | LOther => False
  end.

Lemma sendable_entries l :
  sendable (LTable l) ->
  Forall (fun kv => key_value kv.1 /\ sendable kv.1 /\ sendable kv.2 /\ kv.2 <> LNil) l.
Proof.
  intros (_ & _ & H). induction l as [|[k v] l IH]; [constructor|]. destruct H as [H1 H2].
  constructor; [done|]. by apply IH.
Qed.

Lemma read_size_bytes n z size r e :
  0 <= size -> size + z mod 256 ^ Z.of_nat n < 2 ^ 64 ->
  read_size n size (mkState (be_bytes n z ++ r) e) = (size + z mod 256 ^ Z.of_nat n, mkState r e).
Proof.
  revert size. induction n as [|n IH]; intros size Hs Hb.
  { cbn. by rewrite Z.mod_1_r, Z.add_0_r. }
  cbn [read_size be_bytes app]. unfold safe_data. cbn [rest]. rewrite safe_incremen_cons.
  change 0xff with (Z.ones 8). rewrite Z.land_ones, !Z.shiftr_div_pow2, Z.shiftl_mul_pow2, pow256 by lia.
  change (2 ^ 8) with 256.
  rewrite Nat2Z.inj_succ, Z.pow_succ_r, (Z.mul_comm 256), Z.rem_mul_r in * by lia.
  pose proof (Z.mod_pos_bound (z / 256 ^ Z.of_nat n) 256).
  pose proof (Z.mod_pos_bound z (256 ^ Z.of_nat n)).
  rewrite wrapu_small by (unfold in_u; nia). rewrite IH by nia. f_equal. ring.
Qed.

Lemma pack_int64_shape z :
  in_s 64 z ->
  (0 <= z <= 0x7f /\ pack_int64 z = [z]) \/ (-32 <= z <= -1 /\ pack_int64 z = [256 + z]) \/
  exists fmt l, pack_int64 z = fmt :: l /\ fmt ∈ [fmt_int8; fmt_int16; fmt_int32; fmt_int64].
Proof.
  intros Hz. unfold pack_int64, in_s in *. case_if; [|right; right; do 2 eexists; split; [done|set_solver]].
  rewrite wraps_small by (unfold in_s; lia).
  unfold pack_int32. case_if; [|right; right; do 2 eexists; split; [done|set_solver]].
  rewrite wraps_small by (unfold in_s; lia).
  unfold pack_int16. case_if; [|right; right; do 2 eexists; split; [done|set_solver]].
  rewrite wraps_small by (unfold in_s; lia). unfold pack_int8, byte. case_if; [|case_if].
  - right. left. split; [lia|]. rewrite wrapu_small by (unfold in_u; lia). f_equal.
  - left. split; [lia|]. by rewrite wrapu_small by (unfold in_u; lia).
  - right; right; do 2 eexists; split; [done|set_solver].
Qed.

Lemma starts_positive x : 0 <= x <= 0x7f -> starts x = SPositive.
Proof.
  intros Hx. unfold starts, fmt_nil, fmt_false, fmt_true, fmt_bin8, fmt_bin16, fmt_bin32, fmt_float32, fmt_float64,
    fmt_uint8, fmt_uint16, fmt_uint32, fmt_uint64, fmt_int8, fmt_int16, fmt_int32, fmt_int64, fmt_str8,
    fmt_str16, fmt_str32, fmt_array16, fmt_array32, fmt_map16, fmt_map32, fmt_table.
  repeat (case_if; [try done; lia|]). lia.
Qed.

Lemma starts_negative x : 0xe0 < x <= 0xff -> starts x = SNegative.
Proof.
  intros Hx. unfold starts, fmt_nil, fmt_false, fmt_true, fmt_bin8, fmt_bin16, fmt_bin32, fmt_float32, fmt_float64,
    fmt_uint8, fmt_uint16, fmt_uint32, fmt_uint64, fmt_int8, fmt_int16, fmt_int32, fmt_int64, fmt_str8,
    fmt_str16, fmt_str32, fmt_array16, fmt_array32, fmt_map16, fmt_map32, fmt_table.
  repeat (case_if; [try done; lia|]). lia.
Qed.

Lemma starts_fixstr x : 0xa0 <= x <= 0xbf -> starts x = SFixstr.
Proof.
  intros Hx. unfold starts, fmt_nil, fmt_false, fmt_true, fmt_bin8, fmt_bin16, fmt_bin32, fmt_float32, fmt_float64,
    fmt_uint8, fmt_uint16, fmt_uint32, fmt_uint64, fmt_int8, fmt_int16, fmt_int32, fmt_int64, fmt_str8,
    fmt_str16, fmt_str32, fmt_array16, fmt_array32, fmt_map16, fmt_map32, fmt_table.
  repeat (case_if; [try done; lia|]). lia.
Qed.

Section Survive.
Context (rawset : list (lua * lua) -> lua -> lua -> option (list (lua * lua))).
(** [lua_rawset] of a fresh key adds the entry. *)
Context (rawset_new : forall l k v, key_value k -> k ∉ l.*1 -> v <> LNil -> rawset l k v = Some (l ++ [(k, v)])).

(** [x] is pushed when the bytes are read, with fuel for every byte. *)
Definition pushes (x : lua) (bs : list Z) : Prop :=
  forall st r e n, (length (bs ++ r) < n)%nat ->
    unpack_stack_proxy rawset n (st, mkState (bs ++ r) e) = Some (x :: st, mkState r e).

Lemma pushes_int z : in_s 64 z -> least z = false -> z <> -32 -> pushes (LInteger z) (pack_int64 z).
Proof.
  intros Hz Hl Hne st r e [|n] Hn; [lia|].
  destruct (pack_int64_shape z Hz) as [[Hr ->]|[[Hr ->]|(fmt & l & E & Hf)]].
  - cbn [unpack_stack_proxy app]. unfold safe_data. cbn [rest].
    by rewrite starts_positive, safe_incremen_cons.
  - cbn [unpack_stack_proxy app]. unfold safe_data. cbn [rest].
    rewrite starts_negative, safe_incremen_cons by lia. do 4 f_equal.
    unfold wraps. replace (256 + z + 2 ^ (8 - 1)) with (z + 2 ^ 7 + 1 * 2 ^ 8) by lia.
    rewrite Z_mod_plus_full, Z.mod_small; lia.
  - cbn [unpack_stack_proxy]. pose proof (num_int64 z Hz Hl I64 0 r e) as H. rewrite E in *.
    unfold safe_data. cbn [rest app].
    assert (starts fmt = SSigned) as ->.
    { repeat (apply elem_of_cons in Hf as [->|Hf]; [done|]). by apply elem_of_nil in Hf. }
    cbn [app] in H. rewrite H. cbn. by rewrite (wraps_small 64).
Qed.

Lemma pushes_string s : Z.of_nat (length s) <= 255 -> pushes (LString s) (pack_string s).
Proof.
  intros Hs st r e [|n] Hn; [lia|]. clear Hn. cbn [unpack_stack_proxy].
  pose proof (decodes_str8 s Hs r e) as H. unfold pack_string in *. case_if.
  - rewrite lor_a0 in * by lia. clear H. unfold safe_data. cbn [rest app].
    rewrite starts_fixstr, safe_incremen_cons by lia.
    change (0xa0 + ?n) with (5 * 2 ^ 5 + n). change 31 with (Z.ones 5).
    rewrite header_low by lia. unfold fits. cbn [rest]. rewrite (proj2 (Z.ltb_lt _ _)) by lia.
    cbn [mbind option_bind]. rewrite (proj2 (Z.leb_le _ _)) by (rewrite length_app; lia).
    by rewrite Nat2Z.id, take_app_length, safe_incremen_app.
  - rewrite (proj2 (Z.leb_le _ 255)) in * by lia. unfold safe_data. cbn [rest app] in *.
    change (starts fmt_str8) with SString. cbn iota. by rewrite H.
Qed.

Lemma pushes_number b :
  in_u 64 b -> f64_integral b = false -> pushes (LNumber b) (fmt_float64 :: le_bytes 8 b).
Proof.
  intros Hb _ st r e [|n] Hn; [lia|]. cbn [unpack_stack_proxy app]. unfold safe_data. cbn [rest].
  change (starts fmt_float64) with SFloat64. cbn iota. rewrite safe_incremen_cons.
  unfold read_native. cbn [rest]. rewrite length_app, length_le_bytes.
  rewrite (proj2 (Nat.leb_le _ _)) by lia. cbn [mbind option_bind].
  rewrite take_app_length' by (by rewrite length_le_bytes). rewrite safe_incremen_app by apply length_le_bytes.
  rewrite le_bytes_value, Z.mod_small; [done|exact Hb].
Qed.

(** What is packed from [x] is read back as [x]. *)
Definition survives (x : lua) : Prop := forall bs, pack_stack_proxy x = Some bs -> pushes x bs.

Lemma map_loop_entries n st l acc body r e :
  pack_entries l = Some body -> (length (body ++ r) < n)%nat ->
  Forall (fun kv => key_value kv.1 /\ kv.2 <> LNil /\ survives kv.1 /\ survives kv.2) l ->
  NoDup (acc ++ l).*1 ->
  map_loop rawset (unpack_stack_proxy rawset n) (length l) (LTable acc :: st, mkState (body ++ r) e) =
    Some (LTable (acc ++ l) :: st, mkState r e).
Proof.
  intros Hb Hn Hl. revert acc body Hb Hn. induction Hl as [|[k v] l (Hk & Hv & Sk & Sv) _ IH]; intros acc body Hb Hn Hnd.
  { injection Hb as <-. cbn. by rewrite app_nil_r. }
  cbn [pack_entries] in Hb. apply bind_Some in Hb as (bk & Ek & Hb). apply bind_Some in Hb as (bv & Ev & Hb).
  apply bind_Some in Hb as (c & Ec & [= <-]). cbn [fst snd] in *.
  rewrite !length_app in Hn. cbn [length map_loop]. rewrite <- !app_assoc.
  rewrite (Sk bk Ek) by (rewrite !length_app; lia). cbn [mbind option_bind].
  rewrite (Sv bv Ev) by (rewrite !length_app; lia). cbn [mbind option_bind].
  unfold lua_rawset. cbn [fst snd]. rewrite fmap_app in Hnd. cbn in Hnd.
  apply NoDup_app in Hnd as (Hnd1 & Hdis & Hnd2).
  rewrite rawset_new by (done || set_solver). cbn [mbind option_bind].
  rewrite IH; [by rewrite <- app_assoc|done|rewrite length_app; lia|].
  rewrite <- app_assoc, fmap_app. by apply NoDup_app.
Qed.

Lemma survives_sendable x : sendable x -> survives x.
Proof.
  induction x as [|z|b|s|b|p| |l IH] using lua_nested_ind; intros Hx bs Hp; cbn [pack_stack_proxy] in Hp.
  - injection Hp as <-. intros st r e [|n] Hn; [lia|]. cbn -[safe_incremen]. by rewrite safe_incremen_cons.
  - injection Hp as <-. destruct Hx as (? & ? & ?). by apply pushes_int.
  - destruct Hx as (Hb & _ & Hi). unfold pack_double in Hp. apply bind_Some in Hp as (i & _ & Hp).
    rewrite Hi in Hp. injection Hp as <-. by apply pushes_number.
  - injection Hp as <-. by apply pushes_string.
  - injection Hp as <-. intros st r e [|n] Hn; [lia|].
    destruct b; cbn -[safe_incremen]; by rewrite safe_incremen_cons.
  - done.
  - done.
  - fold (pack_entries l) in Hp. apply bind_Some in Hp as (body & Hb & Hp).
    remember (be_bytes 4 (Z.of_nat (length l))) as hdr eqn:Eh. injection Hp as <-.
    pose proof (sendable_entries l Hx) as He. destruct Hx as (Hlen & Hnd & _).
    intros st r e [|n] Hn; [lia|]. cbn [unpack_stack_proxy]. unfold safe_data. cbn [rest].
    cbn [app] in *. change (starts fmt_table) with STable. cbn iota.
    unfold unpack_table, safe_data. cbn [rest].
    change (fmt_table =? fmt_array32) with false. change (fmt_table =? fmt_array16) with false.
    change ((fmt_table =? fmt_map32) || (fmt_table =? fmt_table)) with true. cbn iota.
    rewrite safe_incremen_cons, <- app_assoc. subst hdr. rewrite read_size_bytes, Z.mod_small by (rewrite ?Z.mod_small; cbn; lia).
    rewrite Z.add_0_l, Nat2Z.id. apply (map_loop_entries n st l []); [done| |  |done].
    + cbn [length] in Hn. rewrite !length_app, length_be_bytes in *. lia.
    + eapply Forall_impl; [exact (proj2 (Forall_and _ _) (conj He IH))|]. cbn. intros [k v] [(?&?&?&?) [??]]. auto.
Qed.

Lemma loop_survives xs st r0 bss fuel i :
  Forall2 (fun x bs => sendable x /\ pack_stack_proxy x = Some bs /\ bs <> []) xs bss ->
  r0 = mkState (concat bss) false -> (length xs < fuel)%nat ->
  unpack_loop rawset fuel (st, r0) i = Done (reverse xs ++ st, mkState [] false) (i + length xs).
Proof.
  intros H. revert st r0 fuel i. induction H as [|x bs xs bss (Hx & Hp & Hne) _ IH]; intros st r0 [|fuel] i -> Hf.
  - lia.
  - cbn. by rewrite Nat.add_0_r.
  - lia.
  - cbn [concat unpack_loop snd]. unfold empty. cbn [rest].
    destruct (bs ++ concat bss) eqn:E; [by apply app_eq_nil in E as [-> _]|]. rewrite <- E.
    unfold proxy. cbn [snd rest]. rewrite (survives_sendable x Hx bs Hp) by lia.
    rewrite (IH _ _ _ _ eq_refl) by (cbn in Hf; lia). rewrite reverse_cons, <- app_assoc. f_equal. cbn. lia.
Qed.

End Survive.

Lemma pack_not_empty x bs : sendable x -> pack_stack_proxy x = Some bs -> bs <> [].
Proof.
  destruct x as [|z|b|s|b|l|p|]; cbn [pack_stack_proxy]; intros Hx Hp ->.
  - done.
  - injection Hp as Hp. destruct Hx as [Hz _].
    by destruct (pack_int64_shape z Hz) as [[_ E]|[[_ E]|(f & l & E & _)]]; rewrite E in Hp.
  - destruct Hx as (_ & _ & Hi). unfold pack_double in Hp. apply bind_Some in Hp as (i & _ & Hp).
    by rewrite Hi in Hp.
  - injection Hp as Hp. cbn in Hx. revert Hp. unfold pack_string. case_if; [done|].
    by rewrite (proj2 (Z.leb_le _ 255)) by lia.
  - by destruct b.
  - by apply bind_Some in Hp as (body & _ & Hp).
  - done.
  - done.
Qed.

(** [pack(sol::variadic_args &)]: the values one after the other. *)
Fixpoint pack_lua (args : list lua) : option (list Z) :=
  match args with
  | [] => Some []
  | x :: r => a ← pack_stack_proxy x; b ← pack_lua r; Some (a ++ b)
  end.

Lemma pack_lua_pieces xs data : Forall sendable xs -> pack_lua xs = Some data ->
  exists bss, data = concat bss /\
    Forall2 (fun x bs => sendable x /\ pack_stack_proxy x = Some bs /\ bs <> []) xs bss.
Proof.
  intros Hs. revert data. induction Hs as [|x xs Hx Hs IH]; intros data Hp; cbn [pack_lua] in Hp.
  - injection Hp as <-. by exists [].
  - apply bind_Some in Hp as (a & Ha & (b & Hb & [= <-])%bind_Some).
    destruct (IH b Hb) as (bss & -> & H). exists (a :: bss). split; [done|].
    constructor; [|done]. eauto using pack_not_empty.
Qed.

Lemma pack_lua_length xs data : Forall sendable xs -> pack_lua xs = Some data -> (length xs <= length data)%nat.
Proof.
  intros Hs Hp. destruct (pack_lua_pieces xs data Hs Hp) as (bss & -> & H). clear -H.
  induction H as [|x bs xs bss (_ & _ & Hne) _ IH]; [done|]. cbn [concat length]. rewrite length_app.
  destruct bs; [done|]. cbn. lia.
Qed.

Lemma unpack_lua_packed rawset
    (Hnew : forall l k v, key_value k -> k ∉ l.*1 -> v <> LNil -> rawset l k v = Some (l ++ [(k, v)])) fuel st xs data :
  Forall sendable xs -> pack_lua xs = Some data -> (length xs < fuel)%nat ->
  unpack_lua rawset fuel st data = Done (reverse xs ++ st, mkState [] false) (length xs).
Proof.
  intros Hs Hp Hf. destruct (pack_lua_pieces xs data Hs Hp) as (bss & -> & H).
  unfold unpack_lua. by rewrite (loop_survives rawset Hnew xs st _ bss) by (done || lia).
Qed.

(** C37: within the limits of [sendable], Lua values packed by one script are pushed for the
    other one in their order, without an error: nil, booleans, integers other than -32 and the
    least ones of 32 and 64 bits, numbers with a fraction whose whole part has 64 bits, strings
    up to 255 bytes, and tables of such values, nested in any way, whose keys are distinct
    integers, strings or booleans and whose values are not nil.  Left out are numbers without
    a fraction (they arrive as integers), userdata, and -32 (it arrives as a table,
    [minus_32_is_a_table]).  The law of [lua_rawset] that is used: a value other than nil under
    a fresh key is added to the table. *)
Theorem lua_round_trip rawset xs data st
    (Hnew : forall l k v, key_value k -> k ∉ l.*1 -> v <> LNil -> rawset l k v = Some (l ++ [(k, v)])) :
  Forall sendable xs -> pack_lua xs = Some data ->
  unpack_lua rawset (S (length xs)) st data = Done (reverse xs ++ st, mkState [] false) (length xs).
Proof. intros Hs Hp. apply (unpack_lua_packed rawset Hnew _ _ _ data Hs Hp). lia. Qed.

Lemma lua_round_trip_witness :
  let rawset (l : list (lua * lua)) k v := Some (l ++ [(k, v)]) in
  let xs := [LInteger (-33); LTable [(LString [97], LBoolean true); (LInteger 1, LTable [])]; LNil] in
  exists data, pack_lua xs = Some data /\
    unpack_lua rawset 4 [] data = Done (reverse xs ++ [], mkState [] false) 3.
Proof.
  intros rawset xs. destruct (pack_lua xs) as [data|] eqn:E; [|vm_compute in E; discriminate].
  exists data. split; [done|]. apply (lua_round_trip rawset xs data []); [done| |done].
  repeat constructor; cbn; try lia; try done; set_solver.
Defined.

(** The integer -32 is packed to the byte of [format_t::table]: followed by four more values
    it is read back as a table. *)
Lemma minus_32_is_a_table rawset st :
  pack_lua [LInteger (-32); LInteger 0; LInteger 0; LInteger 0; LInteger 0] = Some [0xe0; 0; 0; 0; 0] /\
  unpack_lua rawset 6 st [0xe0; 0; 0; 0; 0] = Done (LTable [] :: st, mkState [] false) 1.
Proof. split; vm_compute; reflexivity. Qed.

End MsgLua.
