(* ===== verification/Rpc.v ===== *)
(** * RPC calls ([src/network/rpc/rpc_call.cpp], [rpc_call.h], [rpc_timer_pool.cpp])

    One [RpcCall] from [Call] to its callback.  Three parties work on it: the thread of the
    owning worker ([Call], [Cancel], and the tasks for a reply and for a timeout), the I/O
    thread on which the timer fires, and the timer of Asio.  They share [state_], which they
    change by compare-and-exchange only; what follows a successful exchange on the worker
    thread touches nothing the I/O thread reads, so an operation is one step. *)

From S2P Require Import Prelude.

Module TimerPool.

(** A [RpcTimerPool] of a thread; a handle is its [id]. *)
Record pool := mkPool { available : list nat; pool_size : Z; in_use : Z; next_id : nat }.

Definition init : pool := mkPool [] 0 0 0.

(** [Acquire]: the handle released last, with a new id, or a new one. *)
Definition Acquire (p : pool) : nat * pool :=
  match reverse (available p) with
  | [] => (next_id p, mkPool [] (u64 (pool_size p + 1)) (u64 (in_use p + 1)) (S (next_id p)))
  | _ :: r => (next_id p, mkPool (reverse r) (pool_size p) (u64 (in_use p + 1)) (S (next_id p)))
  end.

Definition Release (h : nat) (p : pool) : pool :=
  mkPool (available p ++ [h]) (pool_size p) (u64 (in_use p - 1)) (next_id p).

Definition PreWarm (count : nat) (p : pool) : pool :=
  mkPool (available p ++ seq (next_id p) count) (u64 (pool_size p + Z.of_nat count)) (in_use p)
    (next_id p + count).

(** Every timer of the pool is available or in use. *)
Definition balanced (p : pool) : Prop :=
  pool_size p = u64 (Z.of_nat (length (available p)) + in_use p).

Lemma wrapu_add_l w a b : wrapu w (wrapu w a + b) = wrapu w (a + b).
Proof. unfold wrapu. apply Zplus_mod_idemp_l. Qed.

Lemma wrapu_add_r w a b : wrapu w (a + wrapu w b) = wrapu w (a + b).
Proof. unfold wrapu. apply Zplus_mod_idemp_r. Qed.

Lemma Acquire_balanced p h p' : balanced p -> Acquire p = (h, p') -> balanced p'.
Proof.
  unfold balanced, Acquire. intros Hb. destruct (reverse (available p)) as [|x r] eqn:E; intros [= _ <-]; cbn.
  - apply (f_equal reverse) in E. rewrite reverse_involutive in E. rewrite E in Hb. cbn in Hb.
    by rewrite Hb, !wrapu_add_l, wrapu_add_r, Z.add_0_l.
  - apply (f_equal reverse) in E. rewrite reverse_involutive, reverse_cons in E. rewrite E in Hb.
    rewrite Hb, wrapu_add_r, length_app. f_equal. cbn [length]. lia.
Qed.

Lemma Release_balanced h p : balanced p -> balanced (Release h p).
Proof.
  unfold balanced, Release. cbn. intros ->. rewrite wrapu_add_r, length_app. f_equal. cbn [length]. lia.
Qed.

Lemma PreWarm_balanced n p : balanced p -> balanced (PreWarm n p).
Proof.
  unfold balanced, PreWarm. cbn. intros ->. rewrite wrapu_add_l, length_app, length_seq. f_equal. lia.
Qed.

End TimerPool.

Module RpcCall.
Import TimerPool.

Inductive RpcState := Pending | Completed | Timeout | Cancelled | InvalidRequest.

Inductive RpcErrorCode := CodeNone | CodeTimeout | CodeCancel | CodeInvalidRequest.

#[export] Instance RpcState_eq_dec : EqDecision RpcState.
Proof. solve_decision. Defined.
#[export] Instance RpcErrorCode_eq_dec : EqDecision RpcErrorCode.
Proof. solve_decision. Defined.

(** What the worker has to run for the call: [Done] for a reply, and the end of a timeout. *)
Inductive task := TReply | TTimeout.

(** The call, and what the other parties hold of it: [entry] tells whether the worker's
    pending map has it under its sequence number, [waiting] whether the timer has a handler
    that is not due, [handlers] the handlers that are due ([true]: the time is over, [false]:
    aborted), [sent] the requests given to the session and [log] the calls of the callback. *)
Record world := mkWorld {
  state_ : RpcState;
  session_ : bool;
  timer_handle_ : option nat;
  timeout_ : Z;
  result_callback_ : bool;
  timers : pool;
  entry : bool;
  waiting : bool;
  handlers : list bool;
  tasks : list task;
  sent : nat;
  log : list RpcErrorCode }.

Definition set_state x w := mkWorld x (session_ w) (timer_handle_ w) (timeout_ w) (result_callback_ w)
  (timers w) (entry w) (waiting w) (handlers w) (tasks w) (sent w) (log w).
Definition set_timer h p b l w := mkWorld (state_ w) (session_ w) h (timeout_ w) (result_callback_ w)
  p (entry w) b l (tasks w) (sent w) (log w).
Definition set_timeout t w := mkWorld (state_ w) (session_ w) (timer_handle_ w) t (result_callback_ w)
  (timers w) (entry w) (waiting w) (handlers w) (tasks w) (sent w) (log w).
Definition set_session b w := mkWorld (state_ w) b (timer_handle_ w) (timeout_ w) (result_callback_ w)
  (timers w) (entry w) (waiting w) (handlers w) (tasks w) (sent w) (log w).
Definition set_entry b w := mkWorld (state_ w) (session_ w) (timer_handle_ w) (timeout_ w) (result_callback_ w)
  (timers w) b (waiting w) (handlers w) (tasks w) (sent w) (log w).
Definition set_tasks l w := mkWorld (state_ w) (session_ w) (timer_handle_ w) (timeout_ w) (result_callback_ w)
  (timers w) (entry w) (waiting w) (handlers w) l (sent w) (log w).
Definition set_sent n w := mkWorld (state_ w) (session_ w) (timer_handle_ w) (timeout_ w) (result_callback_ w)
  (timers w) (entry w) (waiting w) (handlers w) (tasks w) n (log w).

(** [result_callback_(code, ...)], when there is one. *)
Definition callback (c : RpcErrorCode) w := mkWorld (state_ w) (session_ w) (timer_handle_ w) (timeout_ w)
  (result_callback_ w) (timers w) (entry w) (waiting w) (handlers w) (tasks w) (sent w)
  (if result_callback_ w then log w ++ [c] else log w).

Definition compare_exchange (expected desired : RpcState) (w : world) : bool * world :=
  if decide (state_ w = expected) then (true, set_state desired w) else (false, w).

(** Asio: a handler that waits becomes due as aborted. *)
Definition cancel (w : world) : world :=
  if waiting w then set_timer (timer_handle_ w) (timers w) false (handlers w ++ [false]) w else w.

(** [StopTimer]: [Release] cancels in any case, so the cancel before it for a timer that is
    not due makes no difference. *)
Definition StopTimer (w : world) : world :=
  match timer_handle_ w with
  | None => w
  | Some h =>
      let w := cancel w in
      set_timer None (Release h (timers w)) (waiting w) (handlers w) w
  end.

Definition acquire (w : world) : world :=
  let '(h, p) := Acquire (timers w) in set_timer (Some h) p (waiting w) (handlers w) w.

(** [connected]: the session is neither closed nor unconnected. *)
Definition HasSession (connected : bool) (w : world) : bool := session_ w && connected.

Definition SetTimeout (connected : bool) (t : Z) (w : world) : world :=
  let w := set_timeout t w in
  match timer_handle_ w with
  | None => if HasSession connected w then acquire w else w
  | Some _ => w
  end.

Definition SetSession (session : bool) (w : world) : world :=
  let w := set_session session w in
  match timer_handle_ w with None => if session then acquire w else w | Some _ => w end.

Definition StartTimer (w : world) : world :=
  if negb (session_ w) || bool_decide (timer_handle_ w = None) then
    let '(ok, w) := compare_exchange Pending InvalidRequest w in
    if ok then callback CodeInvalidRequest (StopTimer (set_entry false w)) else w
  else
    let w := cancel w in       (* expires_after *)
    set_timer (timer_handle_ w) (timers w) true (handlers w) w.

Definition Call (w : world) : world :=
  let w := StartTimer (set_state Pending w) in
  if session_ w then set_sent (S (sent w)) w else w.

Definition Cancel (w : world) : world :=
  let '(ok, w) := compare_exchange Pending Cancelled w in
  if ok then callback CodeCancel (StopTimer (set_entry false w)) else w.

Definition Done (w : world) : world :=
  let '(ok, w) := compare_exchange Pending Completed w in
  if ok then callback CodeNone (StopTimer w) else w.

Definition ErrorCode (w : world) : RpcErrorCode :=
  match state_ w with
  | Timeout => CodeTimeout
  | Cancelled => CodeCancel
  | InvalidRequest => CodeInvalidRequest
  | _ => CodeNone
  end.

Definition IsError (w : world) : bool := negb (bool_decide (ErrorCode w = CodeNone)).

(** The handler of the timer, on the I/O thread; [worker]: the worker was found. *)
Definition timer_handler (worker fired : bool) (w : world) : world :=
  if negb fired then w
  else
    let '(ok, w) := compare_exchange Pending Timeout w in
    if ok && worker then set_tasks (tasks w ++ [TTimeout]) w else w.

(** A task on the worker: [TakePendingRpc] finds the call for a reply at most once. *)
Definition run_task (t : task) (w : world) : world :=
  match t with
  | TReply => if entry w then Done (set_entry false w) else w
  | TTimeout => callback CodeTimeout (StopTimer (set_entry false w))
  end.

Inductive event :=
  | EExpire                              (* the time is over: the handler is due *)
  | EHandler (worker : bool)             (* the I/O thread runs the next handler *)
  | EReply                               (* a reply was dispatched to the worker *)
  | ETask                                (* the worker runs the next task *)
  | ECancel
  | ESetTimeout (connected : bool) (t : Z)
  | ESetSession (session : bool).

Definition step (w : world) (e : event) : world :=
  match e with
  | EExpire =>
      if waiting w then set_timer (timer_handle_ w) (timers w) false (handlers w ++ [true]) w else w
  | EHandler worker =>
      match handlers w with
      | [] => w
      | fired :: l => timer_handler worker fired (set_timer (timer_handle_ w) (timers w) (waiting w) l w)
      end
  | EReply => set_tasks (tasks w ++ [TReply]) w
  | ETask =>
      match tasks w with [] => w | t :: l => run_task t (set_tasks l w) end
  | ECancel => Cancel w
  | ESetTimeout connected t => SetTimeout connected t w
  | ESetSession session => SetSession session w
  end.

Definition run (es : list event) (w : world) : world := foldl step w es.

(** A call that was stored in the pending map and is about to be made. *)
Record fresh (w : world) : Prop := {
  fresh_entry : entry w = true;
  fresh_waiting : waiting w = false;
  fresh_handlers : handlers w = [];
  fresh_tasks : tasks w = [];
  fresh_log : log w = [];
  fresh_callback : result_callback_ w = true }.

(** ** The life of a call *)

(** Is a timeout posted to the worker? *)
Definition timeout_posted (w : world) : Prop := TTimeout ∈ tasks w.

(** [lost]: some timeout found no worker to go to. *)
Definition life (lost : bool) (w : world) : Prop :=
  match state_ w with
  | Pending =>
      log w = [] /\ entry w = true /\ is_Some (timer_handle_ w) /\
      ((waiting w = true /\ (true ∉ handlers w)) \/ (waiting w = false /\ true ∈ handlers w)) /\ TTimeout ∉ tasks w
  | Timeout =>
      waiting w = false /\
      ((log w = [] /\ (exists l r, tasks w = l ++ TTimeout :: r /\ (TTimeout ∉ l) /\ (TTimeout ∉ r))) \/
       (log w = [CodeTimeout] /\ (TTimeout ∉ tasks w) /\ entry w = false) \/
       (lost = true /\ log w = [] /\ (TTimeout ∉ tasks w)))
  | _ => waiting w = false /\ log w = [ErrorCode w] /\ (TTimeout ∉ tasks w) /\ entry w = false
  end.

Definition inv (lost : bool) (w : world) : Prop := result_callback_ w = true /\ life lost w.

Definition loses (e : event) : bool := match e with EHandler false => true | _ => false end.

Ltac world w := destruct w as [st ss h t cb tm en wa hs ts sn lg]; cbn in *.

Lemma inv_Call w : fresh w -> inv false (Call w).
Proof.
  intros [H1 H2 H3 H4 H5 H6]. world w. subst.
  unfold Call, StartTimer. cbn. destruct ss, h as [h|]; cbn; unfold inv, life; cbn;
    repeat split; eauto; set_solver.
Qed.

Lemma inv_lost b w : inv false w -> inv b w.
Proof. unfold inv, life. intros [? H]. split; [done|]. destruct (state_ w); naive_solver. Qed.

Lemma inv_Cancel lost w : inv lost w -> inv lost (Cancel w).
Proof.
  world w. unfold inv, life, Cancel, compare_exchange. cbn. intros [-> H].
  destruct st; cbn; [|auto..]. destruct H as (-> & -> & [h' ->] & Hw & Ht).
  unfold StopTimer, cancel. cbn. destruct wa; cbn; splits; done.
Qed.

Lemma inv_Done lost w :
  inv lost (set_entry true w) -> entry w = false -> inv lost (Done w).
Proof.
  world w. unfold inv, life, Done, compare_exchange. cbn. intros [-> H] ->.
  destruct st; cbn; [|split; [done|]; naive_solver..]. destruct H as (-> & _ & [h' ->] & Hw & Ht).
  unfold StopTimer, cancel. cbn. destruct wa; cbn; splits; done.
Qed.

Lemma inv_set lost w c n : inv lost w -> inv lost (SetTimeout c n w).
Proof.
  world w. unfold inv, life, SetTimeout. cbn. intros [-> H]. destruct h; cbn; [done|].
  destruct (HasSession _ _); cbn; [|done]. unfold acquire. cbn.
  destruct (Acquire tm). cbn. split; [done|]. destruct st; naive_solver.
Qed.

Lemma inv_session lost w b : inv lost w -> inv lost (SetSession b w).
Proof.
  world w. unfold inv, life, SetSession. cbn. intros [-> H]. destruct h; cbn; [done|].
  destruct b; cbn; [|done]. unfold acquire. cbn.
  destruct (Acquire tm). cbn. split; [done|]. destruct st; naive_solver.
Qed.

Lemma inv_task lost w : inv lost w -> inv lost (step w ETask).
Proof.
  intros H. cbn. destruct (tasks w) as [|[|] l] eqn:E; [done| |].
  - unfold run_task. assert (inv lost (set_tasks l w)) as H'.
    { world w. subst. unfold inv, life in *. cbn in *. destruct H as [-> H]. split; [done|].
      destruct st; try set_solver. destruct H as [? [(? & l' & r & E & ? & ?)|H]]; [|set_solver].
      split; [done|]. left. split; [done|]. destruct l' as [|x l']; [done|]. injection E as <- ->.
      exists l', r. set_solver. }
    clear H. replace (entry (set_tasks l w)) with (entry w) by done.
    destruct (entry w) eqn:E2; [|done]. apply inv_Done; [|done].
    world w. by subst.
  - world w. subst. unfold inv, life in *. cbn in *. destruct H as [-> H].
    unfold run_task. destruct st; [set_solver|set_solver| |set_solver..].
    destruct H as [-> [(-> & l' & r & E & Hl & Hr)|H]]; [|set_solver].
    destruct l' as [|x l']; [injection E as ->|set_solver].
    unfold StopTimer, cancel. cbn. destruct h; cbn; do 2 (split; [done|]); right; left; splits; done.
Qed.

Lemma inv_handler lost w b : inv lost w -> inv (lost || negb b) (step w (EHandler b)).
Proof.
  intros H. cbn. destruct (handlers w) as [|f l] eqn:E.
  { world w. unfold inv, life in *. cbn in *. destruct H as [-> H]. split; [done|]. destruct st, lost; naive_solver. }
  world w. subst. unfold inv, life, timer_handler in *. cbn in *. destruct H as [-> H].
  destruct f; cbn.
  - unfold compare_exchange. cbn. destruct st; cbn; (split; [destruct b; cbn; done|]).
    + destruct H as (-> & -> & Hh & Hw & Ht). destruct b; cbn.
      * split; [set_solver|]. left. split; [done|]. exists ts, []. set_solver.
      * split; [set_solver|]. right. right. split; [by rewrite orb_true_r|done].
    + naive_solver.
    + destruct lost; naive_solver.
    + naive_solver.
    + naive_solver.
  - split; [done|]. destruct st; [set_solver|naive_solver| |naive_solver..]. destruct lost; naive_solver.
Qed.

Lemma inv_step lost w e : inv lost w -> inv (lost || loses e) (step w e).
Proof.
  intros H. destruct e as [|b| | | |c t|s]; cbn [loses]; rewrite ?orb_false_r.
  - world w. unfold inv, life in *. cbn in *. destruct H as [-> H]. destruct wa; cbn; [|done].
    split; [done|]. destruct st; set_solver.
  - apply (inv_handler _ _ b) in H. by destruct b.
  - world w. unfold inv, life in *. cbn in *. destruct H as [-> H]. split; [done|].
    destruct st; try set_solver. destruct H as [? [(? & l & r & -> & ? & ?)|H]]; [|set_solver].
    split; [done|]. left. split; [done|]. exists l, (r ++ [TReply]). rewrite <- app_assoc. set_solver.
  - by apply inv_task.
  - by apply inv_Cancel.
  - by apply inv_set.
  - by apply inv_session.
Qed.

Lemma inv_run es lost w : inv lost w -> inv (lost || existsb loses es) (run es w).
Proof.
  revert lost w. induction es as [|e es IH]; intros lost w H; cbn; [by rewrite orb_false_r|].
  rewrite orb_assoc. apply IH. by apply inv_step.
Qed.

(** ** What is left when nothing else happens *)

Definition drain_handlers (w : world) : world := run (replicate (length (handlers w)) (EHandler true)) w.
Definition drain_tasks (w : world) : world := run (replicate (length (tasks w)) ETask) w.

(** The time is over, the I/O thread runs what is due and the worker its tasks. *)
Definition settle (w : world) : world := drain_tasks (drain_handlers (step w EExpire)).

Lemma StopTimer_tasks w : tasks (StopTimer w) = tasks w.
Proof. world w. unfold StopTimer, cancel. cbn. destruct h; [|done]. by destruct wa. Qed.

Lemma handler_step w b l : handlers w = b :: l ->
  handlers (step w (EHandler true)) = l /\ waiting (step w (EHandler true)) = waiting w.
Proof.
  intros H. cbn. rewrite H. unfold timer_handler. destruct b; cbn; [|done].
  unfold compare_exchange. by destruct (decide _).
Qed.

Lemma task_step w t l : tasks w = t :: l -> tasks (step w ETask) = l.
Proof.
  intros H. cbn. rewrite H. destruct t; cbn.
  - destruct (entry w); [|done]. unfold Done, compare_exchange. destruct (decide _); cbn; [|done].
    by rewrite StopTimer_tasks.
  - by rewrite StopTimer_tasks.
Qed.

Lemma drain_handlers_done w : handlers (drain_handlers w) = [] /\ waiting (drain_handlers w) = waiting w.
Proof.
  unfold drain_handlers. remember (length (handlers w)) as n eqn:E. revert w E.
  induction n as [|n IH]; intros w E.
  - destruct (handlers w) eqn:H; [by split|done].
  - destruct (handlers w) as [|b l] eqn:H; [done|]. destruct (handler_step w b l H) as [H1 H2].
    cbn [replicate]. unfold run. cbn [foldl]. rewrite <- H2. apply IH. rewrite H1. by injection E.
Qed.

Lemma drain_tasks_done w : tasks (drain_tasks w) = [].
Proof.
  unfold drain_tasks. remember (length (tasks w)) as n eqn:E. revert w E.
  induction n as [|n IH]; intros w E; [by destruct (tasks w) eqn:H|].
  destruct (tasks w) as [|t l] eqn:H; [done|]. cbn [replicate]. unfold run. cbn [foldl].
  apply IH. rewrite (task_step w t l H). by injection E.
Qed.

Lemma no_loss n e : loses e = false -> existsb loses (replicate n e) = false.
Proof. intros H. induction n; cbn; [done|]. by rewrite H. Qed.

Lemma inv_drained w n e : loses e = false -> inv false w -> inv false (run (replicate n e) w).
Proof. intros He H. apply (inv_run (replicate n e)) in H. by rewrite no_loss in H. Qed.

(** No task ever starts a timer or makes a call pending again. *)
Lemma not_pending_task w : state_ w <> Pending -> state_ (step w ETask) <> Pending.
Proof.
  cbn. destruct (tasks w) as [|[|] l]; [done| |]; cbn; intros H.
  - destruct (entry w); [|done]. unfold Done, compare_exchange. cbn. destruct (decide _); [done|]. done.
  - unfold StopTimer, cancel. cbn. destruct (timer_handle_ w); [|done]. by destruct (waiting w).
Qed.

Lemma not_pending_tasks n w : state_ w <> Pending -> state_ (run (replicate n ETask) w) <> Pending.
Proof.
  revert w. induction n as [|n IH]; intros w H; [done|]. cbn [replicate]. unfold run. cbn [foldl].
  by apply IH, not_pending_task.
Qed.


(** C20: whatever the order of reply, cancel, expiry, handlers and tasks, the callback of one
    [Call] is called at most once, and then with the code [ErrorCode] gives from there on: a
    late reply or a late timeout changes neither. *)
Theorem callback_at_most_once w es c :
  fresh w -> let w' := run es (Call w) in
  (length (log w') <= 1)%nat /\ (c ∈ log w' -> c = ErrorCode w' /\ state_ w' <> Pending).
Proof.
  intros Hw. pose proof (inv_run es false _ (inv_Call w Hw)) as [_ H].
  cbn zeta. set (w' := run es (Call w)) in *. clearbody w'. unfold life, ErrorCode in *.
  destruct (state_ w').
  - destruct H as (-> & _). cbn. split; [lia|]. by intros ?%elem_of_nil.
  - destruct H as (_ & -> & _). cbn. split; [lia|]. by intros ->%list_elem_of_singleton.
  - destruct H as [_ [(-> & _)|[(-> & _)|(_ & -> & _)]]]; cbn; (split; [lia|]); set_solver.
  - destruct H as (_ & -> & _). cbn. split; [lia|]. by intros ->%list_elem_of_singleton.
  - destruct H as (_ & -> & _). cbn. split; [lia|]. by intros ->%list_elem_of_singleton.
Qed.

(** A call with a session and a timer from the pool, as [CallImpl] makes it. *)
Definition example_call : world :=
  mkWorld Pending true (Some 0%nat) 5000 true (mkPool [] 1 1 1) true false [] [] 0 [].

Lemma fresh_example : fresh example_call.
Proof. by split. Qed.


Lemma callback_at_most_once_witness :
  let w' := run [EReply; ETask; ECancel; EExpire; EHandler true; EReply; ETask] (Call example_call) in
  log w' = [CodeNone] /\ (length (log w') <= 1)%nat.
Proof.
  split; [reflexivity|].
  apply (callback_at_most_once example_call [EReply; ETask; ECancel; EExpire; EHandler true; EReply; ETask] CodeNone).
  by split.
Defined.

(** ** Calling again *)

Definition sets (e : event) : bool :=
  match e with ESetTimeout _ _ | ESetSession _ => true | _ => false end.

(** Once the callback was called the timer is back in the pool. *)
Definition returned (b : bool) (w : world) : Prop :=
  session_ w = b /\ (log w <> [] -> timer_handle_ w = None).

Lemma StopTimer_handle w : timer_handle_ (StopTimer w) = None.
Proof. world w. unfold StopTimer, cancel. cbn. destruct h; [|done]. by destruct wa. Qed.

Lemma StopTimer_session w : session_ (StopTimer w) = session_ w.
Proof. world w. unfold StopTimer, cancel. cbn. destruct h; [|done]. by destruct wa. Qed.

Lemma returned_callback b c w : session_ w = b -> returned b (callback c (StopTimer w)).
Proof. intros H. split; cbn; [by rewrite StopTimer_session|intros _; apply StopTimer_handle]. Qed.

Lemma returned_step b w e : sets e = false -> returned b w -> returned b (step w e).
Proof.
  intros He [Hs Hr]. destruct e as [|wk| | | | |]; try done; cbn.
  - by destruct (waiting w).
  - destruct (handlers w) as [|f l]; [done|]. unfold timer_handler. destruct f; cbn; [|done].
    unfold compare_exchange. cbn. destruct (decide _); cbn; [|done]. by destruct wk.
  - destruct (tasks w) as [|[|] l]; [done| |].
    + cbn. destruct (entry w); [|done]. unfold Done, compare_exchange. cbn.
      destruct (decide _); [|done]. by apply returned_callback.
    + by apply returned_callback.
  - unfold Cancel, compare_exchange. destruct (decide _); [|done]. by apply returned_callback.
Qed.

Lemma returned_run b es w : existsb sets es = false -> returned b w -> returned b (run es w).
Proof.
  revert w. induction es as [|e es IH]; intros w He H; [done|]. cbn in He. apply orb_false_elim in He as [? ?].
  unfold run. cbn [foldl]. apply IH; [done|]. by apply returned_step.
Qed.

(** An [RpcCall] makes one call.  After its callback, unless [SetTimeout] or
    [SetSession] was called in between, [Call] has no timer: it calls the callback again, with
    InvalidRequest, takes the call out of the pending map, and sends the request all the
    same, so that its reply finds nobody. *)
Theorem second_call_is_invalid w es c :
  fresh w -> existsb sets es = false -> log (run es (Call w)) = [c] ->
  let w1 := run es (Call w) in
  let w2 := Call (set_entry true w1) in
  log w2 = [c; CodeInvalidRequest] /\ entry w2 = false /\ timer_handle_ w2 = None /\
  sent w2 = ((if session_ w then 1 else 0) + sent w1)%nat.
Proof.
  intros Hw Hes Hlog. cbn zeta.
  assert (returned (session_ w) (Call w)) as Hr.
  { destruct Hw as [H1 H2 H3 H4 H5 H6]. world w. subst. unfold Call, StartTimer. cbn.
    destruct ss, h; cbn; by split. }
  apply (returned_run _ es) in Hr; [|done].
  pose proof (inv_run es false _ (inv_Call w Hw)) as [Hcb _].
  set (w1 := run es (Call w)) in *. clearbody w1.
  destruct Hr as [Hs Hr]. rewrite Hlog in Hr. specialize (Hr ltac:(done)).
  revert Hs Hlog Hr Hcb. clear. world w1. intros -> -> -> ->. by destruct (session_ w).
Qed.

Lemma second_call_is_invalid_witness :
  let w1 := run [EReply; ETask] (Call example_call) in
  let w2 := Call (set_entry true w1) in
  log w2 = [CodeNone; CodeInvalidRequest] /\ sent w2 = 2%nat.
Proof.
  destruct (second_call_is_invalid example_call [EReply; ETask] CodeNone) as (H & _ & _ & Hs);
    [by split|reflexivity|reflexivity|]. split; [exact H|]. rewrite Hs. reflexivity.
Defined.

End RpcCall.
