(* ===== verification/Handlers.v ===== *)
(** * Handlers: from a message to the call of a function, and back
      ([src/network/rpc/function.hpp], [rpc_function.hpp], [rpc_function_help.cpp],
      [rpc_reply.cpp], [rpc_call.h], and [Call] of [src/network/manager/network_manager.h])

    The functions that applications register are wrapped by templates, which choose by the
    types of the parameters how the payload is decoded.  A list of [param] stands for the
    parameters; the result of a wrapper is the arguments of the call it makes.  What protobuf
    parses, and what a decompressing stream gives, are parameters. *)

From S2P Require Import Prelude TranBuf BufRead BufWrite Buffer Framing Session Blocks Worker Router Network Msgpack MsgUnpack MsgLua Rpc.
Import TranBufPool Framing Session Network Msgpack MsgUnpack MsgLua.

Module Handlers.

#[local] Existing Instance RpcCall.RpcErrorCode_eq_dec.

(** The parameters of a function: a session, the [RpcReply], a protobuf message of some type,
    and the types that MessagePack unpacks. *)
Inductive param := PSession | PReply | PProto (t : nat) | PValue (t : ty).

Definition value_type (p : param) : option ty := match p with PValue t => Some t | _ => None end.

(** [RpcReply]: the meta of the request turned round ([Network.reply_meta]) and the session:
    [None] is a null pointer, else is it connected and not closed? *)
Record RpcReply := mkReply { meta_ : Meta; session_ : option bool }.

Definition make_reply (meta : Meta) (session : option bool) : RpcReply := mkReply (reply_meta meta) session.

Definition Valid (r : RpcReply) : bool := match session_ r with Some connected => connected | None => false end.

Section Handlers.
Context {M : Type} (parse : nat -> list Z -> option M).
Context (inflate : Z -> list Z -> list Z).
Context `{C : Blocks.CodedStream}.
Context (max_reserve : Z).
Context `{A : Allocator}.
Context (compressed : Z -> list Z -> list Z).

Inductive arg := ASession | AReply (r : RpcReply) | AMessage (msg : M) | AValue (v : value).

(** ** Reading the payload *)

(** The bytes a parser takes from the buffer: until [Next] says that it is the end. *)
Fixpoint drain (fuel : nat) (rb : ReadBuffer.state) (h : heap) : option (list Z) :=
  match fuel with
  | O => None
  | S n =>
      match ReadBuffer.Next rb with
      | (None, _) => Some []
      | (Some v, rb') => b ← ReadBuffer.load_view v h; r ← drain n rb' h; Some (b ++ r)
      end
  end.

Definition unread (rb : ReadBuffer.state) : nat := Z.to_nat (ReadBuffer.total_bytes rb - ReadBuffer.read_bytes rb).

(** [get_compressed_input_stream]: gzip, zlib and LZ4; a null pointer for other types. *)
Definition get_compressed_input_stream (ty : Z) (bytes : list Z) : option (list Z) :=
  if (ty =? 1) || (ty =? 2) || (ty =? 3) then Some (inflate ty bytes) else None.

(** [GetMsgData]: the payload as a string.  [None]: the buffer is a null pointer, [substr]
    throws, the stream is a null pointer, memory behind the string is read, or the size that
    [ReadVarint32] did not read is used. *)
Definition GetMsgData (meta : Meta) (buffer : option ReadBuffer.state) (meta_size data_size : Z) (h : heap) :
    option (list Z) :=
  rb ← buffer;
  s ← ReadBuffer.ToString rb h;
  if compress_type meta =? 0 then
    if u64 meta_size <=? Z.of_nat (length s) then
      Some (take (Z.to_nat (u64 data_size)) (drop (Z.to_nat (u64 meta_size)) s))
    else None
  else
    let size := i32 data_size in
    if (0 <=? meta_size) && (0 <=? size) && (meta_size + size <=? Z.of_nat (length s)) then
      stream ← get_compressed_input_stream (compress_type meta)
             (take (Z.to_nat size) (drop (Z.to_nat meta_size) s));
      '(n, l) ← Blocks.ReadVarint32 stream;
      if n <=? Z.of_nat (length l) then Some (take (Z.to_nat n) l) else None
    else None.

(** [ParsePartialFromZeroCopyStream] on the buffer, and on the decompressing stream on it. *)
Definition ParsePartial (t : nat) (buffer : ReadBuffer.state) (h : heap) : option (option M) :=
  bytes ← drain (S (unread buffer)) buffer h; Some (parse t bytes).

Definition ParsePartial_compressed (t : nat) (ty : Z) (buffer : ReadBuffer.state) (h : heap) : option (option M) :=
  bytes ← drain (S (unread buffer)) buffer h;
  stream ← get_compressed_input_stream ty bytes;
  Some (parse t stream).

Definition parse_message (t : nat) (meta : Meta) (buffer : ReadBuffer.state) (h : heap) : option (option M) :=
  if compress_type meta =? 0 then ParsePartial t buffer h
  else ParsePartial_compressed t (compress_type meta) buffer h.

(** [fn] is called with these arguments when the message was parsed. *)
Definition when_parsed (r : option (option M)) (call : M -> list arg) : option (option (list arg)) :=
  x ← r; Some (option_map call x).

(** ** Handlers of messages *)

(** [MakeNetHandler]: for other signatures the body is empty, so that nothing is called.  [None]
    for two protobuf messages: the branch calls [fn(meta, msg0)], which does not compile when
    the first parameter of [fn] is a message. *)
Definition MakeNetHandler (ps : list param) (meta : Meta) (buffer : ReadBuffer.state) (h : heap) :
    option (option (list arg)) :=
  match ps with
  | [] => Some (Some [])
  | [PSession] => Some (Some [ASession])
  | [PProto t] => when_parsed (parse_message t meta buffer h) (fun m => [AMessage m])
  | [PSession; PProto t] => when_parsed (parse_message t meta buffer h) (fun m => [ASession; AMessage m])
  | [PProto _; PProto _] => None
  | _ => Some None
  end.

(** [NetFunctionaTraits<sol::function>::make]: the global [create_msg] of the script, and the
    message type it makes for a name ([None]: a null pointer). *)
Definition net_script_handler (proto : list Z) (create_msg : option (list Z -> option nat)) (meta : Meta)
    (buffer : ReadBuffer.state) (h : heap) : option (option (list arg)) :=
  match proto with
  | [] => Some (Some [ASession])
  | _ =>
      match create_msg with
      | None => Some None
      | Some create =>
          match create proto with
          | None => Some None
          | Some t => when_parsed (parse_message t meta buffer h) (fun m => [ASession; AMessage m])
          end
      end
  end.

(** ** Handlers of calls *)

(** [msgpack_unpack_tuple]: the values; the error code of the unpacker is dropped. *)
Definition msgpack_unpack_tuple (ts : list ty) (data : list Z) : option (list value) :=
  fst <$> unpack max_reserve ts data.

(** The types of the parameters a tuple is unpacked to; other parameters do not compile. *)
Definition value_types (ps : list param) : option (list ty) := mapM value_type ps.

Definition unpack_args (ps : list param) (meta : Meta) (buffer : ReadBuffer.state) (meta_size data_size : Z)
    (h : heap) : option (list arg) :=
  ts ← value_types ps;
  s ← GetMsgData meta (Some buffer) meta_size data_size h;
  vs ← msgpack_unpack_tuple ts s;
  Some (List.map AValue vs).

Definition MakeRpcHandler (ps : list param) (session : option bool) (meta : Meta) (buffer : ReadBuffer.state)
    (meta_size data_size : Z) (h : heap) : option (option (list arg)) :=
  let reply := AReply (make_reply meta session) in
  match ps with
  | [] => Some (Some [])
  | [PReply] => Some (Some [reply])
  | [PReply; PProto t] => when_parsed (ParsePartial t buffer h) (fun m => [reply; AMessage m])
  | PReply :: tail => args ← unpack_args tail meta buffer meta_size data_size h; Some (Some (reply :: args))
  | [PProto t] => when_parsed (ParsePartial t buffer h) (fun m => [AMessage m])
  | _ => args ← unpack_args ps meta buffer meta_size data_size h; Some (Some args)
  end.

(** [unpack(lua_view, data, size)]: as many values from the top of the stack as the loop made
    rounds, the first one pushed first. *)
Section Scripts.
Context (rawset : list (lua * lua) -> lua -> lua -> option (list (lua * lua))).

Definition variadic_args (st : stack) (data : list Z) : option (list lua) :=
  match unpack_lua rawset (S (length data)) st data with
  | MsgLua.Done c count => Some (reverse (take count c.1))
  | _ => None
  end.

(** [RpcFunctionaTraits<sol::function>::make]: [st] is the stack of the state of the script. *)
Definition rpc_script_handler (st : stack) (session : option bool) (meta : Meta) (buffer : ReadBuffer.state)
    (meta_size data_size : Z) (h : heap) : option (RpcReply * list lua) :=
  s ← GetMsgData meta (Some buffer) meta_size data_size h;
  let reply := make_reply meta session in
  if 0 <? data_size then args ← variadic_args st s; Some (reply, args)
  else Some (reply, []).

(** ** The callback of a call *)

(** [SetCallBack] of a script function: the arguments it is called with. *)
Definition script_callback (st : stack) (err : RpcCall.RpcErrorCode) (session : option bool)
    (buffer : option ReadBuffer.state) (meta : Meta) (meta_size data_size : Z) (h : heap) :
    option (RpcReply * RpcCall.RpcErrorCode * list lua) :=
  s ← GetMsgData meta buffer meta_size data_size h;
  let reply := make_reply meta session in
  if bool_decide (err = RpcCall.CodeNone) && (0 <? data_size) then
    args ← variadic_args st s; Some (reply, err, args)
  else Some (reply, err, []).
End Scripts.

(** [SetCallBack] of a function of C++ with these value types. *)
Definition typed_callback (ts : list ty) (err : RpcCall.RpcErrorCode) (buffer : option ReadBuffer.state)
    (meta : Meta) (meta_size data_size : Z) (h : heap) : option (RpcCall.RpcErrorCode * list value) :=
  match ts with
  | [] => Some (err, [])
  | _ =>
      if bool_decide (err = RpcCall.CodeNone) then
        s ← GetMsgData meta buffer meta_size data_size h;
        vs ← msgpack_unpack_tuple ts s;
        Some (err, vs)
      else Some (err, default_value <$> ts)
  end.

(** ** Sending *)

(** The buffer that [Call] packs the arguments into. *)
Definition pack_buffer (data : list Z) (h : heap) : option (ReadBuffer.state * heap) :=
  '(_, w, h1) ← WriteBuffer.Append data (i32 (Z.of_nat (length data))) WriteBuffer.init h;
  '(_, rb, h2) ← WriteBuffer.SwapOut w ReadBuffer.init h1;
  Some (rb, h2).

(** [NetworkManager::Call] and [RpcCall::Call] up to the frame, after [CallImpl] has set the
    sequence number of the meta. *)
Definition call_frame (meta : Meta) (args : list (ty * value)) (h : heap) : option (ReadBuffer.state * heap) :=
  match args with
  | [] => Send_meta (Some meta) h
  | _ => '(buffer, h1) ← pack_buffer (pack args) h; Send_buffer compressed meta buffer h1
  end.

(** [RpcReply::Send] and [Invoke]; nothing is sent without a valid session. *)
Definition reply_Send (r : RpcReply) (data : list Z) (h : heap) : option (option ReadBuffer.state * heap) :=
  if Valid r then '(rb, h') ← Send_data compressed (meta_ r) data h; Some (Some rb, h') else Some (None, h).

Definition Invoke (r : RpcReply) (args : list (ty * value)) (h : heap) : option (option ReadBuffer.state * heap) :=
  if Valid r then reply_Send r (pack args) h else Some (None, h).

Definition Invoke_script (r : RpcReply) (args : list lua) (h : heap) : option (option ReadBuffer.state * heap) :=
  data ← pack_lua args; reply_Send r data h.

(** ** A message as it arrives

    [OnReceiveCall] reads the meta and hands the buffer on. *)
Definition receive {R} (buffer : ReadBuffer.state) (meta_size : Z) (h : heap)
    (handler : Meta -> ReadBuffer.state -> option R) : option R :=
  '(meta, rb) ← ReadMeta buffer default_meta meta_size h; handler meta rb.

(** ** Proofs *)

(** A message in a buffer: unread, and its meta in the first block. *)
Definition arrived (bytes : list Z) (rb : ReadBuffer.state) (h : heap) : Prop :=
  exists c cs, ReadBuffer.good rb h (c :: cs) /\ ReadBuffer.cur_it rb = 0%nat /\ ReadBuffer.cur_pos rb = 0 /\
    c ++ concat cs = bytes /\ Z.of_nat meta_bytes <= Z.of_nat (length c) < 2 ^ 31.

Lemma good_ToString rb h chunks : ReadBuffer.good rb h chunks -> ReadBuffer.ToString rb h = Some (concat chunks).
Proof.
  intros [HF _]. unfold ReadBuffer.ToString.
  induction HF as [|x d l cs [Hl _] HF IH]; simpl; [done|]. by rewrite Hl, IH.
Qed.

Lemma drain_spec fuel rb h chunks : ReadBuffer.good rb h chunks -> (unread rb < fuel)%nat ->
  drain fuel rb h = Some (drop (Z.to_nat (ReadBuffer.read_bytes rb)) (concat chunks)).
Proof.
  revert rb. induction fuel as [|fuel IH]; intros rb Hg Hf; [lia|]. cbn [drain].
  pose proof (ReadBuffer.Next_spec rb h chunks Hg) as HN. cbv zeta in HN.
  pose proof (ReadBuffer.good_range rb h chunks Hg) as Hr. pose proof Hg as (_ & Htot & _).
  destruct (ReadBuffer.Next rb) as [[v|] rb'].
  - destruct HN as (Hg' & Hv & _ & Hrd & ->). cbn [mbind option_bind].
    pose proof (ReadBuffer.good_range rb' h chunks Hg') as Hr'. pose proof Hg' as (_ & Htot' & _).
    rewrite (IH rb' Hg') by (unfold unread in *; lia). cbn [mbind option_bind]. f_equal.
    rewrite Hrd, Z2Nat.inj_add, <- drop_drop by lia. by rewrite take_drop.
  - destruct HN as (_ & _ & _ & Hend). f_equal. symmetry. apply drop_ge. lia.
Qed.

(** The meta is read, and what is behind it is what is left. *)
Lemma arrived_meta m bytes rb h : good_meta m -> arrived (encode_meta m ++ bytes) rb h ->
  exists rb', ReadMeta rb default_meta (Z.of_nat meta_bytes) h = Some (m, rb') /\
    ReadBuffer.ToString rb' h = Some (encode_meta m ++ bytes) /\
    drain (S (unread rb')) rb' h = Some bytes.
Proof.
  intros Hm (c & cs & Hg & Hit & Hpos & Hcc & Hc).
  destruct (ReadMeta_spec rb h c cs default_meta (Z.of_nat meta_bytes)) as (rb' & -> & Hg' & Hr); auto; [lia|].
  exists rb'. split; [|split].
  - assert (take meta_bytes c = encode_meta m) as E.
    { rewrite <- (length_encode_meta m) in *. rewrite <- (take_app_le c (concat cs)) by lia.
      rewrite Hcc. apply take_app_length. }
    rewrite Nat2Z.id, E. do 2 f_equal. rewrite <- (app_nil_r (encode_meta default_meta)).
    rewrite overwrite_start by (by rewrite !length_encode_meta).
    rewrite app_nil_r. by apply decode_encode_meta.
  - rewrite (good_ToString _ _ _ Hg'). cbn [concat]. by rewrite Hcc.
  - rewrite (drain_spec _ _ _ _ Hg') by lia. cbn [concat].
    by rewrite Hcc, Hr, Nat2Z.id, <- (length_encode_meta m), drop_app_length.
Qed.

(** The payload, when it is not compressed. *)
Lemma GetMsgData_plain m bytes rb h : compress_type m = 0 -> Z.of_nat (length bytes) < 2 ^ 31 ->
  ReadBuffer.ToString rb h = Some (encode_meta m ++ bytes) ->
  GetMsgData m (Some rb) (Z.of_nat meta_bytes) (Z.of_nat (length bytes)) h = Some bytes.
Proof.
  intros Hc Hl Hs. unfold GetMsgData. cbn [mbind option_bind]. rewrite Hs, Hc. cbn [mbind option_bind Z.eqb].
  rewrite !wrapu_small by (unfold in_u, meta_bytes; lia).
  rewrite (proj2 (Z.leb_le _ _)) by (rewrite length_app, length_encode_meta; lia).
  rewrite !Nat2Z.id, <- (length_encode_meta m), drop_app_length. by rewrite take_ge.
Qed.

Lemma inv_good_heap h0 h w chunks : WriteBuffer.inv h0 h w chunks -> good_heap h.
Proof.
  intros []. intros p b Hb. destruct (decide (p ∈ WriteBuffer.ids (WriteBuffer.buf_list w))) as [Hp|Hp].
  - pose proof (inv_fresh p Hp). split; [lia|].
    unfold WriteBuffer.ids in Hp. apply list_elem_of_fmap in Hp as (x & -> & Hx).
    apply list_elem_of_lookup in Hx as (i & Hx).
    destruct (Forall2_lookup_l _ _ _ _ _ inv_owned Hx) as (c & _ & b' & Hb' & Hg & _). congruence.
  - rewrite inv_frame in Hb by done. destruct inv_start as [Hg Hle]. destruct (Hg p b Hb) as [? ?]. split; [lia|done].
Qed.

Lemma SwapOut_good_heap h0 h w chunks w' rb h' : WriteBuffer.inv h0 h w chunks ->
  WriteBuffer.SwapOut w ReadBuffer.init h = Some (w', rb, h') -> good_heap h'.
Proof.
  intros Hi. pose proof (inv_good_heap _ _ _ _ Hi) as Hg. destruct Hi. unfold WriteBuffer.SwapOut.
  destruct (WriteBuffer.swap_loop_spec h (WriteBuffer.buf_list w) chunks ReadBuffer.init)
    as (rb1 & h1 & -> & Hn & _ & _ & _ & _ & _ & _ & _ & Hfr); [done|done|].
  cbn [mbind option_bind]. intros [= _ _ <-] p b Hb. rewrite Hfr in Hb.
  destruct (decide _); [done|]. rewrite Hn. by apply Hg.
Qed.

Context (all_ok : forall k, alloc_ok k = true).

Lemma pack_buffer_spec data h : good_heap h -> Z.of_nat (length data) < 2 ^ 31 ->
  exists rb h', pack_buffer data h = Some (rb, h') /\ ReadBuffer.ToString rb h' = Some data /\ good_heap h'.
Proof.
  intros Hg Hl. pose proof (append_data_appends all_ok data Hl h h WriteBuffer.init []) as H.
  destruct H as (w & h1 & chunks & Ha & Hi & Hc); [by apply WriteBuffer.inv_init|by left|unfold in_u; simpl; lia|].
  unfold append_data in Ha. unfold pack_buffer. apply bind_Some in Ha as ([[ok w1] h2] & -> & [= -> ->]).
  cbn [mbind option_bind].
  destruct (BufferRoundTrip.SwapOut_spec h h1 w chunks Hi) as (w' & rb & h' & cs & h'' & E & _ & _ & _ & _ & Hs & _).
  rewrite E. cbn [mbind option_bind]. exists rb, h'. rewrite Hs, Hc. split; [done|]. split; [done|].
  by eapply SwapOut_good_heap.
Qed.

(** A frame from which a receiver takes one message: this meta and this payload. *)
Definition carries (m : Meta) (data : list Z) (rb : ReadBuffer.state) (h : heap) : Prop :=
  exists s, ReadBuffer.ToString rb h = Some s /\ feed (PHeader []) s = (PHeader [], [sent_message m data]).

Lemma carries_frame m data rb h : Z.of_nat (length data) < 2 ^ 31 ->
  ReadBuffer.ToString rb h = Some (frame (sent_message m data)) -> carries m data rb h.
Proof.
  intros Hl Hs. eexists. split; [exact Hs|]. apply feed_frame.
  unfold good_message, sent_message. cbn [m_meta_size m_data_size m_bytes].
  rewrite length_app, length_encode_meta. unfold in_s, meta_bytes. lia.
Qed.

Lemma Send_data_plain meta data h : good_heap h -> compress_type meta = 0 -> Z.of_nat (length data) < 2 ^ 31 ->
  exists rb h', Send_data compressed meta data h = Some (rb, h') /\ carries meta data rb h'.
Proof.
  intros Hg Hc Hl.
  destruct (build_spec all_ok _ _ meta h (append_data_appends all_ok data Hl) Hg) as (rb & h' & h'' & H1 & H2 & _); [lia|].
  exists rb, h'. split; [|by apply carries_frame]. unfold Send_data, payload. by rewrite Hc.
Qed.

Lemma Send_meta_spec meta h : good_heap h ->
  exists rb h', Send_meta (Some meta) h = Some (rb, h') /\ carries meta [] rb h'.
Proof.
  intros Hg. unfold Send_meta.
  destruct (start_spec all_ok meta h Hg) as (w1 & h1 & w2 & h2 & ch & hd & -> & E2 & Hi & Hl & Hf & Hc & Hhd & Hw).
  cbn [mbind option_bind]. rewrite E2. cbn [mbind option_bind]. rewrite Hw.
  replace (Z.of_nat header_size + Z.of_nat meta_bytes - 0 - Z.of_nat header_size) with (Z.of_nat meta_bytes) by lia.
  rewrite wraps_small by (unfold in_s, meta_bytes; lia).
  destruct (finish_spec h h2 w2 ch hd (encode_meta meta)
    (mkHeader MESSAGE_HEAD_MAGIC (Z.of_nat meta_bytes) 0 (Z.of_nat meta_bytes)))
    as (h4 & w4 & rb & h5 & h6 & -> & E5 & Hs & _); [done|done|done|].
  cbn [mbind option_bind]. rewrite E5. cbn [mbind option_bind]. exists rb, h5. split; [done|].
  apply carries_frame; [done|]. rewrite Hs. unfold frame, sent_message. cbn [m_meta_size m_data_size m_bytes].
  by rewrite app_nil_r, length_encode_meta.
Qed.

Lemma call_frame_spec meta args h : good_heap h -> compress_type meta = 0 -> Z.of_nat (length (pack args)) < 2 ^ 31 ->
  exists rb h', call_frame meta args h = Some (rb, h') /\ carries meta (pack args) rb h'.
Proof.
  intros Hg Hc Hl. unfold call_frame. destruct args as [|a args]; [by apply Send_meta_spec|].
  destruct (pack_buffer_spec _ h Hg Hl) as (b & h1 & -> & Hs & Hg1). cbn [mbind option_bind].
  unfold Send_buffer. rewrite Hs. by apply Send_data_plain.
Qed.

Lemma value_types_map ts : value_types (List.map PValue ts) = Some ts.
Proof. unfold value_types. induction ts as [|t ts IH]; cbn; [done|]. by rewrite IH. Qed.

(** Values whose types and sizes let them through ([MsgUnpack]). *)
Definition sendable_args (ts : list ty) (vs : list value) : Prop :=
  Forall2 (fun t v => ty_ok t /\ has_type t v /\ receivable t v) ts vs /\
  Z.of_nat (length (pack (zip ts vs))) < 2 ^ 31.

Context (Hreserve : 15 <= max_reserve).

Lemma unpack_tuple_spec ts vs : sendable_args ts vs ->
  msgpack_unpack_tuple ts (pack (zip ts vs)) = Some vs.
Proof.
  intros [H _]. unfold msgpack_unpack_tuple, unpack. rewrite <- (app_nil_r (pack _)).
  by rewrite (decodes_all max_reserve ts vs Hreserve H).
Qed.

Lemma unpack_args_spec ts vs m rb h : sendable_args ts vs -> compress_type m = 0 ->
  ReadBuffer.ToString rb h = Some (encode_meta m ++ pack (zip ts vs)) ->
  unpack_args (List.map PValue ts) m rb (Z.of_nat meta_bytes) (Z.of_nat (length (pack (zip ts vs)))) h =
    Some (List.map AValue vs).
Proof.
  intros H Hc Hs. unfold unpack_args. rewrite value_types_map. cbn [mbind option_bind].
  rewrite GetMsgData_plain by (done || apply H). cbn [mbind option_bind]. by rewrite unpack_tuple_spec.
Qed.

Lemma MakeRpcHandler_spec ts vs session m rb h : sendable_args ts vs -> compress_type m = 0 ->
  ReadBuffer.ToString rb h = Some (encode_meta m ++ pack (zip ts vs)) ->
  MakeRpcHandler (PReply :: List.map PValue ts) session m rb (Z.of_nat meta_bytes) (Z.of_nat (length (pack (zip ts vs)))) h =
    Some (Some (AReply (make_reply m session) :: List.map AValue vs)).
Proof.
  intros H Hc Hs. pose proof (unpack_args_spec ts vs m rb h H Hc Hs) as Hu.
  destruct ts as [|t ts]; [|cbn [List.map MakeRpcHandler] in *; by rewrite Hu].
  destruct H as [H _]. by apply Forall2_nil_inv_l in H as ->.
Qed.

Lemma typed_callback_spec ts vs m rb h : sendable_args ts vs -> compress_type m = 0 ->
  ReadBuffer.ToString rb h = Some (encode_meta m ++ pack (zip ts vs)) ->
  typed_callback ts RpcCall.CodeNone (Some rb) m (Z.of_nat meta_bytes) (Z.of_nat (length (pack (zip ts vs)))) h =
    Some (RpcCall.CodeNone, vs).
Proof.
  intros H Hc Hs. unfold typed_callback. destruct ts as [|t ts].
  - destruct H as [H _]. by apply Forall2_nil_inv_l in H as ->.
  - rewrite bool_decide_eq_true_2 by done. rewrite GetMsgData_plain by (done || apply H).
    cbn [mbind option_bind]. by rewrite unpack_tuple_spec.
Qed.

Lemma reply_meta_good m : good_meta m -> good_meta (reply_meta m).
Proof. intros (_ & H). split; [unfold in_u, reply_meta, Response; cbn; lia|exact H]. Qed.

Lemma Invoke_spec r ts vs h : good_heap h -> Valid r = true -> compress_type (meta_ r) = 0 -> sendable_args ts vs ->
  exists rb h', Invoke r (zip ts vs) h = Some (Some rb, h') /\ carries (meta_ r) (pack (zip ts vs)) rb h'.
Proof.
  intros Hg Hv Hc [_ Hl]. unfold Invoke, reply_Send. rewrite Hv.
  destruct (Send_data_plain (meta_ r) _ h Hg Hc Hl) as (rb & h' & -> & H). cbn [mbind option_bind]. eauto.
Qed.

(** C7: an uncompressed call between two processes gives the wrapped function the arguments and
    the caller the answer.  The arguments are within the limits of MessagePack
    ([sendable_args]: those of [unpack_pack], and fewer than 2^31 bytes together); [Call] sends
    one frame.  However the bytes of its message are spread over the blocks of the buffer that
    receives them, provided that the first block holds the whole meta ([arrived]), the
    function that [MakeRpcHandler] wrapped for a reply and these types is called with the reply
    and exactly the arguments that were passed; what it invokes the reply with, within the same
    limits and over a session that is connected, is one frame, of mode Response, with the
    sequence number of the call; and when that arrives in the same way the callback gets no
    error and exactly these values.  Which handler [NetworkManager] looks up, and the worker it
    runs on, are the subject of [Network.v]. *)
Theorem rpc_round_trip meta ts vs rs ws h :
  good_heap h -> good_meta meta -> compress_type meta = 0 -> sendable_args ts vs -> sendable_args rs ws ->
  let size := Z.of_nat (length (pack (zip ts vs))) in
  let size' := Z.of_nat (length (pack (zip rs ws))) in
  let msize := Z.of_nat meta_bytes in
  let reply := make_reply meta (Some true) in
  exists req h1, call_frame meta (zip ts vs) h = Some (req, h1) /\ carries meta (pack (zip ts vs)) req h1 /\
    forall rb h2, arrived (m_bytes (sent_message meta (pack (zip ts vs)))) rb h2 ->
      receive rb msize h2 (fun m b => MakeRpcHandler (PReply :: List.map PValue ts) (Some true) m b msize size h2) =
        Some (Some (AReply reply :: List.map AValue vs)) /\
      forall h3, good_heap h3 ->
        exists ans h4, Invoke reply (zip rs ws) h3 = Some (Some ans, h4) /\
          carries (meta_ reply) (pack (zip rs ws)) ans h4 /\
          mode (meta_ reply) = Response /\ sequence (meta_ reply) = sequence meta /\
          forall rb' h5, arrived (m_bytes (sent_message (meta_ reply) (pack (zip rs ws)))) rb' h5 ->
            receive rb' msize h5 (fun m b =>
              r ← typed_callback rs RpcCall.CodeNone (Some b) m msize size' h5; Some (m, r)) =
              Some (meta_ reply, (RpcCall.CodeNone, ws)).
Proof.
  intros Hg Hm Hc Hv Hw size size' msize reply.
  destruct (call_frame_spec meta (zip ts vs) h Hg Hc (proj2 Hv)) as (req & h1 & E1 & Hreq).
  exists req, h1. split; [done|]. split; [done|]. intros rb h2 Hrb.
  destruct (arrived_meta _ _ _ _ Hm Hrb) as (b & Eb & Hs & _). split.
  { unfold receive. fold msize in Eb. rewrite Eb. by apply MakeRpcHandler_spec. }
  intros h3 Hg3. destruct (Invoke_spec reply rs ws h3 Hg3 eq_refl Hc Hw) as (ans & h4 & E4 & Hans).
  exists ans, h4. do 4 (split; [done|]). intros rb' h5 Hrb'.
  destruct (arrived_meta _ _ _ _ (reply_meta_good _ Hm) Hrb') as (b' & Eb' & Hs' & _).
  unfold receive. fold msize in Eb'. change (meta_ reply) with (reply_meta meta) in *. rewrite Eb'. cbn [mbind option_bind].
  unfold msize, size'. by rewrite (typed_callback_spec rs ws (reply_meta meta) b' h5 Hw Hc Hs').
Qed.

(** ** Messages

    What the handler of a message is called with depends on what protobuf parses from the
    payload, decompressed when the meta says so; nothing is called when it parses nothing. *)
Theorem message_is_parsed m payload rb h t msize : good_meta m -> msize = Z.of_nat meta_bytes ->
  arrived (encode_meta m ++ payload) rb h ->
  receive rb msize h (fun m b => MakeNetHandler [PSession; PProto t] m b h) =
    (bytes ← (if compress_type m =? 0 then Some payload else get_compressed_input_stream (compress_type m) payload);
     Some (option_map (fun x => [ASession; AMessage x]) (parse t bytes))) /\
  (forall proto create, proto <> [] -> create proto = Some t ->
    receive rb msize h (fun m b => net_script_handler proto (Some create) m b h) =
    receive rb msize h (fun m b => MakeNetHandler [PSession; PProto t] m b h)).
Proof.
  intros Hm -> Ha. destruct (arrived_meta m payload rb h Hm Ha) as (b & Eb & _ & Hd).
  unfold receive. rewrite Eb. cbn [mbind option_bind]. split.
  - cbn [MakeNetHandler]. unfold when_parsed, parse_message, ParsePartial, ParsePartial_compressed. rewrite Hd.
    destruct (compress_type m =? 0); cbn [mbind option_bind]; [done|].
    by destruct (get_compressed_input_stream _ _).
  - intros proto create Hp Hc. destruct proto; [done|]. cbn [net_script_handler]. by rewrite Hc.
Qed.

(** The handlers of calls parse a protobuf message from the compressed bytes. *)
Theorem calls_do_not_decompress m payload rb h t session msize size : good_meta m -> msize = Z.of_nat meta_bytes ->
  arrived (encode_meta m ++ payload) rb h ->
  receive rb msize h (fun m b => MakeRpcHandler [PProto t] session m b msize size h) =
    Some (option_map (fun x => [AMessage x]) (parse t payload)).
Proof.
  intros Hm -> Ha. destruct (arrived_meta m payload rb h Hm Ha) as (b & Eb & _ & Hd).
  unfold receive. rewrite Eb. cbn [mbind option_bind MakeRpcHandler]. unfold when_parsed, ParsePartial. by rewrite Hd.
Qed.

(** ** Scripts *)

(** The values that one script passes are the values that the function of another is called
    with, whatever is on the stack of its state. *)
Theorem script_arguments_arrive rawset xs data st session m rb h
    (Hnew : forall l k v, key_value k -> k ∉ l.*1 -> v <> LNil -> rawset l k v = Some (l ++ [(k, v)])) :
  Forall sendable xs -> pack_lua xs = Some data -> Z.of_nat (length data) < 2 ^ 31 -> compress_type m = 0 ->
  ReadBuffer.ToString rb h = Some (encode_meta m ++ data) ->
  rpc_script_handler rawset st session m rb (Z.of_nat meta_bytes) (Z.of_nat (length data)) h =
    Some (make_reply m session, xs).
Proof.
  intros Hx Hp Hl Hc Hs. unfold rpc_script_handler. rewrite GetMsgData_plain by done. cbn [mbind option_bind].
  pose proof (pack_lua_length xs data Hx Hp) as Hlen. destruct (Z.ltb_spec 0 (Z.of_nat (length data))).
  - unfold variadic_args. rewrite (unpack_lua_packed rawset Hnew _ st xs data Hx Hp) by lia. cbn [mbind option_bind fst].
    do 2 f_equal. rewrite take_app_le by (rewrite length_reverse; lia).
    rewrite take_ge by (rewrite length_reverse; lia). apply reverse_involutive.
  - destruct xs; [done|cbn in Hlen; lia].
Qed.

(** A call that is cancelled, times out or is not valid has no buffer.  The callback of a
    function of C++ gets the code and default values; that of a script reads the payload
    first, through a null pointer. *)
Theorem failed_call_crashes_scripts rawset st ts err m h : err <> RpcCall.CodeNone ->
  typed_callback ts err None m 0 0 h = Some (err, default_value <$> ts) /\
  script_callback rawset st err None None m 0 0 h = None.
Proof.
  intros He. split; [|done]. unfold typed_callback. destruct ts; [done|].
  by rewrite bool_decide_eq_false_2.
Qed.

(** A handler with a signature that [MakeNetHandler] does not know is never called. *)
Theorem unknown_signature_is_silent t u m rb h :
  MakeNetHandler [PSession; PValue t] m rb h = Some None /\ MakeNetHandler [PValue t] m rb h = Some None /\
  MakeNetHandler [PSession; PProto u; PProto u] m rb h = Some None.
Proof. done. Qed.

End Handlers.

#[local] Existing Instance Blocks.coded_stream.

(** A call with an integer that is answered with a string; the message arrives in two blocks. *)
Lemma rpc_round_trip_witness :
  let meta := mkMeta 1 7 9 0 11 13 in
  let rb := slices 30 30 1 in
  let h := one_block (encode_meta meta ++ [5]) in
  (exists req h1, @call_frame BufferRoundTrip.test_allocator (fun _ l => l) meta [(TyInt I32, VInt 5)] (mkHeap ∅ 0) = Some (req, h1)) /\
  receive rb 30 h (fun m b => MakeRpcHandler (M := unit) (fun _ _ => None) (fun _ l => l) 1000 [PReply; PValue (TyInt I32)]
      (Some true) m b 30 1 h) =
    Some (Some [AReply (make_reply meta (Some true)); AValue (VInt 5)]).
Proof.
  cbv zeta. set (meta := mkMeta 1 7 9 0 11 13).
  assert (sendable_args [TyInt I32] [VInt 5]) as H1.
  { split; [|vm_compute; reflexivity]. repeat constructor; cbn; unfold in_s; lia. }
  assert (sendable_args [TyString] [VStr [97]]) as H2.
  { split; [|vm_compute; reflexivity]. repeat constructor; cbn; lia. }
  destruct (@rpc_round_trip unit (fun _ _ => None) (fun _ l => l) Blocks.coded_stream 1000 BufferRoundTrip.test_allocator
    (fun _ l => l) (fun _ => eq_refl) ltac:(lia) meta [TyInt I32] [VInt 5] [TyString] [VStr [97]] (mkHeap ∅ 0))
    as (req & h1 & E & _ & H); [apply map_Forall_empty|vm_compute; intuition discriminate|reflexivity|exact H1|exact H2|].
  split; [by exists req, h1|].
  refine (proj1 (H (slices 30 30 1) (one_block (encode_meta meta ++ [5])) _)).
  exists (encode_meta meta), [[5]]. split; [|split; [reflexivity|split; [reflexivity|split; [reflexivity|]]]].
  - unfold ReadBuffer.good. cbn. splits; [|reflexivity|lia|by left|lia|by left|reflexivity].
    constructor; [by split|]. constructor; [by split|constructor].
  - vm_compute. intuition discriminate.
Defined.

End Handlers.
