(* ===== verification/Timer.v ===== *)
(** * Timers ([src/timer/timer.cpp], [timer.h], [timer_manager.cpp], [timer_manager.h])

    Every worker has a timer manager that its loop updates.  A timer is owned by [all_timers_];
    the two priority queues hold pointers, ordered by the end of the timer and its id.  Times
    are nanoseconds, durations milliseconds; the overflow of the clock (292 years) is left
    out.  A callback takes time and may register and unregister timers while [Update] runs:
    it is a number with a script of operations and a cost. *)

From S2P Require Import Prelude.

Module TimerManager.

(** [SteadyTimer] and [SystemTimer]. *)
Inductive clock := Steady | System.

#[export] Instance clock_eq_dec : EqDecision clock.
Proof. solve_decision. Defined.

Record timer := mkTimer {
  active_ : bool;
  id_ : Z;
  loop_ : bool;
  duration_ : Z;
  call_func_ : nat;
  end_time_point_ : Z;
  kind : clock }.

(** A queue holds the end and the id of its timers, the next one first. *)
Definition queue := list (Z * Z).

Record manager := mkManager {
  steady_timers_ : queue;
  system_timers_ : queue;
  all_timers_ : gmap Z timer;
  generate_timer_id_ : Z;
  shutting_down_ : bool }.

Definition init : manager := mkManager [] [] ∅ 0 false.

(** [steady_clock::now()] and [system_clock::now()]. *)
Record times := mkTimes { steady_now : Z; system_now : Z }.

Definition now (c : clock) (t : times) : Z :=
  match c with Steady => steady_now t | System => system_now t end.

Definition after (c : clock) (t : times) (ms : Z) : Z := now c t + 1000000 * ms.

(** Strict for one clock only. *)
Definition expired (c : clock) (t : times) (e : Z) : bool :=
  match c with Steady => e <? now c t | System => e <=? now c t end.

Definition IsExpired (t : times) (x : timer) : bool := expired (kind x) t (end_time_point_ x).

Definition RemainingTime (t : times) (x : timer) : Z :=
  let remaining := Z.quot (end_time_point_ x - now (kind x) t) 1000000 in
  if 0 <? remaining then remaining else 0.

Definition DurationTime (x : timer) : Z := duration_ x.

Definition Cancel (x : timer) : timer :=
  mkTimer false (id_ x) (loop_ x) (duration_ x) (call_func_ x) (end_time_point_ x) (kind x).

Definition Reset (t : times) (x : timer) : timer :=
  mkTimer (active_ x) (id_ x) (loop_ x) (duration_ x) (call_func_ x) (after (kind x) t (duration_ x)) (kind x).

(** ** The queues *)

(** [SteadyCompare] and [SystemCompare], the arguments exchanged. *)
Definition before (a b : Z * Z) : bool :=
  (fst a <? fst b) || ((fst a =? fst b) && (snd a <? snd b)).

Fixpoint insert (a : Z * Z) (q : queue) : queue :=
  match q with
  | [] => [a]
  | b :: r => if before a b then a :: q else b :: insert a r
  end.

Definition get_queue (c : clock) (m : manager) : queue :=
  match c with Steady => steady_timers_ m | System => system_timers_ m end.

Definition set_queue (c : clock) (q : queue) (m : manager) : manager :=
  match c with
  | Steady => mkManager q (system_timers_ m) (all_timers_ m) (generate_timer_id_ m) (shutting_down_ m)
  | System => mkManager (steady_timers_ m) q (all_timers_ m) (generate_timer_id_ m) (shutting_down_ m)
  end.

Definition set_all (a : gmap Z timer) (m : manager) : manager :=
  mkManager (steady_timers_ m) (system_timers_ m) a (generate_timer_id_ m) (shutting_down_ m).

(** ** Operations *)

(** Both kinds of registration: the id, -1 while shutting down. *)
Definition Register (c : clock) (ms : Z) (f : nat) (loop : bool) (t : times) (m : manager) : Z * manager :=
  if shutting_down_ m then (-1, m)
  else
    let id := generate_timer_id_ m + 1 in
    let x := mkTimer true id loop ms f (after c t ms) c in
    let m := mkManager (steady_timers_ m) (system_timers_ m) (<[id := x]> (all_timers_ m)) id false in
    (id, set_queue c (insert (end_time_point_ x, id) (get_queue c m)) m).

Definition RegisterTimer : Z -> nat -> bool -> times -> manager -> Z * manager := Register Steady.

Definition RegisterSystemTimer : Z -> nat -> bool -> times -> manager -> Z * manager := Register System.

Definition UnRegisterTimer (id : Z) (m : manager) : manager :=
  match all_timers_ m !! id with
  | Some x => set_all (<[id := Cancel x]> (all_timers_ m)) m
  | None => m
  end.

Definition GetTimer (id : Z) (m : manager) : option timer := all_timers_ m !! id.

Definition EnterShutdownMode (t : times) (m : manager) : manager :=
  mkManager (steady_timers_ m) (system_timers_ m)
    ((fun x => if negb (IsExpired t x) && active_ x then Cancel x else x) <$> all_timers_ m)
    (generate_timer_id_ m) true.

(** ** Update *)

Inductive op := ORegister (c : clock) (ms : Z) (f : nat) (loop : bool) | OUnRegister (id : Z).

Section Update.

(** What a callback does to the timers, and how long it takes. *)
Context (script : nat -> list op) (cost : nat -> Z).

Definition do_op (t : times) (m : manager) (o : op) : manager :=
  match o with
  | ORegister c ms f loop => snd (Register c ms f loop t m)
  | OUnRegister id => UnRegisterTimer id m
  end.

(** [Timer::operator()]; the timer is active here. *)
Definition call (f : nat) (mt : manager * times) : manager * times :=
  let '(m, t) := mt in
  let t := mkTimes (steady_now t + cost f) (system_now t + cost f) in
  (foldl (do_op t) m (script f), t).

Inductive outcome :=
  | Returns (m : manager) (t : times) (fired : list Z)
  | Running (m : manager) (t : times) (fired : list Z)
  | Dangling.                      (* a queue points to a timer that was deleted *)

(** The loop of [Update] over one queue, with the ids of the timers called so far. *)
Fixpoint update_queue (c : clock) (fuel : nat) (m : manager) (t : times) (fired : list Z) : outcome :=
  match fuel with
  | O => Running m t fired
  | S fuel =>
      match get_queue c m with
      | [] => Returns m t fired
      | (_, id) :: q =>
          match all_timers_ m !! id with
          | None => Dangling
          | Some x =>
              if negb (active_ x) then
                update_queue c fuel (set_all (delete id (all_timers_ m)) (set_queue c q m)) t fired
              else if IsExpired t x then
                let '(m, t) := call (call_func_ x) (set_queue c q m, t) in
                match all_timers_ m !! id with
                | None => Dangling
                | Some x =>
                    if loop_ x then
                      let x := Reset t x in
                      update_queue c fuel
                        (set_queue c (insert (end_time_point_ x, id) (get_queue c m))
                          (set_all (<[id := x]> (all_timers_ m)) m)) t (fired ++ [id])
                    else update_queue c fuel (set_all (delete id (all_timers_ m)) m) t (fired ++ [id])
                end
              else Returns m t fired
          end
      end
  end.

Definition Update (fuel : nat) (m : manager) (t : times) : outcome :=
  match update_queue Steady fuel m t [] with
  | Returns m t fired => update_queue System fuel m t fired
  | o => o
  end.

End Update.

(** ** The order of a queue *)

Definition ahead (a b : Z * Z) : Prop := before a b = true.

Lemma ahead_iff a b : ahead a b <-> a.1 < b.1 \/ (a.1 = b.1 /\ a.2 < b.2).
Proof. unfold ahead, before. lia. Qed.

#[export] Instance ahead_trans : Transitive ahead.
Proof. intros a b c. rewrite !ahead_iff. lia. Qed.

Lemma ahead_irrefl a : ~ ahead a a.
Proof. rewrite ahead_iff. lia. Qed.

Lemma ahead_total a b : a <> b -> before a b = false -> ahead b a.
Proof.
  intros Hne H. rewrite ahead_iff. unfold before in H. destruct a as [x i], b as [y j]. cbn in *.
  destruct (decide (x = y)) as [->|]; [|lia]. destruct (decide (i = j)) as [->|]; [done|lia].
Qed.

Lemma elem_of_insert x a q : x ∈ insert a q <-> x = a \/ x ∈ q.
Proof.
  induction q as [|b q IH]; cbn; [by rewrite list_elem_of_singleton, elem_of_nil; tauto|].
  destruct (before a b); rewrite !elem_of_cons; [tauto|]. rewrite IH. tauto.
Qed.

Lemma insert_sorted a q : a ∉ q -> StronglySorted ahead q -> StronglySorted ahead (insert a q).
Proof.
  intros Hn H. induction H as [|b q Hq IH Hb]; cbn; [repeat constructor|].
  apply not_elem_of_cons in Hn as [Hne Hn]. destruct (before a b) eqn:E.
  - constructor; [by constructor|]. constructor; [done|].
    eapply Forall_impl; [exact Hb|]. intros c Hc. by transitivity b.
  - constructor; [by apply IH|]. apply Forall_forall. intros c [->|Hc]%elem_of_insert.
    + by apply ahead_total.
    + by eapply Forall_forall in Hb.
Qed.

(** ** The invariant

    [out] is the timer whose callback runs: it is owned but in no queue. *)
Record wf (out : option Z) (m : manager) : Prop := {
  wf_sorted c : StronglySorted ahead (get_queue c m);
  wf_queue c e i : (e, i) ∈ get_queue c m <->
    out <> Some i /\ exists x, all_timers_ m !! i = Some x /\ kind x = c /\ end_time_point_ x = e;
  wf_ids i x : all_timers_ m !! i = Some x -> id_ x = i /\ 0 < i <= generate_timer_id_ m;
  wf_out i : out = Some i -> is_Some (all_timers_ m !! i) }.

Lemma get_set_queue c c' q m :
  get_queue c (set_queue c' q m) = if decide (c = c') then q else get_queue c m.
Proof. by destruct c, c'. Qed.

Lemma all_set_queue c q m : all_timers_ (set_queue c q m) = all_timers_ m.
Proof. by destruct c. Qed.

Lemma gen_set_queue c q m : generate_timer_id_ (set_queue c q m) = generate_timer_id_ m.
Proof. by destruct c. Qed.

Lemma shut_set_queue c q m : shutting_down_ (set_queue c q m) = shutting_down_ m.
Proof. by destruct c. Qed.

Lemma get_queue_all c m m' :
  steady_timers_ m' = steady_timers_ m -> system_timers_ m' = system_timers_ m ->
  get_queue c m' = get_queue c m.
Proof. by destruct c. Qed.

Lemma wf_init : wf None init.
Proof.
  split; try done.
  - intros c. destruct c; constructor.
  - intros c e i. split; [by destruct c; intros ?%elem_of_nil|]. by intros [_ (x & H & _)].
Qed.

(** Changing what the queues do not depend on. *)
Lemma wf_update out m id x x' :
  wf out m -> all_timers_ m !! id = Some x -> kind x' = kind x -> end_time_point_ x' = end_time_point_ x ->
  id_ x' = id_ x -> wf out (set_all (<[id := x']> (all_timers_ m)) m).
Proof.
  intros [Hs Hq Hi Ho] Hx Hk He Hid. split.
  - intros c. by destruct c; [apply (Hs Steady)|apply (Hs System)].
  - intros c e i. replace (get_queue c (set_all _ m)) with (get_queue c m) by by destruct c.
    rewrite Hq. cbn. destruct (decide (i = id)) as [->|Hne].
    + rewrite lookup_insert_eq. naive_solver.
    + by rewrite lookup_insert_ne by done.
  - intros i y. cbn. destruct (decide (i = id)) as [->|Hne].
    + rewrite lookup_insert_eq. intros [= <-]. rewrite Hid. by apply Hi.
    + rewrite lookup_insert_ne by done. apply Hi.
  - intros i Hout. cbn. destruct (decide (i = id)) as [->|Hne]; [by rewrite lookup_insert_eq|].
    rewrite lookup_insert_ne by done. by apply Ho.
Qed.

Lemma wf_UnRegister out id m : wf out m -> wf out (UnRegisterTimer id m).
Proof.
  intros H. unfold UnRegisterTimer. destruct (all_timers_ m !! id) as [x|] eqn:E; [|done].
  by eapply wf_update.
Qed.

(** A timer enters its queue. *)
Lemma wf_push out out' m id x :
  wf out m -> (out = Some id /\ out' = None) \/ (out' = out /\ all_timers_ m !! id = None) ->
  id_ x = id -> 0 < id ->
  wf out' (set_queue (kind x) (insert (end_time_point_ x, id) (get_queue (kind x) m))
    (mkManager (steady_timers_ m) (system_timers_ m) (<[id := x]> (all_timers_ m))
       (Z.max id (generate_timer_id_ m)) (shutting_down_ m))).
Proof.
  intros [Hs Hq Hi Ho] Hout Hid Hpos.
  assert (forall c e, (e, id) ∉ get_queue c m) as Hnew.
  { intros c e [Hne (y & Hy & _)]%Hq. destruct Hout as [[-> _]|[_ Hn]]; [done|congruence]. }
  split.
  - intros c. rewrite get_set_queue. destruct (decide (c = kind x)) as [->|].
    + apply insert_sorted; [apply Hnew|apply Hs].
    + by destruct c; [apply (Hs Steady)|apply (Hs System)].
  - intros c e i. rewrite get_set_queue, all_set_queue. cbn [all_timers_].
    assert (forall c', get_queue c' (mkManager (steady_timers_ m) (system_timers_ m) (<[id := x]> (all_timers_ m))
       (Z.max id (generate_timer_id_ m)) (shutting_down_ m)) = get_queue c' m) as Hg by by intros [].
    rewrite ?Hg.
    destruct (decide (i = id)) as [->|Hne].
    + rewrite lookup_insert_eq. destruct (decide (c = kind x)) as [->|Hc].
      * rewrite elem_of_insert. split.
        -- intros [[= ->]|?]; [|by edestruct Hnew]. split; [|eauto].
           destruct Hout as [[_ ->]|[-> Hn]]; [done|]. intros ->. destruct (Ho id eq_refl). congruence.
        -- intros [_ (y & [= <-] & _ & <-)]. auto.
      * split; [by intros ?%Hnew|]. naive_solver.
    + rewrite lookup_insert_ne by done.
      assert (out <> Some i <-> out' <> Some i) as Ho'.
      { destruct Hout as [[-> ->]|[-> _]]; [|done]. split; congruence. }
      rewrite <- Ho'. destruct (decide (c = kind x)) as [->|Hc]; [|apply Hq].
      rewrite elem_of_insert, Hq. split; [intros [[=]|]; naive_solver|naive_solver].
  - intros i y. rewrite all_set_queue, gen_set_queue. cbn.
    destruct (decide (i = id)) as [->|Hne].
    + rewrite lookup_insert_eq. intros [= <-]. split; [done|lia].
    + rewrite lookup_insert_ne by done. intros H%Hi. lia.
  - intros i E. rewrite all_set_queue. cbn. destruct (decide (i = id)) as [->|Hne]; [by rewrite lookup_insert_eq|].
    rewrite lookup_insert_ne by done. destruct Hout as [[_ ->]|[-> _]]; [done|by apply Ho].
Qed.

Lemma wf_fresh out m : wf out m -> all_timers_ m !! (generate_timer_id_ m + 1) = None.
Proof.
  intros H. destruct (all_timers_ m !! _) as [x|] eqn:E; [|done].
  apply (wf_ids _ _ H) in E. lia.
Qed.

(** The ids are counted from 1. *)
Lemma wf_Register out c ms f l t m id m' :
  0 <= generate_timer_id_ m -> wf out m -> Register c ms f l t m = (id, m') ->
  wf out m' /\ generate_timer_id_ m <= generate_timer_id_ m'.
Proof.
  intros Hg H. unfold Register. destruct (shutting_down_ m) eqn:Es; intros [= <- <-]; [split; [done|lia]|].
  set (id := generate_timer_id_ m + 1).
  pose proof (wf_push out out m id (mkTimer true id l ms f (after c t ms) c) H) as Hp.
  rewrite Es, Z.max_l in Hp by lia. cbn [kind end_time_point_] in Hp. split.
  - destruct c; apply Hp; cbn; try done; try lia; right; split; auto; apply (wf_fresh _ _ H).
  - rewrite gen_set_queue. cbn. lia.
Qed.

Lemma gen_UnRegister id m : generate_timer_id_ (UnRegisterTimer id m) = generate_timer_id_ m.
Proof. unfold UnRegisterTimer. by destruct (all_timers_ m !! id). Qed.

Lemma wf_do_op out t m o :
  0 <= generate_timer_id_ m -> wf out m ->
  wf out (do_op t m o) /\ generate_timer_id_ m <= generate_timer_id_ (do_op t m o).
Proof.
  intros Hg H. destruct o as [c ms f l|id]; cbn.
  - destruct (Register c ms f l t m) as [id m'] eqn:E. by eapply wf_Register.
  - rewrite gen_UnRegister. split; [by apply wf_UnRegister|lia].
Qed.

Lemma wf_call script cost out f m t m' t' :
  0 <= generate_timer_id_ m -> wf out m -> call script cost f (m, t) = (m', t') ->
  wf out m' /\ 0 <= generate_timer_id_ m'.
Proof.
  unfold call. intros Hg H [= <- _]. generalize (mkTimes (steady_now t + cost f) (system_now t + cost f)).
  intros t1. revert m Hg H. induction (script f) as [|o l IH]; intros m Hg H; cbn; [done|].
  destruct (wf_do_op out t1 m o Hg H) as [H1 Hg1]. apply IH; [lia|done].
Qed.

(** The first timer leaves its queue. *)
Lemma wf_pop c m e id q :
  wf None m -> get_queue c m = (e, id) :: q ->
  exists x, all_timers_ m !! id = Some x /\ kind x = c /\ end_time_point_ x = e /\ wf (Some id) (set_queue c q m).
Proof.
  intros H E. destruct H as [Hs Hq Hi Ho].
  assert ((e, id) ∈ get_queue c m) as Hin by (rewrite E; apply list_elem_of_here).
  pose proof Hin as (_ & x & Hx & Hk & He)%Hq. exists x. split; [done|]. split; [done|]. split; [done|].
  pose proof (Hs c) as Hsc. rewrite E in Hsc. apply StronglySorted_inv in Hsc as [Hsq Hahead].
  split.
  - intros c'. rewrite get_set_queue. by destruct (decide (c' = c)).
  - intros c' e' i. rewrite get_set_queue, all_set_queue. destruct (decide (c' = c)) as [->|Hc].
    + transitivity ((e', i) ∈ get_queue c m /\ i <> id).
      * rewrite E, elem_of_cons. split; [|naive_solver]. intros Hq'. split; [auto|]. intros ->.
        assert ((e', id) ∈ get_queue c m) as (_ & y & Hy & _ & He')%Hq by (rewrite E, elem_of_cons; auto).
        assert (e' = e) as -> by congruence.
        eapply Forall_forall in Hahead; [|exact Hq']. by apply ahead_irrefl in Hahead.
      * rewrite Hq. naive_solver.
    + rewrite Hq. split; [|naive_solver]. intros (_ & y & Hy & Hky & Hey). split; [|by eauto].
      intros [= ->]. congruence.
  - intros i y. rewrite all_set_queue, gen_set_queue. apply Hi.
  - intros i [= <-]. rewrite all_set_queue. by eexists.
Qed.

Lemma wf_delete id m : wf (Some id) m -> wf None (set_all (delete id (all_timers_ m)) m).
Proof.
  intros [Hs Hq Hi Ho]. split.
  - intros c. by destruct c; [apply (Hs Steady)|apply (Hs System)].
  - intros c e i. replace (get_queue c (set_all _ m)) with (get_queue c m) by by destruct c.
    rewrite Hq. cbn. destruct (decide (i = id)) as [->|Hne].
    + rewrite lookup_delete_eq. naive_solver.
    + rewrite lookup_delete_ne by done. naive_solver.
  - intros i y. cbn. intros [_ H]%lookup_delete_Some. by apply Hi.
  - done.
Qed.

Lemma wf_repush t m id x :
  wf (Some id) m -> all_timers_ m !! id = Some x ->
  wf None (set_queue (kind x) (insert (end_time_point_ (Reset t x), id) (get_queue (kind x) m))
    (set_all (<[id := Reset t x]> (all_timers_ m)) m)).
Proof.
  intros H Hx. destruct (wf_ids _ _ H _ _ Hx) as [Hid Hr].
  pose proof (wf_push (Some id) None m id (Reset t x) H) as Hp.
  rewrite Z.max_r in Hp by lia. apply Hp; auto. lia.
Qed.

Lemma wf_EnterShutdownMode t m : wf None m -> wf None (EnterShutdownMode t m).
Proof.
  intros [Hs Hq Hi Ho].
  assert (forall x, kind (if negb (IsExpired t x) && active_ x then Cancel x else x) = kind x /\
    end_time_point_ (if negb (IsExpired t x) && active_ x then Cancel x else x) = end_time_point_ x /\
    id_ (if negb (IsExpired t x) && active_ x then Cancel x else x) = id_ x) as Hx.
  { intros x. by destruct (_ && _). }
  split.
  - intros c. by destruct c; [apply (Hs Steady)|apply (Hs System)].
  - intros c e i. replace (get_queue c (EnterShutdownMode t m)) with (get_queue c m) by by destruct c.
    rewrite Hq. cbn. rewrite lookup_fmap. destruct (all_timers_ m !! i) as [x|]; cbn; [|naive_solver].
    destruct (Hx x) as (Hk & He & _). split; intros [Hne (y & [= <-] & H1 & H2)]; (split; [done|]).
    + eexists. split; [done|]. rewrite Hk, He. done.
    + exists x. rewrite Hk in H1. rewrite He in H2. done.
  - intros i y. cbn. rewrite lookup_fmap. intros (x & H & ->)%fmap_Some.
    destruct (Hx x) as (_ & _ & ->). by apply Hi.
  - done.
Qed.

Lemma kind_op t m o id x :
  0 <= generate_timer_id_ m -> wf (Some id) m -> all_timers_ m !! id = Some x ->
  exists x', all_timers_ (do_op t m o) !! id = Some x' /\ kind x' = kind x.
Proof.
  intros Hg H Hx. destruct o as [c ms f l|i]; cbn.
  - unfold Register. destruct (shutting_down_ m); cbn; [by exists x|]. rewrite all_set_queue. cbn.
    exists x. split; [|done]. rewrite lookup_insert_ne; [done|]. intros E.
    pose proof (wf_fresh _ _ H) as Hn. rewrite E in Hn. congruence.
  - unfold UnRegisterTimer. destruct (all_timers_ m !! i) as [y|] eqn:E; [|by exists x]. cbn.
    destruct (decide (i = id)) as [->|Hne].
    + rewrite lookup_insert_eq. eexists. split; [done|]. cbn. congruence.
    + rewrite lookup_insert_ne by done. by exists x.
Qed.

Lemma kind_call script cost f m t m' t' id x :
  call script cost f (m, t) = (m', t') -> 0 <= generate_timer_id_ m -> wf (Some id) m ->
  all_timers_ m !! id = Some x ->
  exists x', all_timers_ m' !! id = Some x' /\ kind x' = kind x.
Proof.
  unfold call. intros [= <- _]. generalize (mkTimes (steady_now t + cost f) (system_now t + cost f)).
  intros t1. revert m x. induction (script f) as [|o l IH]; intros m x Hg H Hx; cbn; [by exists x|].
  destruct (wf_do_op _ t1 m o Hg H) as [H1 Hg1].
  destruct (kind_op t1 m o id x Hg H Hx) as (x1 & Hx1 & Hk1).
  destruct (IH (do_op t1 m o) x1) as (x2 & Hx2 & Hk2); [lia|done|done|]. exists x2. split; [done|congruence].
Qed.

Definition sound (o : outcome) : Prop :=
  match o with
  | Returns m _ _ | Running m _ _ => 0 <= generate_timer_id_ m /\ wf None m
  | Dangling => False
  end.

Lemma set_all_set_queue c q a m : set_all a (set_queue c q m) = set_queue c q (set_all a m).
Proof. by destruct c. Qed.

Lemma update_queue_sound script cost c fuel m t fired :
  0 <= generate_timer_id_ m -> wf None m -> sound (update_queue script cost c fuel m t fired).
Proof.
  revert m t fired. induction fuel as [|fuel IH]; intros m t fired Hg H; cbn [update_queue]; [done|].
  destruct (get_queue c m) as [|[e id] q] eqn:E; [done|].
  destruct (wf_pop c m e id q H E) as (x & Hx & Hk & _ & Hp). rewrite Hx.
  assert (all_timers_ (set_queue c q m) !! id = Some x) as Hx' by by rewrite all_set_queue.
  destruct (negb (active_ x)).
  { apply IH; [by destruct c|]. rewrite <- (all_set_queue c q m). by apply wf_delete. }
  destruct (IsExpired t x); [|done].
  destruct (call script cost (call_func_ x) (set_queue c q m, t)) as [m1 t1] eqn:Ec.
  destruct (wf_call _ _ _ _ _ _ _ _ (ltac:(by rewrite gen_set_queue)) Hp Ec) as [H1 Hg1].
  destruct (kind_call _ _ _ _ _ _ _ _ _ Ec (ltac:(by rewrite gen_set_queue)) Hp Hx') as (x1 & Hx1 & Hk1).
  rewrite Hx1. destruct (loop_ x1).
  - apply IH; [by rewrite gen_set_queue|]. replace c with (kind x1) by congruence. by apply wf_repush.
  - apply IH; [done|]. by apply wf_delete.
Qed.

(** ** What one update calls *)

Section Quiet.

(** Callbacks that leave the timers alone, and take some time. *)
Context (cost : nat -> Z) (cost_nonneg : forall f, 0 <= cost f).

Definition quiet (f : nat) : list op := [].

Definition pass (f : nat) (t : times) : times :=
  mkTimes (steady_now t + cost f) (system_now t + cost f).

(** The reference: the timers of a queue one after the other, the cancelled ones left out, up
    to the first one that is not due when its turn comes. *)
Fixpoint due (c : clock) (a : gmap Z timer) (q : queue) (t : times) : list Z * times :=
  match q with
  | [] => ([], t)
  | (e, id) :: r =>
      match a !! id with
      | Some x =>
          if negb (active_ x) then due c a r t
          else if expired c t e then
            let '(l, t') := due c a r (pass (call_func_ x) t) in (id :: l, t')
          else ([], t)
      | None => ([], t)
      end
  end.

(** The time all callbacks of a queue take. *)
Definition total (a : gmap Z timer) (q : queue) : Z :=
  foldr (fun k s => match a !! snd k with Some x => cost (call_func_ x) | None => 0 end + s) 0 q.

(** Every loop timer of the queue waits longer than that. *)
Definition patient (c : clock) (m : manager) : Prop :=
  forall i x, all_timers_ m !! i = Some x -> kind x = c -> loop_ x = true ->
    total (all_timers_ m) (get_queue c m) < 1000000 * duration_ x.

Lemma total_nonneg a q : 0 <= total a q.
Proof.
  induction q as [|[e i] q IH]; [done|]. unfold total in *. cbn. destruct (a !! i) as [x|]; [|lia].
  pose proof (cost_nonneg (call_func_ x)). lia.
Qed.

Lemma now_pass c f t : now c (pass f t) = now c t + cost f.
Proof. by destruct c. Qed.

Lemma expired_later c t e e' : expired c t e = false -> e <= e' -> expired c t e' = false.
Proof. destruct c; cbn; lia. Qed.

Lemma due_later c a q t : Forall (fun k => expired c t k.1 = false) q -> due c a q t = ([], t).
Proof.
  induction 1 as [|[e i] q He _ IH]; cbn; [done|]. cbn in He.
  destruct (a !! i) as [x|]; [|done]. destruct (negb _); [done|]. by rewrite He.
Qed.

(** The loop with the part [q] of the first queue that is still to come; what else is in the
    queue was called and waits beyond the time [q] takes. *)
Record pending (c : clock) (a : gmap Z timer) (q : queue) (m : manager) (t : times) : Prop := {
  pending_wf : wf None m;
  pending_gen : 0 <= generate_timer_id_ m;
  pending_sorted : StronglySorted ahead q;
  pending_in k : k ∈ q -> k ∈ get_queue c m /\ all_timers_ m !! k.2 = a !! k.2;
  pending_rest k : k ∈ get_queue c m -> k ∉ q ->
    now c t + total a q < k.1 /\ exists x, all_timers_ m !! k.2 = Some x /\ active_ x = true;
  pending_patient i x : all_timers_ m !! i = Some x -> kind x = c -> loop_ x = true ->
    total a q < 1000000 * duration_ x }.

Lemma not_expired_total c a q t e : now c t + total a q < e -> expired c t e = false.
Proof. pose proof (total_nonneg a q). destruct c; cbn in *; lia. Qed.

Lemma IsExpired_kind c t x : kind x = c -> IsExpired t x = expired c t (end_time_point_ x).
Proof. intros <-. done. Qed.

(** Nothing of [q] is due when the head of the queue is not one of [q]. *)
Lemma pending_stops c a q m t e id r :
  pending c a q m t -> get_queue c m = (e, id) :: r -> (e, id) ∉ q ->
  due c a q t = ([], t) /\
  forall fuel fired, update_queue quiet cost c (S fuel) m t fired = Returns m t fired.
Proof.
  intros H E Hn. destruct (pending_rest _ _ _ _ _ H (e, id)) as (He & x & Hx & Ha);
    [rewrite E; apply list_elem_of_here|done|]. cbn in He, Hx.
  pose proof (wf_sorted _ _ (pending_wf _ _ _ _ _ H) c) as Hs. rewrite E in Hs.
  apply StronglySorted_inv in Hs as [_ Hs].
  apply not_expired_total in He. split.
  - apply due_later, Forall_forall. intros k Hk. pose proof (pending_in _ _ _ _ _ H k Hk) as [Hin _].
    rewrite E, elem_of_cons in Hin. destruct Hin as [->|Hin]; [done|].
    eapply Forall_forall in Hs; [|exact Hin]. apply ahead_iff in Hs. cbn in Hs.
    eapply expired_later; [exact He|lia].
  - intros fuel fired. cbn [update_queue]. rewrite E, Hx, Ha. cbn [negb].
    destruct (wf_pop c m e id r (pending_wf _ _ _ _ _ H) E) as (y & Hy & Hk & Hend & _).
    replace y with x in * by congruence. by rewrite (IsExpired_kind c), Hend, He.
Qed.
Lemma total_cons a e id q x : a !! id = Some x -> total a ((e, id) :: q) = cost (call_func_ x) + total a q.
Proof. intros H. unfold total. cbn. by rewrite H. Qed.

(** The next timer of [q] is the head of the queue. *)
Lemma pending_head c a e id q m t r :
  pending c a ((e, id) :: q) m t -> get_queue c m = (e, id) :: r ->
  (forall k, k ∈ q -> k ∈ r) /\ (forall k, k ∈ r -> k.2 <> id) /\
  (forall k, k ∈ r -> k ∉ q -> k ∉ (e, id) :: q).
Proof.
  intros H E. pose proof (wf_sorted _ _ (pending_wf _ _ _ _ _ H) c) as Hs. rewrite E in Hs.
  apply StronglySorted_inv in Hs as [_ Hs]. rewrite Forall_forall in Hs.
  pose proof (pending_sorted _ _ _ _ _ H) as Hq. apply StronglySorted_inv in Hq as [_ Hq].
  rewrite Forall_forall in Hq.
  assert (forall k, k ∈ r -> k.2 <> id) as Hid.
  { intros [e' i] Hk. cbn. intros ->. pose proof (Hs _ Hk) as Ha.
    pose proof (wf_queue _ _ (pending_wf _ _ _ _ _ H) c) as Hw.
    destruct (proj1 (Hw e' id)) as (_ & y & Hy & _ & <-); [rewrite E, elem_of_cons; auto|].
    destruct (proj1 (Hw e id)) as (_ & z & Hz & _ & He); [rewrite E, elem_of_cons; auto|].
    assert (y = z) as -> by congruence. rewrite He in Ha. by apply ahead_irrefl in Ha. }
  splits.
  - intros k Hk. pose proof (pending_in _ _ _ _ _ H k) as [Hin _]; [rewrite elem_of_cons; auto|].
    rewrite E, elem_of_cons in Hin. destruct Hin as [->|]; [|done].
    apply Hq in Hk. by apply ahead_irrefl in Hk.
  - done.
  - intros k Hk Hn. rewrite elem_of_cons. intros [->|]; [|done]. by apply Hid in Hk.
Qed.

(** The head is taken out for good. *)
Lemma pending_delete c a e id q m t t1 r x :
  pending c a ((e, id) :: q) m t -> get_queue c m = (e, id) :: r -> a !! id = Some x ->
  now c t1 + total a q <= now c t + total a ((e, id) :: q) ->
  pending c a q (set_all (delete id (all_timers_ m)) (set_queue c r m)) t1.
Proof.
  intros H E Hx Ht. destruct (pending_head c a e id q m t r H E) as (H1 & H2 & H3).
  destruct (wf_pop c m e id r (pending_wf _ _ _ _ _ H) E) as (y & Hy & Hk & He & Hp).
  rewrite (total_cons a e id q x Hx) in Ht. pose proof (cost_nonneg (call_func_ x)) as Hc.
  assert (get_queue c (set_all (delete id (all_timers_ m)) (set_queue c r m)) = r) as Hr by by destruct c.
  split.
  - rewrite <- (all_set_queue c r m). by apply wf_delete.
  - pose proof (pending_gen _ _ _ _ _ H). by destruct c.
  - pose proof (pending_sorted _ _ _ _ _ H) as Hq. by apply StronglySorted_inv in Hq as [? _].
  - intros k Hkq. rewrite Hr. split; [auto|]. cbn. rewrite lookup_delete_ne by (apply not_eq_sym; auto).
    apply (pending_in _ _ _ _ _ H). rewrite elem_of_cons. auto.
  - intros k. rewrite Hr. intros Hkr Hn. cbn. rewrite lookup_delete_ne by (apply not_eq_sym; auto).
    destruct (pending_rest _ _ _ _ _ H k) as [Hl Ha]; [rewrite E, elem_of_cons; auto|auto|].
    rewrite (total_cons a e id q x Hx) in Hl. split; [lia|done].
  - cbn. intros i z [_ Hz]%lookup_delete_Some Hkz Hlz.
    pose proof (pending_patient _ _ _ _ _ H i z Hz Hkz Hlz) as Hpat. rewrite (total_cons a e id q x Hx) in Hpat. lia.
Qed.

(** The head goes back to the queue, beyond the time [q] takes. *)
Lemma pending_repush c a e id q m t t1 r x :
  pending c a ((e, id) :: q) m t -> get_queue c m = (e, id) :: r -> a !! id = Some x ->
  active_ x = true -> loop_ x = true ->
  now c t1 + total a q <= now c t + total a ((e, id) :: q) ->
  pending c a q (set_queue c (insert (end_time_point_ (Reset t1 x), id) (get_queue c (set_queue c r m)))
    (set_all (<[id := Reset t1 x]> (all_timers_ (set_queue c r m))) (set_queue c r m))) t1.
Proof.
  intros H E Hx Hact Hloop Ht. destruct (pending_head c a e id q m t r H E) as (H1 & H2 & H3).
  destruct (wf_pop c m e id r (pending_wf _ _ _ _ _ H) E) as (y & Hy & Hk & He & Hp).
  assert (y = x) as ->.
  { destruct (pending_in _ _ _ _ _ H (e, id)) as [_ Hl]; [apply list_elem_of_here|]. cbn in Hl. congruence. }
  pose proof (pending_patient _ _ _ _ _ H id x Hy Hk Hloop) as Hpat.
  rewrite (total_cons a e id q x Hx) in Ht, Hpat. pose proof (cost_nonneg (call_func_ x)) as Hc.
  rewrite get_set_queue, decide_True, all_set_queue by done.
  split.
  - pose proof (wf_repush t1 _ id x Hp) as Hw. rewrite all_set_queue, Hk, get_set_queue, decide_True in Hw by done.
    by apply Hw.
  - pose proof (pending_gen _ _ _ _ _ H). by destruct c.
  - pose proof (pending_sorted _ _ _ _ _ H) as Hq. by apply StronglySorted_inv in Hq as [? _].
  - intros k Hkq. rewrite get_set_queue, decide_True, elem_of_insert, all_set_queue by done. split; [auto|]. cbn.
    rewrite lookup_insert_ne by (apply not_eq_sym; auto).
    apply (pending_in _ _ _ _ _ H). rewrite elem_of_cons. auto.
  - intros k. rewrite get_set_queue, decide_True, elem_of_insert, all_set_queue by done. intros [->|Hkr] Hn; cbn.
    + split; [unfold after; rewrite Hk; lia|]. rewrite lookup_insert_eq. by eexists.
    + rewrite lookup_insert_ne by (apply not_eq_sym; auto).
      destruct (pending_rest _ _ _ _ _ H k) as [Hl Ha]; [rewrite E, elem_of_cons; auto|auto|].
      rewrite (total_cons a e id q x Hx) in Hl. split; [lia|done].
  - intros i z. rewrite all_set_queue. cbn. destruct (decide (i = id)) as [->|Hne].
    + rewrite lookup_insert_eq. intros [= <-] _ _. cbn. lia.
    + rewrite lookup_insert_ne by done. intros Hz Hkz Hlz.
      pose proof (pending_patient _ _ _ _ _ H i z Hz Hkz Hlz) as Hq. rewrite (total_cons a e id q x Hx) in Hq. lia.
Qed.

(** What the loop over one queue leaves alone. *)
Definition frame (c : clock) (m m' : manager) : Prop :=
  forall c', c' <> c -> get_queue c' m' = get_queue c' m /\
    forall i x, kind x = c' -> (all_timers_ m' !! i = Some x <-> all_timers_ m !! i = Some x).

#[export] Instance frame_preorder c : PreOrder (frame c).
Proof.
  split; [by intros m c' _|]. intros m1 m2 m3 H1 H2 c' Hc.
  destruct (H1 c' Hc) as [E1 L1], (H2 c' Hc) as [E2 L2]. split; [congruence|].
  intros i x Hk. by rewrite (L2 i x Hk), (L1 i x Hk).
Qed.

Lemma frame_delete c m r id x :
  all_timers_ m !! id = Some x -> kind x = c ->
  frame c m (set_all (delete id (all_timers_ m)) (set_queue c r m)).
Proof.
  intros Hx Hk c' Hc. split; [by destruct c, c'|]. intros i y Hy. cbn. rewrite lookup_delete_Some.
  split; [by intros [_ ?]|]. intros H. split; [|done]. intros <-. congruence.
Qed.

Lemma frame_repush c m q r x x' id :
  all_timers_ m !! id = Some x -> kind x = c -> kind x' = c ->
  frame c m (set_queue c q (set_all (<[id := x']> (all_timers_ m)) (set_queue c r m))).
Proof.
  intros Hx Hk Hk' c' Hc. split; [by destruct c, c'|]. intros i y Hy. rewrite all_set_queue. cbn.
  destruct (decide (i = id)) as [->|Hne].
  - rewrite lookup_insert_eq. split; [intros [= <-]; congruence|].
    intros H. assert (x = y) by congruence. congruence.
  - by rewrite lookup_insert_ne.
Qed.

(** The loop calls what is due, in at most one round for each timer and one more. *)
Lemma pending_run c a q m t fired :
  pending c a q m t ->
  exists m', update_queue quiet cost c (S (length q)) m t fired =
      Returns m' (due c a q t).2 (fired ++ (due c a q t).1) /\
    wf None m' /\ 0 <= generate_timer_id_ m' /\ frame c m m'.
Proof.
  revert m t fired. induction q as [|[e id] q IH]; intros m t fired H.
  all: destruct (get_queue c m) as [|[e' id'] r] eqn:E.
  - exists m. cbn [length update_queue due fst snd]. rewrite E, app_nil_r. destruct H. by splits.
  - destruct (pending_stops c a [] m t e' id' r H E) as [-> Hs]; [by intros ?%elem_of_nil|].
    exists m. rewrite Hs. cbn [fst snd]. rewrite app_nil_r. destruct H. by splits.
  - destruct (pending_in _ _ _ _ _ H (e, id)) as [Hin _]; [apply list_elem_of_here|].
    rewrite E in Hin. by apply elem_of_nil in Hin.
  - destruct (decide ((e', id') ∈ (e, id) :: q)) as [Hin|Hn].
    2:{ destruct (pending_stops c a _ m t e' id' r H E Hn) as [-> Hs].
        exists m. cbn [length]. rewrite Hs. cbn [fst snd]. rewrite app_nil_r. destruct H. by splits. }
    assert ((e', id') = (e, id)) as [= -> ->].
    { apply elem_of_cons in Hin as [?|Hin]; [done|]. exfalso.
      pose proof (pending_sorted _ _ _ _ _ H) as Hq. apply StronglySorted_inv in Hq as [_ Hq].
      eapply Forall_forall in Hq; [|exact Hin].
      destruct (pending_in _ _ _ _ _ H (e, id)) as [Hk _]; [apply list_elem_of_here|].
      pose proof (wf_sorted _ _ (pending_wf _ _ _ _ _ H) c) as Hs. rewrite E in Hs, Hk.
      apply StronglySorted_inv in Hs as [_ Hs]. apply elem_of_cons in Hk as [Hk|Hk].
      - rewrite Hk in Hq. by apply ahead_irrefl in Hq.
      - eapply Forall_forall in Hs; [|exact Hk]. eapply ahead_irrefl. by etrans. }
    destruct (wf_pop c m e id r (pending_wf _ _ _ _ _ H) E) as (x & Hx & Hk & He & Hp).
    destruct (pending_in _ _ _ _ _ H (e, id)) as [_ Ha]; [apply list_elem_of_here|]. cbn [snd] in Ha.
    rewrite Hx in Ha. symmetry in Ha. cbn [due length]. rewrite Ha.
    pose proof (total_cons a e id q x Ha) as Ht. pose proof (cost_nonneg (call_func_ x)) as Hc.
    remember (S (length q)) as n eqn:En. cbn [update_queue]. rewrite E, Hx.
    rewrite (IsExpired_kind c t x Hk), He. destruct (active_ x) eqn:Hact; cbn [negb].
    + destruct (expired c t e); cbn [negb].
      2:{ exists m. cbn [fst snd]. rewrite app_nil_r. destruct H. by splits. }
      unfold call. cbn [foldl quiet]. fold (pass (call_func_ x) t).
      rewrite all_set_queue, Hx. destruct (due c a q (pass (call_func_ x) t)) as [l t'] eqn:Ed. cbn [fst snd].
      destruct (loop_ x) eqn:Hloop.
      * pose proof (pending_repush c a e id q m t (pass (call_func_ x) t) r x H E Ha Hact Hloop) as Hn.
        rewrite Ht, now_pass in Hn. specialize (Hn ltac:(lia)). rewrite all_set_queue in Hn.
        destruct (IH _ _ (fired ++ [id]) Hn) as (m' & -> & Hw & Hg & Hf).
        rewrite Ed. cbn [fst snd]. exists m'. rewrite <- app_assoc. splits; try done.
        etrans; [|exact Hf]. by eapply frame_repush.
      * pose proof (pending_delete c a e id q m t (pass (call_func_ x) t) r x H E Ha) as Hn.
        rewrite Ht, now_pass in Hn. specialize (Hn ltac:(lia)).
        destruct (IH _ _ (fired ++ [id]) Hn) as (m' & -> & Hw & Hg & Hf).
        rewrite Ed. cbn [fst snd]. exists m'. rewrite <- app_assoc. splits; try done.
        etrans; [|exact Hf]. by eapply frame_delete.
    + pose proof (pending_delete c a e id q m t t r x H E Ha) as Hn. rewrite Ht in Hn.
      specialize (Hn ltac:(lia)). destruct (IH _ _ fired Hn) as (m' & -> & Hw & Hg & Hf).
      exists m'. splits; try done. etrans; [|exact Hf]. by eapply frame_delete.
Qed.

Lemma pending_start c m t :
  wf None m -> 0 <= generate_timer_id_ m -> patient c m ->
  pending c (all_timers_ m) (get_queue c m) m t.
Proof.
  intros H Hg Hp. split; try done. apply (wf_sorted _ _ H).
Qed.

(** What is called and the time after it, on both queues. *)
Definition due_all (m : manager) (t : times) : list Z * times :=
  let '(l, t1) := due Steady (all_timers_ m) (steady_timers_ m) t in
  let '(l', t2) := due System (all_timers_ m) (system_timers_ m) t1 in (l ++ l', t2).

Lemma due_frame c a a' q t :
  (forall k x, k ∈ q -> a !! k.2 = Some x <-> a' !! k.2 = Some x) -> due c a q t = due c a' q t.
Proof.
  revert t. induction q as [|[e id] q IH]; intros t H; cbn; [done|].
  assert (a !! id = a' !! id) as ->.
  { apply option_eq. intros x. apply (H (e, id)), list_elem_of_here. }
  assert (forall t', due c a q t' = due c a' q t') as IH' by (intros t'; apply IH; intros; apply H, list_elem_of_further; done).
  destruct (a' !! id) as [x|]; [|done]. by rewrite !IH'.
Qed.

Lemma total_frame a a' q :
  (forall k x, k ∈ q -> a !! k.2 = Some x <-> a' !! k.2 = Some x) -> total a q = total a' q.
Proof.
  induction q as [|[e id] q IH]; intros H; [done|]. unfold total in *. cbn.
  assert (a !! id = a' !! id) as ->.
  { apply option_eq. intros x. apply (H (e, id)), list_elem_of_here. }
  rewrite IH; [done|]. intros; by apply H, list_elem_of_further.
Qed.

End Quiet.

(** ** Reachable managers *)

(** What a worker does with its timers; the clocks may show anything. *)
Inductive reachable (script : nat -> list op) (cost : nat -> Z) : manager -> Prop :=
  | reachable_init : reachable script cost init
  | reachable_op m t o : reachable script cost m -> reachable script cost (do_op t m o)
  | reachable_shutdown m t : reachable script cost m -> reachable script cost (EnterShutdownMode t m)
  | reachable_update m t fuel m' t' fired :
      reachable script cost m -> Update script cost fuel m t = Returns m' t' fired ->
      reachable script cost m'.

Lemma Update_sound script cost fuel m t :
  0 <= generate_timer_id_ m -> wf None m -> sound (Update script cost fuel m t).
Proof.
  intros Hg H. unfold Update. pose proof (update_queue_sound script cost Steady fuel m t [] Hg H) as Hs.
  destruct (update_queue _ _ Steady _ _ _ _); [|done..]. destruct Hs. by apply update_queue_sound.
Qed.

Lemma reachable_wf script cost m : reachable script cost m -> 0 <= generate_timer_id_ m /\ wf None m.
Proof.
  induction 1 as [|m t o _ [Hg H]|m t _ [Hg H]|m t fuel m' t' fired _ [Hg H] E].
  - split; [done|apply wf_init].
  - destruct (wf_do_op None t m o Hg H). split; [lia|done].
  - split; [done|by apply wf_EnterShutdownMode].
  - pose proof (Update_sound script cost fuel m t Hg H) as Hs. rewrite E in Hs. exact Hs.
Qed.

Lemma update_queue_more script cost c fuel k m t fired m' t' l :
  update_queue script cost c fuel m t fired = Returns m' t' l ->
  update_queue script cost c (fuel + k) m t fired = Returns m' t' l.
Proof.
  revert m t fired. induction fuel as [|fuel IH]; intros m t fired; cbn [update_queue Nat.add]; [done|].
  destruct (get_queue c m) as [|[e id] q]; [done|]. destruct (all_timers_ m !! id) as [x|]; [|done].
  destruct (negb (active_ x)); [apply IH|]. destruct (IsExpired t x); [|done].
  destruct (call _ _ _ _) as [m1 t1]. destruct (all_timers_ m1 !! id) as [x1|]; [|done].
  destruct (loop_ x1); apply IH.
Qed.

(** C38: whatever the callbacks register and unregister while they run, the pointers of the
    queues are good: a queue holds exactly the timers of its clock that [all_timers_] owns,
    each once and in the order of end and id, and [Update] never meets a deleted timer. *)
Theorem queues_hold_the_timers script cost m :
  reachable script cost m ->
  (forall c, StronglySorted (fun a b => before a b = true) (get_queue c m)) /\
  (forall c e i, (e, i) ∈ get_queue c m <->
     exists x, all_timers_ m !! i = Some x /\ kind x = c /\ end_time_point_ x = e) /\
  (forall fuel t, Update script cost fuel m t <> Dangling).
Proof.
  intros [Hg H]%reachable_wf. splits.
  - apply (wf_sorted _ _ H).
  - intros c e i. rewrite (wf_queue _ _ H). naive_solver.
  - intros fuel t E. pose proof (Update_sound script cost fuel m t Hg H) as Hs. by rewrite E in Hs.
Qed.

Lemma queues_hold_the_timers_witness :
  let script f := match f with 1%nat => [ORegister System 3 2 false; OUnRegister 1] | _ => [] end in
  let m := do_op (mkTimes 0 0) init (ORegister Steady 5 1 true) in
  (exists x, all_timers_ m !! 1 = Some x /\ kind x = Steady /\ end_time_point_ x = 5000000) /\
  Update script (fun _ => 1) 9 m (mkTimes 6000000 0) <> Dangling.
Proof.
  intros script m.
  destruct (queues_hold_the_timers script (fun _ => 1) m) as (_ & Hq & Hd); [repeat constructor|].
  split; [|apply Hd]. apply (Hq Steady 5000000 1). apply list_elem_of_here.
Defined.

(** C35: one [Update] ends and calls what is due, when callbacks leave the timers alone.  No
    callback registers or cancels a timer ([quiet]), before or during the [Update]; each takes
    a fixed time, not negative; and every loop timer waits longer than the callbacks of its
    clock take together ([patient]).  Then [Update] returns within one round more than the
    longer queue has timers, and has called the timers of the reference [due_all]: the active
    ones in the order of end and id, the steady ones first, up to the first one that is not due
    when its turn comes, each once. *)
Theorem update_calls_what_is_due cost m t fuel :
  (forall f, 0 <= cost f) -> reachable quiet cost m ->
  patient cost Steady m -> patient cost System m ->
  (length (steady_timers_ m) < fuel)%nat -> (length (system_timers_ m) < fuel)%nat ->
  exists m', Update quiet cost fuel m t = Returns m' (due_all cost m t).2 (due_all cost m t).1 /\
    reachable quiet cost m'.
Proof.
  intros Hc Hr Hp1 Hp2 Hf1 Hf2. destruct (reachable_wf _ _ _ Hr) as [Hg H].
  destruct (pending_run cost Hc _ _ _ m t [] (pending_start cost Steady m t H Hg Hp1)) as (m1 & E1 & Hw1 & Hg1 & Hf).
  destruct (Hf System) as [Hq Hl]; [done|]. cbn [get_queue] in *.
  assert (forall k x, k ∈ system_timers_ m -> all_timers_ m !! k.2 = Some x <-> all_timers_ m1 !! k.2 = Some x) as Ha.
  { intros [e i] x Hk. cbn.
    destruct (proj1 (wf_queue _ _ H System e i) Hk) as (_ & y & Hy & Hky & _).
    pose proof (proj2 (Hl i y Hky) Hy). split; intros; congruence. }
  assert (patient cost System m1) as Hp.
  { intros i x Hx Hk Hlo. cbn [get_queue] in *. rewrite Hq, <- (total_frame cost _ _ _ Ha).
    apply (Hp2 i x); [by apply (Hl i x Hk)|done..]. }
  unfold due_all. set (d1 := due cost Steady (all_timers_ m) (steady_timers_ m) t) in *.
  destruct (pending_run cost Hc _ _ _ m1 d1.2 ([] ++ d1.1) (pending_start cost System m1 _ Hw1 Hg1 Hp)) as (m2 & E2 & _).
  cbn [get_queue] in E2. rewrite Hq, <- (due_frame cost System _ _ _ _ Ha) in E2.
  destruct d1 as [l1 t1]. cbn [fst snd] in *.
  destruct (due cost System (all_timers_ m) (system_timers_ m) t1) as [l2 t2]. cbn [fst snd] in *.
  assert (Update quiet cost fuel m t = Returns m2 t2 (l1 ++ l2)) as E.
  { unfold Update. replace fuel with (S (length (steady_timers_ m)) + (fuel - S (length (steady_timers_ m))))%nat at 1 by lia.
    rewrite (update_queue_more _ _ _ _ _ _ _ _ _ _ _ E1).
    replace fuel with (S (length (system_timers_ m)) + (fuel - S (length (system_timers_ m))))%nat by lia.
    by rewrite (update_queue_more _ _ _ _ _ _ _ _ _ _ _ E2). }
  exists m2. split; [exact E|]. by eapply reachable_update.
Qed.

Lemma update_calls_what_is_due_witness :
  let m := do_op (mkTimes 0 0) (do_op (mkTimes 0 0) init (ORegister Steady 5 1 true)) (ORegister Steady 3 2 false) in
  exists m', Update quiet (fun _ => 1) 3 m (mkTimes 6000000 0) = Returns m' (mkTimes 6000002 2) [2; 1] /\
    reachable quiet (fun _ => 1) m'.
Proof.
  intros m.
  destruct (update_calls_what_is_due (fun _ => 1) m (mkTimes 6000000 0) 3) as (m' & E & Hr).
  - lia.
  - repeat constructor.
  - intros i x Hx _ _. unfold m in Hx. cbn in Hx.
    assert (all_timers_ m !! i = Some x) as Hm by exact Hx. clear Hx.
    destruct (decide (i = 2)) as [->|H2]; [vm_compute in Hm; injection Hm as <-; vm_compute; done|].
    destruct (decide (i = 1)) as [->|H1]; [vm_compute in Hm; injection Hm as <-; vm_compute; done|].
    exfalso. unfold m in Hm. cbn in Hm. rewrite !lookup_insert_ne in Hm by (cbn; lia). done.
  - intros i x Hx Hk _. assert (all_timers_ m !! i = Some x) as Hm by exact Hx. clear Hx.
    destruct (decide (i = 2)) as [->|H2]; [vm_compute in Hm; injection Hm as <-; done|].
    destruct (decide (i = 1)) as [->|H1]; [vm_compute in Hm; injection Hm as <-; done|].
    exfalso. unfold m in Hm. cbn in Hm. rewrite !lookup_insert_ne in Hm by (cbn; lia). done.
  - vm_compute. lia.
  - vm_compute. lia.
  - exists m'. split; [|exact Hr]. rewrite E.
    destruct (due_all (fun _ => 1) m (mkTimes 6000000 0)) as [l t] eqn:D. vm_compute in D. injection D as <- <-. done.
Defined.

(** ** A timer that is always due *)

Lemma zero_queue f cost fuel m t fired e :
  (forall f, 0 <= cost f) -> get_queue System m = [(e, 1)] -> e <= system_now t ->
  all_timers_ m !! 1 = Some (mkTimer true 1 true 0 f e System) ->
  exists m' t' l, update_queue quiet cost System fuel m t fired = Running m' t' l /\
    length l = (length fired + fuel)%nat.
Proof.
  intros Hc. revert m t fired e. induction fuel as [|fuel IH]; intros m t fired e Hq He Hx; cbn [update_queue].
  { exists m, t, fired. split; [done|lia]. }
  rewrite Hq, Hx. cbn [negb active_]. unfold IsExpired. cbn [expired kind now end_time_point_].
  rewrite (proj2 (Z.leb_le _ _)) by done. unfold call. cbn [quiet foldl call_func_]. rewrite all_set_queue, Hx.
  cbn [loop_]. cbn [get_queue set_queue system_timers_ insert].
  edestruct IH as (m' & t' & l & E & Hl); [..|exists m', t', l; split; [exact E|]].
  - reflexivity.
  - cbn. unfold after. cbn. pose proof (Hc f). lia.
  - cbn. rewrite lookup_insert_eq. reflexivity.
  - rewrite Hl, length_app. cbn. lia.
Qed.

(** A looping system timer of 0 ms makes [Update] run for ever: [IsExpired] of the system
    clock is not strict, so the timer is due again as soon as it was reset.  No number of
    rounds is enough, and every round calls the callback. *)
Theorem zero_system_timer_never_returns f cost t fuel :
  (forall f, 0 <= cost f) ->
  let m := (Register System 0 f true t init).2 in
  exists m' t' fired, Update quiet cost (S fuel) m t = Running m' t' fired /\ length fired = S fuel.
Proof.
  intros Hc m. unfold Update. change (update_queue quiet cost Steady (S fuel) m t []) with (Returns m t []).
  apply (zero_queue f cost (S fuel) m t [] (after System t 0) Hc); [done| |].
  - unfold after. cbn. lia.
  - unfold m. cbn. by rewrite lookup_insert_eq.
Qed.

Lemma zero_system_timer_never_returns_witness :
  exists m' t' fired,
    Update quiet (fun _ => 0) 8 (Register System 0 4 true (mkTimes 0 0) init).2 (mkTimes 0 0) = Running m' t' fired /\
    length fired = 8%nat.
Proof. apply (zero_system_timer_never_returns 4 (fun _ => 0) (mkTimes 0 0) 7). intros f. lia. Defined.

End TimerManager.
