(* ===== verification/DbPool.v ===== *)
(** * The PostgreSQL connection pool ([src/db/postgres/db_pool.cpp], [db_pool.h])

    All operations run one after the other on the I/O thread of the pool, so the pool is a
    state that they transform.  Connections are numbers; whether one is still connected and
    whether a new one can be opened is up to the database: events carry it.  The queues are
    FIFO here, as all their operations come from one thread. *)

From S2P Require Import Prelude.

Module DbConnectionPool.

(** A promise of [Acquire] is the number of the caller. *)
Record config := mkConfig { max_pool_size : Z; min_pool_size : Z }.

Record pool := mkPool {
  idle_ : list nat;
  total_connections_ : Z;
  idle_count_ : Z;
  active_count_ : Z;
  running_ : bool;
  waiters_ : list nat }.

(** The world around: what was handed to callers and not released, the value each promise
    got ([None]: a null connection), how many connections went from one caller to the next
    without being idle, and the number of the next connection. *)
Record world := mkWorld {
  pool_ : pool;
  held : list nat;
  given : list (nat * option nat);
  handed : Z;
  next_conn : nat }.

(** The constructor of the pool: zero sizes get defaults. *)
Definition configure (max_size min_size : Z) : config :=
  mkConfig (if max_size =? 0 then 32 else max_size) (if min_size =? 0 then 4 else min_size).

Definition init : world := mkWorld (mkPool [] 0 0 0 false []) [] [] 0 0.

Definition set_pool (p : pool) (w : world) : world := mkWorld p (held w) (given w) (handed w) (next_conn w).

Definition fetch_add (n d : Z) : Z := u64 (n + d).

(** [promise.setValue(conn)]. *)
Definition fulfil (who : nat) (conn : option nat) (w : world) : world :=
  mkWorld (pool_ w) (match conn with Some c => held w ++ [c] | None => held w end)
    (given w ++ [(who, conn)]) (handed w) (next_conn w).

(** [CreateConnectionSync]; [ok]: the database accepts. *)
Definition CreateConnectionSync (ok : bool) (w : world) : option nat * world :=
  if ok then (Some (next_conn w), mkWorld (pool_ w) (held w) (given w) (handed w) (S (next_conn w))) else (None, w).

Section Operations.
Context (cfg : config).

(** The loops that create connections and queue them as idle. *)
Definition add_idle (c : nat) (p : pool) : pool :=
  mkPool (idle_ p ++ [c]) (fetch_add (total_connections_ p) 1) (fetch_add (idle_count_ p) 1)
    (active_count_ p) (running_ p) (waiters_ p).

(** The body of [Start]: [oks] tells which attempts succeed. *)
Fixpoint start_loop (n : nat) (oks : nat -> bool) (w : world) : world :=
  match n with
  | O => w
  | S m =>
      let '(conn, w) := CreateConnectionSync (oks m) w in
      start_loop m oks (match conn with Some c => set_pool (add_idle c (pool_ w)) w | None => w end)
  end.

Definition Start (oks : nat -> bool) (w : world) : world :=
  let p := pool_ w in
  let p := mkPool (idle_ p) (total_connections_ p) (idle_count_ p) (active_count_ p) true (waiters_ p) in
  start_loop (Z.to_nat (Z.min (min_pool_size cfg) (max_pool_size cfg))) oks (set_pool p w).

(** [Stop]: the idle connections are closed, the waiting callers get null. *)
Definition Stop (w : world) : world :=
  let p := pool_ w in
  let n := Z.of_nat (length (idle_ p)) in
  let p' := mkPool [] (u64 (total_connections_ p - n)) (u64 (idle_count_ p - n)) (active_count_ p) false [] in
  foldl (fun w who => fulfil who None w) (set_pool p' w) (waiters_ p).

Definition DoAcquire (who : nat) (connected ok : bool) (w : world) : world :=
  let p := pool_ w in
  let '(got, p) :=
    match idle_ p with
    | [] => (None, p)
    | c :: r =>
        let p := mkPool r (total_connections_ p) (fetch_add (idle_count_ p) (-1)) (active_count_ p)
                   (running_ p) (waiters_ p) in
        if connected then
          (Some c, mkPool r (total_connections_ p) (idle_count_ p) (fetch_add (active_count_ p) 1)
                     (running_ p) (waiters_ p))
        else
          (None, mkPool r (fetch_add (total_connections_ p) (-1)) (idle_count_ p) (active_count_ p)
                   (running_ p) (waiters_ p))
    end in
  let w := set_pool p w in
  match got with
  | Some c => fulfil who (Some c) w
  | None =>
      let '(new, w) :=
        if total_connections_ p <? max_pool_size cfg then CreateConnectionSync ok w else (None, w) in
      match new with
      | Some c =>
          let p := mkPool (idle_ p) (fetch_add (total_connections_ p) 1) (idle_count_ p)
                     (fetch_add (active_count_ p) 1) (running_ p) (waiters_ p) in
          fulfil who (Some c) (set_pool p w)
      | None =>
          set_pool (mkPool (idle_ p) (total_connections_ p) (idle_count_ p) (active_count_ p)
                      (running_ p) (waiters_ p ++ [who])) w
      end
  end.

(** A caller gives back a connection it holds. *)
Definition DoRelease (conn : nat) (connected : bool) (w : world) : world :=
  let p := pool_ w in
  let w := mkWorld p (list_difference (held w) [conn]) (given w) (handed w) (next_conn w) in
  if negb connected then
    set_pool (mkPool (idle_ p) (fetch_add (total_connections_ p) (-1)) (idle_count_ p)
                (fetch_add (active_count_ p) (-1)) (running_ p) (waiters_ p)) w
  else
    match waiters_ p with
    | who :: r =>
        let w := mkWorld p (held w) (given w) (handed w + 1) (next_conn w) in
        fulfil who (Some conn)
          (set_pool (mkPool (idle_ p) (total_connections_ p) (idle_count_ p)
                       (fetch_add (active_count_ p) (-1)) (running_ p) r) w)
    | [] =>
        set_pool (mkPool (idle_ p ++ [conn]) (total_connections_ p) (fetch_add (idle_count_ p) 1)
                    (fetch_add (active_count_ p) (-1)) (running_ p) []) w
    end.

(** [while (total_connections_ < min_pool_size)]: [attempts] tells how many succeed before one
    fails. *)
Fixpoint refill (attempts : nat) (w : world) : world :=
  if total_connections_ (pool_ w) <? min_pool_size cfg then
    match attempts with
    | O => w
    | S n =>
        let '(conn, w) := CreateConnectionSync true w in
        refill n (match conn with Some c => set_pool (add_idle c (pool_ w)) w | None => w end)
    end
  else w.

Definition OnHeartbeat (connected : nat -> bool) (attempts : nat) (w : world) : world :=
  let p := pool_ w in
  if negb (running_ p) then w
  else
    let checked := filter (fun c => connected c) (idle_ p) in
    let lost := Z.of_nat (length (idle_ p)) - Z.of_nat (length checked) in
    refill attempts
      (set_pool (mkPool checked (u64 (total_connections_ p - lost)) (u64 (idle_count_ p - lost))
                   (active_count_ p) (running_ p) (waiters_ p)) w).

Inductive event :=
  | EStart (oks : nat -> bool)
  | EStop
  | EAcquire (who : nat) (connected ok : bool)
  | ERelease (conn : nat) (connected : bool)
  | EHeartbeat (connected : nat -> bool) (attempts : nat).

(** A release is of a connection the caller holds. *)
Definition step (w : world) (e : event) : option world :=
  match e with
  | EStart oks => Some (Start oks w)
  | EStop => Some (Stop w)
  | EAcquire who connected ok => Some (DoAcquire who connected ok w)
  | ERelease conn connected => if decide (conn ∈ held w) then Some (DoRelease conn connected w) else None
  | EHeartbeat connected attempts => Some (OnHeartbeat connected attempts w)
  end.

Fixpoint run (es : list event) (w : world) : option world :=
  match es with [] => Some w | e :: r => w' ← step w e; run r w' end.

End Operations.


(** ** Accounting *)

Section Accounting.
Context (cfg : config) (Hsizes : 0 <= min_pool_size cfg < 2 ^ 62) (Hmax : 0 <= max_pool_size cfg < 2 ^ 62).

Definition limit : Z := Z.max (min_pool_size cfg) (max_pool_size cfg).

Record counted (w : world) : Prop := {
  counted_nodup : NoDup (idle_ (pool_ w) ++ held w);
  counted_fresh c : c ∈ idle_ (pool_ w) ++ held w -> (c < next_conn w)%nat;
  counted_total : total_connections_ (pool_ w) = Z.of_nat (length (idle_ (pool_ w)) + length (held w));
  counted_idle : idle_count_ (pool_ w) = Z.of_nat (length (idle_ (pool_ w)));
  counted_limit : total_connections_ (pool_ w) <= limit;
  counted_active : active_count_ (pool_ w) = u64 (Z.of_nat (length (held w)) - handed w);
  counted_handed : 0 <= handed w }.

Lemma fetch_add_small n d : 0 <= n + d < 2 ^ 64 -> fetch_add n d = n + d.
Proof. intros H. apply wrapu_small. exact H. Qed.

Lemma fetch_add_u64 n d : fetch_add (u64 n) d = u64 (n + d).
Proof. unfold fetch_add, wrapu. by rewrite Zplus_mod_idemp_l. Qed.

Lemma limit_small : 0 <= limit < 2 ^ 62.
Proof. unfold limit. lia. Qed.

(** A new connection becomes idle while the pool is below the limit. *)
Lemma counted_add_idle ok w conn w' :
  counted w -> total_connections_ (pool_ w) < limit -> CreateConnectionSync ok w = (conn, w') ->
  counted (match conn with Some c => set_pool (add_idle c (pool_ w')) w' | None => w' end) /\
  total_connections_ (pool_ (match conn with Some c => set_pool (add_idle c (pool_ w')) w' | None => w' end)) <=
    total_connections_ (pool_ w) + 1.
Proof.
  intros [H1 H2 H3 H4 H5 H6 H7] Hl. pose proof limit_small as Hs.
  unfold CreateConnectionSync. destruct ok; intros [= <- <-]; [|split; [by split|lia]].
  destruct w as [[id tot ic ac ru wa] he gi ha nx]. cbn in *.
  assert (fetch_add tot 1 = tot + 1) as E1 by (apply fetch_add_small; lia).
  assert (fetch_add ic 1 = ic + 1) as E2 by (apply fetch_add_small; lia).
  split; [|rewrite E1; lia]. split; cbn; rewrite ?E1, ?E2, ?length_app; cbn; try done; try lia.
  - apply NoDup_app in H1 as (N1 & N2 & N3). rewrite <- app_assoc. apply NoDup_app. splits; [done| |].
    + intros c Hc [->|Hh]%elem_of_cons; [|by eapply N2].
      specialize (H2 nx ltac:(set_solver)). lia.
    + apply NoDup_cons. split; [|done]. intros Hc. specialize (H2 nx ltac:(set_solver)). lia.
  - intros c Hc. assert (c = nx \/ c ∈ id ++ he) as [->|Hc'] by set_solver; [lia|].
    specialize (H2 c Hc'). lia.
Qed.

Lemma counted_waiters w l :
  counted w -> counted (set_pool (mkPool (idle_ (pool_ w)) (total_connections_ (pool_ w)) (idle_count_ (pool_ w))
    (active_count_ (pool_ w)) (running_ (pool_ w)) l) w).
Proof. intros []. by split. Qed.

(** The first idle connection is handed out, or dropped. *)
Lemma counted_take w c r who :
  counted w -> idle_ (pool_ w) = c :: r ->
  counted (fulfil who (Some c) (set_pool (mkPool r (total_connections_ (pool_ w)) (fetch_add (idle_count_ (pool_ w)) (-1))
    (fetch_add (active_count_ (pool_ w)) 1) (running_ (pool_ w)) (waiters_ (pool_ w))) w)).
Proof.
  intros [H1 H2 H3 H4 H5 H6 H7] E. pose proof limit_small as Hs.
  destruct w as [[id tot ic ac ru wa] he gi ha nx]. cbn in *. subst id.
  assert (r ++ he ++ [c] ≡ₚ (c :: r) ++ he) as P by (rewrite app_assoc, Permutation_app_comm; done).
  cbn [length] in *. split; cbn; rewrite ?length_app; cbn [length]; try done; try lia.
  - by rewrite P.
  - intros x. rewrite P. apply H2.
  - rewrite fetch_add_small; lia.
  - rewrite H6, fetch_add_u64. f_equal. lia.
Qed.

Lemma counted_drop w c r :
  counted w -> idle_ (pool_ w) = c :: r ->
  counted (set_pool (mkPool r (fetch_add (total_connections_ (pool_ w)) (-1)) (fetch_add (idle_count_ (pool_ w)) (-1))
    (active_count_ (pool_ w)) (running_ (pool_ w)) (waiters_ (pool_ w))) w) /\
  fetch_add (total_connections_ (pool_ w)) (-1) = total_connections_ (pool_ w) - 1.
Proof.
  intros [H1 H2 H3 H4 H5 H6 H7] E. pose proof limit_small as Hs.
  destruct w as [[id tot ic ac ru wa] he gi ha nx]. cbn in *. subst id. cbn [length app] in *.
  apply NoDup_cons in H1 as [_ H1].
  assert (fetch_add tot (-1) = tot - 1) as E1 by (rewrite fetch_add_small; lia).
  split; [|done]. split; cbn; rewrite ?E1; try done; try lia.
  - intros x Hx. apply H2. set_solver.
  - rewrite fetch_add_small; lia.
Qed.

(** A new connection is handed out while the pool is below the limit. *)
Lemma counted_new w who w' c :
  counted w -> total_connections_ (pool_ w) < limit -> CreateConnectionSync true w = (Some c, w') ->
  counted (fulfil who (Some c) (set_pool (mkPool (idle_ (pool_ w)) (fetch_add (total_connections_ (pool_ w)) 1)
    (idle_count_ (pool_ w)) (fetch_add (active_count_ (pool_ w)) 1) (running_ (pool_ w)) (waiters_ (pool_ w))) w')).
Proof.
  intros [H1 H2 H3 H4 H5 H6 H7] Hl. pose proof limit_small as Hs. unfold CreateConnectionSync. intros [= <- <-].
  destruct w as [[id tot ic ac ru wa] he gi ha nx]. cbn in *.
  assert (fetch_add tot 1 = tot + 1) as E1 by (apply fetch_add_small; lia).
  assert (id ++ he ++ [nx] ≡ₚ nx :: (id ++ he)) as P by (rewrite app_assoc, Permutation_app_comm; done).
  split; cbn; rewrite ?E1, ?length_app; cbn [length]; try done; try lia.
  - rewrite P. apply NoDup_cons. split; [|done]. intros Hc%H2. lia.
  - intros x. rewrite P. intros [->|Hx%H2]%elem_of_cons; lia.
  - rewrite H6, fetch_add_u64. f_equal. lia.
Qed.

Lemma counted_wait_or_new who ok w :
  counted w ->
  counted (let '(new, w) :=
        if total_connections_ (pool_ w) <? max_pool_size cfg then CreateConnectionSync ok w else (None, w) in
      match new with
      | Some c =>
          let p := pool_ w in
          fulfil who (Some c) (set_pool (mkPool (idle_ p) (fetch_add (total_connections_ p) 1) (idle_count_ p)
                     (fetch_add (active_count_ p) 1) (running_ p) (waiters_ p)) w)
      | None =>
          let p := pool_ w in
          set_pool (mkPool (idle_ p) (total_connections_ p) (idle_count_ p) (active_count_ p)
                      (running_ p) (waiters_ p ++ [who])) w
      end).
Proof.
  intros H. destruct (total_connections_ (pool_ w) <? max_pool_size cfg) eqn:E; [|by apply counted_waiters].
  destruct ok; cbn; [|by apply counted_waiters].
  apply (counted_new w who _ (next_conn w)); [done| |done]. unfold limit. lia.
Qed.

Lemma counted_acquire who connected ok w : counted w -> counted (DoAcquire cfg who connected ok w).
Proof.
  intros H. unfold DoAcquire. destruct (idle_ (pool_ w)) as [|c r] eqn:E.
  - pose proof (counted_wait_or_new who ok w H) as Hw.
    destruct w as [p he gi ha nx]. cbn in *. unfold CreateConnectionSync in *.
    destruct (total_connections_ p <? max_pool_size cfg); [|exact Hw]. destruct ok; exact Hw.
  - destruct connected; cbn.
    + by apply counted_take.
    + destruct (counted_drop w c r H E) as [Hd _]. apply (counted_wait_or_new who ok) in Hd.
      unfold CreateConnectionSync in *. cbn in *.
      destruct (_ <? max_pool_size cfg); [|exact Hd]. destruct ok; exact Hd.
Qed.

Lemma held_without (c : nat) (l : list nat) :
  NoDup l -> c ∈ l -> l ≡ₚ c :: list_difference l [c].
Proof.
  intros Hn Hc. apply NoDup_Permutation; [done| |].
  - apply NoDup_cons. split; [|by apply NoDup_list_difference].
    rewrite list_elem_of_difference. intros [_ H]. apply H. by apply list_elem_of_singleton.
  - intros x. rewrite elem_of_cons, list_elem_of_difference, list_elem_of_singleton.
    destruct (decide (x = c)) as [->|]; naive_solver.
Qed.

Lemma counted_release conn connected w :
  counted w -> conn ∈ held w -> counted (DoRelease conn connected w).
Proof.
  intros [H1 H2 H3 H4 H5 H6 H7] Hc. pose proof limit_small as Hs.
  destruct w as [[id tot ic ac ru wa] he gi ha nx]. cbn in *.
  assert (NoDup he) as Hhe by by apply NoDup_app in H1 as (_ & _ & ?).
  pose proof (held_without conn he Hhe Hc) as P. pose proof (Permutation_length P) as L. cbn [length] in L.
  unfold DoRelease. cbn. set (he' := list_difference he [conn]) in *. clearbody he'.
  assert (id ++ he ≡ₚ conn :: (id ++ he')) as P' by (rewrite P; by rewrite Permutation_middle).
  assert (NoDup (id ++ he') /\ forall x, x ∈ id ++ he' -> (x < nx)%nat) as [N F].
  { split.
    - rewrite P' in H1. by apply NoDup_cons in H1 as [_ ?].
    - intros x Hx. apply H2. rewrite P'. set_solver. }
  destruct connected; cbn; [destruct wa as [|who r]|].
  - assert ((id ++ [conn]) ++ he' ≡ₚ id ++ he) as Q.
    { rewrite P', <- app_assoc. symmetry. apply Permutation_middle. }
    split; cbn; rewrite ?length_app; cbn [length]; try done; try lia.
    + by rewrite Q.
    + intros x. rewrite Q. apply H2.
    + rewrite fetch_add_small; lia.
    + rewrite H6, fetch_add_u64. f_equal. lia.
  - assert (id ++ he' ++ [conn] ≡ₚ id ++ he) as Q.
    { rewrite P', app_assoc. by rewrite Permutation_app_comm. }
    split; cbn; rewrite ?length_app; cbn [length]; try done; try lia.
    + by rewrite Q.
    + intros x. rewrite Q. apply H2.
    + rewrite H6, fetch_add_u64. f_equal. lia.
  - assert (fetch_add tot (-1) = tot - 1) as E by (rewrite fetch_add_small; lia).
    split; cbn; rewrite ?E; try done; try lia. rewrite H6, fetch_add_u64. f_equal. lia.
Qed.

Lemma fulfil_none l w :
  foldl (fun w who => fulfil who None w) w l =
  mkWorld (pool_ w) (held w) (given w ++ map (fun who => (who, None)) l) (handed w) (next_conn w).
Proof.
  revert w. induction l as [|who l IH]; intros w; cbn.
  - rewrite app_nil_r. by destruct w.
  - rewrite IH. unfold fulfil. cbn. by rewrite <- app_assoc.
Qed.

Lemma counted_stop w : counted w -> counted (Stop w).
Proof.
  intros [H1 H2 H3 H4 H5 H6 H7]. pose proof limit_small as Hs. unfold Stop. rewrite fulfil_none.
  destruct w as [[id tot ic ac ru wa] he gi ha nx]. cbn in *.
  split; cbn; try done; try (rewrite wrapu_small by (unfold in_u; lia)); try lia.
  - by apply NoDup_app in H1 as (_ & _ & ?).
  - intros c Hc. apply H2. set_solver.
Qed.

Lemma counted_refill n w :
  counted w -> counted (refill cfg n w).
Proof.
  revert w. induction n as [|n IH]; intros w H; cbn [refill]; [by destruct (_ <? _)|].
  destruct (_ <? _) eqn:E; [|done].
  destruct (CreateConnectionSync true w) as [conn w'] eqn:C. apply IH.
  eapply counted_add_idle; [done| |done]. unfold limit. lia.
Qed.

Lemma counted_heartbeat f n w : counted w -> counted (OnHeartbeat cfg f n w).
Proof.
  intros H. unfold OnHeartbeat. destruct (running_ (pool_ w)); [|done]. cbn [negb]. apply counted_refill.
  destruct H as [H1 H2 H3 H4 H5 H6 H7]. pose proof limit_small as Hs.
  destruct w as [[id tot ic ac ru wa] he gi ha nx]. cbn in *.
  pose proof (length_filter (fun c => f c) id) as L.
  assert (filter (fun c => f c) id `sublist_of` id) as S by apply sublist_filter.
  split; cbn; try (rewrite wrapu_small by (unfold in_u; lia)); try done; try lia.
  - eapply sublist_NoDup; [exact H1|]. by apply sublist_app.
  - intros c Hc. apply H2. apply elem_of_app in Hc as [Hc|Hc]; [|set_solver].
    apply list_elem_of_filter in Hc as [_ Hc]. set_solver.
Qed.

Lemma counted_start_loop n oks w :
  counted w -> total_connections_ (pool_ w) + Z.of_nat n <= limit -> counted (start_loop n oks w).
Proof.
  revert w. induction n as [|n IH]; intros w H Hl; cbn [start_loop]; [done|].
  destruct (CreateConnectionSync (oks n) w) as [conn w'] eqn:C.
  destruct (counted_add_idle (oks n) w conn w') as [H' Ht]; [done|lia|done|]. apply IH; [done|lia].
Qed.

(** Started once, on an empty pool. *)
Lemma counted_start oks : counted (Start cfg oks init).
Proof.
  apply counted_start_loop.
  - pose proof limit_small. split; cbn; try done; try lia; [constructor|].
    intros c Hc. by apply elem_of_nil in Hc.
  - cbn. unfold limit. lia.
Qed.

Definition starts (e : event) : bool := match e with EStart _ => true | _ => false end.

Lemma counted_run es w w' :
  existsb starts es = false -> counted w -> run cfg es w = Some w' -> counted w'.
Proof.
  revert w. induction es as [|e es IH]; intros w He H Hr; cbn in *; [congruence|].
  apply orb_false_elim in He as [He1 He2]. apply bind_Some in Hr as (w1 & Hs & Hr).
  apply (IH w1); [done| |done]. destruct e as [oks| |who cn ok|conn cn|f n]; cbn in *; [done|..].
  - injection Hs as <-. by apply counted_stop.
  - injection Hs as <-. by apply counted_acquire.
  - destruct (decide _); [|done]. injection Hs as <-. by apply counted_release.
  - injection Hs as <-. by apply counted_heartbeat.
Qed.
End Accounting.

(** The pool counts its connections.  After [Start], in every sequence of acquires,
    releases, heartbeats and stops, no connection is idle or held twice, the total is the number
    of idle and held connections and never exceeds the larger of the two configured sizes,
    and the idle counter is the number of idle ones.  The active counter is the number of held
    connections less the number that went from a caller straight to a waiting one, modulo
    2^64: it underflows once callers have waited. *)
Theorem pool_accounting cfg oks es w :
  0 <= min_pool_size cfg < 2 ^ 62 -> 0 <= max_pool_size cfg < 2 ^ 62 ->
  existsb starts es = false -> run cfg es (Start cfg oks init) = Some w ->
  let p := pool_ w in
  NoDup (idle_ p ++ held w) /\
  total_connections_ p = Z.of_nat (length (idle_ p) + length (held w)) /\
  total_connections_ p <= Z.max (min_pool_size cfg) (max_pool_size cfg) /\
  idle_count_ p = Z.of_nat (length (idle_ p)) /\
  active_count_ p = u64 (Z.of_nat (length (held w)) - handed w).
Proof.
  intros H1 H2 He Hr. destruct (counted_run cfg H1 H2 es _ w He (counted_start cfg H1 H2 oks) Hr).
  by splits.
Qed.

Lemma pool_accounting_witness :
  let cfg := mkConfig 1 1 in
  let es := [EAcquire 7 true true; EAcquire 8 true true; ERelease 0 true; ERelease 0 true] in
  exists w, run cfg es (Start cfg (fun _ => true) init) = Some w /\
    active_count_ (pool_ w) = 2 ^ 64 - 1 /\ total_connections_ (pool_ w) = 1 /\ handed w = 1.
Proof.
  intros cfg es. destruct (run cfg es (Start cfg (fun _ => true) init)) as [w|] eqn:E; [|vm_compute in E; discriminate].
  exists w. split; [done|].
  destruct (pool_accounting cfg (fun _ => true) es w) as (_ & Ht & _ & _ & Ha); [cbn; lia|cbn; lia|done|done|].
  rewrite Ha, Ht. vm_compute in E. injection E as <-. by vm_compute.
Defined.

(** ** Who waits *)

(** The events that serve a waiting caller. *)
Definition serves (e : event) : bool :=
  match e with EStop | ERelease _ true => true | _ => false end.

Lemma waiters_create ok w conn w' : CreateConnectionSync ok w = (conn, w') -> pool_ w' = pool_ w.
Proof. unfold CreateConnectionSync. by destruct ok; intros [= _ <-]. Qed.

Lemma waiters_start n oks w : waiters_ (pool_ (start_loop n oks w)) = waiters_ (pool_ w).
Proof.
  revert w. induction n as [|n IH]; intros w; cbn [start_loop]; [done|].
  destruct (CreateConnectionSync (oks n) w) as [conn w'] eqn:E. rewrite IH. apply waiters_create in E.
  destruct conn; cbn; by rewrite E.
Qed.

Lemma waiters_refill cfg n w : waiters_ (pool_ (refill cfg n w)) = waiters_ (pool_ w).
Proof.
  revert w. induction n as [|n IH]; intros w; cbn [refill]; [by destruct (_ <? _)|].
  destruct (_ <? _); [|done]. cbn. by rewrite IH.
Qed.

Lemma waiters_acquire cfg who cn ok w :
  exists more, waiters_ (pool_ (DoAcquire cfg who cn ok w)) = waiters_ (pool_ w) ++ more.
Proof.
  unfold DoAcquire. destruct (idle_ (pool_ w)) as [|c r]; [|destruct cn].
  2:{ exists []. cbn. by rewrite app_nil_r. }
  all: cbn; destruct (_ <? _); [|by eexists].
  all: unfold CreateConnectionSync; destruct ok; cbn; [|by eexists]; exists []; by rewrite app_nil_r.
Qed.

(** Who waits for a connection is served by the release of a connected one, first come
    first served, and by nothing else but [Stop]: while only broken connections are released,
    callers that come later may get connections that heartbeats have opened, and those who
    wait go on waiting. *)
Theorem waiters_served_by_release cfg es w w' :
  existsb serves es = false -> run cfg es w = Some w' ->
  (exists more, waiters_ (pool_ w') = waiters_ (pool_ w) ++ more) /\
  forall who r c, waiters_ (pool_ w') = who :: r -> c ∈ held w' ->
    exists w'', step cfg w' (ERelease c true) = Some w'' /\
      given w'' = given w' ++ [(who, Some c)] /\ waiters_ (pool_ w'') = r.
Proof.
  intros He Hr. split.
  - revert w He Hr. induction es as [|e es IH]; intros w He Hr; cbn in *.
    { injection Hr as <-. exists []. by rewrite app_nil_r. }
    apply orb_false_elim in He as [He1 He2]. apply bind_Some in Hr as (w1 & Hs & Hr).
    destruct (IH w1 He2 Hr) as [more ->].
    assert (exists m, waiters_ (pool_ w1) = waiters_ (pool_ w) ++ m) as [m ->].
    { destruct e as [oks| |who cn ok|conn cn|f n]; cbn in *; try done.
      - injection Hs as <-. unfold Start. rewrite waiters_start. exists []. by rewrite app_nil_r.
      - injection Hs as <-. apply waiters_acquire.
      - destruct (decide _); [|done]. injection Hs as <-. destruct cn; [done|]. exists []. by rewrite app_nil_r.
      - injection Hs as <-. unfold OnHeartbeat. exists []. rewrite app_nil_r.
        destruct (running_ (pool_ w)); [|done]. cbn [negb]. by rewrite waiters_refill. }
    exists (m ++ more). by rewrite app_assoc.
  - intros who r c Hw Hc. cbn [step]. rewrite decide_True by done. eexists. split; [done|].
    unfold DoRelease. cbn [negb]. by rewrite Hw.
Qed.

Lemma waiters_served_by_release_witness :
  let cfg := mkConfig 1 1 in
  let hungry := [EAcquire 7 true true; EAcquire 8 true true] in
  let es := [ERelease 0 false; EHeartbeat (fun _ => true) 1; EAcquire 9 true true] in
  exists w w', run cfg hungry (Start cfg (fun _ => true) init) = Some w /\ run cfg es w = Some w' /\
    given w' = [(7%nat, Some 0%nat); (9%nat, Some 1%nat)] /\ waiters_ (pool_ w') = [8%nat] /\
    exists w'', step cfg w' (ERelease 1 true) = Some w'' /\ given w'' = given w' ++ [(8%nat, Some 1%nat)].
Proof.
  intros cfg hungry es.
  destruct (run cfg hungry (Start cfg (fun _ => true) init)) as [w|] eqn:E; [|vm_compute in E; discriminate].
  exists w. destruct (run cfg es w) as [w'|] eqn:E'.
  2:{ exfalso. vm_compute in E. injection E as <-. vm_compute in E'. discriminate. }
  exists w'. split; [done|]. split; [done|].
  destruct (waiters_served_by_release cfg es w w' eq_refl E') as [_ H].
  vm_compute in E. injection E as <-. vm_compute in E'. injection E' as <-. split; [done|]. split; [done|].
  destruct (H 8%nat [] 1%nat) as (w'' & Hs & Hg & _); [done|set_solver|]. by exists w''.
Defined.

End DbConnectionPool.
