(* ===== verification/Nats.v ===== *)
(** * NATS messaging ([src/network/nats/nats_manager.cpp], [nats_manager.h])

    Subjects and inboxes are strings without NUL, as lists of character codes.  The handlers
    of a subscription and the pending requests are kept per worker thread, so the operations
    of a worker on them run one after the other.  The NATS library is outside: whether it
    accepts a subscription or a message is a parameter of the operation. *)

From S2P Require Import Prelude Decimal Session.
Import Session.

Module Nats.

Definition dot : Z := 46.
Definition star : Z := 42.
Definition tail_char : Z := 62.

(** ** Wildcards *)

(** The loop that skips to the next dot, or to the end. *)
Fixpoint skip_token (s : list Z) : list Z :=
  match s with [] => [] | c :: r => if c =? dot then s else skip_token r end.

(** What follows the loop. *)
Definition match_end (p s : list Z) : bool :=
  match p, s with
  | [], [] => true
  | [c], _ => c =? tail_char
  | _, _ => false
  end.

(** The loop over the pattern and the subject. *)
Fixpoint match_loop (p s : list Z) : bool :=
  match p, s with
  | c :: p', d :: s' =>
      if c =? star then match_loop p' (skip_token s)
      else if c =? tail_char then true
      else if c =? d then match_loop p' s'
      else false
  | _, _ => match_end p s
  end.

Definition NatsWildcardMatch (pattern subject : list Z) : bool :=
  if bool_decide (pattern = [tail_char]) then true else match_loop pattern subject.

Definition MatchSub (pattern subject : list Z) : bool :=
  if bool_decide (pattern = subject) then true else NatsWildcardMatch pattern subject.

(** ** Inboxes *)

(** [string::find]: the first position, and [from] a position. *)
Fixpoint is_prefix (p l : list Z) : bool :=
  match p, l with
  | [], _ => true
  | c :: p', d :: l' => (c =? d) && is_prefix p' l'
  | _, [] => false
  end.

Fixpoint find_from (sub l : list Z) (i : nat) : option nat :=
  if is_prefix sub l then Some i
  else match l with [] => None | _ :: r => find_from sub r (S i) end.

Definition find (sub l : list Z) (pos : nat) : option nat := find_from sub (drop pos l) pos.

Definition inbox_text : list Z := [95; 73; 78; 66; 79; 88].          (* _INBOX *)
Definition dot_W : list Z := [46; 87].
Definition dot_N : list Z := [46; 78].

Definition IsNatsInbox (subject : list Z) : bool :=
  (6 <? Z.of_nat (length subject)) && is_prefix inbox_text subject.

Definition ParseInboxWorkerIndex (inbox : list Z) : option Z :=
  match find dot_W inbox 0 with
  | None => Some 0
  | Some wpos =>
      let wpos := (wpos + 2)%nat in
      match find dot_N inbox wpos with
      | None => Some 0
      | Some npos => v ← stoul (take (npos - wpos) (drop wpos inbox)); Some (u32 v)
      end
  end.

(** The inbox for a worker and the number of its request. *)
Definition inbox_name (worker_index seq : Z) : list Z :=
  inbox_text ++ dot_W ++ to_string worker_index ++ dot_N ++ to_string seq.

(** ** Payloads *)

Definition BuildPayload (meta : Meta) (body : list Z) : list Z := encode_meta meta ++ body.

(** The [Meta] and the body of a received payload. *)
Definition split_payload (payload : list Z) : Meta * list Z :=
  if (meta_bytes <=? length payload)%nat then
    (decode_meta (take meta_bytes payload), drop meta_bytes payload)
  else (default_meta, []).

(** ** The state of one worker *)

Inductive NatsError := OK | Timeout | Disconnected | PublishFailed | SubscribeFailed | RequestFailed.

(** A pending request has a callback and the id of its timer. *)
Record request := mkRequest { callback : nat; timer_id : Z }.

(** [subs] is in the order in which the table is iterated; [log] holds the callbacks called. *)
Record tls := mkTls {
  subs : list (list Z * nat);
  pending : gmap (list Z) request;
  inbox_seq : Z;
  log : list (nat * NatsError * list Z) }.

Definition tls_init : tls := mkTls [] ∅ 0 [].

Definition call (cb : nat) (e : NatsError) (body : list Z) (t : tls) : tls :=
  mkTls (subs t) (pending t) (inbox_seq t) (log t ++ [(cb, e, body)]).

Definition set_pending (m : gmap (list Z) request) (t : tls) : tls := mkTls (subs t) m (inbox_seq t) (log t).

(** [GenInbox] on the worker with the index. *)
Definition GenInbox (worker_index : Z) (t : tls) : list Z * tls :=
  (inbox_name worker_index (inbox_seq t), mkTls (subs t) (pending t) (u64 (inbox_seq t + 1)) (log t)).

(** What NATS and the timer manager answer; the timer id is -1 while shutting down. *)
Record answers := mkAnswers { connected : bool; sub_ok : bool; pub_ok : bool; timer : option Z }.

(** [AsyncRequest] with a callback. *)
Definition AsyncRequest (worker_index : Z) (a : answers) (cb : nat) (t : tls) : tls :=
  if negb (connected a) then call cb Disconnected [] t
  else
    let '(inbox, t) := GenInbox worker_index t in
    if negb (sub_ok a) then call cb SubscribeFailed [] t
    else
      let t := set_pending (<[inbox := mkRequest cb (-1)]> (pending t)) t in
      if negb (pub_ok a) then
        match pending t !! inbox with
        | Some r => call (callback r) RequestFailed [] (set_pending (delete inbox (pending t)) t)
        | None => t
        end
      else
        match timer a with
        | None => t
        | Some id =>
            match pending t !! inbox with
            | Some r => set_pending (<[inbox := mkRequest (callback r) id]> (pending t)) t
            | None => t
            end
        end.

(** The callback of the timer. *)
Definition on_timeout (inbox : list Z) (t : tls) : tls :=
  match pending t !! inbox with
  | None => t
  | Some r => call (callback r) Timeout [] (set_pending (delete inbox (pending t)) t)
  end.

(** The task [OnNatsInboxMsg] posts: the id of the timer to cancel and the worker. *)
Definition on_inbox (inbox payload : list Z) (t : tls) : option Z * tls :=
  match pending t !! inbox with
  | None => (None, t)
  | Some r =>
      let '(_, body) := split_payload payload in
      (if 0 <=? timer_id r then Some (timer_id r) else None,
       call (callback r) OK body (set_pending (delete inbox (pending t)) t))
  end.

(** [Subscribe]: a second handler for a subject replaces the first. *)
Fixpoint set_sub (subject : list Z) (h : nat) (l : list (list Z * nat)) : list (list Z * nat) :=
  match l with
  | [] => [(subject, h)]
  | (s, g) :: r => if bool_decide (s = subject) then (s, h) :: r else (s, g) :: set_sub subject h r
  end.

Definition Subscribe (is_connected ok : bool) (subject : list Z) (h : nat) (t : tls) : tls :=
  if negb is_connected then t
  else
    let subs' := set_sub subject h (subs t) in
    if ok then mkTls subs' (pending t) (inbox_seq t) (log t)
    else mkTls (List.filter (fun x => negb (bool_decide (x.1 = subject))) subs') (pending t) (inbox_seq t) (log t).

(** The task [OnNatsSubMsg] posts: the exact subject first, then the first pattern. *)
Fixpoint find_sub (f : list Z -> bool) (l : list (list Z * nat)) : option nat :=
  match l with [] => None | (s, h) :: r => if f s then Some h else find_sub f r end.

Definition on_message (subject payload : list Z) (t : tls) : option (nat * Meta * list Z) :=
  let '(meta, body) := split_payload payload in
  match find_sub (fun s => bool_decide (s = subject)) (subs t) with
  | Some h => Some (h, meta, body)
  | None =>
      match find_sub (fun s => MatchSub s subject) (subs t) with
      | Some h => Some (h, meta, body)
      | None => None
      end
  end.

(** ** Matching by tokens

    The rules of NATS: a subject is a list of tokens with dots between them; in a pattern
    [*] stands for one token and [>], at the end, for one or more. *)

Inductive token := Any | Tail | Literal (l : list Z).

Fixpoint token_match (ps : list token) (ts : list (list Z)) : bool :=
  match ps, ts with
  | [], [] => true
  | [Tail], _ :: _ => true
  | Any :: ps, _ :: ts => token_match ps ts
  | Literal l :: ps, t :: ts => bool_decide (l = t) && token_match ps ts
  | _, _ => false
  end.

Definition token_text (p : token) : list Z :=
  match p with Any => [star] | Tail => [tail_char] | Literal l => l end.

Fixpoint join (ts : list (list Z)) : list Z :=
  match ts with [] => [] | [t] => t | t :: r => t ++ dot :: join r end.

(** A token of a subject is not empty and has neither dots nor wildcards. *)
Definition plain (c : Z) : Prop := c <> dot /\ c <> star /\ c <> tail_char.

Definition good_token (t : list Z) : Prop := t <> [] /\ Forall plain t.

Fixpoint good_pattern (ps : list token) : Prop :=
  match ps with
  | [] => False
  | [Literal l] => good_token l
  | [_] => True
  | Tail :: _ => False
  | Any :: r => good_pattern r
  | Literal l :: r => good_token l /\ good_pattern r
  end.

(** At the end or at a dot. *)
Definition boundary (l : list Z) : Prop := match l with [] => True | c :: _ => c = dot end.

Lemma plain_eqb c : plain c -> (c =? star) = false /\ (c =? tail_char) = false.
Proof. unfold plain. lia. Qed.

Lemma match_literal l t p s :
  Forall plain l -> Forall plain t -> boundary p -> boundary s -> match_loop (l ++ p) (t ++ s) =
    if bool_decide (l = t) then match_loop p s else false.
Proof.
  intros Hl. revert t. induction Hl as [|c l Hc Hl IH]; intros t Ht Hp Hs.
  - destruct Ht as [|d t Hd Ht]; [done|]. cbn [app]. rewrite bool_decide_false by done.
    destruct p as [|c p]; [done|]. cbn in Hp. subst c. cbn [match_loop app]. unfold plain in Hd.
    change (dot =? star) with false. change (dot =? tail_char) with false. cbn iota.
    by replace (dot =? d) with false by lia.
  - destruct (plain_eqb c Hc) as [E1 E2]. destruct Ht as [|d t Hd Ht].
    + rewrite bool_decide_false by done. cbn [app]. destruct s as [|d s]; cbn [match_loop app].
      * cbn. destruct (l ++ p); [|done]. exact E2.
      * rewrite E1, E2. cbn in Hs. subst d. unfold plain in Hc. by replace (c =? dot) with false by lia.
    + cbn [app match_loop]. rewrite E1, E2. destruct (Z.eqb_spec c d) as [->|Hne].
      * rewrite IH by done. destruct (decide (l = t)) as [->|Hlt]; [by rewrite !bool_decide_true|].
        rewrite !bool_decide_false by congruence. done.
      * by rewrite bool_decide_false by congruence.
Qed.

Lemma skip_token_app t s : Forall plain t -> boundary s -> skip_token (t ++ s) = s.
Proof.
  induction 1 as [|c t Hc _ IH]; intros Hs; cbn.
  - destruct s as [|c s]; [done|]. cbn in *. subst. done.
  - unfold plain in Hc. replace (c =? dot) with false by lia. auto.
Qed.

Lemma join_cons t ts : join (t :: ts) = t ++ match ts with [] => [] | _ => dot :: join ts end.
Proof. destruct ts; cbn; [by rewrite app_nil_r|done]. Qed.

Lemma boundary_join ts : boundary (match ts with [] => [] | _ => dot :: join ts end).
Proof. by destruct ts. Qed.

Lemma match_dots p s : match_loop (dot :: p) (dot :: s) = match_loop p s.
Proof. done. Qed.

Lemma match_rest ps ts :
  (ps <> [] -> ts <> [] -> match_loop (join (token_text <$> ps)) (join ts) = token_match ps ts) ->
  match_loop (match token_text <$> ps with [] => [] | _ => dot :: join (token_text <$> ps) end)
    (match ts with [] => [] | _ => dot :: join ts end) =
  token_match ps ts.
Proof.
  intros H. destruct ps as [|p ps], ts as [|t ts]; [done..| |].
  - transitivity false; [cbn; by repeat case_match|by destruct p, ps].
  - cbn [fmap list_fmap]. rewrite match_dots. by apply H.
Qed.

Lemma match_tokens ps ts :
  good_pattern ps -> ts <> [] -> Forall good_token ts ->
  match_loop (join (token_text <$> ps)) (join ts) = token_match ps ts.
Proof.
  revert ts. induction ps as [|p ps IH]; intros ts Hp Hne Ht; [done|].
  destruct ts as [|t ts]; [done|]. apply Forall_cons in Ht as [[Htn Ht] Hts].
  cbn [fmap list_fmap]. rewrite !join_cons.
  assert (good_pattern ps \/ ps = []) as Hps.
  { destruct p, ps; cbn in Hp; auto; try done. destruct Hp; auto. }
  assert (match_loop (match token_text <$> ps with [] => [] | _ => dot :: join (token_text <$> ps) end)
    (match ts with [] => [] | _ => dot :: join ts end) = token_match ps ts) as Hrest.
  { apply match_rest. intros Hpn Htn'. destruct Hps as [Hps|]; [|done]. by apply IH. }
  destruct p as [| |l]; cbn [token_text].
  - destruct t as [|c t]; [done|]. cbn [app match_loop]. change (star =? star) with true. cbn iota.
    change (skip_token (c :: t ++ ?r)) with (skip_token ((c :: t) ++ r)).
    rewrite (skip_token_app (c :: t)); [exact Hrest|done|apply boundary_join].
  - destruct ps; [|done]. destruct t as [|c t]; done.
  - assert (good_token l) as [_ Hl] by (destruct ps; [done|by destruct Hp]).
    rewrite match_literal; [|done|done|by destruct (token_text <$> ps)|apply boundary_join].
    rewrite Hrest. cbn. by destruct (bool_decide (l = t)).
Qed.

Lemma plain_join ts : Forall good_token ts -> Forall (fun c => c <> star /\ c <> tail_char) (join ts).
Proof.
  induction 1 as [|t ts [_ Ht] _ IH]; [constructor|]. rewrite join_cons. apply Forall_app. split.
  - eapply Forall_impl; [exact Ht|]. unfold plain. naive_solver.
  - destruct ts; constructor; [by split|done].
Qed.

Lemma match_same s : Forall (fun c => c <> star /\ c <> tail_char) s -> match_loop s s = true.
Proof.
  induction 1 as [|c s Hc _ IH]; [done|]. cbn [match_loop].
  replace (c =? star) with false by lia. replace (c =? tail_char) with false by lia.
  by rewrite Z.eqb_refl.
Qed.

(** [MatchSub] decides the subjects of NATS.  For every pattern of literal tokens, [*] and
    a final [>], and every subject, the scan over the characters agrees with matching token
    by token. *)
Theorem MatchSub_is_token_match ps ts :
  good_pattern ps -> ts <> [] -> Forall good_token ts ->
  MatchSub (join (token_text <$> ps)) (join ts) = token_match ps ts.
Proof.
  intros Hp Hne Ht. unfold MatchSub, NatsWildcardMatch. rewrite <- (match_tokens ps ts Hp Hne Ht).
  case_bool_decide as E.
  - rewrite E. symmetry. apply match_same, plain_join, Ht.
  - case_bool_decide as E'; [|done]. rewrite E'.
    destruct ts as [|t ts]; [done|]. apply Forall_cons in Ht as [[Htn _] _]. rewrite join_cons.
    by destruct t as [|c t].
Qed.

Lemma MatchSub_is_token_match_witness :
  MatchSub (join (token_text <$> [Literal [97; 98]; Any; Tail])) (join [[97; 98]; [99]; [100]; [101]]) = true /\
  token_match [Literal [97; 98]; Any; Tail] [[97; 98]; [99]] = false.
Proof.
  split; [|reflexivity]. rewrite MatchSub_is_token_match; [reflexivity| |done|].
  - cbn. split; [|done]. split; [done|]. repeat constructor; cbn; unfold dot, star, tail_char; lia.
  - repeat constructor; cbn; unfold dot, star, tail_char; try done; lia.
Defined.

(** ** Inboxes *)

Lemma find_dot_N ds r i :
  Forall (fun c => 48 <= c <= 57) ds -> find_from dot_N (ds ++ dot_N ++ r) i = Some (i + length ds)%nat.
Proof.
  intros H. revert i. induction H as [|c ds Hc _ IH]; intros i.
  - cbn. f_equal. lia.
  - cbn [app find_from]. unfold dot_N at 1. cbn [is_prefix].
    rewrite (proj2 (Z.eqb_neq 46 c)) by lia. cbn [andb]. fold dot_N. rewrite IH. f_equal. cbn. lia.
Qed.

Lemma Parse_inbox_name w n :
  in_u 32 w -> ParseInboxWorkerIndex (inbox_name w n) = Some w.
Proof.
  intros Hw. destruct (to_string_spec w) as (Hne & Hds & Hv); [unfold in_u in *; lia|].
  unfold ParseInboxWorkerIndex. change (find dot_W (inbox_name w n) 0) with (Some 6%nat). cbn iota zeta.
  unfold find. change (drop (6 + 2) (inbox_name w n)) with (to_string w ++ dot_N ++ to_string n).
  rewrite find_dot_N by done. replace (6 + 2 + length (to_string w) - (6 + 2))%nat with (length (to_string w)) by lia.
  rewrite take_app_length, Hv. cbn. by rewrite wrapu_small.
Qed.

Lemma inbox_name_inj w n w' n' :
  in_u 32 w -> in_u 64 n -> in_u 32 w' -> in_u 64 n' ->
  inbox_name w n = inbox_name w' n' -> w = w' /\ n = n'.
Proof.
  intros Hw Hn Hw' Hn' E.
  assert (w = w') as <-.
  { pose proof (Parse_inbox_name w n Hw) as H. rewrite E, Parse_inbox_name in H by done. by injection H. }
  split; [done|]. unfold inbox_name in E. repeat apply app_inv_head in E.
  destruct (to_string_spec n Hn) as (_ & _ & Hv). rewrite E in Hv.
  destruct (to_string_spec n' Hn') as (_ & _ & Hv'). congruence.
Qed.

(** An inbox finds its way back: the worker index parsed from the inbox of a request is the
    one of the worker that made it, the inboxes of different requests differ, and each is
    recognised as an inbox. *)
Theorem inbox_round_trip w n w' n' :
  in_u 32 w -> in_u 64 n -> in_u 32 w' -> in_u 64 n' ->
  ParseInboxWorkerIndex (inbox_name w n) = Some w /\ IsNatsInbox (inbox_name w n) = true /\
  (inbox_name w n = inbox_name w' n' <-> w = w' /\ n = n').
Proof.
  intros Hw Hn Hw' Hn'. splits.
  - by apply Parse_inbox_name.
  - unfold IsNatsInbox. apply andb_true_intro. split; [|done]. apply Z.ltb_lt.
    unfold inbox_name. rewrite length_app, length_app. cbn [length inbox_text dot_W]. lia.
  - split; [by apply inbox_name_inj|by intros [-> ->]].
Qed.

Lemma inbox_round_trip_witness :
  ParseInboxWorkerIndex (inbox_name 12 345) = Some 12 /\ inbox_name 12 345 <> inbox_name 1 2345.
Proof.
  destruct (inbox_round_trip 12 345 1 2345) as (H & _ & E); [unfold in_u; lia..|].
  split; [exact H|]. intros [? _]%E. lia.
Defined.

(** ** Requests of one worker *)

Inductive event :=
  | ERequest (a : answers) (cb : nat)
  | ETimeout (inbox : list Z)
  | EReply (inbox payload : list Z)
  | ESubscribe (is_connected ok : bool) (subject : list Z) (h : nat).

Definition step (worker_index : Z) (t : tls) (e : event) : tls :=
  match e with
  | ERequest a cb => AsyncRequest worker_index a cb t
  | ETimeout inbox => on_timeout inbox t
  | EReply inbox payload => (on_inbox inbox payload t).2
  | ESubscribe c ok subject h => Subscribe c ok subject h t
  end.

Definition run (worker_index : Z) (es : list event) (t : tls) : tls := foldl (step worker_index) t es.

Definition issued (e : event) : list nat := match e with ERequest _ cb => [cb] | _ => [] end.

(** The callbacks called so far, and those of the pending requests. *)
Definition called (t : tls) : list nat := (fun x => x.1.1) <$> log t.
Definition waiting (t : tls) : list nat := (fun x => callback x.2) <$> map_to_list (pending t).

Record open (w : Z) (n : nat) (cbs : list nat) (t : tls) : Prop := {
  open_keys inbox r : pending t !! inbox = Some r -> exists s, 0 <= s < inbox_seq t /\ inbox = inbox_name w s;
  open_seq : 0 <= inbox_seq t <= Z.of_nat n;
  open_all : called t ++ waiting t ≡ₚ cbs }.

Lemma called_call cb e body t : called (call cb e body t) = called t ++ [cb].
Proof. unfold called, call. cbn. by rewrite fmap_app. Qed.

Lemma waiting_insert inbox r t :
  pending t !! inbox = None -> waiting (set_pending (<[inbox := r]> (pending t)) t) ≡ₚ callback r :: waiting t.
Proof. intros H. unfold waiting. cbn. by rewrite map_to_list_insert. Qed.

Lemma waiting_delete inbox r t :
  pending t !! inbox = Some r -> callback r :: waiting (set_pending (delete inbox (pending t)) t) ≡ₚ waiting t.
Proof. intros H. unfold waiting. cbn. by rewrite <- (map_to_list_delete (pending t) inbox r H). Qed.

(** A pending request is answered. *)
Lemma open_answer w n cbs t inbox r e body :
  open w n cbs t -> pending t !! inbox = Some r ->
  open w n cbs (call (callback r) e body (set_pending (delete inbox (pending t)) t)).
Proof.
  intros [Hk Hs Ha] Hr. split.
  - intros i x. cbn. intros [_ H]%lookup_delete_Some. by apply Hk in H.
  - done.
  - rewrite called_call. unfold waiting at 1. cbn. rewrite <- Ha, <- app_assoc. cbn.
    apply Permutation_app; [done|]. apply (waiting_delete inbox r t Hr).
Qed.

Lemma open_retime w n cbs t inbox r id :
  open w n cbs t -> pending t !! inbox = Some r ->
  open w n cbs (set_pending (<[inbox := mkRequest (callback r) id]> (pending t)) t).
Proof.
  intros [Hk Hs Ha] Hr. split.
  - intros i x. cbn. destruct (decide (i = inbox)) as [->|Hne].
    + intros _. by eapply Hk.
    + rewrite lookup_insert_ne by done. apply Hk.
  - done.
  - rewrite <- Ha. apply Permutation_app; [done|]. unfold waiting at 1. cbn.
    rewrite <- insert_delete_eq, map_to_list_insert by apply lookup_delete_eq.
    apply (waiting_delete inbox r t Hr).
Qed.

Lemma open_request w a cb n cbs t :
  in_u 32 w -> Z.of_nat (S n) < 2 ^ 64 -> open w n cbs t ->
  open w (S n) (cbs ++ [cb]) (AsyncRequest w a cb t).
Proof.
  intros Hw Hn H. pose proof H as [Hk Hs Ha]. unfold AsyncRequest.
  destruct (connected a); cbn [negb].
  2:{ split; [exact Hk|cbn; lia|]. rewrite called_call, <- Ha, <- !app_assoc.
      apply Permutation_app; [done|]. apply Permutation_app_comm. }
  cbn [GenInbox]. set (inbox := inbox_name w (inbox_seq t)).
  assert (u64 (inbox_seq t + 1) = inbox_seq t + 1) as E by (apply wrapu_small; unfold in_u; lia). rewrite E.
  set (t1 := mkTls (subs t) (pending t) (inbox_seq t + 1) (log t)).
  assert (open w (S n) cbs t1) as H1.
  { split; [|cbn; lia|exact Ha]. intros i r Hr. destruct (Hk i r Hr) as (s & Hs' & ->). exists s. split; [|done].
    cbn. lia. }
  destruct (sub_ok a); cbn [negb].
  2:{ destruct H1 as [Hk1 Hs1 Ha1]. split; [exact Hk1|exact Hs1|]. rewrite called_call, <- Ha1, <- !app_assoc.
      apply Permutation_app; [done|]. apply Permutation_app_comm. }
  assert (pending t1 !! inbox = None) as Hnew.
  { destruct (pending t1 !! inbox) as [r|] eqn:Hr; [|done]. destruct (Hk _ _ Hr) as (s & Hs' & Ei).
    apply inbox_name_inj in Ei as [_ Ei]; unfold in_u in *; lia. }
  set (t2 := set_pending (<[inbox := mkRequest cb (-1)]> (pending t1)) t1).
  assert (pending t2 !! inbox = Some (mkRequest cb (-1))) as Hr2 by (cbn; apply lookup_insert_eq).
  assert (open w (S n) (cbs ++ [cb]) t2) as H2.
  { destruct H1 as [Hk1 Hs1 Ha1]. split.
    - intros i r. cbn. destruct (decide (i = inbox)) as [->|Hne].
      + intros _. exists (inbox_seq t). split; [lia|done].
      + rewrite lookup_insert_ne by done. apply Hk1.
    - exact Hs1.
    - unfold t2. rewrite (waiting_insert inbox _ t1 Hnew). cbn [callback].
      change (called (set_pending ?m ?t)) with (called t). rewrite <- Permutation_middle, Ha1.
      apply Permutation_cons_append. }
  clearbody t2. rewrite Hr2. destruct (pub_ok a); cbn [negb].
  - destruct (timer a) as [id|]; [|done]. by apply open_retime.
  - by apply open_answer.
Qed.

Lemma open_step w e n cbs t :
  in_u 32 w -> Z.of_nat (S n) < 2 ^ 64 -> open w n cbs t -> open w (S n) (cbs ++ issued e) (step w t e).
Proof.
  intros Hw Hn H. destruct e as [a cb|inbox|inbox payload|c ok subject h]; cbn [issued step].
  - by apply open_request.
  - rewrite app_nil_r. unfold on_timeout. assert (open w (S n) cbs t) as H' by (destruct H; split; [done|lia|done]).
    destruct (pending t !! inbox) eqn:E; [|done]. by apply open_answer.
  - rewrite app_nil_r. unfold on_inbox. assert (open w (S n) cbs t) as H' by (destruct H; split; [done|lia|done]).
    destruct (pending t !! inbox) eqn:E; [|done]. destruct (split_payload payload). by apply open_answer.
  - rewrite app_nil_r. assert (open w (S n) cbs t) as H' by (destruct H; split; [done|lia|done]).
    unfold Subscribe. destruct c; cbn [negb]; [|done]. destruct H'. by destruct ok; split.
Qed.

(** Every request of a worker is answered at most once.  In any order of requests,
    timeouts, replies and subscriptions, whatever NATS answers, the callbacks called so far
    and those still pending are together exactly the callbacks of the requests made: none is
    lost and none is called twice, also when a reply and the timeout both arrive. *)
Theorem requests_answered_once w es :
  in_u 32 w -> Z.of_nat (length es) < 2 ^ 64 ->
  let t := run w es tls_init in
  called t ++ waiting t ≡ₚ mjoin (issued <$> es).
Proof.
  intros Hw Hes. cbn zeta.
  enough (forall n cbs t, Z.of_nat (n + length es) < 2 ^ 64 -> open w n cbs t ->
    open w (n + length es) (cbs ++ mjoin (issued <$> es)) (run w es t)) as H.
  { apply (H 0%nat [] tls_init); [done|]. split; cbn; [|lia|].
    - by intros inbox r ?%lookup_empty_Some.
    - unfold waiting. cbn. by rewrite map_to_list_empty. }
  clear Hes. induction es as [|e es IH]; intros n cbs t Hn H; cbn in *.
  - by rewrite Nat.add_0_r, app_nil_r.
  - rewrite app_assoc, <- Nat.add_succ_comm. apply IH; [lia|]. apply open_step; [done|lia|done].
Qed.

Lemma requests_answered_once_witness :
  let ok := mkAnswers true true true (Some 5) in
  let es := [ERequest ok 1; ERequest (mkAnswers true true false None) 2; ERequest ok 3;
             EReply (inbox_name 4 0) []; ETimeout (inbox_name 4 0)] in
  called (run 4 es tls_init) ++ waiting (run 4 es tls_init) ≡ₚ [1%nat; 2%nat; 3%nat].
Proof. intros ok es. apply (requests_answered_once 4 es); [unfold in_u; lia|cbn; lia]. Defined.

Example inbox_example : ParseInboxWorkerIndex (inbox_name 4294967295 18446744073709551615) = Some 4294967295.
Proof. vm_compute. reflexivity. Qed.

End Nats.
