(* ===== verification/NatsNet.v ===== *)
(** * NatsNet: servers that talk over NATS ([src/network/nats/nats_manager.cpp],
    [nats_manager.h], [register_nats.cpp])

    The manager of each process: its connection, publishing, replying and the callbacks of the
    NATS library; the typed wrappers; the functions of scripts; and a network of processes
    around one NATS server.  What one worker keeps and does is in [Nats.v].  [covers p s] tells
    whether the NATS server delivers subject [s] to a subscription of [p]; it is a parameter.
    Worker [w] of process [p] is [(p, w)]. *)

From S2P Require Import Prelude Decimal Session Msgpack MsgUnpack MsgLua Nats.
Import Session Msgpack MsgUnpack Nats.

Module NatsNet.

(** ** The connection of a process *)

(** [opts_] and [conn_]: whether the pointers are set; [sub_ctxs_]: the worker index of each
    subscription context. *)
Record manager := mkManager { connected_ : bool; conn_ : bool; opts_ : bool; sub_ctxs_ : list Z }.

Definition manager_init : manager := mkManager false false false [].

(** What the library answers to the three calls of [Connect]. *)
Record connect_answers := mkConnect { create_ok : bool; url_ok : bool; connect_ok : bool }.

Definition Connect (a : connect_answers) (m : manager) : Z * manager :=
  if connected_ m then (0, m)
  else if negb (create_ok a) then (-1, m)
  else if negb (url_ok a) then (-1, mkManager false (conn_ m) false (sub_ctxs_ m))
  else if negb (connect_ok a) then (-1, mkManager false false false (sub_ctxs_ m))
  else (0, mkManager true true true (sub_ctxs_ m)).

Definition Disconnect (m : manager) : manager :=
  if negb (connected_ m) then m else mkManager false false false [].

Definition IsConnected (m : manager) : bool := connected_ m.

(** ** Publishing

    The message given to the library: subject, reply subject (empty for none) and payload. *)
Record message := mkMessage { m_subject : list Z; m_reply : list Z; m_payload : list Z }.

Definition Publish (m : manager) (subject : list Z) (meta : Meta) (data : list Z) : option message :=
  if negb (connected_ m) then None else Some (mkMessage subject [] (BuildPayload meta data)).

(** [serialized]: what [SerializeToString] gives for a protobuf message. *)
Definition Publish_proto (m : manager) (subject : list Z) (meta : Meta) (serialized : option (list Z)) : option message :=
  if negb (connected_ m) then None
  else proto_data ← serialized; Some (mkMessage subject [] (BuildPayload meta proto_data)).

Definition Publish_args (m : manager) (subject : list Z) (meta : Meta) (args : list (ty * value)) : option message :=
  Publish m subject meta (pack args).

Definition Reply (m : manager) (reply_to : list Z) (meta : Meta) (data : list Z) : option message :=
  if negb (connected_ m) then None else Some (mkMessage reply_to [] (BuildPayload meta data)).

Definition Reply_proto (m : manager) (reply_to : list Z) (meta : Meta) (serialized : option (list Z)) : option message :=
  if negb (connected_ m) then None
  else proto_data ← serialized; Some (mkMessage reply_to [] (BuildPayload meta proto_data)).

Definition Reply_args (m : manager) (reply_to : list Z) (meta : Meta) (args : list (ty * value)) : option message :=
  Reply m reply_to meta (pack args).

(** ** Requests

    A coroutine that waits in [RequestRaw] is a number, as a callback is: its promise gets what
    the callback of [AsyncRequest] would get.  The message that goes out, if any, has the inbox
    as reply subject. *)
Definition request_message (worker_index : Z) (a : answers) (subject : list Z) (meta : Meta) (data : list Z) (t : tls) : option message :=
  if connected a && sub_ok a && pub_ok a then
    Some (mkMessage subject (fst (GenInbox worker_index t)) (BuildPayload meta data))
  else None.

(** [RequestRaw] up to its [co_await]: the early returns give their result to the caller. *)
Definition RequestRaw (worker_index : Z) (a : answers) (promise : nat) (t : tls) : tls :=
  if negb (connected a) then call promise Disconnected [] t
  else
    let '(inbox, t) := GenInbox worker_index t in
    if negb (sub_ok a) then call promise SubscribeFailed [] t
    else
      let t := set_pending (<[inbox := mkRequest promise (-1)]> (pending t)) t in
      if negb (pub_ok a) then
        call promise RequestFailed []
          (match pending t !! inbox with Some _ => set_pending (delete inbox (pending t)) t | None => t end)
      else
        match timer a with
        | None => t
        | Some id =>
            match pending t !! inbox with
            | Some r => set_pending (<[inbox := mkRequest (callback r) id]> (pending t)) t
            | None => t
            end
        end.

(** The two forms of a request differ in nothing else. *)
Lemma RequestRaw_AsyncRequest i a promise t : RequestRaw i a promise t = AsyncRequest i a promise t.
Proof.
  unfold RequestRaw, AsyncRequest. destruct (connected a); cbn [negb]; [|done]. destruct (GenInbox i t) as [inbox t'].
  destruct (sub_ok a); cbn [negb]; [|done]. destruct (pub_ok a); cbn [negb]; [done|].
  cbn [pending set_pending]. by rewrite lookup_insert_eq.
Qed.

(** ** Typed results *)

Record NatsResult (T : Type) := mkResult { error_code : NatsError; result : T }.
#[global] Arguments mkResult {T} _ _.
#[global] Arguments error_code {T} _.
#[global] Arguments result {T} _.

(** The value of a type before it is unpacked. *)
Definition default_value (t : ty) : value :=
  match t with
  | TyInt _ => VInt 0
  | TyBool => VBool false
  | TyNil => VNil
  | TyString => VStr []
  | TyBin => VBin []
  | TyVector _ => VArray []
  | TyMap _ _ => VMap []
  end.

(** [std::get<0>(unpack<T>(body))]: the error code of the unpacker is dropped. *)
Definition first_value (max_size : Z) (t : ty) (body : list Z) : option value :=
  '(l, _) ← unpack max_size [t] body; match l with v :: _ => Some v | [] => None end.

(** What the handler of [Subscribe<T>] and the caller of [Request<T>] get. *)
Definition typed_handler (max_size : Z) (t : ty) (body : list Z) : option (NatsResult value) :=
  v ← first_value max_size t body; Some (mkResult OK v).

Definition typed_request (max_size : Z) (t : ty) (raw : NatsResult (list Z)) : option (NatsResult value) :=
  match error_code raw with
  | OK => v ← first_value max_size t (result raw); Some (mkResult OK v)
  | e => Some (mkResult e (default_value t))
  end.

(** With protobuf messages; [parse] is [ParseFromArray], [empty] the message before it. *)
Section Proto.
Context {msg : Type} (parse : list Z -> option msg) (empty : msg).

Definition proto_handler (body : list Z) : NatsResult msg :=
  match parse body with Some m => mkResult OK m | None => mkResult RequestFailed empty end.

Definition proto_request (raw : NatsResult (list Z)) : NatsResult msg :=
  match error_code raw with
  | OK => match parse (result raw) with Some m => mkResult OK m | None => mkResult RequestFailed empty end
  | e => mkResult e empty
  end.
End Proto.

(** ** The network *)

Inductive kind := Persistent (worker_index : Z) | Inbox.

Record subscription := mkSub { s_proc : nat; s_subject : list Z; s_kind : kind }.

(** A delivery on the way to a process, and a task in the queue of a worker. *)
Record delivery := mkDelivery { d_proc : nat; d_kind : kind; d_subject : option (list Z); d_payload : list Z; d_reply : list Z }.

Inductive task := TMessage (subject payload reply_to : list Z) | TInbox (inbox payload : list Z).

Record worker := mkWorker { w_tls : tls; w_queue : list task }.
Record process := mkProcess { p_mgr : manager; p_workers : list worker }.

(** What happened: the calls of handlers with meta, body and reply subject; the requests with
    process, worker, callback and inbox; the published subjects and payloads. *)
Record history := mkHistory {
  handled : list (nat * nat * Meta * list Z * list Z);
  requests : list (nat * nat * nat * list Z);
  published : list (list Z * list Z) }.

Record network := mkNetwork {
  procs : list process;
  broker : list subscription;
  wire : list delivery;
  past : history }.

Definition set_procs (ps : list process) (n : network) : network := mkNetwork ps (broker n) (wire n) (past n).
Definition set_broker (b : list subscription) (n : network) : network := mkNetwork (procs n) b (wire n) (past n).
Definition set_wire (d : list delivery) (n : network) : network := mkNetwork (procs n) (broker n) d (past n).

Definition log_handled (x : nat * nat * Meta * list Z * list Z) (n : network) : network :=
  mkNetwork (procs n) (broker n) (wire n) (mkHistory (handled (past n) ++ [x]) (requests (past n)) (published (past n))).
Definition log_request (x : nat * nat * nat * list Z) (n : network) : network :=
  mkNetwork (procs n) (broker n) (wire n) (mkHistory (handled (past n)) (requests (past n) ++ [x]) (published (past n))).
Definition log_published (x : list Z * list Z) (n : network) : network :=
  mkNetwork (procs n) (broker n) (wire n) (mkHistory (handled (past n)) (requests (past n)) (published (past n) ++ [x])).

Definition worker_at (p w : nat) (n : network) : option worker := x ← procs n !! p; p_workers x !! w.

Definition set_worker (p w : nat) (x : worker) (n : network) : network :=
  match procs n !! p with
  | Some q => set_procs (<[p := mkProcess (p_mgr q) (<[w := x]> (p_workers q))]> (procs n)) n
  | None => n
  end.

Definition set_manager (p : nat) (m : manager) (n : network) : network :=
  match procs n !! p with
  | Some q => set_procs (<[p := mkProcess m (p_workers q)]> (procs n)) n
  | None => n
  end.

(** ** Callbacks of the library *)

(** [WorkerManager::PostToWorker]: nothing happens for an index without a worker. *)
Definition PostToWorker (p : nat) (index : Z) (t : task) (n : network) : network :=
  match worker_at p (Z.to_nat index) n with
  | Some x => set_worker p (Z.to_nat index) (mkWorker (w_tls x) (w_queue x ++ [t])) n
  | None => n
  end.

Definition OnNatsSubMsg (p : nat) (worker_index : Z) (subject : option (list Z)) (payload reply_to : list Z) (n : network) : network :=
  match subject with
  | None => n
  | Some subject => PostToWorker p worker_index (TMessage subject payload reply_to) n
  end.

(** [None]: [std::stoul] throws in a callback of the library. *)
Definition OnNatsInboxMsg (p : nat) (subject : option (list Z)) (payload : list Z) (n : network) : option network :=
  match subject with
  | None => Some n
  | Some inbox => i ← ParseInboxWorkerIndex inbox; Some (PostToWorker p i (TInbox inbox payload) n)
  end.

(** A worker runs a task. *)
Definition run_task (p w : nat) (t : task) (x : worker) (rest : list task) (n : network) : network :=
  match t with
  | TMessage subject payload reply_to =>
      let n := set_worker p w (mkWorker (w_tls x) rest) n in
      match on_message subject payload (w_tls x) with
      | Some (h, meta, body) => log_handled (p, h, meta, body, reply_to) n
      | None => n
      end
  | TInbox inbox payload => set_worker p w (mkWorker (snd (on_inbox inbox payload (w_tls x))) rest) n
  end.

Section Broker.
Context (covers : list Z -> list Z -> bool).

(** The NATS server gets a message: a delivery for each subscription that covers the subject;
    one for an inbox is gone after its first message. *)
Definition delivery_of (m : message) (s : subscription) : delivery :=
  mkDelivery (s_proc s) (s_kind s) (Some (m_subject m)) (m_payload m) (m_reply m).

Definition covered (m : message) (s : subscription) : bool := covers (s_subject s) (m_subject m).

Definition used_up (m : message) (s : subscription) : bool :=
  match s_kind s with Inbox => covered m s | Persistent _ => false end.

Definition broker_publish (m : option message) (n : network) : network :=
  match m with
  | None => n
  | Some m =>
      log_published (m_subject m, m_payload m)
        (set_broker (List.filter (fun s => negb (used_up m s)) (broker n))
          (set_wire (wire n ++ List.map (delivery_of m) (List.filter (covered m) (broker n))) n))
  end.

Definition broker_subscribe (s : subscription) (n : network) : network := set_broker (broker n ++ [s]) n.

(** An inbox subscription is destroyed. *)
Definition is_inbox (p : nat) (inbox : list Z) (s : subscription) : bool :=
  match s_kind s with Inbox => Nat.eqb (s_proc s) p && bool_decide (s_subject s = inbox) | Persistent _ => false end.

Definition broker_unsubscribe (p : nat) (inbox : list Z) (n : network) : network :=
  set_broker (List.filter (fun s => negb (is_inbox p inbox s)) (broker n)) n.

(** The server forgets a process; its deliveries are dropped. *)
Definition broker_drop (p : nat) (n : network) : network :=
  set_broker (List.filter (fun s => negb (Nat.eqb (s_proc s) p)) (broker n))
    (set_wire (List.filter (fun d => negb (Nat.eqb (d_proc d) p)) (wire n)) n).

(** What the library answers to a request of a process that is connected or not. *)
Definition answers_for (m : manager) (sub pub : bool) (timer : option Z) : answers := mkAnswers (connected_ m) sub pub timer.

Inductive event :=
  | EConnect (p : nat) (a : connect_answers)
  | EDisconnect (p : nat)
  | ESubscribe (p w : nat) (subject : list Z) (h : nat) (ok : bool)
  | ERequest (p w : nat) (subject : list Z) (meta : Meta) (data : list Z) (cb : nat) (sub pub : bool) (timer : option Z)
  | EPublish (p : nat) (subject : list Z) (meta : Meta) (data : list Z)
  | EReply (p : nat) (reply_to : list Z) (meta : Meta) (data : list Z)
  | ETimeout (p w : nat) (inbox : list Z)
  | EDeliver (i : nat)
  | ERun (p w : nat).

Definition manager_at (p : nat) (n : network) : option manager := x ← procs n !! p; Some (p_mgr x).

Definition set_tls (p w : nat) (x : worker) (t : tls) (n : network) : network := set_worker p w (mkWorker t (w_queue x)) n.

(** [Subscribe] on worker [w] keeps a context with the index of the worker. *)
Definition subscribe_step (p w : nat) (subject : list Z) (h : nat) (ok : bool) (m : manager) (x : worker) (n : network) : network :=
  let n := set_tls p w x (Subscribe (connected_ m) ok subject h (w_tls x)) n in
  if connected_ m && ok then
    broker_subscribe (mkSub p subject (Persistent (Z.of_nat w)))
      (set_manager p (mkManager (connected_ m) (conn_ m) (opts_ m) (sub_ctxs_ m ++ [Z.of_nat w])) n)
  else n.

(** [AsyncRequest] or [RequestRaw] on worker [w]: the inbox subscription of a request that could
    not be published is destroyed at once. *)
Definition request_step (p w : nat) (subject : list Z) (meta : Meta) (data : list Z) (cb : nat) (a : answers) (x : worker) (n : network) : network :=
  let i := Z.of_nat w in
  let n := set_tls p w x (AsyncRequest i a cb (w_tls x)) n in
  let n := if connected a && sub_ok a then log_request (p, w, cb, fst (GenInbox i (w_tls x))) n else n in
  match request_message i a subject meta data (w_tls x) with
  | Some m => broker_publish (Some m) (broker_subscribe (mkSub p (m_reply m) Inbox) n)
  | None => n
  end.

(** The timer of a request; its inbox subscription is destroyed. *)
Definition timeout_step (p w : nat) (inbox : list Z) (x : worker) (n : network) : network :=
  let n := set_tls p w x (on_timeout inbox (w_tls x)) n in
  match pending (w_tls x) !! inbox with Some _ => broker_unsubscribe p inbox n | None => n end.

Definition step (e : event) (n : network) : option network :=
  match e with
  | EConnect p a => m ← manager_at p n; Some (set_manager p (snd (Connect a m)) n)
  | EDisconnect p => m ← manager_at p n; Some (if connected_ m then broker_drop p (set_manager p (Disconnect m) n) else n)
  | ESubscribe p w subject h ok => m ← manager_at p n; x ← worker_at p w n; Some (subscribe_step p w subject h ok m x n)
  | ERequest p w subject meta data cb sub pub timer =>
      m ← manager_at p n; x ← worker_at p w n;
      Some (request_step p w subject meta data cb (answers_for m sub pub timer) x n)
  | EPublish p subject meta data => m ← manager_at p n; Some (broker_publish (Publish m subject meta data) n)
  | EReply p reply_to meta data => m ← manager_at p n; Some (broker_publish (Reply m reply_to meta data) n)
  | ETimeout p w inbox => x ← worker_at p w n; Some (timeout_step p w inbox x n)
  | EDeliver i =>
      d ← wire n !! i;
      let n := set_wire (delete i (wire n)) n in
      match d_kind d with
      | Persistent index => Some (OnNatsSubMsg (d_proc d) index (d_subject d) (d_payload d) (d_reply d) n)
      | Inbox => OnNatsInboxMsg (d_proc d) (d_subject d) (d_payload d) n
      end
  | ERun p w =>
      x ← worker_at p w n;
      match w_queue x with
      | t :: rest => Some (run_task p w t x rest n)
      | [] => None
      end
  end.

Abbreviation exec := (run_steps step).

End Broker.

(** ** Scripts *)

(** The [Meta] of a script is the table of bytes that [BuildMeta] gave it. *)
Definition meta_of_bytes (b : list Z) : Meta :=
  if (meta_bytes <=? length b)%nat then decode_meta (take meta_bytes b) else default_meta.

Definition lua_Publish_raw (m : manager) (subject meta data : list Z) : option message :=
  Publish m subject (meta_of_bytes meta) data.
Definition lua_Publish_proto (m : manager) (subject meta : list Z) (serialized : option (list Z)) : option message :=
  Publish_proto m subject (meta_of_bytes meta) serialized.
Definition lua_Publish_args (m : manager) (subject meta : list Z) (args : list lua) : option message :=
  data ← MsgLua.pack_lua args; Publish m subject (meta_of_bytes meta) data.

Definition lua_Reply_raw (m : manager) (reply_to meta data : list Z) : option message :=
  Reply m reply_to (meta_of_bytes meta) data.
Definition lua_Reply_proto (m : manager) (reply_to meta : list Z) (serialized : option (list Z)) : option message :=
  Reply_proto m reply_to (meta_of_bytes meta) serialized.
Definition lua_Reply_args (m : manager) (reply_to meta : list Z) (args : list lua) : option message :=
  data ← MsgLua.pack_lua args; Reply m reply_to (meta_of_bytes meta) data.

(** The first argument of a handler of a script. *)
Definition meta_tbl (m : Meta) : list (list Z * Z) :=
  [(text "mode", mode m); (text "user_unique_id", user_unique_id m); (text "type", type m);
   (text "method", method m); (text "sequence", sequence m); (text "compress_type", compress_type m)].

(** The second one: the body, its values, or a protobuf message ([None] when it is not parsed). *)
Inductive lua_body := BRaw (s : list Z) | BValues (l : list lua) | BProto (serialized : option (list Z)).

Inductive sub_mode := SubRaw | SubMsgpack | SubProto.

(** [unpack_values]: the values that the unpacker pushes for a body; [parses]: whether the
    message type is known and the body is one of it. *)
Definition lua_Subscribe (mode : sub_mode) (unpack_values : list Z -> list lua) (parses : list Z -> bool)
    (meta : Meta) (body reply_to : list Z) : list (list Z * Z) * lua_body * list Z :=
  (meta_tbl meta,
   match mode with
   | SubRaw => BRaw body
   | SubMsgpack => BValues (unpack_values body)
   | SubProto => BProto (if parses body then Some body else None)
   end, reply_to).

(** Arguments of a call: values and the script's function. *)
Inductive lua_arg := Val (v : lua) | Fn (f : nat).

(** What the script's function is called with for the answer to a request. *)
Definition lua_callback (ec : NatsError) (body : list Z) : list lua :=
  match ec with OK => [LString []; LString body] | _ => [LString (text "nats request failed"); LNil] end.

(** A request of a script: its function, its timeout in milliseconds and the body sent. *)
Record lua_request := mkLua { l_callback : nat; l_timeout : Z; l_data : list Z }.

(** [AsyncRequest(subject, meta_bytes, data_str, callback, timeout_ms?)]: the arguments after
    the first two, as their types are checked. *)
Definition lua_AsyncRequest (args : list lua_arg) : option lua_request :=
  match args with
  | [Val (LString data); Fn f] => Some (mkLua f 5000 data)
  | [Val (LString data); Fn f; Val (LInteger ms)] => Some (mkLua f (i32 ms) data)
  | _ => None
  end.

(** The last argument is the function, a number before it the timeout. *)
Definition take_callback (argv : list lua_arg) : option (nat * list lua_arg) :=
  match last argv with Some (Fn f) => Some (f, removelast argv) | _ => None end.

Definition take_timeout (argv : list lua_arg) : Z * list lua_arg :=
  match last argv with Some (Val (LInteger ms)) => (i32 ms, removelast argv) | _ => (5000, argv) end.

(** [pack_type] of a [sol::table], which is no type it knows: nothing is written. *)
Definition pack_sol_table (values : list lua_arg) : list Z := [].

Definition lua_AsyncRequestMsgpack (args : list lua_arg) : option lua_request :=
  '(f, argv) ← take_callback args;
  let '(timeout_ms, argv) := take_timeout argv in
  lua_AsyncRequest ([Val (LString (pack_sol_table argv)); Fn f] ++ [Val (LInteger timeout_ms)]).

(** The function is called at once with an error, or the request is made. *)
Inductive lua_proto := Refused (f : nat) (args : list lua) | Requested (r : lua_request).

(** [request]: the serialized message; [None] if the object is none. *)
Definition lua_AsyncRequestProto (request : option (option (list Z))) (args : list lua_arg) : option lua_proto :=
  '(f, argv) ← take_callback args;
  let '(timeout_ms, argv) := take_timeout argv in
  match request with
  | None => Some (Refused f [LString (text "invalid protobuf request"); LNil])
  | Some None => Some (Refused f [LString (text "protobuf serialize failed"); LNil])
  | Some (Some data) => Some (Requested (mkLua f timeout_ms data))
  end.

(** What the script's function gets: the object [create_msg] made, filled from the body. *)
Definition lua_proto_callback (has_create_msg : bool) (parsed : option lua) (ec : NatsError) : list lua :=
  match ec with
  | OK => if negb has_create_msg then [LString (text "create_msg not found"); LNil]
          else match parsed with
               | Some rsp => [LString []; rsp]
               | None => [LString (text "protobuf parse failed"); LNil]
               end
  | _ => [LString (text "nats request failed"); LNil]
  end.

(** [nats.Await]: the resuming function is put behind the arguments of the caller. *)
Definition await_args (args : list lua_arg) (cb : nat) : list lua_arg := args ++ [Fn cb].

(** ** Where the workers are *)

Lemma worker_at_set p w x n p' w' :
  worker_at p' w' (set_worker p w x n) =
  if decide (p = p' /\ w = w') then (_ ← worker_at p w n; Some x) else worker_at p' w' n.
Proof.
  unfold worker_at, set_worker. destruct (procs n !! p) as [q|] eqn:Eq; cbn [procs set_procs].
  - destruct (decide (p = p')) as [<-|Hp].
    + rewrite list_lookup_insert, decide_True by (split; [done|by eapply lookup_lt_Some]).
      cbn [mbind option_bind p_workers]. rewrite Eq. cbn [mbind option_bind]. destruct (decide (w = w')) as [<-|Hw].
      * rewrite decide_True by done. destruct (p_workers q !! w) eqn:Ew.
        -- rewrite list_lookup_insert, decide_True by (split; [done|by eapply lookup_lt_Some]). done.
        -- rewrite list_lookup_insert, decide_False; [done|]. intros [_ H]. apply lookup_ge_None in Ew. lia.
      * rewrite list_lookup_insert_ne by done. rewrite decide_False by naive_solver. done.
    + rewrite list_lookup_insert_ne by done. rewrite decide_False by naive_solver. done.
  - case_decide as H; [|done]. destruct H as [-> ->]. by rewrite Eq.
Qed.

Lemma worker_at_manager p m n p' w' : worker_at p' w' (set_manager p m n) = worker_at p' w' n.
Proof.
  unfold worker_at, set_manager. destruct (procs n !! p) as [q|] eqn:Eq; cbn [procs set_procs]; [|done].
  destruct (decide (p = p')) as [<-|Hp]; [|by rewrite list_lookup_insert_ne].
  rewrite list_lookup_insert, decide_True by (split; [done|by eapply lookup_lt_Some]). by rewrite Eq.
Qed.

Lemma past_set_worker p w x n : past (set_worker p w x n) = past n.
Proof. unfold set_worker. by destruct (procs n !! p). Qed.
Lemma past_set_manager p m n : past (set_manager p m n) = past n.
Proof. unfold set_manager. by destruct (procs n !! p). Qed.
Lemma wire_set_worker p w x n : wire (set_worker p w x n) = wire n.
Proof. unfold set_worker. by destruct (procs n !! p). Qed.
Lemma wire_set_manager p m n : wire (set_manager p m n) = wire n.
Proof. unfold set_manager. by destruct (procs n !! p). Qed.

(** ** Answers come from the inbox of their request *)

(** What the pending table and the log of a worker say, against the history. *)
Record good_tls (h : history) (p w : nat) (t : tls) : Prop := {
  gt_pending i r : pending t !! i = Some r -> (p, w, callback r, i) ∈ requests h;
  gt_log cb body : (cb, OK, body) ∈ log t ->
    exists i payload, (p, w, cb, i) ∈ requests h /\ (i, payload) ∈ published h /\ body = snd (split_payload payload) }.

Definition good_queue (h : history) (q : list task) : Prop :=
  forall i payload, TInbox i payload ∈ q -> (i, payload) ∈ published h.

Definition extends (h h' : history) : Prop := requests h ⊆ requests h' /\ published h ⊆ published h'.

Lemma good_tls_extends h h' p w t : extends h h' -> good_tls h p w t -> good_tls h' p w t.
Proof.
  intros [Hr Hp] [H1 H2]. split.
  - intros i r H. by apply Hr, H1.
  - intros cb body H. destruct (H2 cb body H) as (i & payload & ? & ? & ?). exists i, payload. eauto.
Qed.

Lemma good_tls_call h p w t cb e body : e <> OK -> good_tls h p w t -> good_tls h p w (call cb e body t).
Proof.
  intros He [H1 H2]. split; [exact H1|]. intros cb' body'. cbn. rewrite elem_of_app, list_elem_of_singleton.
  intros [H|[= -> Hbad ->]]; [by apply H2|]. by rewrite Hbad in He.
Qed.

Lemma good_tls_delete h p w t i : good_tls h p w t -> good_tls h p w (set_pending (delete i (pending t)) t).
Proof.
  intros [H1 H2]. split; [|exact H2]. intros i' r. cbn. intros [_ H]%lookup_delete_Some. by apply H1.
Qed.

Lemma good_tls_insert h p w t i r : (p, w, callback r, i) ∈ requests h -> good_tls h p w t ->
  good_tls h p w (set_pending (<[i := r]> (pending t)) t).
Proof.
  intros Hr [H1 H2]. split; [|exact H2]. intros i' r'. cbn. intros [[<- <-]|[_ H]]%lookup_insert_Some; [done|by apply H1].
Qed.

Lemma good_on_timeout h p w t i : good_tls h p w t -> good_tls h p w (on_timeout i t).
Proof. intros H. unfold on_timeout. destruct (pending t !! i); [|done]. by apply good_tls_call, good_tls_delete. Qed.

Lemma good_on_inbox h p w t i payload : (i, payload) ∈ published h -> good_tls h p w t ->
  good_tls h p w (snd (on_inbox i payload t)).
Proof.
  intros Hp Ht. unfold on_inbox. destruct (pending t !! i) as [r|] eqn:Er; [|done].
  destruct (split_payload payload) as [meta body] eqn:Es. cbn [snd].
  pose proof (gt_pending _ _ _ _ Ht _ _ Er) as Hr. destruct (good_tls_delete h p w t i Ht) as [H1 H2].
  split; [exact H1|]. intros cb body'. cbn. rewrite elem_of_app, list_elem_of_singleton.
  intros [H|[= -> ->]]; [by apply H2|]. exists i, payload. by rewrite Es.
Qed.

Lemma good_Subscribe h p w t c ok subject f : good_tls h p w t -> good_tls h p w (Subscribe c ok subject f t).
Proof. intros [H1 H2]. unfold Subscribe. destruct c; cbn [negb]; [|done]. by destruct ok. Qed.

(** The worker's table after a request, and the number of its next inbox. *)
Lemma good_AsyncRequest h p w t a cb :
  (connected a && sub_ok a = true -> (p, w, cb, fst (GenInbox (Z.of_nat w) t)) ∈ requests h) ->
  good_tls h p w t -> good_tls h p w (AsyncRequest (Z.of_nat w) a cb t).
Proof.
  intros Hreq Ht. unfold AsyncRequest. destruct (connected a); cbn [negb andb] in *; [|by apply good_tls_call].
  cbn [GenInbox fst] in *. set (i := inbox_name _ _) in *.
  set (t1 := mkTls (subs t) (pending t) (u64 (inbox_seq t + 1)) (log t)).
  assert (good_tls h p w t1) as H1 by (destruct Ht; by split).
  destruct (sub_ok a); cbn [negb] in *; [|by apply good_tls_call]. specialize (Hreq eq_refl).
  set (t2 := set_pending _ t1). assert (good_tls h p w t2) as H2 by by apply good_tls_insert.
  assert (pending t2 !! i = Some (mkRequest cb (-1))) as E by (cbn; apply lookup_insert_eq). clearbody t2. rewrite E.
  destruct (pub_ok a); cbn [negb].
  - destruct (timer a); [|done]. by apply good_tls_insert.
  - by apply good_tls_call, good_tls_delete.
Qed.

Lemma seq_AsyncRequest i a cb t : in_u 64 (inbox_seq t + 1) ->
  inbox_seq (AsyncRequest i a cb t) = if connected a then inbox_seq t + 1 else inbox_seq t.
Proof.
  intros Hs. unfold AsyncRequest. destruct (connected a); cbn [negb]; [|done]. cbn [GenInbox].
  rewrite wrapu_small by done. destruct (sub_ok a); cbn [negb]; [|done]. cbn [pending set_pending].
  rewrite lookup_insert_eq. destruct (pub_ok a); cbn [negb]; [|done]. by destruct (timer a).
Qed.

Lemma seq_others i payload t c ok subject f :
  inbox_seq (on_timeout i t) = inbox_seq t /\ inbox_seq (snd (on_inbox i payload t)) = inbox_seq t /\
  inbox_seq (Subscribe c ok subject f t) = inbox_seq t.
Proof.
  splits.
  - unfold on_timeout. by destruct (pending t !! i).
  - unfold on_inbox. destruct (pending t !! i); [|done]. by destruct (split_payload payload).
  - unfold Subscribe. destruct c, ok; done.
Qed.

(** The invariant of the network after at most [k] steps. *)
Record good (k : nat) (n : network) : Prop := {
  g_index p w x : worker_at p w n = Some x -> Z.of_nat w < 2 ^ 32;
  g_tls p w x : worker_at p w n = Some x -> good_tls (past n) p w (w_tls x);
  g_queue p w x : worker_at p w n = Some x -> good_queue (past n) (w_queue x);
  g_seq p w x : worker_at p w n = Some x -> 0 <= inbox_seq (w_tls x) <= Z.of_nat k;
  g_wire d : d ∈ wire n -> exists s, d_subject d = Some s /\ (s, d_payload d) ∈ published (past n);
  g_reqs p w cb i : (p, w, cb, i) ∈ requests (past n) ->
    exists x s, worker_at p w n = Some x /\ 0 <= s < inbox_seq (w_tls x) /\ i = inbox_name (Z.of_nat w) s;
  g_unique : NoDup (List.map (fun '(p, _, _, i) => (p, i)) (requests (past n))) }.

Definition wire_grows (n n' : network) : Prop :=
  forall d, d ∈ wire n' -> d ∈ wire n \/ exists s, d_subject d = Some s /\ (s, d_payload d) ∈ published (past n').

Lemma good_idle k n n' :
  good k n -> (forall p w, worker_at p w n' = worker_at p w n) -> requests (past n') = requests (past n) ->
  published (past n) ⊆ published (past n') -> wire_grows n n' -> good (S k) n'.
Proof.
  intros [H1 H2 H3 H4 H5 H6 H7] Hw Hr Hp Hd.
  assert (extends (past n) (past n')) as He by (split; [by rewrite Hr|done]). split.
  - intros p w x. rewrite Hw. apply H1.
  - intros p w x. rewrite Hw. intros E. by eapply good_tls_extends, H2.
  - intros p w x. rewrite Hw. intros E i payload H. by apply Hp, (H3 _ _ _ E).
  - intros p w x. rewrite Hw. intros E. pose proof (H4 _ _ _ E). lia.
  - intros d [H|H]%Hd; [|done]. destruct (H5 d H) as (s & ? & ?). eauto.
  - intros p w cb i. rewrite Hr. intros H. destruct (H6 _ _ _ _ H) as (x & s & ? & ?). exists x, s. by rewrite Hw.
  - by rewrite Hr.
Qed.

Lemma good_worker_step k n n' p w x x' :
  good k n -> worker_at p w n = Some x ->
  (forall p' w', worker_at p' w' n' = if decide (p = p' /\ w = w') then Some x' else worker_at p' w' n) ->
  extends (past n) (past n') -> good_tls (past n') p w (w_tls x') -> good_queue (past n') (w_queue x') ->
  inbox_seq (w_tls x) <= inbox_seq (w_tls x') <= Z.of_nat (S k) -> wire_grows n n' ->
  (requests (past n') = requests (past n) \/
   Z.of_nat k < 2 ^ 64 /\ inbox_seq (w_tls x) < inbox_seq (w_tls x') /\
   exists cb, requests (past n') = requests (past n) ++ [(p, w, cb, inbox_name (Z.of_nat w) (inbox_seq (w_tls x)))]) ->
  good (S k) n'.
Proof.
  intros [H1 H2 H3 H4 H5 H6 H7] Ex Hw He Ht Hq Hs Hd Hr.
  assert (forall p' w' y, worker_at p' w' n' = Some y -> (p = p' /\ w = w' /\ y = x') \/ worker_at p' w' n = Some y) as Hy.
  { intros p' w' y. rewrite Hw. case_decide as Hc; [|by right]. intros [= <-]. left. naive_solver. }
  split.
  - intros p' w' y [(<- & <- & ->)|E]%Hy; [by eapply H1|by eapply H1].
  - intros p' w' y [(<- & <- & ->)|E]%Hy; [done|]. by eapply good_tls_extends, H2.
  - intros p' w' y [(<- & <- & ->)|E]%Hy; [done|]. intros i payload H. by apply He, (H3 _ _ _ E).
  - intros p' w' y [(<- & <- & ->)|E]%Hy; [|pose proof (H4 _ _ _ E); lia]. pose proof (H4 _ _ _ Ex). lia.
  - intros d [H|H]%Hd; [|done]. destruct (H5 d H) as (s & ? & ?). exists s. split; [done|by apply He].
  - assert (forall p' w' cb i, (p', w', cb, i) ∈ requests (past n) ->
      exists y s, worker_at p' w' n' = Some y /\ 0 <= s < inbox_seq (w_tls y) /\ i = inbox_name (Z.of_nat w') s) as Hold.
    { intros p' w' cb i H. destruct (H6 _ _ _ _ H) as (y & s & Ey & Hsy & ->). rewrite Hw.
      case_decide as Hc; [|by exists y, s]. destruct Hc as [<- <-]. exists x', s. simplify_eq. split; [done|]. split; [lia|done]. }
    destruct Hr as [->|(_ & Hlt & cb & ->)]; [exact Hold|]. intros p' w' cb' i.
    rewrite elem_of_app, list_elem_of_singleton. intros [H|[= -> -> -> ->]]; [by eapply Hold|].
    exists x', (inbox_seq (w_tls x)). rewrite Hw, decide_True by done. pose proof (H4 _ _ _ Ex). split; [done|]. split; [lia|done].
  - destruct Hr as [->|(Hk & Hlt & cb & ->)]; [done|]. rewrite map_app. apply NoDup_app. split; [done|]. split; [|apply NoDup_singleton].
    intros [p' i] Hin. cbn [List.map]. rewrite list_elem_of_singleton. intros [Ep' Ei']%pair_equal_spec.
    apply list_elem_of_fmap in Hin as ([[[p1 w1] cb1] i1] & [Ep1 Ei1]%pair_equal_spec & Hin). subst p' p1 i i1.
    destruct (H6 _ _ _ _ Hin) as (y & s & Ey & Hsy & Ei). pose proof (H1 _ _ _ Ey). pose proof (H4 _ _ _ Ey).
    pose proof (H1 _ _ _ Ex). pose proof (H4 _ _ _ Ex).
    apply inbox_name_inj in Ei as [Ew Es]; [|unfold in_u; lia..].
    apply Nat2Z.inj in Ew as <-. simplify_eq. lia.
Qed.

Section Invariant.
Context (covers : list Z -> list Z -> bool).

Lemma publish_worker m p w n : worker_at p w (broker_publish covers m n) = worker_at p w n.
Proof. by destruct m. Qed.

Lemma publish_requests m n : requests (past (broker_publish covers m n)) = requests (past n).
Proof. by destruct m. Qed.

Lemma publish_published m n : published (past n) ⊆ published (past (broker_publish covers m n)).
Proof. destruct m; [|done]. cbn. set_solver. Qed.

Lemma publish_wire m n : wire_grows n (broker_publish covers m n).
Proof.
  intros d. destruct m as [m|]; [|by left]. cbn. rewrite elem_of_app. intros [H|H]; [by left|right].
  apply list_elem_of_fmap in H as (s & -> & _). exists (m_subject m). split; [done|]. cbn. set_solver.
Qed.

Lemma good_publish k m n n0 :
  good k n -> (forall p w, worker_at p w n0 = worker_at p w n) -> past n0 = past n -> wire n0 = wire n ->
  good (S k) (broker_publish covers m n0).
Proof.
  intros Hg Hw Hp Hd. eapply good_idle; [exact Hg|..].
  - intros p w. rewrite publish_worker. apply Hw.
  - by rewrite publish_requests, Hp.
  - rewrite <- Hp. apply publish_published.
  - intros d H. apply publish_wire in H as [H|H]; [left; by rewrite <- Hd|by right].
Qed.

Lemma wire_same n n' : wire n' = wire n -> wire_grows n n'.
Proof. intros E d. rewrite E. by left. Qed.

Lemma extends_refl h : extends h h.
Proof. done. Qed.

Lemma good_post k p i t n :
  good k n -> (forall j payload, t = TInbox j payload -> (j, payload) ∈ published (past n)) ->
  good (S k) (PostToWorker p i t n).
Proof.
  intros Hg Ht. unfold PostToWorker. destruct (worker_at p (Z.to_nat i) n) as [x|] eqn:Ex.
  - eapply (good_worker_step k n _ p (Z.to_nat i) x); [done|done|..].
    + intros p' w'. rewrite worker_at_set, Ex. done.
    + rewrite past_set_worker. apply extends_refl.
    + rewrite past_set_worker. apply (g_tls _ _ Hg _ _ _ Ex).
    + rewrite past_set_worker. intros j payload. cbn. rewrite elem_of_app, list_elem_of_singleton.
      intros [H|H]; [by apply (g_queue _ _ Hg _ _ _ Ex)|by apply Ht].
    + pose proof (g_seq _ _ Hg _ _ _ Ex). cbn. lia.
    + apply wire_same, wire_set_worker.
    + left. by rewrite past_set_worker.
  - eapply good_idle; [done|done|done|done|by apply wire_same].
Qed.

Lemma good_wire k l n : good k n -> (forall d, d ∈ l -> d ∈ wire n) -> good k (set_wire l n).
Proof. intros [H1 H2 H3 H4 H5 H6 H7] Hl. split; try done. intros d Hd. by apply H5, Hl. Qed.

(** A step that changes one worker only, without a request. *)
Lemma good_set_tls k p w x t n n' :
  good k n -> worker_at p w n = Some x -> good_tls (past n) p w t -> inbox_seq t = inbox_seq (w_tls x) ->
  (forall p' w', worker_at p' w' n' = worker_at p' w' (set_tls p w x t n)) -> past n' = past n -> wire n' = wire n ->
  good (S k) n'.
Proof.
  intros Hg Ex Ht Hs Hw Hp Hd. eapply (good_worker_step k n n' p w x (mkWorker t (w_queue x))); [done|done|..].
  - intros p' w'. rewrite Hw. unfold set_tls. by rewrite worker_at_set, Ex.
  - rewrite Hp. apply extends_refl.
  - by rewrite Hp.
  - rewrite Hp. apply (g_queue _ _ Hg _ _ _ Ex).
  - cbn. rewrite Hs. pose proof (g_seq _ _ Hg _ _ _ Ex). lia.
  - by apply wire_same.
  - left. by rewrite Hp.
Qed.

Lemma good_request k p w subject meta data cb a x n :
  good k n -> Z.of_nat (S k) < 2 ^ 64 -> worker_at p w n = Some x ->
  good (S k) (request_step covers p w subject meta data cb a x n).
Proof.
  intros Hg Hk Ex. pose proof (g_seq _ _ Hg _ _ _ Ex) as Hseq. unfold request_step.
  assert (inbox_seq (AsyncRequest (Z.of_nat w) a cb (w_tls x)) = if connected a then inbox_seq (w_tls x) + 1 else inbox_seq (w_tls x)) as Hs.
  { apply seq_AsyncRequest. unfold in_u. lia. }
  match goal with |- context [if connected a && sub_ok a then ?A else ?B] => set (n1 := if connected a && sub_ok a then A else B) end.
  assert (forall p' w', worker_at p' w' n1 = if decide (p = p' /\ w = w') then Some (mkWorker (AsyncRequest (Z.of_nat w) a cb (w_tls x)) (w_queue x)) else worker_at p' w' n) as Hw.
  { intros p' w'. transitivity (worker_at p' w' (set_tls p w x (AsyncRequest (Z.of_nat w) a cb (w_tls x)) n)).
    - unfold n1. by destruct (_ && _).
    - unfold set_tls. by rewrite worker_at_set, Ex. }
  assert (wire n1 = wire n /\ published (past n1) = published (past n) /\
    requests (past n1) = requests (past n) ++ if connected a && sub_ok a then [(p, w, cb, inbox_name (Z.of_nat w) (inbox_seq (w_tls x)))] else []) as (Hd & Hp & Hr).
  { unfold n1, set_tls. destruct (_ && _); cbn; rewrite ?wire_set_worker, ?past_set_worker, ?app_nil_r; done. }
  assert (forall n', (forall p' w', worker_at p' w' n' = worker_at p' w' n1) -> requests (past n') = requests (past n1) ->
    published (past n) ⊆ published (past n') -> wire_grows n n' -> good (S k) n') as Hgood.
  { intros n' Hw' Hr' Hp' Hd'.
    assert (extends (past n) (past n')) as He by (split; [rewrite Hr', Hr; set_solver|done]).
    eapply (good_worker_step k n n' p w x); [done|done|intros p' w'; rewrite Hw'; apply Hw|done|..|done|].
    - apply good_AsyncRequest; [|by eapply good_tls_extends, Hg].
      intros E. rewrite Hr', Hr, E. cbn [GenInbox fst]. set_solver.
    - intros i payload H. apply He. by apply (g_queue _ _ Hg _ _ _ Ex).
    - cbn [w_tls]. rewrite Hs. destruct (connected a); lia.
    - rewrite Hr', Hr. destruct (connected a) eqn:Ec, (sub_ok a) eqn:Esub; cbn [andb]; try (left; by rewrite app_nil_r).
      right. split; [lia|]. split; [cbn [w_tls]; rewrite Hs; lia|]. by exists cb. }
  clearbody n1. destruct (request_message _ _ _ _ _ _) as [m|].
  - apply Hgood.
    + intros p' w'. by rewrite publish_worker.
    + by rewrite publish_requests.
    + rewrite <- Hp. apply (publish_published (Some m) (broker_subscribe (mkSub p (m_reply m) Inbox) n1)).
    + intros d Hin. apply publish_wire in Hin as [H|H]; [left|by right]. cbn in H. by rewrite <- Hd.
  - apply Hgood; [done|done|by rewrite Hp|by apply wire_same].
Qed.

Lemma good_next k e n n' : good k n -> Z.of_nat (S k) < 2 ^ 64 -> step covers e n = Some n' -> good (S k) n'.
Proof.
  intros Hg Hk. destruct e as [p a|p|p w subject h ok|p w subject meta data cb sub pub timer|p subject meta data|p reply_to meta data|p w inbox|i|p w]; cbn [step].
  - intros (m & _ & [= <-])%bind_Some. eapply good_idle; [done|intros; apply worker_at_manager|by rewrite past_set_manager..|].
    apply wire_same, wire_set_manager.
  - intros (m & _ & [= <-])%bind_Some. destruct (connected_ m); (eapply good_idle; [done|..]); try done.
    + intros p' w'. exact (worker_at_manager p (Disconnect m) n p' w').
    + cbn. by rewrite past_set_manager.
    + cbn. by rewrite past_set_manager.
    + intros d. cbn. rewrite wire_set_manager. intros H%list_elem_of_In%filter_In. left. apply list_elem_of_In, H.
    + by apply wire_same.
  - intros (m & _ & (x & Ex & [= <-])%bind_Some)%bind_Some.
    eapply good_set_tls; [done|exact Ex|by apply good_Subscribe, Hg|by destruct (seq_others [] [] (w_tls x) (connected_ m) ok subject h) as (_ & _ & ->)|..];
      unfold subscribe_step, set_tls; destruct (_ && _); cbn; intros; rewrite ?past_set_manager, ?wire_set_manager, ?past_set_worker, ?wire_set_worker; try done.
    apply worker_at_manager.
  - intros (m & _ & (x & Ex & [= <-])%bind_Some)%bind_Some. by apply good_request.
  - intros (m & _ & [= <-])%bind_Some. by eapply good_publish.
  - intros (m & _ & [= <-])%bind_Some. by eapply good_publish.
  - intros (x & Ex & [= <-])%bind_Some.
    eapply good_set_tls; [done|exact Ex|by apply good_on_timeout, Hg|by destruct (seq_others inbox [] (w_tls x) true true [] 0%nat) as (-> & _)|..];
      unfold timeout_step, set_tls; destruct (pending _ !! _); cbn; intros; rewrite ?past_set_worker, ?wire_set_worker; done.
  - intros (d & Hd & H)%bind_Some. destruct (g_wire _ _ Hg d) as (s & Es & Hs); [by eapply list_elem_of_lookup_2|].
    rewrite Es in H. assert (good k (set_wire (delete i (wire n)) n)) as Hg'.
    { apply good_wire; [done|]. intros d' Hd'. apply list_elem_of_lookup in Hd' as [j Hj].
      apply list_elem_of_lookup. destruct (decide (j < i)%nat).
      - exists j. by rewrite list_lookup_delete_lt in Hj.
      - exists (S j). by rewrite list_lookup_delete_ge in Hj by lia. }
    destruct (d_kind d) as [index|].
    + injection H as <-. by apply good_post.
    + unfold OnNatsInboxMsg in H. apply bind_Some in H as (j & _ & [= <-]). apply good_post; [done|]. by intros ? ? [= <- <-].
  - intros (x & Ex & H)%bind_Some. destruct (w_queue x) as [|t rest] eqn:Eq; [done|]. injection H as <-.
    pose proof (g_queue _ _ Hg _ _ _ Ex) as Hq. rewrite Eq in Hq.
    assert (good_queue (past n) rest) as Hrest by (intros i payload H; apply Hq; by right).
    pose proof (g_tls _ _ Hg _ _ _ Ex) as Ht. pose proof (g_seq _ _ Hg _ _ _ Ex) as Hseq.
    assert (forall t' n', good_tls (past n) p w t' -> inbox_seq t' = inbox_seq (w_tls x) ->
      (forall p' w', worker_at p' w' n' = worker_at p' w' (set_worker p w (mkWorker t' rest) n)) -> requests (past n') = requests (past n) ->
      published (past n') = published (past n) -> wire n' = wire n -> good (S k) n') as Hgood.
    { intros t' n' Ht' Hs' Hw' Hr' Hp' Hd'. assert (extends (past n) (past n')) as He by (split; [by rewrite Hr'|by rewrite Hp']).
      eapply (good_worker_step k n n' p w x (mkWorker t' rest)); [done|done|..].
      - intros p' w'. by rewrite Hw', worker_at_set, Ex.
      - done.
      - by eapply good_tls_extends.
      - intros i payload H. by apply He, Hrest.
      - cbn. lia.
      - by apply wire_same.
      - by left. }
    destruct t as [subject payload reply_to|inbox payload]; cbn [run_task].
    + destruct (on_message _ _ _) as [[[h meta] body]|]; (apply (Hgood (w_tls x)); [done|done|..]);
        intros; cbn; rewrite ?past_set_worker, ?wire_set_worker; done.
    + apply (Hgood (snd (on_inbox inbox payload (w_tls x)))).
      * apply good_on_inbox; [|done]. apply Hq. by left.
      * by destruct (seq_others inbox payload (w_tls x) true true [] 0%nat) as (_ & -> & _).
      * done.
      * by rewrite past_set_worker.
      * by rewrite past_set_worker.
      * by rewrite wire_set_worker.
Qed.

End Invariant.

(** ** Theorems *)

(** Processes with the given numbers of workers, none connected. *)
Definition fresh_worker : worker := mkWorker tls_init [].
Definition network_init (sizes : list nat) : network :=
  mkNetwork (List.map (fun k => mkProcess manager_init (replicate k fresh_worker)) sizes) [] [] (mkHistory [] [] []).

Lemma worker_at_init sizes p w x : worker_at p w (network_init sizes) = Some x ->
  x = fresh_worker /\ exists k, k ∈ sizes /\ (w < k)%nat.
Proof.
  unfold worker_at, network_init. cbn [procs]. rewrite list_lookup_fmap. destruct (sizes !! p) as [k|] eqn:Ek; cbn; [|done].
  intros [-> Hw]%lookup_replicate. split; [done|]. exists k. split; [by eapply list_elem_of_lookup_2|done].
Qed.

Lemma good_init sizes : Forall (fun k => Z.of_nat k < 2 ^ 32) sizes -> good 0 (network_init sizes).
Proof.
  intros Hs. split.
  - intros p w x (_ & k & Hk & Hw)%worker_at_init. rewrite Forall_forall in Hs. pose proof (Hs k Hk). lia.
  - intros p w x (-> & _)%worker_at_init. split; cbn; [by intros i r ?%lookup_empty_Some|by intros cb body ?%elem_of_nil].
  - by intros p w x (-> & _)%worker_at_init i payload ?%elem_of_nil.
  - intros p w x (-> & _)%worker_at_init. cbn. lia.
  - by intros d ?%elem_of_nil.
  - by intros p w cb i ?%elem_of_nil.
  - constructor.
Qed.

Lemma good_run covers es k n n' : good k n -> Z.of_nat (k + length es) < 2 ^ 64 ->
  run_steps (step covers) es n = Some n' -> good (k + length es) n'.
Proof.
  revert k n. induction es as [|e es IH]; intros k n Hg Hk; cbn [run_steps].
  - intros [= <-]. by rewrite Nat.add_0_r.
  - intros (n1 & E & H)%bind_Some. cbn [length] in *. rewrite <- Nat.add_succ_comm in *.
    apply (IH (S k) n1); [|done|done]. eapply good_next; [done|lia|done].
Qed.

(** C12: In a network of processes around one NATS server, whatever the order of connections,
    subscriptions, requests, messages, timeouts and deliveries: a request that is answered is
    answered with the body of a message that was published on its own inbox, and no two
    requests of one process ever have the same inbox. *)
Theorem answers_come_from_the_inbox (covers : list Z -> list Z -> bool) (sizes : list nat) (es : list event) (n : network) :
  Forall (fun k => Z.of_nat k < 2 ^ 32) sizes -> Z.of_nat (length es) < 2 ^ 64 ->
  run_steps (step covers) es (network_init sizes) = Some n ->
  (forall p w x cb body, worker_at p w n = Some x -> (cb, OK, body) ∈ log (w_tls x) ->
     exists inbox payload, (p, w, cb, inbox) ∈ requests (past n) /\ (inbox, payload) ∈ published (past n) /\
       body = snd (split_payload payload)) /\
  NoDup (List.map (fun '(p, _, _, inbox) => (p, inbox)) (requests (past n))).
Proof.
  intros Hs Hk He. pose proof (good_run covers es 0 _ n (good_init sizes Hs) Hk He) as Hg. split; [|apply Hg].
  intros p w x cb body Ex Hl. by apply (gt_log _ _ _ _ (g_tls _ _ Hg _ _ _ Ex)).
Qed.

Lemma split_BuildPayload (meta : Meta) (data : list Z) :
  split_payload (BuildPayload meta data) = (decode_meta (encode_meta meta), data).
Proof.
  unfold split_payload, BuildPayload.
  assert (length (encode_meta meta) = meta_bytes) as E by (unfold encode_meta; by rewrite !length_app, !length_le_bytes).
  rewrite length_app, E. rewrite (proj2 (Nat.leb_le _ _)) by lia. by rewrite <- E, take_app_length, drop_app_length.
Qed.

Definition all_ok : connect_answers := mkConnect true true true.

(** Two processes ask for different things; a third one answers the first. *)
Definition two_requests (meta : Meta) (data0 data1 data : list Z) (cb0 cb1 : nat) (t0 t1 : Z) : list event :=
  [EConnect 0 all_ok; EConnect 1 all_ok; EConnect 2 all_ok;
   ERequest 0 0 (text "login") meta data0 cb0 true true (Some t0);
   ERequest 1 0 (text "score") meta data1 cb1 true true (Some t1);
   EReply 2 (inbox_name 0 0) meta data; EDeliver 0; EDeliver 0; ERun 0 0; ERun 1 0].

(** The first request of a worker, answered. *)
Lemma first_answer (w t : Z) (meta : Meta) (data : list Z) (cb : nat) :
  log (snd (on_inbox (inbox_name w 0) (BuildPayload meta data) (AsyncRequest w (mkAnswers true true true (Some t)) cb tls_init))) =
  [(cb, OK, data)].
Proof.
  unfold AsyncRequest, GenInbox. cbn [connected sub_ok pub_ok timer negb inbox_seq tls_init pending set_pending].
  rewrite lookup_insert_eq. unfold on_inbox. cbn [pending set_pending callback]. rewrite lookup_insert_eq.
  by rewrite split_BuildPayload.
Qed.

(** The inboxes of different processes are the same: the first requests of the first workers
    of two processes share one, and the answer to the request of one process is taken by the
    other for the answer to its own, different request. *)
Theorem inboxes_collide (meta : Meta) (data0 data1 data : list Z) (cb0 cb1 : nat) (t0 t1 : Z) :
  exists n x0 x1, run_steps (step MatchSub) (two_requests meta data0 data1 data cb0 cb1 t0 t1) (network_init [1%nat; 1%nat; 1%nat]) = Some n /\
    requests (past n) = [(0%nat, 0%nat, cb0, inbox_name 0 0); (1%nat, 0%nat, cb1, inbox_name 0 0)] /\
    worker_at 0 0 n = Some x0 /\ log (w_tls x0) = [(cb0, OK, data)] /\
    worker_at 1 0 n = Some x1 /\ log (w_tls x1) = [(cb1, OK, data)].
Proof.
  eexists _, _, _. split; [lazy -[BuildPayload on_inbox AsyncRequest]; reflexivity|].
  split; [lazy; reflexivity|]. split; [reflexivity|]. split; [by apply first_answer|]. split; [reflexivity|by apply first_answer].
Qed.

Lemma answers_come_from_the_inbox_witness :
  exists n, run_steps (step MatchSub) (firstn 5 (two_requests default_meta [1] [2] [3] 7 8 100 101)) (network_init [1%nat; 1%nat; 1%nat]) = Some n /\
    NoDup (List.map (fun '(p, _, _, inbox) => (p, inbox)) (requests (past n))).
Proof.
  assert (exists n, run_steps (step MatchSub) (firstn 5 (two_requests default_meta [1] [2] [3] 7 8 100 101)) (network_init [1%nat; 1%nat; 1%nat]) = Some n) as [n H].
  { eexists. lazy -[BuildPayload on_inbox AsyncRequest]. reflexivity. }
  exists n. split; [exact H|].
  apply (answers_come_from_the_inbox MatchSub [1%nat; 1%nat; 1%nat] _ n) in H; [apply H| |].
  - constructor; [lia|]. constructor; [lia|]. constructor; [lia|constructor].
  - vm_compute. reflexivity.
Defined.

(** A body that is not what the type says is no error for a typed handler or request: a text
    that is read as a number gives the result [OK] with 0. *)
Theorem wrong_type_is_ok (m : Z) (s : list Z) :
  Z.of_nat (length s) <= 31 ->
  typed_handler m (TyInt I32) (pack [(TyString, VStr s)]) = Some (mkResult OK (VInt 0)) /\
  typed_request m (TyInt I32) (mkResult OK (pack [(TyString, VStr s)])) = Some (mkResult OK (VInt 0)).
Proof.
  intros Hs. assert (first_value m (TyInt I32) (pack [(TyString, VStr s)]) = Some (VInt 0)) as H.
  { unfold pack, pack_type. cbn [fmap list_fmap concat fst snd]. unfold pack_string.
    rewrite (proj2 (Z.leb_le _ 31)) by done.
    assert (exists c, Z.lor 0xa0 (Z.of_nat (length s)) = c /\ 0xa0 <= c <= 0xbf) as (c & -> & Hc).
    { eexists. split; [done|]. pose proof (Nat2Z.is_nonneg (length s)) as H0.
      generalize dependent (Z.of_nat (length s)). intros z Hz H0.
      assert (z ∈ seqZ 0 32) as Hin by (apply elem_of_seqZ; lia). clear Hz H0. revert z Hin.
      apply Forall_forall. vm_compute. repeat constructor; discriminate. }
    unfold first_value, unpack. cbn [unpack_all unpack_type]. unfold unpack_number, unpack_number_as, safe_data. cbn [rest app].
    rewrite (proj2 (Z.leb_gt c 0x7f)), (proj2 (Z.leb_gt 0xe0 c)) by lia.
    rewrite !(proj2 (Z.eqb_neq c _)) by (unfold fmt_uint64, fmt_uint32, fmt_uint16, fmt_uint8, fmt_int64, fmt_int32, fmt_int16, fmt_int8, fmt_float32, fmt_float64; lia).
    reflexivity. }
  split; [unfold typed_handler|unfold typed_request; cbn [error_code result]]; by rewrite H.
Qed.

(** What scripts send and get: [AsyncRequestMsgpack] sends an empty body whatever its
    values are; a number as the last of them is taken for the timeout; [nats.Await] with a
    timeout, as documented, passes the function where the timeout belongs, and the request is
    not made; without one it is. *)
Theorem lua_requests_lose_arguments (args : list lua_arg) (ms : Z) (data : list Z) (f : nat) :
  (forall r, lua_AsyncRequestMsgpack (args ++ [Fn f]) = Some r -> l_data r = [] /\ l_callback r = f) /\
  lua_AsyncRequestMsgpack (args ++ [Val (LInteger ms); Fn f]) = Some (mkLua f (i32 (i32 ms)) []) /\
  lua_AsyncRequest (await_args [Val (LString data); Val (LInteger ms)] f) = None /\
  lua_AsyncRequest (await_args [Val (LString data)] f) = Some (mkLua f 5000 data).
Proof.
  splits.
  - intros r. unfold lua_AsyncRequestMsgpack, take_callback. rewrite last_snoc, removelast_last. cbn [mbind option_bind].
    destruct (take_timeout args) as [t l]. by intros [= <-].
  - unfold lua_AsyncRequestMsgpack, take_callback. change [Val (LInteger ms); Fn f] with ([Val (LInteger ms)] ++ [Fn f]). rewrite app_assoc.
    rewrite last_snoc, removelast_last. cbn [mbind option_bind]. unfold take_timeout.
    by rewrite last_snoc, removelast_last.
  - done.
  - done.
Qed.

Lemma lua_requests_lose_arguments_witness :
  lua_AsyncRequestMsgpack [Val (LString [97]); Val (LInteger 7); Fn 3] = Some (mkLua 3 7 []).
Proof. apply (lua_requests_lose_arguments [Val (LString [97])] 7 [] 3). Defined.

End NatsNet.
