(* ===== verification/Shutdown.v ===== *)
(** * Graceful shutdown ([src/async/shutdown.cpp], [shutdown.h])

    [NextPhase] may be called by any thread, and by the callbacks of the phases themselves.
    The phase, the request flag and the two flags of [AdvancePhase] are atomics; a thread is a
    program counter in [AdvancePhase], and the steps of the threads interleave. *)

From S2P Require Import Prelude.

Module ShutdownManager.

Inductive ShutdownPhase := Normal | StoppingIO | CompletingTimers | ProcessingTasks | Cleaning | Done.

Inductive callback := on_stop_io | on_complete_timers | on_process_tasks | on_cleanup.

#[export] Instance ShutdownPhase_eq_dec : EqDecision ShutdownPhase.
Proof. solve_decision. Defined.

(** The first [switch]: the next phase; none at the end. *)
Definition next (p : ShutdownPhase) : option ShutdownPhase :=
  match p with
  | Normal => Some StoppingIO
  | StoppingIO => Some CompletingTimers
  | CompletingTimers => Some ProcessingTasks
  | ProcessingTasks => Some Cleaning
  | Cleaning => Some Done
  | Done => None
  end.

(** The second [switch]: the callback of the phase that ends. *)
Definition callback_of (current : ShutdownPhase) : option callback :=
  match current with
  | Normal => Some on_stop_io
  | StoppingIO => Some on_complete_timers
  | CompletingTimers => Some on_process_tasks
  | ProcessingTasks => Some on_cleanup
  | _ => None
  end.

(** Where a thread is in [AdvancePhase]: outside, about to record a request, at the top of
    the loop, between the load and the store of the phase, before and in the callback of
    [current], at the test for another request, and in the two lines of the guard. *)
Inductive pc :=
  | Outside | Record | Load | Store (current : ShutdownPhase) | Call (current : ShutdownPhase)
  | InCallback | Test | Guard1 | Guard2.

Record state := mkState {
  current_phase_ : ShutdownPhase;
  shutdown_requested_ : bool;
  is_advancing_ : bool;
  pending_advance_ : bool;
  calls : list callback;           (* the callbacks that were called *)
  threads : nat -> pc }.

Definition init : state := mkState Normal false false false [] (fun _ => Outside).

Definition at_ (t : nat) (x : pc) (f : nat -> pc) : nat -> pc := fun u => if decide (u = t) then x else f u.

Definition set_thread (t : nat) (x : pc) (s : state) : state :=
  mkState (current_phase_ s) (shutdown_requested_ s) (is_advancing_ s) (pending_advance_ s) (calls s)
    (at_ t x (threads s)).

Definition set_phase (p : ShutdownPhase) (s : state) : state :=
  mkState p (shutdown_requested_ s) (is_advancing_ s) (pending_advance_ s) (calls s) (threads s).
Definition set_requested (b : bool) (s : state) : state :=
  mkState (current_phase_ s) b (is_advancing_ s) (pending_advance_ s) (calls s) (threads s).
Definition set_advancing (b : bool) (s : state) : state :=
  mkState (current_phase_ s) (shutdown_requested_ s) b (pending_advance_ s) (calls s) (threads s).
Definition set_pending (b : bool) (s : state) : state :=
  mkState (current_phase_ s) (shutdown_requested_ s) (is_advancing_ s) b (calls s) (threads s).
Definition add_call (c : option callback) (s : state) : state :=
  mkState (current_phase_ s) (shutdown_requested_ s) (is_advancing_ s) (pending_advance_ s)
    (calls s ++ match c with Some c => [c] | None => [] end) (threads s).

(** [AdvancePhase] up to the guard: [is_advancing_.exchange(true)]. *)
Definition enter (t : nat) (s : state) : state :=
  if is_advancing_ s then set_thread t Record s else set_thread t Load (set_advancing true s).

(** [Shutdown]: the exchange on the request flag, then [AdvancePhase]. *)
Definition Shutdown (t : nat) (s : state) : state :=
  if shutdown_requested_ s then s else enter t (set_requested true s).

Definition NextPhase (t : nat) (s : state) : state := enter t s.

(** One more line of [AdvancePhase] by a thread in it. *)
Definition advance (t : nat) (s : state) : state :=
  match threads s t with
  | Outside => s
  | Record => set_thread t Outside (set_pending true s)
  | Load =>
      match next (current_phase_ s) with
      | Some _ => set_thread t (Store (current_phase_ s)) s
      | None => set_thread t Guard1 s
      end
  | Store current =>
      set_thread t (Call current) (match next current with Some p => set_phase p s | None => s end)
  | Call current => set_thread t InCallback (add_call (callback_of current) s)
  | InCallback => set_thread t Test s
  | Test => set_thread t (if pending_advance_ s then Load else Guard1) (set_pending false s)
  | Guard1 => set_thread t Guard2 (set_advancing false s)
  | Guard2 => set_thread t Outside (set_pending false s)
  end.

(** The callback calls [NextPhase]: the flag is set, so the request is recorded. *)
Definition reenter (s : state) : state :=
  if is_advancing_ s then set_pending true s else s.

Inductive step : state -> state -> Prop :=
  | step_shutdown t s : threads s t = Outside -> step s (Shutdown t s)
  | step_next t s : threads s t = Outside -> step s (NextPhase t s)
  | step_advance t s : step s (advance t s)
  | step_reenter t s : threads s t = InCallback -> step s (reenter s).

Definition reachable : state -> Prop := rtc step init.

(** ** Phases in order *)

Definition order : list callback := [on_stop_io; on_complete_timers; on_process_tasks; on_cleanup].

Definition index (p : ShutdownPhase) : nat :=
  match p with
  | Normal => 0 | StoppingIO => 1 | CompletingTimers => 2 | ProcessingTasks => 3 | Cleaning => 4 | Done => 5
  end.

(** In the part of [AdvancePhase] that the flag protects. *)
Definition inside (x : pc) : bool :=
  match x with Outside | Record | Guard2 => false | _ => true end.

(** What one thread knows of the phase and the callbacks. *)
Definition knows (x : pc) (s : state) : Prop :=
  match x with
  | Store c => current_phase_ s = c /\ is_Some (next c) /\ calls s = take (index c) order
  | Call c => next c = Some (current_phase_ s) /\ calls s = take (index c) order
  | _ => calls s = take (index (current_phase_ s)) order
  end.

Record inv (s : state) : Prop := {
  inv_flag t : inside (threads s t) = true -> is_advancing_ s = true;
  inv_one t u : inside (threads s t) = true -> inside (threads s u) = true -> t = u;
  inv_knows t : inside (threads s t) = true -> knows (threads s t) s;
  inv_busy : is_advancing_ s = true -> exists t, inside (threads s t) = true;
  inv_free : is_advancing_ s = false -> calls s = take (index (current_phase_ s)) order }.

Lemma at_same t x f : at_ t x f t = x.
Proof. unfold at_. by rewrite decide_True. Qed.

Lemma at_other t x f u : u <> t -> at_ t x f u = f u.
Proof. intros H. unfold at_. by rewrite decide_False. Qed.

(** The thread inside moves on, or leaves the flag's protection. *)
Lemma inv_owner s t y p l pend :
  inv s -> inside (threads s t) = true -> inside y = true ->
  let s' := mkState p (shutdown_requested_ s) (is_advancing_ s) pend l (at_ t y (threads s)) in
  knows y s' -> inv s'.
Proof.
  intros [Hf Ho Hk Hb Hfree] Ht Hy s' Hs'. pose proof (Hf t Ht) as Ha. split; cbn.
  - done.
  - assert (forall u, inside (at_ t y (threads s) u) = true -> u = t) as H.
    { intros u Hu. destruct (decide (u = t)) as [|Hne]; [done|]. rewrite at_other in Hu by done.
      by apply Ho. }
    intros u v Hu%H Hv%H. congruence.
  - intros u Hu. destruct (decide (u = t)) as [->|Hne].
    + rewrite at_same. exact Hs'.
    + rewrite at_other in Hu by done. destruct Hne. by apply Ho.
  - intros _. exists t. by rewrite at_same.
  - congruence.
Qed.

Lemma inv_outside s t y req pend :
  inv s -> inside (threads s t) = false -> inside y = false ->
  inv (mkState (current_phase_ s) req (is_advancing_ s) pend (calls s) (at_ t y (threads s))).
Proof.
  intros [Hf Ho Hk Hb Hfree] Ht Hy.
  assert (forall u, inside (at_ t y (threads s) u) = true -> u <> t /\ inside (threads s u) = true) as H.
  { intros u Hu. destruct (decide (u = t)) as [->|Hne].
    - rewrite at_same in Hu. congruence.
    - by rewrite at_other in Hu by done. }
  split; cbn.
  - intros u [_ Hu]%H. by eapply Hf.
  - intros u v [_ Hu]%H [_ Hv]%H. by apply Ho.
  - intros u Hu. destruct (H u Hu) as [Hne Hi]. rewrite at_other by done.
    specialize (Hk u Hi). unfold knows in *. by destruct (threads s u).
  - intros [u Hu]%Hb. exists u. rewrite at_other; [done|]. intros ->. congruence.
  - done.
Qed.

Lemma inv_enter s t req :
  inv s -> threads s t = Outside -> inv (enter t (set_requested req s)).
Proof.
  intros H Ht. unfold enter. cbn. destruct (is_advancing_ s) eqn:Ea.
  - unfold set_thread. cbn. apply inv_outside; [done|by rewrite Ht|done].
  - destruct H as [Hf Ho Hk Hb Hfree]. specialize (Hfree Ea).
    assert (forall u, inside (threads s u) = false) as Hn.
    { intros u. destruct (inside (threads s u)) eqn:E; [|done]. apply Hf in E. congruence. }
    assert (forall u, inside (at_ t Load (threads s) u) = true -> u = t) as H.
    { intros u Hu. destruct (decide (u = t)) as [|Hne]; [done|]. rewrite at_other, Hn in Hu by done. done. }
    split; cbn.
    + done.
    + intros u v Hu%H Hv%H. congruence.
    + intros u Hu. rewrite (H u Hu), at_same. exact Hfree.
    + intros _. exists t. by rewrite at_same.
    + done.
Qed.

Lemma inv_reenter s : inv s -> inv (reenter s).
Proof.
  intros H. unfold reenter. destruct (is_advancing_ s) eqn:E; [|done]. destruct H as [Hf Ho Hk Hb Hfree].
  by split.
Qed.

Lemma inv_advance t s : inv s -> inv (advance t s).
Proof.
  intros H. pose proof (inv_knows s H t) as Hk. unfold advance. destruct (threads s t) as [| | |c|c| | | |] eqn:Ht.
  - done.
  - apply (inv_outside s t Outside (shutdown_requested_ s) true); [done|by rewrite Ht|done].
  - specialize (Hk eq_refl). cbn in Hk. destruct (next (current_phase_ s)) as [p|] eqn:En.
    + apply (inv_owner s t (Store (current_phase_ s)) (current_phase_ s)); [done|by rewrite Ht|done|].
      cbn. by rewrite En.
    + apply (inv_owner s t Guard1 (current_phase_ s)); [done|by rewrite Ht|done|]. done.
  - destruct (Hk eq_refl) as (Hc & [p Hp] & Hl). rewrite Hp.
    apply (inv_owner s t (Call c) p); [done|by rewrite Ht|done|]. cbn. by rewrite Hp.
  - destruct (Hk eq_refl) as (Hp & Hl).
    apply (inv_owner s t InCallback (current_phase_ s)); [done|by rewrite Ht|done|]. cbn. rewrite Hl.
    destruct c; cbn in *; try done; injection Hp as <-; done.
  - specialize (Hk eq_refl). apply (inv_owner s t Test (current_phase_ s)); [done|by rewrite Ht|done|]. done.
  - specialize (Hk eq_refl). unfold set_thread, set_pending. cbn.
    apply (inv_owner s t _ (current_phase_ s)); [done|by rewrite Ht|by destruct (pending_advance_ s)|].
    cbn in *. by destruct (pending_advance_ s).
  - specialize (Hk eq_refl). cbn in Hk. destruct H as [Hf Ho Hkn Hb Hfree].
    assert (forall u, inside (at_ t Guard2 (threads s) u) = false) as Hn.
    { intros u. destruct (decide (u = t)) as [->|Hne]; [by rewrite at_same|]. rewrite at_other by done.
      destruct (inside (threads s u)) eqn:E; [|done]. destruct Hne. apply Ho; [done|by rewrite Ht]. }
    split; cbn.
    + intros u. by rewrite Hn.
    + intros u v. by rewrite Hn.
    + intros u. by rewrite Hn.
    + done.
    + done.
  - apply (inv_outside s t Outside (shutdown_requested_ s) false); [done|by rewrite Ht|done].
Qed.

Lemma shutdown_step_inv s s' : step s s' -> inv s -> inv s'.
Proof.
  intros Hs H. destruct Hs as [t s Ht|t s Ht|t s|t s Ht].
  - unfold Shutdown. destruct (shutdown_requested_ s); [done|]. by apply inv_enter.
  - unfold NextPhase. replace s with (set_requested (shutdown_requested_ s) s) by by destruct s.
    by apply inv_enter.
  - by apply inv_advance.
  - by apply inv_reenter.
Qed.

Lemma inv_reachable s : reachable s -> inv s.
Proof.
  intros H. unfold reachable in H. remember init as s0 eqn:E.
  assert (inv s0) as H0 by (subst; by split).
  clear E. induction H as [|x y z Hxy _ IH]; [done|]. apply IH. by eapply shutdown_step_inv.
Qed.

(** The phases run in order.  Whatever threads call [Shutdown] and [NextPhase], also out
    of the callbacks, at most one thread is in the protected part of [AdvancePhase], and the
    callbacks that were called are a prefix of stop IO, complete timers, process tasks, clean
    up: none is called twice or before its turn, and while no thread is inside they are
    exactly those of the phases left behind. *)
Theorem shutdown_in_order s :
  reachable s ->
  (forall t u, inside (threads s t) = true -> inside (threads s u) = true -> t = u) /\
  calls s `prefix_of` order /\
  (is_advancing_ s = false -> calls s = take (index (current_phase_ s)) order).
Proof.
  intros H%inv_reachable. destruct H as [Hf Ho Hk Hb Hfree]. splits; [done| |done].
  assert (forall n, take n order `prefix_of` order) as Hp by (intros n; apply prefix_take).
  destruct (is_advancing_ s) eqn:E; [|by rewrite Hfree].
  destruct (Hb eq_refl) as [t Ht]. specialize (Hk t Ht). unfold knows in Hk.
  destruct (threads s t); [..|by rewrite Hk]; try by rewrite Hk.
  - by destruct Hk as (_ & _ & ->).
  - by destruct Hk as (_ & ->).
Qed.


(** A schedule: who calls what, who goes on. *)
Inductive action := AShutdown (t : nat) | ANext (t : nat) | AAdvance (t : nat).

Definition act (s : state) (a : action) : option state :=
  match a with
  | AShutdown t => match threads s t with Outside => Some (Shutdown t s) | _ => None end
  | ANext t => match threads s t with Outside => Some (NextPhase t s) | _ => None end
  | AAdvance t => Some (advance t s)
  end.

Fixpoint schedule (l : list action) (s : state) : option state :=
  match l with [] => Some s | a :: r => s' ← act s a; schedule r s' end.

Lemma schedule_reachable l s s' : reachable s -> schedule l s = Some s' -> reachable s'.
Proof.
  revert s. induction l as [|a l IH]; intros s H; cbn [schedule]; [by intros [= <-]|].
  intros (s1 & Ha & Hl)%bind_Some. apply (IH s1); [|done]. eapply rtc_r; [exact H|].
  destruct a as [t|t|t]; cbn in Ha; try (destruct (threads s t) eqn:E; try done); injection Ha as <-;
    by constructor.
Qed.

Lemma shutdown_in_order_witness :
  exists s, schedule [AShutdown 0; AAdvance 0; AAdvance 0; ANext 1; AAdvance 0] init = Some s /\
    calls s = [on_stop_io] /\ calls s `prefix_of` order.
Proof.
  destruct (schedule [AShutdown 0; AAdvance 0; AAdvance 0; ANext 1; AAdvance 0] init) as [s|] eqn:E;
    [|vm_compute in E; discriminate].
  exists s. split; [done|]. split; [by vm_compute in E; injection E as <-|].
  apply (shutdown_in_order s). eapply schedule_reachable; [|exact E]. apply rtc_refl.
Defined.

(** A request between the last test and the end of the guard is lost: two requests were made,
    the phase moved once, and nobody is left to move it. *)
Lemma a_request_is_lost :
  exists s, reachable s /\ current_phase_ s = StoppingIO /\ pending_advance_ s = false /\
    threads s 0%nat = Outside /\ threads s 1%nat = Outside /\
    schedule [AShutdown 0; AAdvance 0; AAdvance 0; AAdvance 0; AAdvance 0; AAdvance 0; ANext 1; AAdvance 1;
              AAdvance 0; AAdvance 0] init = Some s.
Proof.
  destruct (schedule [AShutdown 0; AAdvance 0; AAdvance 0; AAdvance 0; AAdvance 0; AAdvance 0; ANext 1; AAdvance 1;
              AAdvance 0; AAdvance 0] init) as [s|] eqn:E; [|vm_compute in E; discriminate].
  exists s. split; [eapply schedule_reachable; [|exact E]; apply rtc_refl|].
  vm_compute in E. injection E as <-. by splits.
Qed.

End ShutdownManager.
