(* ===== verification/IoPool.v ===== *)
(** * The pool of I/O threads ([src/network/io/io_service_pool.cpp])

    An [IoWorker] is an [io_context] and the thread that runs it; the pool deals out the
    contexts in turn.  The thread that calls is any thread: the counter is atomic. *)

From S2P Require Import Prelude.

Module IoServicePool.

(** [thread]: none before [Run]; then the identifier, and whether it can be joined. *)
Record IoWorker := mkWorker {
  work_guard_ : bool;
  stopped : bool;                      (* [m_ioContext_.stop()] was called *)
  m_threadPtr_ : option (Z * bool);
  shutting_down_ : bool;
}.

Definition new_worker : IoWorker := mkWorker false false None false.

(** [id] is the identifier of the new thread. *)
Definition Run_worker (id : Z) (w : IoWorker) : IoWorker :=
  mkWorker true (stopped w) (Some (id, true)) (shutting_down_ w).

(** A joined thread has the identifier of no thread. *)
Definition join (t : option (Z * bool)) : option (Z * bool) :=
  match t with Some (_, true) => Some (0, false) | _ => t end.

Definition Stop_worker (w : IoWorker) : IoWorker :=
  mkWorker false true (join (m_threadPtr_ w)) (shutting_down_ w).

Definition GracefulStop_worker (w : IoWorker) : IoWorker :=
  mkWorker false true (join (m_threadPtr_ w)) true.

(** The first four bytes of the identifier. *)
Definition GetWorkerId (w : IoWorker) : Z :=
  match m_threadPtr_ w with None => 0 | Some (id, _) => u32 id end.

Record state := mkState {
  m_workers : list IoWorker;
  m_worker_map : gmap Z nat;           (* a worker is its place in [m_workers] *)
  _next_service : Z;
}.

Definition init (workerNum : Z) : state := mkState (replicate (Z.to_nat workerNum) new_worker) ∅ 0.

Definition GetWorkerCount (s : state) : Z := Z.of_nat (length (m_workers s)).

(** [std::map::insert] keeps the entry that is there. *)
Fixpoint run_workers (i : nat) (ids : list Z) (ws : list IoWorker) (m : gmap Z nat) :
    list IoWorker * gmap Z nat :=
  match ws with
  | [] => ([], m)
  | w :: r =>
      let w' := Run_worker (default 0 (ids !! i)) w in
      let id := GetWorkerId w' in
      let m' := match m !! id with Some _ => m | None => <[id := i]> m end in
      let '(r', m'') := run_workers (S i) ids r m' in
      (w' :: r', m'')
  end.

Definition Run (ids : list Z) (s : state) : state :=
  let '(ws, m) := run_workers 0 ids (m_workers s) (m_worker_map s) in mkState ws m (_next_service s).

Definition Stop (s : state) : state :=
  mkState (Stop_worker <$> m_workers s) (m_worker_map s) (_next_service s).
Definition GracefulStop (s : state) : state :=
  mkState (GracefulStop_worker <$> m_workers s) (m_worker_map s) (_next_service s).

(** [at] throws out of range; the comparison is of unsigned numbers. *)
Inductive found := Null | Found (i : nat) | Throws.

Definition GetWorker (index : Z) (s : state) : found :=
  if (GetWorkerCount s <? u64 index) || (index <? 0) then Null
  else if index <? GetWorkerCount s then Found (Z.to_nat index) else Throws.

Definition GetWorkerById (id : Z) (s : state) : option nat := m_worker_map s !! id.

(** [None]: there is no worker, and the remainder by zero is undefined. *)
Definition GetIoService (s : state) : option (nat * state) :=
  match m_workers s with
  | [] => None
  | _ => Some (Z.to_nat (_next_service s mod GetWorkerCount s),
               mkState (m_workers s) (m_worker_map s) (u64 (_next_service s + 1)))
  end.

(** ** In turn *)

Fixpoint take_services (n : nat) (s : state) : option (list nat * state) :=
  match n with
  | O => Some ([], s)
  | S m => '(i, s1) ← GetIoService s; '(l, s2) ← take_services m s1; Some (i :: l, s2)
  end.

Lemma take_services_spec n s :
  m_workers s <> [] -> 0 <= _next_service s -> _next_service s + Z.of_nat n < 2 ^ 64 ->
  take_services n s =
    Some ((fun k => Z.to_nat ((_next_service s + Z.of_nat k) mod GetWorkerCount s)) <$> seq 0 n,
          mkState (m_workers s) (m_worker_map s) (_next_service s + Z.of_nat n)).
Proof.
  revert s. induction n as [|n IH]; intros s Hw H0 Hn.
  - cbn [take_services seq fmap list_fmap]. rewrite Z.add_0_r. by destruct s.
  - cbn [take_services]. unfold GetIoService at 1. destruct (m_workers s) eqn:E; [done|].
    cbn [mbind option_bind]. rewrite wrapu_small by (unfold in_u; lia).
    rewrite IH; cbn [m_workers _next_service m_worker_map]; try lia; [|done].
    cbn [mbind option_bind]. do 2 f_equal; [|f_equal; lia].
    cbn [seq]. rewrite <- (fmap_S_seq 0 n), fmap_cons, <- list_fmap_compose. unfold GetWorkerCount. rewrite E. cbn [m_workers].
    f_equal; [by rewrite Z.add_0_r|]. apply list_fmap_ext. intros _ k _. simpl.
    do 2 f_equal. lia.
Qed.

(** In any round of as many calls as there are workers, each worker is dealt once: the work
    is spread evenly.  (The counter is 64 bits wide; the statement is for the calls before it
    wraps.) *)
Theorem services_in_turn s :
  m_workers s <> [] -> 0 <= _next_service s ->
  _next_service s + GetWorkerCount s < 2 ^ 64 ->
  exists l s', take_services (length (m_workers s)) s = Some (l, s') /\
    l ≡ₚ seq 0 (length (m_workers s)) /\ m_workers s' = m_workers s.
Proof.
  intros Hw H0 Hn. rewrite take_services_spec by done. do 2 eexists. split; [done|]. split; [|done].
  set (n := length (m_workers s)) in *. assert (0 < Z.of_nat n) as Hp.
  { subst n. destruct (m_workers s); [done|simpl; lia]. }
  assert (GetWorkerCount s = Z.of_nat n) as -> by done.
  apply submseteq_length_Permutation; [|by rewrite length_fmap].
  apply NoDup_submseteq.
  - apply NoDup_fmap_2_strong; [|apply NoDup_seq]. intros x y [_ Hx]%elem_of_seq [_ Hy]%elem_of_seq He.
    apply Z2Nat.inj in He; [|apply Z.mod_pos_bound; lia|apply Z.mod_pos_bound; lia].
    pose proof (Z.div_mod (_next_service s + Z.of_nat x) (Z.of_nat n) ltac:(lia)).
    pose proof (Z.div_mod (_next_service s + Z.of_nat y) (Z.of_nat n) ltac:(lia)).
    rewrite He in *.
    assert ((_next_service s + Z.of_nat x) / Z.of_nat n = (_next_service s + Z.of_nat y) / Z.of_nat n) by nia. nia.
  - intros i Hi. apply list_elem_of_fmap in Hi as (k & -> & _). apply elem_of_seq.
    pose proof (Z.mod_pos_bound (_next_service s + Z.of_nat k) (Z.of_nat n)). lia.
Qed.

Lemma services_in_turn_witness :
  exists l s', take_services 3 (mkState (replicate 3 new_worker) ∅ 7) = Some (l, s') /\ l ≡ₚ [0; 1; 2]%nat.
Proof.
  destruct (services_in_turn (mkState (replicate 3 new_worker) ∅ 7)) as (l & s' & H1 & H2 & _);
    [discriminate|simpl; lia|vm_compute; reflexivity|].
  exists l, s'. split; [exact H1|exact H2].
Defined.

(** The test of the index lets one through: [GetWorker(GetWorkerCount())] throws where any
    other index out of range gives null. *)
Theorem GetWorker_bounds (index : Z) (s : state) :
  in_s 32 index -> GetWorkerCount s < 2 ^ 31 ->
  GetWorker index s =
    if decide (0 <= index < GetWorkerCount s) then Found (Z.to_nat index)
    else if decide (index = GetWorkerCount s) then Throws else Null.
Proof.
  unfold in_s, GetWorker. intros Hi Hc. assert (0 <= GetWorkerCount s) by (unfold GetWorkerCount; lia).
  destruct (decide (0 <= index)) as [H0|H0].
  - rewrite wrapu_small by (unfold in_u; lia). repeat case_decide; split_ifs; try done; lia.
  - rewrite decide_False by lia. rewrite decide_False by lia.
    replace (index <? 0) with true by lia. by rewrite orb_true_r.
Qed.

Lemma GetWorker_bounds_witness :
  GetWorker 4 (init 4) = Throws /\ GetWorker 5 (init 4) = Null /\ GetWorker 3 (init 4) = Found 3.
Proof.
  rewrite (GetWorker_bounds 4 (init 4)); [|unfold in_s; lia|vm_compute; reflexivity].
  split; [reflexivity|]. by vm_compute.
Defined.

End IoServicePool.
