(* ===== verification/Maintain.v ===== *)
(** * The maintenance of the sessions ([src/network/io/server.cpp], [client.cpp])

    What the timer routine of the server and of the client share: the quota of a time slice,
    the sessions that ran out of quota and wait, and the order in which they try again.  The
    sessions are [MessageStream]s that share one flow controller. *)

From S2P Require Import Prelude TranBuf BufRead Flow Framing MessageStream.
Import TranBufPool.

Module Maintain.

(** ** The quota of a slice *)

(** [std::max(1, 1000 / MAINTAIN_INTERVAL_IN_MS)] *)
Definition slice_count (interval_ms : Z) : Z := Z.max 1 (1000 `quot` interval_ms).

(** Bytes for each slice, from megabytes for each second; [-1] is no limit. *)
Definition slice_quota (max_throughput count : Z) : Z :=
  if max_throughput =? -1 then -1 else Z.max 0 (max_throughput * 1024 * 1024) `quot` count.

Definition max_pending_bytes (mb : Z) : Z := Z.max 0 (mb * 1024 * 1024).

Definition keep_alive (time ticks_per_second : Z) : Z :=
  if time =? -1 then -1 else Z.max 1 time * ticks_per_second.

(** The constructor and the resets of the flow controller take an [int]. *)
Definition new_flow (quota_in quota_out : Z) : FlowController.state :=
  FlowController.mkState (quota_in =? -1) (i32 quota_in) (quota_out =? -1) (i32 quota_out).

(** ** The sessions *)

Record session := mkSession {
  stream : MessageStream.state;
  ticks : Z;
  last_rw : Z;
}.

(** The shared flow controller, and the session objects. *)
Record pool := mkPool { flow : FlowController.state; objs : gmap nat session }.

Definition is_closed (i : nat) (p : pool) : bool :=
  match objs p !! i with Some s => MessageStream.is_closed (stream s) | None => true end.

Definition set_session (i : nat) (s : session) (p : pool) : pool := mkPool (flow p) (<[i := s]> (objs p)).

(** [reset_ticks] *)
Definition reset_ticks (t : Z) (update_last_rw : bool) (s : session) : session :=
  mkSession (stream s) t (if update_last_rw then t else last_rw s).

Definition close (s : session) : session := mkSession (MessageStream.close (stream s)) (ticks s) (last_rw s).

(** The flow controller is one object: a stream sees its present state. *)
Definition share (f : FlowController.state) (m : MessageStream.state) : MessageStream.state :=
  MessageStream.set_read_quota f (MessageStream.read_quota_token m) m.

(** ** Who waits *)

(** The [trigger_list]: the open sessions whose token is used up; [FlowControlItem] orders them
    by the token, the closest to zero first. *)
Definition waiting (token : MessageStream.state -> Z) (ids : list nat) (p : pool) : list (Z * nat) :=
  omap (fun i => s ← objs p !! i;
                 if MessageStream.is_closed (stream s) then None
                 else if token (stream s) <=? 0 then Some (token (stream s), i) else None) ids.

Definition before (a b : Z * nat) : Prop := b.1 <= a.1.
#[global] Instance before_dec a b : Decision (before a b).
Proof. unfold before. apply _. Defined.
#[global] Instance before_total : Total before.
Proof. intros a b. unfold before. lia. Qed.
#[global] Instance before_trans : Transitive before.
Proof. intros a b c. unfold before. lia. Qed.

(** [std::sort] leaves the order of equal tokens open; this is one of the orders. *)
Definition trigger_list (token : MessageStream.state -> Z) (ids : list nat) (p : pool) : list nat :=
  snd <$> merge_sort before (waiting token ids p).

Definition trigger_receive_at (p : pool) (i : nat) : pool :=
  match objs p !! i with
  | None => p
  | Some s =>
      let m := (MessageStream.trigger_receive (share (flow p) (stream s))).2 in
      mkPool (MessageStream.flow m) (<[i := mkSession m (ticks s) (last_rw s)]> (objs p))
  end.

Definition trigger_send_at (op : option pool) (i : nat) : option pool :=
  p ← op;
  match objs p !! i with
  | None => Some p
  | Some s =>
      '(_, m) ← MessageStream.trigger_send (fun _ => true) (share (flow p) (stream s));
      Some (mkPool (MessageStream.flow m) (<[i := mkSession m (ticks s) (last_rw s)]> (objs p)))
  end.

(** The two halves of the routine. *)
Definition serve_reads (quota : Z) (ids : list nat) (p : pool) : pool :=
  let p1 := mkPool (FlowController.recharge_read_quota quota (flow p)) (objs p) in
  fold_left trigger_receive_at (trigger_list MessageStream.read_quota_token ids p1) p1.

Definition serve_writes (quota : Z) (ids : list nat) (p : pool) : option pool :=
  let p1 := mkPool (FlowController.recharge_write_quota quota (flow p)) (objs p) in
  fold_left trigger_send_at (trigger_list MessageStream.write_quota_token ids p1) (Some p1).

(** ** The quota *)

(** The quota of a second is what the limit says, but for the remainder of the division. *)
Lemma slice_quota_range t c :
  0 < c -> 0 <= t -> 0 <= slice_quota t c /\ c * slice_quota t c <= t * 1048576 < c * (slice_quota t c + 1).
Proof.
  intros Hc Ht. unfold slice_quota. replace (t =? -1) with false by lia.
  rewrite Z.max_r by lia. rewrite Z.quot_div_nonneg by lia.
  pose proof (Z.div_mod (t * 1024 * 1024) c). pose proof (Z.mod_pos_bound (t * 1024 * 1024) c). nia.
Qed.

(** ** In order *)

(** What a session needs to try to read, apart from quota. *)
Definition may_read (s : MessageStream.state) : bool :=
  bool_decide (MessageStream.receive_token s = MessageStream.TOKEN_FREE) &&
  negb (bool_decide (MessageStream.kind s = MessageStream.NT_SERVER) &&
        (MessageStream.max_pending_buffer_size s <? MessageStream.pending_buffer_size s)) &&
  MessageStream.is_connected s.

Lemma trigger_receive_token f m :
  let m' := (MessageStream.trigger_receive (share f m)).2 in
  if may_read m then
    MessageStream.read_quota_token m' = (FlowController.acquire_read_quota (MessageStream.receiving_size m) f).1 /\
    MessageStream.flow m' = (FlowController.acquire_read_quota (MessageStream.receiving_size m) f).2
  else MessageStream.read_quota_token m' = 1 /\ MessageStream.flow m' = f.
Proof.
  unfold MessageStream.trigger_receive, MessageStream.try_start_receive, may_read. cbn.
  destruct (decide _) as [E|E].
  - cbn in E. by rewrite E.
  - cbn in E. destruct (MessageStream.receive_token m); [|done]. cbn.
    change (MessageStream.pending_buffer_size (MessageStream.set_read_quota f 1 (share f m)))
      with (MessageStream.pending_buffer_size m).
    destruct (bool_decide (MessageStream.kind m = _) && _); [done|]. cbn. unfold MessageStream.is_connected. cbn.
    rewrite (bool_decide_true (MessageStream.TOKEN_FREE = _)) by done. cbn.
    destruct (bool_decide _); [|done].
    destruct (FlowController.acquire_read_quota _ f) as [q f'] eqn:Eq. cbn.
    destruct (q <=? 0); done.
Qed.

Definition token_at (i : nat) (p : pool) : option Z :=
  (fun s => MessageStream.read_quota_token (stream s)) <$> objs p !! i.

Definition limited (p : pool) : Prop := FlowController._read_no_limit (flow p) = false.

Lemma trigger_receive_at_other i j p : i <> j -> objs (trigger_receive_at p i) !! j = objs p !! j.
Proof. intros. unfold trigger_receive_at. destruct (objs p !! i); [|done]. by apply lookup_insert_ne. Qed.

(** One try: a session that may not read keeps the quota and has the token 1; the others take
    a place in the order. *)
Lemma trigger_receive_at_spec i p s :
  objs p !! i = Some s -> limited p ->
  let q := FlowController._read_quota (flow p) in
  let p' := trigger_receive_at p i in
  limited p' /\
  if may_read (stream s) then
    token_at i p' = Some q /\
    FlowController._read_quota (flow p') = FlowController.acquired (MessageStream.receiving_size (stream s)) q
  else token_at i p' = Some 1 /\ FlowController._read_quota (flow p') = q.
Proof.
  intros Hi Hl q p'. subst p' q. unfold trigger_receive_at, token_at, limited in *. rewrite Hi. cbn.
  rewrite lookup_insert_eq. cbn. pose proof (trigger_receive_token (flow p) (stream s)) as Ht. cbn in Ht.
  unfold FlowController.acquire_read_quota in Ht. rewrite Hl in Ht. cbn in Ht.
  destruct (may_read _); destruct Ht as [-> ->]; by rewrite ?Hl.
Qed.

Lemma trigger_all l p :
  NoDup l -> limited p ->
  let p' := fold_left trigger_receive_at l p in
  (forall i, i ∉ l -> objs p' !! i = objs p !! i) /\
  (FlowController._read_quota (flow p) <= 0 -> forall j s, j ∈ l -> objs p !! j = Some s ->
     may_read (stream s) = true ->
     exists t, token_at j p' = Some t /\ t <= FlowController._read_quota (flow p)) /\
  (forall a b i j s ti, (a < b)%nat -> l !! a = Some i -> l !! b = Some j ->
     token_at i p' = Some ti -> ti <= 0 -> objs p !! j = Some s -> may_read (stream s) = true ->
     is_Some (objs p !! i) -> exists tj, token_at j p' = Some tj /\ tj < ti).
Proof.
  revert p. induction l as [|i l IH]; intros p Hnd Hl; cbv zeta.
  { splits; [done|by intros _ j s ?%elem_of_nil|by intros a b i j s ti _ Ha]. }
  cbn [fold_left]. apply NoDup_cons in Hnd as [Hi Hnd].
  assert (limited (trigger_receive_at p i)) as Hl1.
  { destruct (objs p !! i) as [s|] eqn:E; [by apply (trigger_receive_at_spec i p s)|].
    unfold trigger_receive_at. by rewrite E. }
  destruct (IH _ Hnd Hl1) as (H1 & H2 & H3). clear IH.
  set (p1 := trigger_receive_at p i) in *. set (p' := fold_left trigger_receive_at l p1) in *.
  assert (token_at i p' = token_at i p1) as Hti by (unfold token_at; by rewrite H1).
  splits.
  - intros j [Hij Hj]%not_elem_of_cons. rewrite H1 by done. by apply trigger_receive_at_other.
  - intros Hq j s Hj Hs Hm. apply elem_of_cons in Hj as [->|Hj].
    + destruct (trigger_receive_at_spec i p s Hs Hl) as [_ Ht]. rewrite Hm in Ht. destruct Ht as [Ht _].
      rewrite Hti. eexists. split; [exact Ht|lia].
    + assert (i <> j) as Hij by (intros ->; done).
      assert (FlowController._read_quota (flow p1) <= FlowController._read_quota (flow p)) as Hle.
      { destruct (objs p !! i) as [s0|] eqn:E; [|subst p1; unfold trigger_receive_at; rewrite E; lia].
        destruct (trigger_receive_at_spec i p s0 E Hl) as [_ Ht].
        unfold FlowController.acquired in Ht. destruct (may_read (stream s0)); destruct Ht as [_ Ht]; fold p1 in Ht; [|lia].
        replace (0 <? _) with false in Ht by lia. lia. }
      destruct (H2 ltac:(lia) j s Hj) as (t & Ht & Htq); [|done|].
      { subst p1. by rewrite trigger_receive_at_other. }
      exists t. split; [done|lia].
  - intros a b i' j s ti Hab Ha Hb Ht Hle Hs Hm Hsi.
    destruct b as [|b]; [lia|]. cbn in Hb. assert (j ∈ l) as Hj by by eapply list_elem_of_lookup_2.
    assert (i <> j) as Hij by (intros ->; done).
    assert (objs p1 !! j = Some s) as Hs1 by (subst p1; by rewrite trigger_receive_at_other).
    destruct a as [|a]; cbn in Ha.
    + injection Ha as <-. destruct Hsi as [si Hsi]. rewrite Hti in Ht.
      destruct (trigger_receive_at_spec i p si Hsi Hl) as [_ Hsp]. fold p1 in Hsp.
      destruct (may_read (stream si)); destruct Hsp as [Hsp Hq]; rewrite Ht in Hsp; injection Hsp as ->; [|lia].
      unfold FlowController.acquired in Hq. replace (0 <? _) with false in Hq by lia.
      destruct (H2 ltac:(lia) j s Hj Hs1 Hm) as (tj & Htj & Hlt). exists tj. split; [done|lia].
    + assert (i <> i') as Hii by (intros ->; by apply Hi; eapply list_elem_of_lookup_2).
      eapply (H3 a b i' j s ti); eauto; [lia|]. subst p1. by rewrite trigger_receive_at_other.
Qed.

Lemma waiting_sublist token ids p : (waiting token ids p).*2 `sublist_of` ids.
Proof.
  induction ids as [|i ids IH]; [done|]. unfold waiting in *. cbn [omap list_omap].
  destruct (objs p !! i) as [s|]; cbn [mbind option_bind]; [|by apply sublist_cons].
  destruct (MessageStream.is_closed (stream s)); [by apply sublist_cons|].
  destruct (token (stream s) <=? 0); [|by apply sublist_cons]. by apply sublist_skip.
Qed.

Lemma elem_of_waiting token ids p t i :
  (t, i) ∈ waiting token ids p <->
  i ∈ ids /\ exists s, objs p !! i = Some s /\ MessageStream.is_closed (stream s) = false /\
    token (stream s) = t /\ t <= 0.
Proof.
  unfold waiting. rewrite list_elem_of_omap. split.
  - intros (j & Hj & He). destruct (objs p !! j) as [s|] eqn:E; cbn in He; [|done].
    destruct (MessageStream.is_closed (stream s)) eqn:Ec; [done|].
    destruct (token (stream s) <=? 0) eqn:Et; [|done]. injection He as <- <-.
    split; [done|]. exists s. splits; auto; lia.
  - intros (Hi & s & Hs & Hc & <- & Ht). exists i. split; [done|]. rewrite Hs. cbn. rewrite Hc.
    by replace (token (stream s) <=? 0) with true by lia.
Qed.

Lemma strongly_sorted_lookups {A} (R : relation A) l a b x y :
  StronglySorted R l -> (a < b)%nat -> l !! a = Some x -> l !! b = Some y -> R x y.
Proof.
  intros Hs Hab Ha Hb. rewrite <- (take_drop (S a) l) in Hs.
  eapply StronglySorted_app_1_elem_of; [exact Hs| |].
  - apply list_elem_of_lookup. exists a. rewrite lookup_take_lt by lia. done.
  - apply list_elem_of_lookup. exists (b - S a)%nat. rewrite lookup_drop. by replace (S a + (b - S a))%nat with b by lia.
Qed.

(** The place of a session in the list is after those with a token closer to zero. *)
Lemma trigger_list_order token ids p i j si sj :
  i ∈ ids -> j ∈ ids -> objs p !! i = Some si -> objs p !! j = Some sj ->
  MessageStream.is_closed (stream si) = false -> MessageStream.is_closed (stream sj) = false ->
  token (stream si) <= 0 -> token (stream sj) < token (stream si) ->
  exists a b, (a < b)%nat /\ trigger_list token ids p !! a = Some i /\ trigger_list token ids p !! b = Some j.
Proof.
  intros Hi Hj Hsi Hsj Hci Hcj Hti Htj.
  pose proof (StronglySorted_merge_sort before (waiting token ids p)) as Hss.
  assert (forall t k, (t, k) ∈ waiting token ids p -> exists a, merge_sort before (waiting token ids p) !! a = Some (t, k)) as Hin.
  { intros t k Hk. apply list_elem_of_lookup. by rewrite merge_sort_Permutation. }
  destruct (Hin (token (stream si)) i) as [a Ha].
  { apply elem_of_waiting. split; [done|]. exists si. by splits. }
  destruct (Hin (token (stream sj)) j) as [b Hb].
  { apply elem_of_waiting. split; [done|]. exists sj. splits; auto; lia. }
  exists a, b. unfold trigger_list. rewrite !list_lookup_fmap, Ha, Hb. split; [|done].
  destruct (decide (a < b)%nat) as [|Hn]; [done|exfalso].
  destruct (decide (a = b)) as [->|Hne]; [rewrite Ha in Hb; injection Hb as Hb _; lia|].
  pose proof (strongly_sorted_lookups before _ b a _ _ Hss ltac:(lia) Hb Ha) as Hbf. unfold before in Hbf. cbn in Hbf. lia.
Qed.

Lemma trigger_list_nodup token ids p : NoDup ids -> NoDup (trigger_list token ids p).
Proof.
  intros Hnd. unfold trigger_list. rewrite merge_sort_Permutation.
  eapply sublist_NoDup; [done|apply waiting_sublist].
Qed.


(** ** Limits are flags *)

(** Which directions are limited; no acquisition and no recharge changes it. *)
Definition limits (f : FlowController.state) : bool * bool :=
  (FlowController._read_no_limit f, FlowController._write_no_limit f).

Lemma trigger_receive_limits m : limits (MessageStream.flow (MessageStream.trigger_receive m).2) = limits (MessageStream.flow m).
Proof.
  unfold MessageStream.trigger_receive, MessageStream.try_start_receive. case_decide; [done|].
  case_if; [done|]. destruct (_ && _); [done|]. case_if; [|done].
  unfold FlowController.acquire_read_quota. cbn.
  destruct (FlowController._read_no_limit (MessageStream.flow m)) eqn:E; [done|]. case_if; unfold limits; cbn; by rewrite E.
Qed.

Lemma send_loop_limits f n m b m' :
  MessageStream.send_loop f n m = Some (b, m') -> limits (MessageStream.flow m') = limits (MessageStream.flow m).
Proof.
  revert m. induction n as [|n IH]; intros m; [done|]. cbn [MessageStream.send_loop].
  destruct (MessageStream.is_connected m && _); [|by intros [= _ <-]]. cbv zeta.
  destruct (MessageStream.get_from_pending_queue _) as [[x|] t].
  - destruct (negb (f x)); [by intros [= _ <-]|].
    destruct (FlowController.acquire_write_quota _ _) as [q fl] eqn:Eq.
    assert (limits fl = limits (MessageStream.flow m)) as <-.
    { unfold FlowController.acquire_write_quota in Eq. cbn in Eq.
      destruct (FlowController._write_no_limit (MessageStream.flow m)) eqn:E; injection Eq as _ <-; [done|].
      unfold limits. cbn. by rewrite E. }
    destruct (q <=? 0); [by intros [= _ <-]|].
    destruct (MessageStream.next_block _ _) as [? t']. by intros [= _ <-].
  - case_if; [by intros [= _ <-]|]. intros Hs. by rewrite (IH _ Hs).
Qed.

Lemma trigger_send_limits m b m' :
  MessageStream.trigger_send (fun _ => true) m = Some (b, m') -> limits (MessageStream.flow m') = limits (MessageStream.flow m).
Proof.
  unfold MessageStream.trigger_send, MessageStream.try_start_send.
  case_decide; [by intros [= _ <-]|]. case_if; [by intros [= _ <-]|].
  by intros ->%send_loop_limits.
Qed.

Lemma serve_reads_limits q ids p : limits (flow (serve_reads q ids p)) = limits (flow p).
Proof.
  unfold serve_reads. set (p1 := mkPool _ (objs p)).
  assert (limits (flow p1) = limits (flow p)) as <-.
  { subst p1. cbn. unfold FlowController.recharge_read_quota, limits.
    destruct (FlowController._read_no_limit (flow p)) eqn:E; cbn; by rewrite ?E. }
  generalize (trigger_list MessageStream.read_quota_token ids p1). intros l. clearbody p1. revert p1.
  induction l as [|i l IH]; intros p1; [done|]. cbn [fold_left]. rewrite IH. unfold trigger_receive_at.
  destruct (objs p1 !! i); [|done]. cbn [flow]. by rewrite trigger_receive_limits.
Qed.

Lemma trigger_send_none l p : fold_left trigger_send_at l None <> Some p.
Proof. induction l as [|k l IH]; [done|]. exact IH. Qed.

(** What holds of a try to send holds of all of them. *)
Lemma serve_writes_ind {A} (f : pool -> A) q ids p p' :
  (forall p1 i x m b, objs p1 !! i = Some x ->
     MessageStream.trigger_send (fun _ => true) (share (flow p1) (stream x)) = Some (b, m) ->
     f (mkPool (MessageStream.flow m) (<[i := mkSession m (ticks x) (last_rw x)]> (objs p1))) = f p1) ->
  f (mkPool (FlowController.recharge_write_quota q (flow p)) (objs p)) = f p ->
  serve_writes q ids p = Some p' -> f p' = f p.
Proof.
  intros Hf <-. unfold serve_writes. set (p1 := mkPool _ (objs p)).
  generalize (trigger_list MessageStream.write_quota_token ids p1). clearbody p1. intros l. revert p1.
  induction l as [|j l IH]; intros p1; cbn [fold_left]; [by intros [= <-]|].
  destruct (trigger_send_at (Some p1) j) as [p2|] eqn:E; [|by intros ?%trigger_send_none].
  intros ->%IH. unfold trigger_send_at in E. cbn in E. destruct (objs p1 !! j) as [x|] eqn:Ej; [|by simplify_eq].
  destruct (MessageStream.trigger_send _ _) as [[b m]|] eqn:Em; [|done]. cbn in E. injection E as <-.
  by eapply Hf.
Qed.

Lemma serve_writes_limits q ids p p' : serve_writes q ids p = Some p' -> limits (flow p') = limits (flow p).
Proof.
  apply (serve_writes_ind (fun p => limits (flow p))).
  - intros p1 i x m b _ Hm. cbn [flow]. by rewrite (trigger_send_limits _ _ _ Hm).
  - cbn [flow]. unfold FlowController.recharge_write_quota, limits.
    destruct (FlowController._write_no_limit (flow p)) eqn:E; cbn; by rewrite ?E.
Qed.

(** Two sessions that wait; the quota stays below zero, and both are refused. *)
Definition demo_flow (q : Z) : FlowController.state := FlowController.mkState false q true (-1).
Definition demo_session (t : Z) : session :=
  mkSession (MessageStream.set_read_quota (demo_flow 0) t
    (MessageStream.set_status MessageStream.STATUS_CONNECTED
       (MessageStream.init MessageStream.NT_SERVER 0 (mkHeap ∅ 0)))) 0 0.
Definition demo_pool : pool := mkPool (demo_flow (-10)) (<[1%nat := demo_session (-2)]> {[2%nat := demo_session (-1)]}).


End Maintain.
