(* ===== verification/Server.v ===== *)
(** * The server ([src/network/io/server.cpp], [listener.cpp])

    [ServerImpl] keeps the set of the accepted sessions, the limits of [ServerOptions] and
    the flow controller the sessions share; its timer routine closes idle sessions, recharges
    the quota and lets the sessions that wait try again ([Maintain]).  The callbacks of the
    application are events.  The operations are run whole, except where the model is about
    threads: the two sections of [OnAccepted], and the locks of [Stop] and the timer. *)

From S2P Require Import Prelude TranBuf BufRead Flow Framing MessageStream Maintain.
Import TranBufPool Maintain.

Module ServerImpl.

Definition MAINTAIN_INTERVAL_IN_MS : Z := 100.

(** The part of the options the server uses (the rest goes to sockets and certificates). *)
Record ServerOptions := mkOptions {
  max_connection_count : Z;
  keep_alive_time : Z;
  max_pending_buffer_size : Z;
  max_throughput_in : Z;
  max_throughput_out : Z;
  read_buffer_base_block_factor : Z;
  kcp : bool;                          (* [transport_type] is KCP *)
}.

Inductive event := EvConnected (i : nat) | EvClosed (i : nat) | EvReceived (i : nat) | EvRestart.

Record state := mkState {
  _options : ServerOptions;
  _is_runing : bool;
  _slice_quota_in : Z; _slice_quota_out : Z;
  _max_pending_buffer_size : Z;
  _keep_alive_ticks : Z;
  _flow_controller : bool;             (* there is one: between [Start] and [Stop] *)
  sessions : pool;                     (* the shared flow controller, and all session objects *)
  _session_set : list nat;             (* ordered by address, without repetition *)
  listener_closed : bool;
  _last_restart_listen_ticks : Z;
  _last_maintain_ticks : Z;
  out : list event;
}.

Definition slices : Z := slice_count MAINTAIN_INTERVAL_IN_MS.
Definition restart_listen_interval : Z := 3.

Definition init (o : ServerOptions) : state :=
  mkState o false (slice_quota (max_throughput_in o) slices) (slice_quota (max_throughput_out o) slices)
    (max_pending_bytes (max_pending_buffer_size o)) (keep_alive (keep_alive_time o) 1) false
    (mkPool (new_flow (-1) (-1)) ∅) [] true 0 0 [].

Definition set_limits (o : ServerOptions) (qi qo mp ka : Z) (s : state) : state :=
  mkState o (_is_runing s) qi qo mp ka (_flow_controller s) (sessions s) (_session_set s)
    (listener_closed s) (_last_restart_listen_ticks s) (_last_maintain_ticks s) (out s).
Definition set_run (r f lc : bool) (s : state) : state :=
  mkState (_options s) r (_slice_quota_in s) (_slice_quota_out s) (_max_pending_buffer_size s)
    (_keep_alive_ticks s) f (sessions s) (_session_set s) lc (_last_restart_listen_ticks s)
    (_last_maintain_ticks s) (out s).
Definition set_sessions (p : pool) (l : list nat) (s : state) : state :=
  mkState (_options s) (_is_runing s) (_slice_quota_in s) (_slice_quota_out s) (_max_pending_buffer_size s)
    (_keep_alive_ticks s) (_flow_controller s) p l (listener_closed s) (_last_restart_listen_ticks s)
    (_last_maintain_ticks s) (out s).
Definition set_ticks (restart maintain : Z) (s : state) : state :=
  mkState (_options s) (_is_runing s) (_slice_quota_in s) (_slice_quota_out s) (_max_pending_buffer_size s)
    (_keep_alive_ticks s) (_flow_controller s) (sessions s) (_session_set s) (listener_closed s)
    restart maintain (out s).
Definition emit (e : event) (s : state) : state :=
  mkState (_options s) (_is_runing s) (_slice_quota_in s) (_slice_quota_out s) (_max_pending_buffer_size s)
    (_keep_alive_ticks s) (_flow_controller s) (sessions s) (_session_set s) (listener_closed s)
    (_last_restart_listen_ticks s) (_last_maintain_ticks s) (out s ++ [e]).

(** ** The set of sessions *)

Fixpoint set_insert (i : nat) (l : list nat) : list nat :=
  match l with
  | [] => [i]
  | j :: r => if decide (i = j) then l else if decide (i < j)%nat then i :: l else j :: set_insert i r
  end.

Definition set_erase (i : nat) (l : list nat) : list nat := filter (fun j => j <> i) l.

Definition ConnectionCount (s : state) : Z := Z.of_nat (length (_session_set s)).

(** ** Callbacks of the sessions *)

Definition OnClosed (i : nat) (s : state) : state :=
  if negb (_is_runing s) then s
  else let s1 := emit (EvClosed i) s in set_sessions (sessions s1) (set_erase i (_session_set s1)) s1.

(** [session->close]: an open session is closed, and says so. *)
Definition close_session (i : nat) (s : state) : state :=
  match objs (sessions s) !! i with
  | None => s
  | Some x =>
      if MessageStream.is_closed (stream x) then s
      else OnClosed i (set_sessions (set_session i (close x) (sessions s)) (_session_set s) s)
  end.

Definition OnReceived (i : nat) (s : state) : state := if negb (_is_runing s) then s else emit (EvReceived i) s.

Definition set_read_factor (f : Z) (m : MessageStream.state) : MessageStream.state :=
  MessageStream.mkState (MessageStream.kind m) (MessageStream.status m) (MessageStream.recv m)
    (MessageStream.receiving_data m) (MessageStream.receiving_size m) f (MessageStream.send m)
    (MessageStream.flow m) (MessageStream.max_pending_buffer_size m) (MessageStream.read_quota_token m)
    (MessageStream.write_quota_token m) (MessageStream.send_token m) (MessageStream.receive_token m)
    (MessageStream.total_received_count m) (MessageStream.total_received_size m)
    (MessageStream.total_sent_count m) (MessageStream.total_sent_size m) (MessageStream.mem m) (MessageStream.out m).

Definition set_max_pending (n : Z) (m : MessageStream.state) : MessageStream.state :=
  MessageStream.mkState (MessageStream.kind m) (MessageStream.status m) (MessageStream.recv m)
    (MessageStream.receiving_data m) (MessageStream.receiving_size m) (MessageStream.block_factor m)
    (MessageStream.send m) (MessageStream.flow m) n (MessageStream.read_quota_token m)
    (MessageStream.write_quota_token m) (MessageStream.send_token m) (MessageStream.receive_token m)
    (MessageStream.total_received_count m) (MessageStream.total_received_size m)
    (MessageStream.total_sent_count m) (MessageStream.total_sent_size m) (MessageStream.mem m) (MessageStream.out m).

Definition on_stream (f : MessageStream.state -> MessageStream.state) (x : session) : session :=
  mkSession (f (stream x)) (ticks x) (last_rw x).

Definition update (i : nat) (f : session -> session) (s : state) : state :=
  set_sessions (mkPool (flow (sessions s)) (alter f i (objs (sessions s)))) (_session_set s) s.

(** [OnAccepted] up to the test of the count: [false] when the session was closed. *)
Definition accept_check (i : nat) (s : state) : bool * state :=
  if negb (_is_runing s) then (false, close_session i s)
  else
    let f := Z.min (read_buffer_base_block_factor (_options s)) TRAN_BUF_BLOCK_MAX_FACTOR in
    let s1 := update i (on_stream (set_read_factor f)) s in
    let m := max_connection_count (_options s1) in
    if negb (m =? -1) && (m <=? ConnectionCount s1) then (false, close_session i s1) else (true, s1).

Definition accept_insert (i : nat) (now_ticks : Z) (s : state) : state :=
  let s1 := update i (fun x => reset_ticks now_ticks true
                                 (on_stream (set_max_pending (_max_pending_buffer_size s)) x)) s in
  emit (EvConnected i) (set_sessions (sessions s1) (set_insert i (_session_set s1)) s1).

Definition OnAccepted (i : nat) (now_ticks : Z) (s : state) : state :=
  let '(ok, s1) := accept_check i s in if ok then accept_insert i now_ticks s1 else s1.

(** ** Options *)

(** [None]: the quota changes while there is no flow controller. *)
Definition ResetOptions (options : ServerOptions) (s : state) : option state :=
  let o := mkOptions (max_connection_count options) (keep_alive_time options) (max_pending_buffer_size options)
             (max_throughput_in options) (max_throughput_out options)
             (read_buffer_base_block_factor (_options s)) (kcp (_options s)) in
  let qi := slice_quota (max_throughput_in o) slices in
  let qo := slice_quota (max_throughput_out o) slices in
  let mp := max_pending_bytes (max_pending_buffer_size o) in
  let s1 := set_limits o qi qo mp (keep_alive (keep_alive_time o) 1) s in
  let s2 := if mp =? _max_pending_buffer_size s then s1
            else fold_left (fun a i => update i (on_stream (set_max_pending mp)) a) (_session_set s1) s1 in
  let f := flow (sessions s2) in
  if ((negb (qi =? _slice_quota_in s)) || negb (qo =? _slice_quota_out s)) && negb (_flow_controller s) then None
  else
    let f1 := if qi =? _slice_quota_in s then f else FlowController.reset_read_quota (qi =? -1) (i32 qi) f in
    let f2 := if qo =? _slice_quota_out s then f1 else FlowController.reset_write_quota (qo =? -1) (i32 qo) f1 in
    Some (set_sessions (mkPool f2 (objs (sessions s2))) (_session_set s2) s2).

(** ** The timer routine *)

(** A new listener; when it cannot listen, a [KcpListener] is closed, since it is made closed,
    and a [Listener] is not. *)
Definition ReStartListen (listen_ok : bool) (s : state) : bool * state :=
  if negb (_is_runing s) then (false, s)
  else (listen_ok, emit EvRestart (set_run (_is_runing s) (_flow_controller s)
                                     (if listen_ok then false else kcp (_options s)) s)).

(** [Listener::on_accept] with an error closes the listener; [OnAcceptedFailed] does nothing. *)
Definition accept_error (s : state) : state := set_run (_is_runing s) (_flow_controller s) true s.

Definition keep_alive_one (now_ticks : Z) (s : state) (i : nat) : state :=
  if is_closed i (sessions s) then s
  else
    let last := default 0 (last_rw <$> objs (sessions s) !! i) in
    if _keep_alive_ticks s <=? now_ticks - last then close_session i s
    else update i (reset_ticks now_ticks false) s.

Definition no_limit (q : Z) : bool := q =? -1.

Definition TimerMaintain (now_ticks : Z) (listen_ok : bool) (s : state) : option state :=
  let s1 := if listener_closed s && (restart_listen_interval <=? now_ticks - _last_restart_listen_ticks s)
            then (ReStartListen listen_ok (set_ticks now_ticks (_last_maintain_ticks s) s)).2
            else s in
  s4 ← (if no_limit (_keep_alive_ticks s1) && no_limit (_slice_quota_in s1) && no_limit (_slice_quota_out s1)
        then Some s1
        else
          let ids := _session_set s1 in
          let s2 := if no_limit (_keep_alive_ticks s1) then s1
                    else fold_left (keep_alive_one now_ticks) ids s1 in
          let s3 := if no_limit (_slice_quota_in s2) then s2
                    else set_sessions (serve_reads (i32 (_slice_quota_in s2)) ids (sessions s2)) (_session_set s2) s2 in
          if no_limit (_slice_quota_out s3) then Some s3
          else p ← serve_writes (i32 (_slice_quota_out s3)) ids (sessions s3);
               Some (set_sessions p (_session_set s3) s3));
  Some (set_ticks (_last_restart_listen_ticks s4) now_ticks s4).

(** ** Start and stop *)

(** [resolve_ok], [listen_ok]: what the system answers. *)
Definition Start (resolve_ok listen_ok : bool) (s : state) : bool * state :=
  if _is_runing s then (false, s)
  else if negb (resolve_ok && listen_ok) then (false, set_run false false true s)
  else
    (true, set_run true true false
             (set_sessions (mkPool (new_flow (_slice_quota_in s) (_slice_quota_out s)) (objs (sessions s)))
                (_session_set s) s)).

Definition Stop (s : state) : state :=
  if negb (_is_runing s) then s
  else
    let s1 := set_run false (_flow_controller s) true s in
    let s2 := fold_left (fun a i => close_session i a) (_session_set s1) s1 in
    set_run false false true (set_sessions (sessions s2) [] s2).

Definition GetPendingStat (s : state) : Z * Z * Z :=
  fold_left (fun '(c, b, d) i =>
      match objs (sessions s) !! i with
      | Some x => (c + MessageStream.pending_message_total (stream x), b + MessageStream.pending_buffer_size (stream x),
                   d + MessageStream.pending_data_total (stream x))
      | None => (c, b, d)
      end) (_session_set s) (0, 0, 0).

Definition IsListening (s : state) : bool := _is_runing s && negb (listener_closed s).

(** ** The limit of connections *)

Lemma length_set_insert i l : (length (set_insert i l) <= S (length l))%nat.
Proof. induction l as [|j r IH]; [done|]. cbn. repeat case_decide; cbn; lia. Qed.

Lemma length_set_erase i l : (length (set_erase i l) <= length l)%nat.
Proof. apply length_filter. Qed.

Lemma close_session_count i s : ConnectionCount (close_session i s) <= ConnectionCount s.
Proof.
  unfold close_session, OnClosed, ConnectionCount. destruct (objs _ !! i); [|lia].
  case_if; [lia|]. cbn [_is_runing _session_set set_sessions emit].
  destruct (_is_runing s); cbn [negb _session_set set_sessions emit]; [|lia]. pose proof (length_set_erase i (_session_set s)). lia.
Qed.

(** Accepting, one session after the other, keeps to the limit. *)
Theorem accept_keeps_limit (i : nat) (now_ticks : Z) (s : state) :
  max_connection_count (_options s) <> -1 ->
  ConnectionCount (OnAccepted i now_ticks s) <= Z.max (ConnectionCount s) (max_connection_count (_options s)).
Proof.
  intros Hm. unfold OnAccepted, accept_check. destruct (_is_runing s); cbn [negb].
  2:{ pose proof (close_session_count i s). lia. }
  set (s1 := update _ _ s). change (_options s1) with (_options s).
  assert (ConnectionCount s1 = ConnectionCount s) as Hc by done.
  replace (max_connection_count (_options s) =? -1) with false by lia. cbn [negb andb].
  case_if; [pose proof (close_session_count i s1); lia|].
  unfold accept_insert, ConnectionCount in *. cbn in *.
  pose proof (length_set_insert i (_session_set s)). lia.
Qed.

Lemma length_set_insert_new i l : i ∉ l -> length (set_insert i l) = S (length l).
Proof.
  induction l as [|j r IH]; [done|]. intros [Hij Hr]%not_elem_of_cons. cbn.
  rewrite decide_False by done. case_decide; [done|]. cbn. by rewrite IH.
Qed.

Lemma elem_of_set_insert i j l : j ∈ set_insert i l <-> j = i \/ j ∈ l.
Proof.
  induction l as [|k r IH]; cbn; [by rewrite list_elem_of_singleton, elem_of_nil; naive_solver|].
  case_decide as Hik; [subst; rewrite elem_of_cons; naive_solver|].
  case_decide; rewrite !elem_of_cons; [naive_solver|]. rewrite IH. naive_solver.
Qed.

Lemma accept_check_passes i s :
  _is_runing s = true -> ConnectionCount s < max_connection_count (_options s) ->
  exists s1, accept_check i s = (true, s1) /\ _session_set s1 = _session_set s /\
    _is_runing s1 = true /\ _options s1 = _options s.
Proof.
  intros Hr Hc. unfold accept_check. rewrite Hr. cbn [negb].
  set (s1 := update _ _ s). change (_options s1) with (_options s). change (ConnectionCount s1) with (ConnectionCount s).
  replace (max_connection_count (_options s) <=? ConnectionCount s) with false by lia. rewrite andb_false_r.
  by exists s1.
Qed.

(** The test and the insertion are two sections of the mutex: two sessions that are accepted on
    different threads, when there is room for one, both pass the test, and the limit is
    exceeded. *)
Theorem accepts_race (s : state) (i j : nat) (t : Z) :
  _is_runing s = true -> ConnectionCount s + 1 = max_connection_count (_options s) ->
  i ∉ _session_set s -> j ∉ _session_set s -> i <> j ->
  exists s1 s2, accept_check i s = (true, s1) /\ accept_check j s1 = (true, s2) /\
    ConnectionCount (accept_insert j t (accept_insert i t s2)) = max_connection_count (_options s) + 1.
Proof.
  intros Hr Hc Hi Hj Hij. destruct (accept_check_passes i s Hr ltac:(lia)) as (s1 & H1 & Hs1 & Hr1 & Ho1).
  destruct (accept_check_passes j s1 Hr1) as (s2 & H2 & Hs2 & _ & _).
  { unfold ConnectionCount in *. rewrite Hs1, Ho1. lia. }
  exists s1, s2. split; [done|]. split; [done|]. rewrite <- Hc. unfold ConnectionCount.
  change (_session_set (accept_insert j t (accept_insert i t s2))) with (set_insert j (set_insert i (_session_set s2))).
  rewrite Hs2, Hs1, !length_set_insert_new; [lia|done|]. rewrite elem_of_set_insert. naive_solver.
Qed.

(** ** A limit that is lifted *)

Definition read_token (i : nat) (s : state) : option Z := token_at i (sessions s).

Lemma alter_token f i j p :
  (forall x, MessageStream.read_quota_token (stream (f x)) = MessageStream.read_quota_token (stream x)) ->
  token_at j (mkPool (flow p) (alter f i (objs p))) = token_at j p.
Proof.
  intros Hf. unfold token_at. cbn. destruct (decide (i = j)) as [->|Hij].
  - rewrite lookup_alter_eq. destruct (objs p !! j); cbn; [by rewrite Hf|done].
  - by rewrite lookup_alter_ne.
Qed.

Lemma close_session_token i j s : read_token j (close_session i s) = read_token j s.
Proof.
  unfold close_session, OnClosed. destruct (objs _ !! i) as [x|] eqn:E; [|done]. case_if; [done|]. cbn.
  assert (read_token j (set_sessions (set_session i (close x) (sessions s)) (_session_set s) s) = read_token j s) as Hx.
  { unfold read_token, token_at. cbn. destruct (decide (i = j)) as [->|Hij].
    - rewrite lookup_insert_eq, E. cbn. f_equal. unfold MessageStream.close. by case_if.
    - by rewrite lookup_insert_ne. }
  destruct (_is_runing s); cbn; done.
Qed.

Lemma keep_alive_token now ids j s : read_token j (fold_left (keep_alive_one now) ids s) = read_token j s.
Proof.
  revert s. induction ids as [|i ids IH]; intros s; [done|]. cbn [fold_left]. rewrite IH.
  unfold keep_alive_one. case_if; [done|]. case_if; [apply close_session_token|].
  unfold read_token, update. cbn [sessions set_sessions]. by apply alter_token.
Qed.

(** Sending does not touch the token of reading, nor the status. *)
Definition reading_part (m : MessageStream.state) := (MessageStream.read_quota_token m, MessageStream.status m).

Lemma send_loop_reading f n m b m' :
  MessageStream.send_loop f n m = Some (b, m') -> reading_part m' = reading_part m.
Proof.
  revert m. induction n as [|n IH]; intros m; [done|]. cbn [MessageStream.send_loop].
  destruct (MessageStream.is_connected m && _); [|by intros [= _ <-]]. cbv zeta.
  destruct (MessageStream.get_from_pending_queue _) as [[x|] t].
  - destruct (negb (f x)); [by intros [= _ <-]|].
    destruct (FlowController.acquire_write_quota _ _) as [q fl].
    destruct (q <=? 0); [by intros [= _ <-]|].
    destruct (MessageStream.next_block _ _) as [? t']. by intros [= _ <-].
  - case_if; [by intros [= _ <-]|]. intros Hs. by rewrite (IH _ Hs).
Qed.

Lemma trigger_send_reading m b m' :
  MessageStream.trigger_send (fun _ => true) m = Some (b, m') -> reading_part m' = reading_part m.
Proof.
  unfold MessageStream.trigger_send, MessageStream.try_start_send.
  case_decide; [by intros [= _ <-]|]. case_if; [by intros [= _ <-]|].
  by intros ->%send_loop_reading.
Qed.

Definition reading_at (i : nat) (p : pool) := (fun x => reading_part (stream x)) <$> objs p !! i.

Lemma serve_writes_reading q ids p p' i : serve_writes q ids p = Some p' -> reading_at i p' = reading_at i p.
Proof.
  apply (serve_writes_ind (reading_at i)); [|done]. intros p1 j x m b Ej Em.
  apply trigger_send_reading in Em. unfold reading_at. cbn. destruct (decide (j = i)) as [->|Hij].
  - rewrite lookup_insert_eq, Ej. cbn. by rewrite Em.
  - by rewrite lookup_insert_ne.
Qed.

Lemma reading_token i p p' : reading_at i p' = reading_at i p -> token_at i p' = token_at i p.
Proof.
  unfold reading_at, token_at. destruct (objs p' !! i), (objs p !! i); cbn; try done. by intros [= ->].
Qed.

Lemma maintain_unlimited_token now ok i s s' :
  _slice_quota_in s = -1 -> TimerMaintain now ok s = Some s' ->
  _slice_quota_in s' = -1 /\ read_token i s' = read_token i s.
Proof.
  intros Hq. unfold TimerMaintain. set (s1 := if _ && _ then _ else s).
  assert (_slice_quota_in s1 = -1 /\ read_token i s1 = read_token i s) as [Hq1 <-].
  { subst s1. case_if; [|done]. unfold ReStartListen. by case_if. }
  clearbody s1. clear Hq s. destruct (_ && _); [by intros [= <-]|]. cbv zeta.
  set (s2 := if no_limit (_keep_alive_ticks s1) then _ else _).
  assert (_slice_quota_in s2 = -1 /\ read_token i s2 = read_token i s1) as [Hq2 <-].
  { subst s2. case_if; [done|]. split; [|apply keep_alive_token]. rewrite <- Hq1.
    generalize (_session_set s1). intros l. clear. revert s1. induction l as [|j l IH]; intros s; [done|].
    cbn [fold_left]. rewrite IH. unfold keep_alive_one, close_session, OnClosed.
    case_if; [done|]. case_if; [|done]. destruct (objs _ !! j); [|done]. case_if; [done|].
    by case_if. }
  clearbody s2. rewrite Hq2.
  change (no_limit (-1)) with true. cbv iota. destruct (no_limit (_slice_quota_out s2)); cbn [mbind option_bind]; [by intros [= <-]|].
  destruct (serve_writes _ _ _) as [p|] eqn:Ew; [|done]. cbn. intros [= <-]. split; [done|].
  unfold read_token. cbn. by eapply reading_token, serve_writes_reading.
Qed.

Lemma pending_limits_token mp l i s :
  let s' := fold_left (fun a j => update j (on_stream (set_max_pending mp)) a) l s in
  _slice_quota_in s' = _slice_quota_in s /\ read_token i s' = read_token i s.
Proof.
  revert s. induction l as [|j l IH]; intros s; [done|]. cbn [fold_left].
  destruct (IH (update j (on_stream (set_max_pending mp)) s)) as [-> ->]. split; [done|].
  unfold read_token, update. cbn [sessions set_sessions]. by apply alter_token.
Qed.

Inductive maintained : state -> state -> Prop :=
  | maintained_refl s : maintained s s
  | maintained_step now ok s s1 s2 :
      TimerMaintain now ok s = Some s1 -> maintained s1 s2 -> maintained s s2.

(** A session that waits for quota when the limit is lifted waits for ever: the timer routine
    triggers the sessions only while there is a limit, and a stream with its token used up
    does not try to read by itself, although no quota is asked for any more. *)
Theorem lifted_limit_strands (options : ServerOptions) (s s1 s2 : state) (i : nat) (t : Z) :
  max_throughput_in options = -1 -> ResetOptions options s = Some s1 ->
  read_token i s = Some t -> t <= 0 -> maintained s1 s2 ->
  read_token i s2 = Some t /\
  forall x, objs (sessions s2) !! i = Some x ->
    MessageStream.try_start_receive (stream x) = (false, stream x).
Proof.
  intros Ho Hr Ht Hle Hm.
  assert (_slice_quota_in s1 = -1 /\ read_token i s1 = Some t) as [Hq1 Ht1].
  { unfold ResetOptions in Hr. cbn [max_throughput_in] in Hr. rewrite Ho in Hr. cbn [slice_quota Z.eqb] in Hr.
    change (slice_quota (-1) slices) with (-1) in Hr.
    set (o := mkOptions _ _ _ _ _ _ _) in Hr.
    set (s0 := set_limits _ _ _ _ _ s) in Hr.
    set (s3 := if max_pending_bytes _ =? _ then s0 else _) in Hr.
    assert (_slice_quota_in s3 = -1 /\ read_token i s3 = Some t) as [H1 H2].
    { subst s3. rewrite <- Ht. case_if; [done|].
      destruct (pending_limits_token (max_pending_bytes (max_pending_buffer_size o)) (_session_set s0) i s0) as [-> ->].
      done. }
    clearbody s3. destruct (_ && _); [done|]. injection Hr as <-. split; [exact H1|exact H2]. }
  clear Hr. assert (read_token i s2 = Some t) as Ht2.
  { rewrite <- Ht1. clear Ht1. induction Hm as [s'|now ok s' s3 s4 He _ IH]; [done|].
    destruct (maintain_unlimited_token now ok i s' s3 Hq1 He) as [Hq2 <-]. by apply IH. }
  split; [done|]. intros x Hx. unfold read_token, token_at in Ht2. rewrite Hx in Ht2. injection Ht2 as Ht2.
  unfold MessageStream.try_start_receive. case_decide; [done|].
  by replace (MessageStream.read_quota_token (stream x) <=? 0) with true by lia.
Qed.

(** ** A listener that fails *)

Definition is_restart (e : event) : bool := match e with EvRestart => true | _ => false end.

(** What the routine knows of the listener. *)
Definition listening (s : state) : bool * bool * bool * list event :=
  (_is_runing s, listener_closed s, kcp (_options s), filter (fun e => is_restart e = true) (out s)).

Lemma close_session_listening i s : listening (close_session i s) = listening s.
Proof.
  unfold close_session, OnClosed. destruct (objs _ !! i); [|done]. case_if; [done|]. cbn.
  destruct (_is_runing s) eqn:E; unfold listening; cbn; rewrite E; [|done].
  by rewrite filter_app, filter_cons, decide_False, filter_nil, app_nil_r.
Qed.

Lemma keep_alive_listening now ids s : listening (fold_left (keep_alive_one now) ids s) = listening s.
Proof.
  revert s. induction ids as [|i ids IH]; intros s; [done|]. cbn [fold_left]. rewrite IH.
  unfold keep_alive_one. case_if; [done|]. case_if; [apply close_session_listening|done].
Qed.

(** The part of the routine after the listener. *)
Lemma maintain_open_listening now ok s s' :
  listener_closed s = false -> TimerMaintain now ok s = Some s' -> listening s' = listening s.
Proof.
  intros Hl. unfold TimerMaintain. rewrite Hl. cbn [andb]. cbv zeta.
  destruct (_ && _); [by intros [= <-]|].
  set (s2 := if no_limit (_keep_alive_ticks s) then _ else _).
  assert (listening s2 = listening s) as <- by (subst s2; case_if; [done|apply keep_alive_listening]).
  clearbody s2. set (s3 := if no_limit (_slice_quota_in s2) then _ else _).
  assert (listening s3 = listening s2) as <- by (subst s3; by case_if).
  clearbody s3. destruct (no_limit _); [by intros [= <-]|].
  destruct (serve_writes _ _ _); [|done]. by intros [= <-].
Qed.

(** When a TCP or SSL listener fails and cannot listen again, the server has a listener that
    does not listen and is not closed: it answers that it is listening, and it never tries
    again.  (A KCP listener is made closed, and is tried again every three seconds.) *)
Theorem failed_restart_is_not_retried (now : Z) (s s1 s2 : state) :
  _is_runing s = true -> listener_closed s = true -> kcp (_options s) = false ->
  restart_listen_interval <= now - _last_restart_listen_ticks s ->
  TimerMaintain now false s = Some s1 -> maintained s1 s2 ->
  IsListening s2 = true /\
  filter (fun e => is_restart e = true) (out s2) = filter (fun e => is_restart e = true) (out s) ++ [EvRestart].
Proof.
  intros Hr Hl Hk Hi Hm Hms.
  assert (listening s1 = (true, false, false, filter (fun e => is_restart e = true) (out s) ++ [EvRestart])) as H1.
  { unfold TimerMaintain in Hm. rewrite Hl in Hm. replace (_ <=? _) with true in Hm by lia. cbn [andb] in Hm.
    set (s0 := (ReStartListen _ _).2) in Hm.
    assert (listening s0 = (true, false, false, filter (fun e => is_restart e = true) (out s) ++ [EvRestart]) /\
            listener_closed s0 = false) as [<- H0].
    { subst s0. unfold ReStartListen, listening. cbn. rewrite !Hr. cbn. rewrite Hk. by rewrite filter_app. }
    apply (maintain_open_listening now false); [done|]. unfold TimerMaintain. rewrite H0. exact Hm. }
  assert (listening s2 = listening s1) as H2.
  { assert (listener_closed s1 = false) as Hc by (unfold listening in H1; congruence).
    clear -Hms Hc. induction Hms as [s|now ok s s1 s2 He _ IH]; [done|].
    pose proof (maintain_open_listening now ok s s1 Hc He) as Hs. rewrite <- Hs. apply IH.
    unfold listening in Hs. congruence. }
  rewrite H1 in H2. unfold listening in H2. injection H2 as Hr2 Hl2 _ Ho2. split; [|done].
  unfold IsListening. by rewrite Hr2, Hl2.
Qed.

(** ** Sessions that are idle *)

Definition idle (now ka : Z) (x : session) : bool := ka <=? now - last_rw x.

Lemma close_session_objs i j s x :
  objs (sessions s) !! j = Some x ->
  objs (sessions (close_session i s)) !! j = Some (if decide (i = j) then close x else x).
Proof.
  intros Hj. unfold close_session, OnClosed. destruct (objs _ !! i) as [y|] eqn:Ei.
  2:{ rewrite decide_False; [done|]. intros ->. congruence. }
  destruct (MessageStream.is_closed (stream y)) eqn:Ec.
  - case_decide; [|done]. subst j. simplify_eq. rewrite Hj. f_equal. unfold close, MessageStream.close.
    rewrite Ec. by destruct x.
  - assert (objs (set_session i (close y) (sessions s)) !! j = Some (if decide (i = j) then close x else x)) as H.
    { cbn. case_decide; [subst; simplify_eq; by rewrite lookup_insert_eq|by rewrite lookup_insert_ne]. }
    cbn. by destruct (_is_runing s).
Qed.

Lemma close_session_set i s :
  _is_runing s = true -> is_closed i (sessions s) = false ->
  _session_set (close_session i s) = set_erase i (_session_set s) /\ out (close_session i s) = out s ++ [EvClosed i].
Proof.
  unfold close_session, OnClosed, is_closed. destruct (objs _ !! i) as [y|]; [|done]. intros Hr ->. cbn.
  rewrite Hr. by cbn.
Qed.

Lemma elem_of_set_erase i j l : j ∈ set_erase i l <-> j <> i /\ j ∈ l.
Proof. unfold set_erase. by rewrite list_elem_of_filter. Qed.

Lemma close_session_run i s :
  _is_runing (close_session i s) = _is_runing s /\ _keep_alive_ticks (close_session i s) = _keep_alive_ticks s.
Proof. unfold close_session, OnClosed. destruct (objs _ !! i); [|done]. case_if; [done|]. cbn. destruct (_is_runing s) eqn:E; cbn; by rewrite ?E. Qed.

(** One turn of the loop, for the session of the turn and for the others. *)
Lemma keep_alive_one_spec now i s :
  _is_runing s = true ->
  let s' := keep_alive_one now s i in
  _is_runing s' = true /\ _keep_alive_ticks s' = _keep_alive_ticks s /\
  (forall e, e ∈ out s -> e ∈ out s') /\
  (forall j, j <> i -> objs (sessions s') !! j = objs (sessions s) !! j /\ (j ∈ _session_set s' <-> j ∈ _session_set s)) /\
  (forall x, objs (sessions s) !! i = Some x -> MessageStream.is_closed (stream x) = false ->
     if idle now (_keep_alive_ticks s) x then
       objs (sessions s') !! i = Some (close x) /\ (i ∉ _session_set s') /\ EvClosed i ∈ out s'
     else objs (sessions s') !! i = Some (reset_ticks now false x) /\ (i ∈ _session_set s' <-> i ∈ _session_set s)) /\
  (forall j, j ∈ _session_set s' -> j ∈ _session_set s).
Proof.
  intros Hr. unfold keep_alive_one. destruct (is_closed i (sessions s)) eqn:Ec.
  { cbv zeta. splits; try done. intros x Hx Hc. unfold is_closed in Ec. rewrite Hx in Ec. congruence. }
  pose proof Ec as Ec'. unfold is_closed in Ec'. destruct (objs (sessions s) !! i) as [x0|] eqn:Ex; [|done]. clear Ec'.
  unfold idle. change (default 0 (last_rw <$> Some x0)) with (last_rw x0).
  destruct (_keep_alive_ticks s <=? now - last_rw x0) eqn:Eb.
  - cbv zeta. destruct (close_session_run i s) as [-> ->]. destruct (close_session_set i s Hr Ec) as [Hse Hou].
    rewrite Hse, Hou. splits; try done.
    + intros e He. apply elem_of_app. by left.
    + intros j Hj. rewrite elem_of_set_erase. split; [|naive_solver].
      destruct (objs (sessions s) !! j) as [y|] eqn:Ey.
      * rewrite (close_session_objs i j s y Ey). by rewrite decide_False by congruence.
      * unfold close_session, OnClosed. rewrite Ex. case_if; [done|]. cbn. rewrite Hr. cbn. by rewrite lookup_insert_ne.
    + intros x [= <-] Hc. rewrite Eb. rewrite (close_session_objs i i s x0 Ex), decide_True by done.
      splits; [done| |].
      * rewrite elem_of_set_erase. naive_solver.
      * apply elem_of_app. right. by left.
    + intros j [_ Hj]%elem_of_set_erase. done.
  - cbv zeta. splits; try done.
    + intros j Hj. split; [|done]. cbn. by rewrite lookup_alter_ne.
    + intros x [= <-] Hc. rewrite Eb. split; [|done]. cbn. by rewrite lookup_alter_eq, Ex.
Qed.

Lemma keep_alive_all now ids s :
  _is_runing s = true -> NoDup ids ->
  let s' := fold_left (keep_alive_one now) ids s in
  (forall e, e ∈ out s -> e ∈ out s') /\
  (forall j, j ∈ _session_set s' -> j ∈ _session_set s) /\
  (forall i, i ∉ ids -> objs (sessions s') !! i = objs (sessions s) !! i /\ (i ∈ _session_set s' <-> i ∈ _session_set s)) /\
  (forall i x, i ∈ ids -> objs (sessions s) !! i = Some x -> MessageStream.is_closed (stream x) = false ->
     if idle now (_keep_alive_ticks s) x then
       objs (sessions s') !! i = Some (close x) /\ (i ∉ _session_set s') /\ EvClosed i ∈ out s'
     else objs (sessions s') !! i = Some (reset_ticks now false x) /\ (i ∈ _session_set s' <-> i ∈ _session_set s)).
Proof.
  revert s. induction ids as [|k ids IH]; intros s Hr Hnd; cbv zeta.
  { splits; try done. by intros i x ?%elem_of_nil. }
  cbn [fold_left]. apply NoDup_cons in Hnd as [Hk Hnd].
  destruct (keep_alive_one_spec now k s Hr) as (Hr1 & Hka & Ho1 & Hj1 & Hi1 & Hs1).
  destruct (IH _ Hr1 Hnd) as (Ho2 & Hs2 & Hn2 & Hi2). rewrite Hka in Hi2.
  splits; auto.
  - intros i [Hik Hi]%not_elem_of_cons. destruct (Hn2 i Hi) as [-> ->]. by apply Hj1.
  - intros i x Hi Hx Hc. apply elem_of_cons in Hi as [->|Hi].
    + specialize (Hi1 x Hx Hc). destruct (Hn2 k Hk) as [-> Hse]. destruct (idle _ _ x).
      * destruct Hi1 as (? & ? & ?). rewrite Hse. by splits; auto.
      * destruct Hi1 as [? Hse1]. split; [done|]. by rewrite Hse.
    + assert (i <> k) as Hik by (intros ->; done). destruct (Hj1 i Hik) as [Hob Hse].
      rewrite <- Hob in Hx. specialize (Hi2 i x Hi Hx Hc). destruct (idle _ _ x); [done|].
      destruct Hi2 as [? Hse2]. split; [done|]. by rewrite Hse2.
Qed.

(** What serving the sessions leaves alone. *)
Definition life (x : session) : MessageStream.net_status * Z * Z := (MessageStream.status (stream x), ticks x, last_rw x).
Definition life_at (i : nat) (p : pool) := life <$> objs p !! i.

Lemma trigger_receive_life p j i : life_at i (trigger_receive_at p j) = life_at i p.
Proof.
  unfold trigger_receive_at, life_at. destruct (objs p !! j) as [x|] eqn:E; [|done]. cbn.
  destruct (decide (j = i)) as [->|Hij]; [|by rewrite lookup_insert_ne].
  rewrite lookup_insert_eq, E. cbn. unfold life. cbn. do 3 f_equal.
  unfold MessageStream.trigger_receive.
  by destruct (MessageStream.try_start_receive_frame
    (MessageStream.set_read_quota (MessageStream.flow (share (flow p) (stream x))) 1 (share (flow p) (stream x)))) as (-> & _).
Qed.

Lemma serve_reads_life q ids p i : life_at i (serve_reads q ids p) = life_at i p.
Proof.
  unfold serve_reads. change (life_at i p) with (life_at i (mkPool (FlowController.recharge_read_quota q (flow p)) (objs p))).
  generalize (trigger_list MessageStream.read_quota_token ids (mkPool (FlowController.recharge_read_quota q (flow p)) (objs p))).
  intros l. generalize (mkPool (FlowController.recharge_read_quota q (flow p)) (objs p)).
  induction l as [|j l IH]; intros p1; [done|]. cbn [fold_left]. by rewrite IH, trigger_receive_life.
Qed.

Lemma serve_writes_life q ids p p' i : serve_writes q ids p = Some p' -> life_at i p' = life_at i p.
Proof.
  apply (serve_writes_ind (life_at i)); [|done]. intros p1 j x m b Ej Em.
  apply trigger_send_reading in Em. unfold life_at. cbn. destruct (decide (j = i)) as [->|Hij].
  - rewrite lookup_insert_eq, Ej. cbn. unfold reading_part in Em. injection Em as _ Em. unfold life. cbn. by rewrite Em.
  - by rewrite lookup_insert_ne.
Qed.

Lemma life_some i p x : life_at i p = Some (life x) -> exists y, objs p !! i = Some y /\ life y = life x.
Proof. unfold life_at. destruct (objs p !! i) as [y|]; [|done]. intros H%(inj Some). by exists y. Qed.

(** At each run of the routine, with a keep-alive limit: a session with nothing read or written
    for that long is closed, told to the application and dropped from the set; any other open
    session stays open and in the set, and learns the time. *)
Theorem idle_sessions_are_closed (now : Z) (ok : bool) (s s' : state) (i : nat) (x : session) :
  _is_runing s = true -> NoDup (_session_set s) -> _keep_alive_ticks s <> -1 -> listener_closed s = false ->
  TimerMaintain now ok s = Some s' ->
  i ∈ _session_set s -> objs (sessions s) !! i = Some x -> MessageStream.is_closed (stream x) = false ->
  exists y, objs (sessions s') !! i = Some y /\
    if idle now (_keep_alive_ticks s) x then
      MessageStream.is_closed (stream y) = true /\ (i ∉ _session_set s') /\ EvClosed i ∈ out s'
    else MessageStream.is_closed (stream y) = false /\ i ∈ _session_set s' /\ ticks y = now /\ last_rw y = last_rw x.
Proof.
  intros Hr Hnd Hk Hl Hm Hi Hx Hc. unfold TimerMaintain in Hm. rewrite Hl in Hm. cbn [andb] in Hm.
  assert (no_limit (_keep_alive_ticks s) = false) as Hna by (unfold no_limit; lia).
  cbv zeta in Hm. rewrite !Hna in Hm. cbn [andb] in Hm.
  set (s2 := fold_left _ _ _) in Hm.
  destruct (keep_alive_all now (_session_set s) s Hr Hnd) as (_ & _ & _ & Hall). fold s2 in Hall.
  specialize (Hall i x Hi Hx Hc). clearbody s2.
  assert (life_at i (sessions s') = life_at i (sessions s2) /\ _session_set s' = _session_set s2 /\ out s' = out s2)
    as (Hlf & Hset & Hout).
  { set (s3 := if no_limit (_slice_quota_in s2) then _ else _) in Hm.
    assert (life_at i (sessions s3) = life_at i (sessions s2) /\ _session_set s3 = _session_set s2 /\ out s3 = out s2)
      as (<- & <- & <-).
    { subst s3. case_if; [done|]. cbn. by rewrite serve_reads_life. }
    clearbody s3. destruct (no_limit _); cbn [mbind option_bind] in Hm; [by injection Hm as <-|].
    destruct (serve_writes _ _ _) as [p|] eqn:Ew; [|done]. cbn in Hm. injection Hm as <-. cbn.
    by rewrite (serve_writes_life _ _ _ _ _ Ew). }
  rewrite Hset, Hout. unfold life_at in Hlf at 2. destruct (idle _ _ x).
  - destruct Hall as (Ho & Hn & He). rewrite Ho in Hlf. apply life_some in Hlf as (y & Hy & Hlf). exists y.
    splits; try done. unfold life in Hlf. injection Hlf as Hst _ _. unfold MessageStream.is_closed. rewrite Hst.
    unfold close, MessageStream.close, MessageStream.is_closed in *. cbn. by rewrite Hc.
  - destruct Hall as (Ho & Hse). rewrite Ho in Hlf. apply life_some in Hlf as (y & Hy & Hlf). exists y.
    unfold life in Hlf. cbn in Hlf. injection Hlf as Hst Ht Hlr. splits; try done; [|by apply Hse].
    unfold MessageStream.is_closed in *. by rewrite Hst.
Qed.

(** ** Stopping, the timer and the I/O threads

    [Stop] holds [_start_stop_mutex] while it joins the I/O threads one after the other and then
    the maintenance thread; the timer routine, which runs on that thread, takes the same mutex
    in [ReStartListen].  A handler that does not return is a state of its thread: a frame with
    a negative size makes one ([Framing.v]), and what an application hands over as callback
    may be one.  One call of [Stop] on a server that was started is modelled; the mutexes
    of the timer and of the session set, which are held for a few instructions, are not. *)
Module StopLock.

(** [S_Pool k]: the I/O threads before number [k] are joined; [S_PoolJoin k]: joining it. *)
Inductive stop_pc := S_Call | S_Locked | S_Closing | S_Pool (k : nat) | S_PoolJoin (k : nat) | S_Join | S_Returned.
Inductive timer_pc := T_Loop | T_Routine | T_Restart | T_Listening | T_Hung | T_Exited.
Inductive io_pc := I_Loop | I_Handler | I_Hung | I_Exited.
Inductive owner := Stopper | Timer.

#[export] Instance io_pc_eq_dec : EqDecision io_pc.
Proof. solve_decision. Defined.

(** An I/O thread, and whether its context is stopped. *)
Definition io_thread : Type := io_pc * bool.

Record config := mkConfig {
  stopper : stop_pc;
  timer : timer_pc;                    (* the maintenance thread *)
  ios : list io_thread;
  _start_stop_mutex : option owner;
  running : bool;
  timer_runs : bool;                   (* [_is_runing] of the timer worker *)
  closed : bool;                       (* the listener is closed *)
  loop_stopped : bool;                 (* the context of the maintenance thread is stopped *)
}.

(** A running server with [n] I/O threads. *)
Definition start (n : nat) : config := mkConfig S_Call T_Loop (replicate n (I_Loop, false)) None true true false false.

(** [Stop], from one lock or join to the next. *)
Inductive stop_step : config -> config -> Prop :=
  | stop_locks t ws r a c l : stop_step (mkConfig S_Call t ws None r a c l) (mkConfig S_Locked t ws (Some Stopper) r a c l)
  | stop_not_running t ws a c l :
      stop_step (mkConfig S_Locked t ws (Some Stopper) false a c l) (mkConfig S_Returned t ws None false a c l)
  (* not running, the timer cancelled *)
  | stop_timer t ws a c l :
      stop_step (mkConfig S_Locked t ws (Some Stopper) true a c l) (mkConfig S_Closing t ws (Some Stopper) false false c l)
  (* the listener closed, the sessions shut down *)
  | stop_listener t ws m r a c l : stop_step (mkConfig S_Closing t ws m r a c l) (mkConfig (S_Pool 0) t ws m r a true l)
  (* [IoWorker::GracefulStop] of one I/O thread after the other: stop its context, join *)
  | stop_worker k io t ws m r a c l : ws !! k = Some io ->
      stop_step (mkConfig (S_Pool k) t ws m r a c l) (mkConfig (S_PoolJoin k) t (<[k := (io.1, true)]> ws) m r a c l)
  | join_worker k s t ws m r a c l : ws !! k = Some (I_Exited, s) ->
      stop_step (mkConfig (S_PoolJoin k) t ws m r a c l) (mkConfig (S_Pool (S k)) t ws m r a c l)
  (* the same of the maintenance thread *)
  | stop_maintain t ws m r a c l :
      stop_step (mkConfig (S_Pool (length ws)) t ws m r a c l) (mkConfig S_Join t ws m r a c true)
  | join_maintain ws m r a c l : stop_step (mkConfig S_Join T_Exited ws m r a c l) (mkConfig S_Returned T_Exited ws None r a c l).

(** The maintenance thread: accepting, the timer, [TimerMaintain] up to [ReStartListen], and that. *)
Inductive timer_step : config -> config -> Prop :=
  | accept_fails p ws m r a : timer_step (mkConfig p T_Loop ws m r a false false) (mkConfig p T_Loop ws m r a true false)
  | timer_fires p ws m r c : timer_step (mkConfig p T_Loop ws m r true c false) (mkConfig p T_Routine ws m r true c false)
  | handler_hangs p ws m r a c : timer_step (mkConfig p T_Loop ws m r a c false) (mkConfig p T_Hung ws m r a c false)
  | timer_exits p ws m r a c : timer_step (mkConfig p T_Loop ws m r a c true) (mkConfig p T_Exited ws m r a c true)
  | routine_ends p ws m r a l : timer_step (mkConfig p T_Routine ws m r a false l) (mkConfig p T_Loop ws m r a false l)
  | routine_hangs p ws m r a c l : timer_step (mkConfig p T_Routine ws m r a c l) (mkConfig p T_Hung ws m r a c l)
  | routine_too_soon p ws m r a l : timer_step (mkConfig p T_Routine ws m r a true l) (mkConfig p T_Loop ws m r a true l)
  | routine_restarts p ws m r a l : timer_step (mkConfig p T_Routine ws m r a true l) (mkConfig p T_Restart ws m r a true l)
  | restart_locks p ws r a c l :
      timer_step (mkConfig p T_Restart ws None r a c l) (mkConfig p T_Listening ws (Some Timer) r a c l)
  (* a new listener, when the server still runs *)
  | restart_done p ws r a c l c' : (r = false -> c' = c) ->
      timer_step (mkConfig p T_Listening ws (Some Timer) r a c l) (mkConfig p T_Loop ws None r a c' l).

(** An I/O thread: [run] returns between two handlers once the context is stopped. *)
Inductive io_step : io_thread -> io_thread -> Prop :=
  | io_handles : io_step (I_Loop, false) (I_Handler, false)
  | io_handled s : io_step (I_Handler, s) (I_Loop, s)
  | io_hangs s : io_step (I_Handler, s) (I_Hung, s)
  | io_exits : io_step (I_Loop, true) (I_Exited, true).

Inductive step : config -> config -> Prop :=
  | step_stop x y : stop_step x y -> step x y
  | step_timer x y : timer_step x y -> step x y
  | step_io i io io' p t ws m r a c l : ws !! i = Some io -> io_step io io' ->
      step (mkConfig p t ws m r a c l) (mkConfig p t (<[i := io']> ws) m r a c l).

Definition reachable (n : nat) : config -> Prop := rtc step (start n).

(** No thread can go on. *)
Definition stuck (x : config) : Prop := forall y, ~ step x y.

(** Every handler that was called returns. *)
Definition no_hang (x : config) : Prop := timer x <> T_Hung /\ forall i s, ios x !! i <> Some (I_Hung, s).

(** Where [Stop] holds the mutex, where the server runs, where the context is stopped. *)
Definition holds (p : stop_pc) : bool := match p with S_Call | S_Returned => false | _ => true end.
Definition still_runs (p : stop_pc) : bool := match p with S_Call | S_Locked => true | _ => false end.
Definition past_loop (p : stop_pc) : bool := match p with S_Join | S_Returned => true | _ => false end.

Definition owned_by_stopper (m : option owner) : bool := match m with Some Stopper => true | _ => false end.
Definition owned_by_timer (m : option owner) : bool := match m with Some Timer => true | _ => false end.
Definition listening (t : timer_pc) : bool := match t with T_Listening => true | _ => false end.

(** Which threads a place in [Stop] refers to. *)
Definition place (p : stop_pc) (ws : list io_thread) : Prop :=
  match p with
  | S_Pool k => (k <= length ws)%nat
  | S_PoolJoin k => exists pc, ws !! k = Some (pc, true)
  | _ => True
  end.

(** Who holds the mutex is where it holds it; the stopper has the flags its place says. *)
Record ok (x : config) : Prop := {
  ok_stopper : owned_by_stopper (_start_stop_mutex x) = holds (stopper x);
  ok_timer : owned_by_timer (_start_stop_mutex x) = listening (timer x);
  ok_running : running x = still_runs (stopper x);
  ok_loop : loop_stopped x = past_loop (stopper x);
  ok_exited : timer x = T_Exited -> loop_stopped x = true;
  ok_place : place (stopper x) (ios x) }.

Lemma place_insert p ws i io io' : ws !! i = Some io -> (io.2 = true -> io'.2 = true) -> place p ws -> place p (<[i := io']> ws).
Proof.
  intros Hi Hs H. destruct p; try done; cbn in *; [by rewrite length_insert|].
  destruct H as [pc H]. destruct (decide (i = k)) as [->|Hne]; [|exists pc; by rewrite list_lookup_insert_ne].
  rewrite list_lookup_insert_eq by (by eapply lookup_lt_Some). rewrite Hi in H. injection H as ->. destruct io' as [pc' s].
  exists pc'. cbn in Hs. by rewrite Hs.
Qed.

Lemma ok_stop_step x y : stop_step x y -> ok x -> ok y.
Proof.
  intros Hs [H1 H2 H3 H4 H5 H6]. destruct Hs; cbn in *; subst; split; cbn; try done; try (destruct m as [[]|]; done);
    try lia.
  - exists io.1. apply list_lookup_insert_eq. by eapply lookup_lt_Some.
  - by eapply lookup_lt_Some.
Qed.

Lemma ok_timer_step x y : timer_step x y -> ok x -> ok y.
Proof.
  intros Hs [H1 H2 H3 H4 H5 H6]. destruct Hs; cbn in *; split; cbn; try done; by destruct (holds p).
Qed.

Lemma ok_step x y : step x y -> ok x -> ok y.
Proof.
  intros []; [by apply ok_stop_step|by apply ok_timer_step|]. intros [H1 H2 H3 H4 H5 H6]. split; try done. cbn in *.
  eapply place_insert; [done| |done]. match goal with H : io_step _ _ |- _ => by destruct H end.
Qed.

Lemma reachable_ok n x : reachable n x -> ok x.
Proof.
  unfold reachable. intros Hr. assert (ok (start n)) as Hok by done.
  revert Hok. generalize (start n) Hr. clear Hr. intros x0 Hr. induction Hr; [done|]. intros. by apply IHHr, (ok_step x).
Qed.

(** An I/O thread that waits for nothing and has not exited. *)
Lemma io_goes_on io : io.1 <> I_Hung -> io.1 <> I_Exited -> exists io', io_step io io'.
Proof. destruct io as [[] []]; try done; intros _ _; eexists; constructor. Qed.

(** The I/O threads that are idle are stopped and joined one after the other. *)
Lemma pool_joins done m t mx r a c l :
  rtc step (mkConfig (S_Pool (length done)) t (done ++ replicate m (I_Loop, false)) mx r a c l)
    (mkConfig (S_Pool (length done + m)) t (done ++ replicate m (I_Exited, true)) mx r a c l).
Proof.
  revert done. induction m as [|m IH]; intros done; [rewrite Nat.add_0_r; apply rtc_refl|]. cbn [replicate].
  eapply rtc_l; [apply step_stop, (stop_worker (length done) (I_Loop, false)), list_lookup_middle, eq_refl|].
  rewrite insert_app_r_alt, Nat.sub_diag by lia. cbn [list_insert fst].
  eapply rtc_l; [eapply step_io; [apply list_lookup_middle, eq_refl|apply io_exits]|].
  rewrite insert_app_r_alt, Nat.sub_diag by lia. cbn [list_insert].
  eapply rtc_l; [eapply step_stop, join_worker, list_lookup_middle, eq_refl|].
  specialize (IH (done ++ [(I_Exited, true)])). rewrite length_app, <- !app_assoc in IH. cbn [app length] in IH.
  rewrite <- Nat.add_assoc in IH. by rewrite <- Nat.add_1_r.
Qed.

Lemma stuck_timer x : ok x -> stuck x ->
  (timer x = T_Restart /\ _start_stop_mutex x = Some Stopper) \/ timer x = T_Hung \/ timer x = T_Exited.
Proof.
  intros [_ Ht _ _ _ _] Hst. destruct x as [p t ws m r a c l]. cbn in *. destruct t; auto.
  1,2,4: exfalso.
  - destruct l; eapply Hst, step_timer; [apply timer_exits|apply handler_hangs].
  - eapply Hst, step_timer, routine_hangs.
  - destruct m as [[]|]; [done| |done]. eapply Hst, step_timer. by apply (restart_done p ws r a c l c).
  - left. split; [done|]. destruct m as [[]|]; [done..|]. exfalso. eapply Hst, step_timer, restart_locks.
Qed.

(** An I/O thread that is joined is what [Stop] waits for only in a handler that hangs. *)
Lemma stuck_join k x : ok x -> stuck x -> stopper x = S_PoolJoin k -> exists s, ios x !! k = Some (I_Hung, s).
Proof.
  intros Hok Hst Hk. pose proof (ok_place x Hok) as Hp. rewrite Hk in Hp. destruct Hp as [pc Hp].
  destruct x as [p t ws m r a c l]. cbn in *. subst p. destruct (decide (pc = I_Hung)) as [->|Hh]; [eauto|].
  destruct (decide (pc = I_Exited)) as [->|He]; exfalso.
  - by eapply Hst, step_stop, join_worker.
  - destruct (io_goes_on (pc, true) Hh He) as [io' Hio]. by eapply Hst, step_io.
Qed.

Lemma stuck_cases x : ok x -> stuck x -> stopper x <> S_Returned ->
  (stopper x = S_Join /\ timer x = T_Restart /\ _start_stop_mutex x = Some Stopper) \/
  (stopper x = S_Join /\ timer x = T_Hung) \/
  (exists k s, stopper x = S_PoolJoin k /\ ios x !! k = Some (I_Hung, s)).
Proof.
  intros Hok Hst Hp. pose proof (stuck_timer x Hok Hst) as Ht.
  destruct (stopper x) as [| | |k|k| |] eqn:E; [exfalso..| | |done].
  5: destruct (stuck_join k x Hok Hst E) as [s Hs]; right; right; by exists k, s.
  5: destruct Ht as [[Ht Hm]|[Ht|Ht]]; [by left|by right; left|exfalso].
  all: destruct Hok as [H1 H2 H3 _ _ H6], x as [p t ws m r a c l]; cbn in *; subst; cbn in *.
  - destruct m as [[]|]; [done| |eapply Hst, step_stop, stop_locks]. by destruct Ht as [[_ ?]|[->| ->]].
  - destruct m as [[]|]; [|done..]. eapply Hst, step_stop, stop_timer.
  - eapply Hst, step_stop, stop_listener.
  - destruct (decide (k = length ws)) as [->|Hk]; [eapply Hst, step_stop, stop_maintain|].
    destruct (lookup_lt_is_Some_2 ws k) as [io Hio]; [lia|]. by eapply Hst, step_stop, stop_worker.
  - eapply Hst, step_stop, join_maintain.
Qed.

(** While a handler of the I/O thread that [Stop] joins hangs, [Stop] does not return. *)
Theorem hung_handler_blocks_stop k s x y :
  stopper x = S_PoolJoin k -> ios x !! k = Some (I_Hung, s) -> rtc step x y ->
  stopper y = S_PoolJoin k /\ ios y !! k = Some (I_Hung, s).
Proof.
  intros Hp Hk Hr. induction Hr as [|x y z Hs _ IH]; [done|]. apply IH; clear IH.
  - destruct Hs as [x y H|x y H|]; [|by destruct H|done]. destruct H; cbn in *; congruence.
  - destruct Hs as [x y H|x y H|i io io' p t ws m r a c l Hi Hio]; [|by destruct H|].
    + destruct H; cbn in *; congruence.
    + cbn in *. destruct (decide (i = k)) as [->|Hne]; [|by rewrite list_lookup_insert_ne].
      pose proof (eq_trans (eq_sym Hi) Hk) as E. injection E as ->. inversion Hio.
Qed.

(** C32: [Stop] and [ReStartListen] can deadlock: [Stop] joins the maintenance thread while the
    timer routine on it waits for the mutex that [Stop] holds, in a server whose handlers all
    return.  Of the states in which no thread can go on before [Stop] has returned this is the
    only one that handlers have no part in: in every other one [Stop] joins a thread one of
    whose handlers does not return.  (That the threads go on for ever, none of them stuck, is
    not excluded.) *)
Theorem stop_waits_for_restart n :
  (exists x, reachable n x /\ no_hang x /\ stuck x /\ stopper x <> S_Returned) /\
  (forall x, reachable n x -> stuck x -> stopper x <> S_Returned ->
     (stopper x = S_Join /\ timer x = T_Restart /\ _start_stop_mutex x = Some Stopper) \/
     (stopper x = S_Join /\ timer x = T_Hung) \/
     (exists k s, stopper x = S_PoolJoin k /\ ios x !! k = Some (I_Hung, s))).
Proof.
  split.
  - exists (mkConfig S_Join T_Restart (replicate n (I_Exited, true)) (Some Stopper) false false true true). splits; try done.
    + eapply rtc_l; [apply step_timer, (timer_fires S_Call)|]. eapply rtc_l; [apply step_stop, stop_locks|].
      eapply rtc_l; [apply step_stop, stop_timer|]. eapply rtc_l; [apply step_stop, stop_listener|].
      eapply rtc_l; [apply step_timer, routine_restarts|]. etrans; [apply (pool_joins [])|].
      apply rtc_once, step_stop. cbn. rewrite <- (length_replicate n (I_Exited, true)) at 1. apply stop_maintain.
    + split; [done|]. intros i s H. by apply lookup_replicate in H as [H _].
    + intros y Hy. remember (mkConfig _ _ _ _ _ _ _ _) as x eqn:E. destruct Hy as [x y H|x y H|].
      * subst. inversion H.
      * subst. inversion H.
      * injection E as -> -> -> -> -> -> -> ->. match goal with H : replicate _ _ !! _ = _ |- _ => apply lookup_replicate in H as [-> _] end.
        match goal with H : io_step _ _ |- _ => inversion H end.
  - intros x Hr%reachable_ok Hst Hp. by apply (stuck_cases x).
Qed.

End StopLock.

(** ** Examples *)

(** A server with a limit of 1 MB each second and a keep-alive time of 10 seconds; session 1
    waits for quota. *)
Definition demo_options : ServerOptions := mkOptions 2 10 100 1 (-1) 9 false.
Definition demo_server : state :=
  let s := (Start true true (init demo_options)).2 in
  set_sessions (mkPool (flow (sessions s)) (<[1%nat := demo_session (-2)]> {[2%nat := demo_session 1]})) [1; 2]%nat s.

Lemma lifted_limit_strands_witness :
  exists s1 s2, ResetOptions (mkOptions 2 10 100 (-1) (-1) 9 false) demo_server = Some s1 /\
    TimerMaintain 5 true s1 = Some s2 /\ read_token 1 s2 = Some (-2).
Proof.
  destruct (ResetOptions (mkOptions 2 10 100 (-1) (-1) 9 false) demo_server) as [s1|] eqn:E1;
    [|vm_compute in E1; discriminate].
  destruct (TimerMaintain 5 true s1) as [s2|] eqn:E2.
  2:{ vm_compute in E1. injection E1 as <-. vm_compute in E2. discriminate. }
  destruct (lifted_limit_strands (mkOptions 2 10 100 (-1) (-1) 9 false) demo_server s1 s2 1 (-2)) as [H _].
  - reflexivity.
  - exact E1.
  - vm_compute. reflexivity.
  - lia.
  - eapply maintained_step; [exact E2|]. apply maintained_refl.
  - exists s1, s2. split; [reflexivity|]. split; [exact E2|exact H].
Defined.

Lemma idle_sessions_are_closed_witness :
  exists s' y, TimerMaintain 12 true demo_server = Some s' /\ objs (sessions s') !! 2%nat = Some y /\
    MessageStream.is_closed (stream y) = true.
Proof.
  destruct (TimerMaintain 12 true demo_server) as [s'|] eqn:E; [|vm_compute in E; discriminate].
  destruct (idle_sessions_are_closed 12 true demo_server s' 2 (demo_session 1)) as (y & Hy & Hc & _).
  - reflexivity.
  - apply (bool_decide_unpack _). vm_compute. exact I.
  - discriminate.
  - reflexivity.
  - exact E.
  - right. left.
  - vm_compute. reflexivity.
  - reflexivity.
  - exists s', y. split; [reflexivity|]. split; [exact Hy|exact Hc].
Defined.

Lemma failed_restart_is_not_retried_witness :
  exists s1, TimerMaintain 5 false (accept_error demo_server) = Some s1 /\ IsListening s1 = true.
Proof.
  destruct (TimerMaintain 5 false (accept_error demo_server)) as [s1|] eqn:E; [|vm_compute in E; discriminate].
  destruct (failed_restart_is_not_retried 5 (accept_error demo_server) s1 s1) as [H _];
    [reflexivity|reflexivity|reflexivity|vm_compute; discriminate|exact E|apply maintained_refl|].
  exists s1. split; [reflexivity|exact H].
Defined.

Lemma accept_keeps_limit_witness : ConnectionCount (OnAccepted 3 0 demo_server) <= 2.
Proof. apply (accept_keeps_limit 3 0 demo_server). discriminate. Defined.

Lemma accepts_race_witness :
  exists s1 s2, accept_check 5 (close_session 1 demo_server) = (true, s1) /\ accept_check 6 s1 = (true, s2) /\
    ConnectionCount (accept_insert 6 0 (accept_insert 5 0 s2)) = 3.
Proof.
  destruct (accepts_race (close_session 1 demo_server) 5 6 0) as (s1 & s2 & H1 & H2 & H3).
  - vm_compute. reflexivity.
  - vm_compute. reflexivity.
  - apply (bool_decide_unpack _). vm_compute. exact I.
  - apply (bool_decide_unpack _). vm_compute. exact I.
  - lia.
  - exists s1, s2. split; [exact H1|]. split; [exact H2|exact H3].
Defined.

End ServerImpl.
