(* ===== verification/Client.v ===== *)
(** * The client ([src/network/io/client.cpp])

    [ClientImpl] keeps one session for each endpoint, and a name, the connection type, for the
    sessions the application uses.  Its limits and its timer routine are those of the server,
    with another interval. *)

From S2P Require Import Prelude TranBuf BufRead Flow Framing MessageStream IoPool Maintain.
Import TranBufPool Maintain.

Module ClientImpl.

Definition MAINTAIN_INTERVAL_IN_MS : Z := 500.
Definition slices : Z := slice_count MAINTAIN_INTERVAL_IN_MS.

(** The options the client uses (the rest goes to sockets and certificates). *)
Record ClientOptions := mkOptions {
  work_thread_num : Z;
  keep_alive_time : Z;
  max_pending_buffer_size : Z;
  max_throughput_in : Z;
  max_throughput_out : Z;
}.

Inductive event := EvConnected (i : nat) | EvClosed (i : nat) | EvReceived (i : nat).

Record state := mkState {
  _options : ClientOptions;
  _is_runing : bool;
  _slice_quota_in : Z; _slice_quota_out : Z;
  _max_pending_buffer_size : Z;
  _keep_alive_ticks : Z;
  sessions : pool;                     (* the shared flow controller, and all session objects *)
  endpoints : list Z;                  (* the remote endpoint of each session made *)
  _io_service_pool : IoServicePool.state;
  _session_map : gmap Z nat;
  _session_type_map : gmap Z nat;
  _last_maintain_ticks : Z;
  out : list event;
}.

Definition init (o : ClientOptions) : state :=
  mkState o false (slice_quota (max_throughput_in o) slices) (slice_quota (max_throughput_out o) slices)
    (max_pending_bytes (max_pending_buffer_size o)) (keep_alive (keep_alive_time o) 1)
    (mkPool (new_flow (-1) (-1)) ∅) [] (IoServicePool.init 0) ∅ ∅ 0 [].

Definition set_sessions (p : pool) (s : state) : state :=
  mkState (_options s) (_is_runing s) (_slice_quota_in s) (_slice_quota_out s) (_max_pending_buffer_size s)
    (_keep_alive_ticks s) p (endpoints s) (_io_service_pool s) (_session_map s) (_session_type_map s)
    (_last_maintain_ticks s) (out s).
Definition set_maps (m t : gmap Z nat) (s : state) : state :=
  mkState (_options s) (_is_runing s) (_slice_quota_in s) (_slice_quota_out s) (_max_pending_buffer_size s)
    (_keep_alive_ticks s) (sessions s) (endpoints s) (_io_service_pool s) m t (_last_maintain_ticks s) (out s).
Definition set_run (r : bool) (pool : IoServicePool.state) (s : state) : state :=
  mkState (_options s) r (_slice_quota_in s) (_slice_quota_out s) (_max_pending_buffer_size s)
    (_keep_alive_ticks s) (sessions s) (endpoints s) pool (_session_map s) (_session_type_map s)
    (_last_maintain_ticks s) (out s).
Definition set_limits (o : ClientOptions) (qi qo mp ka : Z) (s : state) : state :=
  mkState o (_is_runing s) qi qo mp ka (sessions s) (endpoints s) (_io_service_pool s) (_session_map s)
    (_session_type_map s) (_last_maintain_ticks s) (out s).
Definition set_maintain (t : Z) (s : state) : state :=
  mkState (_options s) (_is_runing s) (_slice_quota_in s) (_slice_quota_out s) (_max_pending_buffer_size s)
    (_keep_alive_ticks s) (sessions s) (endpoints s) (_io_service_pool s) (_session_map s)
    (_session_type_map s) t (out s).
Definition emit (e : event) (s : state) : state :=
  mkState (_options s) (_is_runing s) (_slice_quota_in s) (_slice_quota_out s) (_max_pending_buffer_size s)
    (_keep_alive_ticks s) (sessions s) (endpoints s) (_io_service_pool s) (_session_map s)
    (_session_type_map s) (_last_maintain_ticks s) (out s ++ [e]).

Definition remote_endpoint (i : nat) (s : state) : option Z := endpoints s !! i.

(** ** Connecting *)

(** A new session: the objects it shares, its ticks, and [async_connect]. *)
Definition new_session (now : Z) (h : heap) (s : state) : session :=
  mkSession
    (MessageStream.set_status MessageStream.STATUS_CONNECTING
       (let m := MessageStream.init MessageStream.NT_CLIENT TRAN_BUF_BLOCK_MAX_FACTOR h in
        MessageStream.mkState (MessageStream.kind m) (MessageStream.status m) (MessageStream.recv m)
          (MessageStream.receiving_data m) (MessageStream.receiving_size m) (MessageStream.block_factor m)
          (MessageStream.send m) (flow (sessions s)) (_max_pending_buffer_size s) (MessageStream.read_quota_token m)
          (MessageStream.write_quota_token m) (MessageStream.send_token m) (MessageStream.receive_token m)
          (MessageStream.total_received_count m) (MessageStream.total_received_size m)
          (MessageStream.total_sent_count m) (MessageStream.total_sent_size m) (MessageStream.mem m)
          (MessageStream.out m)))
    now now.

(** [None]: the pool has no thread. *)
Definition FindOrCreateStream (now : Z) (h : heap) (remote : Z) (s : state) : option (nat * state) :=
  let create :=
    '(_, pool) ← IoServicePool.GetIoService (_io_service_pool s);
    let i := length (endpoints s) in
    Some (i, mkState (_options s) (_is_runing s) (_slice_quota_in s) (_slice_quota_out s)
               (_max_pending_buffer_size s) (_keep_alive_ticks s)
               (set_session i (new_session now h s) (sessions s)) (endpoints s ++ [remote]) pool
               (<[remote := i]> (_session_map s)) (_session_type_map s) (_last_maintain_ticks s) (out s)) in
  match _session_map s !! remote with
  | Some i => if is_closed i (sessions s) then create else Some (i, s)
  | None => create
  end.

Definition Connect (now : Z) (h : heap) (type remote : Z) (s : state) : option state :=
  '(i, s1) ← FindOrCreateStream now h remote s;
  Some (set_maps (_session_map s1) (<[type := i]> (_session_type_map s1)) s1).

Definition GetSession (type : Z) (s : state) : option nat := _session_type_map s !! type.

Definition ConnectionCount (s : state) : Z := Z.of_nat (size (_session_map s)).

(** ** Callbacks of the sessions *)

Definition by_key (a b : Z * nat) : Prop := a.1 <= b.1.
#[global] Instance by_key_dec a b : Decision (by_key a b).
Proof. unfold by_key. apply _. Defined.

(** The entries of a [std::map], in the order of the keys. *)
Definition entries (m : gmap Z nat) : list (Z * nat) := merge_sort by_key (map_to_list m).

(** [find_if] over the types, by the endpoint of their sessions. *)
Definition type_of_endpoint (remote : option Z) (s : state) : option Z :=
  fst <$> head (filter (fun e => remote_endpoint e.2 s = remote) (entries (_session_type_map s))).

Definition OnClosed (i : nat) (s : state) : state :=
  if negb (_is_runing s) then s
  else
    match remote_endpoint i s with
    | None => s
    | Some remote =>
        let live := match _session_map s !! remote with
                    | Some j => negb (is_closed j (sessions s))
                    | None => false
                    end in
        if live then s
        else
          let s1 := set_maps (delete remote (_session_map s)) (_session_type_map s) s in
          let s2 := match type_of_endpoint (Some remote) s1 with
                    | Some t => set_maps (_session_map s1) (delete t (_session_type_map s1)) s1
                    | None => s1
                    end in
          emit (EvClosed i) s2
    end.

Definition close_session (i : nat) (s : state) : state :=
  match objs (sessions s) !! i with
  | None => s
  | Some x =>
      if MessageStream.is_closed (stream x) then s
      else OnClosed i (set_sessions (set_session i (close x) (sessions s)) s)
  end.

Definition OnConnected (i : nat) (s : state) : state := emit (EvConnected i) s.
Definition OnReceived (i : nat) (s : state) : state := emit (EvReceived i) s.

(** ** Options *)

Definition set_max_pending (n : Z) (m : MessageStream.state) : MessageStream.state :=
  MessageStream.mkState (MessageStream.kind m) (MessageStream.status m) (MessageStream.recv m)
    (MessageStream.receiving_data m) (MessageStream.receiving_size m) (MessageStream.block_factor m)
    (MessageStream.send m) (MessageStream.flow m) n (MessageStream.read_quota_token m)
    (MessageStream.write_quota_token m) (MessageStream.send_token m) (MessageStream.receive_token m)
    (MessageStream.total_received_count m) (MessageStream.total_received_size m)
    (MessageStream.total_sent_count m) (MessageStream.total_sent_size m) (MessageStream.mem m) (MessageStream.out m).

Definition update (f : session -> session) (i : nat) (s : state) : state :=
  set_sessions (mkPool (flow (sessions s)) (alter f i (objs (sessions s)))) s.

(** The flow controller is not told. *)
Definition ResetOptions (options : ClientOptions) (s : state) : state :=
  let o := mkOptions (work_thread_num (_options s)) (keep_alive_time options) (max_pending_buffer_size options)
             (max_throughput_in options) (max_throughput_out options) in
  let mp := max_pending_bytes (max_pending_buffer_size o) in
  let s1 := set_limits o (slice_quota (max_throughput_in o) slices) (slice_quota (max_throughput_out o) slices) mp
              (keep_alive (keep_alive_time o) 1) s in
  if mp =? _max_pending_buffer_size s then s1
  else fold_left (fun a e => update (fun x => mkSession (set_max_pending mp (stream x)) (ticks x) (last_rw x)) e.2 a)
         (entries (_session_map s1)) s1.

(** ** The timer routine *)

Definition keep_alive_one (now_ticks : Z) (s : state) (i : nat) : state :=
  if is_closed i (sessions s) then s
  else
    let last := default 0 (last_rw <$> objs (sessions s) !! i) in
    if _keep_alive_ticks s <=? now_ticks - last then close_session i s
    else update (reset_ticks now_ticks false) i s.

Definition no_limit (q : Z) : bool := q =? -1.

Definition TimerMaintain (now_ticks : Z) (s : state) : option state :=
  s4 ← (if no_limit (_keep_alive_ticks s) && no_limit (_slice_quota_in s) && no_limit (_slice_quota_out s)
        then Some s
        else
          let ids := snd <$> entries (_session_map s) in
          let s2 := if no_limit (_keep_alive_ticks s) then s
                    else fold_left (keep_alive_one now_ticks) ids s in
          let s3 := if no_limit (_slice_quota_in s2) then s2
                    else set_sessions (serve_reads (i32 (_slice_quota_in s2)) ids (sessions s2)) s2 in
          if no_limit (_slice_quota_out s3) then Some s3
          else p ← serve_writes (i32 (_slice_quota_out s3)) ids (sessions s3); Some (set_sessions p s3));
  Some (set_maintain now_ticks s4).

(** ** Start and stop *)

(** [ids]: the identifiers of the new threads. *)
Definition Start (ids : list Z) (s : state) : state :=
  if _is_runing s then s
  else
    set_run true (IoServicePool.Run ids (IoServicePool.init (work_thread_num (_options s))))
      (set_sessions (mkPool (new_flow (_slice_quota_in s) (_slice_quota_out s)) (objs (sessions s))) s).

Definition Stop (s : state) : state :=
  if negb (_is_runing s) then s
  else
    let s1 := set_run false (_io_service_pool s) s in
    let s2 := fold_left (fun a e => close_session e.2 a) (entries (_session_map s1)) s1 in
    set_maps ∅ ∅ s2.

(** ** What the maps hold *)

(** The session of an endpoint was made for it, and the names name sessions. *)
Record mapped (s : state) : Prop := {
  mp_session remote i : _session_map s !! remote = Some i -> remote_endpoint i s = Some remote;
  mp_type t i : _session_type_map s !! t = Some i -> (i < length (endpoints s))%nat;
}.

(** The operations after [Start]. *)
Inductive step : state -> state -> Prop :=
  | step_connect now h type remote s s' : Connect now h type remote s = Some s' -> step s s'
  | step_close i s : step s (close_session i s)
  | step_connected i s : step s (OnConnected i s)
  | step_received i s : step s (OnReceived i s)
  | step_reset o s : step s (ResetOptions o s)
  | step_maintain now s s' : TimerMaintain now s = Some s' -> step s s'
  | step_stop s : step s (Stop s)
  (* a read, a write or a connect of a stream: what it does to the stream and the flow *)
  | step_stream i x y f s :
      objs (sessions s) !! i = Some x -> limits f = limits (flow (sessions s)) ->
      step s (set_sessions (mkPool f (<[i := y]> (objs (sessions s)))) s).

Inductive reachable (o : ClientOptions) : state -> Prop :=
  | reach_start ids : reachable o (Start ids (init o))
  | reach_step s s' : reachable o s -> step s s' -> reachable o s'.

Lemma mapped_maps s m t :
  m ⊆ _session_map s -> t ⊆ _session_type_map s -> mapped s -> mapped (set_maps m t s).
Proof.
  intros Hm Ht []. split; cbn.
  - intros r i Hi. apply mp_session0. by eapply lookup_weaken.
  - intros x i Hi. eapply mp_type0. by eapply lookup_weaken.
Qed.

Lemma mapped_sessions p s : mapped s -> mapped (set_sessions p s).
Proof. by intros []. Qed.

Lemma mapped_OnClosed i s : mapped s -> mapped (OnClosed i s).
Proof.
  intros Hs. unfold OnClosed. case_if; [done|]. destruct (remote_endpoint i s); [|done].
  cbv zeta. case_if; [done|].
  set (s1 := set_maps (delete _ _) _ s).
  assert (mapped s1) as Hs1 by (apply mapped_maps; [apply delete_subseteq|done|done]).
  destruct (type_of_endpoint _ s1); [|by destruct Hs1].
  assert (mapped (set_maps (_session_map s1) (delete z0 (_session_type_map s1)) s1)) as []; [|done].
  apply mapped_maps; [done|apply delete_subseteq|done].
Qed.

Lemma mapped_close i s : mapped s -> mapped (close_session i s).
Proof.
  intros Hs. unfold close_session. destruct (objs _ !! i); [|done]. case_if; [done|].
  by apply mapped_OnClosed, mapped_sessions.
Qed.

Lemma mapped_fold {A} (f : state -> A -> state) l s :
  (forall a x, mapped a -> mapped (f a x)) -> mapped s -> mapped (fold_left f l s).
Proof. intros Hf. revert s. induction l as [|x l IH]; intros s Hs; [done|]. cbn. auto. Qed.

Lemma mapped_connect now h type remote s s' : Connect now h type remote s = Some s' -> mapped s -> mapped s'.
Proof.
  unfold Connect. destruct (FindOrCreateStream now h remote s) as [[i s1]|] eqn:E; [|done].
  cbn. intros [= <-] Hs. assert (mapped s1 /\ (i < length (endpoints s1))%nat) as [[] Hi].
  2:{ split; [done|]. intros t j. cbn. destruct (decide (type = t)) as [->|Ht].
      - rewrite lookup_insert_eq. by intros [= <-].
      - rewrite lookup_insert_ne by done. apply mp_type0. }
  unfold FindOrCreateStream in E. destruct Hs.
  assert (forall pool, mapped (mkState (_options s) (_is_runing s) (_slice_quota_in s) (_slice_quota_out s)
      (_max_pending_buffer_size s) (_keep_alive_ticks s)
      (set_session (length (endpoints s)) (new_session now h s) (sessions s)) (endpoints s ++ [remote]) pool
      (<[remote := length (endpoints s)]> (_session_map s)) (_session_type_map s) (_last_maintain_ticks s) (out s))) as Hnew.
  { intros pool. split; cbn.
    - intros r j. destruct (decide (remote = r)) as [->|Hr].
      + rewrite lookup_insert_eq. intros [= <-]. unfold remote_endpoint. cbn.
        rewrite lookup_app_r by done. by rewrite Nat.sub_diag.
      + rewrite lookup_insert_ne by done. intros Hj%mp_session0. by apply lookup_app_l_Some.
    - intros t j Hj%mp_type0. rewrite length_app. cbn. lia. }
  destruct (_session_map s !! remote) as [k|] eqn:Ek; [destruct (is_closed k (sessions s))|].
  2:{ injection E as <- <-. split; [done|]. by eapply lookup_lt_Some, mp_session0. }
  all: destruct (IoServicePool.GetIoService _) as [[? pool]|]; [|done]; injection E as <- <-;
    split; [apply Hnew|cbn; rewrite length_app; cbn; lia].
Qed.

Lemma mapped_maintain now s s' : TimerMaintain now s = Some s' -> mapped s -> mapped s'.
Proof.
  unfold TimerMaintain. intros He Hs.
  assert (forall t a, mapped a -> mapped (set_maintain t a)) as Hmt by (by intros t a []).
  destruct (_ && _); [injection He as <-; by apply Hmt|]. cbv zeta in He.
  set (s2 := if no_limit (_keep_alive_ticks s) then _ else _) in He.
  assert (mapped s2) as Hs2.
  { subst s2. case_if; [done|]. apply mapped_fold; [|done]. intros a i Ha. unfold keep_alive_one.
    case_if; [done|]. case_if; [by apply mapped_close|by destruct Ha]. }
  clearbody s2. set (s3 := if no_limit (_slice_quota_in s2) then _ else _) in He.
  assert (mapped s3) as Hs3 by (subst s3; case_if; [done|by destruct Hs2]). clearbody s3.
  destruct (no_limit _); cbn [mbind option_bind] in He; [injection He as <-; by apply Hmt|].
  destruct (serve_writes _ _ _); [|done]. injection He as <-. by destruct Hs3.
Qed.

Lemma reachable_mapped o s : reachable o s -> mapped s.
Proof.
  induction 1 as [ids|s s' _ IH Hs]; [by split|].
  destruct Hs as [now h type remote s s' He|i s|i s|i s|o' s|now s s' He|s|i x y f s Hx Hf].
  - by eapply mapped_connect.
  - by apply mapped_close.
  - by destruct IH.
  - by destruct IH.
  - unfold ResetOptions. cbv zeta. case_if; [by destruct IH|]. apply mapped_fold; [|by destruct IH]. by intros a e [].
  - by eapply mapped_maintain.
  - unfold Stop. case_if; [done|]. apply mapped_maps; [apply map_empty_subseteq|apply map_empty_subseteq|].
    apply mapped_fold; [|by destruct IH]. intros a e Ha. by apply mapped_close.
  - by destruct IH.
Qed.

(** [Connect] gives the name an open session of the endpoint, which is the one there was if
    that is open; an endpoint has one session, and a session one endpoint. *)
Theorem connect_gives_open_session (o : ClientOptions) (now : Z) (h : heap) (type remote : Z) (s s' : state) :
  reachable o s -> Connect now h type remote s = Some s' ->
  (exists i, GetSession type s' = Some i /\ _session_map s' !! remote = Some i /\
    is_closed i (sessions s') = false /\
    forall j, _session_map s !! remote = Some j -> is_closed j (sessions s) = false -> j = i) /\
  (forall r i, _session_map s' !! r = Some i -> remote_endpoint i s' = Some r) /\
  (forall r r' i, _session_map s' !! r = Some i -> _session_map s' !! r' = Some i -> r = r').
Proof.
  intros Hr Hc. destruct (reachable_mapped o s' (reach_step o s s' Hr (step_connect _ _ _ _ _ _ Hc))) as [Hm _].
  split; [|split; [done|]].
  2:{ intros r r' i H1%Hm H2%Hm. congruence. }
  unfold Connect, FindOrCreateStream in Hc. clear Hm.
  destruct (_session_map s !! remote) as [k|] eqn:Ek; [destruct (is_closed k (sessions s)) eqn:Ec|].
  2:{ injection Hc as <-. exists k. unfold GetSession. cbn. rewrite lookup_insert_eq. splits; try done. congruence. }
  all: destruct (IoServicePool.GetIoService _) as [[? pool]|]; [|done]; injection Hc as <-; eexists; unfold GetSession; cbn;
    rewrite !lookup_insert_eq; splits; try done; try (unfold is_closed; cbn; by rewrite lookup_insert_eq); congruence.
Qed.

(** ** A session that closes *)

Lemma type_of_endpoint_spec remote s :
  match type_of_endpoint remote s with
  | Some t => exists i, _session_type_map s !! t = Some i /\ remote_endpoint i s = remote
  | None => forall t i, _session_type_map s !! t = Some i -> remote_endpoint i s <> remote
  end.
Proof.
  unfold type_of_endpoint.
  assert (forall e, e ∈ filter (fun e => remote_endpoint e.2 s = remote) (entries (_session_type_map s)) <->
            remote_endpoint e.2 s = remote /\ _session_type_map s !! e.1 = Some e.2) as Hin.
  { intros [t i]. rewrite list_elem_of_filter. unfold entries. rewrite merge_sort_Permutation, elem_of_map_to_list. done. }
  destruct (filter _ _) as [|[t i] l]; cbn.
  - intros t i Ht Hr. assert ((t, i) ∈ []) as H by by apply Hin. by apply elem_of_nil in H.
  - destruct (proj1 (Hin (t, i))) as [Hr Ht]; [by left|]. by exists i.
Qed.

(** When a session of the map closes, its endpoint is free, and the application is told.  One
    name of the endpoint goes: the name, when there is one; but when two names share the
    session, one of them still gives the closed session. *)
Theorem closing_takes_one_name (o : ClientOptions) (s : state) (remote : Z) (i : nat) (t1 : Z) :
  reachable o s -> _is_runing s = true -> _session_map s !! remote = Some i ->
  is_closed i (sessions s) = false -> GetSession t1 s = Some i ->
  let s' := close_session i s in
  _session_map s' !! remote = None /\ is_closed i (sessions s') = true /\ out s' = out s ++ [EvClosed i] /\
  ((forall t j, GetSession t s = Some j -> remote_endpoint j s = Some remote -> t = t1) -> GetSession t1 s' = None) /\
  (forall t2, t2 <> t1 -> GetSession t2 s = Some i -> GetSession t1 s' = Some i \/ GetSession t2 s' = Some i).
Proof.
  intros Hr Hrun Hm Hc Ht1. pose proof (mp_session _ (reachable_mapped o s Hr) _ _ Hm) as Hre.
  unfold is_closed in Hc. destruct (objs (sessions s) !! i) as [x|] eqn:Ex; [|done].
  unfold close_session. rewrite Ex, Hc. unfold OnClosed. cbn [_is_runing set_sessions]. rewrite Hrun. cbn [negb].
  change (remote_endpoint i (set_sessions _ s)) with (remote_endpoint i s). rewrite Hre.
  cbn [_session_map set_sessions sessions]. rewrite Hm.
  assert (is_closed i (set_session i (close x) (sessions s)) = true) as Hcl.
  { unfold is_closed. cbn. rewrite lookup_insert_eq. unfold close, MessageStream.close. cbn. by rewrite Hc. }
  rewrite Hcl. cbn [negb]. cbv zeta.
  set (s1 := set_maps _ _ _).
  pose proof (type_of_endpoint_spec (Some remote) s1) as Hty.
  change (_session_type_map s1) with (_session_type_map s) in Hty. unfold GetSession in *.
  destruct (type_of_endpoint (Some remote) s1) as [t|].
  - destruct Hty as (j & Hj & Hjr). cbn. splits; [apply lookup_delete_eq|done|done| |].
    + intros Hu. rewrite (Hu t j Hj Hjr). apply lookup_delete_eq.
    + intros t2 Hne Ht2. destruct (decide (t = t1)) as [->|]; [right|left]; by rewrite lookup_delete_ne by congruence.
  - exfalso. by apply (Hty t1 i).
Qed.

(** ** The limits of the options *)

Definition flow_limits (s : state) : bool * bool := limits (flow (sessions s)).

Lemma close_session_limits i s : flow_limits (close_session i s) = flow_limits s.
Proof.
  unfold close_session. destruct (objs _ !! i); [|done]. case_if; [done|]. unfold OnClosed. cbn.
  case_if; [done|]. destruct (remote_endpoint i _); [|done]. case_if; [done|]. by destruct (type_of_endpoint _ _).
Qed.

Lemma flow_limits_fold {A} (f : state -> A -> state) l s :
  (forall a x, flow_limits (f a x) = flow_limits a) -> flow_limits (fold_left f l s) = flow_limits s.
Proof. intros Hf. revert s. induction l as [|x l IH]; intros s; [done|]. cbn. by rewrite IH. Qed.

Lemma maintain_limits now s s' : TimerMaintain now s = Some s' -> flow_limits s' = flow_limits s.
Proof.
  unfold TimerMaintain. destruct (_ && _); [by intros [= <-]|]. cbv zeta.
  set (s2 := if no_limit (_keep_alive_ticks s) then _ else _).
  assert (flow_limits s2 = flow_limits s) as <-.
  { subst s2. case_if; [done|]. apply flow_limits_fold. intros a i. unfold keep_alive_one.
    case_if; [done|]. case_if; [apply close_session_limits|done]. }
  clearbody s2. set (s3 := if no_limit (_slice_quota_in s2) then _ else _).
  assert (flow_limits s3 = flow_limits s2) as <-.
  { subst s3. case_if; [done|]. unfold flow_limits. cbn [sessions set_sessions]. apply serve_reads_limits. }
  clearbody s3. destruct (no_limit _); cbn [mbind option_bind]; [by intros [= <-]|].
  destruct (serve_writes _ _ _) eqn:Ew; [|done]. intros [= <-]. by apply serve_writes_limits in Ew.
Qed.

Lemma step_limits s s' : step s s' -> flow_limits s' = flow_limits s.
Proof.
  intros Hs. destruct Hs as [now h type remote s s' He|i s|i s|i s|o' s|now s s' He|s|i x y f s Hx Hf]; try done.
  - unfold Connect in He. destruct (FindOrCreateStream now h remote s) as [[i s1]|] eqn:E; [|done].
    injection He as <-. unfold FindOrCreateStream in E. cbn.
    destruct (_session_map s !! remote); [case_if|]; try (injection E as <- <-; done);
      (destruct (IoServicePool.GetIoService _) as [[? pool]|]; [|done]); by injection E as <- <-.
  - apply close_session_limits.
  - unfold ResetOptions. cbv zeta. case_if; [done|]. by rewrite flow_limits_fold.
  - by eapply maintain_limits.
  - unfold Stop. case_if; [done|]. unfold flow_limits at 1. cbn [sessions set_maps].
    etrans; [apply (flow_limits_fold (fun a e => close_session e.2 a)); intros; apply close_session_limits|done].
Qed.

(** New options do not reach the flow controller: whatever is set while the client runs, a
    direction is limited if and only if it was when the client started.  A client that started
    without a limit is never limited, and one that started with a limit keeps it for ever. *)
Theorem client_limits_are_of_start (o : ClientOptions) (s : state) :
  reachable o s ->
  limits (flow (sessions s)) = (max_throughput_in o =? -1, max_throughput_out o =? -1) /\
  (max_throughput_in o = -1 -> forall n, FlowController.acquire_read_quota n (flow (sessions s)) = (1, flow (sessions s))) /\
  (max_throughput_out o = -1 -> forall n, FlowController.acquire_write_quota n (flow (sessions s)) = (1, flow (sessions s))).
Proof.
  intros Hr.
  assert (limits (flow (sessions s)) = (max_throughput_in o =? -1, max_throughput_out o =? -1)) as Hl.
  { induction Hr as [ids|s s' _ IH Hs]; [|by rewrite <- IH; apply step_limits].
    assert (forall t, (slice_quota t slices =? -1) = (t =? -1)) as Hq.
    { intros t. unfold slice_quota. destruct (t =? -1) eqn:E; [done|].
      pose proof (Z.quot_pos (Z.max 0 (t * 1024 * 1024)) slices ltac:(lia) ltac:(done)). lia. }
    unfold limits. cbn. by rewrite !Hq. }
  unfold limits in Hl. split; [done|]. injection Hl as H1 H2.
  split; intros Ho n; unfold FlowController.acquire_read_quota, FlowController.acquire_write_quota.
  - rewrite H1, Ho. done.
  - rewrite H2, Ho. done.
Qed.

(** A client with no limit, a name, two names of one endpoint. *)
Definition demo_options : ClientOptions := mkOptions 2 (-1) 100 (-1) (-1).
Definition demo_start : state := Start [11; 12] (init demo_options).

Lemma connect_gives_open_session_witness :
  exists s' i, Connect 0 (mkHeap ∅ 0) 1 80 demo_start = Some s' /\ GetSession 1 s' = Some i /\
    is_closed i (sessions s') = false.
Proof.
  destruct (Connect 0 (mkHeap ∅ 0) 1 80 demo_start) as [s'|] eqn:E; [|vm_compute in E; discriminate].
  destruct (connect_gives_open_session demo_options 0 (mkHeap ∅ 0) 1 80 demo_start s') as [(i & H1 & _ & H2 & _) _].
  - apply reach_start.
  - exact E.
  - exists s', i. split; [reflexivity|]. split; [exact H1|exact H2].
Defined.

Lemma closing_takes_one_name_witness :
  exists s1 s2, Connect 0 (mkHeap ∅ 0) 1 80 demo_start = Some s1 /\ Connect 0 (mkHeap ∅ 0) 2 80 s1 = Some s2 /\
    (GetSession 1 (close_session 0 s2) = Some 0%nat \/ GetSession 2 (close_session 0 s2) = Some 0%nat) /\
    is_closed 0 (sessions (close_session 0 s2)) = true.
Proof.
  destruct (Connect 0 (mkHeap ∅ 0) 1 80 demo_start) as [s1|] eqn:E1; [|vm_compute in E1; discriminate].
  destruct (Connect 0 (mkHeap ∅ 0) 2 80 s1) as [s2|] eqn:E2.
  2:{ vm_compute in E1. injection E1 as <-. vm_compute in E2. discriminate. }
  assert (reachable demo_options s2) as Hr.
  { eapply reach_step; [|by eapply step_connect]. eapply reach_step; [|by eapply step_connect]. apply reach_start. }
  assert (s2 = default demo_start (s ← Connect 0 (mkHeap ∅ 0) 1 80 demo_start; Connect 0 (mkHeap ∅ 0) 2 80 s)) as Hs.
  { by rewrite E1; cbn [mbind option_bind]; rewrite E2. }
  exists s1, s2. split; [reflexivity|]. split; [exact E2|].
  destruct (closing_takes_one_name demo_options s2 80 0 1 Hr) as (_ & Hc & _ & _ & Hn);
    [rewrite Hs; vm_compute; reflexivity ..|].
  split; [apply (Hn 2); [lia|rewrite Hs; vm_compute; reflexivity]|exact Hc].
Defined.

Lemma client_limits_are_of_start_witness :
  FlowController.acquire_read_quota 9
    (flow (sessions (ResetOptions (mkOptions 2 (-1) 100 1 1) demo_start))) =
  (1, flow (sessions (ResetOptions (mkOptions 2 (-1) 100 1 1) demo_start))).
Proof.
  apply (client_limits_are_of_start demo_options (ResetOptions (mkOptions 2 (-1) 100 1 1) demo_start)).
  - eapply reach_step; [apply reach_start|apply step_reset].
  - reflexivity.
Defined.

End ClientImpl.
