(* ===== verification/Kcp.v ===== *)
(** * KCP transport ([src/message_stream/transport/kcp_transport.cpp])

    The ARQ protocol is the library [ikcp]; the class [Ikcp] holds its functions and
    [IkcpLaws] what the code relies on.  [KcpTransport] turns its messages into the byte
    stream a [MessageStream] reads and writes.

    The calls of the host, [on_read_some] and [on_write_some], are events: each is the last
    thing the operation does, except that the update timer or the next receive is armed after
    it, and arming commutes with what the host does then (a handler that runs on a closed
    transport returns).  What the host does is another operation. *)

From S2P Require Import Prelude TranBuf BufRead Flow Framing MessageStream.
Import TranBufPool.

(** ** The library *)

Class Ikcp := {
  ikcp : Type;
  ikcp_create : Z -> option ikcp;
  ikcp_send : list Z -> ikcp -> Z * ikcp;             (* the value returned *)
  ikcp_input : list Z -> ikcp -> Z * ikcp;
  ikcp_peeksize : ikcp -> Z;
  ikcp_recv : Z -> ikcp -> Z * list Z * ikcp;         (* the bytes put in the buffer *)
  ikcp_update : Z -> ikcp -> list (list Z) * ikcp;    (* the datagrams given to the callback *)
  ikcp_getconv : list Z -> Z;
}.

(** A segment is queued whole or refused; a message is received whole, and leaves the queue
    of received messages. *)
Class IkcpLaws `{Ikcp} := {
  ikcp_queued : ikcp -> nat;
  send_atomic d k : d <> [] -> (ikcp_send d k).1 < 0 \/ (ikcp_send d k).1 = Z.of_nat (length d);
  recv_dequeues k : 0 < ikcp_peeksize k -> (ikcp_queued (ikcp_recv (ikcp_peeksize k) k).2 < ikcp_queued k)%nat;
}.

Module KcpTransport.
Section WithIkcp.
Context `{Ikcp}.

Definition kKcpMaxSegment : nat := 1376.

Inductive event :=
  | EvKcpSend (data : list Z) (ret : Z)      (* a call of [ikcp_send] *)
  | EvKcpRecv (data : list Z)                (* bytes taken from [ikcp_recv] *)
  | EvReadSome (data : Z) (bytes : list Z)   (* copied to [data], then [on_read_some] *)
  | EvWriteSome (n : nat)
  | EvHostClose | EvConnected
  | EvSendTo (remote : Z) (datagram : list Z)
  | EvTimer | EvCancelTimer | EvReceive | EvRelease.

Record state := mkState {
  _closed : bool;
  _conv : Z;
  _kcp : option ikcp;
  _socket : bool;
  _remote_udp_endpoint : Z;
  _in_buffer : list Z; _in_head : nat;
  _pending_read : option (Z * nat);       (* address and size *)
  _out_buffer : list Z; _out_head : nat;
  _flushing : bool;
  out : list event;
}.

Definition init (conv : Z) : state := mkState false conv None false 0 [] 0 None [] 0 false [].

Definition emit (e : event) (s : state) : state :=
  mkState (_closed s) (_conv s) (_kcp s) (_socket s) (_remote_udp_endpoint s) (_in_buffer s) (_in_head s)
    (_pending_read s) (_out_buffer s) (_out_head s) (_flushing s) (out s ++ [e]).
Definition set_link (c : bool) (v : Z) (k : option ikcp) (sock : bool) (r : Z) (s : state) : state :=
  mkState c v k sock r (_in_buffer s) (_in_head s) (_pending_read s) (_out_buffer s) (_out_head s)
    (_flushing s) (out s).
Definition set_kcp (k : option ikcp) (s : state) : state :=
  set_link (_closed s) (_conv s) k (_socket s) (_remote_udp_endpoint s) s.
Definition set_in (b : list Z) (h : nat) (p : option (Z * nat)) (s : state) : state :=
  mkState (_closed s) (_conv s) (_kcp s) (_socket s) (_remote_udp_endpoint s) b h p
    (_out_buffer s) (_out_head s) (_flushing s) (out s).
Definition set_out (b : list Z) (h : nat) (f : bool) (s : state) : state :=
  mkState (_closed s) (_conv s) (_kcp s) (_socket s) (_remote_udp_endpoint s) (_in_buffer s) (_in_head s)
    (_pending_read s) b h f (out s).

(** ** Writing *)

(** The buffer is cleared once the head has reached its end. *)
Definition normalized (b : list Z) (h : nat) : list Z * nat :=
  if decide (h = length b) then ([], 0%nat) else (b, h).

Fixpoint flush_loop (fuel : nat) (sent_total : nat) (s : state) : option (nat * state) :=
  match fuel with
  | O => None
  | S n =>
      if decide (_out_head s < length (_out_buffer s))%nat then
        k ← _kcp s;
        let chunk := ((length (_out_buffer s) - _out_head s) `min` kKcpMaxSegment)%nat in
        let d := take chunk (drop (_out_head s) (_out_buffer s)) in
        let '(ret, k') := ikcp_send d k in
        let s1 := set_kcp (Some k') (emit (EvKcpSend d ret) s) in
        if ret <? 0 then Some (sent_total, s1)
        else
          let '(b, h) := normalized (_out_buffer s) (_out_head s + Z.to_nat ret) in
          flush_loop n (sent_total + Z.to_nat ret) (set_out b h (_flushing s1) s1)
      else Some (sent_total, s)
  end.

Definition FlushOutput (s : state) : option state :=
  if _flushing s || _closed s || match _kcp s with None => true | Some _ => false end then Some s
  else
    '(sent_total, s1) ← flush_loop (S (length (_out_buffer s))) 0
                          (set_out (_out_buffer s) (_out_head s) true s);
    let s2 := set_out (_out_buffer s1) (_out_head s1) false s1 in
    Some (if decide (0 < sent_total)%nat then emit (EvWriteSome sent_total) s2 else s2).

Definition async_write_some (data : list Z) (s : state) : option state :=
  FlushOutput (set_out (_out_buffer s ++ data) (_out_head s) (_flushing s) s).

(** ** Reading *)

Definition async_read_some (data : Z) (size : nat) (s : state) : state :=
  if decide (_in_head s < length (_in_buffer s))%nat then
    let available := (length (_in_buffer s) - _in_head s)%nat in
    let n := (available `min` size)%nat in
    let bytes := take n (drop (_in_head s) (_in_buffer s)) in
    let '(b, h) := normalized (_in_buffer s) (_in_head s + n) in
    emit (EvReadSome data bytes) (set_in b h (_pending_read s) s)
  else set_in (_in_buffer s) (_in_head s) (Some (data, size)) s.

Definition TryDeliverRead (s : state) : state :=
  match _pending_read s with
  | Some (data, size) =>
      if decide (_in_head s < length (_in_buffer s))%nat then
        let available := (length (_in_buffer s) - _in_head s)%nat in
        let n := (available `min` size)%nat in
        let bytes := take n (drop (_in_head s) (_in_buffer s)) in
        let '(b, h) := normalized (_in_buffer s) (_in_head s + n) in
        emit (EvReadSome data bytes) (set_in b h None s)
      else s
  | None => s
  end.

(** The loop runs as long as the library has messages: [fuel] bounds them. *)
Fixpoint drain_loop (fuel : nat) (k : ikcp) (s : state) : option state :=
  match fuel with
  | O => None
  | S n =>
      let peek := ikcp_peeksize k in
      if 0 <? peek then
        let '(ret, tmp, k') := ikcp_recv peek k in
        if ret <=? 0 then Some (set_kcp (Some k') s)
        else
          let bytes := take (Z.to_nat ret) tmp in
          drain_loop n k' (set_in (_in_buffer s ++ bytes) (_in_head s) (_pending_read s)
                             (emit (EvKcpRecv bytes) s))
      else Some (set_kcp (Some k) s)
  end.

Definition DrainInput (fuel : nat) (k : ikcp) (s : state) : option state :=
  s' ← drain_loop fuel k s; Some (TryDeliverRead s').

(** The same two lines for a datagram of the socket and one the listener forwards; the error
    of [ikcp_input] is only logged. *)
Definition HandleInput (fuel : nat) (buf : list Z) (s : state) : option state :=
  if _closed s then Some s
  else match _kcp s with
       | None => Some s
       | Some k => DrainInput fuel (ikcp_input buf k).2 s
       end.

Definition StartReceive (s : state) : state :=
  if _closed s || negb (_socket s) then s else emit EvReceive s.

Definition OnReceive (fuel : nat) (ec : bool) (buf : list Z) (s : state) : option state :=
  if _closed s then Some s
  else match _kcp s with
       | None => Some s
       | Some k =>
           if ec then Some (StartReceive s)
           else s' ← DrainInput fuel (ikcp_input buf k).2 s; Some (StartReceive s')
       end.

(** ** The clock *)

(** The output callback; the value returned is not the error of [send_to]. *)
Definition SendUdp (buf : list Z) (s : state) : Z * state :=
  if _closed s || negb (_socket s) then (-1, s)
  else (Z.of_nat (length buf), emit (EvSendTo (_remote_udp_endpoint s) buf) s).

Definition StartUpdateTimer (s : state) : state := emit EvTimer s.

Definition OnUpdate (ec : bool) (now_ms : Z) (s : state) : option state :=
  if _closed s || ec then Some s
  else
    let s1 := match _kcp s with
              | Some k => let '(l, k') := ikcp_update (u32 now_ms) k in
                          fold_left (fun a d => (SendUdp d a).2) l (set_kcp (Some k') s)
              | None => s
              end in
    s2 ← (if decide (_out_head s1 < length (_out_buffer s1))%nat then FlushOutput s1 else Some s1);
    Some (StartUpdateTimer s2).

(** ** Opening and closing *)

Definition close (s : state) : state :=
  if _closed s then s
  else
    let s1 := emit EvCancelTimer
                (set_link true (_conv s) (_kcp s) (_socket s) (_remote_udp_endpoint s) s) in
    match _kcp s1 with Some _ => set_kcp None (emit EvRelease s1) | None => s1 end.

(** [_host->close] closes the transport too, when the host was not closed. *)
Definition host_close (s : state) : state := close (emit EvHostClose s).

Definition DoConnect (open_ok : bool) (remote : Z) (s : state) : state :=
  if _closed s then s
  else
    let s1 := set_link (_closed s) (_conv s) (_kcp s) true remote s in
    if negb (_socket s) && negb open_ok then host_close s1
    else match ikcp_create (_conv s) with
         | None => host_close (set_kcp None s1)
         | Some k => emit EvConnected (StartUpdateTimer (StartReceive (set_kcp (Some k) s1)))
         end.

Definition bind_local (is_open open_ok bind_ok : bool) (s : state) : bool * state :=
  if _closed s then (false, s)
  else
    let s1 := set_link (_closed s) (_conv s) (_kcp s) true (_remote_udp_endpoint s) s in
    (if negb is_open && negb open_ok then false else bind_ok, s1).

(** The server side: the socket of the listener, and the address of the datagram. *)
Definition Setup (remote conv : Z) (s : state) : bool * state :=
  if _closed s then (false, s)
  else match ikcp_create conv with
       | None => (false, set_link (_closed s) conv None true remote s)
       | Some k => (true, emit EvConnected (StartUpdateTimer
                           (set_link (_closed s) conv (Some k) true remote s)))
       end.

(** ** What went through, by the events *)

Definition fed_of (e : event) : list Z :=
  match e with EvKcpSend d ret => if ret <? 0 then [] else take (Z.to_nat ret) d | _ => [] end.
Definition acked_of (e : event) : nat := match e with EvWriteSome n => n | _ => 0 end.
Definition received_of (e : event) : list Z := match e with EvKcpRecv d => d | _ => [] end.
Definition delivered_of (e : event) : list Z := match e with EvReadSome _ d => d | _ => [] end.

Definition fed (l : list event) : list Z := concat (fed_of <$> l).
Definition acked (l : list event) : nat := sum_list (acked_of <$> l).
Definition received (l : list event) : list Z := concat (received_of <$> l).
Definition delivered (l : list event) : list Z := concat (delivered_of <$> l).

(** The bytes the transport still holds. *)
Definition unsent (s : state) : list Z := drop (_out_head s) (_out_buffer s).
Definition unread (s : state) : list Z := drop (_in_head s) (_in_buffer s).

#[local] Arguments unsent : simpl never.
#[local] Arguments unread : simpl never.

Definition good_event (e : event) : Prop :=
  match e with
  | EvKcpSend d _ => d <> [] /\ (length d <= kKcpMaxSegment)%nat
  | EvWriteSome n => (0 < n)%nat
  | _ => True
  end.

Lemma fed_app l l' : fed (l ++ l') = fed l ++ fed l'.
Proof. unfold fed. by rewrite fmap_app, concat_app. Qed.
Lemma received_app l l' : received (l ++ l') = received l ++ received l'.
Proof. unfold received. by rewrite fmap_app, concat_app. Qed.
Lemma delivered_app l l' : delivered (l ++ l') = delivered l ++ delivered l'.
Proof. unfold delivered. by rewrite fmap_app, concat_app. Qed.
Lemma acked_app l l' : acked (l ++ l') = (acked l + acked l')%nat.
Proof. unfold acked. by rewrite fmap_app, sum_list_with_app || rewrite fmap_app, sum_list_app. Qed.

Lemma normalized_rest b h b' h' : normalized b h = (b', h') -> (h <= length b)%nat -> drop h' b' = drop h b /\ (h' <= length b')%nat.
Proof.
  unfold normalized. case_decide as E; intros [= <- <-]; [|done]. subst h. by rewrite drop_all.
Qed.

(** What the transport and its host agree on: all that was written is in the library or still
    here, in order; the host knows of all but [t] bytes of the first; what was received is
    delivered or still here. *)
Record streams_at (t : nat) (f : bool) (s : state) (written : list Z) : Prop := {
  str_out : fed (out s) ++ unsent s = written;
  str_acked : (acked (out s) + t)%nat = length (fed (out s));
  str_in : received (out s) = delivered (out s) ++ unread s;
  str_flushing : _flushing s = f;
  str_good : Forall good_event (out s);
  str_out_head : (_out_head s <= length (_out_buffer s))%nat;
  str_in_head : (_in_head s <= length (_in_buffer s))%nat;
}.

(** Between two operations there is no such byte. *)
Abbreviation streams := (streams_at 0 false).

Definition silent (e : event) : Prop :=
  match e with EvKcpSend _ _ | EvKcpRecv _ | EvReadSome _ _ | EvWriteSome _ => False | _ => True end.

Hint Extern 1 (silent _) => exact I : gb.

(** Split the goal [streams_at _ _ _ _] into what the new events add. *)
Ltac split_streams :=
  split; unfold unsent, unread in *;
  cbn [emit set_in set_kcp set_link set_out out _out_head _out_buffer _in_head _in_buffer _flushing];
  rewrite ?fed_app, ?acked_app, ?received_app, ?delivered_app; cbn; rewrite ?app_nil_r; try done.

Lemma streams_emit e t f s w : silent e -> streams_at t f s w -> streams_at t f (emit e s) w.
Proof.
  intros He []. unfold unsent, unread in *.
  destruct e; try done; (split_streams; [lia|]); (apply Forall_app; split; [done|]); by apply Forall_singleton.
Qed.

Lemma streams_link c v k sock r t f s w :
  streams_at t f s w -> streams_at t f (set_link c v k sock r s) w.
Proof. by intros []. Qed.
Lemma streams_kcp k t f s w : streams_at t f s w -> streams_at t f (set_kcp k s) w.
Proof. apply streams_link. Qed.
Hint Resolve streams_emit streams_link streams_kcp : gb.

Lemma streams_close s w : streams s w -> streams (close s) w.
Proof. unfold close, set_kcp. intros Hs. case_if; [done|]. case_match; auto 8 with gb. Qed.
Hint Resolve streams_close : gb.

Lemma streams_update_timer s w : streams s w -> streams (StartUpdateTimer s) w.
Proof. intros. by apply streams_emit. Qed.
Lemma streams_start_receive s w : streams s w -> streams (StartReceive s) w.
Proof. unfold StartReceive. intros. case_if; auto with gb.  Qed.
Hint Resolve streams_update_timer streams_start_receive : gb.

(** ** Reading, in order *)

Lemma streams_deliver d n b h p s w :
  streams s w -> (_in_head s + n <= length (_in_buffer s))%nat ->
  normalized (_in_buffer s) (_in_head s + n) = (b, h) ->
  streams (emit (EvReadSome d (take n (unread s))) (set_in b h p s)) w.
Proof.
  intros [] Hle [Hn Hb]%normalized_rest; [|done]. unfold unsent, unread in *.
  split_streams.
  - lia.
  - rewrite str_in0, <- app_assoc, Hn, <- drop_drop. by rewrite take_drop.
  - apply Forall_app; split; [done|]. by apply Forall_singleton.
Qed.

Lemma streams_try_deliver s w : streams s w -> streams (TryDeliverRead s) w.
Proof.
  intros Hs. unfold TryDeliverRead. destruct (_pending_read s) as [[d z]|]; [|done].
  case_decide; [|done]. destruct (normalized _ _) as [b h] eqn:E. apply streams_deliver; [done| |done]. lia.
Qed.

Lemma streams_read d z s w : streams s w -> streams (async_read_some d z s) w.
Proof.
  intros Hs. unfold async_read_some. case_decide; [|by destruct Hs].
  destruct (normalized _ _) as [b h] eqn:E. apply streams_deliver; [done| |done]. lia.
Qed.

Lemma streams_recv bytes s w :
  streams s w ->
  streams (set_in (_in_buffer s ++ bytes) (_in_head s) (_pending_read s) (emit (EvKcpRecv bytes) s)) w.
Proof.
  intros []. unfold unsent, unread in *.
  split_streams.
  - lia.
  - rewrite drop_app_le by done. by rewrite str_in0, <- app_assoc.
  - apply Forall_app; split; [done|]. by apply Forall_singleton.
  - rewrite length_app. lia.
Qed.

Lemma streams_drain_loop fuel k s s' w :
  drain_loop fuel k s = Some s' -> streams s w -> streams s' w.
Proof.
  revert k s. induction fuel as [|n IH]; intros k s; [done|]. cbn [drain_loop].
  case_if; [|intros [= <-]; auto with gb].
  destruct (ikcp_recv _ _) as [[ret tmp] k']. case_if; [intros [= <-]; auto with gb|].
  intros Hd Hs. eapply IH; [exact Hd|]. by apply streams_recv.
Qed.

Lemma streams_drain fuel k s s' w : DrainInput fuel k s = Some s' -> streams s w -> streams s' w.
Proof.
  unfold DrainInput. destruct (drain_loop _ _ _) eqn:E; [|done]. intros [= <-] Hs.
  eapply streams_try_deliver, streams_drain_loop; eauto.
Qed.

(** The loop ends when the library has fewer messages than [fuel]. *)
Lemma drain_loop_total `{!IkcpLaws} fuel k s :
  (ikcp_queued k < fuel)%nat -> is_Some (drain_loop fuel k s).
Proof.
  revert k s. induction fuel as [|n IH]; intros k s Hf; [lia|]. cbn [drain_loop].
  case_if; [|by eexists]. pose proof (recv_dequeues k ltac:(lia)).
  destruct (ikcp_recv _ _) as [[ret tmp] k']. case_if; [by eexists|]. apply IH. simpl in *. lia.
Qed.

(** ** Writing, in order *)

(** A segment goes to the library; what it takes leaves the buffer. *)
Lemma streams_segment k' d ret b h t s w :
  streams_at t true s w -> d <> [] -> (length d <= kKcpMaxSegment)%nat ->
  (exists r, unsent s = d ++ r) -> 0 <= ret <= Z.of_nat (length d) ->
  normalized (_out_buffer s) (_out_head s + Z.to_nat ret) = (b, h) ->
  streams_at (t + Z.to_nat ret) true (set_out b h true (set_kcp k' (emit (EvKcpSend d ret) s))) w.
Proof.
  intros [] Hd Hl [r Hr] Hret Hn. unfold unsent, unread in *.
  assert (length d <= length (_out_buffer s) - _out_head s)%nat.
  { rewrite <- length_drop, Hr, length_app. lia. }
  apply normalized_rest in Hn as [Hn Hb]; [|lia].
  assert ((ret <? 0) = false) as E by lia.
  split_streams; rewrite ?E, ?app_nil_r; try done.
  - rewrite Hn, <- drop_drop, Hr, <- app_assoc, <- str_out0, Hr. f_equal.
    rewrite drop_app_le by lia. by rewrite app_assoc, take_drop.
  - rewrite length_app, length_take. lia.
  - apply Forall_app; split; [done|]. by apply Forall_singleton.
Qed.

Lemma streams_refused k' d ret t s w :
  streams_at t true s w -> d <> [] -> (length d <= kKcpMaxSegment)%nat -> ret < 0 ->
  streams_at t true (set_kcp k' (emit (EvKcpSend d ret) s)) w.
Proof.
  intros [] Hd Hl Hret. unfold unsent, unread in *.
  assert ((ret <? 0) = true) as E by lia.
  split_streams; rewrite ?E, ?app_nil_r; try done.
  - lia.
  - apply Forall_app; split; [done|]. by apply Forall_singleton.
Qed.

(** The part of the state writing does not touch. *)
Definition read_side (s : state) : list Z * nat * option (Z * nat) * bool :=
  (_in_buffer s, _in_head s, _pending_read s, _closed s).

Lemma length_unsent s : length (unsent s) = (length (_out_buffer s) - _out_head s)%nat.
Proof. unfold unsent. by rewrite length_drop. Qed.

(** The segment [flush_loop] takes. *)
Definition segment (s : state) : list Z :=
  take ((length (_out_buffer s) - _out_head s) `min` kKcpMaxSegment)%nat (unsent s).

Lemma segment_ok s :
  (_out_head s < length (_out_buffer s))%nat ->
  segment s <> [] /\ (length (segment s) <= kKcpMaxSegment)%nat /\ exists r, unsent s = segment s ++ r.
Proof.
  intros Hlt. pose proof (length_unsent s) as Hu. split; [|split].
  - intros He%(f_equal length). unfold segment in He. rewrite length_take in He.
    change (length []) with 0%nat in He. unfold kKcpMaxSegment in He. lia.
  - unfold segment. rewrite length_take. lia.
  - eexists. symmetry. apply take_drop.
Qed.

Lemma flush_loop_spec `{!IkcpLaws} fuel t s w :
  streams_at t true s w -> _kcp s <> None -> (length (unsent s) < fuel)%nat ->
  exists t' s', flush_loop fuel t s = Some (t', s') /\ streams_at t' true s' w /\ (t <= t')%nat /\
    read_side s' = read_side s /\ _kcp s' <> None /\ acked (out s') = acked (out s) /\
    (unsent s' = [] \/ exists l d ret, out s' = l ++ [EvKcpSend d ret] /\ ret < 0).
Proof.
  revert t s. induction fuel as [|n IH]; intros t s Hs Hk Hf; [lia|]. cbn [flush_loop].
  case_decide as Hlt.
  2:{ exists t, s. splits; auto. left. apply nil_length_inv. rewrite length_unsent. lia. }
  destruct (_kcp s) as [k|]; [|done]. cbn [mbind option_bind]. fold (unsent s). fold (segment s).
  destruct (segment_ok s Hlt) as (Hne & Hle & r & Hr).
  pose proof (send_atomic (segment s) k Hne) as Hret.
  destruct (ikcp_send (segment s) k) as [ret k']. cbn [fst] in Hret.
  destruct (ret <? 0) eqn:E.
  - eexists t, _. split; [done|]. split; [apply streams_refused; auto; lia|].
    splits; auto; [cbn [out set_kcp set_link emit]; rewrite acked_app; cbn; lia|]. right. do 3 eexists. split; [done|]. lia.
  - destruct Hret as [Hret|Hret]; [lia|].
    destruct (normalized _ _) as [b h] eqn:En.
    pose proof (str_flushing _ _ _ _ Hs) as Hfl.
    pose proof (streams_segment (Some k') (segment s) ret b h t s w Hs Hne Hle (ex_intro _ r Hr)
                  ltac:(lia) En) as Hs'.
    cbn [_flushing set_kcp set_link emit]. rewrite Hfl.
    destruct (IH _ _ Hs') as (t' & s' & He & Ht & Hle' & Hrd & Hk' & Hak & Hend); [done| |].
    { assert (length (segment s) <> 0)%nat as Hl0 by (intros ?%nil_length_inv; done).
      pose proof (str_out _ _ _ _ Hs) as Ho. pose proof (str_out _ _ _ _ Hs') as Ho'.
      rewrite <- Ho in Ho'. apply (f_equal length) in Ho'. cbn [out set_out set_kcp set_link emit] in Ho'.
      rewrite fed_app, !length_app in Ho'.
      assert (length (fed [EvKcpSend (segment s) ret]) = length (segment s)) as Hf1.
      { cbn. rewrite E, app_nil_r, length_take. lia. }
      lia. }
    exists t', s'. splits; auto; [lia|]. rewrite Hak. cbn [out set_out set_kcp set_link emit]. rewrite acked_app. cbn. lia.
Qed.

(** [FlushOutput] ends; when the library refuses nothing, nothing is left. *)
Lemma FlushOutput_spec `{!IkcpLaws} s w :
  streams s w ->
  exists s', FlushOutput s = Some s' /\ streams s' w /\ read_side s' = read_side s /\
    (_kcp s' = None <-> _kcp s = None).
Proof.
  intros Hs. unfold FlushOutput. rewrite (str_flushing _ _ _ _ Hs). cbn [orb].
  destruct (_closed s); [by exists s|]. destruct (_kcp s) as [k|] eqn:Ek; [|by exists s]. cbn [orb].
  destruct (flush_loop_spec (S (length (_out_buffer s))) 0 (set_out (_out_buffer s) (_out_head s) true s) w)
    as (t' & s' & He & Ht & Hle' & Hrd & Hk' & Hak & Hend).
  { destruct Hs. by split. }
  { cbn. by rewrite Ek. }
  { rewrite length_unsent. cbn. lia. }
  rewrite He. cbn [mbind option_bind].
  eexists. split; [done|]. split.
  - destruct Ht. case_decide as Ht0.
    + split_streams; [lia|]. apply Forall_app; split; [done|]. by apply Forall_singleton.
    + split_streams. lia.
  - case_decide; (split; [exact Hrd|]); cbn; (split; [done|]); congruence.
Qed.

(** ** Every run *)

Lemma read_side_eq s s' :
  read_side s' = read_side s ->
  unread s' = unread s /\ _pending_read s' = _pending_read s /\ _closed s' = _closed s.
Proof. unfold read_side, unread. by intros [= -> -> -> ->]. Qed.

(** [run s written]: [s] is reached from a new transport by its operations, in any order, and
    [written] are the bytes given to [async_write_some]. *)
Inductive run : state -> list Z -> Prop :=
  | run_init conv : run (init conv) []
  | run_connect s w ok r : run s w -> run (DoConnect ok r s) w
  | run_bind s w b1 b2 b3 : run s w -> run (bind_local b1 b2 b3 s).2 w
  | run_setup s w r conv : run s w -> run (Setup r conv s).2 w
  | run_close s w : run s w -> run (close s) w
  | run_write s w data s' : run s w -> async_write_some data s = Some s' -> run s' (w ++ data)
  | run_read s w data size : run s w -> run (async_read_some data size s) w
  | run_input s w fuel buf s' : run s w -> HandleInput fuel buf s = Some s' -> run s' w
  | run_receive s w fuel ec buf s' : run s w -> OnReceive fuel ec buf s = Some s' -> run s' w
  | run_update s w ec now s' : run s w -> OnUpdate ec now s = Some s' -> run s' w.

(** A pending read waits for bytes that are not there; a closed transport has let the library
    go. *)
Definition rest_ok (s : state) : Prop :=
  (_pending_read s <> None -> unread s = []) /\ (_closed s = true -> _kcp s = None).

Lemma rest_ok_try_deliver s : (_closed s = true -> _kcp s = None) -> rest_ok (TryDeliverRead s).
Proof.
  intros Hc. unfold TryDeliverRead. destruct (_pending_read s) as [[d z]|] eqn:Ep.
  - case_decide as Hlt; [by destruct (normalized _ _)|]. split; [|done]. intros _.
    unfold unread. apply nil_length_inv. rewrite length_drop. lia.
  - split; [|done]. by rewrite Ep.
Qed.

Lemma drain_loop_closed fuel k s s' : drain_loop fuel k s = Some s' -> _closed s' = _closed s.
Proof.
  revert k s. induction fuel as [|n IH]; intros k s; [done|]. cbn [drain_loop].
  case_if; [|by intros [= <-]]. destruct (ikcp_recv _ _) as [[ret tmp] k'].
  case_if; [by intros [= <-]|]. by intros ->%IH.
Qed.

Lemma rest_ok_drain fuel k s s' : DrainInput fuel k s = Some s' -> _closed s = false -> rest_ok s'.
Proof.
  unfold DrainInput. destruct (drain_loop _ _ _) eqn:E; [|done]. intros [= <-] Hc.
  apply rest_ok_try_deliver. apply drain_loop_closed in E. congruence.
Qed.

Lemma rest_ok_read data size s : rest_ok s -> rest_ok (async_read_some data size s).
Proof.
  intros [Hp Hc]. unfold async_read_some. case_decide as Hlt.
  - destruct (normalized _ _) as [b h]. split; [|done]. cbn. intros Hpe%Hp.
    apply (f_equal length) in Hpe. unfold unread in Hpe. rewrite length_drop in Hpe.
    change (length []) with 0%nat in Hpe. lia.
  - split; [|done]. intros _. unfold unread. cbn. apply nil_length_inv. rewrite length_drop. lia.
Qed.

Lemma streams_append data s w :
  streams s w -> streams (set_out (_out_buffer s ++ data) (_out_head s) (_flushing s) s) (w ++ data).
Proof.
  intros []. split_streams; rewrite ?length_app; try lia.
  rewrite drop_app_le by done. by rewrite app_assoc, str_out0.
Qed.

(** A write ends, whatever the library accepts. *)
Lemma async_write_some_spec `{!IkcpLaws} data s w :
  streams s w ->
  exists s', async_write_some data s = Some s' /\ streams s' (w ++ data) /\ read_side s' = read_side s /\
    (_kcp s' = None <-> _kcp s = None).
Proof.
  intros Hs%(streams_append data). destruct (FlushOutput_spec _ _ Hs) as (s' & He & ? & ? & ?). by exists s'.
Qed.

Lemma send_udp_all l s w :
  streams s w -> rest_ok s ->
  let s' := fold_left (fun a d => (SendUdp d a).2) l s in streams s' w /\ rest_ok s' /\ _closed s' = _closed s.
Proof.
  revert s. induction l as [|d l IH]; intros s Hs Hr; [done|]. simpl.
  assert (streams (SendUdp d s).2 w /\ rest_ok (SendUdp d s).2 /\ _closed (SendUdp d s).2 = _closed s) as (H1 & H2 & H3).
  { unfold SendUdp. case_if; [done|]. split; [by apply (streams_emit (EvSendTo _ _))|]. split; [exact Hr|done]. }
  destruct (IH _ H1 H2) as (? & ? & ->). done.
Qed.

Lemma OnUpdate_spec `{!IkcpLaws} ec now s w :
  streams s w -> rest_ok s ->
  exists s', OnUpdate ec now s = Some s' /\ streams s' w /\ rest_ok s'.
Proof.
  intros Hs Hr. unfold OnUpdate. case_if; [by exists s|].
  set (s1 := match _kcp s with Some _ => _ | None => _ end).
  assert (streams s1 w /\ rest_ok s1) as [Hs1 Hr1].
  { subst s1. destruct (_kcp s) as [k|] eqn:Ek; [|done]. destruct (ikcp_update _ _) as [l k'].
    destruct (send_udp_all l (set_kcp (Some k') s) w) as (? & ? & _); [by apply streams_kcp| |done].
    destruct Hr as [Hp Hc]. split; [exact Hp|]. cbn. destruct (_closed s); [done|]. congruence. }
  clearbody s1. case_decide.
  - destruct (FlushOutput_spec s1 w Hs1) as (s2 & -> & Hs2 & (Hu & Hp & Hc)%read_side_eq & Hk).
    eexists. split; [done|]. split; [by apply streams_update_timer|].
    destruct Hr1. unfold rest_ok. cbn. change (unread (StartUpdateTimer s2)) with (unread s2).
    rewrite Hu, Hp, Hc, Hk. done.
  - eexists. split; [done|]. split; [by apply streams_update_timer|]. exact Hr1.
Qed.

Lemma rest_ok_close s : rest_ok s -> rest_ok (close s).
Proof.
  intros Hr. unfold close. case_if; [done|]. destruct Hr. cbn.
  destruct (_kcp s) eqn:E; (split; [done|]); cbn; congruence.
Qed.

Lemma rest_ok_connect ok r s : rest_ok s -> rest_ok (DoConnect ok r s).
Proof.
  intros Hr. unfold DoConnect. destruct (_closed s) eqn:Ec; [done|].
  assert (forall k e, rest_ok (emit e (set_link false (_conv s) k true r s))) as Hl.
  { intros k e. destruct Hr. by split. }
  case_if; [apply rest_ok_close, Hl|]. destruct (ikcp_create _) as [k|].
  - unfold StartReceive. cbn. apply Hl.
  - apply rest_ok_close, Hl.
Qed.

Lemma run_invariant `{!IkcpLaws} s w : run s w -> streams s w /\ rest_ok s.
Proof.
  induction 1 as [conv|s w ok r _ [Hs Hr]|s w b1 b2 b3 _ [Hs Hr]|s w r conv _ [Hs Hr]|s w _ [Hs Hr]
    |s w data s' _ [Hs Hr] He|s w data size _ [Hs Hr]|s w fuel buf s' _ [Hs Hr] He
    |s w fuel ec buf s' _ [Hs Hr] He|s w ec now s' _ [Hs Hr] He].
  - split; [split; try done; by constructor|done].
  - split; [|by apply rest_ok_connect].
    unfold DoConnect, host_close. case_if; [done|]. case_if; [auto with gb|]. case_match; auto 8 with gb.
  - unfold bind_local. case_if; [done|]. split; [by apply streams_link|]. destruct Hr. by split.
  - unfold Setup. destruct (_closed s) eqn:Ec; [done|]. destruct Hr.
    case_match; cbn [snd]; (split; [auto 8 with gb|done]).
  - split; [by apply streams_close|by apply rest_ok_close].
  - destruct (async_write_some_spec data s w Hs) as (s2 & He' & Hs2 & (Hu & Hp & Hc)%read_side_eq & Hk).
    simplify_eq. split; [done|]. destruct Hr. unfold rest_ok. rewrite Hu, Hp, Hc, Hk. done.
  - split; [by apply streams_read|by apply rest_ok_read].
  - unfold HandleInput in He. destruct (_closed s) eqn:Ec; [by simplify_eq|].
    destruct (_kcp s) as [k|]; [|by simplify_eq].
    split; [by eapply streams_drain|by eapply rest_ok_drain].
  - unfold OnReceive in He. destruct (_closed s) eqn:Ec; [by simplify_eq|].
    destruct (_kcp s) as [k|]; [|by simplify_eq].
    assert (forall x, rest_ok x -> rest_ok (StartReceive x)) as Hsr.
    { intros x Hx. unfold StartReceive. by case_if. }
    destruct ec; [simplify_eq; split; auto with gb|].
    destruct (DrainInput _ _ _) as [s2|] eqn:Ed; simplify_eq/=.
    split; [apply streams_start_receive; by eapply streams_drain|].
    apply Hsr. by eapply rest_ok_drain.
  - destruct (OnUpdate_spec ec now s w Hs Hr) as (s2 & He' & Hs2 & Hr2). by simplify_eq.
Qed.

(** C30: the byte stream over the message protocol: whatever the order of operations, and whatever
    the library refuses, the bytes written are those the library has taken, in order, followed
    by those still held; the bytes the host was told of are exactly those taken; the bytes
    received are those delivered followed by those not read yet, and a read only waits when
    there are none; each segment is within the limit and no count of zero is reported; a write
    ends. *)
Theorem kcp_streams_in_order `{!IkcpLaws} (s : state) (written : list Z) :
  run s written ->
  fed (out s) ++ unsent s = written /\ acked (out s) = length (fed (out s)) /\
  received (out s) = delivered (out s) ++ unread s /\
  (_pending_read s <> None -> unread s = []) /\ Forall good_event (out s) /\
  (_closed s = true -> _kcp s = None) /\
  forall data, exists s', async_write_some data s = Some s' /\ run s' (written ++ data).
Proof.
  intros Hr. destruct (run_invariant s written Hr) as [Hs [Hp Hc]]. pose proof Hs as [].
  splits; auto; [lia|]. intros data. destruct (async_write_some_spec data s written Hs) as (s' & He & _).
  exists s'. split; [done|]. by eapply run_write.
Qed.

(** A datagram is handled in full when the library has fewer than [fuel] messages. *)
Theorem drain_input_ends `{!IkcpLaws} (fuel : nat) (buf : list Z) (s : state) :
  (forall k, _kcp s = Some k -> ikcp_queued (ikcp_input buf k).2 < fuel)%nat ->
  is_Some (HandleInput fuel buf s).
Proof.
  intros Hf. unfold HandleInput. case_if; [by eexists|]. destruct (_kcp s) as [k|]; [|by eexists].
  unfold DrainInput. destruct (drain_loop_total fuel (ikcp_input buf k).2 s) as [s' ->]; [by apply Hf|].
  by eexists.
Qed.

(** ** The host, on top

    The transport tells the host of the part that was taken, and keeps the rest; the host
    answers a partial write by writing the rest again. *)

(** When the library takes only the first [n] bytes of a block, [MessageStream::on_write_some]
    asks for the rest of the block to be written, and the transport, which still holds it, then
    has it twice: what will reach the peer is the block followed by its rest once more. *)
Theorem partial_write_is_repeated `{!IkcpLaws} `{Allocator} (s s1 : state) (written data : list Z)
    (n : nat) (l : list event) (m : MessageStream.state) (v : ReadBuffer.view)
    (on_sending : ReadBuffer.state -> bool) :
  run s written -> async_write_some data s = Some s1 ->
  out s1 = l ++ [EvWriteSome n] -> (n < length data)%nat ->
  MessageStream.is_connected m = true ->
  MessageStream.sending_data (MessageStream.send m) = Some v ->
  MessageStream.sending_size (MessageStream.send m) = Z.of_nat (length data) ->
  load (ReadBuffer.v_data v) (ReadBuffer.v_off v) (Z.of_nat (length data)) (MessageStream.mem m) = Some data ->
  exists m' v' rest s2,
    MessageStream.on_write_some on_sending false (Z.of_nat n) m = Some m' /\
    MessageStream.out m' = MessageStream.out m ++ [MessageStream.EvAsyncWrite (Some v') (Z.of_nat (length rest))] /\
    load (ReadBuffer.v_data v') (ReadBuffer.v_off v') (Z.of_nat (length rest)) (MessageStream.mem m') = Some rest /\
    rest = drop n data /\ rest <> [] /\ async_write_some rest s1 = Some s2 /\
    fed (out s2) ++ unsent s2 = written ++ data ++ rest.
Proof.
  intros Hr Hw Ho Hn Hc Hv Hz Hl.
  pose proof (run_write _ _ _ _ Hr Hw) as Hr1.
  destruct (run_invariant _ _ Hr1) as [Hs1 _].
  destruct (async_write_some_spec (drop n data) s1 _ Hs1) as (s2 & Hw2 & Hs2 & _).
  assert (Z.of_nat (length (drop n data)) = Z.of_nat (length data) - Z.of_nat n) as Hlen
    by (rewrite length_drop; lia).
  unfold MessageStream.on_write_some. rewrite Hc. cbn [negb].
  set (m1 := MessageStream.count_sent _ _).
  assert (MessageStream.sending_size (MessageStream.send m1) = Z.of_nat (length data)) as -> by done.
  replace (Z.of_nat n =? Z.of_nat (length data)) with false by lia.
  eexists _, (ReadBuffer.mkView (ReadBuffer.v_data v) (ReadBuffer.v_off v + Z.of_nat n)
                (ReadBuffer.v_size v - Z.of_nat n)), (drop n data), s2.
  split; [done|]. split.
  { unfold MessageStream.write_event. cbn. by rewrite Hv, Hz, Hlen. }
  split.
  { pose proof (ReadBuffer.load_drop _ _ _ _ data (Z.of_nat n) Hl ltac:(lia)) as Hd.
    rewrite Nat2Z.id in Hd. rewrite Hlen. exact Hd. }
  split; [done|]. split; [|split; [done|]].
  - intros He%(f_equal length). rewrite length_drop in He. change (length []) with 0%nat in He. lia.
  - pose proof (str_out _ _ _ _ Hs2) as ->. by rewrite app_assoc.
Qed.

End WithIkcp.

(** ** A library with a window of segments

    The instance of the examples: [window] segments can be sent until the next update;
    a datagram is a message. *)
Record demo := mkDemo { window : nat; inbox : list (list Z) }.

#[local] Instance demo_ikcp : Ikcp := {
  ikcp := demo;
  ikcp_create conv := if conv =? 0 then None else Some (mkDemo 1 []);
  ikcp_send d k := match window k with O => (-1, k) | S w => (Z.of_nat (length d), mkDemo w (inbox k)) end;
  ikcp_input d k := (0, mkDemo (window k) (inbox k ++ [d]));
  ikcp_peeksize k := match inbox k with [] => -1 | d :: _ => Z.of_nat (length d) end;
  ikcp_recv _ k := match inbox k with [] => (-1, [], k) | d :: r => (Z.of_nat (length d), d, mkDemo (window k) r) end;
  ikcp_update _ k := ([], mkDemo 1 (inbox k));
  ikcp_getconv d := default 0 (head d);
}.

#[local] Instance demo_laws : IkcpLaws.
Proof.
  refine {| ikcp_queued := fun k : @ikcp demo_ikcp => length (inbox k) |}.
  - intros d k _. cbn. destruct (window k); cbn; lia.
  - intros k Hk. cbn in *. destruct (inbox k) as [|d r]; cbn in *; lia.
Defined.

(** A connected transport, a read that waits, a datagram, a write of two segments. *)
Definition demo_block : list Z := replicate 1376 7 ++ [8; 9].

Lemma kcp_streams_in_order_witness :
  exists s1 s2, HandleInput 3 [1; 2; 3] (async_read_some 64 2 (DoConnect true 5 (init 1))) = Some s1 /\
    async_write_some demo_block s1 = Some s2 /\
    fed (out s2) ++ unsent s2 = demo_block /\ received (out s2) = delivered (out s2) ++ unread s2.
Proof.
  destruct (HandleInput 3 [1; 2; 3] (async_read_some 64 2 (DoConnect true 5 (init 1)))) as [s1|] eqn:E1;
    [|vm_compute in E1; discriminate].
  assert (run s1 []) as Hr1.
  { eapply run_input; [|exact E1]. apply run_read, run_connect, run_init. }
  destruct (kcp_streams_in_order s1 [] Hr1) as (_ & _ & _ & _ & _ & _ & Ht).
  destruct (Ht demo_block) as (s2 & E2 & Hr2). exists s1, s2.
  destruct (kcp_streams_in_order s2 ([] ++ demo_block) Hr2) as (H1 & _ & H3 & _).
  split; [reflexivity|]. split; [exact E2|]. split; [exact H1|exact H3].
Defined.

Lemma drain_input_ends_witness :
  is_Some (HandleInput 3 [1; 2; 3] (DoConnect true 5 (init 1))).
Proof.
  apply (drain_input_ends 3 [1; 2; 3] (DoConnect true 5 (init 1))).
  intros k Hk. injection Hk as <-. cbn. lia.
Defined.

#[local] Instance demo_allocator : Allocator := { alloc_ok := fun _ => true; junk := fun _ _ => 0 }.

Definition demo_stream : MessageStream.state :=
  MessageStream.set_send
    (MessageStream.mkTx [] 0 0 0 [] 0 0 0 (Some (ReadBuffer.mkState [mkHandle 0 1378 0] 2048 1378 0 0 0 0)) 0
       (Some (ReadBuffer.mkView 0 0 1378)) 1378)
    (MessageStream.set_status MessageStream.STATUS_CONNECTED
       (MessageStream.init MessageStream.NT_CLIENT 0 (mkHeap {[0%nat := mkBlock 2048 1 demo_block]} 1))).

Lemma partial_write_is_repeated_witness :
  exists s1 m' v' rest s2, async_write_some demo_block (DoConnect true 5 (init 1)) = Some s1 /\
    MessageStream.on_write_some (fun _ => true) false 1376 demo_stream = Some m' /\
    last (MessageStream.out m') = Some (MessageStream.EvAsyncWrite (Some v') (Z.of_nat (length rest))) /\
    async_write_some rest s1 = Some s2 /\ fed (out s2) ++ unsent s2 = demo_block ++ [8; 9].
Proof.
  destruct (async_write_some demo_block (DoConnect true 5 (init 1))) as [s1|] eqn:E1;
    [|vm_compute in E1; discriminate].
  pose proof E1 as E1'. vm_compute in E1'. injection E1' as E1'.
  destruct (partial_write_is_repeated (DoConnect true 5 (init 1)) s1 [] demo_block 1376
    (out (DoConnect true 5 (init 1)) ++ [EvKcpSend (take 1376 demo_block) 1376; EvKcpSend [8; 9] (-1)])
    demo_stream (ReadBuffer.mkView 0 0 1378) (fun _ => true))
    as (m' & v' & rest & s2 & Hm & Hout & _ & Hrest & _ & Hw & Hf).
  - apply run_connect, run_init.
  - exact E1.
  - rewrite <- E1'. vm_compute. reflexivity.
  - vm_compute. lia.
  - reflexivity.
  - reflexivity.
  - vm_compute. reflexivity.
  - vm_compute. reflexivity.
  - exists s1, m', v', rest, s2. split; [reflexivity|]. split; [exact Hm|]. split; [|split; [exact Hw|]].
    + rewrite Hout. apply last_snoc.
    + rewrite Hf, Hrest. vm_compute. reflexivity.
Defined.

End KcpTransport.
