(* ===== verification/KcpListener.v ===== *)
(** * KCP listener ([src/network/io/kcp_listener.cpp])

    One UDP socket; the listener gives each datagram to the session of its conversation, on the
    I/O context of that session.  The map is used on the thread of the listener only; a task it
    posts is a value, run on the transport of the session by [run_task]. *)

From S2P Require Import Prelude IoPool Kcp.

Module KcpListener.
Import IoPool.IoServicePool.
Section WithIkcp.
Context `{Ikcp}.

(** A task posted to the context of a session. *)
Inductive task :=
  | Setup (session : nat) (sender conv : Z) (data : list Z)
  | Input (session : nat) (data : list Z).

Record state := mkState {
  _is_closed : bool;
  _kcp_map : gmap Z nat;               (* conversation, session *)
  sessions : list (nat * Z);           (* the sessions made: their context and conversation *)
  _io_service_pool : IoServicePool.state;
  posted : list (nat * task);          (* context and task, in the order posted *)
  receiving : bool;                    (* a receive is armed *)
}.

Definition init (p : IoServicePool.state) : state := mkState true ∅ [] p [] false.

Definition close (s : state) : state :=
  if _is_closed s then s
  else mkState true ∅ (sessions s) (_io_service_pool s) (posted s) (receiving s).

Definition StartReceive (s : state) : state :=
  if _is_closed s then s
  else mkState (_is_closed s) (_kcp_map s) (sessions s) (_io_service_pool s) (posted s) true.

Definition start_listen (open_ok bind_ok : bool) (s : state) : bool * state :=
  if negb (open_ok && bind_ok) then (false, s)
  else (true, StartReceive (mkState false (_kcp_map s) (sessions s) (_io_service_pool s) (posted s) (receiving s))).

(** The datagram [buf] of [sender]; [session_closed] is the state of the sessions when it
    comes.  [None]: the pool has no worker. *)
Definition OnReceive (ec : bool) (session_closed : nat -> bool) (sender : Z) (buf : list Z) (s : state) :
    option state :=
  if _is_closed s then Some s
  else
    s' ← (if negb ec && (0 <? Z.of_nat (length buf)) then
            let conv := ikcp_getconv buf in
            match _kcp_map s !! conv with
            | Some session =>
                if negb (session_closed session) then
                  let ios := default 0%nat (fst <$> sessions s !! session) in
                  Some (mkState (_is_closed s) (_kcp_map s) (sessions s) (_io_service_pool s)
                          (posted s ++ [(ios, Input session buf)]) (receiving s))
                else
                  Some (mkState (_is_closed s) (delete conv (_kcp_map s)) (sessions s) (_io_service_pool s)
                          (posted s) (receiving s))
            | None =>
                '(ios, pool) ← GetIoService (_io_service_pool s);
                let session := length (sessions s) in
                Some (mkState (_is_closed s) (<[conv := session]> (_kcp_map s))
                        (sessions s ++ [(ios, conv)]) pool
                        (posted s ++ [(ios, Setup session sender conv buf)]) (receiving s))
            end
          else Some s);
    Some (StartReceive s').

(** The callbacks of the server a task runs, in the order of the code. *)
Inductive callback := SetFlowController | Created | Accepted.

(** A posted task, on the transport of its session. *)
Definition run_task (flow : bool) (fuel : nat) (t : task) (s : KcpTransport.state) :
    option (list callback * KcpTransport.state) :=
  match t with
  | Input _ data => s' ← KcpTransport.HandleInput fuel data s; Some ([], s')
  | Setup _ sender conv data =>
      let l := if flow then [SetFlowController] else [] in
      let '(ok, s1) := KcpTransport.Setup sender conv s in
      if negb ok then Some (l, KcpTransport.host_close s1)
      else s2 ← KcpTransport.HandleInput fuel data s1; Some (l ++ [Created; Accepted], s2)
  end.

(** ** One session for each conversation *)

Definition session_of (t : nat * task) : nat :=
  match t.2 with Setup i _ _ _ => i | Input i _ => i end.

Definition tasks_of (i : nat) (s : state) : list (nat * task) := filter (fun t => session_of t = i) (posted s).

Inductive reachable (p : IoServicePool.state) : state -> Prop :=
  | reach_init : reachable p (init p)
  | reach_listen b1 b2 s : reachable p s -> reachable p (start_listen b1 b2 s).2
  | reach_close s : reachable p s -> reachable p (close s)
  | reach_receive ec sc sender buf s s' :
      reachable p s -> OnReceive ec sc sender buf s = Some s' -> reachable p s'.

(** What a session is given: it is set up first, once; then the datagrams of its conversation. *)
Definition well_fed (ios i : nat) (conv : Z) (l : list (nat * task)) : Prop :=
  exists sender d r, l = (ios, Setup i sender conv d) :: r /\ ikcp_getconv d = conv /\
    Forall (fun t => exists d', t = (ios, Input i d') /\ ikcp_getconv d' = conv) r.

Record routed (s : state) : Prop := {
  rt_map conv i : _kcp_map s !! conv = Some i -> exists ios, sessions s !! i = Some (ios, conv);
  rt_tasks i ios conv : sessions s !! i = Some (ios, conv) -> well_fed ios i conv (tasks_of i s);
  rt_bound t : t ∈ posted s -> (session_of t < length (sessions s))%nat;
}.

Lemma routed_same s s' :
  _kcp_map s' ⊆ _kcp_map s -> sessions s' = sessions s -> posted s' = posted s -> routed s -> routed s'.
Proof.
  intros Hm Hse Hp []. split; unfold tasks_of; rewrite ?Hse, ?Hp; auto.
  intros conv i Hi. apply rt_map0. eapply lookup_weaken; eauto.
Qed.

Lemma routed_input c s i ios conv d :
  routed s -> sessions s !! i = Some (ios, conv) -> ikcp_getconv d = conv ->
  routed (mkState c (_kcp_map s) (sessions s) (_io_service_pool s)
            (posted s ++ [(ios, Input i d)]) (receiving s)).
Proof.
  intros [] Hi Hd. split; cbn; [done| |].
  - intros j ios' conv' Hj. unfold tasks_of. cbn. rewrite filter_app, filter_cons. cbn.
    destruct (rt_tasks0 _ _ _ Hj) as (sender & d0 & r & Hl & Hd0 & Hr). unfold tasks_of in Hl.
    case_decide as Hij.
    + subst j. simplify_eq. rewrite Hl. exists sender, d0, (r ++ [(ios, Input i d)]).
      splits; auto. apply Forall_app. split; [done|]. apply Forall_singleton. by exists d.
    + rewrite app_nil_r, Hl. by exists sender, d0, r.
  - intros t [Ht| ->%list_elem_of_singleton]%elem_of_app; [auto|]. cbn. by eapply lookup_lt_Some.
Qed.

Lemma filter_none {A} (P : A -> Prop) `{!forall x, Decision (P x)} (l : list A) :
  (forall x, x ∈ l -> ~ P x) -> filter P l = [].
Proof.
  intros Hl. induction l as [|x l IH]; [done|]. rewrite filter_cons, decide_False by (apply Hl; by left).
  apply IH. intros y Hy. apply Hl. by right.
Qed.

Lemma routed_new c s ios pool sender conv d :
  routed s -> ikcp_getconv d = conv ->
  routed (mkState c (<[conv := length (sessions s)]> (_kcp_map s)) (sessions s ++ [(ios, conv)]) pool
            (posted s ++ [(ios, Setup (length (sessions s)) sender conv d)]) (receiving s)).
Proof.
  intros [] Hd. split; cbn.
  - intros c' i. destruct (decide (conv = c')) as [<-|Hne].
    + rewrite lookup_insert_eq. intros [= <-]. exists ios.
      rewrite lookup_app_r by done. by rewrite Nat.sub_diag.
    + rewrite lookup_insert_ne by done. intros (ios' & Hi)%rt_map0. exists ios'. by apply lookup_app_l_Some.
  - intros j ios' conv' Hj. unfold tasks_of. cbn. rewrite filter_app, filter_cons. cbn.
    apply lookup_app_Some in Hj as [Hj|[Hle Hj]].
    + pose proof (lookup_lt_Some _ _ _ Hj). rewrite decide_False by lia. rewrite app_nil_r.
      by apply rt_tasks0.
    + apply list_lookup_singleton_Some in Hj as [Hj [= <- <-]].
      assert (j = length (sessions s)) as -> by lia. rewrite decide_True by done.
      rewrite filter_none by (intros t Ht; pose proof (rt_bound0 _ Ht); lia).
      by exists sender, d, [].
  - intros t [Ht| ->%list_elem_of_singleton]%elem_of_app; rewrite length_app; cbn; [|lia].
    pose proof (rt_bound0 _ Ht). lia.
Qed.


Lemma routed_step ec sc sender buf s s' : OnReceive ec sc sender buf s = Some s' -> routed s -> routed s'.
Proof.
  unfold OnReceive. case_if; [by intros [= <-]|]. intros He Hs.
  assert (exists s1, s' = StartReceive s1 /\ routed s1) as (s1 & -> & Hs1).
  2:{ unfold StartReceive. case_if; [done|]. by eapply (routed_same s1). }
  revert He. case_if; [|intros [= <-]; by exists s].
  destruct (_kcp_map s !! ikcp_getconv buf) as [i|] eqn:Em.
  - destruct (sc i); cbn [negb mbind option_bind]; intros [= <-]; eexists; (split; [done|]).
    + apply (routed_same s); try done. apply delete_subseteq.
    + destruct (rt_map _ Hs _ _ Em) as [ios Hi]. rewrite Hi. cbn. by eapply routed_input.
  - destruct (GetIoService _) as [[ios pool]|]; [|done]. cbn [mbind option_bind]. intros [= <-]. eexists. split; [done|].
    by apply routed_new.
Qed.

Lemma reachable_routed p s : reachable p s -> routed s.
Proof.
  induction 1 as [|b1 b2 s _ IH|s _ IH|ec sc sender buf s s' _ IH He].
  - split; cbn; [done|done|]. by intros t ?%elem_of_nil.
  - unfold start_listen. case_if; [done|]. cbn [snd]. unfold StartReceive. cbn. by apply (routed_same s).
  - unfold close. case_if; [done|]. apply (routed_same s); try done. apply map_empty_subseteq.
  - by eapply routed_step.
Qed.

(** Whatever datagrams come, and whenever sessions close: a conversation is mapped to a
    session made for it; each session was set up once, before any other task, by a datagram
    of its conversation; and all it is given after are datagrams of that conversation, on the
    context it was made for. *)
Theorem conversations_do_not_mix (p : IoServicePool.state) (s : state) :
  reachable p s ->
  (forall conv i, _kcp_map s !! conv = Some i -> exists ios, sessions s !! i = Some (ios, conv)) /\
  (forall c1 c2 i, _kcp_map s !! c1 = Some i -> _kcp_map s !! c2 = Some i -> c1 = c2) /\
  (forall i ios conv, sessions s !! i = Some (ios, conv) -> well_fed ios i conv (tasks_of i s)) /\
  (forall t, t ∈ posted s -> (session_of t < length (sessions s))%nat).
Proof.
  intros []%reachable_routed. splits; auto.
  intros c1 c2 i (x & H1)%rt_map0 (y & H2)%rt_map0. congruence.
Qed.

(** A datagram for a closed session is lost: the entry of the conversation is erased, and
    nothing is posted.  The comment says it is handled as a new connection; the next one is. *)
Theorem datagram_of_closed_session_is_lost (s : state) (i : nat) sc sender buf :
  _is_closed s = false -> buf <> [] -> _kcp_map s !! ikcp_getconv buf = Some i -> sc i = true ->
  m_workers (_io_service_pool s) <> [] ->
  exists s1, OnReceive false sc sender buf s = Some s1 /\
    posted s1 = posted s /\ sessions s1 = sessions s /\ _kcp_map s1 !! ikcp_getconv buf = None /\
    exists ios s2, OnReceive false sc sender buf s1 = Some s2 /\
      posted s2 = posted s ++ [(ios, Setup (length (sessions s)) sender (ikcp_getconv buf) buf)].
Proof.
  destruct s as [c m se pool l r]. cbn. intros -> Hb Hm Hs Hw.
  destruct buf as [|x buf]; [done|].
  unfold OnReceive, StartReceive. cbn. rewrite Hm, Hs. cbn.
  eexists. split; [done|]. cbn. splits; try done; [apply lookup_delete_eq|].
  rewrite lookup_delete_eq. unfold GetIoService. destruct (m_workers pool) eqn:E; [done|]. cbn.
  do 2 eexists. by split.
Qed.

End WithIkcp.

#[local] Existing Instance KcpTransport.demo_ikcp.

(** Two datagrams of conversation 7; the session closes in between. *)
Definition demo_listener : state := (start_listen true true (init (IoServicePool.init 2))).2.

Lemma conversations_do_not_mix_witness :
  exists s, OnReceive false (fun _ => false) 1 [7; 1] demo_listener = Some s /\
    well_fed 0 0 7 (tasks_of 0 s).
Proof.
  destruct (OnReceive false (fun _ => false) 1 [7; 1] demo_listener) as [s|] eqn:E;
    [|vm_compute in E; discriminate].
  exists s. split; [reflexivity|].
  destruct (conversations_do_not_mix (IoServicePool.init 2) s) as (_ & _ & Ht & _).
  - eapply reach_receive; [|exact E]. apply reach_listen, reach_init.
  - apply Ht. vm_compute in E. injection E as <-. vm_compute. reflexivity.
Defined.

Lemma datagram_of_closed_session_is_lost_witness :
  exists s s1, OnReceive false (fun _ => false) 1 [7; 1] demo_listener = Some s /\
    OnReceive false (fun _ => true) 1 [7; 2] s = Some s1 /\ posted s1 = posted s.
Proof.
  destruct (OnReceive false (fun _ => false) 1 [7; 1] demo_listener) as [s|] eqn:E;
    [|vm_compute in E; discriminate].
  pose proof E as E'. vm_compute in E'. injection E' as E'.
  destruct (datagram_of_closed_session_is_lost s 0 (fun _ => true) 1 [7; 2]) as (s1 & H1 & H2 & _).
  - rewrite <- E'. reflexivity.
  - discriminate.
  - rewrite <- E'. vm_compute. reflexivity.
  - reflexivity.
  - rewrite <- E'. discriminate.
  - exists s, s1. split; [reflexivity|]. split; [exact H1|exact H2].
Defined.

End KcpListener.
