(* ===== verification/ThreadPool.v ===== *)
(** * ThreadPool: the pool for heavy tasks and its scheduler ([src/async/thread_pool.h],
    [src/async/thread_pool_scheduler.h])

    The pool threads, the threads that call [Execute] and the one that calls [Init] and [Stop]
    run as interleaved steps: a step is one access to [running_], [pending_] or the queue, or
    one task.  A thread waits in [WaitForTask] until it is woken, the predicate holds or
    100 ms have passed; the wake-up itself is not modelled, since the wait ends without it.
    The thread identifiers and the hardware concurrency are the answers of the system. *)

From S2P Require Import Prelude ConcQueue.

Module ThreadPool.

(** ** State *)

(** A task is a closure: an empty [std::function], one that runs, one that runs and then posts
    a callback to a worker (what [Dispatch] and [Post] of the scheduler submit), and one from
    which an exception escapes. *)
Inductive Task :=
  | Empty
  | Bare (id : nat)
  | Back (w : nat) (id : nat) (callback : option nat)
  | Throws (id : nat).

#[export] Instance Task_eq_dec : EqDecision Task.
Proof. solve_decision. Defined.

(** Where a pool thread is in [WorkerLoop]: at the test of [running_], at [try_dequeue], with a
    task in hand before [fetch_sub], before the task, in [WaitForTask], in the loop after the
    shutdown, there with a task, and at its end. *)
Inductive position :=
  | Loop | Take | Sub (p : nat) (t : Task) | Run (p : nat) (t : Task) | Waiting
  | Drain | DrainRun (p : nat) (t : Task) | Done.

#[export] Instance position_eq_dec : EqDecision position.
Proof. solve_decision. Defined.

(** A thread inside [Execute]: before [fetch_add], or before [enqueue]. *)
Inductive stage := Checked (t : Task) | Added (t : Task).

(** The thread that owns the pool: outside, or in the joins of [Stop]. *)
Inductive owner := Idle | Joining.

Inductive event :=
  | Accepted (p : nat) (t : Task)
  | Discarded (p : nat) (t : Task)       (* "ThreadPool not running, discarding task" *)
  | Taken (p : nat) (t : Task)
  | Drained (p : nat) (t : Task)         (* taken after the shutdown, [pending_] not decremented *)
  | Ran (p : nat) (t : Task)
  | Posted (w : nat) (callback : option nat)   (* [worker->Post] *)
  | Stopped | Joined.

Record pool := mkPool {
  running_ : bool;
  pending_ : Z;
  threads_ : gmap nat position;
  thread_ids_ : gset nat;
  queue_ : list (nat * Task);
  producers : gmap nat stage;
  control : owner;
  terminated : bool;                     (* [std::terminate] was called *)
  trace : list event;
}.

Definition start : pool := mkPool false 0 ∅ ∅ [] ∅ Idle false [].

Definition set_running (b : bool) (s : pool) : pool :=
  mkPool b (pending_ s) (threads_ s) (thread_ids_ s) (queue_ s) (producers s) (control s) (terminated s) (trace s).
Definition set_pending (n : Z) (s : pool) : pool :=
  mkPool (running_ s) n (threads_ s) (thread_ids_ s) (queue_ s) (producers s) (control s) (terminated s) (trace s).
Definition set_threads (m : gmap nat position) (s : pool) : pool :=
  mkPool (running_ s) (pending_ s) m (thread_ids_ s) (queue_ s) (producers s) (control s) (terminated s) (trace s).
Definition set_queue (q : list (nat * Task)) (s : pool) : pool :=
  mkPool (running_ s) (pending_ s) (threads_ s) (thread_ids_ s) q (producers s) (control s) (terminated s) (trace s).
Definition set_producers (m : gmap nat stage) (s : pool) : pool :=
  mkPool (running_ s) (pending_ s) (threads_ s) (thread_ids_ s) (queue_ s) m (control s) (terminated s) (trace s).
Definition set_control (c : owner) (s : pool) : pool :=
  mkPool (running_ s) (pending_ s) (threads_ s) (thread_ids_ s) (queue_ s) (producers s) c (terminated s) (trace s).
Definition terminate (s : pool) : pool :=
  mkPool (running_ s) (pending_ s) (threads_ s) (thread_ids_ s) (queue_ s) (producers s) (control s) true (trace s).
Definition log (es : list event) (s : pool) : pool :=
  mkPool (running_ s) (pending_ s) (threads_ s) (thread_ids_ s) (queue_ s) (producers s) (control s) (terminated s)
    (trace s ++ es).

(** ** Operations *)

(** The number of threads [Init] makes; [hw] is [hardware_concurrency]. *)
Definition effective_count (thread_count hw : nat) : nat :=
  let n := if Nat.eqb thread_count 0 then hw else thread_count in
  if Nat.eqb n 0 then 1 else n.

(** [Init] on the owner's thread; the system gives the identifiers of the new threads. *)
Definition Init (thread_count hw : nat) (ids : list nat) (s : pool) : option pool :=
  if negb (bool_decide (threads_ s = ∅)) then Some s
  else if bool_decide (length ids = effective_count thread_count hw /\ NoDup ids) then
    Some (mkPool true (pending_ s) (list_to_map ((fun i => (i, Loop)) <$> ids))
            (list_to_set ids ∪ thread_ids_ s) (queue_ s) (producers s) (control s) (terminated s) (trace s))
  else None.

Definition PendingCount (s : pool) : Z := pending_ s.
Definition ThreadCount (s : pool) : nat := size (threads_ s).
Definition IsThreadPoolThread (self : nat) (s : pool) : bool := bool_decide (self ∈ thread_ids_ s).

(** The predicate of [WaitForTask]. *)
Definition wake_predicate (s : pool) : bool := negb (running_ s) || (0 <? pending_ s).

(** What a task does; [None] is an exception that leaves the thread. *)
Definition run_task (p : nat) (t : Task) : option (list event) :=
  match t with
  | Empty | Bare _ => Some [Ran p t]
  | Back w _ callback => Some [Ran p t; Posted w callback]
  | Throws _ => None
  end.

Definition finish_task (p : nat) (t : Task) (i : nat) (next : position) (s : pool) : pool :=
  match run_task p t with
  | Some es => log es (set_threads (<[i := next]> (threads_ s)) s)
  | None => terminate s
  end.

Definition all_done (s : pool) : bool := forallb (fun x => match x with Done => true | _ => false end) (map_values (threads_ s)).

Inductive label :=
  | LInit (thread_count hw : nat) (ids : list nat)
  | LCall (p : nat) (t : Task)           (* [Execute] up to the test of [running_] *)
  | LAdd (p : nat) | LPush (p : nat)
  | LLoop (i : nat) | LTake (i k : nat) | LEmpty (i : nat) | LSub (i : nat) | LRun (i : nat)
  | LWait (i : nat) (timeout : bool)
  | LDrain (i k : nat) | LDrainRun (i : nat) | LDone (i : nat)
  | LStop | LJoin.

Definition move (i : nat) (x : position) (s : pool) : pool := set_threads (<[i := x]> (threads_ s)) s.

(** A step of pool thread [i], which is at [x]. *)
Definition thread_step (l : label) (i : nat) (x : position) (s : pool) : option pool :=
  match l, x with
  | LLoop _, Loop => Some (move i (if running_ s then Take else Drain) s)
  | LTake _ k, Take =>
      '(p, t, q) ← try_dequeue k (queue_ s);
      Some (log [Taken p t] (move i (Sub p t) (set_queue q s)))
  | LEmpty _, Take => match queue_ s with [] => Some (move i Waiting s) | _ => None end
  | LSub _, Sub p t => Some (move i (Run p t) (set_pending (u64 (pending_ s - 1)) s))
  | LRun _, Run p t => Some (finish_task p t i Loop s)
  | LWait _ timeout, Waiting => if timeout || wake_predicate s then Some (move i Loop s) else None
  | LDrain _ k, Drain =>
      '(p, t, q) ← try_dequeue k (queue_ s);
      Some (log [Drained p t] (move i (DrainRun p t) (set_queue q s)))
  | LDrainRun _, DrainRun p t => Some (finish_task p t i Drain s)
  | LDone _, Drain => match queue_ s with [] => Some (move i Done s) | _ => None end
  | _, _ => None
  end.

Definition thread_of (l : label) : option nat :=
  match l with
  | LLoop i | LTake i _ | LEmpty i | LSub i | LRun i | LWait i _ | LDrain i _ | LDrainRun i | LDone i => Some i
  | _ => None
  end.

Definition step (l : label) (s : pool) : option pool :=
  if terminated s then None else
  match l with
  | LInit thread_count hw ids => match control s with Idle => Init thread_count hw ids s | Joining => None end
  | LCall p t =>
      match producers s !! p with
      | Some _ => None
      | None => Some (if running_ s then set_producers (<[p := Checked t]> (producers s)) s
                      else log [Discarded p t] s)
      end
  | LAdd p =>
      match producers s !! p with
      | Some (Checked t) =>
          Some (set_producers (<[p := Added t]> (producers s)) (set_pending (u64 (pending_ s + 1)) s))
      | _ => None
      end
  | LPush p =>
      match producers s !! p with
      | Some (Added t) =>
          Some (log [Accepted p t] (set_producers (delete p (producers s)) (set_queue (queue_ s ++ [(p, t)]) s)))
      | _ => None
      end
  | LStop =>
      match control s with
      | Idle => Some (if running_ s then log [Stopped] (set_control Joining (set_running false s)) else s)
      | Joining => None
      end
  | LJoin =>
      match control s with
      | Joining => if all_done s then Some (log [Joined] (set_control Idle (set_threads ∅ s))) else None
      | Idle => None
      end
  | _ =>
      i ← thread_of l; x ← threads_ s !! i; thread_step l i x s
  end.

Abbreviation exec := (run_steps step).

(** ** The scheduler *)

(** What a call of the scheduler comes to: a task for the pool, or what runs at once on the
    calling thread. *)
Inductive action := Submit (t : Task) | Inline (es : list (nat + nat)).

(** [Dispatch]; [worker] is [GetCurWorker()]: the task is [inl], the callback [inr]. *)
Definition Dispatch (worker : option nat) (task : nat) (callback : option nat) : action :=
  match worker with
  | None => Inline (inl task :: match callback with Some c => [inr c] | None => [] end)
  | Some w => Submit (Back w task callback)
  end.

(** [Post] sends an empty callback back, so that the worker turns. *)
Definition Post (worker : option nat) (task : nat) : action :=
  match worker with
  | None => Submit (Bare task)
  | Some w => Submit (Back w task None)
  end.

Definition Execute (task : nat) : action := Submit (Bare task).

(** [schedule] of the executor interface answers true whatever [Execute] did. *)
Definition schedule (task : nat) : bool * action := (true, Execute task).

Definition currentThreadInExecutor (self : nat) (s : pool) : bool := IsThreadPoolThread self s.

(** ** What the trace says *)

Definition accepted (tr : list event) : list (nat * Task) :=
  omap (fun e => match e with Accepted p t => Some (p, t) | _ => None end) tr.
Definition ran (tr : list event) : list (nat * Task) :=
  omap (fun e => match e with Ran p t => Some (p, t) | _ => None end) tr.
Definition dequeued (tr : list event) : list (nat * Task) :=
  omap (fun e => match e with Taken p t | Drained p t => Some (p, t) | _ => None end) tr.
Definition drained (tr : list event) : list (nat * Task) :=
  omap (fun e => match e with Drained p t => Some (p, t) | _ => None end) tr.
Definition posted (tr : list event) : list (nat * option nat) :=
  omap (fun e => match e with Posted w cb => Some (w, cb) | _ => None end) tr.

(** The callback a task owes. *)
Definition owes (x : nat * Task) : option (nat * option nat) :=
  match snd x with Back w _ cb => Some (w, cb) | _ => None end.

(** What the threads have in hand, and the calls of [Execute] between the count and the queue. *)
Definition hand (x : position) : list (nat * Task) :=
  match x with Sub p t | Run p t | DrainRun p t => [(p, t)] | _ => [] end.
Definition uncounted (x : position) : list unit := match x with Sub _ _ => [tt] | _ => [] end.
Definition counted (x : stage) : list unit := match x with Added _ => [tt] | _ => [] end.

Definition hands (s : pool) : list (nat * Task) := map_values (threads_ s) ≫= hand.

Lemma pool_accepted_app a b : accepted (a ++ b) = accepted a ++ accepted b.
Proof. apply omap_app. Qed.
Lemma pool_ran_app a b : ran (a ++ b) = ran a ++ ran b.
Proof. apply omap_app. Qed.
Lemma dequeued_app a b : dequeued (a ++ b) = dequeued a ++ dequeued b.
Proof. apply omap_app. Qed.
Lemma drained_app a b : drained (a ++ b) = drained a ++ drained b.
Proof. apply omap_app. Qed.
Lemma posted_app a b : posted (a ++ b) = posted a ++ posted b.
Proof. apply omap_app. Qed.
#[local] Hint Rewrite pool_accepted_app pool_ran_app dequeued_app drained_app posted_app : gb.

(** The steps, with every test resolved: what one knows of [s], and [s'] spelled out. *)
Inductive stepped (s : pool) : label -> pool -> Prop :=
  | S_init_again n hw ids : threads_ s <> ∅ -> stepped s (LInit n hw ids) s
  | S_init n hw ids : threads_ s = ∅ -> control s = Idle -> NoDup ids -> ids <> [] ->
      stepped s (LInit n hw ids)
        (mkPool true (pending_ s) (list_to_map ((fun i => (i, Loop)) <$> ids))
           (list_to_set ids ∪ thread_ids_ s) (queue_ s) (producers s) (control s) (terminated s) (trace s))
  | S_call p t : producers s !! p = None -> running_ s = true ->
      stepped s (LCall p t) (set_producers (<[p := Checked t]> (producers s)) s)
  | S_discard p t : running_ s = false -> stepped s (LCall p t) (log [Discarded p t] s)
  | S_add p t : producers s !! p = Some (Checked t) ->
      stepped s (LAdd p) (set_producers (<[p := Added t]> (producers s)) (set_pending (u64 (pending_ s + 1)) s))
  | S_push p t : producers s !! p = Some (Added t) ->
      stepped s (LPush p)
        (log [Accepted p t] (set_producers (delete p (producers s)) (set_queue (queue_ s ++ [(p, t)]) s)))
  | S_move l i x y : threads_ s !! i = Some x -> thread_of l = Some i ->
      (l = LLoop i /\ x = Loop /\ y = (if running_ s then Take else Drain)) \/
      (l = LEmpty i /\ x = Take /\ y = Waiting /\ queue_ s = []) \/
      (exists b, l = LWait i b /\ x = Waiting /\ y = Loop /\ (b || wake_predicate s = true)) \/
      (l = LDone i /\ x = Drain /\ y = Done /\ queue_ s = []) ->
      stepped s l (move i y s)
  | S_take i k p t l1 l2 : threads_ s !! i = Some Take -> queue_ s = l1 ++ (p, t) :: l2 -> queued p l1 = [] ->
      stepped s (LTake i k) (log [Taken p t] (move i (Sub p t) (set_queue (l1 ++ l2) s)))
  | S_sub i p t : threads_ s !! i = Some (Sub p t) ->
      stepped s (LSub i) (move i (Run p t) (set_pending (u64 (pending_ s - 1)) s))
  | S_drain i k p t l1 l2 : threads_ s !! i = Some Drain -> queue_ s = l1 ++ (p, t) :: l2 -> queued p l1 = [] ->
      stepped s (LDrain i k) (log [Drained p t] (move i (DrainRun p t) (set_queue (l1 ++ l2) s)))
  | S_run l i p t x y es : threads_ s !! i = Some x -> run_task p t = Some es ->
      (l = LRun i /\ x = Run p t /\ y = Loop) \/ (l = LDrainRun i /\ x = DrainRun p t /\ y = Drain) ->
      stepped s l (log es (move i y s))
  | S_terminate l i p t x : threads_ s !! i = Some x -> run_task p t = None ->
      (l = LRun i /\ x = Run p t) \/ (l = LDrainRun i /\ x = DrainRun p t) ->
      stepped s l (terminate s)
  | S_stop : control s = Idle -> running_ s = true ->
      stepped s LStop (log [Stopped] (set_control Joining (set_running false s)))
  | S_stop_again : control s = Idle -> running_ s = false -> stepped s LStop s
  | S_join : control s = Joining -> all_done s = true ->
      stepped s LJoin (log [Joined] (set_control Idle (set_threads ∅ s))).

Lemma effective_count_pos n hw : effective_count n hw <> 0%nat.
Proof. unfold effective_count. destruct (Nat.eqb n 0) eqn:E; destruct (Nat.eqb _ 0) eqn:F in |- *; try done;
  apply Nat.eqb_neq; done. Qed.

Lemma thread_stepped l i x s s' :
  threads_ s !! i = Some x -> thread_of l = Some i -> thread_step l i x s = Some s' -> stepped s l s'.
Proof.
  intros Hx Hl Hs. destruct l; try done; injection Hl as ->; destruct x; try done; cbn [thread_step] in Hs.
  - injection Hs as <-. eapply S_move; eauto.
  - destruct (try_dequeue k (queue_ s)) as [[[p t] q]|] eqn:E; [|done]. injection Hs as <-.
    apply try_dequeue_spec in E as (l1 & l2 & Hq & -> & Hl). by eapply S_take.
  - destruct (queue_ s) eqn:E; [|done]. injection Hs as <-. eapply S_move; eauto 6.
  - injection Hs as <-. by eapply S_sub.
  - injection Hs as <-. unfold finish_task. destruct (run_task p t) eqn:E; [eapply S_run|eapply S_terminate]; eauto.
  - destruct (timeout || _) eqn:E; [|done]. injection Hs as <-. eapply S_move; eauto 10.
  - destruct (try_dequeue k (queue_ s)) as [[[p t] q]|] eqn:E; [|done]. injection Hs as <-.
    apply try_dequeue_spec in E as (l1 & l2 & Hq & -> & Hl). by eapply S_drain.
  - injection Hs as <-. unfold finish_task. destruct (run_task p t) eqn:E; [eapply S_run|eapply S_terminate]; eauto.
  - destruct (queue_ s) eqn:E; [|done]. injection Hs as <-. eapply S_move; eauto 10.
Qed.

Lemma step_stepped l s s' : step l s = Some s' -> terminated s = false /\ stepped s l s'.
Proof.
  unfold step. destruct (terminated s); [done|]. intros Hs. split; [done|].
  destruct (thread_of l) as [i|] eqn:Hl.
  { destruct l; try done; cbn [thread_of] in Hs, Hl; injection Hl as ->; cbn in Hs;
      (destruct (threads_ s !! i) as [x|] eqn:Hx; [|done]); by eapply thread_stepped. }
  destruct l; try done.
  - destruct (control s) eqn:C; [|done]. unfold Init in Hs.
    destruct (decide (threads_ s = ∅)) as [D|D].
    + rewrite (bool_decide_eq_true_2 _ D) in Hs. cbn [negb] in Hs. case_bool_decide as K; [|done].
      injection Hs as <-. destruct K as [K1 K2]. apply S_init; [done..|]. intros ->. by eapply effective_count_pos.
    + rewrite (bool_decide_eq_false_2 _ D) in Hs. injection Hs as <-. by apply S_init_again.
  - destruct (producers s !! p) eqn:P; [done|]. injection Hs as <-.
    destruct (running_ s) eqn:R; [by apply S_call|by apply S_discard].
  - destruct (producers s !! p) as [[]|] eqn:P; try done. injection Hs as <-. by apply S_add.
  - destruct (producers s !! p) as [[]|] eqn:P; try done. injection Hs as <-. by apply S_push.
  - destruct (control s) eqn:C; [|done]. destruct (running_ s) eqn:R; injection Hs as <-; [by apply S_stop|by apply S_stop_again].
  - destruct (control s) eqn:C; [done|]. destruct (all_done s) eqn:A; [|done]. injection Hs as <-. by apply S_join.
Qed.

(** ** Every task once, in the order of its producer *)

(** A thread that moves changes its own summand only. *)
Lemma bind_move {B} (f : position -> list B) (m : gmap nat position) i x y :
  m !! i = Some x ->
  exists r, map_values m ≫= f ≡ₚ f x ++ r /\ map_values (<[i := y]> m) ≫= f ≡ₚ f y ++ r.
Proof.
  intros H. exists (map_values (delete i m) ≫= f).
  rewrite (map_values_delete m i x H), (map_values_update m i y). by rewrite !bind_cons.
Qed.

Lemma bind_nil {A B} (f : A -> list B) (l : list A) : Forall (fun x => f x = []) l -> l ≫= f = [].
Proof. induction 1 as [|x r H _ IH]; [done|]. by rewrite bind_cons, H, IH. Qed.

Lemma init_values ids : Forall (fun x => x = Loop) (map_values (list_to_map ((fun i => (i, Loop)) <$> ids) : gmap nat position)).
Proof.
  apply map_values_forall. intros i x Hx%elem_of_list_to_map_2.
  by apply list_elem_of_fmap in Hx as (j & [= _ ->] & _).
Qed.

Lemma all_done_forall s : all_done s = true <-> Forall (fun x => x = Done) (map_values (threads_ s)).
Proof.
  unfold all_done. rewrite forallb_forall, List.Forall_forall. split; intros H x Hx; specialize (H x Hx).
  - by destruct x.
  - by subst.
Qed.

Definition once_inv (s : pool) : Prop :=
  accepted (trace s) ≡ₚ ran (trace s) ++ queue_ s ++ hands s /\
  (forall p, queued p (accepted (trace s)) = queued p (dequeued (trace s)) ++ queued p (queue_ s)) /\
  posted (trace s) = omap owes (ran (trace s)).

Ltac simpl_pool :=
  unfold hands, move in *;
  cbn [running_ pending_ threads_ thread_ids_ queue_ producers control terminated trace
       set_running set_pending set_threads set_queue set_producers set_control terminate log] in *.

Lemma pool_run_task_events p t es :
  run_task p t = Some es -> accepted es = [] /\ ran es = [(p, t)] /\ dequeued es = [] /\ drained es = [] /\
  posted es = omap owes [(p, t)].
Proof. destruct t; intros [= <-]; done. Qed.

Lemma pool_step_once l s s' : once_inv s -> step l s = Some s' -> once_inv s'.
Proof.
  unfold once_inv. intros (H1 & H2 & H3) Hs. apply step_stepped in Hs as [_ Hs].
  destruct Hs; simpl_pool; autorewrite with gb; cbn [accepted ran dequeued posted omap list_omap];
    rewrite ?app_nil_r; try done.
  - (* Init *) rewrite (bind_nil hand) by (eapply Forall_impl; [apply init_values|by intros ? ->]).
    rewrite H in H1. done.
  - (* enqueue *) splits; [|intros p'; by rewrite !queued_app, H2, <- app_assoc|done].
    rewrite H1, <- !app_assoc. do 2 f_equiv. apply Permutation_app_comm.
  - (* a move *) splits; [|done..]. destruct (bind_move hand _ i x y H) as (r & E1 & E2). rewrite E2, H1, E1.
    destruct H4 as [(_ & -> & ->)|[(_ & -> & -> & _)|[(? & _ & -> & -> & _)|(_ & -> & -> & _)]]]; try done.
    by destruct (running_ s).
  - (* a task is taken *) splits; [| |done].
    + destruct (bind_move hand _ i _ (Sub p t) H) as (r & E1 & E2). rewrite E2, H1, E1, H0. f_equiv. simpl.
      rewrite <- !app_assoc. cbn [app]. f_equiv. apply Permutation_middle.
    + intros p'. by rewrite H2, H0, queued_take, (queued_app _ (dequeued _)), <- app_assoc.
  - splits; [|done..]. destruct (bind_move hand _ i _ (Run p t) H) as (r & E1 & E2). by rewrite E2, H1, E1.
  - splits; [| |done].
    + destruct (bind_move hand _ i _ (DrainRun p t) H) as (r & E1 & E2). rewrite E2, H1, E1, H0. f_equiv. simpl.
      rewrite <- !app_assoc. cbn [app]. f_equiv. apply Permutation_middle.
    + intros p'. by rewrite H2, H0, queued_take, (queued_app _ (dequeued _)), <- app_assoc.
  - (* a task is run *) apply pool_run_task_events in H0 as (-> & -> & -> & _ & ->). rewrite !app_nil_r.
    splits; [|done|by rewrite omap_app, H3].
    destruct (bind_move hand _ i x y H) as (r & E1 & E2). rewrite E2, H1, E1, <- app_assoc.
    destruct H4 as [(_ & -> & ->)|(_ & -> & ->)]; simpl; f_equiv; symmetry; apply Permutation_middle.
  - (* join *) splits; [|done..]. rewrite H1, (bind_nil hand); [by rewrite app_nil_r|].
    apply all_done_forall in H0. eapply Forall_impl; [exact H0|by intros ? ->].
Qed.

(** ** [pending_] *)

(** What [pending_] counts: calls that added and did not enqueue yet, the queue, tasks in hand
    that are not subtracted yet, and the tasks taken after a shutdown. *)
Definition count (s : pool) : Z :=
  Z.of_nat (length (map_values (producers s) ≫= counted) + length (queue_ s) +
            length (map_values (threads_ s) ≫= uncounted) + length (drained (trace s))).

Lemma bind_stage (m : gmap nat stage) i x y :
  m !! i = Some x ->
  exists r, map_values m ≫= counted ≡ₚ counted x ++ r /\ map_values (<[i := y]> m) ≫= counted ≡ₚ counted y ++ r /\
            map_values (delete i m) ≫= counted ≡ₚ r.
Proof.
  intros H. exists (map_values (delete i m) ≫= counted).
  rewrite (map_values_delete m i x H), (map_values_update m i y). by rewrite !bind_cons.
Qed.

Definition pending_inv (s : pool) : Prop := pending_ s = wrapu 64 (count s).

Lemma wrapu_add a b : wrapu 64 (wrapu 64 a + b) = wrapu 64 (a + b).
Proof. unfold wrapu. by rewrite Zplus_mod_idemp_l. Qed.

Lemma step_pending l s s' : pending_inv s -> step l s = Some s' -> pending_inv s'.
Proof.
  unfold pending_inv, count. intros Hi Hs. apply step_stepped in Hs as [_ Hs].
  destruct Hs; simpl_pool; autorewrite with gb; cbn [drained omap list_omap]; rewrite ?app_nil_r; try done.
  - (* Init *) rewrite Hi, H, map_values_empty, (bind_nil uncounted (map_values (list_to_map _))); [done|].
    eapply Forall_impl; [apply init_values|by intros ? ->].
  - (* a call *) rewrite Hi. do 2 f_equal. rewrite (map_values_insert _ _ _ H). done.
  - destruct (bind_stage _ p _ (Added t) H) as (r & E1 & E2 & _). rewrite Hi, wrapu_add, E1, E2.
    f_equal. cbn [counted app length]. lia.
  - destruct (bind_stage _ p _ (Added t) H) as (r & E1 & _ & E2). rewrite Hi, E1, E2, !length_app.
    f_equal. cbn [counted app length]. lia.
  - destruct (bind_move uncounted _ i x y H) as (r & E1 & E2). rewrite Hi, E1, E2.
    destruct H1 as [(_ & -> & ->)|[(_ & -> & -> & _)|[(? & _ & -> & -> & _)|(_ & -> & -> & _)]]]; try done.
    by destruct (running_ s).
  - destruct (bind_move uncounted _ i _ (Sub p t) H) as (r & E1 & E2). rewrite Hi, E1, E2, H0, !length_app.
    f_equal. cbn [uncounted app length]. lia.
  - destruct (bind_move uncounted _ i _ (Run p t) H) as (r & E1 & E2). rewrite Hi.
    unfold Z.sub. rewrite wrapu_add, E1, E2.
    f_equal. cbn [uncounted app length]. lia.
  - destruct (bind_move uncounted _ i _ (DrainRun p t) H) as (r & E1 & E2). rewrite Hi, E1, E2, H0, !length_app.
    f_equal. cbn [uncounted app length drained omap list_omap]. lia.
  - destruct (bind_move uncounted _ i x y H) as (r & E1 & E2). rewrite Hi, E1, E2, !length_app.
    apply pool_run_task_events in H0 as (_ & _ & _ & -> & _). f_equal.
    destruct H1 as [(_ & -> & ->)|(_ & -> & ->)]; cbn [uncounted app length]; lia.
  - rewrite Hi. rewrite (bind_nil uncounted); [done|]. apply all_done_forall in H0.
    eapply Forall_impl; [exact H0|by intros ? ->].
Qed.

(** ** [Stop] *)

(** A thread of a running pool is in its main loop. *)
Definition live (x : position) : bool := match x with Drain | DrainRun _ _ | Done => false | _ => true end.

Definition owner_inv (s : pool) : Prop :=
  match control s with
  | Joining => running_ s = false /\ threads_ s <> ∅
  | Idle => running_ s = true -> threads_ s <> ∅ /\ forall i x, threads_ s !! i = Some x -> live x = true
  end.

(** A move within the main loop keeps the threads live. *)
Lemma live_insert (m : gmap nat position) i y :
  m <> ∅ /\ (forall j x, m !! j = Some x -> live x = true) -> live y = true ->
  <[i := y]> m <> ∅ /\ (forall j x, <[i := y]> m !! j = Some x -> live x = true).
Proof.
  intros [_ H] Hy. split; [apply insert_non_empty|]. intros j x Hj.
  destruct (decide (i = j)) as [->|E]; [rewrite lookup_insert_eq in Hj; by injection Hj as <-|].
  rewrite lookup_insert_ne in Hj by done. by apply (H j).
Qed.

Lemma init_live ids : ids <> [] ->
  (list_to_map ((fun i => (i, Loop)) <$> ids) : gmap nat position) <> ∅ /\
  forall i x, (list_to_map ((fun i => (i, Loop)) <$> ids) : gmap nat position) !! i = Some x -> live x = true.
Proof.
  intros Hn. split.
  - destruct ids as [|i r]; [done|]. simpl. apply insert_non_empty.
  - apply map_values_forall. eapply Forall_impl; [apply init_values|by intros ? ->].
Qed.

Lemma step_owner l s s' : owner_inv s -> step l s = Some s' -> owner_inv s'.
Proof.
  unfold owner_inv. intros Hi Hs. apply step_stepped in Hs as [_ Hs].
  destruct Hs; simpl_pool; try done;
    try (destruct (control s); [|split; [apply Hi|apply insert_non_empty]]; intros R; specialize (Hi R);
         apply live_insert; [done|]; pose proof (proj2 Hi _ _ H) as L; try done).
  - rewrite H0 in *. intros _. by apply init_live.
  - destruct H1 as [(_ & -> & ->)|[(_ & -> & -> & _)|[(? & _ & -> & -> & _)|(_ & -> & -> & _)]]]; try done. by rewrite R.
  - destruct H1 as [(_ & -> & ->)|(_ & -> & ->)]; done.
  - split; [done|]. rewrite H in Hi. by apply Hi.
  - by rewrite H in Hi; destruct Hi as [-> _].
Qed.

(** While [Stop] waits and no call of [Execute] is under way, a thread that is done leaves an
    empty queue behind. *)
Definition stopping_inv (s : pool) : Prop :=
  control s = Joining /\ running_ s = false /\ producers s = ∅ /\
  ((exists i, threads_ s !! i = Some Done) -> queue_ s = []).

Lemma done_insert (m : gmap nat position) i x y :
  m !! i = Some x -> (exists j, <[i := y]> m !! j = Some Done) -> (exists j, m !! j = Some Done) \/ y = Done.
Proof.
  intros Hx [j Hj]. destruct (decide (i = j)) as [->|E].
  - rewrite lookup_insert_eq in Hj. injection Hj as ->. by right.
  - rewrite lookup_insert_ne in Hj by done. left. by exists j.
Qed.

Lemma step_stopping l s s' : l <> LJoin -> stopping_inv s -> step l s = Some s' -> stopping_inv s'.
Proof.
  unfold stopping_inv. intros Hl (Hc & Hr & Hp & Hd) Hs. apply step_stepped in Hs as [_ Hs].
  destruct Hs; simpl_pool; try congruence; splits; try done; try (by rewrite Hp in *); try congruence.
  - intros [Hj| ->]%(done_insert _ _ _ _ H); [by apply Hd|].
    destruct H1 as [(_ & _ & E)|[(_ & _ & E & _)|[(? & _ & _ & E & _)|(_ & _ & _ & E)]]]; try done. by rewrite Hr in E.
  - intros [Hj|E]%(done_insert _ _ _ _ H); [|done]. apply Hd in Hj. rewrite H0 in Hj. by destruct l1.
  - intros [Hj|E]%(done_insert _ _ _ _ H); [by apply Hd|done].
  - intros [Hj|E]%(done_insert _ _ _ _ H); [|done]. apply Hd in Hj. rewrite H0 in Hj. by destruct l1.
  - intros [Hj| ->]%(done_insert _ _ _ _ H); [by apply Hd|]. destruct H1 as [(_ & _ & E)|(_ & _ & E)]; done.
Qed.

Lemma exec_stopping ls s s' : LJoin ∉ ls -> stopping_inv s -> exec ls s = Some s' -> stopping_inv s'.
Proof.
  revert s. induction ls as [|l r IH]; intros s Hn Hi He; simpl in He; [by injection He as <-|].
  apply not_elem_of_cons in Hn as [Hn Hr]. destruct (step l s) as [s1|] eqn:E; simpl in He; [|done].
  eapply IH; [done| |exact He]. by eapply step_stopping.
Qed.

(** The weight of a thread once [running_] is false. *)
Definition weight (x : position) : nat :=
  match x with
  | Loop => 2 | Take => 4 | Sub _ _ => 4 | Run _ _ => 3 | Waiting => 3 | Drain => 1 | DrainRun _ _ => 2 | Done => 0
  end.
Definition weights (x : position) : list unit := replicate (weight x) tt.
Definition measure (s : pool) : nat := 2 * length (queue_ s) + length (map_values (threads_ s) ≫= weights).

Definition thread_label (l : label) : bool := match thread_of l with Some _ => true | None => false end.

Lemma step_measure l s s' :
  running_ s = false -> thread_label l = true -> step l s = Some s' -> terminated s' = false ->
  running_ s' = false /\ (measure s' < measure s)%nat.
Proof.
  intros Hr Hl Hs Ht. apply step_stepped in Hs as [_ Hs]. unfold measure.
  destruct Hs; try done; simpl_pool; (split; [done|]).
  - destruct (bind_move weights _ i x y H) as (r & E1 & E2). rewrite E1, E2, !length_app. unfold weights.
    rewrite !length_replicate.
    destruct H1 as [(_ & -> & ->)|[(_ & -> & -> & _)|[(? & _ & -> & -> & _)|(_ & -> & -> & _)]]]; rewrite ?Hr; simpl; lia.
  - destruct (bind_move weights _ i _ (Sub p t) H) as (r & E1 & E2). rewrite E1, E2, H0, !length_app. simpl. lia.
  - destruct (bind_move weights _ i _ (Run p t) H) as (r & E1 & E2). rewrite E1, E2, !length_app. simpl. lia.
  - destruct (bind_move weights _ i _ (DrainRun p t) H) as (r & E1 & E2). rewrite E1, E2, H0, !length_app. simpl. lia.
  - destruct (bind_move weights _ i x y H) as (r & E1 & E2). rewrite E1, E2, !length_app. unfold weights.
    rewrite !length_replicate. destruct H1 as [(_ & -> & ->)|(_ & -> & ->)]; simpl; lia.
Qed.

(** A thread that is not done can always go on. *)
Lemma thread_progress s i x :
  terminated s = false -> running_ s = false -> threads_ s !! i = Some x -> x <> Done ->
  exists l s', thread_label l = true /\ step l s = Some s'.
Proof.
  intros Ht Hr Hx Hd. destruct x; try done.
  - exists (LLoop i). unfold step. rewrite Ht. cbn. rewrite Hx. cbn. eauto.
  - destruct (queue_ s) as [|[p t] q] eqn:Q.
    + exists (LEmpty i). unfold step. rewrite Ht. cbn. rewrite Hx. cbn. rewrite Q. eauto.
    + exists (LTake i 0). unfold step. rewrite Ht. cbn. rewrite Hx. cbn. rewrite Q. cbn. eauto.
  - exists (LSub i). unfold step. rewrite Ht. cbn. rewrite Hx. cbn. eauto.
  - exists (LRun i). unfold step. rewrite Ht. cbn. rewrite Hx. cbn. eauto.
  - exists (LWait i true). unfold step. rewrite Ht. cbn. rewrite Hx. cbn. eauto.
  - destruct (queue_ s) as [|[p t] q] eqn:Q.
    + exists (LDone i). unfold step. rewrite Ht. cbn. rewrite Hx. cbn. rewrite Q. eauto.
    + exists (LDrain i 0). unfold step. rewrite Ht. cbn. rewrite Hx. cbn. rewrite Q. cbn. eauto.
  - exists (LDrainRun i). unfold step. rewrite Ht. cbn. rewrite Hx. cbn. eauto.
Qed.

Lemma not_all_done s : all_done s = false -> exists i x, threads_ s !! i = Some x /\ x <> Done.
Proof.
  intros H. destruct (decide (Forall (fun x => x = Done) (map_values (threads_ s)))) as [D|D].
  - apply all_done_forall in D. congruence.
  - apply not_Forall_Exists in D; [|apply _]. apply Exists_exists in D as (x & Hx & Hn).
    unfold map_values in Hx. apply list_elem_of_fmap in Hx as ([i x'] & -> & Hx).
    apply elem_of_map_to_list in Hx. by exists i, x'.
Qed.

(** ** Properties *)

(** C19: whatever the interleaving of the pool threads, the callers of [Execute] and the owner,
    every accepted task is run at most once and what did not run is in the queue or in the
    hands of a thread; the tasks of one caller leave the queue in the order in which they
    were accepted; and every task that [Dispatch] or [Post] of the scheduler submitted posts
    its callback exactly once, to the worker it came from, when it has run. *)
Theorem pool_tasks_run_once (ls : list label) (s : pool) :
  exec ls start = Some s ->
  accepted (trace s) ≡ₚ ran (trace s) ++ queue_ s ++ hands s /\
  (forall p, queued p (accepted (trace s)) = queued p (dequeued (trace s)) ++ queued p (queue_ s)) /\
  posted (trace s) = omap owes (ran (trace s)).
Proof. intros He. by apply (run_steps_invariant once_inv pool_step_once) in He. Qed.

(** Two threads, two callers: the second dispatch of caller 1 is taken last. *)
Definition two_callers : list label :=
  [LInit 2 8 [100%nat; 101%nat]; LCall 1 (Back 3 7 (Some 70%nat)); LAdd 1; LPush 1;
   LCall 2 (Bare 9); LAdd 2; LPush 2; LCall 1 (Back 3 8 None); LAdd 1; LPush 1;
   LLoop 100; LTake 100 1; LSub 100; LLoop 101; LTake 101 0; LSub 101; LRun 101].

Lemma pool_tasks_run_once_witness :
  exists s, exec two_callers start = Some s /\
    accepted (trace s) ≡ₚ [(1%nat, Back 3 7 (Some 70%nat))] ++ [(1%nat, Back 3 8 None)] ++ [(2%nat, Bare 9)] /\
    posted (trace s) = [(3%nat, Some 70%nat)].
Proof.
  destruct (exec two_callers start) as [s|] eqn:E; [|by vm_compute in E].
  pose proof (pool_tasks_run_once two_callers s E) as (H1 & _ & H3).
  vm_compute in E. injection E as <-. eexists. split; [reflexivity|]. split; [exact H1|exact H3].
Defined.

(** C33: [Stop] waits for the remaining tasks: when no call of [Execute] is under way when it
    clears [running_], then at its end everything that was ever accepted has run and the queue is
    empty. *)
Theorem stop_runs_everything (ls ls' : list label) (s0 s1 s2 : pool) :
  exec ls start = Some s0 -> control s0 = Idle -> running_ s0 = true -> producers s0 = ∅ ->
  exec (LStop :: ls') s0 = Some s1 -> LJoin ∉ ls' -> step LJoin s1 = Some s2 ->
  queue_ s2 = [] /\ threads_ s2 = ∅ /\ accepted (trace s2) ≡ₚ ran (trace s2).
Proof.
  intros He Hc Hr Hp He1 Hn Hj.
  assert (owner_inv s0) as Ho by (by apply (run_steps_invariant owner_inv step_owner) in He).
  assert (exec ((ls ++ LStop :: ls') ++ [LJoin]) start = Some s2) as He2.
  { rewrite (run_steps_app step _ _ _ s1); [simpl; by rewrite Hj|]. by rewrite (run_steps_app step _ _ _ s0). }
  assert (stopping_inv s1 /\ owner_inv s1) as [(Hc1 & _ & _ & Hq) Ho1].
  { simpl in He1. destruct (step LStop s0) as [s|] eqn:Es; simpl in He1; [|done]. split.
    - eapply exec_stopping; [done| |exact He1]. unfold step in Es. destruct (terminated s0); [done|].
      rewrite Hc, Hr in Es. injection Es as <-. unfold stopping_inv. simpl_pool. splits; try done.
      intros [i Hi]. unfold owner_inv in Ho. rewrite Hc in Ho. apply Ho in Hi; [done|done].
    - eapply (run_steps_invariant owner_inv step_owner); [|exact He1]. by eapply step_owner. }
  unfold owner_inv in Ho1. rewrite Hc1 in Ho1. destruct Ho1 as [_ Hne].
  unfold step in Hj. destruct (terminated s1); [done|]. rewrite Hc1 in Hj.
  destruct (all_done s1) eqn:Hd; [|done]. injection Hj as <-.
  assert (queue_ s1 = []) as Hq1.
  { apply Hq. apply map_choose in Hne as (j & x & Hx). exists j.
    apply all_done_forall in Hd. by rewrite (proj1 (map_values_forall _ _) Hd j x Hx) in Hx. }
  splits; [done|done|].
  apply (run_steps_invariant once_inv pool_step_once) in He2 as (H1 & _ & _); [|done]. rewrite H1. unfold hands.
  simpl_pool. by rewrite Hq1, map_values_empty, app_nil_r.
Qed.

(** Two tasks, the second is taken after the shutdown began. *)
Definition before_stop : list label :=
  [LInit 0 0 [100%nat]; LCall 1 (Bare 7); LAdd 1; LPush 1; LLoop 100; LCall 1 (Bare 8); LAdd 1; LPush 1].
Definition after_stop : list label :=
  [LTake 100 0; LSub 100; LRun 100; LCall 1 (Bare 9); LLoop 100; LDrain 100 0; LDrainRun 100; LDone 100].

Lemma stop_runs_everything_witness :
  exists s0 s1 s2, exec before_stop start = Some s0 /\ exec (LStop :: after_stop) s0 = Some s1 /\
    step LJoin s1 = Some s2 /\ queue_ s2 = [] /\ threads_ s2 = ∅ /\ accepted (trace s2) ≡ₚ ran (trace s2).
Proof.
  eexists _, _, _. split; [vm_compute; reflexivity|]. split; [vm_compute; reflexivity|].
  split; [vm_compute; reflexivity|].
  eapply (stop_runs_everything before_stop after_stop);
    [vm_compute; reflexivity|reflexivity|reflexivity|reflexivity|vm_compute; reflexivity| |vm_compute; reflexivity].
  unfold after_stop. set_solver.
Defined.

(** Without this hypothesis: caller 1 has tested [running_] when the pool is stopped, and enqueues
    after the threads have left; its task is accepted, stays in the queue and nobody runs it. *)
Definition late_caller : list label :=
  [LInit 1 8 [100%nat]; LCall 1 (Bare 7); LStop; LLoop 100; LDone 100; LJoin; LAdd 1; LPush 1].

Lemma late_task_is_stranded :
  exists s, exec late_caller start = Some s /\ accepted (trace s) = [(1%nat, Bare 7)] /\ ran (trace s) = [] /\
    threads_ s = ∅ /\ pending_ s = 1.
Proof. eexists. split; [vm_compute; reflexivity|]. splits; reflexivity. Qed.

(** [Stop] returns.  Once it has cleared [running_], the threads can take only a bounded
    number of further steps in any order, whatever is in the queue, and as long as one of them
    is not done it can go on; so the join is reached, unless an exception leaves a task and
    ends the process. *)
Theorem stop_returns (ls : list label) (s : pool) :
  exec ls start = Some s -> control s = Joining -> terminated s = false ->
  (forall ls' s', exec ls' s = Some s' -> forallb thread_label ls' = true -> (length ls' <= S (measure s))%nat) /\
  exists ls' s', forallb thread_label ls' = true /\ exec ls' s = Some s' /\
    (terminated s' = true \/ exists s'', step LJoin s' = Some s'').
Proof.
  intros He Hc Ht.
  assert (owner_inv s) as Ho by (by apply (run_steps_invariant owner_inv step_owner) in He).
  unfold owner_inv in Ho. rewrite Hc in Ho. destruct Ho as [Hr _]. clear He ls. split.
  - intros ls'. revert s Hc Ht Hr. induction ls' as [|l r IH]; intros s Hc Ht Hr s' He Hl; [simpl; lia|].
    simpl in He, Hl. apply andb_prop in Hl as [Hl Hr']. destruct (step l s) as [s1|] eqn:E; simpl in He; [|done].
    destruct (terminated s1) eqn:T.
    + destruct r as [|l' r]; [simpl; lia|]. simpl in He. unfold step in He. by rewrite T in He.
    + destruct (step_measure l s s1 Hr Hl E T) as [Hr1 Hm].
      assert (control s1 = Joining) as Hc1.
      { apply step_stepped in E as [_ E]. destruct E; simpl_pool; try done. }
      specialize (IH s1 Hc1 T Hr1 s' He Hr'). simpl. lia.
  - remember (measure s) as n eqn:Hn. revert s Hn Hc Ht Hr. induction (lt_wf n) as [n _ IH]. intros s -> Hc Ht Hr.
    destruct (all_done s) eqn:D.
    + exists [], s. splits; [done|done|]. right. unfold step. rewrite Ht, Hc, D. by eexists.
    + apply not_all_done in D as (i & x & Hx & Hd).
      destruct (thread_progress s i x Ht Hr Hx Hd) as (l & s1 & Hl & E).
      destruct (terminated s1) eqn:T.
      * exists [l], s1. simpl. rewrite Hl, E. splits; [done|done|by left].
      * destruct (step_measure l s s1 Hr Hl E T) as [Hr1 Hm].
        assert (control s1 = Joining) as Hc1.
        { apply step_stepped in E as [_ E]. destruct E; simpl_pool; try done. }
        destruct (IH _ Hm s1 eq_refl Hc1 T Hr1) as (ls & s' & H1 & H2 & H3).
        exists (l :: ls), s'. simpl. rewrite Hl, H1, E. splits; done.
Qed.

(** One task is queued when the pool is stopped. *)
Definition stopping : list label :=
  [LInit 1 8 [100%nat]; LCall 1 (Bare 7); LAdd 1; LPush 1; LLoop 100; LStop].

Lemma stop_returns_witness :
  exists s, exec stopping start = Some s /\ control s = Joining /\
    exists ls' s', forallb thread_label ls' = true /\ exec ls' s = Some s' /\
      (terminated s' = true \/ exists s'', step LJoin s' = Some s'').
Proof.
  eexists. split; [vm_compute; reflexivity|]. split; [reflexivity|].
  apply (stop_returns stopping); [vm_compute; reflexivity|reflexivity|reflexivity].
Defined.

(** [pending_] is, modulo its 64 bits, the calls that have added and not enqueued, the
    queue, the tasks taken and not subtracted, and every task that was ever taken after a
    shutdown: these are never subtracted, so after a [Stop] that found work to do and a new
    [Init] the predicate of [WaitForTask] holds for ever, and a thread of the empty pool
    never blocks. *)
Theorem drained_tasks_stay_pending (ls : list label) (s : pool) :
  exec ls start = Some s ->
  PendingCount s = wrapu 64 (count s) /\
  (drained (trace s) <> [] -> count s < 2 ^ 64 -> terminated s = false ->
   forall i, threads_ s !! i = Some Waiting -> is_Some (step (LWait i false) s)).
Proof.
  intros He. apply (run_steps_invariant pending_inv step_pending) in He; [|done]. split; [exact He|].
  intros Hd Hb Ht i Hi. unfold step. rewrite Ht. cbn. rewrite Hi. cbn.
  unfold wake_predicate. unfold pending_inv in He. rewrite He, wrapu_small by (unfold in_u, count in *; lia).
  replace (0 <? count s) with true; [rewrite orb_true_r; eauto|].
  symmetry. apply Z.ltb_lt. unfold count. destruct (drained (trace s)); [done|]. simpl. lia.
Qed.

(** One task drained by [Stop], then a second life of the pool without work. *)
Definition second_life : list label :=
  [LInit 1 8 [100%nat]; LCall 1 (Bare 7); LAdd 1; LPush 1; LStop; LLoop 100; LDrain 100 0; LDrainRun 100; LDone 100;
   LJoin; LInit 1 8 [101%nat]; LLoop 101; LEmpty 101].

Lemma drained_tasks_stay_pending_witness :
  exists s, exec second_life start = Some s /\ queue_ s = [] /\ is_Some (step (LWait 101 false) s) /\
    IsThreadPoolThread 100 s = true.
Proof.
  eexists. split; [vm_compute; reflexivity|]. split; [reflexivity|]. split; [|vm_compute; reflexivity].
  eapply (drained_tasks_stay_pending second_life); [vm_compute; reflexivity|done|vm_compute; reflexivity|done|
    vm_compute; reflexivity].
Defined.

End ThreadPool.
