(* ===== verification/Await.v ===== *)
(** * Await: suspending a coroutine until another thread completes ([src/network/rpc/rpc_coro.h],
    [src/network/http/http_coro.h], [src/async/thread_pool_scheduler.h])

    The three await states share one protocol: [await_suspend] binds the coroutine, hands the
    operation out, stores [suspend_finished_] and loads [completed_]; the completer writes the
    result, exchanges [completed_] and loads [suspend_finished_].  Each access to an atomic is
    a step.  The store is a release and the load after it an acquire of another variable, so
    the store may reach the other thread later: it waits in a store buffer ([buffered]) until
    [LFlush].  The exchange is a read-modify-write and takes effect at once. *)

From S2P Require Import Prelude.

Module Await.

(** What the pool task does: [ThreadPoolAwaitState<T>] keeps the exception of a task with a
    result; the branch for [void] does not catch it. *)
Inductive outcome := Value (v : Z) | Thrown.

(** Where the coroutine is: before [Bind], inside the binder, before the load of
    [FinishSuspend], suspended, going on without having been suspended, resumed, and past a
    [resume] it did not wait for. *)
Inductive position := Fresh | Bound | Stored | Suspended | Inline | Resumed | Broken.

#[export] Instance position_eq_dec : EqDecision position.
Proof. solve_decision. Defined.

(** Where a call of [Complete] is: the result is written, [completed_] is exchanged. *)
Inductive stage := Emplaced | Exchanged.

Record state := mkAwait {
  result_ : option Z;
  exception_ : bool;
  completed_ : bool;
  suspend_finished_ : bool;   (* what other threads see *)
  buffered : bool;            (* the store is made and not yet visible *)
  pos : position;
  completers : gmap nat stage;
  posted : nat;               (* [resume] tasks in the queue of the worker *)
  resumes : nat;              (* [resume] tasks ever posted *)
}.

Definition init : state := mkAwait None false false false false Fresh ∅ 0 0.

Definition set_pos (p : position) (s : state) : state :=
  mkAwait (result_ s) (exception_ s) (completed_ s) (suspend_finished_ s) (buffered s) p
    (completers s) (posted s) (resumes s).

Definition set_completers (m : gmap nat stage) (s : state) : state :=
  mkAwait (result_ s) (exception_ s) (completed_ s) (suspend_finished_ s) (buffered s) (pos s)
    m (posted s) (resumes s).

(** [Bind], the first statement of [await_suspend]. *)
Definition Bind (s : state) : state := set_pos Bound s.

(** [result_.emplace(...)], or the exception kept by [ExecuteOnPool]. *)
Definition emplace (o : outcome) (s : state) : state :=
  match o with
  | Value v => mkAwait (Some v) (exception_ s) (completed_ s) (suspend_finished_ s) (buffered s)
                 (pos s) (completers s) (posted s) (resumes s)
  | Thrown => mkAwait (result_ s) true (completed_ s) (suspend_finished_ s) (buffered s)
                (pos s) (completers s) (posted s) (resumes s)
  end.

(** [completed_.exchange(true)]: the old value, and the new state. *)
Definition exchange (s : state) : bool * state :=
  (completed_ s, mkAwait (result_ s) (exception_ s) true (suspend_finished_ s) (buffered s)
     (pos s) (completers s) (posted s) (resumes s)).

(** The task that resumes the coroutine goes to the worker. *)
Definition post_resume (s : state) : state :=
  mkAwait (result_ s) (exception_ s) (completed_ s) (suspend_finished_ s) (buffered s) (pos s)
    (completers s) (S (posted s)) (S (resumes s)).

(** The store of [FinishSuspend]. *)
Definition store_finished (s : state) : state :=
  mkAwait (result_ s) (exception_ s) (completed_ s) (suspend_finished_ s) true Stored
    (completers s) (posted s) (resumes s).

Definition flush (s : state) : state :=
  mkAwait (result_ s) (exception_ s) (completed_ s) true false (pos s)
    (completers s) (posted s) (resumes s).

(** The load of [FinishSuspend]: the coroutine suspends unless the operation is complete. *)
Definition load_completed (s : state) : state :=
  set_pos (if completed_ s then Inline else Suspended) s.

(** [h.resume()] from the queue of the worker.  Resuming a coroutine that is not suspended is
    undefined. *)
Definition resume (s : state) : state :=
  mkAwait (result_ s) (exception_ s) (completed_ s) (suspend_finished_ s) (buffered s)
    (match pos s with Suspended => Resumed | _ => Broken end) (completers s) (pred (posted s)) (resumes s).

(** [TakeResult] of the thread pool: [inl] is the exception; [None] reads an empty optional. *)
Definition TakeResult (s : state) : option (unit + Z) :=
  if exception_ s then Some (inl ())
  else match result_ s with Some v => Some (inr v) | None => None end.

(** [TakeResult] of an RPC: the default value when there is none. *)
Definition TakeResult_rpc (dflt : Z) (s : state) : Z := default dflt (result_ s).

(** [await_suspend] of [ThreadPoolAwaiter] on a thread that is no worker: the task runs inside
    it and the coroutine is not suspended. *)
Definition await_inline (o : outcome) (s : state) : bool * state :=
  let s1 := emplace o (Bind s) in
  let '(old, s2) := exchange s1 in
  (false, set_pos Inline (if negb old && suspend_finished_ s2 then post_resume s2 else s2)).

Inductive label :=
  | LBind
  | LEmplace (c : nat) (o : outcome)
  | LExchange (c : nat)
  | LNotify (c : nat)      (* the load of [suspend_finished_] and what follows *)
  | LStore | LFlush | LLoad
  | LResume.

(** [same]: the completer is the thread of the coroutine, either inside the binder or in a later
    task of the worker; then the calls do not interleave, and the thread sees its own store.
    [fenced]: the store is visible before the load, as with sequentially consistent atomics. *)
Section Step.
Context (same fenced : bool).

Definition sees_store (s : state) : bool := suspend_finished_ s || (same && buffered s).

(** On one thread a call runs to its end before anything else does. *)
Definition thread_free (s : state) : bool := negb same || bool_decide (completers s = ∅).

(** May a completion begin?  The operation has been handed out; on the thread of the
    coroutine not between the store and the load. *)
Definition may_complete (s : state) : bool :=
  match pos s with
  | Fresh => false
  | Stored => negb same
  | _ => thread_free s
  end.

Definition step (l : label) (s : state) : option state :=
  match l with
  | LBind => match pos s with Fresh => Some (Bind s) | _ => None end
  | LEmplace c o =>
      match completers s !! c with
      | None => if may_complete s then Some (set_completers (<[c := Emplaced]> (completers s)) (emplace o s)) else None
      | Some _ => None
      end
  | LExchange c =>
      match completers s !! c with
      | Some Emplaced =>
          let '(old, s') := exchange s in
          if old then Some (set_completers (delete c (completers s)) s')
          else Some (set_completers (<[c := Exchanged]> (completers s)) s')
      | _ => None
      end
  | LNotify c =>
      match completers s !! c with
      | Some Exchanged =>
          let s' := set_completers (delete c (completers s)) s in
          Some (if sees_store s then post_resume s' else s')
      | _ => None
      end
  | LStore =>
      match pos s with Bound => if thread_free s then Some (store_finished s) else None | _ => None end
  | LFlush => if buffered s then Some (flush s) else None
  | LLoad =>
      match pos s with
      | Stored => if fenced && buffered s then None else Some (load_completed s)
      | _ => None
      end
  | LResume =>
      match posted s, pos s with
      | O, _ | _, (Fresh | Bound | Stored) => None
      | S _, _ => if thread_free s then Some (resume s) else None
      end
  end.
End Step.

Abbreviation exec same fenced := (run_steps (step same fenced)).

(** Every test of a step is resolved. *)
Ltac step_inv H :=
  cbn [step exchange pos completers posted completed_] in H; try discriminate H;
  repeat match type of H with
  | context [match ?x with _ => _ end] => let X := fresh "X" in destruct x eqn:X; try discriminate H; cbn beta iota in H
  end;
  injection H as <-.

Ltac simpl_await :=
  cbn [result_ exception_ completed_ suspend_finished_ buffered pos completers posted resumes
       set_pos set_completers Bind emplace exchange post_resume store_finished flush
       load_completed resume] in *.

(** ** At most one resume, whatever the interleaving *)

(** A completer past its exchange. *)
Definition won (s : state) (c : nat) : Prop := completers s !! c = Some Exchanged.

Definition once_inv (s : state) : Prop :=
  (forall c c', won s c -> won s c' -> c = c') /\
  (completed_ s = false -> resumes s = 0%nat) /\
  (forall c, won s c -> completed_ s = true /\ resumes s = 0%nat) /\
  (posted s <= resumes s <= 1)%nat.

Lemma won_emplaced (m : gmap nat stage) c c' :
  <[c := Emplaced]> m !! c' = Some Exchanged -> m !! c' = Some Exchanged.
Proof. destruct (decide (c = c')) as [->|H]; [by rewrite lookup_insert_eq|by rewrite lookup_insert_ne]. Qed.

Lemma won_exchanged (m : gmap nat stage) c c' :
  <[c := Exchanged]> m !! c' = Some Exchanged -> c' = c \/ m !! c' = Some Exchanged.
Proof. destruct (decide (c = c')) as [->|H]; [by left|rewrite lookup_insert_ne by done; by right]. Qed.

Lemma won_delete (m : gmap nat stage) c c' : delete c m !! c' = Some Exchanged -> c <> c' /\ m !! c' = Some Exchanged.
Proof. destruct (decide (c = c')) as [->|H]; [by rewrite lookup_delete_eq|by rewrite lookup_delete_ne]. Qed.

Lemma await_step_once same fenced l s s' : once_inv s -> step same fenced l s = Some s' -> once_inv s'.
Proof.
  unfold once_inv, won. intros (H1 & H2 & H3 & H4) Hs.
  destruct l; step_inv Hs; simpl_await; try (destruct o; simpl_await); simpl_await.
  all: try (splits; [exact H1|exact H2|exact H3|lia]).
  all: splits; intros;
    repeat match goal with
    | H : <[_ := Emplaced]> _ !! _ = _ |- _ => apply won_emplaced in H
    | H : <[_ := Exchanged]> _ !! _ = _ |- _ => apply won_exchanged in H as [->|H]
    | H : delete _ _ !! _ = _ |- _ => apply won_delete in H as [? H]
    end.
  all: try (eauto; lia).
  all: try naive_solver lia.
  all: try (destruct (H3 _ X); lia).
  all: try (exfalso; eauto).
Qed.

(** ** On one thread: the protocol is exact *)

(** At most one completion is under way. *)
Definition of_one (o : option (nat * stage)) : gmap nat stage :=
  match o with None => ∅ | Some (c, st) => {[c := st]} end.

Definition one_thread_at (s : state) (o : option (nat * stage)) : Prop :=
  let seen := suspend_finished_ s || buffered s in
  match pos s, o with
  | Fresh, None => completed_ s = false /\ seen = false /\ posted s = 0%nat
  | Bound, _ => seen = false /\ posted s = 0%nat
  | Stored, None => seen = true /\ posted s = 0%nat
  | Suspended, Some (_, Exchanged) => completed_ s = true /\ seen = true /\ posted s = 0%nat
  | Suspended, _ => seen = true /\ posted s = (if completed_ s then 1 else 0)%nat
  | (Inline | Resumed), (None | Some (_, Emplaced)) => completed_ s = true /\ posted s = 0%nat
  | _, _ => False
  end.

Definition one_thread_inv (s : state) : Prop :=
  exists o, completers s = of_one o /\ one_thread_at s o.

Lemma of_one_lookup o c st : of_one o !! c = Some st -> o = Some (c, st).
Proof.
  destruct o as [[c0 st0]|]; simpl; [|done].
  by intros [-> ->]%lookup_singleton_Some.
Qed.

Lemma of_one_empty o : bool_decide (of_one o = ∅) = true -> o = None.
Proof.
  rewrite bool_decide_eq_true. destruct o as [[c st]|]; [|done]. simpl. intros H.
  by apply map_non_empty_singleton in H.
Qed.

Lemma of_one_insert c st st' : <[c := st']> (of_one (Some (c, st))) = of_one (Some (c, st')).
Proof. apply insert_singleton_eq. Qed.

Lemma of_one_delete c st : delete c (of_one (Some (c, st))) = of_one None.
Proof. apply delete_singleton_eq. Qed.

Lemma may_complete_one s o :
  completers s = of_one o -> may_complete true s = true -> o = None /\ pos s <> Fresh /\ pos s <> Stored.
Proof.
  unfold may_complete, thread_free. intros -> H. destruct (pos s); try discriminate H;
    by apply of_one_empty in H.
Qed.

(** Decides a goal about [one_thread_at] by the position and the flags. *)
Ltac by_flags s :=
  unfold one_thread_at, sees_store in *; destruct s as [? ? compl susp buf ps ? ? ?]; simpl_await; subst;
  repeat match goal with o : option (nat * stage) |- _ => destruct o as [[? []]|] end;
  try destruct ps; try destruct compl; try destruct susp; try destruct buf; simpl in *;
  intuition (lia || congruence).

Lemma step_one_thread fenced l s s' :
  one_thread_inv s -> step true fenced l s = Some s' -> one_thread_inv s'.
Proof.
  unfold one_thread_inv, sees_store.
  intros (o & H1 & H2) Hs.
  destruct l as [|c r|c|c| | | |]; cbn [step] in Hs.
  - exists o. step_inv Hs. split; [done|]. by_flags s.
  - destruct (completers s !! c); [done|]. destruct (may_complete true s) eqn:M; [|done].
    apply (may_complete_one _ _ H1) in M as (-> & M). injection Hs as <-.
    exists (Some (c, Emplaced)). destruct r; simpl_await; rewrite H1; (split; [done|]); by_flags s.
  - destruct (completers s !! c) as [[]|] eqn:L; try done. rewrite H1 in L. apply of_one_lookup in L as ->.
    step_inv Hs; simpl_await; rewrite H1, ?of_one_delete, ?of_one_insert; eexists; (split; [reflexivity|]); by_flags s.
  - destruct (completers s !! c) as [[]|] eqn:L; try done. rewrite H1 in L. apply of_one_lookup in L as ->.
    step_inv Hs; simpl_await; exists None; simpl_await; rewrite H1, of_one_delete; (split; [done|]); unfold sees_store in *; by_flags s.
  - destruct (pos s) eqn:Hp; try done. unfold thread_free in Hs. rewrite H1 in Hs.
    destruct (negb true || _) eqn:F in Hs; [|done]. apply of_one_empty in F as ->.
    injection Hs as <-. exists None. split; [done|]. by_flags s.
  - step_inv Hs. exists o. split; [done|]. by_flags s.
  - step_inv Hs. exists o. split; [done|]. by_flags s.
  - unfold thread_free in Hs. rewrite H1 in Hs. destruct (posted s) eqn:Po; [done|].
    destruct (negb true || _) eqn:F in Hs; [apply of_one_empty in F as ->|by destruct (pos s)].
    exists None. destruct (pos s) eqn:Hp; try done; injection Hs as <-; (split; [done|]); by_flags s.
Qed.

Lemma lookup_not_empty (m : gmap nat stage) c st : m !! c = Some st -> m <> ∅.
Proof. intros H ->. done. Qed.

(** The result is there before the coroutine can go on. *)
Definition result_inv (s : state) : Prop :=
  (completed_ s = true \/ completers s <> ∅ -> TakeResult s <> None) /\
  (pos s = Inline \/ posted s <> 0%nat \/ pos s = Resumed -> completed_ s = true) /\
  (forall c, won s c -> completed_ s = true).

Lemma step_result same fenced l s s' : result_inv s -> step same fenced l s = Some s' -> result_inv s'.
Proof.
  unfold result_inv, TakeResult, won. intros (H1 & H2 & H3) Hs.
  destruct l; step_inv Hs; simpl_await; try (destruct o; simpl_await); simpl_await;
    splits; intros;
    repeat match goal with
    | H : <[_ := Emplaced]> _ !! _ = _ |- _ => apply won_emplaced in H
    | H : <[_ := Exchanged]> _ !! _ = _ |- _ => apply won_exchanged in H as [->|H]
    | H : delete _ _ !! _ = _ |- _ => apply won_delete in H as [? H]
    end.
  all: try (destruct (exception_ s); done).
  all: try (by apply H1; right; eapply lookup_not_empty).
  all: try (eapply H3; eassumption).
  all: try (by apply H1).
  all: try (destruct (completed_ s); naive_solver lia).
Qed.

(** Off the workers the coroutine goes on with the outcome of its task, and nothing resumes it. *)
Lemma await_inline_goes_on o :
  let '(suspended, s) := await_inline o init in
  suspended = false /\ pos s = Inline /\ posted s = 0%nat /\
  TakeResult s = Some (match o with Value v => inr v | Thrown => inl () end).
Proof. by destruct o. Qed.

(** ** Across threads *)

(** With a fence, a coroutine that suspended after a completion has a resume on its way. *)
Definition fenced_inv (s : state) : Prop :=
  once_inv s /\
  (pos s = Stored -> suspend_finished_ s || buffered s = true) /\
  (pos s = Suspended -> suspend_finished_ s = true /\
     (completed_ s = true -> (exists c, won s c) \/ (0 < posted s)%nat)).

Lemma won_keep_insert (m : gmap nat stage) (c c' : nat) (st : stage) :
  m !! c <> Some Exchanged -> m !! c' = Some Exchanged -> <[c := st]> m !! c' = Some Exchanged.
Proof. intros Hc H. rewrite lookup_insert_ne; congruence. Qed.

Lemma won_keep_delete (m : gmap nat stage) (c c' : nat) :
  m !! c <> Some Exchanged -> m !! c' = Some Exchanged -> delete c m !! c' = Some Exchanged.
Proof. intros Hc H. rewrite lookup_delete_ne; congruence. Qed.

Lemma step_fenced same l s s' : fenced_inv s -> step same true l s = Some s' -> fenced_inv s'.
Proof.
  intros (H1 & H2 & H3) Hs. split; [by eapply await_step_once|]. destruct H1 as (_ & U2 & U3 & U4).
  unfold won, sees_store in *.
  destruct l as [|c r|c|c| | | |]; cbn [step] in Hs.
  - step_inv Hs. simpl_await. split; intros; congruence.
  - destruct (completers s !! c) eqn:L; [done|]. step_inv Hs.
    destruct r; simpl_await; (split; [done|]); intros Hp; destruct (H3 Hp) as [? K]; (split; [done|]);
      (intros [[c' W]|?]%K; [left; exists c'; apply won_keep_insert; [congruence|done]|by right]).
  - destruct (completers s !! c) as [[]|] eqn:L; try done. step_inv Hs; simpl_await; (split; [done|]);
      intros Hp; (split; [by apply H3|]); intros _.
    + destruct (proj2 (H3 Hp)) as [[c' W]|?]; [done| |by right]. left. exists c'.
      apply won_keep_delete; [congruence|done].
    + left. exists c. apply lookup_insert_eq.
  - destruct (completers s !! c) as [[]|] eqn:L; try done. step_inv Hs; simpl_await; (split; [done|]);
      intros Hp; (split; [by apply H3|]); intros _; [right; lia|].
    destruct (H3 Hp) as [E _]. unfold sees_store in X. by rewrite E in X.
  - step_inv Hs. simpl_await. split; [intros _; apply orb_true_r|done].
  - step_inv Hs. simpl_await. split; [done|]. intros Hp. split; [done|]. by apply H3.
  - destruct (pos s) eqn:Hp; try done. destruct (buffered s) eqn:B; [done|]. injection Hs as <-. simpl_await.
    specialize (H2 eq_refl). rewrite orb_false_r in H2. destruct (completed_ s); split; intros; try congruence; by split.
  - destruct (posted s); [done|]. destruct (pos s) eqn:Hp; try done; step_inv Hs; simpl_await; rewrite ?Hp; split; intros; congruence.
Qed.

(** ** Properties *)

(** When the completion runs on the thread of the coroutine, inside the binder or in a later
    task of its worker, [FinishSuspend] and [NotifyCompleted] agree in every execution: a
    coroutine that was not suspended is not resumed, one that was suspended is resumed
    exactly once, after the completion, and nothing resumes a coroutine that does not wait;
    whenever the coroutine goes on, [TakeResult] finds a result or an exception. *)
Theorem await_on_one_thread (fenced : bool) (ls : list label) (s : state) :
  exec true fenced ls init = Some s ->
  pos s <> Broken /\ (resumes s <= 1)%nat /\
  (pos s = Inline \/ pos s = Resumed -> posted s = 0%nat /\ TakeResult s <> None) /\
  (pos s = Suspended -> completers s = ∅ -> posted s = (if completed_ s then 1 else 0)%nat).
Proof.
  intros He.
  assert (once_inv s) as (_ & _ & _ & Ho).
  { eapply run_steps_invariant; [apply await_step_once| |exact He]. unfold once_inv, won. simpl. naive_solver lia. }
  assert (result_inv s) as (R1 & R2 & _).
  { eapply run_steps_invariant; [apply step_result| |exact He]. unfold result_inv, won. simpl. naive_solver. }
  assert (one_thread_inv s) as (o & Hc & Ha).
  { eapply run_steps_invariant; [apply step_one_thread| |exact He]. by exists None. }
  unfold one_thread_at in Ha. splits.
  - intros E. by rewrite E in Ha.
  - lia.
  - intros Hp. split; [|apply R1; left; apply R2; tauto].
    destruct Hp as [Hp|Hp]; rewrite Hp in Ha; destruct o as [[? []]|]; try done; by destruct Ha.
  - intros Hp He'. rewrite He' in Hc. destruct o as [[c st]|].
    + symmetry in Hc. simpl in Hc. by apply map_non_empty_singleton in Hc.
    + rewrite Hp in Ha. by destruct Ha.
Qed.

(** A reply that comes in a later task, and an error reported inside the binder. *)
Definition later_reply : list label :=
  [LBind; LStore; LLoad; LEmplace 1 (Value 42); LExchange 1; LNotify 1; LResume].
Definition inline_error : list label :=
  [LBind; LEmplace 1 Thrown; LExchange 1; LNotify 1; LStore; LLoad].

Lemma await_on_one_thread_witness :
  exists s s', exec true false later_reply init = Some s /\ pos s = Resumed /\
    TakeResult s = Some (inr 42) /\ posted s = 0%nat /\
    exec true false inline_error init = Some s' /\ pos s' = Inline /\ posted s' = 0%nat.
Proof.
  destruct (exec true false later_reply init) as [s|] eqn:E; [|by vm_compute in E].
  destruct (exec true false inline_error init) as [s'|] eqn:E'; [|by vm_compute in E'].
  pose proof (await_on_one_thread false later_reply s E) as H.
  pose proof (await_on_one_thread false inline_error s' E') as H'.
  exists s, s'. vm_compute in E, E'. injection E as <-. injection E' as <-.
  splits; [reflexivity|reflexivity|reflexivity|apply H; by right|reflexivity|reflexivity|apply H'; by left].
Defined.

(** The completer of another thread runs between the store and the load, or has its load after
    the store: both sides take the completion for theirs. *)
Definition double_resume : list label :=
  [LBind; LEmplace 1 (Value 42); LExchange 1; LStore; LFlush; LLoad; LNotify 1; LResume].
(** The store is still in the store buffer: each side misses the other. *)
Definition lost_resume : list label :=
  [LBind; LStore; LLoad; LEmplace 1 (Value 42); LExchange 1; LNotify 1; LFlush].

(** C27: when the completer is another thread, as it is for [ThreadPoolAwaiter], the exchange
    still keeps the resumes at one, and were the store visible before the load a completed
    and suspended coroutine would always have its resume; but an execution exists in which the
    coroutine goes on by itself and is resumed as well although it does not wait, and, as the
    code orders the accesses, one in which it stays suspended for ever. *)
Theorem await_across_threads :
  (forall fenced ls s, exec false fenced ls init = Some s -> (resumes s <= 1)%nat) /\
  (forall ls s, exec false true ls init = Some s -> pos s = Suspended -> completers s = ∅ ->
     completed_ s = true -> posted s = 1%nat) /\
  (exists s, exec false true double_resume init = Some s /\ pos s = Broken) /\
  (exists s, exec false false lost_resume init = Some s /\
     pos s = Suspended /\ completed_ s = true /\ posted s = 0%nat /\
     forall l s', step false false l s = Some s' -> exists c o, l = LEmplace c o).
Proof.
  assert (forall fenced ls s, exec false fenced ls init = Some s -> once_inv s) as Ho.
  { intros fenced ls s He. eapply run_steps_invariant; [apply await_step_once| |exact He]. unfold once_inv, won. simpl. naive_solver lia. }
  splits.
  - intros fenced ls s He. destruct (Ho _ _ _ He) as (_ & _ & _ & H). lia.
  - intros ls s He Hp Hc Hcomp. assert (fenced_inv s) as (H1 & _ & H3).
    { eapply run_steps_invariant; [apply step_fenced| |exact He].
      split; [by eapply (Ho true [])|]. simpl. split; congruence. }
    destruct (proj2 (H3 Hp) Hcomp) as [[c W]|]; [unfold won in W; by rewrite Hc in W|].
    destruct H1 as (_ & _ & _ & H1). lia.
  - eexists. split; [vm_compute; reflexivity|]. reflexivity.
  - eexists. split; [vm_compute; reflexivity|]. splits; [done..|].
    intros [|c o|c|c| | | |] s' H; cbn in H; try done; [by exists c, o|..]; rewrite lookup_empty in H; done.
Qed.

End Await.
