(* ===== verification/PgValue.v ===== *)
(** * PgValue: values, results and parameters of PostgreSQL queries
    ([src/db/postgres/db_value.h], [db_result.h], the conversions of [pg_connection.cpp] and of
    [register_postgresql.cpp])

    A result of libpq is copied into a [DbResult]; parameters go to libpq as text; scripts get
    and give Lua values.  [None] stands for an exception or for the reading of a member of the
    union that was not written (undefined in C++).  Texts that libpq gives or takes are C
    strings: they end before the first zero byte. *)

From S2P Require Import Prelude Decimal.

(** The rounding of a [double] to a [float]; floats are the doubles it gives. *)
Class Float `{Double} := to_float : double -> double.

Module PgValue.

(** ** Values *)

Inductive DbFieldType :=
  | NULL_TYPE | BOOL | INT8 | INT16 | INT32 | INT64 | UINT64 | FLOAT | DOUBLE | NUMERIC
  | STRING | BLOB | DATE | TIME | TIMESTAMP | TIMESTAMPTZ | INTERVAL | UUID | JSON | INET
  | MACADDR | GEOMETRY | TSVECTOR | RANGE | PG_LSN | XML | ARRAY | MONEY | BIT.

#[global] Instance DbFieldType_eq_dec : EqDecision DbFieldType.
Proof. solve_decision. Defined.

Definition DbFieldTypeName (t : DbFieldType) : bytes :=
  match t with
  | NULL_TYPE => text "NULL"
  | BOOL => text "BOOL"
  | INT8 => text "INT8"
  | INT16 => text "INT16"
  | INT32 => text "INT32"
  | INT64 => text "INT64"
  | UINT64 => text "UINT64"
  | FLOAT => text "FLOAT"
  | DOUBLE => text "DOUBLE"
  | NUMERIC => text "NUMERIC"
  | STRING => text "STRING"
  | BLOB => text "BLOB"
  | DATE => text "DATE"
  | TIME => text "TIME"
  | TIMESTAMP => text "TIMESTAMP"
  | TIMESTAMPTZ => text "TIMESTAMPTZ"
  | INTERVAL => text "INTERVAL"
  | UUID => text "UUID"
  | JSON => text "JSON"
  | INET => text "INET"
  | MACADDR => text "MACADDR"
  | GEOMETRY => text "GEOMETRY"
  | TSVECTOR => text "TSVECTOR"
  | RANGE => text "RANGE"
  | PG_LSN => text "PG_LSN"
  | XML => text "XML"
  | ARRAY => text "ARRAY"
  | MONEY => text "MONEY"
  | BIT => text "BIT"
  end.

Section WithDouble.
Context `{D : Double, F : !Float}.

(** The anonymous union of [DbValue], by the member that was written. *)
Inductive member :=
  | no_val
  | bool_val_ (b : bool)
  | int8_val_ (n : Z)
  | int16_val_ (n : Z)
  | int32_val_ (n : Z)
  | int64_val_ (n : Z)
  | uint64_val_ (n : Z)
  | float_val_ (d : double)
  | double_val_ (d : double).

Record DbValue := mkValue { type_ : DbFieldType; val_ : member; str_val_ : bytes }.

(** The constructors. *)
Definition of_null : DbValue := mkValue NULL_TYPE no_val [].
Definition of_bool (v : bool) : DbValue := mkValue BOOL (bool_val_ v) [].
Definition of_int8 (v : Z) : DbValue := mkValue INT8 (int8_val_ v) [].
Definition of_int16 (v : Z) : DbValue := mkValue INT16 (int16_val_ v) [].
Definition of_int32 (v : Z) : DbValue := mkValue INT32 (int32_val_ v) [].
Definition of_int64 (v : Z) : DbValue := mkValue INT64 (int64_val_ v) [].
Definition of_uint64 (v : Z) : DbValue := mkValue UINT64 (uint64_val_ v) [].
Definition of_float (v : double) : DbValue := mkValue FLOAT (float_val_ v) [].
Definition of_double (v : double) : DbValue := mkValue DOUBLE (double_val_ v) [].
Definition of_string (v : bytes) : DbValue := mkValue STRING no_val v.
Definition of_tagged (v : bytes) (t : DbFieldType) : DbValue := mkValue t no_val v.

Definition is_null (v : DbValue) : bool := bool_decide (type_ v = NULL_TYPE).

(** The accessors. *)
Definition as_bool (v : DbValue) : option bool := match val_ v with bool_val_ b => Some b | _ => None end.
Definition as_int8 (v : DbValue) : option Z := match val_ v with int8_val_ n => Some n | _ => None end.
Definition as_int16 (v : DbValue) : option Z := match val_ v with int16_val_ n => Some n | _ => None end.
Definition as_int32 (v : DbValue) : option Z := match val_ v with int32_val_ n => Some n | _ => None end.
Definition as_int64 (v : DbValue) : option Z := match val_ v with int64_val_ n => Some n | _ => None end.
Definition as_uint64 (v : DbValue) : option Z := match val_ v with uint64_val_ n => Some n | _ => None end.
Definition as_float (v : DbValue) : option double := match val_ v with float_val_ d => Some d | _ => None end.
Definition as_double (v : DbValue) : option double := match val_ v with double_val_ d => Some d | _ => None end.
Definition as_string (v : DbValue) : bytes := str_val_ v.

(** ** Results *)

Record DbError := mkError { code : Z; message : bytes }.

Record DbField := mkField { name_ : bytes; value_ : DbValue }.

(** A row is the vector of its fields. *)
Definition DbRow := list DbField.

Definition field_count (r : DbRow) : Z := Z.of_nat (length r).

(** [fields_.at(idx)]: [None] is [std::out_of_range]. *)
Definition row_at (r : DbRow) (idx : Z) : option DbField := if idx <? 0 then None else r !! Z.to_nat idx.

(** The first field of that name, or one without name and value. *)
Fixpoint row_named (r : DbRow) (name : bytes) : DbField :=
  match r with
  | f :: r => if decide (name_ f = name) then f else row_named r name
  | [] => mkField [] of_null
  end.

Record DbResult := mkResult {
  is_ok_ : bool;
  error_ : DbError;
  affected_ : Z;
  insert_id_ : Z;
  rows_ : list DbRow;
  row_cursor_ : Z;
  col_count_ : Z }.

Definition Rows (rows : list DbRow) (col_count : Z) : DbResult :=
  mkResult true (mkError 0 []) 0 0 rows 0 (u32 col_count).

Definition AffectedRows (affected insert_id : Z) : DbResult :=
  mkResult true (mkError 0 []) affected insert_id [] 0 0.

Definition Error (msg : bytes) (code : Z) : DbResult := mkResult false (mkError code msg) 0 0 [] 0 0.

Definition is_error (r : DbResult) : bool := negb (is_ok_ r).
Definition rows_count (r : DbResult) : Z := Z.of_nat (length (rows_ r)).

Definition has_next (r : DbResult) : bool := row_cursor_ r <? rows_count r.

Definition next (r : DbResult) : DbRow * DbResult :=
  match rows_ r !! Z.to_nat (row_cursor_ r) with
  | Some row =>
      (row, mkResult (is_ok_ r) (error_ r) (affected_ r) (insert_id_ r) (rows_ r) (row_cursor_ r + 1) (col_count_ r))
  | None => ([], r)
  end.

(** ** From libpq *)

(** [PGresult], as its accessors show it; a cell is [None] when [PQgetisnull]. *)
Inductive ExecStatus := PGRES_EMPTY_QUERY | PGRES_COMMAND_OK | PGRES_TUPLES_OK | PGRES_OTHER (s : Z).

Record PGresult := mkPGresult {
  PQresultStatus : ExecStatus;
  columns : list (bytes * Z);            (* name and type of each column *)
  tuples : list (list (option bytes));
  PQcmdTuples : bytes;
  PQoidValue : Z;
  PQresultErrorMessage : bytes }.

Definition status_code (s : ExecStatus) : Z :=
  match s with PGRES_EMPTY_QUERY => 0 | PGRES_COMMAND_OK => 1 | PGRES_TUPLES_OK => 2 | PGRES_OTHER s => s end.

Definition atoll (s : bytes) : Z := default 0 (strtoll s).
Definition atof (s : bytes) : double := default d_zero (strtod s).

Definition ToDbValue (value : option bytes) (type_oid : Z) : DbValue :=
  match value with
  | None => of_null
  | Some value =>
      if type_oid =? 16 then of_bool (match value with c :: _ => c =? 116 | [] => false end)
      else if (type_oid =? 20) || (type_oid =? 21) || (type_oid =? 23) then of_int64 (atoll value)
      else if type_oid =? 700 then of_float (to_float (atof value))
      else if type_oid =? 701 then of_double (atof value)
      else of_string value
  end.

Definition row_fields (cols : list (bytes * Z)) (cells : list (option bytes)) : DbRow :=
  zip_with (fun col cell => mkField (fst col)
              (match cell with None => of_null | Some v => ToDbValue (Some v) (snd col) end)) cols cells.

(** [InvalidOid] is 0; [None]: [std::stoull] throws. *)
Definition ParseResult (res : PGresult) : option DbResult :=
  match PQresultStatus res with
  | PGRES_TUPLES_OK => Some (Rows (List.map (row_fields (columns res)) (tuples res)) (Z.of_nat (length (columns res))))
  | PGRES_COMMAND_OK =>
      affected ← match PQcmdTuples res with [] => Some 0 | s => stoul s end;
      Some (AffectedRows affected (if PQoidValue res =? 0 then 0 else PQoidValue res))
  | s => Some (Error (PQresultErrorMessage res) (status_code s))
  end.

(** ** Parameters *)

(** What libpq reads of a pointer to the characters of a [std::string]. *)
Fixpoint c_string (s : bytes) : bytes :=
  match s with c :: r => if c =? 0 then [] else c :: c_string r | [] => [] end.

(** The text pushed for a value that is not null. *)
Definition param_text (p : DbValue) : option bytes :=
  match type_ p with
  | BOOL => b ← as_bool p; Some (text (if b : bool then "t" else "f"))
  | INT8 => n ← as_int8 p; Some (signed_string n)
  | INT16 => n ← as_int16 p; Some (signed_string n)
  | INT32 => n ← as_int32 p; Some (signed_string n)
  | INT64 => n ← as_int64 p; Some (signed_string n)
  | UINT64 => n ← as_uint64 p; Some (to_string n)
  | FLOAT => d ← as_float p; Some (d_to_string d)
  | DOUBLE => d ← as_double p; Some (d_to_string d)
  | STRING => Some (as_string p)
  | _ => Some []
  end.

(** An entry of [values], [lengths] and [formats]. *)
Record param := mkParam { value : option bytes; plen : Z; format : Z }.

Definition convert_param (p : DbValue) : option param :=
  if is_null p then Some (mkParam None 0 0)
  else s ← param_text p; Some (mkParam (Some (c_string s)) (i32 (Z.of_nat (length s))) 0).

Definition convert_params (ps : list DbValue) : option (list param) := mapM convert_param ps.

(** ** Connection string *)

Record DbConfig := mkConfig {
  host : bytes; port : Z; user : bytes; password : bytes; database : bytes;
  use_ssl : bool; connect_timeout_sec : Z }.

Definition DefaultPort : Z := 5432.

Definition BuildConnString (cfg : DbConfig) : bytes :=
  text "host=" ++ host cfg
  ++ text " port=" ++ signed_string (if 0 <? port cfg then port cfg else DefaultPort)
  ++ text " user=" ++ user cfg
  ++ text " password=" ++ password cfg
  ++ text " dbname=" ++ database cfg
  ++ text " connect_timeout=" ++ signed_string (connect_timeout_sec cfg)
  ++ text (if use_ssl cfg then " sslmode=require" else " sslmode=disable").

(** ** Lua *)

(** A value of a script; [LOther] is any other one, with what [tostring] gives for it. *)
Inductive lua_value := LNil | LBool (b : bool) | LInt (n : Z) | LNum (d : double) | LStr (s : bytes) | LOther (tostring : bytes).

Definition LuaValueToDbValue (obj : lua_value) : DbValue :=
  match obj with
  | LNil => of_null
  | LBool b => of_bool b
  | LInt n => of_int64 n
  | LNum d => of_double d
  | LStr s => of_string s
  | LOther s => of_string s
  end.

Definition DbValueToLua (v : DbValue) : option lua_value :=
  if is_null v then Some LNil
  else match type_ v with
       | BOOL => b ← as_bool v; Some (LBool b)
       | INT8 | INT16 | INT32 | INT64 => n ← as_int64 v; Some (LInt n)
       | UINT64 => n ← as_uint64 v; Some (LNum (d_of_int n))
       | FLOAT => d ← as_float v; Some (LNum d)
       | DOUBLE => d ← as_double v; Some (LNum d)
       | _ => Some (LStr (as_string v))
       end.

(** A row as a table: an assignment of nil removes the key, a later column of the same name
    replaces an earlier one. *)
Abbreviation lua_row := (gmap bytes lua_value).

Definition set_field (row : lua_row) (name : bytes) (v : lua_value) : lua_row :=
  match v with LNil => delete name row | _ => <[name := v]> row end.

Fixpoint row_to_lua (db_row : DbRow) (row : lua_row) : option lua_row :=
  match db_row with
  | f :: r => v ← DbValueToLua (value_ f); row_to_lua r (set_field row (name_ f) v)
  | [] => Some row
  end.

(** [result[i + 1] = row] for the rows that [next] gives; [n] rounds are left. *)
Fixpoint rows_to_lua (n : nat) (r : DbResult) : option (list lua_row) :=
  match n with
  | O => Some []
  | S n => let '(db_row, r) := next r in
           row ← row_to_lua db_row ∅; rest ← rows_to_lua n r; Some (row :: rest)
  end.

(** Nil for an error, else the array of rows. *)
Inductive lua_result := LNoRows | LRows (rows : list lua_row).

Definition DbResultToLua (r : DbResult) : option lua_result :=
  if is_error r then Some LNoRows
  else if rows_count r =? 0 then Some (LRows [])
  else l ← rows_to_lua (length (rows_ r)) r; Some (LRows l).

(** ** Values are what their type says *)

Definition value_ok (v : DbValue) : Prop :=
  match type_ v, val_ v with
  | BOOL, bool_val_ _ => True
  | INT8, int8_val_ n => in_s 8 n
  | INT16, int16_val_ n => in_s 16 n
  | INT32, int32_val_ n => in_s 32 n
  | INT64, int64_val_ n => in_s 64 n
  | UINT64, uint64_val_ n => in_u 64 n
  | FLOAT, float_val_ _ | DOUBLE, double_val_ _ => True
  | (BOOL | INT8 | INT16 | INT32 | INT64 | UINT64 | FLOAT | DOUBLE), _ => False
  | _, _ => True
  end.

(** What comes from libpq: of the integers only [INT64], whose accessor scripts use. *)
Definition wide (v : DbValue) : Prop := type_ v <> INT8 /\ type_ v <> INT16 /\ type_ v <> INT32.

Lemma atoll_range s : in_s 64 (atoll s).
Proof. unfold atoll. destruct (strtoll s) eqn:E; simpl; [by eapply strtoll_range|unfold in_s; lia]. Qed.

Lemma ToDbValue_ok v oid : value_ok (ToDbValue v oid) /\ wide (ToDbValue v oid).
Proof.
  destruct v as [v|]; [|done]. unfold ToDbValue.
  repeat case_match; split; try done. apply atoll_range.
Qed.

Lemma DbValueToLua_total v : value_ok v -> wide v -> exists l, DbValueToLua v = Some l.
Proof.
  intros Hok (H8 & H16 & H32). unfold DbValueToLua, is_null, value_ok in *.
  destruct v as [t m s]; simpl in *. destruct t; simpl; try done; try (by eexists);
    destruct m; simpl in *; try done; by eexists.
Qed.

Lemma convert_param_total v : value_ok v -> exists q, convert_param v = Some q.
Proof.
  intros Hok. unfold convert_param, is_null, param_text, value_ok in *.
  destruct v as [t m s]; simpl in *. destruct t; simpl; try (by eexists);
    destruct m; simpl in *; try done; by eexists.
Qed.

Lemma convert_params_total ps : Forall value_ok ps -> exists qs, convert_params ps = Some qs.
Proof.
  induction 1 as [|v ps Hv _ [qs IH]]; [by exists []|].
  destruct (convert_param_total v Hv) as [q Hq]. exists (q :: qs).
  unfold convert_params in *. simpl. by rewrite Hq, IH.
Qed.

Lemma LuaValueToDbValue_ok obj : (forall n, obj = LInt n -> in_s 64 n) -> value_ok (LuaValueToDbValue obj).
Proof. destruct obj; simpl; try done. intros H. by apply H. Qed.

(** ** Parameters survive *)

Lemma c_string_id s : Forall (fun c => c <> 0) s -> c_string s = s.
Proof. induction 1 as [|c r Hc _ IH]; [done|]. simpl. rewrite (proj2 (Z.eqb_neq c 0)) by done. by rewrite IH. Qed.

Lemma c_string_cut s r : Forall (fun c => c <> 0) s -> c_string (s ++ 0 :: r) = s.
Proof. induction 1 as [|c s Hc _ IH]; [done|]. simpl. rewrite (proj2 (Z.eqb_neq c 0)) by done. by rewrite IH. Qed.

Lemma signed_string_nonzero n : in_s 64 n -> Forall (fun c => c <> 0) (signed_string n).
Proof.
  intros H. unfold in_s in H. unfold signed_string. destruct (Z.ltb_spec n 0).
  - destruct (to_string_spec (- n)) as (_ & Hd & _); [unfold in_u; lia|].
    constructor; [lia|]. eapply Forall_impl; [exact Hd|]. simpl. lia.
  - destruct (to_string_spec n) as (_ & Hd & _); [unfold in_u; lia|].
    eapply Forall_impl; [exact Hd|]. simpl. lia.
Qed.

(** The text libpq gets for a parameter. *)
Definition sent (v : DbValue) : option (option bytes) := q ← convert_param v; Some (value q).

Lemma sent_int64 n : in_s 64 n -> sent (of_int64 n) = Some (Some (signed_string n)).
Proof. intros H. unfold sent, convert_param, param_text. simpl. by rewrite c_string_id by by apply signed_string_nonzero. Qed.

Lemma sent_narrow n :
  (in_s 8 n -> sent (of_int8 n) = Some (Some (signed_string n))) /\
  (in_s 16 n -> sent (of_int16 n) = Some (Some (signed_string n))) /\
  (in_s 32 n -> sent (of_int32 n) = Some (Some (signed_string n))).
Proof.
  unfold sent, convert_param, param_text, in_s. simpl.
  splits; intros H; (rewrite c_string_id; [done|]); apply signed_string_nonzero; unfold in_s; lia.
Qed.

Lemma ToDbValue_int oid n : oid ∈ [20; 21; 23] -> in_s 64 n -> ToDbValue (Some (signed_string n)) oid = of_int64 n.
Proof.
  intros Ho Hn. unfold ToDbValue, atoll. rewrite (strtoll_signed_string n Hn).
  repeat (apply elem_of_cons in Ho as [->|Ho]; [done|]). by apply elem_of_nil in Ho.
Qed.

(** A value sent as a parameter comes back as itself when the server echoes its text in a
    column of a matching type: integers of every width (widened to 64 bits), booleans, and
    texts up to their first zero byte; null is sent as null and comes back as null. *)
Theorem params_round_trip (n : Z) (b : bool) (s r : bytes) (oid : Z) :
  in_s 64 n -> Forall (fun c => c <> 0) s -> oid ∈ [20; 21; 23] ->
  (forall v, v = of_int64 n \/ (v = of_int32 n /\ in_s 32 n) \/ (v = of_int16 n /\ in_s 16 n) \/ (v = of_int8 n /\ in_s 8 n) ->
     exists t, sent v = Some t /\ ToDbValue t oid = of_int64 n) /\
  (exists t, sent (of_bool b) = Some t /\ ToDbValue t 16 = of_bool b) /\
  (exists t, sent (of_string s) = Some t /\ ToDbValue t 25 = of_string s) /\
  (exists t, sent (of_string (s ++ 0 :: r)) = Some t /\ ToDbValue t 25 = of_string s) /\
  (exists t, sent of_null = Some t /\ ToDbValue t oid = of_null).
Proof.
  intros Hn Hs Ho. destruct (sent_narrow n) as (H8 & H16 & H32). splits.
  - intros v Hv. exists (Some (signed_string n)). split; [|by apply ToDbValue_int].
    destruct Hv as [->|[[-> H]|[[-> H]|[-> H]]]]; eauto using sent_int64.
  - exists (Some (text (if b then "t" else "f"))). by destruct b.
  - exists (Some s). unfold sent, convert_param, param_text. simpl. by rewrite c_string_id.
  - exists (Some s). unfold sent, convert_param, param_text. simpl. by rewrite c_string_cut.
  - by exists None.
Qed.

(** A value with one of the other type tags (a date, a UUID, a numeric, ...) is sent as the
    empty text, whatever it holds. *)
Theorem tagged_param_is_lost (s : bytes) (t : DbFieldType) :
  t ∉ [NULL_TYPE; BOOL; INT8; INT16; INT32; INT64; UINT64; FLOAT; DOUBLE; STRING] ->
  sent (of_tagged s t) = Some (Some []).
Proof. intros Ht. destruct t; try done; exfalso; apply Ht; set_solver. Qed.

(** ** Rows reach the script *)

(** The value of a cell, and the value of a column for the script: the last column of that
    name counts; null is no value. *)
Definition cell_value (col : bytes * Z) (cell : option bytes) : option lua_value := DbValueToLua (ToDbValue cell (snd col)).

Definition not_nil (v : option lua_value) : option lua_value :=
  match v with Some LNil => None | v => v end.

Fixpoint last_named (cols : list (bytes * Z)) (cells : list (option bytes)) (name : bytes) (acc : option lua_value) : option lua_value :=
  match cols, cells with
  | col :: cols, cell :: cells =>
      last_named cols cells name (if decide (fst col = name) then not_nil (cell_value col cell) else acc)
  | _, _ => acc
  end.

Lemma row_fields_cons col cols cell cells :
  row_fields (col :: cols) (cell :: cells) = mkField (fst col) (ToDbValue cell (snd col)) :: row_fields cols cells.
Proof. by destruct cell. Qed.

Lemma lookup_set_field row n v name :
  set_field row n v !! name = if decide (n = name) then not_nil (Some v) else row !! name.
Proof. destruct v; simpl; rewrite ?lookup_insert, ?lookup_delete; try done; by case_decide. Qed.

Lemma row_to_lua_spec cols cells row :
  exists row', row_to_lua (row_fields cols cells) row = Some row' /\
    forall name, row' !! name = last_named cols cells name (row !! name).
Proof.
  revert cells row. induction cols as [|col cols IH]; intros cells row; [by exists row|].
  destruct cells as [|cell cells]; [by exists row|]. rewrite row_fields_cons. cbn [row_to_lua value_ name_].
  destruct (ToDbValue_ok cell (snd col)) as [Hok Hw]. destruct (DbValueToLua_total _ Hok Hw) as [v Hv].
  rewrite Hv. cbn [mbind option_bind]. destruct (IH cells (set_field row (fst col) v)) as (row' & E & H).
  exists row'. split; [done|]. intros name. rewrite H, lookup_set_field. cbn [last_named].
  unfold cell_value. by rewrite Hv.
Qed.

(** [next] gives the rows from the cursor on, then empty rows. *)
Lemma next_row r row : row_cursor_ r >= 0 -> rows_ r !! Z.to_nat (row_cursor_ r) = Some row ->
  fst (next r) = row /\ rows_ (snd (next r)) = rows_ r /\ row_cursor_ (snd (next r)) = row_cursor_ r + 1.
Proof. intros _ H. unfold next. by rewrite H. Qed.

Lemma next_end r : has_next r = false -> 0 <= row_cursor_ r -> next r = ([], r).
Proof.
  unfold has_next, rows_count, next. intros H H0. rewrite (lookup_ge_None_2 (rows_ r)); [done|lia].
Qed.

Lemma rows_to_lua_spec n r cols cells :
  0 <= row_cursor_ r -> rows_ r = List.map (row_fields cols) cells ->
  Z.of_nat n + row_cursor_ r <= Z.of_nat (length cells) ->
  exists l, rows_to_lua n r = Some l /\ length l = n /\
    forall i cs, (i < n)%nat -> cells !! (Z.to_nat (row_cursor_ r) + i)%nat = Some cs ->
      exists row, l !! i = Some row /\ forall name, row !! name = last_named cols cs name None.
Proof.
  revert r. induction n as [|n IH]; intros r H0 Hr Hn; [exists []; splits; [done|done|intros; lia]|].
  destruct (lookup_lt_is_Some_2 cells (Z.to_nat (row_cursor_ r))) as [cs Hcs]; [lia|].
  assert (rows_ r !! Z.to_nat (row_cursor_ r) = Some (row_fields cols cs)) as Hrow.
  { rewrite Hr, list_lookup_fmap, Hcs. done. }
  pose proof (next_row r _ ltac:(lia) Hrow) as (E1 & E2 & E3). cbn [rows_to_lua].
  destruct (next r) as [db_row r'] eqn:En. cbn [fst snd] in *. subst db_row.
  destruct (row_to_lua_spec cols cs ∅) as (row & Erow & Hrow'). rewrite Erow. cbn [mbind option_bind].
  destruct (IH r') as (l & El & Hl & Hi); [lia|congruence|lia|]. rewrite El. cbn [mbind option_bind].
  exists (row :: l). splits; [done|by simpl; f_equal|]. intros [|i] cs' Hlt Hc.
  - rewrite Nat.add_0_r in Hc. simplify_eq. exists row. split; [done|]. intros name. by rewrite Hrow', lookup_empty.
  - apply Hi; [lia|]. rewrite <- Hc. f_equal. lia.
Qed.

Lemma DbResultToLua_rows r l : is_ok_ r = true -> rows_to_lua (length (rows_ r)) r = Some l -> length l = length (rows_ r) ->
  DbResultToLua r = Some (LRows l).
Proof.
  intros Hok El Hl. unfold DbResultToLua, is_error, rows_count. rewrite Hok, El. cbn [negb].
  destruct (Z.eqb_spec (Z.of_nat (length (rows_ r))) 0) as [H|H]; [|done].
  destruct l as [|x l]; [done|]. cbn [length] in Hl. lia.
Qed.


(** ** Errors *)

(** What the server reports is an error for the caller, an empty query too, whose message is
    empty. *)
Lemma ParseResult_error res : PQresultStatus res <> PGRES_TUPLES_OK -> PQresultStatus res <> PGRES_COMMAND_OK ->
  ParseResult res = Some (Error (PQresultErrorMessage res) (status_code (PQresultStatus res))).
Proof. unfold ParseResult. by destruct (PQresultStatus res). Qed.

(** The count libpq gives of a command is read whole when it is a 64-bit number. *)
Lemma ParseResult_count res n : PQresultStatus res = PGRES_COMMAND_OK -> in_u 64 n -> PQcmdTuples res = to_string n ->
  ParseResult res = Some (AffectedRows n (PQoidValue res)).
Proof.
  intros Hs Hn Ht. unfold ParseResult. rewrite Hs, Ht. destruct (to_string_spec n Hn) as (Hne & _ & Hv).
  destruct (to_string n) eqn:E; [done|]. rewrite Hv. cbn [mbind option_bind]. by destruct (Z.eqb_spec (PQoidValue res) 0) as [->|].
Qed.

End WithDouble.

(** ** The connection string as libpq reads it *)

(** A character that needs no quotes in a value. *)
Definition plain_char (c : Z) : bool := negb (is_space c) && negb (c =? 39) && negb (c =? 92).
Definition plain_value (v : bytes) : bool := negb (bool_decide (v = [])) && forallb plain_char v.
Definition plain_key (k : bytes) : bool := negb (bool_decide (k = [])) && forallb (fun c => plain_char c && negb (c =? 61)) k.

(** A setting [key=value] with [blanks] spaces after the equal sign. *)
Definition setting : Type := bytes * nat * bytes.
Definition setting_text (x : setting) : bytes :=
  let '(k, blanks, v) := x in k ++ 61 :: replicate blanks 32 ++ v.
Definition plain (x : setting) : bool := let '(k, _, v) := x in plain_key k && plain_value v.

Fixpoint settings_text (l : list setting) : bytes :=
  match l with
  | [] => []
  | x :: r => setting_text x ++ match r with [] => [] | _ => 32 :: settings_text r end
  end.

Definition pair_of (x : setting) : bytes * bytes := let '(k, _, v) := x in (k, v).

(** The rule of libpq for a string of [key = value]: spaces around the equal sign are optional, a
    value without quotes ends at the next space. *)
Definition reads_settings (conninfo : bytes -> option (list (bytes * bytes))) : Prop :=
  forall l, forallb plain l = true -> conninfo (settings_text l) = Some (List.map pair_of l).

(** The settings [BuildConnString] writes. *)
Definition intended (cfg : DbConfig) : list (bytes * bytes) :=
  [(text "host", host cfg);
   (text "port", signed_string (if 0 <? port cfg then port cfg else DefaultPort));
   (text "user", user cfg); (text "password", password cfg); (text "dbname", database cfg);
   (text "connect_timeout", signed_string (connect_timeout_sec cfg));
   (text "sslmode", text (if use_ssl cfg then "require" else "disable"))].

Lemma forallb_Forall_true {A} (f : A -> bool) l : Forall (fun x => f x = true) l -> forallb f l = true.
Proof. induction 1; simpl; [done|]. by apply andb_true_intro. Qed.

Lemma signed_string_plain n : in_s 64 n -> plain_value (signed_string n) = true.
Proof.
  intros H. unfold in_s in H. unfold plain_value. apply andb_true_intro.
  assert (forall m, 0 <= m <= 2 ^ 63 -> to_string m <> [] /\ forallb plain_char (to_string m) = true) as Hd.
  { intros m Hm. destruct (to_string_spec m) as (Hne & Hd & _); [unfold in_u; lia|]. split; [done|].
    apply forallb_Forall_true. eapply Forall_impl; [exact Hd|]. intros c Hc. simpl in Hc.
    unfold plain_char, is_space. lia. }
  unfold signed_string. destruct (Z.ltb_spec n 0).
  - destruct (Hd (- n)) as [_ Hp]; [lia|]. split; [done|]. exact Hp.
  - destruct (Hd n) as [Hne Hp]; [lia|]. split; [by rewrite bool_decide_eq_false_2|done].
Qed.

Lemma plain_value_app a b : forallb plain_char a = true -> plain_value b = true -> plain_value (a ++ b) = true.
Proof.
  unfold plain_value. intros Ha Hb. apply andb_prop in Hb as [Hne Hb]. rewrite forallb_app, Ha, Hb, andb_true_r.
  rewrite negb_true_iff, bool_decide_eq_false in Hne |- *. intros E. by apply app_nil in E as [_ E].
Qed.

(** Libpq reads from the connection string the settings of the configuration when every one
    is a plain text; an empty password makes it read the name of the database as the password,
    and no database. *)
Theorem conn_string_needs_values (conninfo : bytes -> option (list (bytes * bytes))) (cfg : DbConfig) :
  reads_settings conninfo ->
  plain_value (host cfg) = true -> plain_value (user cfg) = true -> plain_value (database cfg) = true ->
  in_u 16 (port cfg) -> in_s 32 (connect_timeout_sec cfg) ->
  (plain_value (password cfg) = true -> conninfo (BuildConnString cfg) = Some (intended cfg)) /\
  (password cfg = [] ->
     exists l, conninfo (BuildConnString cfg) = Some l /\
       (text "password", text "dbname=" ++ database cfg) ∈ l /\
       forall v, (text "dbname", v) ∉ l).
Proof.
  intros Hr Hh Hu Hd Hp Ht. unfold in_u, in_s in Hp, Ht.
  set (p := signed_string (if 0 <? port cfg then port cfg else DefaultPort)).
  set (t := signed_string (connect_timeout_sec cfg)).
  set (m := text (if use_ssl cfg then "require" else "disable")).
  assert (plain_value p = true) as Hp'.
  { apply signed_string_plain. unfold in_s, DefaultPort. destruct (0 <? port cfg); lia. }
  assert (plain_value t = true) as Ht' by (apply signed_string_plain; unfold in_s; lia).
  assert (plain_value m = true) as Hm by (unfold m; by destruct (use_ssl cfg)).
  pose (first := [(text "host", 0%nat, host cfg); (text "port", 0%nat, p); (text "user", 0%nat, user cfg)]).
  pose (rest := [(text "connect_timeout", 0%nat, t); (text "sslmode", 0%nat, m)]).
  split.
  - intros Hw. pose (l := first ++ [(text "password", 0%nat, password cfg); (text "dbname", 0%nat, database cfg)] ++ rest).
    assert (BuildConnString cfg = settings_text l) as ->.
    { unfold BuildConnString, l, first, rest, m. simpl. destruct (use_ssl cfg); simplify_list_eq; done. }
    rewrite Hr; [done|]. unfold l, first, rest, plain. cbn [forallb app].
    by rewrite Hh, Hp', Hu, Hw, Hd, Ht', Hm.
  - intros Hw. pose (l := first ++ [(text "password", 1%nat, text "dbname=" ++ database cfg)] ++ rest).
    assert (BuildConnString cfg = settings_text l) as ->.
    { unfold BuildConnString, l, first, rest, m. rewrite Hw. simpl. destruct (use_ssl cfg); simplify_list_eq; done. }
    exists (List.map pair_of l). splits.
    + apply Hr. unfold l, first, rest, plain. cbn [forallb app].
      by rewrite Hh, Hp', Hu, Ht', Hm, plain_value_app.
    + simpl. set_solver.
    + intros v. simpl. rewrite !not_elem_of_cons. splits; try discriminate. apply not_elem_of_nil.
Qed.

(** ** Witnesses *)

(** A reader of settings without quotes. *)
Fixpoint span (p : Z -> bool) (l : bytes) : bytes * bytes :=
  match l with
  | c :: r => if p c then let '(a, b) := span p r in (c :: a, b) else ([], l)
  | [] => ([], [])
  end.

Fixpoint read_settings (fuel : nat) (l : bytes) : option (list (bytes * bytes)) :=
  match skip_spaces l, fuel with
  | [], _ => Some []
  | _, O => None
  | l, S fuel =>
      match span (fun c => negb (c =? 61)) l with
      | (k, _ :: r) =>
          let '(v, r) := span (fun c => negb (is_space c)) (skip_spaces r) in
          rest ← read_settings fuel r; Some ((k, v) :: rest)
      | (_, []) => None
      end
  end.

Definition conninfo_plain (l : bytes) : option (list (bytes * bytes)) := read_settings (length l) l.

Lemma span_all p a r : forallb p a = true -> match r with c :: _ => p c = false | [] => True end -> span p (a ++ r) = (a, r).
Proof.
  revert r. induction a as [|c a IH]; simpl; intros r Ha Hr.
  - destruct r as [|c r]; [done|]. simpl. by rewrite Hr.
  - apply andb_prop in Ha as [-> Ha]. by rewrite IH.
Qed.

Lemma skip_spaces_replicate n l : skip_spaces (replicate n 32 ++ l) = skip_spaces l.
Proof. by induction n. Qed.

Lemma skip_spaces_plain (f : Z -> bool) v r : (forall c, f c = true -> is_space c = false) ->
  v <> [] -> forallb f v = true -> skip_spaces (v ++ r) = v ++ r.
Proof.
  intros Hf Hne Hv. destruct v as [|c v]; [done|]. simpl in *. apply andb_prop in Hv as [Hc _].
  by rewrite (Hf c Hc).
Qed.

Lemma forallb_weaken (f g : Z -> bool) l : (forall c, f c = true -> g c = true) -> forallb f l = true -> forallb g l = true.
Proof. intros H. rewrite !forallb_forall. eauto. Qed.

Lemma plain_char_no_space c : plain_char c = true -> is_space c = false.
Proof. unfold plain_char. by destruct (is_space c). Qed.

Lemma key_char_no_space c : plain_char c && negb (c =? 61) = true -> is_space c = false.
Proof. intros H. apply andb_prop in H as [H _]. by apply plain_char_no_space. Qed.

Lemma conninfo_plain_reads : reads_settings conninfo_plain.
Proof.
  intros l Hl. unfold conninfo_plain.
  assert (forall fuel, (length l <= fuel)%nat -> forall pre, (pre <= 1)%nat ->
    read_settings fuel (replicate pre 32 ++ settings_text l) = Some (List.map pair_of l)) as H.
  { induction l as [|[[k b] v] l IH]; intros fuel Hf pre Hpre.
    - destruct pre as [|[|pre]]; [by destruct fuel..|lia].
    - simpl in Hl. apply andb_prop in Hl as [Hx Hl]. specialize (IH Hl).
      apply andb_prop in Hx as [Hk Hv]. unfold plain_key, plain_value in *.
      apply andb_prop in Hk as [Hk1 Hk2], Hv as [Hv1 Hv2].
      rewrite negb_true_iff, bool_decide_eq_false in Hk1, Hv1.
      destruct fuel as [|fuel]; [simpl in Hf; lia|]. cbn [read_settings settings_text setting_text].
      rewrite skip_spaces_replicate, <- !app_assoc.
      rewrite (skip_spaces_plain _ _ _ key_char_no_space Hk1 Hk2).
      cbn [app]. destruct (k ++ 61 :: _) as [|c0 r0] eqn:E; [by destruct k|]. rewrite <- E. clear c0 r0 E.
      rewrite span_all; [|eapply forallb_weaken; [|exact Hk2]; intros c Hc; by apply andb_prop in Hc as [_ Hc]|done].
      rewrite <- app_assoc, skip_spaces_replicate.
      rewrite (skip_spaces_plain _ _ _ plain_char_no_space Hv1 Hv2).
      rewrite span_all.
      2: { eapply forallb_weaken; [|exact Hv2]. intros c. unfold plain_char. by destruct (is_space c). }
      2: { by destruct l. }
      simpl in Hf. destruct l as [|y l].
      + by destruct fuel.
      + pose proof (IH fuel ltac:(lia) 1%nat ltac:(lia)) as IH'. cbn [replicate app] in IH'. by rewrite IH'. }
  apply (H _) with (pre := 0%nat); [|lia]. clear H. induction l as [|[[k b] v] l IH]; [simpl; lia|].
  simpl in *. apply andb_prop in Hl as [_ Hl]. specialize (IH Hl). destruct l; rewrite !length_app; simpl in *; lia.
Qed.

Definition sample_config : DbConfig := mkConfig (text "127.0.0.1") 0 (text "postgres") [] (text "test") false 5.

Lemma conn_string_needs_values_witness :
  reads_settings conninfo_plain /\ password sample_config = [] /\
  exists l, conninfo_plain (BuildConnString sample_config) = Some l /\ (text "password", text "dbname=test") ∈ l.
Proof.
  split; [exact conninfo_plain_reads|]. split; [reflexivity|].
  destruct (conn_string_needs_values conninfo_plain sample_config) as [_ H];
    [exact conninfo_plain_reads|reflexivity..|unfold in_u; simpl; lia|unfold in_s; simpl; lia|].
  destruct (H eq_refl) as (l & E & Hin & _). exists l. split; [exact E|exact Hin].
Defined.

(** Doubles that hold integers. *)
#[local] Instance int_double : Double := {|
  double := Z; d_zero := 0; d_one := 1; d_minus_one := -1; d_of_int := id; d_to_int := clamp64;
  strtod := strtoll; d_to_string := fun d => signed_string d ++ text ".000000";
|}.
#[local] Instance int_float : Float := id.

Lemma params_round_trip_witness :
  in_s 64 (-5) /\ exists t, sent (of_int32 (-5)) = Some t /\ ToDbValue t 23 = of_int64 (-5).
Proof.
  assert (in_s 64 (-5)) as Hn by (unfold in_s; lia). split; [exact Hn|].
  destruct (params_round_trip (-5) true (text "x") [] 23 Hn) as (H & _); [constructor; [discriminate|constructor]|set_solver|].
  apply (H (of_int32 (-5))). right. left. split; [reflexivity|unfold in_s; lia].
Defined.

Definition sample_rows : PGresult :=
  mkPGresult PGRES_TUPLES_OK [(text "id", 23); (text "name", 25); (text "id", 23)]
    [[Some (text "7"); None; Some (text "-8")]] (text "SELECT 1") 0 [].


End PgValue.
