(* ===== verification/PgConn.v ===== *)
(** * PgConn: the PostgreSQL connection ([src/db/postgres/pg_connection.cpp], [pg_connection.h])
    and its scripts ([register_postgresql.cpp])

    Everything here runs on the I/O thread of the connection, one task after the other: the
    operations that callers post, and the continuations of the waits on the socket.  At most
    one operation is under way, the others are in [pending_ops_].  libpq is the class [LibPQ]:
    its functions change the contents of a [PGconn], and what the network does to them between
    two tasks is the event [ENetwork].  [None] stands for an exception or for a loop that does
    not end. *)

From S2P Require Import Prelude Decimal PgValue.
Import PgValue.

(** What is sent: [PQsendQuery] or [PQsendQueryParams]. *)
Inductive request := SendQuery (sql : bytes) | SendQueryParams (sql : bytes) (params : list param).

(** libpq over the contents of a [PGconn]; [results_left] bounds the results that are left. *)
Class LibPQ := {
  pgconn : Type;
  PQstatus : pgconn -> bool;                        (* [CONNECTION_OK] *)
  PQsetnonblocking : pgconn -> pgconn;
  PQsend : request -> pgconn -> bool * pgconn;
  PQflush : pgconn -> Z * pgconn;
  PQconsumeInput : pgconn -> bool * pgconn;
  PQisBusy : pgconn -> bool;
  PQgetResult : pgconn -> option PGresult * pgconn;
  results_left : pgconn -> nat;
  PQerrorMessage : pgconn -> bytes;
  PQsocket : pgconn -> Z;
  null_message : bytes;                             (* the error message of a null [PGconn] *)
}.

Module PgConnection.
Section WithLibrary.
Context `{D : Double, F : !Float, L : LibPQ}.

(** ** State *)

(** What a caller's promise or callback gets. *)
Inductive answer := AResult (r : DbResult) | ACount (n : Z) | AOk (b : bool) | AUnit.

Record AsyncOp := mkOp {
  op_id : nat;
  send_fn : request;
  callback : DbResult -> answer;
  flushing : bool }.

(** [waiting]: the operation whose continuation waits for the socket.  [answers]: what each
    operation was answered; [connects]: what each [Connect], [Close] and [Reset] was. *)
Record connection := mkConnection {
  conn_ : option pgconn;
  config_ : DbConfig;
  connected_ : bool;
  pending_ops_ : list AsyncOp;
  op_active_ : bool;
  waiting : option AsyncOp;
  answers : list (nat * answer);
  connects : list (nat * answer) }.

Definition make (cfg : DbConfig) : connection := mkConnection None cfg false [] false None [] [].

Definition set_conn (c : option pgconn) (s : connection) : connection :=
  mkConnection c (config_ s) (connected_ s) (pending_ops_ s) (op_active_ s) (waiting s) (answers s) (connects s).

Definition set_queue (pending : list AsyncOp) (active : bool) (w : option AsyncOp) (s : connection) : connection :=
  mkConnection (conn_ s) (config_ s) (connected_ s) pending active w (answers s) (connects s).

(** [op->callback(result)]. *)
Definition answered (op : AsyncOp) (r : DbResult) (s : connection) : connection :=
  mkConnection (conn_ s) (config_ s) (connected_ s) (pending_ops_ s) (op_active_ s) (waiting s)
    (answers s ++ [(op_id op, callback op r)]) (connects s).

Definition connect_answered (id : nat) (a : answer) (s : connection) : connection :=
  mkConnection (conn_ s) (config_ s) (connected_ s) (pending_ops_ s) (op_active_ s) (waiting s)
    (answers s) (connects s ++ [(id, a)]).

(** ** The pipeline of one operation *)

(** The library on a pointer that may be null. *)
Definition flush (c : option pgconn) : Z * option pgconn :=
  match c with Some p => let '(z, p) := PQflush p in (z, Some p) | None => (-1, None) end.
Definition consume (c : option pgconn) : bool * option pgconn :=
  match c with Some p => let '(b, p) := PQconsumeInput p in (b, Some p) | None => (false, None) end.
Definition busy (c : option pgconn) : bool := match c with Some p => PQisBusy p | None => false end.
Definition error_message (c : option pgconn) : bytes :=
  match c with Some p => PQerrorMessage p | None => null_message end.

Definition error (msg : bytes) : DbResult := Error msg (-1).

(** The operation has its result, or waits for the socket. *)
Inductive outcome := Finished (r : DbResult) | Waits (flushing : bool).

(** [WrapPgSocket] gives null when there is no socket. *)
Definition WrapPgSocket (c : option pgconn) : option Z :=
  match c with Some p => if PQsocket p =? -1 then None else Some (PQsocket p) | None => None end.

Definition wait_socket (flushing : bool) (c : option pgconn) : outcome :=
  match WrapPgSocket c with Some _ => Waits flushing | None => Finished (error (text "PQsocket failed")) end.

(** What the next result makes of the final one. *)
Definition merge (final parsed : DbResult) : DbResult :=
  if is_ok_ parsed then parsed else if is_error final then parsed else final.

(** [while (PGresult* res = PQgetResult(conn_))]. *)
Fixpoint collect (fuel : nat) (p : pgconn) (final_result : DbResult) : option (DbResult * pgconn) :=
  match fuel with
  | O => None
  | S fuel =>
      match PQgetResult p with
      | (Some res, p) => parsed ← ParseResult res; collect fuel p (merge final_result parsed)
      | (None, p) => Some (final_result, p)
      end
  end.

Definition collect_phase (c : option pgconn) : option (outcome * option pgconn) :=
  match c with
  | Some p => '(r, p) ← collect (S (results_left p)) p (error (text "no result")); Some (Finished r, Some p)
  | None => Some (Finished (error (text "no result")), None)
  end.

Definition consume_phase (c : option pgconn) : option (outcome * option pgconn) :=
  let '(ok, c) := consume c in
  if negb ok then Some (Finished (error (error_message c)), c)
  else if busy c then Some (wait_socket false c, c)
  else collect_phase c.

Definition continue_op (flushing : bool) (c : option pgconn) : option (outcome * option pgconn) :=
  if flushing then
    let '(status, c) := flush c in
    if status =? -1 then Some (Finished (error (error_message c)), c)
    else if status =? 1 then Some (wait_socket true c, c)
    else consume_phase c
  else consume_phase c.

(** The part of [StartSend] once no other operation is under way. *)
Definition send_op (op : AsyncOp) (c : option pgconn) : option (outcome * option pgconn) :=
  match c with
  | Some p =>
      if negb (PQstatus p) then Some (Finished (error (text "Connection not available")), c)
      else
        let '(sent, p) := PQsend (send_fn op) p in
        if negb sent then Some (Finished (error (PQerrorMessage p)), Some p)
        else continue_op true (Some p)
  | None => Some (Finished (error (text "Connection not available")), c)
  end.

Definition with_flushing (f : bool) (op : AsyncOp) : AsyncOp := mkOp (op_id op) (send_fn op) (callback op) f.

(** [StartNext]: the pending operations are sent until one has to wait. *)
Fixpoint StartNext (pending : list AsyncOp) (s : connection) : option connection :=
  match pending with
  | [] => Some (set_queue [] false None s)
  | op :: rest =>
      '(o, c) ← send_op op (conn_ s);
      match o with
      | Waits f => Some (set_queue rest true (Some (with_flushing f op)) (set_conn c s))
      | Finished r => StartNext rest (answered op r (set_conn c s))
      end
  end.

(** The operation is answered and the next is started, or it waits. *)
Definition settle (op : AsyncOp) (x : outcome * option pgconn) (s : connection) : option connection :=
  let '(o, c) := x in
  match o with
  | Waits f => Some (set_queue (pending_ops_ s) true (Some (with_flushing f op)) (set_conn c s))
  | Finished r => StartNext (pending_ops_ s) (answered op r (set_conn c s))
  end.

Definition StartSend (op : AsyncOp) (s : connection) : option connection :=
  if op_active_ s then Some (set_queue (pending_ops_ s ++ [with_flushing true op]) true (waiting s) s)
  else x ← send_op op (conn_ s); settle op x s.

(** The handler of [async_wait]; [ec]: the message of an error. *)
Definition ContinueOp (op : AsyncOp) (ec : option bytes) (s : connection) : option connection :=
  match ec with
  | Some m =>
      settle op (Finished (error (text (if flushing op then "socket write: " else "socket read: ") ++ m)), conn_ s) s
  | None => x ← continue_op (flushing op) (conn_ s); settle op x s
  end.

(** ** Connecting *)

Definition CloseSync (s : connection) : connection :=
  mkConnection None (config_ s) false (pending_ops_ s) (op_active_ s) (waiting s) (answers s) (connects s).

(** [p]: what [PQconnectdb] gives for the connection string. *)
Definition ConnectSync (cfg : DbConfig) (p : option pgconn) (s : connection) : bool * connection :=
  let s c b := mkConnection c cfg b (pending_ops_ s) (op_active_ s) (waiting s) (answers s) (connects s) in
  match p with
  | Some p => if PQstatus p then (true, s (Some (PQsetnonblocking p)) true) else (false, s (Some p) false)
  | None => (false, s None false)
  end.

Definition IsConnected (s : connection) : bool :=
  match conn_ s with Some p => if connected_ s then PQstatus p else false | None => false end.

Definition Connect (id : nat) (cfg : DbConfig) (p : option pgconn) (s : connection) : connection :=
  let '(ok, s) := ConnectSync cfg p s in connect_answered id (AOk ok) s.
Definition AsyncConnect := Connect.

Definition Close (id : nat) (s : connection) : connection := connect_answered id AUnit (CloseSync s).
Definition AsyncClose := Close.

(** [cfg]: the configuration as the caller of [Reset] found it. *)
Definition Reset (id : nat) (cfg : DbConfig) (p : option pgconn) (s : connection) : connection :=
  Connect id cfg p (CloseSync s).

(** ** Operations *)

Definition Query (id : nat) (sql : bytes) : AsyncOp := mkOp id (SendQuery (c_string sql)) AResult true.

Definition Query_params (id : nat) (sql : bytes) (params : list DbValue) : option AsyncOp :=
  ps ← convert_params params; Some (mkOp id (SendQueryParams (c_string sql) ps) AResult true).

Definition affected (r : DbResult) : Z := if is_ok_ r then affected_ r else 0.

Definition Execute (id : nat) (sql : bytes) : AsyncOp :=
  mkOp id (SendQuery (c_string sql)) (fun r => ACount (affected r)) true.

Definition Begin (id : nat) : AsyncOp := mkOp id (SendQuery (text "BEGIN")) (fun _ => AUnit) true.
Definition Commit (id : nat) : AsyncOp := mkOp id (SendQuery (text "COMMIT")) (fun _ => AUnit) true.
Definition Rollback (id : nat) : AsyncOp := mkOp id (SendQuery (text "ROLLBACK")) (fun _ => AUnit) true.

Definition AsyncQuery := Query.
Definition AsyncQuery_params := Query_params.
Definition AsyncExecute := Execute.
Definition AsyncBegin (id : nat) : AsyncOp := mkOp id (SendQuery (text "BEGIN")) (fun r => AOk (is_ok_ r)) true.
Definition AsyncCommit (id : nat) : AsyncOp := mkOp id (SendQuery (text "COMMIT")) (fun r => AOk (is_ok_ r)) true.
Definition AsyncRollback (id : nat) : AsyncOp := mkOp id (SendQuery (text "ROLLBACK")) (fun r => AOk (is_ok_ r)) true.

(** ** Steps *)

Inductive event :=
  | EPost (op : AsyncOp)
  | EWake (ec : option bytes)
  | EConnect (id : nat) (cfg : DbConfig) (p : option pgconn)
  | EClose (id : nat)
  | EReset (id : nat) (cfg : DbConfig) (p : option pgconn)
  | ENetwork (p : pgconn).

Definition step (e : event) (s : connection) : option connection :=
  match e with
  | EPost op => StartSend op s
  | EWake ec => match waiting s with Some op => ContinueOp op ec s | None => None end
  | EConnect id cfg p => Some (Connect id cfg p s)
  | EClose id => Some (Close id s)
  | EReset id cfg p => Some (Reset id cfg p s)
  | ENetwork p => Some (match conn_ s with Some _ => set_conn (Some p) s | None => s end)
  end.

Abbreviation exec := (run_steps step).

(** ** Scripts *)

(** The global connection of the scripts is [g_pg_conn]: its number. *)
Inductive lua_arg := AVal (v : lua_value) | ARows (r : lua_result).

(** A call of a script: what is sent, and the arguments of the script's function for the result,
    with which it runs on the worker.  [None]: the function is never called. *)
Record lua_request := mkLua { lua_send : request; lua_answer : DbResult -> option (list lua_arg) }.

(** [w], [g]: there is a current worker, a global connection. *)
Definition bridge (w g : bool) (op : option AsyncOp) (post : answer -> option (list lua_arg)) : option lua_request :=
  if negb w then None
  else if negb g then None
  else op ← op; Some (mkLua (send_fn op) (fun r => post (callback op r))).

Definition post_rows (a : answer) : option (list lua_arg) :=
  match a with
  | AResult r =>
      if is_error r then Some [AVal (LStr (message (error_ r))); AVal LNil]
      else rows ← DbResultToLua r; Some [AVal (LStr []); ARows rows]
  | _ => None
  end.

Definition post_count (a : answer) : option (list lua_arg) :=
  match a with ACount n => Some [AVal (LStr []); AVal (LInt n)] | _ => None end.

Definition post_affected (a : answer) : option (list lua_arg) :=
  match a with
  | AResult r =>
      if is_error r then Some [AVal (LStr (message (error_ r))); AVal (LInt 0)]
      else Some [AVal (LStr []); AVal (LInt (affected_ r))]
  | _ => None
  end.

Definition post_ok (failure : bytes) (a : answer) : option (list lua_arg) :=
  match a with AOk ok => Some [AVal (LStr (if ok then [] else failure)); AVal (LBool ok)] | _ => None end.

(** [args]: the parameters before the script's function; [None] if there is not even that. *)
Definition lua_AsyncQuery (w g : bool) (id : nat) (sql : bytes) (args : option (list lua_value)) : option lua_request :=
  match args with
  | None => None
  | Some [] => bridge w g (Some (AsyncQuery id sql)) post_rows
  | Some ps => bridge w g (AsyncQuery_params id sql (List.map LuaValueToDbValue ps)) post_rows
  end.

Definition lua_AsyncExecute (w g : bool) (id : nat) (sql : bytes) (args : option (list lua_value)) : option lua_request :=
  match args with
  | None => None
  | Some [] => bridge w g (Some (AsyncExecute id sql)) post_count
  | Some ps => bridge w g (AsyncQuery_params id sql (List.map LuaValueToDbValue ps)) post_affected
  end.

Definition lua_AsyncBegin (w g : bool) (id : nat) : option lua_request :=
  bridge w g (Some (AsyncBegin id)) (post_ok (text "BEGIN failed")).
Definition lua_AsyncCommit (w g : bool) (id : nat) : option lua_request :=
  bridge w g (Some (AsyncCommit id)) (post_ok (text "COMMIT failed")).
Definition lua_AsyncRollback (w g : bool) (id : nat) : option lua_request :=
  bridge w g (Some (AsyncRollback id)) (post_ok (text "ROLLBACK failed")).

(** The task that [pg.AsyncConnect] posts to the worker once connection [c] has its answer: the
    new global connection and the arguments of the script's function. *)
Definition lua_connected (ok : bool) (c : nat) (g_pg_conn : option nat) : option nat * list lua_arg :=
  if ok then (Some c, [AVal (LStr []); AVal (LBool true)])
  else (g_pg_conn, [AVal (LStr (text "AsyncConnect failed")); AVal (LBool false)]).

(** [pg.AsyncClose]: the connection to close, whose answer calls the script's function. *)
Definition lua_AsyncClose (w : bool) (g_pg_conn : option nat) : option nat * option (nat * list lua_arg) :=
  if negb w then (g_pg_conn, None)
  else (None, c ← g_pg_conn; Some (c, [AVal (LStr [])])).

Definition lua_IsConnected (g_pg_conn : option connection) : bool :=
  match g_pg_conn with Some c => IsConnected c | None => false end.

(** ** Order of the answers *)

Definition posted (es : list event) : list nat := es ≫= fun e => match e with EPost op => [op_id op] | _ => [] end.

Definition answered_ids (s : connection) : list nat := List.map fst (answers s).
Definition open_ids (s : connection) : list nat := List.map op_id (option_list (waiting s) ++ pending_ops_ s).
Definition all_ids (s : connection) : list nat := answered_ids s ++ open_ids s.

(** An operation is under way exactly when one waits for the socket, and only then others are
    pending. *)
Record queued (s : connection) : Prop := {
  queued_active : op_active_ s = bool_decide (is_Some (waiting s));
  queued_pending : op_active_ s = false -> pending_ops_ s = [] }.

Lemma answered_ids_snoc op r s : answered_ids (answered op r s) = answered_ids s ++ [op_id op].
Proof. unfold answered_ids, answered. simpl. by rewrite map_app. Qed.

Lemma StartNext_ids pending s s' : StartNext pending s = Some s' ->
  queued s' /\ all_ids s' = answered_ids s ++ List.map op_id pending.
Proof.
  revert s. induction pending as [|op rest IH]; intros s; cbn [StartNext].
  - intros [= <-]. split; [by constructor|]. done.
  - destruct (send_op op (conn_ s)) as [[[r|f] c]|]; cbn [mbind option_bind]; [|intros [= <-]|done].
    + intros E. destruct (IH _ E) as [Hq Hi]. split; [done|].
      rewrite Hi, answered_ids_snoc, <- app_assoc. done.
    + split; [by constructor|]. done.
Qed.

Lemma settle_ids op x s s' : settle op x s = Some s' ->
  queued s' /\ all_ids s' = answered_ids s ++ op_id op :: List.map op_id (pending_ops_ s).
Proof.
  destruct x as [[r|f] c]; cbn [settle].
  - intros E. destruct (StartNext_ids _ _ _ E) as [Hq Hi]. split; [done|].
    rewrite Hi, answered_ids_snoc, <- app_assoc. done.
  - intros [= <-]. split; [by constructor|]. done.
Qed.

Lemma step_ids e s s' : queued s -> step e s = Some s' -> queued s' /\ all_ids s' = all_ids s ++ posted [e].
Proof.
  intros [Ha Hp]. unfold posted. destruct e as [op|ec|id cfg p|id|id cfg p|p]; cbn [step mbind list_bind].
  - unfold StartSend, all_ids, open_ids. destruct (op_active_ s) eqn:Eact.
    + intros [= <-]. split; [by constructor|]. cbn. rewrite app_assoc, List.map_app, !app_assoc. done.
    + destruct (send_op op (conn_ s)) as [x|]; cbn [mbind option_bind]; [|done]. intros E.
      destruct (settle_ids _ _ _ _ E) as [Hq Hi]. split; [done|]. unfold all_ids, open_ids in Hi. rewrite Hi, (Hp eq_refl).
      destruct (waiting s); [done|]. simpl. by rewrite app_nil_r.
  - destruct (waiting s) as [op|] eqn:Ew; [|done]. intros E.
    assert (exists x, settle op x s = Some s') as [x Hx].
    { unfold ContinueOp in E. destruct ec; [by eexists|]. destruct (continue_op _ _); [by eexists|done]. }
    destruct (settle_ids _ _ _ _ Hx) as [Hq Hi]. split; [done|]. rewrite Hi, app_nil_r. unfold all_ids, open_ids.
    by rewrite Ew.
  - intros [= <-]. unfold Connect, ConnectSync. destruct p as [p|]; [destruct (PQstatus p)|]; by rewrite app_nil_r.
  - intros [= <-]. by rewrite app_nil_r.
  - intros [= <-]. unfold Reset, Connect, ConnectSync. destruct p as [p|]; [destruct (PQstatus p)|]; by rewrite app_nil_r.
  - intros [= <-]. rewrite app_nil_r. by destruct (conn_ s).
Qed.

Lemma exec_ids es s s' : queued s -> exec es s = Some s' -> queued s' /\ all_ids s' = all_ids s ++ posted es.
Proof.
  revert s. induction es as [|e es IH]; intros s Hq; cbn [run_steps].
  - intros [= <-]. by rewrite app_nil_r.
  - destruct (step e s) as [s1|] eqn:E; cbn [mbind option_bind]; [|done]. intros He.
    destruct (step_ids _ _ _ Hq E) as [Hq1 H1]. destruct (IH _ Hq1 He) as [Hq' H']. split; [done|].
    rewrite H', H1, <- app_assoc. f_equal. unfold posted. simpl. by rewrite app_nil_r.
Qed.

(** C18: Whatever libpq and the network do, the operations of a connection are answered once each
    and in the order in which they were posted: those answered, the one that waits for the
    socket and those pending are at any time all that were posted; and when no operation waits
    for the socket none is pending. *)
Theorem operations_in_order (cfg : DbConfig) (es : list event) (s : connection) :
  exec es (make cfg) = Some s ->
  answered_ids s ++ open_ids s = posted es /\
  (waiting s = None -> open_ids s = [] /\ op_active_ s = false).
Proof.
  intros He. destruct (exec_ids es (make cfg) s) as [[Ha Hp] Hi]; [by constructor|done|]. split; [exact Hi|].
  intros Hw. rewrite Hw in Ha. unfold open_ids. rewrite Hw, (Hp Ha). done.
Qed.

(** ** No answer without the socket *)

Lemma unwoken_step e s s' op : queued s -> waiting s = Some op -> (forall ec, e <> EWake ec) ->
  step e s = Some s' -> queued s' /\ waiting s' = Some op /\ answers s' = answers s.
Proof.
  intros Hq Hw He E. pose proof Hq as [Ha _]. rewrite Hw in Ha.
  destruct (step_ids _ _ _ Hq E) as [Hq' _]. split; [done|]. revert E. clear Hq'.
  destruct e as [o|ec|id cfg p|id|id cfg p|p]; cbn [step].
  - unfold StartSend. rewrite Ha. by intros [= <-].
  - by destruct (He ec).
  - intros [= <-]. unfold Connect, ConnectSync. destruct p as [p|]; [destruct (PQstatus p)|]; done.
  - by intros [= <-].
  - intros [= <-]. unfold Reset, Connect, ConnectSync. destruct p as [p|]; [destruct (PQstatus p)|]; done.
  - intros [= <-]. by destruct (conn_ s).
Qed.

Definition is_wake (e : event) : bool := match e with EWake _ => true | _ => false end.

(** C24: While the wait of one operation does not complete, no operation is answered, whatever is
    closed, connected or reset in between: closing the connection, which closes the descriptor
    that is waited for, neither answers the operation nor lets the next one start, and after a
    reconnection every further operation is only queued. *)
Theorem closed_wait_blocks_all (cfg : DbConfig) (es es' : list event) (s s' : connection) (op : AsyncOp) :
  exec es (make cfg) = Some s -> waiting s = Some op ->
  forallb (fun e => negb (is_wake e)) es' = true -> exec es' s = Some s' ->
  answers s' = answers s /\ waiting s' = Some op /\ open_ids s' = open_ids s ++ posted es'.
Proof.
  intros He Hw Hes He'. destruct (exec_ids es (make cfg) s) as [Hq _]; [by constructor|done|].
  destruct (exec_ids _ _ _ Hq He') as [_ Hi].
  assert (waiting s' = Some op /\ answers s' = answers s) as [Hw' Ha].
  { clear Hi He. revert s Hq Hw He'. induction es' as [|e es' IH]; intros s Hq Hw; cbn [run_steps]; [by intros [= <-]|].
    simpl in Hes. apply andb_prop in Hes as [Hn Hes]. destruct (step e s) as [s1|] eqn:E; cbn [mbind option_bind]; [|done].
    destruct (unwoken_step e s s1 op) as (Hq1 & Hw1 & Ha1); [done|done|by intros ec ->|done|].
    intros H. destruct (IH Hes s1 Hq1 Hw1 H) as [H1 H2]. split; [done|congruence]. }
  splits; [done|done|]. unfold all_ids, answered_ids in Hi. rewrite Ha, <- app_assoc in Hi. by apply app_inv_head in Hi.
Qed.

(** ** The result of an operation *)

(** [rs]: the results libpq has for the operation. *)
Inductive delivers : pgconn -> list DbResult -> pgconn -> Prop :=
  | delivers_end p p' : PQgetResult p = (None, p') -> delivers p [] p'
  | delivers_next p res r p1 rs p' :
      PQgetResult p = (Some res, p1) -> ParseResult res = Some r -> delivers p1 rs p' -> delivers p (r :: rs) p'.

(** The last result that is no error; else the last error. *)
Definition result_of (rs : list DbResult) : DbResult :=
  match last (filter (fun r => is_ok_ r = true) rs) with
  | Some r => r
  | None => default (error (text "no result")) (last rs)
  end.

Lemma merge_ok rs f : is_ok_ f = true ->
  foldl merge f rs = default f (last (filter (fun r => is_ok_ r = true) rs)).
Proof.
  revert f. induction rs as [|r rs IH]; intros f Hf; [done|]. cbn [foldl]. rewrite filter_cons.
  unfold merge, is_error. rewrite Hf. simpl. destruct (is_ok_ r) eqn:E; simpl.
  - rewrite IH by done. rewrite last_cons. by destruct (last _).
  - by apply IH.
Qed.

Lemma merge_result rs f : is_ok_ f = false ->
  foldl merge f rs = match last (filter (fun r => is_ok_ r = true) rs) with Some r => r | None => default f (last rs) end.
Proof.
  revert f. induction rs as [|r rs IH]; intros f Hf; [done|]. cbn [foldl]. rewrite filter_cons.
  unfold merge, is_error. rewrite Hf. simpl. destruct (is_ok_ r) eqn:E; simpl.
  - rewrite merge_ok by done. rewrite last_cons. by destruct (last (filter _ rs)).
  - rewrite IH by done. destruct (last (filter _ rs)); [done|]. rewrite last_cons. by destruct (last rs).
Qed.

Lemma collect_delivers p rs p' fuel f : delivers p rs p' -> (length rs < fuel)%nat ->
  collect fuel p f = Some (foldl merge f rs, p').
Proof.
  intros H. revert fuel f. induction H as [p p' E|p res r p1 rs p' E Hr _ IH]; intros [|fuel] f Hf; simpl in Hf; try lia;
    cbn [collect]; rewrite E; [done|]. rewrite Hr. cbn [mbind option_bind foldl]. apply IH. lia.
Qed.

Lemma send_op_prompt op p p1 p2 p3 rs p4 :
  PQstatus p = true -> PQsend (send_fn op) p = (true, p1) -> PQflush p1 = (0, p2) ->
  PQconsumeInput p2 = (true, p3) -> PQisBusy p3 = false -> delivers p3 rs p4 -> (length rs <= results_left p3)%nat ->
  send_op op (Some p) = Some (Finished (result_of rs), Some p4).
Proof.
  intros Hs Hq Hf Hc Hb Hd Hl. unfold send_op. rewrite Hs, Hq. cbn [negb]. unfold continue_op, flush. rewrite Hf.
  cbn [Z.eqb]. change (0 =? -1) with false. change (0 =? 1) with false. cbv iota.
  unfold consume_phase, consume. rewrite Hc. cbn [negb]. unfold busy. rewrite Hb. unfold collect_phase.
  rewrite (collect_delivers p3 rs p4) by (done || lia). cbn [mbind option_bind]. by rewrite merge_result.
Qed.

(** C25: An operation that is posted while none is under way, on a connection that is up and
    whose server has answered, is answered at once with the last of its results that is no
    error, or else with the last error (a comment says the first); one posted without a
    connection is answered with an error; either way the connection is free again. *)
Theorem operation_gets_its_result (s : connection) (op : AsyncOp) :
  op_active_ s = false -> pending_ops_ s = [] ->
  (forall p p1 p2 p3 rs p4,
     conn_ s = Some p -> PQstatus p = true -> PQsend (send_fn op) p = (true, p1) -> PQflush p1 = (0, p2) ->
     PQconsumeInput p2 = (true, p3) -> PQisBusy p3 = false -> delivers p3 rs p4 -> (length rs <= results_left p3)%nat ->
     exists s', StartSend op s = Some s' /\ answers s' = answers s ++ [(op_id op, callback op (result_of rs))] /\
       conn_ s' = Some p4 /\ op_active_ s' = false) /\
  ((conn_ s = None \/ exists p, conn_ s = Some p /\ PQstatus p = false) ->
     exists s', StartSend op s = Some s' /\
       answers s' = answers s ++ [(op_id op, callback op (error (text "Connection not available")))] /\
       op_active_ s' = false).
Proof.
  intros Ha Hp. unfold StartSend. rewrite Ha. split.
  - intros p p1 p2 p3 rs p4 Hc Hs Hq Hf Hi Hb Hd Hl.
    rewrite Hc, (send_op_prompt op p p1 p2 p3 rs p4) by done. cbn [mbind option_bind settle]. rewrite Hp. by eexists.
  - intros Hc. assert (send_op op (conn_ s) = Some (Finished (error (text "Connection not available")), conn_ s)) as ->.
    { destruct Hc as [->|(p & -> & E)]; [done|]. unfold send_op. by rewrite E. }
    cbn [mbind option_bind settle]. rewrite Hp. by eexists.
Qed.

(** ** Termination *)

(** libpq gives finitely many results, whose counts are numbers (which excludes a [COPY], for
    which [PQgetResult] has always one more result). *)
Definition results_end : Prop :=
  forall p res p', PQgetResult p = (Some res, p') -> (results_left p' < results_left p)%nat /\ ParseResult res <> None.

(** The library never lets an operation wait. *)
Definition prompt : Prop :=
  (forall p, fst (PQflush p) <> 1) /\ forall p, PQisBusy p = false.

Lemma collect_total (He : results_end) fuel p f : (results_left p < fuel)%nat -> exists x, collect fuel p f = Some x.
Proof.
  revert p f. induction fuel as [|fuel IH]; intros p f Hf; [lia|]. cbn [collect].
  destruct (PQgetResult p) as [[res|] p'] eqn:E; [|by eexists].
  destruct (He _ _ _ E) as [Hl Hr]. destruct (ParseResult res); [|done]. apply IH. lia.
Qed.

Lemma consume_phase_total (He : results_end) c :
  exists x, consume_phase c = Some x /\ (prompt -> exists r, fst x = Finished r).
Proof.
  unfold consume_phase. destruct (consume c) as [ok c1]. destruct ok; cbn [negb]; [|by eexists; split; [|eexists]].
  destruct (busy c1) eqn:Eb.
  - eexists; split; [done|]. intros [_ Hb]. destruct c1 as [p|]; [|done]. simpl in Eb. by rewrite Hb in Eb.
  - unfold collect_phase. destruct c1 as [p|]; [|by eexists; split; [|eexists]].
    destruct (collect_total He (S (results_left p)) p (error (text "no result"))) as [[r p'] ->]; [lia|].
    by eexists; split; [|eexists].
Qed.

Lemma continue_op_total (He : results_end) f c :
  exists x, continue_op f c = Some x /\ (prompt -> exists r, fst x = Finished r).
Proof.
  unfold continue_op. destruct f; [|by apply consume_phase_total].
  destruct (flush c) as [st c1] eqn:E. destruct (Z.eqb_spec st (-1)); [by eexists; split; [|eexists]|].
  destruct (Z.eqb_spec st 1) as [->|]; [|by apply consume_phase_total].
  eexists; split; [done|]. intros [Hf _]. destruct c as [p|]; [|done]. simpl in E.
  pose proof (Hf p) as Hp. destruct (PQflush p) as [z q]. simpl in *. congruence.
Qed.

Lemma send_op_total (He : results_end) op c :
  exists x, send_op op c = Some x /\ (prompt -> exists r, fst x = Finished r).
Proof.
  unfold send_op. destruct c as [p|]; [|by eexists; split; [|eexists]].
  destruct (PQstatus p); cbn [negb]; [|by eexists; split; [|eexists]].
  destruct (PQsend _ p) as [[|] p1]; cbn [negb]; [by apply continue_op_total|by eexists; split; [|eexists]].
Qed.

Lemma StartNext_total (He : results_end) pending s :
  exists s', StartNext pending s = Some s' /\ (prompt -> waiting s' = None).
Proof.
  revert s. induction pending as [|op rest IH]; intros s; cbn [StartNext]; [by eexists|].
  destruct (send_op_total He op (conn_ s)) as ([o c] & -> & Hp). cbn [mbind option_bind fst] in *.
  destruct o as [r|f]; [apply IH|]. eexists; split; [done|]. intros H. by destruct (Hp H).
Qed.

Lemma settle_total (He : results_end) op x s : (prompt -> exists r, fst x = Finished r) ->
  exists s', settle op x s = Some s' /\ (prompt -> waiting s' = None).
Proof.
  destruct x as [[r|f] c]; cbn [settle fst]; intros Hp; [by apply StartNext_total|].
  eexists; split; [done|]. intros H. by destruct (Hp H).
Qed.

Lemma step_total (He : results_end) e s : (is_wake e = true -> waiting s <> None) ->
  exists s', step e s = Some s' /\ (prompt -> queued s -> waiting s = None -> waiting s' = None).
Proof.
  intros Hw. destruct e as [op|ec|id cfg p|id|id cfg p|p]; cbn [step].
  - unfold StartSend. destruct (op_active_ s) eqn:Ea.
    + eexists; split; [done|]. intros _ [Hq _] H. rewrite Ea, H in Hq. done.
    + destruct (send_op_total He op (conn_ s)) as (x & -> & Hx). cbn [mbind option_bind].
      destruct (settle_total He op x s Hx) as (s' & E & H'). exists s'. split; [done|]. intros H _ _. by apply H'.
  - destruct (waiting s) as [op|]; [|by destruct Hw]. unfold ContinueOp. destruct ec as [m|].
    + edestruct (StartNext_total He) as (s' & E & _). by exists s'.
    + destruct (continue_op_total He (flushing op) (conn_ s)) as (x & -> & Hx). cbn [mbind option_bind].
      destruct (settle_total He op x s Hx) as (s' & E & _). by exists s'.
  - eexists; split; [done|]. intros _ _ H. unfold Connect, ConnectSync. destruct p as [p|]; [destruct (PQstatus p)|]; done.
  - eexists; split; [done|]. by intros _ _ H.
  - eexists; split; [done|]. intros _ _ H. unfold Reset, Connect, ConnectSync. destruct p as [p|]; [destruct (PQstatus p)|]; done.
  - eexists; split; [done|]. intros _ _ H. by destruct (conn_ s).
Qed.

(** Every task of the connection ends: whatever is posted, the pipeline, the loop over the
    results and the loop over the pending operations return; and if the library never lets an
    operation wait then all that was posted is answered, in order. *)
Theorem every_task_ends (cfg : DbConfig) (es : list event) :
  results_end ->
  (forall s e, exec es (make cfg) = Some s -> (is_wake e = true -> waiting s <> None) -> exists s', step e s = Some s') /\
  (prompt -> forallb (fun e => negb (is_wake e)) es = true ->
     exists s, exec es (make cfg) = Some s /\ answered_ids s = posted es).
Proof.
  intros He. split.
  - intros s e _ Hw. destruct (step_total He e s Hw) as (s' & E & _). by exists s'.
  - intros Hp Hes.
    assert (forall s, queued s -> waiting s = None ->
      exists s', exec es s = Some s' /\ queued s' /\ waiting s' = None) as H.
    { induction es as [|e es IH]; intros s Hq Hw; [by exists s|]. simpl in Hes. apply andb_prop in Hes as [Hn Hes].
      destruct (step_total He e s) as (s1 & E & H1); [by destruct (is_wake e)|].
      destruct (step_ids _ _ _ Hq E) as [Hq1 _]. destruct (IH Hes s1 Hq1 (H1 Hp Hq Hw)) as (s' & E' & H').
      exists s'. split; [|done]. cbn [run_steps]. by rewrite E. }
    destruct (H (make cfg)) as (s & E & [Ha Hpe] & Hw); [by constructor|done|]. exists s. split; [done|].
    destruct (exec_ids es (make cfg) s) as [_ Hi]; [by constructor|done|].
    unfold all_ids, open_ids in Hi. rewrite Hw in Ha, Hi. rewrite (Hpe Ha), app_nil_r in Hi. exact Hi.
Qed.

(** ** Scripts: errors that look like success *)

Definition call_answer (q : option lua_request) (r : DbResult) : option (list lua_arg) := q ← q; lua_answer q r.

(** By the convention of the scripts' functions an empty first argument is success.  An
    [AsyncExecute] without parameters gets it for every error, with zero rows; an [AsyncQuery]
    gets it, with nil for the rows, for a statement that is empty; and without a connection the
    function is never called. *)
Theorem lua_errors_look_like_success (id : nat) (sql : bytes) (r : DbResult) (res : PGresult) (args : option (list lua_value)) :
  (is_error r = true ->
     call_answer (lua_AsyncExecute true true id sql (Some [])) r = Some [AVal (LStr []); AVal (LInt 0)]) /\
  (PQresultStatus res = PGRES_EMPTY_QUERY -> PQresultErrorMessage res = [] ->
     exists e, ParseResult res = Some e /\ is_error e = true /\
       call_answer (lua_AsyncQuery true true id sql (Some [])) e = Some [AVal (LStr []); AVal LNil]) /\
  lua_AsyncQuery true false id sql args = None /\ lua_AsyncExecute true false id sql args = None /\
  lua_AsyncBegin true false id = None /\ snd (lua_AsyncClose true None) = None.
Proof.
  splits.
  - unfold is_error. intros Hr. simpl. unfold affected. by destruct (is_ok_ r).
  - intros Hs Hm. eexists. split; [apply ParseResult_error; by rewrite Hs|]. split; [done|]. simpl. by rewrite Hm.
  - destruct args as [[|]|]; done.
  - destruct args as [[|]|]; done.
  - done.
  - done.
Qed.

(** A script's parameters always become parameters of libpq. *)
Lemma lua_params_convert ps : Forall (fun v => forall n, v = LInt n -> in_s 64 n) ps ->
  exists qs, convert_params (List.map LuaValueToDbValue ps) = Some qs.
Proof.
  intros H. apply convert_params_total. apply Forall_fmap. eapply Forall_impl; [exact H|].
  intros v Hv. by apply LuaValueToDbValue_ok.
Qed.

End WithLibrary.

(** ** Witnesses *)

Abbreviation exec_with lib := (run_steps (step (L := lib))).

#[local] Existing Instances PgValue.int_double PgValue.int_float.

(** A server that answers each statement with a number of empty results, after a while if it is
    [slow]. *)
Record toy := mkToy { toy_up : bool; toy_busy : bool; toy_results : nat }.

Definition empty_result : PGresult := mkPGresult PGRES_COMMAND_OK [] [] [] 0 [].

Definition toy_send (q : request) (p : toy) : bool * toy := (true, mkToy (toy_up p) true 1).

Definition toy_result (p : toy) : option PGresult * toy :=
  match toy_results p with
  | O => (None, p)
  | S n => (Some empty_result, mkToy (toy_up p) (toy_busy p) n)
  end.

#[local] Instance toy_lib (slow : bool) : LibPQ := {|
  pgconn := toy; PQstatus := toy_up; PQsetnonblocking := id; PQsend := toy_send;
  PQflush := fun p => (0, p); PQconsumeInput := fun p => (true, p); PQisBusy := fun p => slow && toy_busy p;
  PQgetResult := toy_result; results_left := toy_results; PQerrorMessage := fun _ => []; PQsocket := fun _ => 7;
  null_message := [];
|}.

Definition up : toy := mkToy true false 0.
Definition cfg0 : DbConfig := sample_config.

Definition slow_events : list (event (L := toy_lib true)) :=
  [EConnect (L := toy_lib true) 0 cfg0 (Some up); EPost (Query 1 (text "SELECT 1")); EPost (Execute 2 (text "DELETE FROM t"))].

Lemma operations_in_order_witness :
  exists s, exec_with (toy_lib true) (slow_events ++ [ENetwork (L := toy_lib true) (mkToy true false 1); EWake None]) (make cfg0) = Some s /\
    answered_ids s ++ open_ids s = [1%nat; 2%nat].
Proof.
  eexists. split; [reflexivity|].
  apply (operations_in_order cfg0 (slow_events ++ [ENetwork (L := toy_lib true) (mkToy true false 1); EWake None])).
  reflexivity.
Defined.

Lemma closed_wait_blocks_all_witness :
  exists s s', exec_with (toy_lib true) slow_events (make cfg0) = Some s /\
    exec_with (toy_lib true) [EClose 7; EReset (L := toy_lib true) 8 cfg0 (Some up); EPost (Query 3 (text "SELECT 2"))] s = Some s' /\
    IsConnected s' = true /\ answers s' = [] /\ open_ids s' = [1%nat; 2%nat; 3%nat].
Proof.
  eexists. eexists. split; [reflexivity|]. split; [reflexivity|]. split; [reflexivity|].
  edestruct (closed_wait_blocks_all cfg0 slow_events
    [EClose 7; EReset (L := toy_lib true) 8 cfg0 (Some up); EPost (Query 3 (text "SELECT 2"))]) as (Ha & _ & Ho);
    [reflexivity|reflexivity|reflexivity|reflexivity|].
  split; [exact Ha|exact Ho].
Defined.

Lemma operation_gets_its_result_witness :
  exists s s', exec_with (toy_lib false) [EConnect (L := toy_lib false) 0 cfg0 (Some up)] (make cfg0) = Some s /\
    StartSend (Execute 1 (text "DELETE FROM t")) s = Some s' /\ answers s' = [(1%nat, ACount 0)].
Proof.
  eexists. edestruct (operation_gets_its_result (L := toy_lib false)
    (Connect (L := toy_lib false) 0 cfg0 (Some up) (make cfg0)) (Execute 1 (text "DELETE FROM t"))) as [H _];
    [reflexivity|reflexivity|].
  destruct (H up (mkToy true true 1) (mkToy true true 1) (mkToy true true 1) [AffectedRows 0 0] (mkToy true true 0))
    as (s' & E & Ha & _); [reflexivity..| |reflexivity|].
  { eapply (delivers_next (L := toy_lib false)); [reflexivity|reflexivity|].
    apply (delivers_end (L := toy_lib false)). reflexivity. }
  exists s'. split; [reflexivity|]. split; [exact E|exact Ha].
Defined.

Lemma every_task_ends_witness :
  results_end (L := toy_lib false) /\ prompt (L := toy_lib false) /\
  exists s, exec_with (toy_lib false) [EConnect (L := toy_lib false) 0 cfg0 (Some up); EPost (Begin 1); EClose 2; EPost (Commit 3)] (make cfg0) = Some s /\
    answered_ids s = [1%nat; 3%nat].
Proof.
  assert (results_end (L := toy_lib false)) as He.
  { intros [u b [|n]] res p' H; simpl in H; [discriminate|]. injection H as <- <-. split; [simpl; lia|discriminate]. }
  assert (prompt (L := toy_lib false)) as Hp by (split; [intros p; discriminate|reflexivity]).
  split; [exact He|]. split; [exact Hp|].
  destruct (every_task_ends (L := toy_lib false) cfg0
    [EConnect (L := toy_lib false) 0 cfg0 (Some up); EPost (Begin 1); EClose 2; EPost (Commit 3)] He) as [_ H].
  exact (H Hp eq_refl).
Defined.

Lemma lua_errors_look_like_success_witness :
  is_error (error (text "syntax error")) = true /\
  call_answer (lua_AsyncExecute true true 1 (text "DELET") (Some [])) (error (text "syntax error")) =
  Some [AVal (LStr []); AVal (LInt 0)].
Proof.
  split; [reflexivity|].
  destruct (lua_errors_look_like_success 1 (text "DELET") (error (text "syntax error")) empty_result None) as (H & _).
  exact (H eq_refl).
Defined.

End PgConnection.
