(* ===== verification/RedisValue.v ===== *)
(** * RedisValue: replies of Redis, their conversions and the commands
    ([src/db/redis/redis_value.h], [redis_value.cpp], [redis_connection.cpp],
    [register_redis.cpp])

    A reply of hiredis is copied into a value tree; each command is the list of its words and
    a function from the reply to what its callback gets.  A [double] and the text functions
    on it ([strtod], [std::to_string]) are the class [Double] of [Decimal.v]; the conversion of a
    double outside the range of [int64_t] is undefined in C++ and left to it. *)

From S2P Require Import Prelude Decimal.

Module RedisValue.
Section WithDouble.
Context `{D : Double}.

(** ** Data *)

(** [code = 0] is success. *)
Record RedisError := mkError { code : Z; message : bytes }.
Definition no_error : RedisError := mkError 0 [].
Definition failed (e : RedisError) : bool := negb (code e =? 0).

(** The shared pointers of arrays and maps are never null: [FromReply] makes them. *)
Inductive RedisValue :=
  | Nil
  | Bool (b : bool)
  | Int (n : Z)
  | Dbl (d : double)
  | Str (s : bytes)
  | Array (l : list RedisValue)
  | Map (m : list (bytes * RedisValue))
  | Error (msg : bytes).

(** The reply types of hiredis that the code tells apart, and any other. *)
Inductive reply_type :=
  | REPLY_NIL | REPLY_INTEGER | REPLY_DOUBLE | REPLY_BOOL
  | REPLY_STRING | REPLY_STATUS | REPLY_VERB | REPLY_BIGNUM
  | REPLY_ERROR | REPLY_ARRAY | REPLY_SET | REPLY_PUSH | REPLY_MAP | REPLY_ATTR
  | REPLY_OTHER.

(** [redisReply]: [str] is [None] for a null pointer, an element too. *)
Inductive redisReply :=
  mkReply (type : reply_type) (integer : Z) (dval : double) (str : option bytes) (element : list (option redisReply)).

Definition is_nil (v : RedisValue) : bool := match v with Nil => true | _ => false end.
Definition is_error (v : RedisValue) : bool := match v with Error _ => true | _ => false end.
Definition is_str (v : RedisValue) : bool := match v with Str _ => true | _ => false end.
Definition is_array (v : RedisValue) : bool := match v with Array _ => true | _ => false end.
Definition has_value (v : RedisValue) : bool := negb (is_nil v) && negb (is_error v).

Definition err (v : RedisValue) : RedisError :=
  match v with Error m => mkError (-1) m | _ => no_error end.

(** ** Conversions *)

Definition SafeStod (s : bytes) : double :=
  match s with [] => d_zero | _ => default d_zero (strtod s) end.

Definition SafeStoll (s : bytes) : Z :=
  match s with [] => 0 | _ => default 0 (strtoll s) end.

Definition as_str (v : RedisValue) : bytes :=
  match v with
  | Str s => s
  | Int n => signed_string n
  | Dbl d => d_to_string d
  | Bool b => text (if b then "1" else "0")
  | _ => []
  end.

Definition as_int (v : RedisValue) : Z :=
  match v with
  | Int n => n
  | Bool b => if b then 1 else 0
  | Dbl d => d_to_int d
  | Str s => SafeStoll s
  | _ => 0
  end.

Definition as_double (v : RedisValue) : double :=
  match v with
  | Dbl d => d
  | Int n => d_of_int n
  | Str s => SafeStod s
  | _ => d_zero
  end.

Definition as_bool (v : RedisValue) : bool :=
  match v with
  | Bool b => b
  | Int n => negb (n =? 0)
  | Str s => bool_decide (s = text "1") || bool_decide (s = text "true")
  | _ => false
  end.

Definition as_str_array (v : RedisValue) : list bytes :=
  match v with
  | Array l => List.map (fun item => match item with Str s => s | Int n => signed_string n | _ => [] end) l
  | _ => []
  end.

(** Elements two by two; an odd last one is left out. *)
Fixpoint pairwise {A B} (f : A -> A -> B) (l : list A) : list B :=
  match l with
  | a :: b :: r => f a b :: pairwise f r
  | _ => []
  end.

Definition as_pairs (v : RedisValue) : list (bytes * double) :=
  match v with
  | Array l => pairwise (fun a b => (as_str a, SafeStod (as_str b))) l
  | _ => []
  end.

(** The key of a map entry. *)
Definition reply_key (k : option redisReply) : bytes :=
  match k with
  | Some (mkReply ty n _ s _) =>
      match s with
      | Some s => s
      | None => match ty with REPLY_INTEGER => signed_string n | _ => [] end
      end
  | None => []
  end.

Fixpoint FromReply (r : redisReply) : RedisValue :=
  let copy (o : option redisReply) := match o with Some e => FromReply e | None => Error (text "connection closed") end in
  match r with
  | mkReply ty n d s els =>
      match ty with
      | REPLY_NIL => Nil
      | REPLY_INTEGER => Int n
      | REPLY_DOUBLE => Dbl d
      | REPLY_BOOL => Bool (negb (n =? 0))
      | REPLY_STRING | REPLY_STATUS | REPLY_VERB | REPLY_BIGNUM => Str (default [] s)
      | REPLY_ERROR => Error (default [] s)
      | REPLY_ARRAY | REPLY_SET | REPLY_PUSH => Array (List.map copy els)
      | REPLY_MAP | REPLY_ATTR =>
          Map ((fix entries (l : list (option redisReply)) :=
                  match l with
                  | k :: v :: r => (reply_key k, copy v) :: entries r
                  | _ => []
                  end) els)
      | REPLY_OTHER => Nil
      end
  end.

(** What the callback of hiredis is given: null when the connection is closed. *)
Definition from_pointer (r : option redisReply) : RedisValue :=
  match r with Some r => FromReply r | None => Error (text "connection closed") end.

Definition ToStrArray (v : RedisValue) : list bytes :=
  match v with
  | Array l =>
      l ≫= fun item => match item with
                       | Array sub => List.map (fun x => if is_nil x then [] else as_str x) sub
                       | _ => [if is_nil item then [] else as_str item]
                       end
  | _ => []
  end.

Definition ToPairs (v : RedisValue) : list (bytes * double) :=
  match v with
  | Array l =>
      match l with
      | Array _ :: _ =>
          l ≫= fun item => match item with Array (m :: s :: _) => [(as_str m, as_double s)] | _ => [] end
      | _ => pairwise (fun a b => (as_str a, SafeStod (as_str b))) l
      end
  | _ => []
  end.

Definition ToInt (v : RedisValue) : Z :=
  match v with
  | Int n => n
  | Bool b => if b then 1 else 0
  | Dbl d => d_to_int d
  | Str s => SafeStoll s
  | _ => 0
  end.

Definition ToDouble (v : RedisValue) : double :=
  match v with
  | Dbl d => d
  | Int n => d_of_int n
  | Bool b => if b then d_one else d_zero
  | Str s => SafeStod s
  | _ => d_zero
  end.

Definition ToString (v : RedisValue) : bytes :=
  match v with
  | Str s => s
  | Int n => signed_string n
  | Dbl d => d_to_string d
  | Bool b => text (if b then "1" else "0")
  | _ => []
  end.

(** ** Commands *)

(** The words handed to [PostCommand], and what the callback gets for a reply. *)
Record command (T : Type) := mkCommand {
  argv : list bytes;
  on_reply : RedisValue -> RedisError * T;
}.
#[global] Arguments mkCommand {T} _ _.
#[global] Arguments argv {T} _.
#[global] Arguments on_reply {T} _ _.

(** [if (v.is_error()) { cb(v.err(), dflt); return; } cb(RedisError{}, conv(v));] *)
Definition reply {T} (dflt : T) (conv : RedisValue -> T) (v : RedisValue) : RedisError * T :=
  if is_error v then (err v, dflt) else (no_error, conv v).

(** KV. *)

Definition AsyncSet (key value : bytes) : command unit :=
  mkCommand ([text "SET"; key; value])
    (reply tt (fun _ => tt)).

Definition AsyncSetEx (key value : bytes) (ttl_seconds : Z) : command unit :=
  mkCommand ([text "SETEX"; key; signed_string ttl_seconds; value])
    (reply tt (fun _ => tt)).

Definition AsyncGet (key : bytes) : command bytes :=
  mkCommand ([text "GET"; key])
    (reply [] ToString).

Definition AsyncDel (key : bytes) : command Z :=
  mkCommand ([text "DEL"; key])
    (reply 0 ToInt).

Definition AsyncExists (key : bytes) : command bool :=
  mkCommand ([text "EXISTS"; key])
    (reply false (fun v => 0 <? ToInt v)).

Definition AsyncIncr (key : bytes) : command Z :=
  mkCommand ([text "INCR"; key])
    (reply 0 ToInt).

Definition AsyncIncrBy (key : bytes) (delta : Z) : command Z :=
  mkCommand ([text "INCRBY"; key; signed_string delta])
    (reply 0 ToInt).

(** Hash. *)

Definition AsyncHSet (key field value : bytes) : command Z :=
  mkCommand ([text "HSET"; key; field; value])
    (reply 0 ToInt).

Definition AsyncHGet (key field : bytes) : command bytes :=
  mkCommand ([text "HGET"; key; field])
    (reply [] ToString).

Definition AsyncHDel (key field : bytes) : command Z :=
  mkCommand ([text "HDEL"; key; field])
    (reply 0 ToInt).

Definition AsyncHKeys (key : bytes) : command (list bytes) :=
  mkCommand ([text "HKEYS"; key])
    (reply [] ToStrArray).

Definition AsyncHVals (key : bytes) : command (list bytes) :=
  mkCommand ([text "HVALS"; key])
    (reply [] ToStrArray).

Definition AsyncHLen (key : bytes) : command Z :=
  mkCommand ([text "HLEN"; key])
    (reply 0 ToInt).

(** List. *)

Definition AsyncLPush (key value : bytes) : command Z :=
  mkCommand ([text "LPUSH"; key; value])
    (reply 0 ToInt).

Definition AsyncRPush (key value : bytes) : command Z :=
  mkCommand ([text "RPUSH"; key; value])
    (reply 0 ToInt).

Definition AsyncLPop (key : bytes) : command bytes :=
  mkCommand ([text "LPOP"; key])
    (reply [] ToString).

Definition AsyncRPop (key : bytes) : command bytes :=
  mkCommand ([text "RPOP"; key])
    (reply [] ToString).

Definition AsyncLLen (key : bytes) : command Z :=
  mkCommand ([text "LLEN"; key])
    (reply 0 ToInt).

(** Sorted set. *)

Definition AsyncZAdd (key : bytes) (score : double) (member : bytes) : command Z :=
  mkCommand ([text "ZADD"; key; d_to_string score; member])
    (reply 0 ToInt).

Definition AsyncZRange (key : bytes) (start stop : Z) (with_scores : bool) : command (list bytes) :=
  mkCommand ([text "ZRANGE"; key; signed_string start; signed_string stop] ++ (if with_scores then [text "WITHSCORES"] else []))
    (reply [] ToStrArray).

Definition AsyncZRevRange (key : bytes) (start stop : Z) (with_scores : bool) : command (list bytes) :=
  mkCommand ([text "ZREVRANGE"; key; signed_string start; signed_string stop] ++ (if with_scores then [text "WITHSCORES"] else []))
    (reply [] ToStrArray).

Definition AsyncZCard (key : bytes) : command Z :=
  mkCommand ([text "ZCARD"; key])
    (reply 0 ToInt).

Definition AsyncZRem (key member : bytes) : command Z :=
  mkCommand ([text "ZREM"; key; member])
    (reply 0 ToInt).

Definition AsyncZScore (key member : bytes) : command double :=
  mkCommand ([text "ZSCORE"; key; member])
    (reply d_minus_one ToDouble).

Definition AsyncZRank (key member : bytes) : command Z :=
  mkCommand ([text "ZRANK"; key; member])
    (reply (-1) ToInt).

Definition AsyncZRevRank (key member : bytes) : command Z :=
  mkCommand ([text "ZREVRANK"; key; member])
    (reply (-1) ToInt).

Definition AsyncZCount (key : bytes) (min max : double) : command Z :=
  mkCommand ([text "ZCOUNT"; key; d_to_string min; d_to_string max])
    (reply 0 ToInt).

Definition AsyncZIncrBy (key member : bytes) (delta : double) : command double :=
  mkCommand ([text "ZINCRBY"; key; d_to_string delta; member])
    (reply d_zero ToDouble).

Definition AsyncZRangeByScore (key : bytes) (min max : double) (with_scores : bool) : command (list bytes) :=
  mkCommand ([text "ZRANGEBYSCORE"; key; d_to_string min; d_to_string max] ++ (if with_scores then [text "WITHSCORES"] else []))
    (reply [] ToStrArray).

Definition AsyncZRevRangeByScore (key : bytes) (min max : double) (with_scores : bool) : command (list bytes) :=
  mkCommand ([text "ZREVRANGEBYSCORE"; key; d_to_string max; d_to_string min] ++ (if with_scores then [text "WITHSCORES"] else []))
    (reply [] ToStrArray).

Definition AsyncZRemRangeByRank (key : bytes) (start stop : Z) : command Z :=
  mkCommand ([text "ZREMRANGEBYRANK"; key; signed_string start; signed_string stop])
    (reply 0 ToInt).

Definition AsyncZRemRangeByScore (key : bytes) (min max : double) : command Z :=
  mkCommand ([text "ZREMRANGEBYSCORE"; key; d_to_string min; d_to_string max])
    (reply 0 ToInt).

Definition AsyncZRangeWithScores (key : bytes) (start stop : Z) : command (list (bytes * double)) :=
  mkCommand ([text "ZRANGE"; key; signed_string start; signed_string stop; text "WITHSCORES"])
    (reply [] ToPairs).

Definition AsyncZRevRangeWithScores (key : bytes) (start stop : Z) : command (list (bytes * double)) :=
  mkCommand ([text "ZREVRANGE"; key; signed_string start; signed_string stop; text "WITHSCORES"])
    (reply [] ToPairs).

(** Keys. *)

Definition AsyncExpire (key : bytes) (seconds : Z) : command bool :=
  mkCommand ([text "EXPIRE"; key; signed_string seconds])
    (reply false (fun v => 0 <? ToInt v)).

Definition AsyncTTL (key : bytes) : command Z :=
  mkCommand ([text "TTL"; key])
    (reply (-2) ToInt).

Definition AsyncPing : command bool :=
  mkCommand [text "PING"] (fun v => (if is_error v then err v else no_error, negb (is_error v))).

Definition AsyncCall (cmd : bytes) (args : list bytes) : command RedisValue :=
  mkCommand (cmd :: args) (fun v => (if is_error v then err v else no_error, v)).

Definition AsyncEval (script : bytes) (keys args : list bytes) : command RedisValue :=
  AsyncCall (text "EVAL") (script :: to_string (Z.of_nat (length keys)) :: keys ++ args).

(** ** Coroutines: the value alone, or for [CoSet] and [CoSetEx] whether there was no error *)

Record lazy (T : Type) := mkLazy { lazy_argv : list bytes; resumes_with : RedisValue -> T }.
#[global] Arguments mkLazy {T} _ _.
#[global] Arguments lazy_argv {T} _.
#[global] Arguments resumes_with {T} _ _.

Definition CbToLazyBool (c : command unit) : lazy bool :=
  mkLazy (argv c) (fun v => negb (failed (fst (on_reply c v)))).

Definition CbToLazyStr (c : command bytes) : lazy bytes := mkLazy (argv c) (fun v => snd (on_reply c v)).
Definition CbToLazyInt (c : command Z) : lazy Z := mkLazy (argv c) (fun v => snd (on_reply c v)).
Definition CbToLazyDouble (c : command double) : lazy double := mkLazy (argv c) (fun v => snd (on_reply c v)).
Definition CbToLazyBoolCb (c : command bool) : lazy bool := mkLazy (argv c) (fun v => snd (on_reply c v)).
Definition CbToLazyStrVec (c : command (list bytes)) : lazy (list bytes) :=
  mkLazy (argv c) (fun v => snd (on_reply c v)).
Definition CbToLazyPairs (c : command (list (bytes * double))) : lazy (list (bytes * double)) :=
  mkLazy (argv c) (fun v => snd (on_reply c v)).

Definition CoSet (key value : bytes) : lazy bool := CbToLazyBool (AsyncSet key value).

Definition CoSetEx (key value : bytes) (ttl_seconds : Z) : lazy bool := CbToLazyBool (AsyncSetEx key value ttl_seconds).

Definition CoGet (key : bytes) : lazy bytes := CbToLazyStr (AsyncGet key).

Definition CoDel (key : bytes) : lazy Z := CbToLazyInt (AsyncDel key).

Definition CoExists (key : bytes) : lazy bool := CbToLazyBoolCb (AsyncExists key).

Definition CoIncr (key : bytes) : lazy Z := CbToLazyInt (AsyncIncr key).

Definition CoIncrBy (key : bytes) (delta : Z) : lazy Z := CbToLazyInt (AsyncIncrBy key delta).

Definition CoHSet (key field value : bytes) : lazy Z := CbToLazyInt (AsyncHSet key field value).

Definition CoHGet (key field : bytes) : lazy bytes := CbToLazyStr (AsyncHGet key field).

Definition CoHDel (key field : bytes) : lazy Z := CbToLazyInt (AsyncHDel key field).

Definition CoHKeys (key : bytes) : lazy (list bytes) := CbToLazyStrVec (AsyncHKeys key).

Definition CoHVals (key : bytes) : lazy (list bytes) := CbToLazyStrVec (AsyncHVals key).

Definition CoHLen (key : bytes) : lazy Z := CbToLazyInt (AsyncHLen key).

Definition CoLPush (key value : bytes) : lazy Z := CbToLazyInt (AsyncLPush key value).

Definition CoRPush (key value : bytes) : lazy Z := CbToLazyInt (AsyncRPush key value).

Definition CoLPop (key : bytes) : lazy bytes := CbToLazyStr (AsyncLPop key).

Definition CoRPop (key : bytes) : lazy bytes := CbToLazyStr (AsyncRPop key).

Definition CoLLen (key : bytes) : lazy Z := CbToLazyInt (AsyncLLen key).

Definition CoZAdd (key : bytes) (score : double) (member : bytes) : lazy Z := CbToLazyInt (AsyncZAdd key score member).

Definition CoZRange (key : bytes) (start stop : Z) (with_scores : bool) : lazy (list bytes) := CbToLazyStrVec (AsyncZRange key start stop with_scores).

Definition CoZRevRange (key : bytes) (start stop : Z) (with_scores : bool) : lazy (list bytes) := CbToLazyStrVec (AsyncZRevRange key start stop with_scores).

Definition CoZCard (key : bytes) : lazy Z := CbToLazyInt (AsyncZCard key).

Definition CoZRem (key member : bytes) : lazy Z := CbToLazyInt (AsyncZRem key member).

Definition CoZScore (key member : bytes) : lazy double := CbToLazyDouble (AsyncZScore key member).

Definition CoZRank (key member : bytes) : lazy Z := CbToLazyInt (AsyncZRank key member).

Definition CoZRevRank (key member : bytes) : lazy Z := CbToLazyInt (AsyncZRevRank key member).

Definition CoZCount (key : bytes) (min max : double) : lazy Z := CbToLazyInt (AsyncZCount key min max).

Definition CoZIncrBy (key member : bytes) (delta : double) : lazy double := CbToLazyDouble (AsyncZIncrBy key member delta).

Definition CoZRangeByScore (key : bytes) (min max : double) (with_scores : bool) : lazy (list bytes) := CbToLazyStrVec (AsyncZRangeByScore key min max with_scores).

Definition CoZRevRangeByScore (key : bytes) (min max : double) (with_scores : bool) : lazy (list bytes) := CbToLazyStrVec (AsyncZRevRangeByScore key min max with_scores).

Definition CoZRemRangeByRank (key : bytes) (start stop : Z) : lazy Z := CbToLazyInt (AsyncZRemRangeByRank key start stop).

Definition CoZRemRangeByScore (key : bytes) (min max : double) : lazy Z := CbToLazyInt (AsyncZRemRangeByScore key min max).

Definition CoZRangeWithScores (key : bytes) (start stop : Z) : lazy (list (bytes * double)) := CbToLazyPairs (AsyncZRangeWithScores key start stop).

Definition CoZRevRangeWithScores (key : bytes) (start stop : Z) : lazy (list (bytes * double)) := CbToLazyPairs (AsyncZRevRangeWithScores key start stop).

Definition CoExpire (key : bytes) (seconds : Z) : lazy bool := CbToLazyBoolCb (AsyncExpire key seconds).

Definition CoTTL (key : bytes) : lazy Z := CbToLazyInt (AsyncTTL key).

Definition CoPing : lazy bool := CbToLazyBoolCb AsyncPing.

(** ** Lua *)

(** What a script gets.  A table made by assignments to 1, 2, ... is [LArray] ([LNil] leaves a
    hole), one made from a map [LRecord], one of [member] and [score] [LPairs]. *)
Inductive LuaValue :=
  | LNil | LBool (b : bool) | LInt (n : Z) | LNum (d : double) | LStr (s : bytes)
  | LArray (l : list LuaValue)
  | LRecord (m : list (bytes * LuaValue))
  | LPairs (l : list (bytes * double)).

(** Every second element from the first on is a string. *)
Definition flat_pairs (l : list RedisValue) : bool :=
  (2 <=? Z.of_nat (length l)) && (Z.of_nat (length l) mod 2 =? 0) && forallb id (pairwise (fun a _ => is_str a) l).

Fixpoint RedisValueToLua (v : RedisValue) : LuaValue :=
  match v with
  | Nil | Error _ => LNil
  | Bool b => LBool b
  | Int n => LInt n
  | Dbl d => LNum d
  | Str s => LStr s
  | Array l =>
      if flat_pairs l then LPairs (pairwise (fun a b => (as_str a, as_double b)) l)
      else LArray (List.map RedisValueToLua l)
  | Map m => LRecord (List.map (fun kv => (fst kv, RedisValueToLua (snd kv))) m)
  end.

(** The arguments [LuaCbBridge] calls the script's function with. *)
Definition error_text (ec : RedisError) : LuaValue := LStr (if failed ec then message ec else []).

Definition PostCb (ec : RedisError) : list LuaValue := [error_text ec].
Definition PostCbVal (ec : RedisError) (val : Z) : list LuaValue := [error_text ec; LInt val].
Definition PostCbStr (ec : RedisError) (val : bytes) : list LuaValue :=
  if failed ec then [LStr (message ec); LStr []] else [LStr []; LStr val].
Definition PostCbBool (ec : RedisError) (val : bool) : list LuaValue :=
  if failed ec then [LStr (message ec); LStr []] else [LStr []; LBool true].
Definition PostCbStrVec (ec : RedisError) (val : list bytes) : list LuaValue :=
  if failed ec then [LStr (message ec); LNil] else [LStr []; LArray (List.map LStr val)].
Definition PostCbDouble (ec : RedisError) (val : double) : list LuaValue :=
  if failed ec then [LStr (message ec); LNum d_minus_one] else [LStr []; LNum val].
Definition PostCbPairs (ec : RedisError) (pairs : list (bytes * double)) : list LuaValue :=
  if failed ec then [LStr (message ec); LNil] else [LStr []; LPairs pairs].
Definition PostCbGeneric (ec : RedisError) (resp : RedisValue) : list LuaValue :=
  if failed ec then [LStr (message ec); LNil] else [LStr []; RedisValueToLua resp].

(** A call of a script: [c] and [w] tell whether there are a connection and a worker; without
    them the call returns and the script's function is never called.  Else the words of the
    command, and the arguments of the script's function, which runs on the worker. *)
Record lua_request := mkRequest { lua_words : list bytes; callback_args : RedisValue -> list LuaValue }.

Definition bridge {T} (c w : bool) (cmd : command T) (post : RedisError -> T -> list LuaValue) : option lua_request :=
  if negb c || negb w then None
  else Some (mkRequest (argv cmd) (fun v => let '(ec, x) := on_reply cmd v in post ec x)).

Definition lua_AsyncSet (c w : bool) (key value : bytes) : option lua_request :=
  bridge c w (AsyncSet key value) (fun ec _ => PostCb ec).

Definition lua_AsyncSetEx (c w : bool) (key value : bytes) (ttl_seconds : Z) : option lua_request :=
  bridge c w (AsyncSetEx key value ttl_seconds) (fun ec _ => PostCb ec).

Definition lua_AsyncGet (c w : bool) (key : bytes) : option lua_request :=
  bridge c w (AsyncGet key) PostCbStr.

Definition lua_AsyncDel (c w : bool) (key : bytes) : option lua_request :=
  bridge c w (AsyncDel key) PostCbVal.

Definition lua_AsyncExists (c w : bool) (key : bytes) : option lua_request :=
  bridge c w (AsyncExists key) PostCbBool.

Definition lua_AsyncIncr (c w : bool) (key : bytes) : option lua_request :=
  bridge c w (AsyncIncr key) PostCbVal.

Definition lua_AsyncIncrBy (c w : bool) (key : bytes) (delta : Z) : option lua_request :=
  bridge c w (AsyncIncrBy key delta) PostCbVal.

Definition lua_AsyncHSet (c w : bool) (key field value : bytes) : option lua_request :=
  bridge c w (AsyncHSet key field value) PostCbVal.

Definition lua_AsyncHGet (c w : bool) (key field : bytes) : option lua_request :=
  bridge c w (AsyncHGet key field) PostCbStr.

Definition lua_AsyncHDel (c w : bool) (key field : bytes) : option lua_request :=
  bridge c w (AsyncHDel key field) PostCbVal.

Definition lua_AsyncHKeys (c w : bool) (key : bytes) : option lua_request :=
  bridge c w (AsyncHKeys key) PostCbStrVec.

Definition lua_AsyncHVals (c w : bool) (key : bytes) : option lua_request :=
  bridge c w (AsyncHVals key) PostCbStrVec.

Definition lua_AsyncHLen (c w : bool) (key : bytes) : option lua_request :=
  bridge c w (AsyncHLen key) PostCbVal.

Definition lua_AsyncLPush (c w : bool) (key value : bytes) : option lua_request :=
  bridge c w (AsyncLPush key value) PostCbVal.

Definition lua_AsyncRPush (c w : bool) (key value : bytes) : option lua_request :=
  bridge c w (AsyncRPush key value) PostCbVal.

Definition lua_AsyncLPop (c w : bool) (key : bytes) : option lua_request :=
  bridge c w (AsyncLPop key) PostCbStr.

Definition lua_AsyncRPop (c w : bool) (key : bytes) : option lua_request :=
  bridge c w (AsyncRPop key) PostCbStr.

Definition lua_AsyncLLen (c w : bool) (key : bytes) : option lua_request :=
  bridge c w (AsyncLLen key) PostCbVal.

Definition lua_AsyncZAdd (c w : bool) (key : bytes) (score : double) (member : bytes) : option lua_request :=
  bridge c w (AsyncZAdd key score member) PostCbVal.

Definition lua_AsyncZRange (c w : bool) (key : bytes) (start stop : Z) (with_scores : bool) : option lua_request :=
  bridge c w (AsyncZRange key start stop with_scores) PostCbStrVec.

Definition lua_AsyncZRevRange (c w : bool) (key : bytes) (start stop : Z) (with_scores : bool) : option lua_request :=
  bridge c w (AsyncZRevRange key start stop with_scores) PostCbStrVec.

Definition lua_AsyncZCard (c w : bool) (key : bytes) : option lua_request :=
  bridge c w (AsyncZCard key) PostCbVal.

Definition lua_AsyncZRem (c w : bool) (key member : bytes) : option lua_request :=
  bridge c w (AsyncZRem key member) PostCbVal.

Definition lua_AsyncZScore (c w : bool) (key member : bytes) : option lua_request :=
  bridge c w (AsyncZScore key member) PostCbDouble.

Definition lua_AsyncZRank (c w : bool) (key member : bytes) : option lua_request :=
  bridge c w (AsyncZRank key member) PostCbVal.

Definition lua_AsyncZRevRank (c w : bool) (key member : bytes) : option lua_request :=
  bridge c w (AsyncZRevRank key member) PostCbVal.

Definition lua_AsyncZCount (c w : bool) (key : bytes) (min max : double) : option lua_request :=
  bridge c w (AsyncZCount key min max) PostCbVal.

Definition lua_AsyncZIncrBy (c w : bool) (key member : bytes) (delta : double) : option lua_request :=
  bridge c w (AsyncZIncrBy key member delta) PostCbDouble.

Definition lua_AsyncZRangeByScore (c w : bool) (key : bytes) (min max : double) (with_scores : bool) : option lua_request :=
  bridge c w (AsyncZRangeByScore key min max with_scores) PostCbStrVec.

Definition lua_AsyncZRevRangeByScore (c w : bool) (key : bytes) (min max : double) (with_scores : bool) : option lua_request :=
  bridge c w (AsyncZRevRangeByScore key min max with_scores) PostCbStrVec.

Definition lua_AsyncZRemRangeByRank (c w : bool) (key : bytes) (start stop : Z) : option lua_request :=
  bridge c w (AsyncZRemRangeByRank key start stop) PostCbVal.

Definition lua_AsyncZRemRangeByScore (c w : bool) (key : bytes) (min max : double) : option lua_request :=
  bridge c w (AsyncZRemRangeByScore key min max) PostCbVal.

Definition lua_AsyncZRangeWithScores (c w : bool) (key : bytes) (start stop : Z) : option lua_request :=
  bridge c w (AsyncZRangeWithScores key start stop) PostCbPairs.

Definition lua_AsyncZRevRangeWithScores (c w : bool) (key : bytes) (start stop : Z) : option lua_request :=
  bridge c w (AsyncZRevRangeWithScores key start stop) PostCbPairs.

Definition lua_AsyncExpire (c w : bool) (key : bytes) (seconds : Z) : option lua_request :=
  bridge c w (AsyncExpire key seconds) (fun ec _ => PostCb ec).

Definition lua_AsyncTTL (c w : bool) (key : bytes) : option lua_request :=
  bridge c w (AsyncTTL key) PostCbVal.

Definition lua_AsyncPing (c w : bool) : option lua_request := bridge c w AsyncPing PostCbBool.

Definition lua_AsyncCall (c w : bool) (cmd : bytes) (args : list bytes) : option lua_request :=
  bridge c w (AsyncCall cmd args) PostCbGeneric.

(** The tables of keys and arguments as the lists of strings in them. *)
Definition lua_AsyncEval (c w : bool) (script : bytes) (keys args : list bytes) : option lua_request :=
  bridge c w (AsyncEval script keys args) PostCbGeneric.

(** ** Lemmas *)

Lemma signed_string_cons n : signed_string n <> [].
Proof.
  unfold signed_string. destruct (n <? 0); [done|]. unfold to_string. intros E.
  assert (forall f m acc, acc <> [] -> to_digits f m acc <> []) as H.
  { induction f as [|f IH]; intros m acc Ha; simpl; [done|]. destruct (m <? 10); [done|by apply IH]. }
  revert E. change (to_digits 20 n []) with
    (if n <? 10 then [48 + n mod 10] else to_digits 19 (n / 10) [48 + n mod 10]).
  destruct (n <? 10); [done|by apply H].
Qed.

Lemma SafeStoll_signed_string n : in_s 64 n -> SafeStoll (signed_string n) = n.
Proof.
  intros H. unfold SafeStoll. pose proof (signed_string_cons n) as Hc.
  destruct (signed_string n) eqn:E; [done|]. by rewrite <- E, strtoll_signed_string.
Qed.

Lemma SafeStoll_range s : in_s 64 (SafeStoll s).
Proof.
  unfold SafeStoll. destruct s as [|c r]; [unfold in_s; lia|].
  destruct (strtoll (c :: r)) eqn:E; simpl; [by eapply strtoll_range|unfold in_s; lia].
Qed.

(** An integer of the server arrives as itself, whether it comes as an integer or as text. *)
Lemma int_survives_text n : in_s 64 n ->
  ToInt (Int n) = n /\ ToInt (Str (ToString (Int n))) = n /\ as_int (Str (as_str (Int n))) = n.
Proof. intros H. simpl. by rewrite SafeStoll_signed_string. Qed.

(** ** Well-formed replies give well-formed values *)

(** Every integer in the tree is an [int64_t]. *)
Fixpoint value_ok (v : RedisValue) : Prop :=
  match v with
  | Int n => in_s 64 n
  | Array l => (fix all l := match l with x :: r => value_ok x /\ all r | [] => True end) l
  | Map m => (fix all m := match m with (_, x) :: r => value_ok x /\ all r | [] => True end) m
  | _ => True
  end.

Fixpoint reply_ok (r : redisReply) : Prop :=
  match r with
  | mkReply _ n _ _ els =>
      in_s 64 n /\ (fix all l := match l with Some e :: r => reply_ok e /\ all r | None :: r => all r | [] => True end) els
  end.

Fixpoint FromReply_ok (r : redisReply) : reply_ok r -> value_ok (FromReply r).
Proof.
  destruct r as [ty n d s els]. intros [Hn Hels].
  destruct ty; simpl; try done.
  1-3: induction els as [|[e|] els IH]; simpl; [done|destruct Hels; split; [by apply FromReply_ok|by apply IH]|split; [done|by apply IH]].
  all: revert els Hels; fix IH 1; intros [|k [|v r]] Hels; simpl; [done|done|].
  all: destruct v as [v|]; split; [|apply IH| |apply IH]; try done; destruct k; simpl in Hels; try apply FromReply_ok; apply Hels.
Qed.

(** The list conversions and the number of an answer are those of a well-formed value. *)
Lemma ToInt_range v : (forall d, in_s 64 (d_to_int d)) -> value_ok v -> in_s 64 (ToInt v).
Proof.
  intros Hd Hv. destruct v; simpl in *; try done; try (unfold in_s; lia).
  - destruct b; unfold in_s; lia.
  - apply SafeStoll_range.
Qed.

(** ** The two protocol versions *)

(** What a server answers to a query with scores: names and scores as a flat list of texts
    (RESP2), or as a list of pairs whose score is a double (RESP3). *)
Definition flat_reply (l : list (bytes * bytes * double)) : RedisValue :=
  Array (l ≫= fun '(m, t, _) => [Str m; Str t]).
Definition nested_reply (l : list (bytes * bytes * double)) : RedisValue :=
  Array ((fun '(m, _, d) => Array [Str m; Dbl d]) <$> l).

Lemma ToPairs_flat l :
  ToPairs (flat_reply l) = (fun '(m, t, _) => (m, SafeStod t)) <$> l.
Proof.
  assert (ToPairs (flat_reply l) =
    pairwise (fun a b => (as_str a, SafeStod (as_str b))) (l ≫= fun '(m, t, _) => [Str m; Str t])) as ->
    by (by destruct l as [|[[m t] d] r]).
  induction l as [|[[m t] d] r IH]; [done|]. rewrite bind_cons, fmap_cons. cbn [app pairwise as_str]. by rewrite IH.
Qed.

Lemma ToPairs_nested l :
  ToPairs (nested_reply l) = (fun '(m, _, d) => (m, d)) <$> l.
Proof.
  assert (ToPairs (nested_reply l) = ((fun '(m, _, d) => Array [Str m; Dbl d]) <$> l) ≫=
    fun item => match item with Array (m :: s :: _) => [(as_str m, as_double s)] | _ => [] end) as ->
    by (by destruct l as [|[[m t] d] r]).
  induction l as [|[[m t] d] r IH]; [done|]. rewrite !fmap_cons, bind_cons. cbn [app as_str as_double]. by rewrite IH.
Qed.

(** [ToPairs] hides the version of the protocol: when the text of each score denotes the
    double the other version sends, both replies to a query with scores give the members and
    scores that the server holds, in its order; and [ToStrArray] gives the same members, but
    the scores as the server wrote them in one version and as [std::to_string] in the other. *)
Theorem resp_versions_agree (l : list (bytes * bytes * double)) :
  Forall (fun '(_, t, d) => SafeStod t = d) l ->
  ToPairs (flat_reply l) = (fun '(m, _, d) => (m, d)) <$> l /\
  ToPairs (nested_reply l) = (fun '(m, _, d) => (m, d)) <$> l /\
  ToStrArray (flat_reply l) = (l ≫= fun '(m, t, _) => [m; t]) /\
  ToStrArray (nested_reply l) = (l ≫= fun '(m, _, d) => [m; d_to_string d]).
Proof.
  intros Hl. splits.
  - rewrite ToPairs_flat. induction Hl as [|[[m t] d] r E _ IH]; [done|]. by rewrite !fmap_cons, E, IH.
  - apply ToPairs_nested.
  - unfold ToStrArray, flat_reply. clear Hl. induction l as [|[[m t] d] r IH]; [done|].
    rewrite !bind_cons, bind_app, IH. done.
  - unfold ToStrArray, nested_reply. clear Hl. induction l as [|[[m t] d] r IH]; [done|].
    rewrite fmap_cons, !bind_cons, IH. done.
Qed.

(** ** Commands *)

(** The words of an [EVAL] say which are keys and which arguments. *)
Definition read_eval (words : list bytes) : option (bytes * list bytes * list bytes) :=
  match words with
  | _ :: script :: n :: rest =>
      k ← stoul n;
      if Z.of_nat (length rest) <? k then None else Some (script, take (Z.to_nat k) rest, drop (Z.to_nat k) rest)
  | _ => None
  end.

Lemma eval_words_are_read (script : bytes) (keys args : list bytes) :
  in_u 64 (Z.of_nat (length keys)) ->
  read_eval (argv (AsyncEval script keys args)) = Some (script, keys, args).
Proof.
  intros Hk. cbn [AsyncEval AsyncCall argv read_eval].
  destruct (to_string_spec _ Hk) as (_ & _ & ->). cbn [mbind option_bind].
  rewrite length_app, (proj2 (Z.ltb_ge _ _)) by lia.
  by rewrite Nat2Z.id, take_app_length, drop_app_length.
Qed.

(** An answer that is an error reaches the callback as an error with its text; the same answer
    reaches a coroutine as the value that stands for no answer, and only [CoSet] and [CoSetEx]
    tell. *)
Lemma errors_reach_callbacks_only (key value : bytes) (msg : bytes) :
  on_reply (AsyncGet key) (Error msg) = (mkError (-1) msg, []) /\
  on_reply (AsyncIncr key) (Error msg) = (mkError (-1) msg, 0) /\
  on_reply (AsyncHKeys key) (Error msg) = (mkError (-1) msg, []) /\
  on_reply (AsyncZRank key value) (Error msg) = (mkError (-1) msg, -1) /\
  resumes_with (CoSet key value) (Error msg) = false /\
  resumes_with (CoGet key) (Error msg) = resumes_with (CoGet key) Nil /\
  resumes_with (CoIncr key) (Error msg) = 0 /\
  resumes_with (CoHKeys key) (Error msg) = resumes_with (CoHKeys key) (Array []).
Proof. done. Qed.

(** A member that is not there (a nil answer) has the rank of the first member. *)
Lemma absent_member_ranks_first (key member : bytes) :
  on_reply (AsyncZRank key member) Nil = on_reply (AsyncZRank key member) (Int 0).
Proof. done. Qed.

(** ** Lua *)

Lemma flat_pairs_strings (l : list bytes) :
  l <> [] -> Nat.Even (length l) -> flat_pairs (List.map Str l) = true.
Proof.
  intros Hn [k Hk]. unfold flat_pairs. rewrite length_map. rewrite !andb_true_iff. splits.
  - destruct l as [|a [|b r]]; [done|simpl in Hk; lia|]. cbn [length]. lia.
  - rewrite Hk. replace (Z.of_nat (2 * k)) with (Z.of_nat k * 2) by lia. by rewrite Z.mod_mul.
  - clear Hn. revert l Hk. induction k as [|k IH]; intros l Hk; [by destruct l|].
    destruct l as [|a [|b r]]; [simpl in Hk; lia..|]. cbn. apply IH. simpl in Hk. lia.
Qed.

(** What the script's function gets for the answer [v]; [None] when it is never called. *)
Definition answer (r : option lua_request) (v : RedisValue) : option (list LuaValue) :=
  q ← r; Some (callback_args q v).

Lemma lua_strings_even (cmd : bytes) (args : list bytes) (l : list bytes) :
  l <> [] -> Nat.Even (length l) ->
  answer (lua_AsyncCall true true cmd args) (Array (List.map Str l)) =
  Some [LStr []; LPairs (pairwise (fun member score => (member, SafeStod score)) l)].
Proof.
  intros Hn He. cbn [answer lua_AsyncCall bridge negb orb mbind option_bind callback_args AsyncCall on_reply is_error].
  unfold PostCbGeneric. cbn [failed code no_error Z.eqb negb RedisValueToLua].
  rewrite flat_pairs_strings by done. do 4 f_equal. destruct He as [k Hk]. clear Hn.
  revert l Hk. induction k as [|k IH]; intros l Hk; [by destruct l|].
  destruct l as [|a [|b r]]; [simpl in Hk; lia..|]. cbn. f_equal. apply IH. simpl in Hk. lia.
Qed.

Lemma lua_strings_odd (cmd : bytes) (args : list bytes) (l : list bytes) :
  Nat.Odd (length l) ->
  answer (lua_AsyncCall true true cmd args) (Array (List.map Str l)) = Some [LStr []; LArray (List.map LStr l)].
Proof.
  intros [k Hk]. cbn [answer lua_AsyncCall bridge negb orb mbind option_bind callback_args AsyncCall on_reply is_error].
  unfold PostCbGeneric. cbn [failed code no_error Z.eqb negb RedisValueToLua].
  assert (flat_pairs (List.map Str l) = false) as ->.
  { unfold flat_pairs. rewrite length_map, Hk. apply andb_false_iff. left. apply andb_false_iff. right.
    apply Z.eqb_neq. replace (Z.of_nat (2 * k + 1)) with (1 + Z.of_nat k * 2) by lia. by rewrite Z.mod_add. }
  by rewrite map_map.
Qed.

(** What a script gets from [redis.AsyncCall] when the answer is a list of strings of even
    length, as of HKEYS, LRANGE, MGET or KEYS, is not the list: every second string is made a
    score, and what it said is lost unless it was a number; [redis.AsyncExists] and
    [redis.AsyncPing] answer true whatever the server answered, unless it was an error; and
    without a connection the function of the script is never called. *)
Theorem lua_loses_answers (cmd : bytes) (args l : list bytes) (key : bytes) (n : Z) (w : bool) :
  l <> [] ->
  (Nat.Even (length l) ->
     answer (lua_AsyncCall true true cmd args) (Array (List.map Str l)) =
     Some [LStr []; LPairs (pairwise (fun member score => (member, SafeStod score)) l)]) /\
  (Nat.Odd (length l) ->
     answer (lua_AsyncCall true true cmd args) (Array (List.map Str l)) = Some [LStr []; LArray (List.map LStr l)]) /\
  answer (lua_AsyncExists true true key) (Int n) = Some [LStr []; LBool true] /\
  (forall v, is_error v = false -> answer (lua_AsyncPing true true) v = Some [LStr []; LBool true]) /\
  lua_AsyncGet false w key = None.
Proof.
  intros Hn. splits.
  - by apply lua_strings_even.
  - apply lua_strings_odd.
  - done.
  - intros v Hv. unfold lua_AsyncPing, bridge, AsyncPing. simpl. by rewrite Hv.
  - done.
Qed.

End WithDouble.

(** ** Concrete doubles *)

(** Doubles that hold integers, for the witnesses. *)
#[local] Instance int_double : Double := {|
  double := Z; d_zero := 0; d_one := 1; d_minus_one := -1; d_of_int := id; d_to_int := clamp64;
  strtod := strtoll; d_to_string := fun d => signed_string d ++ text ".000000";
|}.

Definition two_scores : list (bytes * bytes * double) := [(text "ann", text "12", 12); (text "bob", text "-3", -3)].

Lemma resp_versions_agree_witness :
  Forall (fun '(_, t, d) => SafeStod t = d) two_scores /\
  ToPairs (nested_reply two_scores) = ToPairs (flat_reply two_scores).
Proof.
  assert (Forall (fun '(_, t, d) => SafeStod t = d) two_scores) as H by repeat constructor.
  split; [exact H|]. destruct (resp_versions_agree two_scores H) as (H1 & H2 & _). by rewrite H1.
Defined.

Lemma lua_loses_answers_witness :
  answer (lua_AsyncCall true true (text "HKEYS") [text "h"]) (Array (List.map Str [text "name"; text "level"])) =
  Some [LStr []; LPairs [(text "name", d_zero)]].
Proof.
  destruct (lua_loses_answers (text "HKEYS") [text "h"] [text "name"; text "level"] [] 0 true) as (H & _); [discriminate|].
  etransitivity; [apply H|reflexivity]. exists 1%nat. reflexivity.
Defined.

End RedisValue.
