(* ===== verification/RedisConn.v ===== *)
(** * RedisConn: the life of a Redis connection and its pool
    ([src/db/redis/redis_connection.cpp], [redis_pool.cpp])

    The connection is driven by its callers, by the jobs it posts to its I/O context and by
    the events of hiredis.  Of hiredis the model states what its documentation says: a context
    is freed after the callback that reports a failed connect or the disconnection, and by
    [redisAsyncFree]; the callbacks of outstanding commands are then called with a null reply;
    replies come in the order of the commands.  Doing anything with a freed context, calling
    an empty [std::function] and setting a promise twice are faults. *)

From S2P Require Import Prelude Decimal RedisValue.

Module RedisConnection.
Import RedisValue.RedisValue.
Section WithDouble.
Context `{D : Double}.

(** ** State *)

(** The function in [pending_cb_]: the one of a user's command, which may itself issue a
    command, or a step of the handshake of a [ConnectChain]. *)
Inductive callback :=
  | User (id : nat) (inner : option nat)
  | PingStep (chain : nat) | HelloStep (chain : nat) | SelectStep (chain : nat).

Record ConnectChain := mkChain { promise : option bool; done : bool; step_ : Z }.

Inductive context := Connecting | Connected | Freed.

Inductive job := JStart (chain : nat) | JFail | JDisconnect.

Inductive fault := UsedFreed (ctx : nat) | EmptyCallback | PromiseTwice.

Record conn := mkConn {
  db_index : Z;
  connected_ : bool;
  ctx_alive_ : bool;
  async_ctx_ : option nat;
  connect_state_ : option nat;
  pending_cb_ : option callback;
  chains : gmap nat ConnectChain;
  waiting : option nat;                  (* the chain whose promise [Connect] waits for *)
  results : list bool;                   (* what the calls of [Connect] returned *)
  io : list job;                         (* posted to [io_ctx_] *)
  contexts : gmap nat context;           (* of hiredis *)
  sent : list (list bytes);              (* commands hiredis has no reply for *)
  called : list (nat * RedisValue);      (* users' callbacks *)
  faults : list fault;
}.

Definition make (db : Z) : conn := mkConn db false false None None None ∅ None [] [] ∅ [] [] [].

Definition set_connected (b : bool) (s : conn) : conn :=
  mkConn (db_index s) b (ctx_alive_ s) (async_ctx_ s) (connect_state_ s) (pending_cb_ s) (chains s) (waiting s)
    (results s) (io s) (contexts s) (sent s) (called s) (faults s).
Definition set_ctx (alive : bool) (c : option nat) (s : conn) : conn :=
  mkConn (db_index s) (connected_ s) alive c (connect_state_ s) (pending_cb_ s) (chains s) (waiting s)
    (results s) (io s) (contexts s) (sent s) (called s) (faults s).
Definition set_connect_state (c : option nat) (s : conn) : conn :=
  mkConn (db_index s) (connected_ s) (ctx_alive_ s) (async_ctx_ s) c (pending_cb_ s) (chains s) (waiting s)
    (results s) (io s) (contexts s) (sent s) (called s) (faults s).
Definition set_pending (cb : option callback) (s : conn) : conn :=
  mkConn (db_index s) (connected_ s) (ctx_alive_ s) (async_ctx_ s) (connect_state_ s) cb (chains s) (waiting s)
    (results s) (io s) (contexts s) (sent s) (called s) (faults s).
Definition set_chains (m : gmap nat ConnectChain) (s : conn) : conn :=
  mkConn (db_index s) (connected_ s) (ctx_alive_ s) (async_ctx_ s) (connect_state_ s) (pending_cb_ s) m (waiting s)
    (results s) (io s) (contexts s) (sent s) (called s) (faults s).
Definition set_waiting (c : option nat) (r : list bool) (s : conn) : conn :=
  mkConn (db_index s) (connected_ s) (ctx_alive_ s) (async_ctx_ s) (connect_state_ s) (pending_cb_ s) (chains s) c
    r (io s) (contexts s) (sent s) (called s) (faults s).
Definition set_io (q : list job) (s : conn) : conn :=
  mkConn (db_index s) (connected_ s) (ctx_alive_ s) (async_ctx_ s) (connect_state_ s) (pending_cb_ s) (chains s)
    (waiting s) (results s) q (contexts s) (sent s) (called s) (faults s).
Definition set_contexts (m : gmap nat context) (s : conn) : conn :=
  mkConn (db_index s) (connected_ s) (ctx_alive_ s) (async_ctx_ s) (connect_state_ s) (pending_cb_ s) (chains s)
    (waiting s) (results s) (io s) m (sent s) (called s) (faults s).
Definition set_sent (l : list (list bytes)) (s : conn) : conn :=
  mkConn (db_index s) (connected_ s) (ctx_alive_ s) (async_ctx_ s) (connect_state_ s) (pending_cb_ s) (chains s)
    (waiting s) (results s) (io s) (contexts s) l (called s) (faults s).
Definition call_user (id : nat) (v : RedisValue) (s : conn) : conn :=
  mkConn (db_index s) (connected_ s) (ctx_alive_ s) (async_ctx_ s) (connect_state_ s) (pending_cb_ s) (chains s)
    (waiting s) (results s) (io s) (contexts s) (sent s) (called s ++ [(id, v)]) (faults s).
Definition fail (f : fault) (s : conn) : conn :=
  mkConn (db_index s) (connected_ s) (ctx_alive_ s) (async_ctx_ s) (connect_state_ s) (pending_cb_ s) (chains s)
    (waiting s) (results s) (io s) (contexts s) (sent s) (called s) (faults s ++ [f]).

Definition post (j : job) (s : conn) : conn := set_io (io s ++ [j]) s.

(** ** Commands *)

Definition not_connected : RedisValue := Error (text "not connected").

(** The guard of [PostCommand]. *)
Definition refused (s : conn) : bool :=
  match async_ctx_ s with None => true | Some _ => negb (connected_ s) end.

(** [PostCommand] past its guard; [rc] tells whether hiredis takes the command. *)
Definition send (words : list bytes) (cb : callback) (rc : bool) (s : conn) : conn :=
  let s := set_pending (Some cb) s in
  if rc then set_sent (sent s ++ [words]) s else set_pending None s.

Definition PostUser (words : list bytes) (id : nat) (inner : option nat) (rc : bool) (s : conn) : conn :=
  if refused s then call_user id not_connected s else send words (User id inner) rc s.

(** ** The handshake *)

Definition set_promise (c : nat) (b : bool) (s : conn) : conn :=
  match chains s !! c with
  | Some (mkChain None d n) => set_chains (<[c := mkChain (Some b) d n]> (chains s)) s
  | _ => fail PromiseTwice s
  end.

Definition set_done (c : nat) (s : conn) : conn :=
  match chains s !! c with
  | Some ch => set_chains (<[c := mkChain (promise ch) true (step_ ch)]> (chains s)) s
  | None => s
  end.

Definition set_step (c : nat) (n : Z) (s : conn) : conn :=
  match chains s !! c with
  | Some ch => set_chains (<[c := mkChain (promise ch) (done ch) n]> (chains s)) s
  | None => s
  end.

Definition chain_done (c : nat) (s : conn) : bool := match chains s !! c with Some ch => done ch | None => true end.
Definition chain_step (c : nat) (s : conn) : Z := match chains s !! c with Some ch => step_ ch | None => 0 end.

(** Both ends of the handshake. *)
Definition chain_fails (c : nat) (s : conn) : conn := set_done c (set_promise c false s).
Definition chain_succeeds (c : nat) (s : conn) : conn := set_connected true (set_done c (set_promise c true s)).

(** Step 2: SELECT, or the end. *)
Definition select_reply (c : nat) (v : RedisValue) (s : conn) : conn :=
  if is_error v then chain_fails c s else chain_succeeds c s.

Definition select_step (c : nat) (rc : bool) (s : conn) : conn :=
  if 0 <? db_index s then
    if refused s then select_reply c not_connected s
    else send [text "SELECT"; signed_string (db_index s)] (SelectStep c) rc s
  else chain_succeeds c s.

(** Step 1: HELLO 3, which an old server may refuse. *)
Definition hello_reply (c : nat) (v : RedisValue) (rc : bool) (s : conn) : conn :=
  let s := set_step c 2 s in
  if chain_done c s then s else select_step c rc s.

Definition hello_step (c : nat) (rc : bool) (s : conn) : conn :=
  if refused s then hello_reply c not_connected rc s
  else send [text "HELLO"; text "3"] (HelloStep c) rc s.

(** Step 0: PING. *)
Definition ping_reply (c : nat) (v : RedisValue) (rc : bool) (s : conn) : conn :=
  if is_error v then chain_fails c s
  else
    let s := set_step c 1 s in
    if chain_done c s then s else hello_step c rc s.

Definition ping_step (c : nat) (rc : bool) (s : conn) : conn :=
  if refused s then ping_reply c not_connected rc s
  else send [text "PING"] (PingStep c) rc s.

Definition OnConnectStep (c : nat) (rc : bool) (s : conn) : conn :=
  if chain_done c s then s
  else if chain_step c s =? 0 then ping_step c rc s
  else if chain_step c s =? 1 then hello_step c rc s
  else if chain_step c s =? 2 then select_step c rc s
  else chain_succeeds c s.

(** ** Events of hiredis *)

Definition run_callback (cb : callback) (v : RedisValue) (rc : bool) (s : conn) : conn :=
  match cb with
  | User id inner =>
      let s := call_user id v s in
      match inner with Some i => PostUser [text "GET"] i None rc s | None => s end
  | PingStep c => ping_reply c v rc s
  | HelloStep c => hello_reply c v rc s
  | SelectStep c => select_reply c v s
  end.

(** [CommandCallback]: the slot is cleared after the callback, whatever the callback put there. *)
Definition CommandCallback (r : option redisReply) (rc : bool) (s : conn) : conn :=
  match pending_cb_ s with
  | None => fail EmptyCallback s
  | Some cb => set_pending None (run_callback cb (from_pointer r) rc s)
  end.

(** Outstanding commands when a context goes away. *)
Fixpoint null_replies (l : list (list bytes)) (s : conn) : conn :=
  match l with
  | [] => s
  | _ :: r => null_replies r (CommandCallback None false s)
  end.

Definition OnDisconnectStatus (s : conn) : conn :=
  let s := set_ctx false (async_ctx_ s) (set_connected false s) in
  match connect_state_ s with
  | Some c => if chain_done c s then s else set_done c (set_promise c false s)
  | None => s
  end.

Definition OnConnectStatus (ok rc : bool) (s : conn) : conn :=
  match connect_state_ s with
  | Some c => if ok then OnConnectStep c rc s else set_promise c false s
  | None => s
  end.

(** hiredis ends a context: the callbacks, the disconnect callback if it was connected, the
    memory. *)
Definition end_context (ctx : nat) (s : conn) : conn :=
  match contexts s !! ctx with
  | Some Connected =>
      let s1 := null_replies (sent s) (set_sent [] s) in
      set_contexts (<[ctx := Freed]> (contexts s1)) (OnDisconnectStatus s1)
  | Some Connecting =>
      let s1 := null_replies (sent s) (set_sent [] s) in set_contexts (<[ctx := Freed]> (contexts s1)) s1
  | _ => fail (UsedFreed ctx) s
  end.

Definition redisAsyncFree (ctx : nat) (s : conn) : conn := end_context ctx s.

(** ** Operations *)

Definition Disconnect (s : conn) : conn := post JDisconnect (set_connected false s).

(** [Connect] up to its wait; [c] is the new chain. *)
Definition Connect (c : nat) (s : conn) : conn :=
  let s := set_connected false s in
  let s := if ctx_alive_ s then Disconnect s else s in
  let s := set_connect_state (Some c) (set_chains (<[c := mkChain None false 0]> (chains s)) s) in
  set_waiting (Some c) (results s) (post (JStart c) s).

(** The answer of [redisAsyncConnect]: null, a context with an error, without a socket, or good. *)
Inductive connect_answer := NoContext | BadContext (ctx : nat) | NoSocket (ctx : nat) | GoodContext (ctx : nat).

Definition StartConnectChain (c : nat) (a : connect_answer) (s : conn) : conn :=
  match a with
  | NoContext => set_promise c false (set_ctx (ctx_alive_ s) None s)
  | BadContext ctx =>
      set_promise c false (set_ctx (ctx_alive_ s) (Some ctx) (set_contexts (<[ctx := Connecting]> (contexts s)) s))
  | NoSocket ctx =>
      set_promise c false (set_ctx (ctx_alive_ s) None (set_contexts (<[ctx := Freed]> (contexts s)) s))
  | GoodContext ctx => set_ctx true (Some ctx) (set_contexts (<[ctx := Connecting]> (contexts s)) s)
  end.

Definition free_context (s : conn) : conn :=
  match async_ctx_ s with
  | Some ctx => let s := redisAsyncFree ctx s in set_ctx (ctx_alive_ s) None s
  | None => s
  end.

Definition FailConnect (s : conn) : conn :=
  let s := free_context s in set_connect_state None (set_ctx false (async_ctx_ s) s).

Definition DisconnectInternal (s : conn) : conn :=
  let s := free_context s in set_connected false (set_connect_state None (set_ctx false (async_ctx_ s) s)).

Definition fresh_context (a : connect_answer) (s : conn) : bool :=
  match a with
  | NoContext => true
  | BadContext c | NoSocket c | GoodContext c => bool_decide (contexts s !! c = None)
  end.

Inductive label :=
  | LConnect (c : nat) | LReady | LTimeout | LDisconnect
  | LIo (a : connect_answer)
  | LConnectStatus (ctx : nat) (ok rc : bool)
  | LDisconnected (ctx : nat)
  | LReply (ctx : nat) (r : option redisReply) (rc : bool)
  | LCommand (words : list bytes) (id : nat) (inner : option nat) (rc : bool).

Definition step (l : label) (s : conn) : option conn :=
  match l with
  | LConnect c =>
      match waiting s, chains s !! c with None, None => Some (Connect c s) | _, _ => None end
  | LReady =>
      c ← waiting s; ch ← chains s !! c; ok ← promise ch;
      Some (set_connected ok (set_waiting None (results s ++ [ok]) s))
  | LTimeout =>
      c ← waiting s; Some (post JFail (set_waiting None (results s ++ [false]) s))
  | LDisconnect => Some (Disconnect s)
  | LIo a =>
      match io s with
      | [] => None
      | JStart c :: r => if fresh_context a s then Some (StartConnectChain c a (set_io r s)) else None
      | JFail :: r => Some (FailConnect (set_io r s))
      | JDisconnect :: r => Some (DisconnectInternal (set_io r s))
      end
  | LConnectStatus ctx ok rc =>
      match contexts s !! ctx with
      | Some Connecting =>
          if ok then Some (OnConnectStatus true rc (set_contexts (<[ctx := Connected]> (contexts s)) s))
          else let s := OnConnectStatus false rc s in Some (set_contexts (<[ctx := Freed]> (contexts s)) s)
      | _ => None
      end
  | LDisconnected ctx =>
      match contexts s !! ctx with Some Connected => Some (end_context ctx s) | _ => None end
  | LReply ctx r rc =>
      match contexts s !! ctx, sent s with
      | Some Connected, _ :: rest => Some (CommandCallback r rc (set_sent rest s))
      | _, _ => None
      end
  | LCommand words id inner rc => Some (PostUser words id inner rc s)
  end.

Abbreviation exec := (run_steps step).

(** ** The pool *)

Record pool := mkPool { connections_ : list conn; next_index_ : Z }.

(** [pool_size] as [Init] takes it. *)
Definition effective_size (pool_size : Z) : Z := if 0 <? pool_size then pool_size else 1.

(** [Init]: [conns] are the connections it made, each after its [Connect]. *)
Definition Init (pool_size : Z) (conns : list conn) (p : pool) : option (bool * pool) :=
  if Z.of_nat (length conns) =? effective_size pool_size
  then Some (match conns with [] => false | _ => true end, mkPool conns (next_index_ p))
  else None.

Definition CloseAll (p : pool) : list conn * pool := (List.map Disconnect (connections_ p), mkPool [] (next_index_ p)).

Definition IsConnected (p : pool) (i : Z) : bool :=
  match connections_ p !! Z.to_nat i with Some c => connected_ c | None => false end.

(** The loop of [GetConnection]: [n] connections are left to try from [try_idx] on. *)
Fixpoint try_from (p : pool) (size : Z) (idx : Z) (i : nat) (n : nat) : option Z :=
  match n with
  | O => None
  | S n =>
      let try_idx := (idx + 1 + Z.of_nat i) mod size in
      if IsConnected p try_idx then Some try_idx else try_from p size idx (S i) n
  end.

Definition GetConnection (p : pool) : option Z * pool :=
  match connections_ p with
  | [] => (None, p)
  | _ =>
      let size := Z.of_nat (length (connections_ p)) in
      let idx := next_index_ p mod size in
      let p' := mkPool (connections_ p) (u64 (next_index_ p + 1)) in
      (if IsConnected p idx then Some idx else try_from p size idx 0 (length (connections_ p)), p')
  end.

Definition CountHealthy (p : pool) : nat := length (List.filter connected_ (connections_ p)).
Definition IsHealthy (p : pool) : bool := (0 <? CountHealthy p)%nat.

(** ** The handshake cannot succeed *)

(** Nothing was ever sent, and no handshake got past its first step. *)
Definition never_inv (s : conn) : Prop :=
  connected_ s = false /\ pending_cb_ s = None /\ sent s = [] /\
  (forall c ch, chains s !! c = Some ch -> promise ch <> Some true /\ step_ ch = 0) /\
  Forall (fun r => r = false) (results s) /\ Forall (fun x => snd x = not_connected) (called s).

Ltac simpl_conn :=
  cbn [db_index connected_ ctx_alive_ async_ctx_ connect_state_ pending_cb_ chains waiting results io contexts sent called
       faults set_connected set_ctx set_connect_state set_pending set_chains set_waiting set_io set_contexts set_sent
       call_user fail post promise done step_] in *.

Lemma refused_unconnected s : connected_ s = false -> refused s = true.
Proof. unfold refused. intros ->. by destruct (async_ctx_ s). Qed.

Lemma chains_insert_ok (m : gmap nat ConnectChain) c ch :
  (forall c ch, m !! c = Some ch -> promise ch <> Some true /\ step_ ch = 0) ->
  promise ch <> Some true /\ step_ ch = 0 ->
  forall c' ch', <[c := ch]> m !! c' = Some ch' -> promise ch' <> Some true /\ step_ ch' = 0.
Proof.
  intros Hm Hch c' ch'. destruct (decide (c = c')) as [->|E].
  - rewrite lookup_insert_eq. by intros [= <-].
  - rewrite lookup_insert_ne by done. apply Hm.
Qed.

Lemma set_promise_never c s : never_inv s -> never_inv (set_promise c false s).
Proof.
  unfold set_promise, never_inv. intros (H1 & H2 & H3 & H4 & H5 & H6).
  destruct (chains s !! c) as [[[b|] d n]|] eqn:E; simpl_conn; splits; try done.
  apply chains_insert_ok; [done|]. by apply H4 in E as [_ E].
Qed.

Lemma set_done_never c s : never_inv s -> never_inv (set_done c s).
Proof.
  unfold set_done, never_inv. intros (H1 & H2 & H3 & H4 & H5 & H6).
  destruct (chains s !! c) as [ch|] eqn:E; simpl_conn; splits; try done.
  apply chains_insert_ok; [done|]. by apply H4 in E.
Qed.

Lemma chain_fails_never c s : never_inv s -> never_inv (chain_fails c s).
Proof. intros H. by apply set_done_never, set_promise_never. Qed.

Lemma OnConnectStep_never c rc s : never_inv s -> never_inv (OnConnectStep c rc s).
Proof.
  intros H. unfold OnConnectStep. destruct (chain_done c s) eqn:Ed; [done|].
  assert (chain_step c s = 0) as ->.
  { unfold chain_step, chain_done in *. destruct (chains s !! c) as [ch|] eqn:E; [|done]. by apply H in E as [_ E]. }
  cbn. unfold ping_step. rewrite refused_unconnected by apply H. cbn. by apply chain_fails_never.
Qed.

Lemma set_ctx_never b c s : never_inv s -> never_inv (set_ctx b c s).
Proof. done. Qed.
Lemma set_contexts_never m s : never_inv s -> never_inv (set_contexts m s).
Proof. done. Qed.
Lemma set_connect_state_never c s : never_inv s -> never_inv (set_connect_state c s).
Proof. done. Qed.
Lemma set_io_never q s : never_inv s -> never_inv (set_io q s).
Proof. done. Qed.
Lemma fail_never f s : never_inv s -> never_inv (fail f s).
Proof. done. Qed.
Lemma set_connected_never s : never_inv s -> never_inv (set_connected false s).
Proof. by intros (_ & H). Qed.
Create HintDb never.
#[local] Hint Resolve set_promise_never set_done_never chain_fails_never OnConnectStep_never set_ctx_never
  set_contexts_never set_connect_state_never set_io_never fail_never set_connected_never : never.

Lemma OnDisconnectStatus_never s : never_inv s -> never_inv (OnDisconnectStatus s).
Proof.
  intros H. unfold OnDisconnectStatus. simpl_conn.
  destruct (connect_state_ s); [|by auto with never]. destruct (chain_done _ _); auto 7 with never.
Qed.

Lemma end_context_never ctx s : never_inv s -> never_inv (end_context ctx s).
Proof.
  intros H. unfold end_context. pose proof H as (_ & _ & E & _). rewrite E. cbn [null_replies].
  assert (never_inv (set_sent [] s)) as H' by (unfold never_inv in *; simpl_conn; tauto).
  destruct (contexts s !! ctx) as [[]|]; auto using OnDisconnectStatus_never with never.
Qed.

Lemma free_context_never s : never_inv s -> never_inv (free_context s).
Proof.
  intros H. unfold free_context, redisAsyncFree. destruct (async_ctx_ s); [|done].
  by apply set_ctx_never, end_context_never.
Qed.

Lemma step_never l s s' : never_inv s -> step l s = Some s' -> never_inv s'.
Proof.
  intros H Hs. destruct l; cbn [step] in Hs.
  - destruct (waiting s); [done|]. destruct (chains s !! c); [done|]. injection Hs as <-.
    destruct H as (H1 & H2 & H3 & H4 & H5 & H6). unfold Connect, Disconnect.
    simpl_conn. destruct (ctx_alive_ s); unfold never_inv; simpl_conn; splits; try done; by apply chains_insert_ok.
  - destruct (waiting s) as [c|]; [|done]. simpl in Hs. destruct (chains s !! c) as [ch|] eqn:E; [|done]. simpl in Hs.
    destruct (promise ch) as [b|] eqn:P; [|done]. injection Hs as <-.
    destruct H as (H1 & H2 & H3 & H4 & H5 & H6). destruct (H4 _ _ E) as [Hb _].
    destruct b; [congruence|]. unfold never_inv; simpl_conn; splits; try done. apply Forall_app. by repeat constructor.
  - destruct (waiting s) as [c|]; [|done]. injection Hs as <-. destruct H as (H1 & H2 & H3 & H4 & H5 & H6).
    unfold never_inv; simpl_conn; splits; try done. apply Forall_app. by repeat constructor.
  - injection Hs as <-. unfold Disconnect. by apply set_io_never, set_connected_never.
  - destruct (io s) as [|[] r]; [done| | |].
    + destruct (fresh_context a s); [|done]. injection Hs as <-. destruct a; simpl; auto 6 with never.
    + injection Hs as <-. unfold FailConnect. apply set_connect_state_never, set_ctx_never, free_context_never. auto with never.
    + injection Hs as <-. unfold DisconnectInternal.
      apply set_connected_never, set_connect_state_never, set_ctx_never, free_context_never. auto with never.
  - destruct (contexts s !! ctx) as [[]|]; try done. destruct ok; injection Hs as <-; unfold OnConnectStatus; simpl_conn;
      destruct (connect_state_ s); auto 6 with never.
  - destruct (contexts s !! ctx) as [[]|]; try done. injection Hs as <-. by apply end_context_never.
  - destruct H as (_ & _ & H & _). rewrite H in Hs. by destruct (contexts s !! ctx) as [[]|].
  - injection Hs as <-. unfold PostUser. rewrite refused_unconnected by apply H.
    destruct H as (H1 & H2 & H3 & H4 & H5 & H6). unfold never_inv; simpl_conn; splits; try done.
    apply Forall_app. by repeat constructor.
Qed.

Lemma reached_never ls db s : exec ls (make db) = Some s -> never_inv s.
Proof.
  intros He. eapply run_steps_invariant; [apply step_never| |exact He]. unfold never_inv. by splits.
Qed.

(** ** Properties *)

(** C11: [Connect] never succeeds.  Whatever the server, hiredis and the callers do, in every
    reachable state of a connection [connected_] is false, every [Connect] that returned has
    returned false, no command was ever sent, not even the PING of the handshake, and every
    command of a user was answered with the error "not connected": [PostCommand] refuses to
    send while [connected_] is false, and only the end of the handshake, whose commands it
    sends, sets it. *)
Theorem connect_never_succeeds (ls : list label) (db : Z) (s : conn) :
  exec ls (make db) = Some s ->
  connected_ s = false /\ Forall (fun r => r = false) (results s) /\ sent s = [] /\
  Forall (fun x => snd x = not_connected) (called s).
Proof.
  intros He. apply reached_never in He as (H1 & _ & H3 & _ & H5 & H6). done.
Qed.

(** What one sees of a connection that is up. *)
Definition view (s : conn) : bool * gmap nat context * list (list bytes) * option callback * list (nat * RedisValue) * list fault :=
  (refused s, contexts s, sent s, pending_cb_ s, called s, faults s).

Lemma step_command words id inner rc s :
  refused s = false ->
  exists s1, step (LCommand words id inner rc) s = Some s1 /\
    view s1 = (false, contexts s, if rc then sent s ++ [words] else sent s,
               if rc then Some (User id inner) else None, called s, faults s).
Proof.
  intros H. eexists. cbn [step]. unfold PostUser. rewrite H. split; [reflexivity|].
  unfold view, refused in *. destruct s; simpl in *. by destruct rc; simpl; rewrite H.
Qed.

Lemma step_reply ctx r s w rest id :
  contexts s !! ctx = Some Connected -> sent s = w :: rest -> pending_cb_ s = Some (User id None) ->
  exists s1, step (LReply ctx r true) s = Some s1 /\
    view s1 = (refused s, contexts s, rest, None, called s ++ [(id, from_pointer r)], faults s).
Proof.
  intros H1 H2 H3. eexists. cbn [step]. rewrite H1, H2. split; [reflexivity|].
  unfold CommandCallback, view. destruct s. simpl in *. by rewrite H3.
Qed.

Lemma step_reply_inner ctx r s w rest id i :
  refused s = false ->
  contexts s !! ctx = Some Connected -> sent s = w :: rest -> pending_cb_ s = Some (User id (Some i)) ->
  exists s1, step (LReply ctx r true) s = Some s1 /\
    view s1 = (refused s, contexts s, rest ++ [[text "GET"]], None, called s ++ [(id, from_pointer r)], faults s).
Proof.
  intros H0 H1 H2 H3. eexists. cbn [step]. rewrite H1, H2. split; [reflexivity|].
  unfold CommandCallback, view, refused in *. destruct s. simpl in *. rewrite H3. cbn [run_callback].
  destruct async_ctx_0; [|done]. destruct connected_0; [|done]. unfold PostUser. by simpl.
Qed.

Lemma step_reply_empty ctx r s w rest :
  contexts s !! ctx = Some Connected -> sent s = w :: rest -> pending_cb_ s = None ->
  exists s1, step (LReply ctx r true) s = Some s1 /\ called s1 = called s /\ faults s1 = faults s ++ [EmptyCallback].
Proof.
  intros H1 H2 H3. eexists. cbn [step]. rewrite H1, H2. split; [reflexivity|].
  unfold CommandCallback. destruct s. simpl in *. by rewrite H3.
Qed.

(** One slot for all callbacks.  Were the connection up, a command whose reply comes before
    the next one is issued would be answered correctly; but of two commands under way the
    second one's callback gets the first one's reply and the second reply calls an empty
    function, a command issued by a callback loses its slot when that callback returns, and
    the callback of a command that hiredis does not take is never called. *)
Theorem one_slot_for_callbacks (s : conn) (ctx : nat) (w1 w2 : list bytes) (i1 i2 : nat) (r1 r2 : option redisReply) :
  refused s = false -> contexts s !! ctx = Some Connected -> sent s = [] ->
  (exists s', exec [LCommand w1 i1 None true; LReply ctx r1 true; LCommand w2 i2 None true; LReply ctx r2 true] s = Some s' /\
     called s' = called s ++ [(i1, from_pointer r1); (i2, from_pointer r2)] /\ faults s' = faults s) /\
  (exists s', exec [LCommand w1 i1 None true; LCommand w2 i2 None true; LReply ctx r1 true; LReply ctx r2 true] s = Some s' /\
     called s' = called s ++ [(i2, from_pointer r1)] /\ faults s' = faults s ++ [EmptyCallback]) /\
  (exists s', exec [LCommand w1 i1 (Some i2) true; LReply ctx r1 true; LReply ctx r2 true] s = Some s' /\
     called s' = called s ++ [(i1, from_pointer r1)] /\ faults s' = faults s ++ [EmptyCallback]) /\
  (exists s', exec [LCommand w1 i1 None false] s = Some s' /\ called s' = called s /\ pending_cb_ s' = None).
Proof.
  intros Hr Hc Hs. splits; cbn [run_steps].
  - destruct (step_command w1 i1 None true s Hr) as (s1 & -> & [= R1 C1 S1 P1 L1 F1]). rewrite Hs in S1.
    destruct (step_reply ctx r1 s1 w1 [] i1) as (s2 & E2 & [= R2 C2 S2 P2 L2 F2]); [by rewrite C1|done|done|].
    destruct (step_command w2 i2 None true s2) as (s3 & E3 & [= R3 C3 S3 P3 L3 F3]); [congruence|]. rewrite S2 in S3.
    destruct (step_reply ctx r2 s3 w2 [] i2) as (s4 & E4 & [= R4 C4 S4 P4 L4 F4]); [by rewrite C3, C2, C1|done|done|].
    cbn [mbind option_bind]. rewrite E2. cbn [mbind option_bind]. rewrite E3. cbn [mbind option_bind]. rewrite E4.
    exists s4. splits; [done| |congruence]. by rewrite L4, L3, L2, L1, <- app_assoc.
  - destruct (step_command w1 i1 None true s Hr) as (s1 & -> & [= R1 C1 S1 P1 L1 F1]). rewrite Hs in S1.
    destruct (step_command w2 i2 None true s1) as (s2 & E2 & [= R2 C2 S2 P2 L2 F2]); [congruence|]. rewrite S1 in S2.
    destruct (step_reply ctx r1 s2 w1 [w2] i2) as (s3 & E3 & [= R3 C3 S3 P3 L3 F3]); [by rewrite C2, C1|done|done|].
    destruct (step_reply_empty ctx r2 s3 w2 []) as (s4 & E4 & L4 & F4); [by rewrite C3, C2, C1|done|done|].
    cbn [mbind option_bind]. rewrite E2. cbn [mbind option_bind]. rewrite E3. cbn [mbind option_bind]. rewrite E4.
    exists s4. splits; [done|congruence|congruence].
  - destruct (step_command w1 i1 (Some i2) true s Hr) as (s1 & -> & [= R1 C1 S1 P1 L1 F1]). rewrite Hs in S1.
    destruct (step_reply_inner ctx r1 s1 w1 [] i1 i2) as (s2 & E2 & [= R2 C2 S2 P2 L2 F2]); [done|by rewrite C1|done|done|].
    destruct (step_reply_empty ctx r2 s2 [text "GET"] []) as (s3 & E3 & L3 & F3); [by rewrite C2, C1|done|done|].
    cbn [mbind option_bind]. rewrite E2. cbn [mbind option_bind]. rewrite E3. exists s3.
    splits; [done|congruence|congruence].
  - destruct (step_command w1 i1 None false s Hr) as (s1 & -> & [= R1 C1 S1 P1 L1 F1]). by exists s1.
Qed.

(** A freed context is freed again.  When the server refuses the connection, hiredis frees
    the context after its connect callback; [OnConnectStatus] leaves [async_ctx_] in place, and
    the [Disconnect] that follows, as in [CloseAll], hands it to [redisAsyncFree]. *)
Theorem refused_connection_is_freed_twice :
  exists s, exec [LConnect 1; LIo (GoodContext 7); LConnectStatus 7 false true; LReady; LDisconnect; LIo NoContext] (make 0) = Some s /\
    results s = [false] /\ faults s = [UsedFreed 7].
Proof. eexists. split; [vm_compute; reflexivity|]. done. Qed.

(** ** The pool *)

Lemma IsConnected_lookup p i :
  IsConnected p i = true <-> exists c, connections_ p !! Z.to_nat i = Some c /\ connected_ c = true.
Proof.
  unfold IsConnected. destruct (connections_ p !! Z.to_nat i) as [c|]; [|split; [done|by intros (c & [=] & _)]].
  split; [eauto|]. by intros (c' & [= ->] & H).
Qed.

(** The loop tries [n] connections from the [i]-th after [idx] on. *)
Lemma try_from_spec p size idx i n :
  match try_from p size idx i n with
  | Some j => IsConnected p j = true /\ exists k, (i <= k < i + n)%nat /\ j = (idx + 1 + Z.of_nat k) mod size
  | None => forall k, (i <= k < i + n)%nat -> IsConnected p ((idx + 1 + Z.of_nat k) mod size) = false
  end.
Proof.
  revert i. induction n as [|n IH]; intros i; simpl; [intros; lia|].
  destruct (IsConnected p ((idx + 1 + Z.of_nat i) mod size)) eqn:E.
  - split; [done|]. exists i. split; [lia|done].
  - specialize (IH (S i)). destruct (try_from p size idx (S i) n) as [j|].
    + destruct IH as (H & k & Hk & Hj). split; [done|]. exists k. split; [lia|done].
    + intros k Hk. destruct (decide (k = i)) as [->|Hne]; [done|]. apply IH. lia.
Qed.

(** Every index is reached by the loop. *)
Lemma mod_offset size idx j :
  0 <= idx < size -> 0 <= j < size -> exists k, 0 <= k < size /\ (idx + 1 + k) mod size = j.
Proof.
  intros Hi Hj. exists ((j - idx - 1) mod size). split; [apply Z.mod_pos_bound; lia|].
  rewrite Zplus_mod_idemp_r. replace (idx + 1 + (j - idx - 1)) with j by lia. by apply Z.mod_small.
Qed.

Lemma GetConnection_spec (p : pool) :
  0 <= next_index_ p ->
  let '(r, p') := GetConnection p in
  connections_ p' = connections_ p /\
  match r with
  | Some i =>
      0 <= i < Z.of_nat (length (connections_ p)) /\ IsConnected p i = true /\
      next_index_ p' = u64 (next_index_ p + 1) /\
      let turn := next_index_ p mod Z.of_nat (length (connections_ p)) in
      (IsConnected p turn = true -> i = turn)
  | None => CountHealthy p = 0%nat
  end.
Proof.
  intros Hn. unfold GetConnection. destruct (connections_ p) as [|c0 r0] eqn:El.
  { split; [done|]. unfold CountHealthy. by rewrite El. }
  set (size := Z.of_nat (length (c0 :: r0))). assert (0 < size) as Hs by (unfold size; simpl; lia).
  set (idx := next_index_ p mod size). pose proof (Z.mod_pos_bound (next_index_ p) size Hs) as Hidx. fold idx in Hidx.
  cbn zeta. destruct (IsConnected p idx) eqn:Ei; cbn [connections_ next_index_]; (split; [done|]); [by splits; try lia|].
  pose proof (try_from_spec p size idx 0 (length (c0 :: r0))) as Ht.
  destruct (try_from p size idx 0 (length (c0 :: r0))) as [j|].
  - destruct Ht as (Hj & k & Hk & ->). split; [by apply Z.mod_pos_bound|]. splits; [done|done|]. intros E. congruence.
  - unfold CountHealthy. destruct (List.filter connected_ (connections_ p)) as [|c r] eqn:Ef; [done|]. exfalso.
    assert (In c (List.filter connected_ (connections_ p))) as Hin by (rewrite Ef; by left).
    apply filter_In in Hin as [Hin Hc]. apply list_elem_of_In, list_elem_of_lookup in Hin as [j Hj].
    assert (j < length (c0 :: r0))%nat as Hlt by (rewrite <- El; by eapply lookup_lt_Some).
    destruct (mod_offset size idx (Z.of_nat j)) as (k & Hk & Hkj); [lia|unfold size; lia|].
    specialize (Ht (Z.to_nat k)). rewrite Z2Nat.id, Hkj in Ht by lia.
    assert (IsConnected p (Z.of_nat j) = true) as Hjc; [|rewrite Ht in Hjc; [done|unfold size in Hk; lia]].
    apply IsConnected_lookup. exists c. by rewrite Nat2Z.id.
Qed.

(** [GetConnection] gives the connection whose turn it is when it is connected, else another
    connected one, and nothing only when none is connected; the turn moves on by one at each
    call. *)
Theorem get_connection_finds_one (p : pool) :
  0 <= next_index_ p ->
  let '(r, p') := GetConnection p in
  connections_ p' = connections_ p /\
  match r with
  | Some i =>
      0 <= i < Z.of_nat (length (connections_ p)) /\ IsConnected p i = true /\
      next_index_ p' = u64 (next_index_ p + 1) /\
      let turn := next_index_ p mod Z.of_nat (length (connections_ p)) in
      (IsConnected p turn = true -> i = turn)
  | None => CountHealthy p = 0%nat
  end.
Proof. exact (GetConnection_spec p). Qed.

Lemma unconnected_count (l : list conn) : Forall (fun c => connected_ c = false) l -> List.filter connected_ l = [].
Proof. induction 1 as [|c r H _ IH]; simpl; [done|]. by rewrite H. Qed.

(** The pool of such connections: [Init] answers true, and no connection is ever given out. *)
Lemma pool_gives_nothing (n : Z) (conns : list conn) (p p' : pool) (ok : bool) :
  Forall (fun c => exists ls db, exec ls (make db) = Some c) conns -> 0 <= next_index_ p ->
  Init n conns p = Some (ok, p') -> ok = true /\ fst (GetConnection p') = None /\ IsHealthy p' = false.
Proof.
  intros Hc Hn Hi. unfold Init in Hi. destruct (Z.of_nat (length conns) =? effective_size n) eqn:E; [|done].
  injection Hi as <- <-. apply Z.eqb_eq in E.
  assert (Forall (fun c => connected_ c = false) conns) as Hd.
  { eapply Forall_impl; [exact Hc|]. intros c (ls & db & He). by apply reached_never in He as (H & _). }
  apply unconnected_count in Hd. splits.
  - destruct conns; [|done]. simpl in E. unfold effective_size in E. destruct (0 <? n) eqn:F; lia.
  - pose proof (GetConnection_spec (mkPool conns (next_index_ p)) Hn) as H.
    destruct (GetConnection _) as [[i|] q]; [|done]. cbn [fst]. destruct H as (_ & _ & Hi & _).
    apply IsConnected_lookup in Hi as (c & Hl & Hu). exfalso. cbn [connections_] in Hl.
    assert (In c (List.filter connected_ conns)) as Hin.
    { apply filter_In. split; [|done]. apply list_elem_of_In. by eapply list_elem_of_lookup_2. }
    by rewrite Hd in Hin.
  - unfold IsHealthy, CountHealthy. cbn [connections_]. by rewrite Hd.
Qed.

End WithDouble.

(** ** Concrete runs *)

(** The runs use no floating-point number: any [Double] will do. *)
#[local] Instance unit_double : Double := {|
  double := unit; d_zero := tt; d_one := tt; d_minus_one := tt; d_of_int := fun _ => tt; d_to_int := fun _ => 0;
  strtod := fun _ => None; d_to_string := fun _ => [];
|}.

Abbreviation exec := (run_steps step).

(** Three connections, the first one down: its turn goes to the second. *)
Definition up_and_down : pool :=
  mkPool [make 0; set_connected true (make 0); set_connected true (make 0)] 3.

Lemma get_connection_finds_one_witness :
  0 <= next_index_ up_and_down /\ fst (GetConnection up_and_down) = Some 1 /\ IsConnected up_and_down 1 = true.
Proof.
  split; [done|]. split; [reflexivity|].
  pose proof (get_connection_finds_one up_and_down ltac:(done)) as H.
  destruct (GetConnection up_and_down) as [r p'] eqn:E. injection E as <- <-. apply H.
Defined.

(** A connection that is up, as [one_slot_for_callbacks] takes it. *)
Definition up : conn := set_contexts {[7%nat := Connected]} (set_ctx true (Some 7%nat) (set_connected true (make 0))).

Lemma one_slot_for_callbacks_witness :
  refused up = false /\
  exists s', exec [LCommand [text "GET"; text "a"] 1 None true; LCommand [text "GET"; text "b"] 2 None true;
                   LReply 7 None true; LReply 7 None true] up = Some s' /\
    called s' = called up ++ [(2%nat, from_pointer None)] /\ faults s' = faults up ++ [EmptyCallback].
Proof.
  split; [reflexivity|].
  destruct (one_slot_for_callbacks up 7 [text "GET"; text "a"] [text "GET"; text "b"] 1 2 None None) as (_ & H & _);
    [reflexivity|reflexivity|reflexivity|exact H].
Defined.

(** The handshake of a server that accepts. *)
Definition accepting : list label :=
  [LConnect 1; LIo (GoodContext 7); LConnectStatus 7 true true; LReady; LCommand [] 5 None true].

Lemma connect_never_succeeds_witness :
  exists s, exec accepting (make 0) = Some s /\ results s = [false] /\ called s = [(5%nat, not_connected)] /\ connected_ s = false.
Proof.
  eexists. split; [vm_compute; reflexivity|]. split; [reflexivity|]. split; [vm_compute; reflexivity|].
  eapply (connect_never_succeeds accepting 0). vm_compute. reflexivity.
Defined.

End RedisConnection.
